(* ===== verification/_CoqProject ===== *)
-Q . S2P
Prelude.v
Int128.v
W128.v
RtInt128.v
RtInt64.v
BitInt.v
BitIntOps.v
BitIntMul.v
BitIntDiv.v
BitIntSpec.v
Leb.v
Bus.v
RvEncode.v
RvExpand.v
RvLayouts.v
RvCompress.v
RvSim.v
RvExec.v
RvEmit.v
RvCode.v
RvStream.v
RvArith.v
RvPatch.v
RvTrap.v
RvMachine.v
RvPriv.v
Ir.v
Util.v
IrSem.v
Simulate.v
Rename.v
Paths.v
CopyProp.v
Cfg.v
Fold.v
CopyLocal.v
Dce.v
Verify.v
Magic.v
Emit.v
Expand.v
KnownBits.v
Sccp.v
SccpPaths.v
CfgClean.v
CfgSweep.v
Live.v
LiveSets.v
LSet.v
DeadDefs.v
Round.v
DivMagic.v
