(* ===== verification/Prelude.v ===== *)
(** * The EmbCC verification library

    EmbCC is a C and C++ compiler with its own optimiser, code generators, assembler,
    linker, run-time library and simulator. This library verifies the parts that carry
    its core logic: the optimiser's copy propagation, constant branches, control-flow
    graph and its cleanup, folding of constants, division and dead-code passes, the
    liveness of its register allocator, the verifier of the intermediate
    representation, the integer run time, the variable-length integers its tables are written in, and the RISC-V path from the
    instruction emitter to the simulated core that executes what it writes.

    ** The parts, and the files that model them

    - Arithmetic. [Int128] states what 128-bit operations mean; [W128] models the
      constant folder's pairs of words (src/src/sema/w128.c), [RtInt128] the compiled
      program's run time (src/lib/rt/int128.c, rt.h), [RtInt64] the 64-bit helpers of
      32-bit targets (src/lib/rt/int64.c). Both wide implementations are instances of
      one interface (a class of operations with laws), so the folder and the run time
      agree by construction of the instances.
    - [_BitInt]. [BitInt] models src/lib/rt/bitint.c as programs over a memory of
      limbs; [BitIntOps], [BitIntMul], [BitIntDiv] prove each loop; [BitIntSpec] the
      abstract instructions and their refinement.
    - LEB128. [Leb] models the writers of variable-length integers (src/src/debug/dwarf.c
      and eh.c, src/src/arch/thumb/attrs.c) and their readers (the linker's, the
      assembler writer's, the simulator's, the debugger's and the unwinder's of
      src/lib/rt/unwind.c), each reader an instance of what a reader promises.
    - The optimiser's ground. [Ir] is the data of src/src/ir/ir.h, [Util] the visitors
      of src/src/opt/util.c, [IrSem] the meaning of a function as an executable step
      over an abstract machine (memory, calls and devices are the machine's) and
      [preserves], the refinement every pass is held to; [Simulate] has the simulation
      diagrams, [Rename] the meaning of an instruction whose operands are renamed, and
      [Paths] the paths of a function with the two facts passes rely on: a register is
      set before it is read, and a register written once holds what its only writer
      computed.
    - The optimiser's passes. [CopyProp] and [CopyLocal] model pass_copyprop and
      pass_copyprop_local with its table of copies (src/src/opt/copyprop.c); [Cfg]
      models build_cfg, its blocks, edges and predecessors, and the bodies of natural
      loops (src/src/opt/cfg.c); [Sccp] models pass_sccp, the branches it
      decides, the blocks it reaches and the removal of the others (src/src/opt/sccp.c); [SccpPaths]
      what it keeps of a function's form; [CfgClean] models pass_cfgclean
      (src/src/opt/cfgclean.c): jumps forwarded, branches to what follows them or
      decided already, branches around jumps, code nothing reaches; [CfgSweep] proves
      its last stages and the whole; [Fold] models the arithmetic and the table of
      constants of src/src/opt/fold.c, and [KnownBits] its analysis of the bits known to
      be zero; [Dce] models pass_dce (src/src/opt/dce.c), [Verify] the checks of
      src/src/opt/verify.c, [Magic], [Emit], [Expand] and [DivMagic] the magic numbers
      and pass_divmagic of src/src/opt/divmagic.c.
    - Liveness. [Live] models ra_live_compute of src/src/arch/regalloc.c (blocks, edges,
      rows sorted by counting, the search for one vreg at a time, ranges), [LiveSets]
      proves it exact, [LSet] models the sparse set a walk keeps (ra_lset), and
      [DeadDefs] is pass_deaddefs (src/src/opt/dce.c), the optimiser's client of both.
    - The round. [Round] states as a class, [Pass], what a pass promises the driver
      (under its own condition on the function it preserves it), gives an instance per
      pass, and chains constant branches, copies and dead code in the order
      src/src/opt/opt.c runs them, each leaving the next one's condition true, and so for
      the dead definitions after the rounds.
    - RISC-V. [RvEncode] models the encoders and the compressor and [RvEmit] the
      emitters and patches of src/src/arch/riscv/emit.c (with the byte writers of
      src/src/arch/code.c); [RvExpand] the simulator's decoder of compressed
      instructions, [RvSim] its registers, memory accesses and instructions, all of
      src/tools/embsim/riscv.c; [Bus] the simulator's memory bus (bus.c, sim.h).
      [RvLayouts] and [RvCompress] relate the two instruction formats; [RvExec] keeps
      the core's invariant; [RvCode] fetches and executes emitted bytes; [RvArith] and
      [RvPatch] carry single instructions and branches from emitter to effect, and
      [RvStream] any sequence of emitters. [RvTrap] adds the machine-mode CSRs, traps,
      interrupts and the whole of the core's step; [RvMachine] and [RvPriv] prove what
      they guarantee.

    ** What the theorems show

    - Refinement: a function the passes transform has the same outcomes and final
      worlds, termination and freedom from undefined behaviour included, pass by pass
      ([Dce.pass_dce_preserves], [DivMagic.pass_divmagic_preserves],
      [CopyProp.pass_copyprop_preserves], [CopyLocal.pass_copyprop_local_preserves],
      [Sccp.pass_sccp_preserves], [CfgSweep.pass_cfgclean_preserves], [DeadDefs.pass_deaddefs_preserves]) and for a stretch of the optimiser's round
      ([Round.round_tail_preserves]); the local copy table is the set of copies in
      force ([CopyLocal.lctab_refines]), the sparse set of live vregs a set
      ([LSet.ra_lset_refines]); every [_BitInt] instruction does to memory
      what its abstract instruction says ([BitIntSpec.bitint_refines]).
    - Round trips: a LEB128 number of any writer is read back by any reader
      ([Leb.uleb_roundtrip], [Leb.sleb_roundtrip]); a compressed instruction expands to
      the one it was made from ([RvCompress.rv_compress_expand]).
    - Liveness, exactly: the live sets are the least solution of the equations on
      instructions ([LiveSets.ra_live_exact]) and the ranges the tightest
      ([LiveSets.ra_ranges_tight]).
    - Functional correctness of the arithmetic on every input, of the magic numbers,
      of loop bodies, of emitted constants, ALU and M instructions, branches and
      jumps, executed byte by byte on the core, compressed or not.
    - Equivalence: the folder and the run time; the optimiser's folding and the
      machine's own evaluation ([Fold.fold_matches_machine]); one walk of the copy
      chains and the propagation of one move at a time; a compressed instruction and the
      one it came from.
    - Termination: chains of copies end ([CopyProp.copyprop_chains_end]); the search
      for reachable blocks reaches its fixed point ([Sccp.sccp_reach_exact]).
    - Invariants: blocks partition a function and their edges are the instructions'
      ([Cfg.build_cfg_blocks]); the table of constants holds on every path
      ([Fold.lk_consts_hold]); what dead-code elimination keeps of the verifier's
      conditions; the form of the core's state; the legal privilege levels.
    - Safety and liveness: every step of a function stays in a block or follows an edge
      ([Cfg.cfg_covers_steps]); a bit said to be zero is zero
      ([KnownBits.known_zero_sound]); a program in user mode changes no machine register
      but by trapping to the machine's vector; an enabled interrupt is taken at the next
      step; emission never changes code already written.
    - Error behaviour: the three places where a pass changes what a program does
      ([Sccp.sccp_narrow_branch], [CfgSweep.cfgclean_second_branch],
      [DivMagic.divmagic_shift32]); a sign extension that is undefined on 32-bit targets
      ([Leb.rd_sleb_32_undefined]); division by zero,
      internal errors of the emitter, refused patches, accesses past the bus.

    ** Hypotheses

    The passes are proved for functions in the form IR generation leaves, each asking
    for what it relies on: [wf_func] (reads name registers the function has, results
    are temporaries), [strict] (every path to a use of a temporary writes it first),
    [kinds_ok] (moves copy temporaries, slots are named as slots), [labels_ok] (labels
    placed once), no exception scopes where the graph has no edges for them, computed
    gotos that go to labels whose address is taken, and constants within the width they
    are used at ([branch_typed], [kz_typed], [imms_ok]); for the cleanup, branches that
    test a temporary, always at one width ([conds_ok]), and landing pads that follow
    their labels ([landing_ok]); for the dead definitions, fewer than [2 ^ 30] vregs
    ([KEPT], the source's own bound). Each theorem's witness is a concrete
    function that has them. Memory, calls and devices are the machine's, with no
    assumption but that only the function's slots escape and, for the known bits, that
    a narrow unsigned load is zero-extended.

    ** Bounds and fuel

    Loops whose bound the source computes run that many rounds ([for_up], [for_down]).
    Where the source has no bound, the fuel is shown to be enough by the theorem that
    uses it: 33 and 64 rounds of the magic-number searches, four levels of [li_emit]
    (twelve bits of a 64-bit value go at each), the length of the alias list for
    bit-band aliases that lead to one another, the number of registers for a chain of
    copies, the number of blocks for the searches of the graph and of live vregs, six levels of
    known-zero analysis and sixteen hops of a forwarded jump (the source's own limits),
    ten bytes of a 64-bit LEB128 number. The IR semantics is a step function;
    [halts] asks for some number of steps, so nothing in it runs out. Integers keep the
    width the source gives them ([uwrap], [swrap]); where the source overflows a signed
    type the model wraps, which happens in two places: [RvCode.li_emit_overflow] says
    where in li_emit, and the debugger's signed LEB128 reader shifts into the sign of
    its long at the tenth byte. [unsigned long] has the 64 bits of an LP64 host in the
    compiler and its tools, and the target's word in the unwinder.

    ** Not modelled

    The front ends (preprocessor, lexer, parsers, type checkers), IR generation, the
    other optimiser passes (of the modelled files, the rewriting rules of pass_fold, the
    dominator tree of cfg.c and the jump threading of cfgclean.c), the other thirteen targets, the linker and the object
    writers, debug information, the driver and the libraries: they are large and
    mostly independent of the parts above. Of the modelled files, the floating-point
    code is left out throughout (conversions of [_BitInt] to [double], the F and D
    instructions and their emitters), as is what only touches addresses of the
    compiler's own heap (the verifier's check for shared argument arrays) or the
    host (the trace, the board, semihosting). *)

(** ** Prelude: machine integers, bits, lists and loops *)

From stdpp Require Import base numbers list.
From Stdlib Require Import ZArith Lia Btauto.

Open Scope Z_scope.

Create HintDb wide.

(** ** Machine integers

    The compiler is built for LP64 hosts and its runtime uses fixed-width
    types, so an unsigned [w]-bit integer is a [Z] in [0, 2^w) and a signed
    one a [Z] in [-2^(w-1), 2^(w-1)); [uwrap] and [swrap] are C's conversions
    to the two. *)

Definition uwrap (w x : Z) : Z := x mod 2 ^ w.
Definition swrap (w x : Z) : Z := (x + 2 ^ (w - 1)) mod 2 ^ w - 2 ^ (w - 1).

(** [unsigned], [unsigned long], [int] and [long]. *)
Abbreviation u32 := (uwrap 32).
Abbreviation u64 := (uwrap 64).
Abbreviation s32 := (swrap 32).
Abbreviation s64 := (swrap 64).

(** C's truth value of a test. *)
Definition b2z (b : bool) : Z := if b then 1 else 0.

(** In range for the unsigned, or the signed, type of [w] bits. *)
Definition is_u (w x : Z) : Prop := 0 <= x < 2 ^ w.
Definition is_s (w x : Z) : Prop := - 2 ^ (w - 1) <= x < 2 ^ (w - 1).

#[export] Instance is_u_dec w x : Decision (is_u w x).
Proof. unfold is_u. apply _. Defined.
#[export] Instance is_s_dec w x : Decision (is_s w x).
Proof. unfold is_s. apply _. Defined.

(** Powers of two that [lia] may treat as positive unknowns. *)
Lemma pow2_pos w : 0 <= w -> 0 < 2 ^ w.
Proof. intros. apply Z.pow_pos_nonneg; lia. Qed.

Lemma pow2_half w : 0 < w -> 2 ^ w = 2 * 2 ^ (w - 1).
Proof. intros. rewrite <- Z.pow_succ_r by lia. f_equal. lia. Qed.

Lemma pow2_le_mono a b : a <= b -> 2 ^ a <= 2 ^ b.
Proof. intros. apply Z.pow_le_mono_r; lia. Qed.

Lemma uwrap_range w x : 0 <= w -> is_u w (uwrap w x).
Proof. intros. apply Z.mod_pos_bound, pow2_pos. lia. Qed.

Lemma uwrap_small w x : is_u w x -> uwrap w x = x.
Proof. apply Z.mod_small. Qed.

Lemma uwrap_uwrap w x : uwrap w (uwrap w x) = uwrap w x.
Proof. unfold uwrap. destruct (Z.eq_dec (2 ^ w) 0) as [->|];
  [now rewrite !Z.mod_0_r | now apply Z.mod_mod]. Qed.

Lemma swrap_range w x : 0 < w -> is_s w (swrap w x).
Proof.
  intros. unfold is_s, swrap.
  pose proof (Z.mod_pos_bound (x + 2 ^ (w - 1)) (2 ^ w) (pow2_pos w ltac:(lia))).
  rewrite (pow2_half w) in * by lia. lia.
Qed.

Lemma swrap_small w x : 0 < w -> is_s w x -> swrap w x = x.
Proof.
  unfold is_s, swrap. intros Hw ?.
  rewrite Z.mod_small; [lia|]. rewrite (pow2_half w) by lia. lia.
Qed.

(** A wrapped value differs from the original by a multiple of [2^w]. *)
Lemma uwrap_eq w x : 0 <= w -> exists k, uwrap w x = x + k * 2 ^ w.
Proof.
  intros. exists (- (x / 2 ^ w)). unfold uwrap.
  rewrite Z.mod_eq by (pose proof (pow2_pos w); lia). ring.
Qed.

Lemma swrap_eq w x : 0 < w -> exists k, swrap w x = x + k * 2 ^ w.
Proof.
  intros. exists (- ((x + 2 ^ (w - 1)) / 2 ^ w)). unfold swrap.
  rewrite Z.mod_eq by (pose proof (pow2_pos w); lia). ring.
Qed.

Lemma uwrap_add_mul w x k : uwrap w (x + k * 2 ^ w) = uwrap w x.
Proof. unfold uwrap. apply Z_mod_plus_full. Qed.

Lemma swrap_add_mul w x k : swrap w (x + k * 2 ^ w) = swrap w x.
Proof.
  unfold swrap. replace (x + k * 2 ^ w + 2 ^ (w - 1)) with (x + 2 ^ (w - 1) + k * 2 ^ w) by ring.
  now rewrite Z_mod_plus_full.
Qed.

Lemma uwrap_swrap w x : 0 < w -> uwrap w (swrap w x) = uwrap w x.
Proof. intros. destruct (swrap_eq w x) as [k ->]; [lia|]. apply uwrap_add_mul. Qed.

Lemma swrap_uwrap w x : 0 < w -> swrap w (uwrap w x) = swrap w x.
Proof. intros. destruct (uwrap_eq w x) as [k ->]; [lia|]. apply swrap_add_mul. Qed.

Lemma swrap_swrap w x : 0 < w -> swrap w (swrap w x) = swrap w x.
Proof. intros. destruct (swrap_eq w x) as [k E]; [lia|]. rewrite E at 1. apply swrap_add_mul. Qed.

(** Congruence modulo [2^w], the relation every wrap-around operation
    respects, as a setoid. *)
Definition eqw (w x y : Z) : Prop := exists k, x = y + k * 2 ^ w.

#[export] Instance eqw_equiv w : Equivalence (eqw w).
Proof.
  split.
  - intros x. exists 0. lia.
  - intros x y [k ->]. exists (- k). lia.
  - intros x y z [k ->] [l ->]. exists (k + l). lia.
Qed.

#[export] Instance eqw_add w : Proper (eqw w ==> eqw w ==> eqw w) Z.add.
Proof. intros x x' [k ->] y y' [l ->]. exists (k + l). ring. Qed.
#[export] Instance eqw_sub w : Proper (eqw w ==> eqw w ==> eqw w) Z.sub.
Proof. intros x x' [k ->] y y' [l ->]. exists (k - l). ring. Qed.
#[export] Instance eqw_mul w : Proper (eqw w ==> eqw w ==> eqw w) Z.mul.
Proof. intros x x' [k ->] y y' [l ->]. exists (k * y' + l * x' + k * l * 2 ^ w). ring. Qed.
#[export] Instance eqw_opp w : Proper (eqw w ==> eqw w) Z.opp.
Proof. intros x x' [k ->]. exists (- k). ring. Qed.
#[export] Instance uwrap_proper w : Proper (eqw w ==> eq) (uwrap w).
Proof. intros x y [k ->]. apply uwrap_add_mul. Qed.
#[export] Instance swrap_proper w : Proper (eqw w ==> eq) (swrap w).
Proof. intros x y [k ->]. apply swrap_add_mul. Qed.

Lemma eqw_uwrap w x : 0 <= w -> eqw w (uwrap w x) x.
Proof. apply uwrap_eq. Qed.
Lemma eqw_swrap w x : 0 < w -> eqw w (swrap w x) x.
Proof. apply swrap_eq. Qed.
Lemma eqw_mul_pow w x k : eqw w (x + k * 2 ^ w) x.
Proof. now exists k. Qed.
Lemma eqw_mod w x y : 0 <= w -> uwrap w x = uwrap w y -> eqw w x y.
Proof. intros Hw E. rewrite <- (eqw_uwrap w x), E, eqw_uwrap by lia. reflexivity. Qed.

Lemma eqw_u w x y : is_u w x -> is_u w y -> eqw w x y -> x = y.
Proof. intros Hx Hy E%uwrap_proper. now rewrite !uwrap_small in E. Qed.
Lemma eqw_s w x y : 0 < w -> is_s w x -> is_s w y -> eqw w x y -> x = y.
Proof. intros Hw Hx Hy E%swrap_proper. now rewrite !swrap_small in E. Qed.

(** Congruence at a width carries over to every narrower one, and to a word
    placed higher up. *)
Lemma eqw_weaken w v x y : 0 <= v <= w -> eqw w x y -> eqw v x y.
Proof.
  intros ? [k ->]. exists (k * 2 ^ (w - v)). rewrite <- Z.mul_assoc, <- Z.pow_add_r by lia.
  do 3 f_equal. lia.
Qed.

Lemma eqw_high w x y : 0 <= w -> eqw w x y -> eqw (w + w) (x * 2 ^ w) (y * 2 ^ w).
Proof. intros ? [k ->]. exists k. rewrite Z.pow_add_r by lia. ring. Qed.

(** The value of a [w]-bit quantity read signed, from its unsigned value. *)
Lemma swrap_of_u w x : 0 < w -> is_u w x ->
  swrap w x = if x <? 2 ^ (w - 1) then x else x - 2 ^ w.
Proof.
  unfold is_u. intros Hw Hx. pose proof (pow2_half w Hw).
  destruct (Z.ltb_spec x (2 ^ (w - 1))).
  - apply swrap_small; [lia|]. unfold is_s. lia.
  - replace x with (x - 2 ^ w + 1 * 2 ^ w) at 1 by ring. rewrite swrap_add_mul.
    apply swrap_small; [lia|]. unfold is_s. lia.
Qed.

Lemma uwrap_of_s w x : 0 < w -> is_s w x ->
  uwrap w x = if x <? 0 then x + 2 ^ w else x.
Proof.
  unfold is_s. intros Hw Hx. pose proof (pow2_half w Hw).
  destruct (Z.ltb_spec x 0).
  - replace x with (x + 2 ^ w + -1 * 2 ^ w) at 1 by ring. rewrite uwrap_add_mul.
    apply uwrap_small. unfold is_u. lia.
  - apply uwrap_small. unfold is_u. lia.
Qed.

(** The machine widths. *)
Lemma s32_id z : - 2 ^ 31 <= z < 2 ^ 31 -> s32 z = z.
Proof. intros. apply swrap_small; [lia|]. unfold is_s. lia. Qed.
Lemma s64_id z : - 2 ^ 63 <= z < 2 ^ 63 -> s64 z = z.
Proof. intros. apply swrap_small; [lia|]. unfold is_s. lia. Qed.
Lemma u32_id z : 0 <= z < 2 ^ 32 -> u32 z = z.
Proof. intros. apply uwrap_small; unfold is_u; lia. Qed.
Lemma u64_id x : 0 <= x < 2 ^ 64 -> u64 x = x.
Proof. intros. apply uwrap_small; unfold is_u; lia. Qed.

(** ** Bits *)

Lemma land_ones_mod x w : 0 <= w -> Z.land x (2 ^ w - 1) = x mod 2 ^ w.
Proof. intros. rewrite <- Z.land_ones, Z.ones_equiv by lia. reflexivity. Qed.

Lemma lor_disjoint_add a b : Z.land a b = 0 -> Z.lor a b = a + b.
Proof. intros H. rewrite <- Z.lxor_lor by easy. now rewrite Z.add_nocarry_lxor. Qed.

Lemma land_top x w : 0 <= w -> 0 <= x < 2 ^ (w + 1) -> Z.land x (2 ^ w) = if x <? 2 ^ w then 0 else 2 ^ w.
Proof.
  intros Hw Hx. rewrite Z.pow_add_r, Z.mul_comm in Hx by lia. change (2 ^ 1) with 2 in Hx.
  assert (Ew : x / 2 ^ w = if x <? 2 ^ w then 0 else 1).
  { destruct (Z.ltb_spec x (2 ^ w)); [by apply Z.div_small; lia|].
    symmetry. apply Z.div_unique with (x - 2 ^ w); lia. }
  apply Z.bits_inj'. intros j Hj. rewrite Z.land_spec, Z.pow2_bits_eqb by lia. destruct (Z.eqb_spec w j) as [<-|Hn].
  - rewrite andb_true_r, Z.testbit_eqb by lia. rewrite Ew. destruct (x <? 2 ^ w).
    + by rewrite Z.bits_0.
    + by rewrite Z.pow2_bits_true by lia.
  - rewrite andb_false_r. destruct (x <? 2 ^ w); [by rewrite Z.bits_0 | by rewrite Z.pow2_bits_false by lia].
Qed.
Lemma land_not v m : is_u 64 v -> Z.land v (u64 (Z.lnot m)) = v - Z.land v m.
Proof.
  intros Hv. assert (E : Z.land v (u64 (Z.lnot m)) = Z.ldiff v m).
  { unfold uwrap. rewrite <- Z.land_ones, (Z.land_comm _ (Z.ones 64)), Z.land_assoc, Z.land_ones, Z.mod_small by (exact Hv || lia).
    now rewrite <- Z.ldiff_land. }
  rewrite E. pose proof (Z.lor_ldiff_and v m) as L. rewrite lor_disjoint_add in L; [lia|].
  apply Z.bits_inj'. intros j Hj. rewrite Z.land_spec, Z.ldiff_spec, Z.land_spec, Z.bits_0. btauto.
Qed.

Lemma land_bound x m : 0 <= m -> 0 <= Z.land x m <= m.
Proof.
  intros Hm. split; [apply Z.land_nonneg; by right|].
  assert (H : Z.lor (Z.land x m) (Z.ldiff m x) = m).
  { apply Z.bits_inj'. intros n _. rewrite Z.lor_spec, Z.land_spec, Z.ldiff_spec.
    by destruct (Z.testbit x n), (Z.testbit m n). }
  rewrite lor_disjoint_add in H.
  - assert (0 <= Z.ldiff m x) by (apply Z.ldiff_nonneg; by left). lia.
  - apply Z.bits_inj'. intros n _. rewrite !Z.land_spec, Z.ldiff_spec, Z.bits_0.
    by destruct (Z.testbit x n), (Z.testbit m n).
Qed.

(** Two fields that do not overlap: or is addition. *)
Lemma lor_shift_add n hi lo : 0 <= n -> 0 <= lo < 2 ^ n ->
  Z.lor (hi * 2 ^ n) lo = hi * 2 ^ n + lo.
Proof.
  intros Hn Hlo. apply lor_disjoint_add, Z.bits_inj'. intros i Hi.
  rewrite Z.land_spec, Z.bits_0, <- Z.shiftl_mul_pow2 by lia.
  destruct (Z.lt_ge_cases i n).
  - now rewrite Z.shiftl_spec_low.
  - rewrite <- (Z.mod_small lo (2 ^ n)), Z.mod_pow2_bits_high by lia. apply andb_false_r.
Qed.

Lemma lor_add_shift n hi lo : 0 <= n -> 0 <= lo < 2 ^ n ->
  Z.lor lo (hi * 2 ^ n) = lo + hi * 2 ^ n.
Proof. intros. rewrite Z.lor_comm, lor_shift_add by lia. lia. Qed.

Lemma lor_is_u w x y : 0 <= w -> is_u w x -> is_u w y -> is_u w (Z.lor x y).
Proof.
  unfold is_u. intros Hw Hx Hy. rewrite <- (Z.mod_small x (2 ^ w)), <- (Z.mod_small y (2 ^ w)) by lia.
  rewrite <- !Z.land_ones, <- Z.land_lor_distr_l, Z.land_ones by lia.
  apply Z.mod_pos_bound, pow2_pos. lia.
Qed.

Lemma shr_is_u w x n : is_u w x -> 0 <= n -> is_u w (x / 2 ^ n).
Proof.
  unfold is_u. intros Hx Hn. pose proof (pow2_pos n Hn).
  split; [apply Z.div_pos; lia|]. apply Z.le_lt_trans with x; [|lia].
  apply Z.div_le_upper_bound; nia.
Qed.

#[export] Hint Resolve lor_is_u shr_is_u uwrap_range swrap_range : wide.
#[export] Hint Extern 1 (_ <= _)%Z => lia : wide.
#[export] Hint Extern 1 (_ < _)%Z => lia : wide.

Lemma mod_pow2_split x n m : 0 <= n -> 0 <= m ->
  x mod 2 ^ (n + m) = x mod 2 ^ n + (x / 2 ^ n mod 2 ^ m) * 2 ^ n.
Proof.
  intros. rewrite Z.pow_add_r by lia.
  pose proof (pow2_pos n). pose proof (pow2_pos m). rewrite Z.rem_mul_r by lia. ring.
Qed.

(** ** Restoring division

    The bit-serial division the compiler's 128-bit arithmetic and its runtime
    helpers share: the remainder is shifted up with the next bit of the
    dividend, and the divisor taken off when it fits. [rdiv k a b q r] runs
    the iterations [k-1 .. 0] on unbounded integers; the implementations are
    proved equal to it and so inherit [rdiv_correct]. *)

Fixpoint rdiv (k : nat) (a b q r : Z) : Z * Z :=
  match k with
  | O => (q, r)
  | S k' =>
      let i := Z.of_nat k' in
      let r1 := 2 * r + (a / 2 ^ i) mod 2 in
      if b <=? r1 then rdiv k' a b (q + 2 ^ i) (r1 - b) else rdiv k' a b q r1
  end.

(** What holds before iteration [k-1]: the bits of [a] above [k] are divided. *)
Definition rdiv_inv (k a b q r : Z) : Prop :=
  0 <= r < b /\ 0 <= q /\ q mod 2 ^ k = 0 /\ a / 2 ^ k = (q / 2 ^ k) * b + r.

Lemma div_pow2_succ a i : 0 <= i -> a / 2 ^ i = 2 * (a / 2 ^ (i + 1)) + (a / 2 ^ i) mod 2.
Proof.
  intros. rewrite Z.pow_add_r, <- Z.div_div by (pose proof (pow2_pos i); lia).
  change (2 ^ 1) with 2. apply Z.div_mod. lia.
Qed.

Lemma rdiv_inv_step a b i q r : 0 < b -> 0 <= i -> rdiv_inv (i + 1) a b q r ->
  let r1 := 2 * r + (a / 2 ^ i) mod 2 in
  if b <=? r1 then rdiv_inv i a b (q + 2 ^ i) (r1 - b) else rdiv_inv i a b q r1.
Proof.
  intros Hb Hi (Hr & Hq0 & Hq & E) r1. pose proof (pow2_pos i Hi) as Hp.
  pose proof (Z.mod_pos_bound (a / 2 ^ i) 2 ltac:(lia)).
  apply Z.div_exact in Hq; [|pose proof (pow2_pos (i + 1)); lia].
  set (Q := q / 2 ^ (i + 1)) in *. rewrite Z.pow_add_r in Hq by lia. change (2 ^ 1) with 2 in Hq.
  assert (Ea : a / 2 ^ i = 2 * (Q * b + r) + (a / 2 ^ i) mod 2)
    by (rewrite <- E; now apply div_pow2_succ).
  fold r1 in Ea.
  destruct (Z.leb_spec b r1) as [L|L]; unfold rdiv_inv.
  - replace (q + 2 ^ i) with ((2 * Q + 1) * 2 ^ i) by lia.
    rewrite Z.mod_mul, Z.div_mul by lia. unfold r1 in *. nia.
  - replace q with (2 * Q * 2 ^ i) by lia.
    rewrite Z.mod_mul, Z.div_mul by lia. unfold r1 in *. nia.
Qed.

Lemma rdiv_inv_init k a b : 0 < b -> 0 <= a < 2 ^ k -> rdiv_inv k a b 0 0.
Proof.
  intros. unfold rdiv_inv. rewrite Z.div_small by lia.
  rewrite Z.mod_0_l, Z.div_0_l by lia. lia.
Qed.

(** The running remainder is a prefix of the dividend, so shifting it up
    never leaves the dividend's width. *)
Lemma rdiv_inv_bound k a b q r : 0 < b -> rdiv_inv k a b q r -> 0 <= k -> r <= a / 2 ^ k.
Proof.
  intros Hb (Hr & Hq0 & Hq & E) Hk. pose proof (pow2_pos k Hk).
  pose proof (Z.div_pos q (2 ^ k)). nia.
Qed.

Lemma rdiv_correct_gen a b : 0 < b -> forall k q r, rdiv_inv (Z.of_nat k) a b q r ->
  rdiv k a b q r = (a / b, a mod b).
Proof.
  intros Hb. induction k as [|k IH]; intros q r Hinv.
  - destruct Hinv as (Hr & _ & _ & E). change (2 ^ Z.of_nat 0) with 1 in E.
    rewrite !Z.div_1_r in E. cbn [rdiv]. f_equal.
    + apply Z.div_unique with r; lia.
    + apply Z.mod_unique with q; lia.
  - cbn [rdiv]. rewrite Nat2Z.inj_succ in Hinv.
    pose proof (rdiv_inv_step a b (Z.of_nat k) q r Hb ltac:(lia) Hinv) as S1. cbn zeta in S1.
    destruct (_ <=? _); now apply IH.
Qed.

Lemma rdiv_correct k a b : 0 < b -> 0 <= a < 2 ^ Z.of_nat k ->
  rdiv k a b 0 0 = (a / b, a mod b).
Proof. intros. apply rdiv_correct_gen; [easy|]. now apply rdiv_inv_init. Qed.

(** Setting bit [i] of a quotient whose bits up to [i] are still clear. *)
Lemma lor_bit_add q i : 0 <= i -> q mod 2 ^ (i + 1) = 0 -> Z.lor q (2 ^ i) = q + 2 ^ i.
Proof.
  intros Hi Hq. pose proof (pow2_pos i Hi).
  apply Z.div_exact in Hq; [|pose proof (pow2_pos (i + 1)); lia]. rewrite Z.pow_add_r in Hq by lia.
  rewrite Hq. change (2 ^ 1) with 2.
  replace (2 ^ i * 2 * (q / (2 ^ i * 2))) with (q / (2 ^ i * 2) * 2 ^ (i + 1))
    by (rewrite Z.pow_add_r by lia; change (2 ^ 1) with 2; ring).
  apply lor_shift_add; [lia|]. rewrite Z.pow_add_r by lia. change (2 ^ 1) with 2. lia.
Qed.

(** ** Long multiplication by halves

    The four partial products of two [2h]-bit numbers, added with the carries
    out of the middle: how every wide multiply of the source is built. With
    [M = 2^h] nothing here exceeds [2h] bits. *)

Section MulHalves.
Context (M a b : Z).
Hypothesis HM : 4 <= M.
Hypothesis Ha : 0 <= a < M * M.
Hypothesis Hb : 0 <= b < M * M.

Let a0 := a mod M.
Let a1 := a / M.
Let b0 := b mod M.
Let b1 := b / M.
Let mid := a0 * b0 / M + (a0 * b1) mod M + (a1 * b0) mod M.
Let hi := a1 * b1 + a0 * b1 / M + a1 * b0 / M + mid / M.

Lemma halves_range : (0 <= a0 < M /\ 0 <= a1 < M) /\ (0 <= b0 < M /\ 0 <= b1 < M).
Proof.
  subst a0 a1 b0 b1. pose proof (Z.mod_pos_bound a M). pose proof (Z.mod_pos_bound b M).
  assert (a / M < M) by (apply Z.div_lt_upper_bound; lia).
  assert (b / M < M) by (apply Z.div_lt_upper_bound; lia).
  pose proof (Z.div_pos a M). pose proof (Z.div_pos b M). lia.
Qed.

Lemma halves_mid : 0 <= mid < M * M.
Proof.
  destruct halves_range as [[? ?] [? ?]]. subst mid.
  pose proof (Z.mod_pos_bound (a0 * b1) M). pose proof (Z.mod_pos_bound (a1 * b0) M).
  assert (a0 * b0 / M < M) by (apply Z.div_lt_upper_bound; nia).
  pose proof (Z.div_pos (a0 * b0) M). nia.
Qed.

Lemma halves_product : hi * (M * M) + ((a0 * b0) mod M + (mid mod M) * M) = a * b.
Proof.
  assert (Ea : a = M * a1 + a0) by (apply Z.div_mod; lia).
  assert (Eb : b = M * b1 + b0) by (apply Z.div_mod; lia).
  assert (Em : mid = M * (mid / M) + mid mod M) by (apply Z.div_mod; lia).
  pose proof (Z.div_mod (a0 * b0) M ltac:(lia)) as E00.
  pose proof (Z.div_mod (a0 * b1) M ltac:(lia)) as E01.
  pose proof (Z.div_mod (a1 * b0) M ltac:(lia)) as E10.
  unfold hi. unfold mid at 1 in Em. clearbody a0 a1 b0 b1. rewrite Ea, Eb.
  set (mq := mid / M) in *. set (mr := mid mod M) in *. clearbody mq mr.
  set (q00 := a0 * b0 / M) in *. set (r00 := (a0 * b0) mod M) in *.
  set (q01 := a0 * b1 / M) in *. set (r01 := (a0 * b1) mod M) in *.
  set (q10 := a1 * b0 / M) in *. set (r10 := (a1 * b0) mod M) in *.
  clearbody q00 r00 q01 r01 q10 r10. clear mid hi.
  transitivity (a1 * b1 * (M * M) + (a0 * b1) * M + (a1 * b0) * M + a0 * b0); [|ring].
  rewrite E01, E10, E00. replace mr with (q00 + r01 + r10 - M * mq) by lia. ring.
Qed.

Lemma halves_hi : 0 <= hi < M * M.
Proof.
  pose proof halves_product as E. pose proof halves_mid.
  pose proof (Z.mod_pos_bound (a0 * b0) M). pose proof (Z.mod_pos_bound mid M).
  assert (0 <= a * b < (M * M) * (M * M)) by nia.
  set (lo := (a0 * b0) mod M + (mid mod M) * M) in *.
  assert (0 <= lo < M * M) by nia. nia.
Qed.
End MulHalves.

(** ** Double words

    A [2w]-bit value held as two [w]-bit words: the shifts that carry bits
    from one word into the other. *)

Section DoubleWord.
Context (w lo hi : Z).
Hypothesis Hw : 0 < w.
Hypothesis Hlo : is_u w lo.

(** A field shifted up, and a value below it, inside one word. *)
Lemma field_lor n h l : 0 <= n <= w -> 0 <= l < 2 ^ n ->
  Z.lor (uwrap w (h * 2 ^ n)) l = uwrap w (h * 2 ^ n + l).
Proof.
  intros Hn Hl. unfold uwrap. pose proof (pow2_pos n). pose proof (pow2_pos (w - n)).
  replace (2 ^ w) with (2 ^ (w - n) * 2 ^ n) by (rewrite <- Z.pow_add_r by lia; f_equal; lia).
  rewrite Zmult_mod_distr_r, lor_shift_add by lia.
  apply Z.mod_unique with (q := h / 2 ^ (w - n)).
  - left. pose proof (Z.mod_pos_bound h (2 ^ (w - n))). nia.
  - pose proof (Z.div_mod h (2 ^ (w - n))). nia.
Qed.

Lemma pow2_split n : 0 <= n <= w -> 2 ^ w = 2 ^ (w - n) * 2 ^ n.
Proof. intros. rewrite <- Z.pow_add_r by lia. f_equal. lia. Qed.

Lemma dw_shl n : 0 < n < w ->
  uwrap w (lo * 2 ^ n) + Z.lor (uwrap w (hi * 2 ^ n)) (lo / 2 ^ (w - n)) * 2 ^ w
  = uwrap (w + w) ((lo + hi * 2 ^ w) * 2 ^ n).
Proof.
  intros Hn. unfold is_u in Hlo. pose proof (pow2_pos n). pose proof (pow2_pos (w - n)).
  pose proof (pow2_pos w). pose proof (pow2_split n ltac:(lia)) as Ew.
  rewrite field_lor; [|lia|].
  2: { split; [apply Z.div_pos; lia|]. apply Z.div_lt_upper_bound; nia. }
  unfold uwrap at 3. rewrite mod_pow2_split by lia.
  replace ((lo + hi * 2 ^ w) * 2 ^ n) with (lo * 2 ^ n + (hi * 2 ^ n) * 2 ^ w) by ring.
  rewrite Z.div_add, Z_mod_plus_full by lia. do 2 f_equal. unfold uwrap. f_equal.
  rewrite Z.add_comm. f_equal. rewrite Ew. now rewrite Z.div_mul_cancel_r by lia.
Qed.

Lemma dw_shl_big n : w <= n -> uwrap w (lo * 2 ^ (n - w)) * 2 ^ w
  = uwrap (w + w) ((lo + hi * 2 ^ w) * 2 ^ n).
Proof.
  intros Hn. pose proof (pow2_pos w). pose proof (pow2_pos (n - w)).
  unfold uwrap at 2. rewrite mod_pow2_split by lia.
  replace (2 ^ n) with (2 ^ (n - w) * 2 ^ w) by (rewrite <- Z.pow_add_r by lia; f_equal; lia).
  replace ((lo + hi * 2 ^ w) * (2 ^ (n - w) * 2 ^ w))
    with ((lo * 2 ^ (n - w) + hi * 2 ^ (n - w) * 2 ^ w) * 2 ^ w) by ring.
  rewrite Z.mod_mul, Z.div_mul by lia. rewrite Z_mod_plus_full. reflexivity.
Qed.

(** Right shifts; [hi] may be the signed high word, and then the value and
    the shift are signed ones. *)
Lemma dw_shr n : 0 < n < w ->
  Z.lor (lo / 2 ^ n) (uwrap w (hi * 2 ^ (w - n))) + hi / 2 ^ n * 2 ^ w
  = (lo + hi * 2 ^ w) / 2 ^ n.
Proof.
  intros Hn. unfold is_u in Hlo. pose proof (pow2_pos n). pose proof (pow2_pos (w - n)).
  pose proof (pow2_split n ltac:(lia)) as Ew.
  assert (0 <= lo / 2 ^ n < 2 ^ (w - n))
    by (split; [apply Z.div_pos; lia | apply Z.div_lt_upper_bound; lia]).
  rewrite Ew. replace (hi * (2 ^ (w - n) * 2 ^ n)) with (hi * 2 ^ (w - n) * 2 ^ n) by ring.
  rewrite Z.div_add by lia. unfold uwrap. rewrite Ew, Z.mul_comm with (n := hi), Zmult_mod_distr_l.
  rewrite (Z.mul_comm _ (hi mod 2 ^ n)), lor_add_shift by lia.
  pose proof (Z.div_mod hi (2 ^ n)). nia.
Qed.

Lemma dw_shr_big n : w <= n -> hi / 2 ^ (n - w) = (lo + hi * 2 ^ w) / 2 ^ n.
Proof.
  intros Hn. unfold is_u in Hlo. pose proof (pow2_pos w). pose proof (pow2_pos (n - w)).
  replace (2 ^ n) with (2 ^ w * 2 ^ (n - w)) by (rewrite <- Z.pow_add_r by lia; f_equal; lia).
  rewrite <- Z.div_div, Z.div_add, (Z.div_small lo) by lia. reflexivity.
Qed.
End DoubleWord.

(** An arithmetic shift of a word read signed, from a logical one and the
    sign's copies above it. *)
Lemma sar_fill w x n : 0 < w -> is_u w x -> 0 < n <= w ->
  Z.lor (x / 2 ^ n) (uwrap w ((if swrap w x <? 0 then 2 ^ w - 1 else 0) * 2 ^ (w - n)))
  = uwrap w (swrap w x / 2 ^ n).
Proof.
  intros Hw Hx Hn. pose proof (pow2_pos n). pose proof (pow2_pos (w - n)).
  pose proof (pow2_pos w). pose proof (pow2_split w n ltac:(lia)) as Ew. unfold is_u in Hx.
  assert (0 <= x / 2 ^ n < 2 ^ (w - n))
    by (split; [apply Z.div_pos; lia | apply Z.div_lt_upper_bound; lia]).
  pose proof (pow2_half w Hw). rewrite (swrap_of_u w x) by easy.
  destruct (Z.ltb_spec x (2 ^ (w - 1))).
  - replace (x <? 0) with false by lia. rewrite Z.mul_0_l. unfold uwrap at 1.
    rewrite Z.mod_0_l, Z.lor_0_r by lia. symmetry. apply uwrap_small. unfold is_u. nia.
  - replace (x - 2 ^ w <? 0) with true by lia.
    rewrite Z.lor_comm, field_lor by lia.
    replace (x - 2 ^ w) with (x + (- 2 ^ (w - n)) * 2 ^ n) by lia.
    rewrite Z.div_add by lia.
    replace ((2 ^ w - 1) * 2 ^ (w - n) + x / 2 ^ n)
      with (x / 2 ^ n + - 2 ^ (w - n) + 2 ^ (w - n) * 2 ^ w) by ring.
    apply uwrap_add_mul.
Qed.

(** ** Arrays as functions of the index *)

Definition upd {A} (f : Z -> A) (k : Z) (v : A) : Z -> A := fun x => if x =? k then v else f x.

Lemma upd_same {A} (f : Z -> A) k v : upd f k v k = v.
Proof. unfold upd. by rewrite Z.eqb_refl. Qed.
Lemma upd_other {A} (f : Z -> A) k v x : x <> k -> upd f k v x = f x.
Proof. intros N. unfold upd. by destruct (Z.eqb_spec x k). Qed.

(** [for (i = i0; i < i0 + k; i++) s = body i s;] *)
Fixpoint for_up {S} (k : nat) (i : Z) (body : Z -> S -> S) (s : S) : S :=
  match k with O => s | S k => for_up k (i + 1) body (body i s) end.
(** [for (i = k; i-- > 0;) s = body i s;] *)
Fixpoint for_down {S} (k : nat) (body : Z -> S -> S) (s : S) : S :=
  match k with O => s | S k => for_down k body (body (Z.of_nat k) s) end.

(** An invariant of a counting loop. *)
Lemma for_up_inv {S} (P : Z -> S -> Prop) (body : Z -> S -> S) k i s :
  (forall j s, i <= j < i + Z.of_nat k -> P j s -> P (j + 1) (body j s)) ->
  P i s -> P (i + Z.of_nat k) (for_up k i body s).
Proof.
  revert i s. induction k as [|k IH]; intros i s HB H0; cbn [for_up]; [by rewrite Z.add_0_r|].
  replace (i + Z.of_nat (Datatypes.S k)) with (i + 1 + Z.of_nat k) by lia. apply IH.
  - intros j s' Hj. apply HB. lia.
  - apply HB; [lia | done].
Qed.

Lemma for_down_inv {S} (P : Z -> S -> Prop) (body : Z -> S -> S) k s :
  (forall j s, 0 <= j < Z.of_nat k -> P (j + 1) s -> P j (body j s)) ->
  P (Z.of_nat k) s -> P 0 (for_down k body s).
Proof.
  revert s. induction k as [|k IH]; intros s HB H0; cbn [for_down]; [done|].
  apply IH; [intros j s' Hj; apply HB; lia|]. apply HB; [lia|].
  by replace (Z.of_nat k + 1) with (Z.of_nat (Datatypes.S k)) by lia.
Qed.

(** ** Lists *)

Lemma filter_ext_in {A} (P Q : A -> Prop) `{!forall x, Decision (P x), !forall x, Decision (Q x)}
    (l : list A) : (forall x, x ∈ l -> P x <-> Q x) -> filter P l = filter Q l.
Proof.
  induction l as [|x l IH]; intros E; [done|]. rewrite !filter_cons.
  rewrite IH by (intros y Hy; apply E; by right).
  pose proof (E x ltac:(left)). do 2 case_decide; tauto || done.
Qed.

(** Of two predicates that differ at one element, which the list has once, one
    keeps one element more. *)
Lemma filter_remove {A} `{!EqDecision A} (x : A) (P Q : A -> Prop)
    `{!forall x, Decision (P x), !forall x, Decision (Q x)} (l : list A) :
  NoDup l -> x ∈ l -> P x -> ~ Q x -> (forall y, y <> x -> P y <-> Q y) ->
  length (filter P l) = S (length (filter Q l)).
Proof.
  intros ND Hx HP HQ E. induction ND as [|y l Hy ND IH]; [by apply elem_of_nil in Hx|].
  rewrite !filter_cons. destruct (decide (y = x)) as [->|N].
  - rewrite decide_True, decide_False by done. simpl. do 2 f_equal. apply filter_ext_in.
    intros z Hz. apply E. congruence.
  - apply elem_of_cons in Hx as [->|Hx]; [done|]. specialize (IH Hx). pose proof (E y N).
    do 2 case_decide; simpl; rewrite ?IH; tauto || done.
Qed.

Lemma Forall_in {A} (P : A -> Prop) (l : list A) : Forall P l -> forall x, x ∈ l -> P x.
Proof. intros F x [j Hj]%list_elem_of_lookup. exact (Forall_lookup_1 _ _ _ _ F Hj). Qed.

(** A property of every element of a concrete list, element by element. *)
Ltac each_ins := refine (Forall_in _ _ _); repeat apply Forall_cons_2; [..|apply Forall_nil_2].

(** ** A loop over an array that looks ahead

    [for (n = 0; n < len; n++)] with a state, an output per element, and the elements
    after [n] in view. *)
Section Scan.
Context {S A B : Type} (f : S -> A -> list A -> S * B).

Fixpoint scan (s : S) (l : list A) : list B :=
  match l with
  | [] => []
  | x :: l => (f s x l).2 :: scan (f s x l).1 l
  end.

(** The state before element [n]; [scan_end] the one after the last. *)
Fixpoint scan_state (s : S) (l : list A) (n : nat) : S :=
  match n, l with
  | Datatypes.S n, x :: l => scan_state (f s x l).1 l n
  | _, _ => s
  end.
Definition scan_end (s : S) (l : list A) : S := scan_state s l (length l).

Lemma scan_length s l : length (scan s l) = length l.
Proof. revert s. induction l as [|x l IH]; intros s; simpl; [done | by rewrite IH]. Qed.

Lemma scan_state_S s l n x : l !! n = Some x ->
  scan_state s l (Datatypes.S n) = (f (scan_state s l n) x (drop (Datatypes.S n) l)).1.
Proof.
  revert s n. induction l as [|y l IH]; intros s n E; [done|]. destruct n as [|n].
  - injection E as ->. simpl. by rewrite drop_0; destruct l.
  - exact (IH _ n E).
Qed.

Lemma scan_lookup s l n :
  scan s l !! n = (fun x => (f (scan_state s l n) x (drop (Datatypes.S n) l)).2) <$> l !! n.
Proof.
  revert s n. induction l as [|x l IH]; intros s n; [done|]. destruct n as [|n]; simpl; [by rewrite drop_0 | apply IH].
Qed.
End Scan.
