(* ===== verification/Int128.v ===== *)
(** * What a 128-bit integer implementation promises

    The compiler computes with [__int128] in two places: [src/sema/w128.c]
    folds constant expressions while compiling, and [lib/rt/int128.c] is what
    the program calls at run time. [Int128] is the contract both meet: each
    operation, on representations [i_ok] of unsigned 128-bit values, is the
    arithmetic of [Z] wrapped to the width. Files [W128] and [RtInt128] prove
    the two implementations instances of it; [run_agree] is proved against
    the contract alone. *)

From stdpp Require Import base numbers list option.
From Stdlib Require Import ZArith Lia.
From S2P Require Import Prelude.

Abbreviation u128 := (uwrap 128).
Abbreviation s128 := (swrap 128).

Class Int128 (T : Type) := {
  i_ok : T -> Prop;
  i_val : T -> Z;
  i_of : Z -> T;
  i_neg : T -> T;
  i_mul : T -> T -> T;
  i_shl : T -> Z -> T;
  i_shru : T -> Z -> T;
  i_shrs : T -> Z -> T;
  i_udiv : T -> T -> T;
  i_umod : T -> T -> T;
  i_sdiv : T -> T -> T;
  i_smod : T -> T -> T;
  i_range : forall a, i_ok a -> is_u 128 (i_val a);
  i_of_law : forall z, is_u 128 z -> i_ok (i_of z) /\ i_val (i_of z) = z;
  i_neg_law : forall a, i_ok a -> i_ok (i_neg a) /\ i_val (i_neg a) = u128 (- i_val a);
  i_mul_law : forall a b, i_ok a -> i_ok b ->
    i_ok (i_mul a b) /\ i_val (i_mul a b) = u128 (i_val a * i_val b);
  i_shl_law : forall a n, i_ok a -> 0 <= n < 128 ->
    i_ok (i_shl a n) /\ i_val (i_shl a n) = u128 (i_val a * 2 ^ n);
  i_shru_law : forall a n, i_ok a -> 0 <= n < 128 ->
    i_ok (i_shru a n) /\ i_val (i_shru a n) = i_val a / 2 ^ n;
  i_shrs_law : forall a n, i_ok a -> 0 <= n < 128 ->
    i_ok (i_shrs a n) /\ i_val (i_shrs a n) = u128 (s128 (i_val a) / 2 ^ n);
  i_udiv_law : forall a b, i_ok a -> i_ok b -> i_val b <> 0 ->
    i_ok (i_udiv a b) /\ i_val (i_udiv a b) = i_val a / i_val b;
  i_umod_law : forall a b, i_ok a -> i_ok b -> i_val b <> 0 ->
    i_ok (i_umod a b) /\ i_val (i_umod a b) = i_val a mod i_val b;
  i_sdiv_law : forall a b, i_ok a -> i_ok b -> i_val b <> 0 ->
    i_ok (i_sdiv a b) /\
    i_val (i_sdiv a b) = u128 (Z.quot (s128 (i_val a)) (s128 (i_val b)));
  i_smod_law : forall a b, i_ok a -> i_ok b -> i_val b <> 0 ->
    i_ok (i_smod a b) /\
    i_val (i_smod a b) = u128 (Z.rem (s128 (i_val a)) (s128 (i_val b)));
}.

(** ** Expressions over the contract

    A constant expression as a tree of the operations; [run] evaluates it
    with an implementation and is undefined where C is: a zero divisor, or a
    shift count outside the type. *)

Inductive i128_expr :=
  | EConst (z : Z)
  | ENeg (e : i128_expr)
  | EMul (e1 e2 : i128_expr)
  | EShl (e : i128_expr) (n : Z)
  | EShr (sign : bool) (e : i128_expr) (n : Z)
  | EDiv (sign modulo : bool) (e1 e2 : i128_expr).

Section Run.
Context {T : Type} `{!Int128 T}.

Definition shift_ok (n : Z) : bool := (0 <=? n) && (n <? 128).

Definition div_op (sign modulo : bool) : T -> T -> T :=
  if sign then (if modulo then i_smod else i_sdiv)
  else (if modulo then i_umod else i_udiv).

Fixpoint run (e : i128_expr) : option T :=
  match e with
  | EConst z => Some (i_of (u128 z))
  | ENeg e => i_neg <$> run e
  | EMul e1 e2 => x ← run e1; y ← run e2; Some (i_mul x y)
  | EShl e n => x ← run e; if shift_ok n then Some (i_shl x n) else None
  | EShr s e n =>
      x ← run e;
      if shift_ok n then Some (if s then i_shrs x n else i_shru x n) else None
  | EDiv s m e1 e2 =>
      x ← run e1; y ← run e2;
      if i_val y =? 0 then None else Some (div_op s m x y)
  end.

(** The same expression on unbounded integers, wrapped at each node. *)
Fixpoint denote (e : i128_expr) : option Z :=
  match e with
  | EConst z => Some (u128 z)
  | ENeg e => (fun x => u128 (- x)) <$> denote e
  | EMul e1 e2 => x ← denote e1; y ← denote e2; Some (u128 (x * y))
  | EShl e n => x ← denote e; if shift_ok n then Some (u128 (x * 2 ^ n)) else None
  | EShr s e n =>
      x ← denote e;
      if shift_ok n then Some (if s then u128 (s128 x / 2 ^ n) else x / 2 ^ n) else None
  | EDiv s m e1 e2 =>
      x ← denote e1; y ← denote e2;
      if y =? 0 then None
      else Some (if s then u128 ((if m then Z.rem else Z.quot) (s128 x) (s128 y))
                 else (if m then x mod y else x / y))
  end.

Lemma shift_ok_spec n : shift_ok n = true -> 0 <= n < 128.
Proof. unfold shift_ok. lia. Qed.

Lemma div_op_law s m x y : i_ok x -> i_ok y -> i_val y <> 0 ->
  i_ok (div_op s m x y) /\
  i_val (div_op s m x y) =
    (if s then u128 ((if m then Z.rem else Z.quot) (s128 (i_val x)) (s128 (i_val y)))
     else (if m then i_val x mod i_val y else i_val x / i_val y)).
Proof.
  intros. unfold div_op.
  destruct s, m; [apply i_smod_law | apply i_sdiv_law | apply i_umod_law | apply i_udiv_law]; done.
Qed.

(** An implementation computes what the expression denotes. *)
Lemma run_denote e :
  (i_val <$> run e) = denote e /\ (forall x, run e = Some x -> i_ok x).
Proof.
  induction e as [z | e [IH Ok] | e1 [IH1 Ok1] e2 [IH2 Ok2] | e [IH Ok] n
                 | s e [IH Ok] n | s m e1 [IH1 Ok1] e2 [IH2 Ok2]]; cbn [run denote].
  - destruct (i_of_law (u128 z)) as [Hok Hv]; [now apply uwrap_range|].
    split; [cbn; now rewrite Hv | now intros x [= <-]].
  - destruct (run e) as [x|]; cbn in *; rewrite <- IH; [|easy].
    destruct (i_neg_law x) as [Hok Hv]; [auto|].
    split; [cbn; now rewrite Hv | now intros y [= <-]].
  - destruct (run e1) as [x|], (run e2) as [y|]; cbn in *; rewrite <- IH1; cbn;
      rewrite <- ?IH2; try easy. cbn.
    destruct (i_mul_law x y) as [Hok Hv]; [auto..|].
    split; [now rewrite Hv | now intros z [= <-]].
  - destruct (run e) as [x|]; cbn in *; rewrite <- IH; [|easy]. cbn.
    destruct (shift_ok n) eqn:S; [|easy]. apply shift_ok_spec in S.
    destruct (i_shl_law x n) as [Hok Hv]; [auto..|].
    split; [cbn; now rewrite Hv | now intros y [= <-]].
  - destruct (run e) as [x|]; cbn in *; rewrite <- IH; [|easy]. cbn.
    destruct (shift_ok n) eqn:S; [|easy]. apply shift_ok_spec in S.
    destruct (i_shrs_law x n) as [Hs Vs]; [auto..|].
    destruct (i_shru_law x n) as [Hu Vu]; [auto..|].
    destruct s; (split; [cbn; now rewrite ?Vs, ?Vu | now intros y [= <-]]).
  - destruct (run e1) as [x|], (run e2) as [y|]; cbn in *; rewrite <- IH1; cbn;
      rewrite <- ?IH2; try easy. cbn.
    destruct (Z.eqb_spec (i_val y) 0) as [E|E]; [easy|].
    destruct (div_op_law s m x y) as [Hok Hv]; [auto..|].
    split; [cbn; now rewrite Hv | now intros z [= <-]].
Qed.
End Run.

(** Two implementations of the contract give every expression the same value. *)
Lemma run_agree {T1 T2} `{!Int128 T1} `{!Int128 T2} (e : i128_expr) :
  i_val <$> run (T := T1) e = i_val <$> run (T := T2) e.
Proof. now rewrite (proj1 (run_denote (T := T1) e)), (proj1 (run_denote (T := T2) e)). Qed.
