(* ===== verification/W128.v ===== *)
(** * Compile-time 128-bit arithmetic ([src/sema/w128.c])

    The constant folder's [__int128]: a value is two eightbytes, and every
    operation works on [unsigned long] halves. Each function of the source is
    a definition of the same name; [w_int128] shows that together they meet
    the contract of file [Int128]. *)

From stdpp Require Import base numbers list option.
From Stdlib Require Import ZArith Lia.
From S2P Require Import Prelude Int128.

(** [struct w128]. *)
Record w128 := W { wlo : Z; whi : Z }.

Definition w_make (lo hi : Z) : w128 := W lo hi.

(** [v] is a [long]; [sign] the C flag. *)
Definition w_from (v : Z) (sign : bool) : w128 :=
  w_make (u64 v) (if sign && (v <? 0) then u64 (Z.lnot 0) else 0).

Definition w_add (a b : w128) : w128 :=
  let lo := u64 (wlo a + wlo b) in
  w_make lo (u64 (whi a + whi b + b2z (lo <? wlo a))).

Definition w_neg (a : w128) : w128 :=
  w_add (w_make (u64 (Z.lnot (wlo a))) (u64 (Z.lnot (whi a)))) (w_make 1 0).

Definition w_mul (a b : w128) : w128 :=
  let a0 := Z.land (wlo a) 0xffffffff in let a1 := Z.shiftr (wlo a) 32 in
  let b0 := Z.land (wlo b) 0xffffffff in let b1 := Z.shiftr (wlo b) 32 in
  let p00 := u64 (a0 * b0) in let p01 := u64 (a0 * b1) in
  let p10 := u64 (a1 * b0) in let p11 := u64 (a1 * b1) in
  let mid := u64 (u64 (Z.shiftr p00 32 + Z.land p01 0xffffffff) + Z.land p10 0xffffffff) in
  let lo := Z.lor (Z.land p00 0xffffffff) (u64 (Z.shiftl mid 32)) in
  let hi := u64 (p11 + Z.shiftr p01 32 + Z.shiftr p10 32 + Z.shiftr mid 32 +
                 wlo a * whi b + whi a * wlo b) in
  W lo hi.

Definition w_shl (a : w128) (n0 : Z) : w128 :=
  let n := Z.land n0 127 in
  if n =? 0 then a
  else if n >=? 64 then w_make 0 (u64 (Z.shiftl (wlo a) (n - 64)))
  else w_make (u64 (Z.shiftl (wlo a) n))
              (Z.lor (u64 (Z.shiftl (whi a) n)) (Z.shiftr (wlo a) (64 - n))).

Definition w_shr (a : w128) (n0 : Z) (arith : bool) : w128 :=
  let n := Z.land n0 127 in
  let fill := if arith && (s64 (whi a) <? 0) then u64 (Z.lnot 0) else 0 in
  if n =? 0 then a
  else if n >=? 64 then
    w_make (if n =? 64 then whi a
            else Z.lor (Z.shiftr (whi a) (n - 64)) (u64 (Z.shiftl fill (128 - n)))) fill
  else w_make (Z.lor (Z.shiftr (wlo a) n) (u64 (Z.shiftl (whi a) (64 - n))))
              (Z.lor (Z.shiftr (whi a) n) (u64 (Z.shiftl fill (64 - n)))).

Definition w_ult (a b : w128) : bool :=
  if negb (whi a =? whi b) then whi a <? whi b else wlo a <? wlo b.

Definition w_slt (a b : w128) : bool :=
  if negb (whi a =? whi b) then s64 (whi a) <? s64 (whi b) else wlo a <? wlo b.

(** The loop of [w_udivmod], for [i = k-1] down to 0. *)
Fixpoint w_udivmod_loop (k : nat) (a b quo rem : w128) : w128 * w128 :=
  match k with
  | O => (quo, rem)
  | S k' =>
      let i := Z.of_nat k' in
      let rem := w_shl rem 1 in
      let bit := Z.land (if i >=? 64 then Z.shiftr (whi a) (i - 64)
                         else Z.shiftr (wlo a) i) 1 in
      let rem := W (Z.lor (wlo rem) bit) (whi rem) in
      if negb (w_ult rem b) then
        let rem := w_add rem (w_neg b) in
        let quo := if i >=? 64
                   then W (wlo quo) (Z.lor (whi quo) (u64 (Z.shiftl 1 (i - 64))))
                   else W (Z.lor (wlo quo) (u64 (Z.shiftl 1 i))) (whi quo) in
        w_udivmod_loop k' a b quo rem
      else w_udivmod_loop k' a b quo rem
  end.

Definition w_udivmod (a b : w128) : w128 * w128 :=
  w_udivmod_loop 128 a b (w_make 0 0) (w_make 0 0).

(** [None] where the source returns 0: a zero divisor. *)
Definition w_div (a b : w128) (sign modulo : bool) : option w128 :=
  if (wlo b =? 0) && (whi b =? 0) then None
  else
    let na := sign && (s64 (whi a) <? 0) in
    let nb := sign && (s64 (whi b) <? 0) in
    let '(q, r) := w_udivmod (if na then w_neg a else a) (if nb then w_neg b else b) in
    Some (if negb modulo then (if xorb na nb then w_neg q else q)
          else (if na then w_neg r else r)).

(** ** What a pair of eightbytes stands for *)

Definition w_ok (a : w128) : Prop := is_u 64 (wlo a) /\ is_u 64 (whi a).
Definition w_val (a : w128) : Z := wlo a + whi a * 2 ^ 64.
Definition w_of (z : Z) : w128 := W (u64 z) (u64 (z / 2 ^ 64)).

#[export] Instance w_ok_dec a : Decision (w_ok a).
Proof. unfold w_ok. apply _. Defined.

Lemma w_val_range a : w_ok a -> is_u 128 (w_val a).
Proof. intros [Hl Hh]. unfold is_u, w_val in *. lia. Qed.

Lemma w_of_ok z : w_ok (w_of z).
Proof. split; now apply uwrap_range. Qed.

Lemma w_of_val z : is_u 128 z -> w_val (w_of z) = z.
Proof.
  intros Hz. unfold w_of, w_val, uwrap. cbn [wlo whi].
  rewrite <- mod_pow2_split by lia. apply Z.mod_small. exact Hz.
Qed.

Lemma w_val_inj a b : w_ok a -> w_ok b -> w_val a = w_val b -> a = b.
Proof.
  destruct a, b. unfold w_ok, is_u, w_val. cbn [wlo whi]. intros. f_equal; lia.
Qed.

(** Two words whose weighted sum is congruent to a value represent it. *)
Lemma w_ok_eqw a z : w_ok a -> eqw 128 (w_val a) z -> w_val a = u128 z.
Proof. intros Ha E. rewrite <- E. symmetry. apply uwrap_small, w_val_range, Ha. Qed.

Lemma mod2_128_hi x y : eqw 64 x y -> eqw 128 (x * 2 ^ 64) (y * 2 ^ 64).
Proof. apply (eqw_high 64). lia. Qed.

Lemma w_add_law a b : w_ok a -> w_ok b ->
  w_ok (w_add a b) /\ w_val (w_add a b) = u128 (w_val a + w_val b).
Proof.
  intros [Al Ah] [Bl Bh]. unfold w_add.
  assert (Ok : w_ok (w_make (u64 (wlo a + wlo b))
                 (u64 (whi a + whi b + b2z (u64 (wlo a + wlo b) <? wlo a)))))
    by (split; now apply uwrap_range).
  split; [exact Ok|]. apply w_ok_eqw; [exact Ok|]. unfold w_val, w_make. cbn [wlo whi].
  rewrite (mod2_128_hi _ _ (eqw_uwrap 64 _ ltac:(lia))).
  unfold is_u in *. unfold uwrap.
  assert (C : b2z ((wlo a + wlo b) mod 2 ^ 64 <? wlo a) = (wlo a + wlo b) / 2 ^ 64).
  { unfold b2z. destruct (Z.ltb_spec ((wlo a + wlo b) mod 2 ^ 64) (wlo a));
      Z.div_mod_to_equations; lia. }
  rewrite C, Z.mod_eq by lia. exists 0. ring.
Qed.

Lemma w_lnot_eq x : is_u 64 x -> u64 (Z.lnot x) = 2 ^ 64 - 1 - x.
Proof.
  unfold is_u. intros. rewrite <- (uwrap_small 64 (2 ^ 64 - 1 - x)) by (unfold is_u; lia).
  rewrite <- (uwrap_add_mul 64 (Z.lnot x) 1). f_equal. pose proof (Z.add_lnot_diag x). lia.
Qed.

Lemma w_neg_law a : w_ok a -> w_ok (w_neg a) /\ w_val (w_neg a) = u128 (- w_val a).
Proof.
  intros Ha. pose proof Ha as [Al Ah]. unfold w_neg. rewrite !w_lnot_eq by done.
  unfold is_u in *.
  destruct (w_add_law (w_make (2 ^ 64 - 1 - wlo a) (2 ^ 64 - 1 - whi a)) (w_make 1 0))
    as [Ok V]; [split; unfold is_u; cbn [wlo whi w_make]; lia.. |].
  split; [exact Ok|]. rewrite V. unfold w_val, w_make. cbn [wlo whi].
  rewrite <- (uwrap_add_mul 128 (- _) 1). f_equal. ring.
Qed.

(** Products, quotients and remainders by [2^32] as the source writes them. *)
Lemma lo32 x : Z.land x 0xffffffff = x mod 2 ^ 32.
Proof. now apply (land_ones_mod x 32). Qed.
Lemma shr_div x n : 0 <= n -> Z.shiftr x n = x / 2 ^ n.
Proof. intros. now apply Z.shiftr_div_pow2. Qed.
Lemma shl_mul x n : 0 <= n -> Z.shiftl x n = x * 2 ^ n.
Proof. intros. now apply Z.shiftl_mul_pow2. Qed.

(** The full product of two [2h]-bit words by halves, all in [2h]-bit
    arithmetic. *)
Lemma mul_halves h x y :
  2 <= h -> is_u (h + h) x -> is_u (h + h) y ->
  let u := uwrap (h + h) in
  let p00 := u (x mod 2 ^ h * (y mod 2 ^ h)) in
  let p01 := u (x mod 2 ^ h * (y / 2 ^ h)) in
  let p10 := u (x / 2 ^ h * (y mod 2 ^ h)) in
  let p11 := u (x / 2 ^ h * (y / 2 ^ h)) in
  let mid := u (u (p00 / 2 ^ h + p01 mod 2 ^ h) + p10 mod 2 ^ h) in
  let lo := Z.lor (p00 mod 2 ^ h) (u (mid * 2 ^ h)) in
  let hi := p11 + p01 / 2 ^ h + p10 / 2 ^ h + mid / 2 ^ h in
  is_u (h + h) lo /\ is_u (h + h) hi /\ hi * 2 ^ (h + h) + lo = x * y.
Proof.
  intros Hh Hx Hy. unfold is_u in Hx, Hy. rewrite Z.pow_add_r in Hx, Hy by lia.
  assert (HM : 4 <= 2 ^ h) by (change 4 with (2 ^ 2); apply pow2_le_mono; lia).
  pose proof (halves_range _ _ _ HM Hx Hy) as [[? ?] [? ?]].
  pose proof (halves_mid _ _ _ HM Hx Hy) as Hmid.
  pose proof (halves_hi _ _ _ HM Hx Hy) as Hhi.
  pose proof (halves_product (2 ^ h) x y HM) as E.
  cbn zeta. rewrite !(uwrap_small (h + h) (_ * (_ mod _))), !(uwrap_small (h + h) (_ * (_ / _)))
    by (unfold is_u; rewrite Z.pow_add_r by lia; nia).
  set (p00 := x mod 2 ^ h * (y mod 2 ^ h)) in *. set (p01 := x mod 2 ^ h * (y / 2 ^ h)) in *.
  set (p10 := x / 2 ^ h * (y mod 2 ^ h)) in *. set (p11 := x / 2 ^ h * (y / 2 ^ h)) in *.
  set (mid := p00 / 2 ^ h + p01 mod 2 ^ h + p10 mod 2 ^ h) in *.
  pose proof (Z.mod_pos_bound p10 (2 ^ h)). pose proof (Z.mod_pos_bound p01 (2 ^ h)).
  pose proof (Z.mod_pos_bound p00 (2 ^ h)).
  assert (0 <= p00 / 2 ^ h) by (apply Z.div_pos; nia).
  rewrite (uwrap_small (h + h) (p00 / 2 ^ h + p01 mod 2 ^ h))
    by (unfold is_u; rewrite Z.pow_add_r by lia; lia).
  fold mid. rewrite (uwrap_small (h + h) mid) by (unfold is_u; rewrite Z.pow_add_r by lia; lia).
  assert (L : Z.lor (p00 mod 2 ^ h) (uwrap (h + h) (mid * 2 ^ h))
              = p00 mod 2 ^ h + mid mod 2 ^ h * 2 ^ h).
  { unfold uwrap. rewrite Z.pow_add_r by lia. rewrite Zmult_mod_distr_r. apply lor_add_shift; lia. }
  rewrite L. pose proof (Z.mod_pos_bound mid (2 ^ h)). unfold is_u. rewrite Z.pow_add_r by lia. nia.
Qed.

Lemma w_mul_law a b : w_ok a -> w_ok b ->
  w_ok (w_mul a b) /\ w_val (w_mul a b) = u128 (w_val a * w_val b).
Proof.
  intros [Al Ah] [Bl Bh]. unfold w_mul. rewrite !lo32, !shr_div, !shl_mul by lia.
  destruct (mul_halves 32 (wlo a) (wlo b) ltac:(lia) Al Bl) as (Hlo & Hhi & E).
  change (32 + 32) with 64 in *. cbn zeta in *.
  set (lo := Z.lor _ _) in *. set (hi := _ + _ + _ + _) in E, Hhi |- *. clearbody lo hi.
  assert (Ok : w_ok (W lo (u64 (hi + wlo a * whi b + whi a * wlo b))))
    by (split; [exact Hlo | now apply uwrap_range]).
  split; [exact Ok|]. apply w_ok_eqw; [exact Ok|]. unfold w_val. cbn [wlo whi].
  rewrite (mod2_128_hi _ _ (eqw_uwrap 64 _ ltac:(lia))).
  replace (lo + (hi + wlo a * whi b + whi a * wlo b) * 2 ^ 64)
    with (wlo a * wlo b + (wlo a * whi b + whi a * wlo b) * 2 ^ 64) by lia.
  exists (- (whi a * whi b)). change (2 ^ 128) with (2 ^ 64 * 2 ^ 64). ring.
Qed.

(** ** Shifts *)

Lemma land127 n : Z.land n 127 = n mod 128.
Proof. exact (land_ones_mod n 7 ltac:(lia)). Qed.

Lemma w_shl_law a n : w_ok a ->
  w_ok (w_shl a n) /\ w_val (w_shl a n) = u128 (w_val a * 2 ^ (n mod 128)).
Proof.
  intros [Al Ah]. unfold w_shl. rewrite land127.
  pose proof (Z.mod_pos_bound n 128 ltac:(lia)). set (m := n mod 128) in *. clearbody m.
  destruct (Z.eqb_spec m 0) as [->|].
  { split; [easy|]. rewrite Z.mul_1_r. symmetry. apply uwrap_small, w_val_range. easy. }
  destruct (Z.geb_spec m 64); rewrite !shl_mul by lia.
  - split; [split; cbn [wlo whi w_make]; [easy | auto with wide]|].
    unfold w_val, w_make. cbn [wlo whi].
    exact (dw_shl_big 64 (wlo a) (whi a) ltac:(lia) m ltac:(lia)).
  - rewrite shr_div by lia. split.
    { split; cbn [wlo whi w_make]; auto with wide. }
    unfold w_val, w_make. cbn [wlo whi].
    exact (dw_shl 64 (wlo a) (whi a) ltac:(lia) Al m ltac:(lia)).
Qed.

(** The word a right shift sees: the high half, read signed when it is an
    arithmetic one. *)
Definition high_of (arith : bool) (a : w128) : Z := if arith then s64 (whi a) else whi a.

Lemma s128_val a : w_ok a -> s128 (w_val a) = wlo a + s64 (whi a) * 2 ^ 64.
Proof.
  intros [Al Ah]. destruct (swrap_eq 64 (whi a)) as [k E]; [lia|].
  pose proof (swrap_range 64 (whi a) ltac:(lia)) as R.
  rewrite <- (swrap_small 128 (wlo a + s64 (whi a) * 2 ^ 64)).
  - unfold w_val. rewrite E. rewrite <- (swrap_add_mul 128 (wlo a + whi a * 2 ^ 64) k).
    f_equal. change (2 ^ 128) with (2 ^ 64 * 2 ^ 64). ring.
  - lia.
  - unfold is_s, is_u in *. lia.
Qed.

Lemma fill_high arith a : w_ok a ->
  (if arith && (s64 (whi a) <? 0) then u64 (Z.lnot 0) else 0)
  = if high_of arith a <? 0 then 2 ^ 64 - 1 else 0.
Proof.
  intros [_ Ah]. unfold high_of. destruct arith; [easy|]. cbn.
  unfold is_u in Ah. now replace (whi a <? 0) with false by lia.
Qed.

Lemma fill_or arith a n : w_ok a -> 0 < n <= 64 ->
  Z.lor (whi a / 2 ^ n) (u64 ((if high_of arith a <? 0 then 2 ^ 64 - 1 else 0) * 2 ^ (64 - n)))
  = u64 (high_of arith a / 2 ^ n).
Proof.
  intros [_ Ah] Hn. unfold high_of. destruct arith; [now apply sar_fill|].
  replace (whi a <? 0) with false by (unfold is_u in Ah; lia).
  rewrite Z.mul_0_l. change (u64 0) with 0. rewrite Z.lor_0_r.
  symmetry. apply uwrap_small. auto with wide.
Qed.

Lemma high_mul arith a k : u64 (whi a * k) = u64 (high_of arith a * k).
Proof.
  unfold high_of. destruct arith; [|easy].
  apply uwrap_proper. rewrite (eqw_swrap 64 (whi a)) by lia. reflexivity.
Qed.

Lemma high_range arith a : w_ok a -> - 2 ^ 63 <= high_of arith a < 2 ^ 64.
Proof.
  intros [_ Ah]. pose proof (swrap_range 64 (whi a) ltac:(lia)) as R.
  unfold high_of, is_s, is_u in *. destruct arith; lia.
Qed.

Lemma w_shr_high a n arith : w_ok a ->
  w_ok (w_shr a n arith) /\
  w_val (w_shr a n arith) = u128 ((wlo a + high_of arith a * 2 ^ 64) / 2 ^ (n mod 128)).
Proof.
  intros Ha. pose proof Ha as [Al Ah]. pose proof (high_range arith a Ha) as Hr.
  unfold w_shr. rewrite land127, fill_high by easy.
  pose proof (Z.mod_pos_bound n 128 ltac:(lia)). set (m := n mod 128) in *. clearbody m.
  assert (Hf : is_u 64 (if high_of arith a <? 0 then 2 ^ 64 - 1 else 0))
    by (unfold is_u; destruct (_ <? _); lia).
  destruct (Z.eqb_spec m 0) as [->|].
  { split; [easy|]. rewrite Z.div_1_r. symmetry.
    assert (E : eqw 128 (wlo a + high_of arith a * 2 ^ 64) (w_val a)).
    { unfold w_val. apply eqw_add; [easy|]. apply mod2_128_hi. unfold high_of.
      destruct arith; [now apply eqw_swrap | easy]. }
    rewrite E. apply uwrap_small, w_val_range. easy. }
  destruct (Z.geb_spec m 64); rewrite ?shl_mul, ?shr_div by lia.
  - replace (if m =? 64 then _ else _) with (u64 (high_of arith a / 2 ^ (m - 64))).
    2: { destruct (Z.eqb_spec m 64) as [->|].
         - rewrite Z.div_1_r, <- (Z.mul_1_r (high_of _ _)), <- high_mul, Z.mul_1_r.
           now apply uwrap_small.
         - rewrite <- fill_or by (easy || lia). replace (64 - (m - 64)) with (128 - m) by lia. reflexivity. }
    assert (Ok : w_ok (w_make (u64 (high_of arith a / 2 ^ (m - 64)))
                         (if high_of arith a <? 0 then 2 ^ 64 - 1 else 0)))
      by (split; cbn [wlo whi w_make]; auto with wide).
    split; [exact Ok|]. apply w_ok_eqw; [exact Ok|]. unfold w_val, w_make. cbn [wlo whi].
    rewrite <- (dw_shr_big 64) by (done || lia).
    pose proof (pow2_pos (m - 64) ltac:(lia)) as Hp.
    set (q := high_of arith a / 2 ^ (m - 64)).
    assert (- 2 ^ 63 <= q < 2 ^ 64).
    { subst q. split; [apply Z.div_le_lower_bound; nia|]. apply Z.div_lt_upper_bound; nia. }
    destruct (Z.ltb_spec (high_of arith a) 0).
    + assert (q < 0) by (apply Z.div_lt_upper_bound; lia).
      rewrite uwrap_of_s by (unfold is_s; lia). replace (q <? 0) with true by lia.
      exists 1. lia.
    + assert (0 <= q) by (apply Z.div_pos; lia). rewrite uwrap_small by (unfold is_u; lia).
      exists 0. lia.
  - rewrite (high_mul arith a), (fill_or arith a) by (easy || lia).
    assert (Ok : w_ok (w_make (Z.lor (wlo a / 2 ^ m) (u64 (high_of arith a * 2 ^ (64 - m))))
                         (u64 (high_of arith a / 2 ^ m))))
      by (split; cbn [wlo whi w_make]; auto with wide).
    split; [exact Ok|]. apply w_ok_eqw; [exact Ok|]. unfold w_val, w_make. cbn [wlo whi].
    rewrite (mod2_128_hi _ _ (eqw_uwrap 64 _ ltac:(lia))).
    rewrite (dw_shr 64) by (done || lia). reflexivity.
Qed.

Lemma w_shr_law a n arith : w_ok a ->
  w_ok (w_shr a n arith) /\
  w_val (w_shr a n arith)
  = if arith then u128 (s128 (w_val a) / 2 ^ (n mod 128)) else w_val a / 2 ^ (n mod 128).
Proof.
  intros Ha. destruct (w_shr_high a n arith Ha) as [Ok V]. split; [exact Ok|].
  rewrite V. unfold high_of. destruct arith; [now rewrite s128_val|].
  apply uwrap_small. pose proof (w_val_range a Ha). unfold is_u, w_val in *.
  pose proof (pow2_pos (n mod 128) ltac:(pose proof (Z.mod_pos_bound n 128); lia)).
  split; [apply Z.div_pos; lia|]. apply Z.div_lt_upper_bound; nia.
Qed.

(** ** Comparisons *)

Lemma w_ult_law a b : w_ok a -> w_ok b -> w_ult a b = (w_val a <? w_val b).
Proof.
  intros [Al Ah] [Bl Bh]. unfold w_ult, w_val, is_u in *.
  destruct (Z.eqb_spec (whi a) (whi b)); cbn [negb]; lia.
Qed.

Lemma w_slt_law a b : w_ok a -> w_ok b -> w_slt a b = (s128 (w_val a) <? s128 (w_val b)).
Proof.
  intros Ha Hb. pose proof Ha as [Al Ah]. pose proof Hb as [Bl Bh].
  rewrite !s128_val by done. unfold w_slt, is_u in *.
  destruct (Z.eqb_spec (whi a) (whi b)) as [->|N]; cbn [negb]; [lia|].
  assert (s64 (whi a) <> s64 (whi b)).
  { intros E. apply N. rewrite <- (uwrap_small 64 (whi a)), <- (uwrap_small 64 (whi b)) by done.
    rewrite <- (uwrap_swrap 64 (whi a)), E, uwrap_swrap by lia. reflexivity. }
  lia.
Qed.

(** ** Division *)

Lemma w_bit a i : w_ok a -> 0 <= i < 128 ->
  Z.land (if i >=? 64 then Z.shiftr (whi a) (i - 64) else Z.shiftr (wlo a) i) 1
  = (w_val a / 2 ^ i) mod 2.
Proof.
  intros [Al Ah] Hi. unfold w_val. change 1 with (2 ^ 1 - 1) at 1. rewrite land_ones_mod by lia.
  destruct (Z.geb_spec i 64); rewrite shr_div by lia.
  - now rewrite (dw_shr_big 64 (wlo a) (whi a)) by (done || lia).
  - replace (whi a * 2 ^ 64) with (whi a * 2 ^ (63 - i) * 2 * 2 ^ i)
      by (replace (2 ^ 64) with (2 ^ (63 - i) * 2 ^ (i + 1));
          [rewrite Z.pow_add_r by lia; change (2 ^ 1) with 2; ring
          | rewrite <- Z.pow_add_r by lia; f_equal; lia]).
    pose proof (pow2_pos i). rewrite Z.div_add by lia. change (2 ^ 1) with 2.
    now rewrite Z_mod_plus_full.
Qed.

(** Shifting up by one and or-ing the next bit in. *)
Lemma w_shl1_bit rem bit : w_ok rem -> w_val rem < 2 ^ 127 -> 0 <= bit < 2 ->
  let r1 := w_shl rem 1 in
  let r2 := W (Z.lor (wlo r1) bit) (whi r1) in
  w_ok r2 /\ w_val r2 = 2 * w_val rem + bit.
Proof.
  intros Hr Hlt Hb r1 r2. destruct (w_shl_law rem 1 Hr) as [Ok V].
  change (1 mod 128) with 1 in V. fold r1 in Ok, V.
  pose proof (w_val_range rem Hr) as R. unfold is_u in R.
  rewrite uwrap_small in V by (unfold is_u; change (2 ^ 1) with 2; lia).
  assert (E : Z.lor (wlo r1) bit = wlo r1 + bit).
  { destruct Ok as [[Rl _] _]. unfold w_val in V at 1. change (2 ^ 1) with 2 in V.
    rewrite (Z.div_mod (wlo r1) 2) by lia.
    replace (wlo r1 mod 2) with 0 by (Z.div_mod_to_equations; lia).
    rewrite Z.add_0_r, (Z.mul_comm 2). now apply (lor_shift_add 1). }
  subst r2. rewrite E. destruct Ok as [Rl Rh]. unfold w_ok, w_val, is_u in *. cbn [wlo whi].
  change (2 ^ 1) with 2 in V. assert (wlo r1 mod 2 = 0) by (Z.div_mod_to_equations; lia).
  Z.div_mod_to_equations. lia.
Qed.

(** Taking the divisor off: no borrow is lost. *)
Lemma w_sub_law a b : w_ok a -> w_ok b -> w_val b <= w_val a ->
  w_ok (w_add a (w_neg b)) /\ w_val (w_add a (w_neg b)) = w_val a - w_val b.
Proof.
  intros Ha Hb Hle. destruct (w_neg_law b Hb) as [Okn Vn].
  destruct (w_add_law a (w_neg b) Ha Okn) as [Ok V]. split; [exact Ok|].
  rewrite V, Vn. pose proof (w_val_range a Ha). pose proof (w_val_range b Hb). unfold is_u in *.
  rewrite (eqw_uwrap 128 (- w_val b)) by lia. apply uwrap_small. unfold is_u. lia.
Qed.

(** Setting bit [i] of the quotient. *)
Lemma w_setbit_law q i : w_ok q -> 0 <= i < 128 -> w_val q mod 2 ^ (i + 1) = 0 ->
  let q' := if i >=? 64 then W (wlo q) (Z.lor (whi q) (u64 (Z.shiftl 1 (i - 64))))
            else W (Z.lor (wlo q) (u64 (Z.shiftl 1 i))) (whi q) in
  w_ok q' /\ w_val q' = w_val q + 2 ^ i.
Proof.
  intros [Rl Rh] Hi Hq q'. subst q'. unfold w_val in *.
  assert (B : forall j, 0 <= j < 64 -> is_u 64 (2 ^ j))
    by (intros j Hj; split; [apply Z.lt_le_incl, pow2_pos | apply Z.pow_lt_mono_r]; lia).
  destruct (Z.geb_spec i 64); rewrite shl_mul, Z.mul_1_l, uwrap_small by (lia || (apply B; lia));
    cbn [wlo whi].
  - assert (Hh : whi q mod 2 ^ (i - 64 + 1) = 0).
    { pose proof (pow2_pos (i - 64 + 1)).
      replace (2 ^ (i + 1)) with (2 ^ 64 * 2 ^ (i - 64 + 1)) in Hq
        by (rewrite <- Z.pow_add_r by lia; f_equal; lia).
      rewrite Z.rem_mul_r, Z_mod_plus_full, Z.div_add, (Z.div_small (wlo q)), Z.add_0_l in Hq by (easy || lia).
      pose proof (Z.mod_pos_bound (wlo q) (2 ^ 64)). pose proof (Z.mod_pos_bound (whi q) (2 ^ (i - 64 + 1))).
      nia. }
    split; [split; cbn [wlo whi]; [easy | apply lor_is_u; [lia | easy | apply B; lia]]|].
    rewrite lor_bit_add by (easy || lia).
    replace (2 ^ i) with (2 ^ (i - 64) * 2 ^ 64) by (rewrite <- Z.pow_add_r by lia; f_equal; lia). ring.
  - assert (Hl : wlo q mod 2 ^ (i + 1) = 0).
    { replace (whi q * 2 ^ 64) with (whi q * 2 ^ (63 - i) * 2 ^ (i + 1)) in Hq
        by (rewrite <- Z.mul_assoc, <- Z.pow_add_r by lia; do 2 f_equal; lia).
      now rewrite Z_mod_plus_full in Hq. }
    split; [split; cbn [wlo whi]; [apply lor_is_u; [lia | easy | apply B; lia] | easy]|].
    rewrite lor_bit_add by (easy || lia). ring.
Qed.

(** The loop is restoring division on the represented values. *)
Lemma w_udivmod_loop_rdiv a b : w_ok a -> w_ok b -> 0 < w_val b ->
  forall k quo rem, (k <= 128)%nat -> w_ok quo -> w_ok rem ->
  rdiv_inv (Z.of_nat k) (w_val a) (w_val b) (w_val quo) (w_val rem) ->
  let qr := w_udivmod_loop k a b quo rem in
  w_ok qr.1 /\ w_ok qr.2 /\
  (w_val qr.1, w_val qr.2) = rdiv k (w_val a) (w_val b) (w_val quo) (w_val rem).
Proof.
  intros Ha Hb Hpos. induction k as [|k IH]; intros quo rem Hk Hq Hr Hinv; [easy|].
  cbn [w_udivmod_loop rdiv]. rewrite Nat2Z.inj_succ in Hinv.
  set (i := Z.of_nat k) in *. assert (0 <= i < 128) by lia.
  rewrite w_bit by easy. set (bit := (w_val a / 2 ^ i) mod 2).
  assert (Hbit : 0 <= bit < 2) by (apply Z.mod_pos_bound; lia).
  assert (Hlt : w_val rem < 2 ^ 127).
  { pose proof (rdiv_inv_bound _ _ _ _ _ Hpos Hinv ltac:(lia)) as B.
    pose proof (w_val_range a Ha) as [_ Ra]. apply Z.le_lt_trans with (1 := B).
    apply Z.div_lt_upper_bound; [apply pow2_pos; lia|].
    assert (2 <= 2 ^ Z.succ i) by (change 2 with (2 ^ 1) at 1; apply pow2_le_mono; lia). lia. }
  destruct (w_shl1_bit rem bit Hr Hlt Hbit) as [Ok2 V2]. cbn zeta in *.
  set (rem2 := W _ _) in *. rewrite w_ult_law, V2 by easy.
  pose proof (rdiv_inv_step _ _ i _ _ Hpos ltac:(lia) Hinv) as S1. cbn zeta in S1. fold bit in S1.
  destruct Hinv as (_ & _ & Hqm & _). fold (i + 1) in Hqm.
  replace (negb (_ <? _)) with (w_val b <=? 2 * w_val rem + bit) by lia.
  destruct (Z.leb_spec (w_val b) (2 * w_val rem + bit)) as [L|L].
  - destruct (w_sub_law rem2 b Ok2 Hb ltac:(lia)) as [Ok3 V3].
    destruct (w_setbit_law quo i Hq ltac:(lia) Hqm) as [Ok4 V4]. cbn zeta in *.
    rewrite V2 in V3. rewrite <- V3, <- V4 in S1 |- *. apply IH; (lia || easy).
  - rewrite <- V2 in S1 |- *. apply IH; (lia || easy).
Qed.

Lemma w_udivmod_law a b : w_ok a -> w_ok b -> w_val b <> 0 ->
  let '(q, r) := w_udivmod a b in
  w_ok q /\ w_ok r /\ w_val q = w_val a / w_val b /\ w_val r = w_val a mod w_val b.
Proof.
  intros Ha Hb Hnz. pose proof (w_val_range b Hb) as [Hb0 _].
  assert (O0 : w_ok (w_make 0 0)) by easy.
  pose proof (w_udivmod_loop_rdiv a b Ha Hb ltac:(lia) 128 _ _ ltac:(lia) O0 O0
                (rdiv_inv_init 128 (w_val a) (w_val b) ltac:(lia) (w_val_range a Ha))) as H. cbn zeta in H.
  unfold w_udivmod. destruct (w_udivmod_loop _ _ _ _ _) as [q r]. cbn [fst snd] in H.
  destruct H as (Hq & Hr & E). change (w_val (w_make 0 0)) with 0 in E.
  rewrite rdiv_correct in E by (lia || exact (w_val_range a Ha)). now injection E as -> ->.
Qed.

(** The magnitudes [w_div] divides, and the sign it puts back. *)
Lemma w_abs_law sign a : w_ok a ->
  let neg := sign && (s64 (whi a) <? 0) in
  let v := if sign then s128 (w_val a) else w_val a in
  w_ok (if neg then w_neg a else a) /\
  w_val (if neg then w_neg a else a) = Z.abs v /\ neg = (v <? 0).
Proof.
  intros Ha neg v. subst neg v. pose proof (w_val_range a Ha) as R.
  destruct sign; cbn [andb]; [|unfold is_u in R; split_and!; [easy | lia | lia]].
  pose proof Ha as [Rl _]. rewrite (s128_val a Ha).
  pose proof (w_neg_law a Ha) as [Okn Vn]. pose proof (s128_val a Ha) as E.
  pose proof (swrap_range 128 (w_val a) ltac:(lia)) as Rs. unfold is_s, is_u in *.
  destruct (Z.ltb_spec (s64 (whi a)) 0).
  - split_and!; [easy | | lia]. rewrite Vn, <- E.
    replace (u128 (- w_val a)) with (u128 (- s128 (w_val a)))
      by (apply uwrap_proper; now rewrite (eqw_swrap 128 (w_val a)) by lia).
    rewrite uwrap_small by (unfold is_u; lia). lia.
  - split_and!; [easy | | lia]. rewrite <- E. rewrite swrap_of_u in E |- * by easy.
    destruct (_ <? _); lia.
Qed.

Lemma neg_if_law (n : bool) a : w_ok a ->
  w_ok (if n then w_neg a else a) /\
  w_val (if n then w_neg a else a) = u128 (if n then - w_val a else w_val a).
Proof.
  intros Ha. destruct n; [now apply w_neg_law|].
  split; [easy|]. symmetry. now apply uwrap_small, w_val_range.
Qed.

(** Truncating division from the magnitudes' quotient and remainder. *)
Lemma quot_by_abs x y : y <> 0 ->
  (if xorb (x <? 0) (y <? 0) then - (Z.abs x / Z.abs y) else Z.abs x / Z.abs y) = Z.quot x y.
Proof.
  intros Hy. pose proof (Z.quot_div x y Hy) as E.
  rewrite E. destruct (Z.ltb_spec x 0), (Z.ltb_spec y 0); cbn [xorb].
  - rewrite (Z.sgn_neg x), (Z.sgn_neg y) by lia. lia.
  - rewrite (Z.sgn_neg x), (Z.sgn_pos y) by lia. lia.
  - rewrite (Z.sgn_neg y) by lia. destruct (Z.eq_dec x 0) as [->|].
    + rewrite Z.div_0_l by lia. lia.
    + rewrite (Z.sgn_pos x) by lia. lia.
  - rewrite (Z.sgn_pos y) by lia. destruct (Z.eq_dec x 0) as [->|].
    + rewrite Z.div_0_l by lia. lia.
    + rewrite (Z.sgn_pos x) by lia. lia.
Qed.

Lemma rem_by_abs x y : y <> 0 ->
  (if x <? 0 then - (Z.abs x mod Z.abs y) else Z.abs x mod Z.abs y) = Z.rem x y.
Proof.
  intros Hy. rewrite (Z.rem_mod x y Hy). destruct (Z.ltb_spec x 0).
  - rewrite (Z.sgn_neg x) by lia. lia.
  - destruct (Z.eq_dec x 0) as [->|]; [rewrite Z.mod_0_l by lia; lia|].
    rewrite (Z.sgn_pos x) by lia. lia.
Qed.

(** What [w_div] answers, on every branch. *)
Definition div_spec (sign modulo : bool) (x y : Z) : Z :=
  if sign then u128 ((if modulo then Z.rem else Z.quot) (s128 x) (s128 y))
  else if modulo then x mod y else x / y.

Lemma w_val_zero b : w_ok b -> (wlo b =? 0) && (whi b =? 0) = (w_val b =? 0).
Proof. intros [Bl Bh]. unfold w_val, is_u in *. lia. Qed.

Lemma s128_nonzero x : is_u 128 x -> x <> 0 -> s128 x <> 0.
Proof. intros R Hx. rewrite swrap_of_u by easy. unfold is_u in R. destruct (_ <? _) eqn:?; lia. Qed.

Lemma w_div_law a b sign modulo : w_ok a -> w_ok b ->
  if w_val b =? 0 then w_div a b sign modulo = None
  else exists r, w_div a b sign modulo = Some r /\ w_ok r /\
                 w_val r = div_spec sign modulo (w_val a) (w_val b).
Proof.
  intros Ha Hb. unfold w_div. rewrite w_val_zero by easy.
  destruct (Z.eqb_spec (w_val b) 0) as [|Hnz]; [easy|].
  destruct (w_abs_law sign a Ha) as (Oka & Va & Na). destruct (w_abs_law sign b Hb) as (Okb & Vb & Nb).
  cbn zeta in *. rewrite Na in Oka, Va |- *. rewrite Nb in Okb, Vb |- *.
  set (va := if sign then _ else w_val a) in *. set (vb := if sign then _ else w_val b) in *.
  assert (Hvb : vb <> 0) by (destruct sign; [apply s128_nonzero; [now apply w_val_range|]|]; easy).
  pose proof (w_udivmod_law _ _ Oka Okb ltac:(rewrite Vb; lia)) as D.
  destruct (w_udivmod _ _) as [q r]. destruct D as (Okq & Okr & Vq & Vr).
  rewrite Va, Vb in Vq, Vr. eexists. split; [reflexivity|].
  destruct (neg_if_law (xorb (va <? 0) (vb <? 0)) q Okq) as [Oq Eq].
  destruct (neg_if_law (va <? 0) r Okr) as [Or Er].
  rewrite Vq, quot_by_abs in Eq by easy. rewrite Vr, rem_by_abs in Er by easy.
  pose proof (w_val_range a Ha) as Ra. pose proof (w_val_range b Hb) as Rb. unfold is_u in Ra, Rb.
  unfold div_spec. destruct modulo; cbn [negb]; (split; [easy|]).
  - rewrite Er. destruct sign; subst va vb; [easy|].
    rewrite Z.rem_mod_nonneg by lia. apply uwrap_small. unfold is_u.
    pose proof (Z.mod_pos_bound (w_val a) (w_val b)). lia.
  - rewrite Eq. destruct sign; subst va vb; [easy|].
    rewrite Z.quot_div_nonneg by lia. apply uwrap_small. unfold is_u.
    split; [apply Z.div_pos; lia | apply Z.div_lt_upper_bound; nia].
Qed.

(** ** The folder meets the contract *)

Definition w_div_or (a b : w128) (sign modulo : bool) : w128 :=
  default (w_make 0 0) (w_div a b sign modulo).

Lemma w_div_or_law a b sign modulo : w_ok a -> w_ok b -> w_val b <> 0 ->
  w_ok (w_div_or a b sign modulo) /\
  w_val (w_div_or a b sign modulo) = div_spec sign modulo (w_val a) (w_val b).
Proof.
  intros Ha Hb Hnz. pose proof (w_div_law a b sign modulo Ha Hb) as H.
  rewrite (proj2 (Z.eqb_neq _ _) Hnz) in H. destruct H as (r & E & Ok & V).
  unfold w_div_or. now rewrite E.
Qed.

Lemma shift_mod n : 0 <= n < 128 -> n mod 128 = n.
Proof. apply Z.mod_small. Qed.

#[export, refine] Instance w_int128 : Int128 w128 := {|
  i_ok := w_ok; i_val := w_val; i_of := w_of; i_neg := w_neg; i_mul := w_mul;
  i_shl := w_shl; i_shru := fun a n => w_shr a n false; i_shrs := fun a n => w_shr a n true;
  i_udiv := fun a b => w_div_or a b false false; i_umod := fun a b => w_div_or a b false true;
  i_sdiv := fun a b => w_div_or a b true false; i_smod := fun a b => w_div_or a b true true
|}.
Proof.
  - apply w_val_range.
  - intros z Hz. split; [apply w_of_ok | now apply w_of_val].
  - apply w_neg_law.
  - apply w_mul_law.
  - intros a n Ha Hn. pose proof (w_shl_law a n Ha) as H. now rewrite shift_mod in H.
  - intros a n Ha Hn. pose proof (w_shr_law a n false Ha) as H. now rewrite shift_mod in H.
  - intros a n Ha Hn. pose proof (w_shr_law a n true Ha) as H. now rewrite shift_mod in H.
  - intros a b. apply (w_div_or_law a b false false).
  - intros a b. apply (w_div_or_law a b false true).
  - intros a b. apply (w_div_or_law a b true false).
  - intros a b. apply (w_div_or_law a b true true).
Defined.

(** ** Properties *)

(** The constant folder's operations are arithmetic modulo [2^128] on the
    value two eightbytes stand for: sum, negation, product, shifts by a count
    taken modulo 128, and the unsigned and signed orders; each returns a pair
    of 64-bit words again. *)
Theorem w128_correct (a b : w128) (n : Z) :
  w_ok a -> w_ok b ->
  (w_ok (w_add a b) /\ w_val (w_add a b) = u128 (w_val a + w_val b)) /\
  (w_ok (w_neg a) /\ w_val (w_neg a) = u128 (- w_val a)) /\
  (w_ok (w_mul a b) /\ w_val (w_mul a b) = u128 (w_val a * w_val b)) /\
  (w_ok (w_shl a n) /\ w_val (w_shl a n) = u128 (w_val a * 2 ^ (n mod 128))) /\
  (w_ok (w_shr a n true) /\ w_val (w_shr a n true) = u128 (s128 (w_val a) / 2 ^ (n mod 128))) /\
  (w_ok (w_shr a n false) /\ w_val (w_shr a n false) = w_val a / 2 ^ (n mod 128)) /\
  w_ult a b = (w_val a <? w_val b) /\
  w_slt a b = (s128 (w_val a) <? s128 (w_val b)).
Proof.
  intros Ha Hb.
  exact (conj (w_add_law a b Ha Hb) (conj (w_neg_law a Ha) (conj (w_mul_law a b Ha Hb)
    (conj (w_shl_law a n Ha) (conj (w_shr_law a n true Ha) (conj (w_shr_law a n false Ha)
    (conj (w_ult_law a b Ha Hb) (w_slt_law a b Ha Hb)))))))).
Qed.

Lemma w128_correct_witness :
  w_val (w_mul (W (2 ^ 64 - 1) 0) (W (2 ^ 64 - 1) 1)) = u128 ((2 ^ 64 - 1) * (2 ^ 65 - 1)).
Proof.
  apply (w128_correct (W (2 ^ 64 - 1) 0) (W (2 ^ 64 - 1) 1) 0);
    (split; unfold is_u; cbn [wlo whi]; lia).
Defined.

(** [w_div] refuses a zero divisor and otherwise gives C's quotient or
    remainder at 128 bits, signed (truncating, wrapping on [MIN / -1]) or
    unsigned. *)
Theorem w_div_correct (a b : w128) (sign modulo : bool) :
  w_ok a -> w_ok b ->
  if w_val b =? 0 then w_div a b sign modulo = None
  else exists r, w_div a b sign modulo = Some r /\ w_ok r /\
                 w_val r = div_spec sign modulo (w_val a) (w_val b).
Proof. apply w_div_law. Qed.

Lemma w_div_correct_witness :
  exists r, w_div (W (2 ^ 64 - 7) (2 ^ 64 - 1)) (W 2 0) true false = Some r /\ w_ok r /\
            w_val r = u128 (- 3).
Proof.
  exact (w_div_correct (W (2 ^ 64 - 7) (2 ^ 64 - 1)) (W 2 0) true false
           ltac:(split; unfold is_u; cbn [wlo whi]; lia) ltac:(split; unfold is_u; cbn [wlo whi]; lia)).
Defined.
