(* ===== verification/RtInt128.v ===== *)
(** * Run-time 128-bit arithmetic ([lib/rt/rt.h], [lib/rt/int128.c])

    The helpers a compiled program calls for [__int128]. A [u128] is a [Z] in
    [0, 2^128), taken apart and put together through the union of [rt.h]
    ([hi64], [lo64], [mk]); everything between is 64-bit arithmetic. An [s128]
    is a [Z] in the signed range, and [.s] and [.u] of the union are the two
    readings of the same bits. *)

From stdpp Require Import base numbers list option.
From Stdlib Require Import ZArith Lia.
From S2P Require Import Prelude Int128 W128.

(** ** [rt.h] *)

Definition mk (hi lo : Z) : Z := hi * 2 ^ 64 + lo.
Definition hi64 (x : Z) : Z := x / 2 ^ 64.
Definition lo64 (x : Z) : Z := u64 x.

(** 64 x 64 -> 128: the high half returned, the low half stored. *)
Definition rt_mul64 (a b : Z) : Z * Z :=
  let al := Z.land a 0xFFFFFFFF in let ah := Z.shiftr a 32 in
  let bl := Z.land b 0xFFFFFFFF in let bh := Z.shiftr b 32 in
  let ll := u64 (al * bl) in let lh := u64 (al * bh) in
  let hl := u64 (ah * bl) in let hh := u64 (ah * bh) in
  let mid := u64 (u64 (Z.shiftr ll 32 + Z.land lh 0xFFFFFFFF) + Z.land hl 0xFFFFFFFF) in
  (u64 (hh + Z.shiftr lh 32 + Z.shiftr hl 32 + Z.shiftr mid 32),
   Z.lor (Z.land ll 0xFFFFFFFF) (u64 (Z.shiftl mid 32))).

(** ** [int128.c] *)

Definition __multi3 (a b : Z) : Z :=
  let al := lo64 a in let ah := hi64 a in
  let bl := lo64 b in let bh := hi64 b in
  let '(hi, lo) := rt_mul64 al bl in
  let hi := u64 (hi + (u64 (ah * bl) + u64 (al * bh))) in
  mk hi lo.

Definition __ashlti3 (a n : Z) : Z :=
  let lo := lo64 a in let hi := hi64 a in
  if n =? 0 then a
  else if n >=? 64 then mk (u64 (Z.shiftl lo (n - 64))) 0
  else mk (Z.lor (u64 (Z.shiftl hi n)) (Z.shiftr lo (64 - n))) (u64 (Z.shiftl lo n)).

Definition __lshrti3 (a n : Z) : Z :=
  let lo := lo64 a in let hi := hi64 a in
  if n =? 0 then a
  else if n >=? 64 then mk 0 (Z.shiftr hi (n - 64))
  else mk (Z.shiftr hi n) (Z.lor (Z.shiftr lo n) (u64 (Z.shiftl hi (64 - n)))).

(** [a] and the result are signed; [hi >> 63] and [hi >> n] shift an [s64]. *)
Definition __ashrti3 (a n : Z) : Z :=
  let w := u128 a in
  let lo := lo64 w in let hi := s64 (hi64 w) in
  if n =? 0 then a
  else if n >=? 64 then
    let top := Z.shiftr hi 63 in
    s128 (mk (u64 top) (u64 (Z.shiftr hi (n - 64))))
  else s128 (mk (u64 (Z.shiftr hi n)) (Z.lor (Z.shiftr lo n) (u64 (Z.shiftl (u64 hi) (64 - n))))).

(** The loop of [udivmod], for [i = k-1] down to 0, on the halves of the
    remainder and of the quotient. *)
Fixpoint udivmod_loop (k : nat) (ahi alo bhi blo rhi rlo qhi qlo : Z) : (Z * Z) * (Z * Z) :=
  match k with
  | O => ((qhi, qlo), (rhi, rlo))
  | S k' =>
      let i := Z.of_nat k' in
      let rhi := Z.lor (u64 (Z.shiftl rhi 1)) (Z.shiftr rlo 63) in
      let rlo := u64 (Z.shiftl rlo 1) in
      let rlo := if i >=? 64 then Z.lor rlo (Z.land (Z.shiftr ahi (i - 64)) 1)
                 else Z.lor rlo (Z.land (Z.shiftr alo i) 1) in
      if (rhi >? bhi) || ((rhi =? bhi) && (rlo >=? blo)) then
        let borrow := b2z (rlo <? blo) in
        let rlo := u64 (rlo - blo) in
        let rhi := u64 (rhi - u64 (bhi + borrow)) in
        if i >=? 64 then
          udivmod_loop k' ahi alo bhi blo rhi rlo (Z.lor qhi (u64 (Z.shiftl 1 (i - 64)))) qlo
        else
          udivmod_loop k' ahi alo bhi blo rhi rlo qhi (Z.lor qlo (u64 (Z.shiftl 1 i)))
      else udivmod_loop k' ahi alo bhi blo rhi rlo qhi qlo
  end.

Definition udivmod (a b : Z) : Z * Z :=
  let '((qhi, qlo), (rhi, rlo)) :=
    udivmod_loop 128 (hi64 a) (lo64 a) (hi64 b) (lo64 b) 0 0 0 0 in
  (mk qhi qlo, mk rhi rlo).

Definition __udivti3 (a b : Z) : Z := (udivmod a b).1.
Definition __umodti3 (a b : Z) : Z := (udivmod a b).2.

Definition neg128 (x : Z) : Z :=
  let lo := lo64 x in let hi := hi64 x in
  let nlo := u64 (u64 (Z.lnot lo) + 1) in
  let nhi := u64 (u64 (Z.lnot hi) + b2z (nlo =? 0)) in
  mk nhi nlo.

Definition is_neg (x : Z) : bool := negb (Z.shiftr (hi64 x) 63 =? 0).

Definition __divti3 (a b : Z) : Z :=
  let wa := u128 a in let wb := u128 b in
  let neg := xorb (is_neg wa) (is_neg wb) in
  let wa := if is_neg wa then neg128 wa else wa in
  let wb := if is_neg wb then neg128 wb else wb in
  let wq := (udivmod wa wb).1 in
  let wq := if neg then neg128 wq else wq in
  s128 wq.

Definition __modti3 (a b : Z) : Z :=
  let wa := u128 a in let wb := u128 b in
  let neg := is_neg wa in
  let wa := if is_neg wa then neg128 wa else wa in
  let wb := if is_neg wb then neg128 wb else wb in
  let wr := (udivmod wa wb).2 in
  let wr := if neg then neg128 wr else wr in
  s128 wr.

Definition __negti2 (a : Z) : Z := s128 (neg128 (u128 a)).

(** ** Correctness *)

Lemma hi64_range x : is_u 128 x -> is_u 64 (hi64 x).
Proof.
  unfold is_u, hi64. intros. split; [apply Z.div_pos; lia | apply Z.div_lt_upper_bound; lia].
Qed.
Lemma lo64_range x : is_u 64 (lo64 x).
Proof. now apply uwrap_range. Qed.
#[export] Hint Resolve hi64_range lo64_range : wide.

Lemma mk_halves x : mk (hi64 x) (lo64 x) = x.
Proof. unfold mk, hi64, lo64, uwrap. rewrite Z.mul_comm. symmetry. now apply Z.div_mod. Qed.

Lemma mk_range hi lo : is_u 64 hi -> is_u 64 lo -> is_u 128 (mk hi lo).
Proof. unfold is_u, mk. lia. Qed.

Lemma hi64_mk hi lo : is_u 64 lo -> hi64 (mk hi lo) = hi.
Proof. intros. unfold hi64, mk. rewrite Z.div_add_l, (Z.div_small lo) by (done || lia). lia. Qed.
Lemma lo64_mk hi lo : is_u 64 lo -> lo64 (mk hi lo) = lo.
Proof.
  intros. unfold lo64, mk. rewrite Z.add_comm, uwrap_add_mul. now apply uwrap_small.
Qed.

(** A word pair congruent to a value is that value's wrap. *)
Lemma mk_eqw hi lo z : is_u 64 hi -> is_u 64 lo -> eqw 128 (mk hi lo) z -> mk hi lo = u128 z.
Proof. intros Hh Hl E. rewrite <- E. symmetry. now apply uwrap_small, mk_range. Qed.

Lemma rt_mul64_law a b : is_u 64 a -> is_u 64 b ->
  let '(hi, lo) := rt_mul64 a b in is_u 64 hi /\ is_u 64 lo /\ mk hi lo = a * b.
Proof.
  intros Ha Hb. unfold rt_mul64. rewrite !lo32, !shr_div, !shl_mul by lia.
  destruct (mul_halves 32 a b ltac:(lia) Ha Hb) as (Hlo & Hhi & E).
  change (32 + 32) with 64 in *. cbn zeta in *.
  rewrite uwrap_small by easy. done.
Qed.

Lemma multi3_law a b : is_u 128 a -> is_u 128 b -> __multi3 a b = u128 (a * b).
Proof.
  intros Ha Hb. unfold __multi3. pose proof (rt_mul64_law (lo64 a) (lo64 b)) as M.
  destruct (rt_mul64 _ _) as [hi lo]. destruct M as (Hh & Hl & E); [auto with wide..|].
  apply mk_eqw; [auto with wide..|]. unfold mk.
  rewrite (mod2_128_hi _ _ (eqw_uwrap 64 _ ltac:(lia))).
  rewrite (mod2_128_hi (hi + _) (hi + (hi64 a * lo64 b + lo64 a * hi64 b)))
    by (rewrite !(eqw_uwrap 64) by lia; reflexivity).
  pose proof (mk_halves a) as Ea. pose proof (mk_halves b) as Eb. unfold mk in Ea, Eb, E.
  set (ah := hi64 a) in *. set (al := lo64 a) in *. set (bh := hi64 b) in *. set (bl := lo64 b) in *.
  clearbody ah al bh bl. subst a b. exists (- (ah * bh)).
  change (2 ^ 128) with (2 ^ 64 * 2 ^ 64). lia.
Qed.

Lemma val_halves x : lo64 x + hi64 x * 2 ^ 64 = x.
Proof. rewrite Z.add_comm. apply mk_halves. Qed.

Lemma ashlti3_law a n : is_u 128 a -> 0 <= n < 128 -> __ashlti3 a n = u128 (a * 2 ^ n).
Proof.
  intros Ha Hn. unfold __ashlti3, mk.
  destruct (Z.eqb_spec n 0) as [->|].
  { rewrite Z.mul_1_r. symmetry. now apply uwrap_small. }
  transitivity (u128 ((lo64 a + hi64 a * 2 ^ 64) * 2 ^ n)); [|now rewrite val_halves].
  destruct (Z.geb_spec n 64); rewrite !shl_mul, ?shr_div by lia.
  - rewrite Z.add_0_r. exact (dw_shl_big 64 (lo64 a) (hi64 a) ltac:(lia) n ltac:(lia)).
  - rewrite Z.add_comm.
    exact (dw_shl 64 (lo64 a) (hi64 a) ltac:(lia) (lo64_range a) n ltac:(lia)).
Qed.

Lemma lshrti3_law a n : is_u 128 a -> 0 <= n < 128 -> __lshrti3 a n = a / 2 ^ n.
Proof.
  intros Ha Hn. unfold __lshrti3, mk.
  destruct (Z.eqb_spec n 0) as [->|]; [now rewrite Z.div_1_r|].
  transitivity ((lo64 a + hi64 a * 2 ^ 64) / 2 ^ n); [|now rewrite val_halves].
  destruct (Z.geb_spec n 64); rewrite ?shl_mul, !shr_div by lia.
  - rewrite <- (dw_shr_big 64) by (auto with wide || lia). lia.
  - rewrite <- (dw_shr 64) by (auto with wide || lia). lia.
Qed.

(** The signed value, from its signed high word. *)
Lemma s128_halves x : is_u 128 x -> s128 x = lo64 x + s64 (hi64 x) * 2 ^ 64.
Proof.
  intros Hx. pose proof (s128_val (W (lo64 x) (hi64 x))) as H. unfold w_val in H. cbn [wlo whi] in H.
  rewrite val_halves in H. apply H. split; cbn [wlo whi]; auto with wide.
Qed.

Lemma ashrti3_law a n : is_s 128 a -> 0 <= n < 128 -> __ashrti3 a n = a / 2 ^ n.
Proof.
  intros Ha Hn. unfold __ashrti3. pose proof (uwrap_range 128 a ltac:(lia)) as Hu.
  destruct (Z.eqb_spec n 0) as [->|]; [now rewrite Z.div_1_r|].
  assert (E : a = lo64 (u128 a) + s64 (hi64 (u128 a)) * 2 ^ 64).
  { rewrite <- s128_halves, swrap_uwrap, swrap_small by (done || lia). reflexivity. }
  set (lo := lo64 (u128 a)) in *. set (hi := s64 (hi64 (u128 a))) in *.
  pose proof (swrap_range 64 (hi64 (u128 a)) ltac:(lia)) as Hh. fold hi in Hh.
  assert (Hl : is_u 64 lo) by (apply lo64_range). clearbody lo hi.
  pose proof (pow2_pos n ltac:(lia)) as Hp.
  assert (R : is_s 128 (a / 2 ^ n)).
  { unfold is_s in *. split; [apply Z.div_le_lower_bound; nia | apply Z.div_lt_upper_bound; nia]. }
  rewrite <- (swrap_small 128 (a / 2 ^ n)) by (done || lia).
  destruct (Z.geb_spec n 64); apply swrap_proper; unfold mk;
    rewrite ?shl_mul, !shr_div by lia;
    rewrite (mod2_128_hi _ _ (eqw_uwrap 64 _ ltac:(lia))).
  - rewrite E, <- (dw_shr_big 64 lo hi) by (done || lia).
    pose proof (pow2_pos (n - 64) ltac:(lia)). set (q := hi / 2 ^ (n - 64)).
    assert (Q : is_s 64 q).
    { subst q. unfold is_s in *.
      split; [apply Z.div_le_lower_bound; nia | apply Z.div_lt_upper_bound; nia]. }
    rewrite uwrap_of_s by (done || lia). unfold is_s in Hh.
    assert (T : hi / 2 ^ 63 = if hi <? 0 then -1 else 0).
    { destruct (Z.ltb_spec hi 0); Z.div_mod_to_equations; lia. }
    assert (S : (q <? 0) = (hi <? 0)).
    { subst q. destruct (Z.ltb_spec hi 0).
      - apply Z.ltb_lt, Z.div_lt_upper_bound; lia.
      - apply Z.ltb_ge, Z.div_pos; lia. }
    rewrite T, S. exists 0. destruct (hi <? 0); lia.
  - rewrite E, <- (dw_shr 64 lo hi) by (done || lia).
    replace (u64 (u64 hi * 2 ^ (64 - n))) with (u64 (hi * 2 ^ (64 - n)))
      by (apply uwrap_proper; now rewrite (eqw_uwrap 64 hi) by lia).
    exists 0. lia.
Qed.

Lemma neg128_law x : is_u 128 x -> neg128 x = u128 (- x).
Proof.
  intros Hx. unfold neg128. pose proof (hi64_range x Hx) as Hh. pose proof (lo64_range x) as Hl.
  rewrite !w_lnot_eq by done. apply mk_eqw; [auto with wide..|]. unfold mk.
  rewrite (mod2_128_hi _ _ (eqw_uwrap 64 _ ltac:(lia))).
  transitivity (- (lo64 x + hi64 x * 2 ^ 64)); [|now rewrite val_halves].
  set (h := hi64 x) in *. set (l := lo64 x) in *. unfold is_u in *. clearbody h l.
  assert (C : u64 (2 ^ 64 - 1 - l + 1) = if l =? 0 then 0 else 2 ^ 64 - l).
  { destruct (Z.eqb_spec l 0) as [->|]; [easy|].
    rewrite uwrap_small by (unfold is_u; lia). lia. }
  rewrite C. exists 1. unfold b2z. destruct (Z.eqb_spec l 0).
  - rewrite Z.eqb_refl. lia.
  - replace (_ =? 0) with false by lia. lia.
Qed.

Lemma is_neg_law x : is_u 128 x -> is_neg x = (s128 x <? 0).
Proof.
  intros Hx. unfold is_neg, hi64. rewrite shr_div by lia. rewrite swrap_of_u by (done || lia).
  unfold is_u in Hx. rewrite Z.div_div by lia. change (2 ^ 64 * 2 ^ 63) with (2 ^ (128 - 1)).
  destruct (Z.ltb_spec x (2 ^ (128 - 1))).
  - rewrite Z.div_small by lia. rewrite Z.eqb_refl. cbn [negb]. lia.
  - replace (x / 2 ^ (128 - 1)) with 1 by (Z.div_mod_to_equations; lia).
    change (1 =? 0) with false. cbn [negb]. lia.
Qed.

(** The subtraction with borrow is the folder's addition of the negative. *)
Lemma sub_borrow r b : w_ok r -> w_ok b -> w_val b <= w_val r ->
  W (u64 (wlo r - wlo b)) (u64 (whi r - u64 (whi b + b2z (wlo r <? wlo b)))) = w_add r (w_neg b).
Proof.
  intros Hr Hb Hle. destruct (w_sub_law r b Hr Hb Hle) as [Ok V].
  assert (Ok' : w_ok (W (u64 (wlo r - wlo b)) (u64 (whi r - u64 (whi b + b2z (wlo r <? wlo b))))))
    by (split; cbn [wlo whi]; auto with wide).
  apply w_val_inj; [done..|]. rewrite V.
  rewrite <- (uwrap_small 128 (w_val r - w_val b))
    by (pose proof (w_val_range r Hr); pose proof (w_val_range b Hb); unfold is_u in *; lia).
  apply w_ok_eqw; [done|]. unfold w_val. cbn [wlo whi].
  rewrite (mod2_128_hi _ _ (eqw_uwrap 64 _ ltac:(lia))).
  rewrite (mod2_128_hi (whi r - _) (whi r - (whi b + b2z (wlo r <? wlo b))))
    by (rewrite (eqw_uwrap 64 (whi b + _)) by lia; reflexivity).
  destruct Hr as [Rl _], Hb as [Bl _]. unfold is_u in *. exists 0. unfold b2z.
  destruct (Z.ltb_spec (wlo r) (wlo b)).
  - unfold uwrap. Z.div_mod_to_equations. lia.
  - rewrite uwrap_small by (unfold is_u; lia). lia.
Qed.

Lemma ge_words r b : w_ok r -> w_ok b ->
  (whi r >? whi b) || ((whi r =? whi b) && (wlo r >=? wlo b)) = negb (w_ult r b).
Proof. intros [? ?] [? ?]. unfold w_ult. destruct (Z.eqb_spec (whi r) (whi b)); cbn [negb]; lia. Qed.

(** The run-time loop and the folder's do the same, a half at a time. *)
Lemma udivmod_loop_w a b : w_ok a -> w_ok b -> forall k quo rem, w_ok rem ->
  udivmod_loop k (whi a) (wlo a) (whi b) (wlo b) (whi rem) (wlo rem) (whi quo) (wlo quo)
  = let '(q, r) := w_udivmod_loop k a b quo rem in ((whi q, wlo q), (whi r, wlo r)).
Proof.
  intros Ha Hb. induction k as [|k IH]; intros quo rem Hr; [easy|].
  cbn [udivmod_loop w_udivmod_loop]. set (i := Z.of_nat k).
  set (bit := Z.land (if i >=? 64 then _ else _) 1).
  set (r2 := W (Z.lor (wlo (w_shl rem 1)) bit) (whi (w_shl rem 1))).
  assert (Hr2 : w_ok r2).
  { destruct (w_shl_law rem 1 Hr) as [[? ?] _]. split; cbn [wlo whi r2]; [|done].
    apply lor_is_u; [lia | done |]. subst bit. change 1 with (2 ^ 1 - 1). rewrite land_ones_mod by lia.
    unfold is_u. pose proof (Z.mod_pos_bound (if i >=? 64 then Z.shiftr (whi a) (i - 64)
      else Z.shiftr (wlo a) i) (2 ^ 1)). lia. }
  change (Z.lor (u64 (Z.shiftl (whi rem) 1)) (Z.shiftr (wlo rem) 63)) with (whi r2).
  replace (if i >=? 64 then Z.lor (u64 (Z.shiftl (wlo rem) 1)) (Z.land (Z.shiftr (whi a) (i - 64)) 1)
           else Z.lor (u64 (Z.shiftl (wlo rem) 1)) (Z.land (Z.shiftr (wlo a) i) 1)) with (wlo r2)
    by (subst r2 bit; cbn [wlo]; change (wlo (w_shl rem 1)) with (u64 (Z.shiftl (wlo rem) 1));
        now destruct (i >=? 64)).
  clearbody r2. rewrite ge_words, w_ult_law by done.
  destruct (Z.ltb_spec (w_val r2) (w_val b)) as [L|L]; cbn [negb]; [now rewrite IH|].
  pose proof (sub_borrow r2 b Hr2 Hb L) as S. destruct (w_sub_law r2 b Hr2 Hb L) as [Ok3 _].
  rewrite <- S in Ok3 |- *.
  destruct (i >=? 64); cbn [whi wlo]; rewrite <- IH by exact Ok3; reflexivity.
Qed.

Lemma udivmod_w a b : is_u 128 a -> is_u 128 b ->
  udivmod a b = let '(q, r) := w_udivmod (w_of a) (w_of b) in (w_val q, w_val r).
Proof.
  intros Ha Hb. unfold udivmod, w_udivmod.
  assert (H : forall x, is_u 128 x -> w_ok (W (lo64 x) (hi64 x)) /\ w_of x = W (lo64 x) (hi64 x)).
  { intros x Hx. split; [split; cbn [wlo whi]; auto with wide|].
    unfold w_of. f_equal. now apply uwrap_small, hi64_range. }
  destruct (H a Ha) as [Oa ->], (H b Hb) as [Ob ->].
  pose proof (udivmod_loop_w _ _ Oa Ob 128 (w_make 0 0) (w_make 0 0) ltac:(easy)) as E.
  cbn [wlo whi w_make] in E. rewrite E. destruct (w_udivmod_loop _ _ _ _ _) as [q r].
  unfold w_val, mk. f_equal; lia.
Qed.

Lemma udivmod_law a b : is_u 128 a -> is_u 128 b -> b <> 0 -> udivmod a b = (a / b, a mod b).
Proof.
  intros Ha Hb Hnz. rewrite udivmod_w by done.
  pose proof (w_udivmod_law (w_of a) (w_of b) (w_of_ok a) (w_of_ok b)) as D.
  rewrite !w_of_val in D by done. specialize (D Hnz).
  destruct (w_udivmod _ _) as [q r]. destruct D as (_ & _ & -> & ->). reflexivity.
Qed.

(** A zero divisor: every trial subtraction succeeds, so the loop sets every
    quotient bit and leaves the dividend as the remainder. *)
Lemma w_udivmod_loop_zero a : w_ok a -> forall k quo rem, (k <= 128)%nat -> w_ok quo -> w_ok rem ->
  w_val quo mod 2 ^ Z.of_nat k = 0 -> w_val rem = w_val a / 2 ^ Z.of_nat k ->
  let qr := w_udivmod_loop k a (w_make 0 0) quo rem in
  w_val qr.1 = w_val quo + 2 ^ Z.of_nat k - 1 /\ w_val qr.2 = w_val a.
Proof.
  intros Ha. induction k as [|k IH]; intros quo rem Hk Hq Hr Mq Er.
  { cbn. rewrite Z.div_1_r in Er. lia. }
  cbn [w_udivmod_loop]. rewrite Nat2Z.inj_succ in Mq, Er |- *. set (i := Z.of_nat k) in *.
  rewrite w_bit by (done || lia). set (bit := (w_val a / 2 ^ i) mod 2).
  pose proof (w_val_range a Ha) as [Ra0 Ra1].
  assert (Hlt : w_val rem < 2 ^ 127).
  { rewrite Er. apply Z.div_lt_upper_bound; [apply pow2_pos; lia|].
    assert (2 <= 2 ^ Z.succ i) by (change 2 with (2 ^ 1) at 1; apply pow2_le_mono; lia). lia. }
  destruct (w_shl1_bit rem bit Hr Hlt) as [Ok2 V2]; [apply Z.mod_pos_bound; lia|]. cbn zeta in *.
  set (r2 := W _ _) in *. assert (O0 : w_ok (w_make 0 0)) by easy.
  pose proof (w_val_range r2 Ok2) as [Rr _].
  rewrite w_ult_law by done. replace (_ <? _) with false
    by (symmetry; apply Z.ltb_ge; exact Rr). cbn [negb].
  destruct (w_sub_law r2 (w_make 0 0) Ok2 O0 Rr) as [Ok3 V3].
  destruct (w_setbit_law quo i Hq ltac:(lia) Mq) as [Ok4 V4]. cbn zeta in *.
  specialize (IH _ _ ltac:(lia) Ok4 Ok3). rewrite V4, V3 in IH. pose proof (pow2_pos i) as Hp.
  cbn zeta in IH. rewrite V2 in IH. change (w_val (w_make 0 0)) with 0 in IH. rewrite Z.sub_0_r in IH.
  destruct IH as [E1 E2].
  - apply Z.div_exact in Mq; [|pose proof (pow2_pos (Z.succ i)); lia].
    rewrite Mq, Z.pow_succ_r by lia.
    replace (2 * 2 ^ i * _ + 2 ^ i) with ((2 * (w_val quo / (2 * 2 ^ i)) + 1) * 2 ^ i) by ring.
    apply Z.mod_mul. lia.
  - rewrite Er. symmetry. apply div_pow2_succ. lia.
  - split; [|exact E2]. rewrite E1, Z.pow_succ_r by lia. lia.
Qed.

Lemma udivmod_zero_law a : is_u 128 a -> udivmod a 0 = (2 ^ 128 - 1, a).
Proof.
  intros Ha. rewrite udivmod_w by done. unfold w_udivmod. change (w_of 0) with (w_make 0 0).
  assert (O0 : w_ok (w_make 0 0)) by easy. pose proof (w_of_ok a) as Oa.
  pose proof (w_udivmod_loop_zero (w_of a) Oa 128 _ _ ltac:(lia) O0 O0) as H. cbn zeta in H.
  destruct (w_udivmod_loop _ _ _ _ _) as [q r]. cbn [fst snd] in H.
  rewrite w_of_val in H by done. destruct H as [-> ->]; [easy| |easy].
  symmetry. apply Z.div_small. exact Ha.
Qed.

(** ** Signed division *)

Lemma abs_word a : is_s 128 a ->
  is_neg (u128 a) = (a <? 0) /\ (if is_neg (u128 a) then neg128 (u128 a) else u128 a) = Z.abs a.
Proof.
  intros Ha. pose proof (uwrap_range 128 a ltac:(lia)) as Hu.
  rewrite is_neg_law, swrap_uwrap, swrap_small, neg128_law by (done || lia).
  split; [easy|]. unfold is_s in Ha. destruct (Z.ltb_spec a 0).
  - rewrite (eqw_uwrap 128 a) by lia. rewrite uwrap_small by (unfold is_u; lia). lia.
  - rewrite uwrap_small by (unfold is_u; lia). lia.
Qed.

Lemma neg_word (n : bool) x : is_u 128 x ->
  s128 (if n then neg128 x else x) = s128 (if n then - x else x).
Proof. intros Hx. destruct n; [|easy]. rewrite neg128_law, swrap_uwrap by (done || lia). easy. Qed.

Lemma divmod_abs_range a b : is_s 128 a -> b <> 0 ->
  is_u 128 (Z.abs a / Z.abs b) /\ is_u 128 (Z.abs a mod Z.abs b).
Proof.
  unfold is_s, is_u. intros Ha Hb.
  pose proof (Z.mod_pos_bound (Z.abs a) (Z.abs b)). pose proof (Z.mod_le (Z.abs a) (Z.abs b)).
  split; [|lia]. split; [apply Z.div_pos; lia | apply Z.div_lt_upper_bound; nia].
Qed.

Lemma divti3_law a b : is_s 128 a -> is_s 128 b -> b <> 0 -> __divti3 a b = s128 (Z.quot a b).
Proof.
  intros Ha Hb Hnz. unfold __divti3.
  destruct (abs_word a Ha) as [Na Aa], (abs_word b Hb) as [Nb Ab]. rewrite Aa, Ab, Na, Nb.
  unfold is_s in Ha, Hb. rewrite udivmod_law by (unfold is_u; lia). cbn [fst].
  rewrite neg_word by now apply divmod_abs_range. now rewrite quot_by_abs.
Qed.

Lemma modti3_law a b : is_s 128 a -> is_s 128 b -> b <> 0 -> __modti3 a b = Z.rem a b.
Proof.
  intros Ha Hb Hnz. unfold __modti3.
  destruct (abs_word a Ha) as [Na Aa], (abs_word b Hb) as [Nb Ab]. rewrite Aa, Ab, Na.
  unfold is_s in Ha, Hb. rewrite udivmod_law by (unfold is_u; lia). cbn [snd].
  rewrite neg_word by now apply divmod_abs_range. rewrite rem_by_abs by done.
  apply swrap_small; [lia|]. pose proof (Z.rem_bound_abs a b Hnz). unfold is_s. lia.
Qed.

(** ** The runtime meets the contract *)

Definition rt128 : Type := Z.

#[export, refine] Instance rt_int128 : Int128 rt128 := {|
  i_ok := is_u 128; i_val := fun x => x; i_of := fun z => z; i_neg := neg128;
  i_mul := __multi3; i_shl := __ashlti3; i_shru := __lshrti3;
  i_shrs := fun a n => u128 (__ashrti3 (s128 a) n);
  i_udiv := __udivti3; i_umod := __umodti3;
  i_sdiv := fun a b => u128 (__divti3 (s128 a) (s128 b));
  i_smod := fun a b => u128 (__modti3 (s128 a) (s128 b))
|}.
Proof.
  all: try (intros; assumption).
  - intros z Hz. easy.
  - intros a Ha. rewrite neg128_law by done. split; [now apply uwrap_range | easy].
  - intros a b Ha Hb. rewrite multi3_law by done. split; [now apply uwrap_range | easy].
  - intros a n Ha Hn. rewrite ashlti3_law by done. split; [now apply uwrap_range | easy].
  - intros a n Ha Hn. rewrite lshrti3_law by done. split; [|easy]. unfold is_u in *.
    pose proof (pow2_pos n). split; [apply Z.div_pos; lia | apply Z.div_lt_upper_bound; nia].
  - intros a n Ha Hn. rewrite ashrti3_law by (done || now apply swrap_range).
    split; [now apply uwrap_range | easy].
  - intros a b Ha Hb Hnz. unfold __udivti3. rewrite udivmod_law by done. cbn [fst].
    split; [|easy]. unfold is_u in *.
    split; [apply Z.div_pos; lia | apply Z.div_lt_upper_bound; nia].
  - intros a b Ha Hb Hnz. unfold __umodti3. rewrite udivmod_law by done. cbn [snd].
    split; [|easy]. unfold is_u in *. pose proof (Z.mod_pos_bound a b). lia.
  - intros a b Ha Hb Hnz. rewrite divti3_law by (first [now apply swrap_range | now apply s128_nonzero]).
    split; [now apply uwrap_range|]. now rewrite uwrap_swrap by lia.
  - intros a b Ha Hb Hnz. rewrite modti3_law by (first [now apply swrap_range | now apply s128_nonzero]).
    split; [now apply uwrap_range | easy].
Defined.

(** ** Properties *)

(** C22: constant folding agrees with run time. Every [__int128] constant
    expression built from negation, multiplication, the three shifts and the
    four divisions has, folded by [src/sema/w128.c], exactly the value the
    program would compute by calling [lib/rt/int128.c] -- and the two are
    undefined in the same cases. *)
Theorem folder_agrees_with_runtime (e : i128_expr) :
  i_val <$> run (T := w128) e = i_val <$> run (T := rt128) e.
Proof. apply run_agree. Qed.

(** C23: the run-time helpers are 128-bit arithmetic. Multiplication and the
    shifts wrap to 128 bits, the arithmetic shift is the signed one, and
    division truncates toward zero with the remainder taking the dividend's
    sign; [MIN / -1] wraps to [MIN]. *)
Theorem rt128_correct (a b n : Z) :
  is_s 128 a -> is_s 128 b -> 0 <= n < 128 ->
  __multi3 (u128 a) (u128 b) = u128 (a * b) /\
  __ashlti3 (u128 a) n = u128 (a * 2 ^ n) /\
  __lshrti3 (u128 a) n = u128 a / 2 ^ n /\
  __ashrti3 a n = a / 2 ^ n /\
  __negti2 a = s128 (- a) /\
  (b <> 0 ->
     __udivti3 (u128 a) (u128 b) = u128 a / u128 b /\
     __umodti3 (u128 a) (u128 b) = u128 a mod u128 b /\
     __divti3 a b = s128 (Z.quot a b) /\ __modti3 a b = Z.rem a b).
Proof.
  intros Ha Hb Hn. pose proof (uwrap_range 128 a ltac:(lia)) as Ua.
  pose proof (uwrap_range 128 b ltac:(lia)) as Ub. split_and!.
  - rewrite multi3_law by done. apply uwrap_proper. now rewrite !(eqw_uwrap 128) by lia.
  - rewrite ashlti3_law by done. apply uwrap_proper. now rewrite (eqw_uwrap 128 a) by lia.
  - now apply lshrti3_law.
  - now apply ashrti3_law.
  - unfold __negti2. rewrite neg128_law, swrap_uwrap by (done || lia).
    apply swrap_proper. now rewrite (eqw_uwrap 128 a) by lia.
  - intros Hnz. assert (u128 b <> 0).
    { rewrite uwrap_of_s by (done || lia). unfold is_s in Hb. destruct (_ <? _) eqn:?; lia. }
    unfold __udivti3, __umodti3. rewrite udivmod_law by done.
    split_and!; [easy | easy | now apply divti3_law | now apply modti3_law].
Qed.

Lemma rt128_correct_witness :
  __divti3 (- 2 ^ 127) (-1) = - 2 ^ 127 /\ __modti3 (-7) 3 = -1 /\ __ashrti3 (-5) 65 = -1.
Proof.
  destruct (rt128_correct (- 2 ^ 127) (-1) 1) as (_ & _ & _ & _ & _ & D);
    [unfold is_s; lia | unfold is_s; lia | lia |].
  destruct (rt128_correct (-7) 3 0) as (_ & _ & _ & _ & _ & D2); [unfold is_s; lia.. | lia |].
  destruct (rt128_correct (-5) 3 65) as (_ & _ & _ & S & _); [unfold is_s; lia.. | lia |].
  destruct D as (_ & _ & -> & _); [lia|]. destruct D2 as (_ & _ & _ & ->); [lia|]. rewrite S.
  vm_compute. auto.
Defined.

(** A run-time division by zero does not trap: the unsigned quotient comes
    back as [2^128 - 1] and the remainder as the dividend. *)
Theorem udivti3_by_zero (a : Z) :
  is_u 128 a -> __udivti3 a 0 = 2 ^ 128 - 1 /\ __umodti3 a 0 = a.
Proof. intros Ha. unfold __udivti3, __umodti3. now rewrite udivmod_zero_law. Qed.

Lemma udivti3_by_zero_witness : __udivti3 5 0 = 2 ^ 128 - 1 /\ __umodti3 5 0 = 5.
Proof. apply udivti3_by_zero. unfold is_u. lia. Defined.
