(* ===== verification/RtInt64.v ===== *)
(** * 64-bit helpers for 32-bit machines ([lib/rt/int64.c])

    Division by bit-serial subtraction, common to the 32-bit targets, and the
    multiplies and shifts of the two that need them: Xtensa (no high-word
    multiply) and ColdFire (no 64-bit multiply or variable shift). A negated
    [s64] wraps, as the machine's negation does. *)

From stdpp Require Import base numbers list option.
From Stdlib Require Import ZArith Lia.
From S2P Require Import Prelude Int128 W128.

(** The loop of [udivmod64], for [i = k-1] down to 0. *)
Fixpoint udivmod64_loop (k : nat) (a b q r : Z) : Z * Z :=
  match k with
  | O => (q, r)
  | S k' =>
      let i := Z.of_nat k' in
      let r := Z.lor (u64 (Z.shiftl r 1)) (Z.land (Z.shiftr a i) 1) in
      if r >=? b then udivmod64_loop k' a b (Z.lor q (u64 (Z.shiftl 1 i))) (u64 (r - b))
      else udivmod64_loop k' a b q r
  end.

Definition udivmod64 (a b : Z) : Z * Z :=
  if b =? 0 then (0, 0) else udivmod64_loop 64 a b 0 0.

Definition __udivdi3 (a b : Z) : Z := (udivmod64 a b).1.
Definition __umoddi3 (a b : Z) : Z := (udivmod64 a b).2.

Definition __divdi3 (a b : Z) : Z :=
  let '(a, neg) := if a <? 0 then (s64 (- a), true) else (a, false) in
  let '(b, neg) := if b <? 0 then (s64 (- b), negb neg) else (b, neg) in
  let q := (udivmod64 (u64 a) (u64 b)).1 in
  if neg then s64 (- s64 q) else s64 q.

Definition __moddi3 (a b : Z) : Z :=
  let '(a, neg) := if a <? 0 then (s64 (- a), true) else (a, false) in
  let b := if b <? 0 then s64 (- b) else b in
  let r := (udivmod64 (u64 a) (u64 b)).2 in
  if neg then s64 (- s64 r) else s64 r.

(** [#if defined(__XTENSA__)] *)
Module Xtensa.
Definition __umulsidi3 (a b : Z) : Z :=
  let a0 := Z.land a 0xffff in let a1 := Z.shiftr a 16 in
  let b0 := Z.land b 0xffff in let b1 := Z.shiftr b 16 in
  let p00 := u32 (a0 * b0) in let p01 := u32 (a0 * b1) in
  let p10 := u32 (a1 * b0) in let p11 := u32 (a1 * b1) in
  let mid := u32 (u32 (Z.shiftr p00 16 + Z.land p01 0xffff) + Z.land p10 0xffff) in
  let lo := Z.lor (Z.land p00 0xffff) (u32 (Z.shiftl mid 16)) in
  let hi := u32 (p11 + Z.shiftr p01 16 + Z.shiftr p10 16 + Z.shiftr mid 16) in
  Z.lor (u64 (Z.shiftl hi 32)) lo.

Definition __muldi3 (a b : Z) : Z :=
  let al := u32 a in let ah := u32 (Z.shiftr a 32) in
  let bl := u32 b in let bh := u32 (Z.shiftr b 32) in
  let p := __umulsidi3 al bl in
  u64 (p + u64 (Z.shiftl (u32 (u32 (al * bh) + u32 (ah * bl))) 32)).
End Xtensa.

(** [#if defined(__mcoldfire__)] *)
Module ColdFire.
Definition __ashldi3 (a b : Z) : Z :=
  let hi := u32 (Z.shiftr a 32) in let lo := u32 a in
  let b := Z.land b 63 in
  if b =? 0 then a
  else
    let '(hi, lo) :=
      if b >=? 32 then (u32 (Z.shiftl lo (b - 32)), 0)
      else (Z.lor (u32 (Z.shiftl hi b)) (Z.shiftr lo (32 - b)), u32 (Z.shiftl lo b)) in
    Z.lor (u64 (Z.shiftl hi 32)) lo.

Definition __lshrdi3 (a b : Z) : Z :=
  let hi := u32 (Z.shiftr a 32) in let lo := u32 a in
  let b := Z.land b 63 in
  if b =? 0 then a
  else
    let '(hi, lo) :=
      if b >=? 32 then (0, Z.shiftr hi (b - 32))
      else (Z.shiftr hi b, Z.lor (Z.shiftr lo b) (u32 (Z.shiftl hi (32 - b)))) in
    Z.lor (u64 (Z.shiftl hi 32)) lo.

(** [a] and the result are signed; [hi] is an [int]. *)
Definition __ashrdi3 (a b : Z) : Z :=
  let hi := s32 (Z.shiftr (u64 a) 32) in let lo := u32 a in
  let b := Z.land b 63 in
  if b =? 0 then a
  else
    let '(hi, lo) :=
      if b >=? 32 then (if hi <? 0 then -1 else 0, u32 (Z.shiftr hi (b - 32)))
      else (Z.shiftr hi b, Z.lor (Z.shiftr lo b) (u32 (Z.shiftl (u32 hi) (32 - b)))) in
    s64 (Z.lor (u64 (Z.shiftl (u32 hi) 32)) lo).

Definition __muldi3 (a b : Z) : Z :=
  let al := u32 a in let ah := u32 (Z.shiftr a 32) in
  let bl := u32 b in let bh := u32 (Z.shiftr b 32) in
  let a0 := Z.land al 0xffff in let a1 := Z.shiftr al 16 in
  let b0 := Z.land bl 0xffff in let b1 := Z.shiftr bl 16 in
  let p00 := u32 (a0 * b0) in let p01 := u32 (a0 * b1) in
  let p10 := u32 (a1 * b0) in let p11 := u32 (a1 * b1) in
  let mid := u32 (u32 (Z.shiftr p00 16 + Z.land p01 0xffff) + Z.land p10 0xffff) in
  let hi := u32 (p11 + Z.shiftr p01 16 + Z.shiftr p10 16 + Z.shiftr mid 16) in
  let lo := Z.lor (u32 (Z.shiftl mid 16)) (Z.land p00 0xffff) in
  let hi := u32 (hi + u32 (u32 (al * bh) + u32 (ah * bl))) in
  Z.lor (u64 (Z.shiftl hi 32)) lo.
End ColdFire.

(** ** Division *)

Lemma udivmod64_loop_rdiv a b : is_u 64 a -> is_u 64 b -> 0 < b ->
  forall k q r, (k <= 64)%nat -> rdiv_inv (Z.of_nat k) a b q r ->
  udivmod64_loop k a b q r = rdiv k a b q r.
Proof.
  intros Ha Hb Hpos. induction k as [|k IH]; intros q r Hk Hinv; [easy|].
  cbn [udivmod64_loop rdiv]. rewrite Nat2Z.inj_succ in Hinv. set (i := Z.of_nat k) in *.
  pose proof (rdiv_inv_bound _ _ _ _ _ Hpos Hinv ltac:(lia)) as B.
  pose proof (rdiv_inv_step _ _ i _ _ Hpos ltac:(lia) Hinv) as S1. cbn zeta in S1.
  destruct Hinv as (Hr & Hq0 & Hqm & _).
  assert (Hlt : r < 2 ^ 63).
  { apply Z.le_lt_trans with (1 := B). apply Z.div_lt_upper_bound; [apply pow2_pos; lia|].
    assert (2 <= 2 ^ Z.succ i) by (change 2 with (2 ^ 1) at 1; apply pow2_le_mono; lia).
    unfold is_u in Ha. lia. }
  replace (Z.land (Z.shiftr a i) 1) with ((a / 2 ^ i) mod 2)
    by (change 1 with (2 ^ 1 - 1); rewrite land_ones_mod, shr_div by lia; reflexivity).
  pose proof (Z.mod_pos_bound (a / 2 ^ i) 2 ltac:(lia)) as Hbit.
  set (bit := (a / 2 ^ i) mod 2) in *.
  rewrite !shl_mul, Z.mul_1_l, (uwrap_small 64 (r * 2 ^ 1)) by (unfold is_u; lia).
  rewrite (lor_shift_add 1) by lia. replace (r * 2 ^ 1 + bit) with (2 * r + bit) by lia.
  rewrite Z.geb_leb. destruct (Z.leb_spec b (2 * r + bit)) as [L|L]; [|apply IH; [lia | easy]].
  rewrite (uwrap_small 64 (2 * r + bit - b)) by (unfold is_u in *; lia).
  rewrite uwrap_small
    by (split; [apply Z.lt_le_incl, pow2_pos | apply Z.pow_lt_mono_r]; lia).
  rewrite lor_bit_add by (easy || lia). apply IH; [lia | easy].
Qed.

Lemma udivmod64_law a b : is_u 64 a -> is_u 64 b ->
  udivmod64 a b = if b =? 0 then (0, 0) else (a / b, a mod b).
Proof.
  intros Ha Hb. unfold udivmod64. destruct (Z.eqb_spec b 0); [easy|].
  assert (0 < b) by (unfold is_u in Hb; lia).
  rewrite udivmod64_loop_rdiv by (done || lia || now apply rdiv_inv_init).
  apply rdiv_correct; [easy | exact Ha].
Qed.

Lemma abs64 a : is_s 64 a -> u64 (if a <? 0 then s64 (- a) else a) = Z.abs a.
Proof.
  unfold is_s. intros Ha. destruct (Z.ltb_spec a 0).
  - rewrite uwrap_swrap by lia. rewrite uwrap_small by (unfold is_u; lia). lia.
  - rewrite uwrap_small by (unfold is_u; lia). lia.
Qed.

Lemma neg64 (n : bool) x : (if n then s64 (- s64 x) else s64 x) = s64 (if n then - x else x).
Proof. destruct n; [|easy]. apply swrap_proper. now rewrite (eqw_swrap 64 x) by lia. Qed.

Lemma divdi3_law a b : is_s 64 a -> is_s 64 b ->
  __divdi3 a b = if b =? 0 then 0 else s64 (Z.quot a b).
Proof.
  intros Ha Hb. unfold __divdi3.
  pose proof (abs64 a Ha) as Aa. pose proof (abs64 b Hb) as Ab. unfold is_s in Ha, Hb.
  assert (E : forall (P : Z -> bool -> Z),
    (let '(a', neg) := if a <? 0 then (s64 (- a), true) else (a, false) in P a' neg)
    = P (if a <? 0 then s64 (- a) else a) (a <? 0)) by (intros; now destruct (a <? 0)).
  rewrite E.
  assert (E' : forall (P : Z -> bool -> Z) n,
    (let '(b', neg) := if b <? 0 then (s64 (- b), negb n) else (b, n) in P b' neg)
    = P (if b <? 0 then s64 (- b) else b) (xorb n (b <? 0)))
    by (intros; destruct (b <? 0); [now rewrite xorb_true_r | now rewrite xorb_false_r]).
  rewrite E', Aa, Ab, udivmod64_law by (unfold is_u; lia). rewrite neg64.
  destruct (Z.eqb_spec b 0) as [->|Hnz]; [now destruct (xorb _ _)|].
  replace (Z.abs b =? 0) with false by lia. cbn [fst]. now rewrite quot_by_abs.
Qed.

Lemma moddi3_law a b : is_s 64 a -> is_s 64 b ->
  __moddi3 a b = if b =? 0 then 0 else Z.rem a b.
Proof.
  intros Ha Hb. unfold __moddi3.
  pose proof (abs64 a Ha) as Aa. pose proof (abs64 b Hb) as Ab. unfold is_s in Ha, Hb.
  assert (E : forall (P : Z -> bool -> Z),
    (let '(a', neg) := if a <? 0 then (s64 (- a), true) else (a, false) in P a' neg)
    = P (if a <? 0 then s64 (- a) else a) (a <? 0)) by (intros; now destruct (a <? 0)).
  rewrite E, Aa, Ab, udivmod64_law by (unfold is_u; lia). rewrite neg64.
  destruct (Z.eqb_spec b 0) as [->|Hnz]; [now destruct (a <? 0)|].
  replace (Z.abs b =? 0) with false by lia. cbn [snd]. rewrite rem_by_abs by done.
  apply swrap_small; [lia|]. pose proof (Z.rem_bound_abs a b Hnz). unfold is_s. lia.
Qed.

(** ** Multiplies and shifts on 32-bit halves *)

Lemma lo16 x : Z.land x 0xffff = x mod 2 ^ 16.
Proof. now apply (land_ones_mod x 16). Qed.

(** [((u64)hi << 32) | lo] of two words. *)
Lemma join32 hi lo : is_u 32 hi -> is_u 32 lo -> Z.lor (u64 (Z.shiftl hi 32)) lo = lo + hi * 2 ^ 32.
Proof.
  intros Hh Hl. rewrite shl_mul by lia. unfold is_u in *.
  rewrite uwrap_small by (unfold is_u; lia). rewrite lor_shift_add by lia. lia.
Qed.

Lemma halves32 a : is_u 64 a -> is_u 32 (a / 2 ^ 32) /\ u32 a + a / 2 ^ 32 * 2 ^ 32 = a.
Proof.
  unfold is_u. intros Ha. split.
  - split; [apply Z.div_pos; lia | apply Z.div_lt_upper_bound; lia].
  - unfold uwrap. pose proof (Z.div_mod a (2 ^ 32)). lia.
Qed.

Lemma hi_word a : is_u 64 a -> u32 (Z.shiftr a 32) = a / 2 ^ 32.
Proof. intros Ha. rewrite shr_div by lia. now apply uwrap_small, halves32. Qed.

Lemma umulsidi3_law a b : is_u 32 a -> is_u 32 b -> Xtensa.__umulsidi3 a b = a * b.
Proof.
  intros Ha Hb. unfold Xtensa.__umulsidi3. rewrite !lo16, !shr_div, !(shl_mul _ 16) by lia.
  destruct (mul_halves 16 a b ltac:(lia) Ha Hb) as (Hlo & Hhi & E). change (16 + 16) with 32 in *.
  cbn zeta in *. rewrite (uwrap_small 32 (_ + _ + _ + _)) by done. rewrite join32 by done. lia.
Qed.

(** The low words' product and the cross terms make the whole product. *)
Lemma cross_terms a b p c : is_u 64 a -> is_u 64 b ->
  p = u32 a * u32 b -> eqw 32 c (u32 a * (b / 2 ^ 32) + a / 2 ^ 32 * u32 b) ->
  eqw 64 (p + c * 2 ^ 32) (a * b).
Proof.
  intros Ha Hb -> Hc. destruct (halves32 a Ha) as [_ Ea], (halves32 b Hb) as [_ Eb].
  rewrite (eqw_high 32 _ _ ltac:(lia) Hc).
  set (al := u32 a) in *. set (bl := u32 b) in *. set (ah := a / 2 ^ 32) in *.
  set (bh := b / 2 ^ 32) in *. clearbody al bl ah bh. subst a b.
  exists (- (ah * bh)). change (2 ^ 64) with (2 ^ 32 * 2 ^ 32). ring.
Qed.

Lemma xt_muldi3_law a b : is_u 64 a -> is_u 64 b -> Xtensa.__muldi3 a b = u64 (a * b).
Proof.
  intros Ha Hb. unfold Xtensa.__muldi3. rewrite !hi_word by done.
  rewrite umulsidi3_law by auto with wide. rewrite shl_mul by lia.
  apply uwrap_proper. rewrite (eqw_uwrap 64 (_ * 2 ^ 32)) by lia.
  apply cross_terms; [done..|]. rewrite !(eqw_uwrap 32 (_ + _)), !(eqw_uwrap 32 (_ * _)) by lia.
  reflexivity.
Qed.

Lemma cf_muldi3_law a b : is_u 64 a -> is_u 64 b -> ColdFire.__muldi3 a b = u64 (a * b).
Proof.
  intros Ha Hb. unfold ColdFire.__muldi3. rewrite !hi_word by done.
  rewrite !lo16, !(shr_div _ 16), !(shl_mul _ 16) by lia.
  assert (Hal : is_u 32 (u32 a)) by auto with wide. assert (Hbl : is_u 32 (u32 b)) by auto with wide.
  destruct (mul_halves 16 _ _ ltac:(lia) Hal Hbl) as (Hlo & Hhi & E). change (16 + 16) with 32 in *.
  cbn zeta in *. rewrite (Z.lor_comm (u32 (_ * 2 ^ 16))).
  rewrite (uwrap_small 32 (_ + _ + _ + _)) by done.
  set (lo := Z.lor _ _) in *. set (hi := _ + _ + _ + _) in E, Hhi |- *. clearbody lo hi.
  rewrite join32 by auto with wide.
  set (x := u32 (u32 (u32 a * (b / 2 ^ 32)) + u32 (a / 2 ^ 32 * u32 b))).
  assert (R : is_u 64 (lo + u32 (hi + x) * 2 ^ 32)).
  { pose proof (uwrap_range 32 (hi + x) ltac:(lia)). unfold is_u in *. lia. }
  rewrite <- (uwrap_small 64 _ R). apply uwrap_proper.
  rewrite (eqw_high 32 _ _ ltac:(lia) (eqw_uwrap 32 (hi + x) ltac:(lia))).
  replace (lo + (hi + x) * 2 ^ 32) with (u32 a * u32 b + x * 2 ^ 32) by lia.
  apply cross_terms; [done..|]. subst x.
  rewrite !(eqw_uwrap 32 (_ + _)), !(eqw_uwrap 32 (_ * _)) by lia. reflexivity.
Qed.

Lemma land63 n : Z.land n 63 = n mod 64.
Proof. exact (land_ones_mod n 6 ltac:(lia)). Qed.

Lemma ashldi3_law a n : is_u 64 a -> ColdFire.__ashldi3 a n = u64 (a * 2 ^ (n mod 64)).
Proof.
  intros Ha. unfold ColdFire.__ashldi3. rewrite hi_word, land63 by done.
  pose proof (Z.mod_pos_bound n 64 ltac:(lia)). set (m := n mod 64) in *. clearbody m.
  destruct (halves32 a Ha) as [Hh E].
  destruct (Z.eqb_spec m 0) as [->|]; [now rewrite Z.mul_1_r, uwrap_small|].
  transitivity (u64 ((u32 a + a / 2 ^ 32 * 2 ^ 32) * 2 ^ m)); [|now rewrite E].
  destruct (Z.geb_spec m 32); rewrite ?shr_div, ?(shl_mul _ m), ?(shl_mul _ (m - 32)) by lia.
  - rewrite join32, Z.add_0_l by (done || auto with wide).
    exact (dw_shl_big 32 (u32 a) (a / 2 ^ 32) ltac:(lia) m ltac:(lia)).
  - rewrite join32 by auto with wide.
    exact (dw_shl 32 (u32 a) (a / 2 ^ 32) ltac:(lia) (uwrap_range 32 a ltac:(lia)) m ltac:(lia)).
Qed.

Lemma lshrdi3_law a n : is_u 64 a -> ColdFire.__lshrdi3 a n = a / 2 ^ (n mod 64).
Proof.
  intros Ha. unfold ColdFire.__lshrdi3. rewrite hi_word, land63 by done.
  pose proof (Z.mod_pos_bound n 64 ltac:(lia)). set (m := n mod 64) in *. clearbody m.
  destruct (halves32 a Ha) as [Hh E]. pose proof (uwrap_range 32 a ltac:(lia)) as Hl.
  destruct (Z.eqb_spec m 0) as [->|]; [now rewrite Z.div_1_r|].
  transitivity ((u32 a + a / 2 ^ 32 * 2 ^ 32) / 2 ^ m); [|now rewrite E].
  destruct (Z.geb_spec m 32); rewrite !shr_div, ?(shl_mul _ (32 - m)) by lia.
  - rewrite join32, Z.mul_0_l, Z.add_0_r by (done || auto with wide).
    apply dw_shr_big; (done || lia).
  - rewrite join32 by auto with wide. apply dw_shr; (done || lia).
Qed.

Lemma s64_halves a : is_s 64 a -> u32 a + s32 (u64 a / 2 ^ 32) * 2 ^ 32 = a.
Proof.
  intros Ha. pose proof (uwrap_range 64 a ltac:(lia)) as Hu. destruct (halves32 _ Hu) as [Hh E].
  replace (u32 a) with (u32 (u64 a))
    by (apply uwrap_proper, (eqw_weaken 64); [lia | now apply eqw_uwrap]).
  rewrite (swrap_of_u 32) by (done || lia).
  rewrite (uwrap_of_s 64 a) in * by (done || lia). unfold is_u, is_s in *.
  destruct (Z.ltb_spec a 0).
  - replace ((a + 2 ^ 64) / 2 ^ 32 <? 2 ^ (32 - 1)) with false by (Z.div_mod_to_equations; lia). lia.
  - replace (a / 2 ^ 32 <? 2 ^ (32 - 1)) with true by (Z.div_mod_to_equations; lia). lia.
Qed.

Lemma ashrdi3_law a n : is_s 64 a -> ColdFire.__ashrdi3 a n = a / 2 ^ (n mod 64).
Proof.
  intros Ha. unfold ColdFire.__ashrdi3. rewrite (shr_div (u64 a)), land63 by lia.
  pose proof (Z.mod_pos_bound n 64 ltac:(lia)). set (m := n mod 64) in *. clearbody m.
  pose proof (s64_halves a Ha) as E. pose proof (uwrap_range 32 a ltac:(lia)) as Hl.
  pose proof (swrap_range 32 (u64 a / 2 ^ 32) ltac:(lia)) as Hh.
  set (hi := s32 _) in *. set (lo := u32 a) in *. clearbody hi lo.
  destruct (Z.eqb_spec m 0) as [->|]; [now rewrite Z.div_1_r|].
  pose proof (pow2_pos m ltac:(lia)) as Hp.
  assert (R : is_s 64 (a / 2 ^ m)).
  { unfold is_s in *. split; [apply Z.div_le_lower_bound; nia | apply Z.div_lt_upper_bound; nia]. }
  rewrite <- (swrap_small 64 (a / 2 ^ m)) by (done || lia).
  destruct (Z.geb_spec m 32); rewrite !shr_div, ?(shl_mul _ (32 - m)) by lia.
  - rewrite join32 by auto with wide. apply swrap_proper.
    rewrite (eqw_high 32 _ _ ltac:(lia) (eqw_uwrap 32 _ ltac:(lia))).
    rewrite <- E, <- (dw_shr_big 32 lo hi) by (done || lia).
    pose proof (pow2_pos (m - 32) ltac:(lia)). set (q := hi / 2 ^ (m - 32)).
    assert (Q : is_s 32 q).
    { subst q. unfold is_s in *.
      split; [apply Z.div_le_lower_bound; nia | apply Z.div_lt_upper_bound; nia]. }
    rewrite uwrap_of_s by (done || lia). exists 0.
    assert (S : (q <? 0) = (hi <? 0)).
    { subst q. destruct (Z.ltb_spec hi 0).
      - apply Z.ltb_lt, Z.div_lt_upper_bound; lia.
      - apply Z.ltb_ge, Z.div_pos; lia. }
    rewrite S. destruct (hi <? 0); lia.
  - rewrite join32 by auto with wide. apply swrap_proper.
    rewrite (eqw_high 32 _ _ ltac:(lia) (eqw_uwrap 32 _ ltac:(lia))).
    replace (u32 (u32 hi * 2 ^ (32 - m))) with (u32 (hi * 2 ^ (32 - m)))
      by (apply uwrap_proper; now rewrite (eqw_uwrap 32 hi) by lia).
    rewrite <- E, <- (dw_shr 32 lo hi) by (done || lia). reflexivity.
Qed.

(** ** Properties *)

(** The 64-bit division helpers give C's quotient and remainder at every
    divisor but zero -- where, without hanging, they give 0 -- including
    [MIN / -1], which wraps to [MIN]. *)
Theorem div64_correct (a b : Z) :
  is_s 64 a -> is_s 64 b ->
  __udivdi3 (u64 a) (u64 b) = (if b =? 0 then 0 else u64 a / u64 b) /\
  __umoddi3 (u64 a) (u64 b) = (if b =? 0 then 0 else u64 a mod u64 b) /\
  __divdi3 a b = (if b =? 0 then 0 else s64 (Z.quot a b)) /\
  __moddi3 a b = (if b =? 0 then 0 else Z.rem a b).
Proof.
  intros Ha Hb.
  assert (Z0 : (u64 b =? 0) = (b =? 0)).
  { rewrite uwrap_of_s by (done || lia). unfold is_s in Hb. destruct (_ <? _) eqn:?; lia. }
  unfold __udivdi3, __umoddi3. rewrite udivmod64_law, Z0 by now apply uwrap_range.
  split_and!; [now destruct (b =? 0) | now destruct (b =? 0) | now apply divdi3_law | now apply moddi3_law].
Qed.

Lemma div64_correct_witness :
  __divdi3 (- 2 ^ 63) (-1) = - 2 ^ 63 /\ __moddi3 (-7) 2 = -1 /\ __udivdi3 5 0 = 0.
Proof.
  destruct (div64_correct (- 2 ^ 63) (-1)) as (_ & _ & -> & _); [unfold is_s; lia..|].
  destruct (div64_correct (-7) 2) as (_ & _ & _ & ->); [unfold is_s; lia..|].
  destruct (div64_correct 5 0) as (E & _); [unfold is_s; lia..|].
  split; [reflexivity|]. split; [reflexivity | exact E].
Defined.

(** The multiplies of the two targets that call for one are the low 64 bits
    of the product, and ColdFire's shifts the 64-bit shifts by the count
    modulo 64, whatever the word the bits cross. *)
Theorem word_helpers_correct (a b n : Z) :
  is_s 64 a -> is_s 64 b ->
  Xtensa.__muldi3 (u64 a) (u64 b) = u64 (a * b) /\
  ColdFire.__muldi3 (u64 a) (u64 b) = u64 (a * b) /\
  ColdFire.__ashldi3 (u64 a) n = u64 (a * 2 ^ (n mod 64)) /\
  ColdFire.__lshrdi3 (u64 a) n = u64 a / 2 ^ (n mod 64) /\
  ColdFire.__ashrdi3 a n = a / 2 ^ (n mod 64).
Proof.
  intros Ha Hb. pose proof (uwrap_range 64 a ltac:(lia)). pose proof (uwrap_range 64 b ltac:(lia)).
  rewrite xt_muldi3_law, cf_muldi3_law, ashldi3_law, lshrdi3_law, ashrdi3_law by done.
  split_and!; try reflexivity; apply uwrap_proper; now rewrite !(eqw_uwrap 64) by lia.
Qed.

Lemma word_helpers_correct_witness :
  ColdFire.__muldi3 (u64 (-3)) (u64 5) = u64 (-15) /\ ColdFire.__ashrdi3 (-3) 33 = -1.
Proof.
  destruct (word_helpers_correct (-3) 5 33) as (_ & E & _ & _ & S); [unfold is_s; lia..|].
  split; [exact E | rewrite S; reflexivity].
Defined.
