(* ===== verification/BitInt.v ===== *)
(** * Wide [_BitInt] arithmetic: [src/lib/rt/bitint.c]

    A [_BitInt(N)] wider than 64 bits is an array of 64-bit limbs in memory, least
    significant first, with the bits above [N] in the top limb holding the sign or
    zero. Memory is a function from limb addresses; every operation takes the
    addresses of its operands and result as the compiler passes them, so that a
    result may be one of the operands. Local arrays are functions of the index.
    Each operation is shown to compute, on the numbers, what C says for the type,
    and to leave the representation in its normal form. *)
From stdpp Require Import base numbers list option.
From Stdlib Require Import ZArith Lia.
From S2P Require Import Prelude.

Local Open Scope Z_scope.

Definition mem : Type := Z -> Z.

Definition LIMBS (n : Z) : Z := (n + 63) / 64.
(** [bits] is [N], negative for a signed type. *)
Definition width (bits : Z) : Z := if bits <? 0 then - bits else bits.
Definition nlimbs (bits : Z) : nat := Z.to_nat (LIMBS (width bits)).

Definition norm (d bits : Z) (m : mem) : mem :=
  let n := width bits in
  let k := LIMBS n in
  let top := n mod 64 in
  if top =? 0 then m
  else
    let mask := u64 (u64 (Z.shiftl 1 top) - 1) in
    let x := m (d + k - 1) in
    if (bits <? 0) && negb (Z.land (Z.shiftr x (top - 1)) 1 =? 0)
    then upd m (d + k - 1) (Z.lor x (u64 (Z.lnot mask)))
    else upd m (d + k - 1) (Z.land x mask).

Definition negative (a bits : Z) (m : mem) : bool :=
  let n := width bits in
  (bits <? 0) && negb (Z.land (Z.shiftr (m (a + (n - 1) / 64)) ((n - 1) mod 64)) 1 =? 0).

Definition __embcc_bi_copy (d a bits : Z) (m : mem) : mem :=
  for_up (nlimbs bits) 0 (fun i m => upd m (d + i) (m (a + i))) m.

Definition __embcc_bi_add (d a b bits : Z) (m : mem) : mem :=
  norm d bits (for_up (nlimbs bits) 0 (fun i '(c, m) =>
    let s := u64 (m (a + i) + c) in
    let c1 := b2z (s <? c) in
    let t := u64 (s + m (b + i)) in
    (Z.lor c1 (b2z (t <? s)), upd m (d + i) t)) (0, m)).2.

Definition __embcc_bi_sub (d a b bits : Z) (m : mem) : mem :=
  norm d bits (for_up (nlimbs bits) 0 (fun i '(br, m) =>
    let x := m (a + i) in
    let y := m (b + i) in
    let t := u64 (x - y - br) in
    (Z.lor (b2z (x <? y)) (Z.land (b2z (x =? y)) br), upd m (d + i) t)) (0, m)).2.

Definition __embcc_bi_addi (d a k bits : Z) (m : mem) : mem :=
  let add := u64 k in
  let ext := if k <? 0 then u64 (Z.lnot 0) else 0 in
  norm d bits (for_up (nlimbs bits) 0 (fun i '(c, m) =>
    let y := if i =? 0 then add else ext in
    let s := u64 (m (a + i) + c) in
    let c1 := b2z (s <? c) in
    let t := u64 (s + y) in
    (Z.lor c1 (b2z (t <? s)), upd m (d + i) t)) (0, m)).2.

Definition __embcc_bi_and (d a b bits : Z) (m : mem) : mem :=
  for_up (nlimbs bits) 0 (fun i m => upd m (d + i) (Z.land (m (a + i)) (m (b + i)))) m.
Definition __embcc_bi_or (d a b bits : Z) (m : mem) : mem :=
  for_up (nlimbs bits) 0 (fun i m => upd m (d + i) (Z.lor (m (a + i)) (m (b + i)))) m.
Definition __embcc_bi_xor (d a b bits : Z) (m : mem) : mem :=
  for_up (nlimbs bits) 0 (fun i m => upd m (d + i) (Z.lxor (m (a + i)) (m (b + i)))) m.
Definition __embcc_bi_not (d a bits : Z) (m : mem) : mem :=
  norm d bits (for_up (nlimbs bits) 0 (fun i m => upd m (d + i) (u64 (Z.lnot (m (a + i))))) m).

Definition __embcc_bi_neg (d a bits : Z) (m : mem) : mem :=
  norm d bits (for_up (nlimbs bits) 0 (fun i '(c, m) =>
    let t := u64 (u64 (Z.lnot (m (a + i))) + c) in
    (b2z (negb (c =? 0) && (t =? 0)), upd m (d + i) t)) (1, m)).2.

(** The product of two limbs by halves: low and high. *)
Definition mul64 (x y : Z) : Z * Z :=
  let xl := Z.land x 0xffffffff in
  let xh := Z.shiftr x 32 in
  let yl := Z.land y 0xffffffff in
  let yh := Z.shiftr y 32 in
  let ll := u64 (xl * yl) in
  let lh := u64 (xl * yh) in
  let hl := u64 (xh * yl) in
  let hh := u64 (xh * yh) in
  let mid := u64 (u64 (Z.shiftr ll 32 + Z.land lh 0xffffffff) + Z.land hl 0xffffffff) in
  (Z.lor (u64 (Z.shiftl mid 32)) (Z.land ll 0xffffffff),
   u64 (u64 (u64 (hh + Z.shiftr lh 32) + Z.shiftr hl 32) + Z.shiftr mid 32)).

(** The copy of a local array to the result. *)
Definition put (d : Z) (k : nat) (r : Z -> Z) (m : mem) : mem :=
  for_up k 0 (fun i m => upd m (d + i) (r i)) m.

Definition __embcc_bi_mul (d a b bits : Z) (m : mem) : mem :=
  let k := nlimbs bits in
  let r := for_up k 0 (fun i r => upd r i 0) (fun _ => 0) in
  let r := for_up k 0 (fun i r =>
    (for_up (k - Z.to_nat i) 0 (fun j '(carry, r) =>
      let '(lo, hi) := mul64 (m (a + i)) (m (b + j)) in
      let s := u64 (r (i + j) + lo) in
      let c1 := b2z (s <? lo) in
      let t := u64 (s + carry) in
      let c2 := b2z (t <? s) in
      (u64 (u64 (hi + c1) + c2), upd r (i + j) t)) (0, r)).2) r in
  norm d bits (put d k r m).

(** [ucmp], from the top limb down: the first difference decides. *)
Fixpoint ucmp (k : nat) (a b : Z -> Z) : Z :=
  match k with
  | O => 0
  | S k' =>
      let i := Z.of_nat k' in
      if negb (a i =? b i) then (if a i <? b i then -1 else 1) else ucmp k' a b
  end.

(** A pointer to limbs, as the array it points at. *)
Definition at_ (m : mem) (a : Z) : Z -> Z := fun i => m (a + i).

Definition __embcc_bi_cmp (a b bits : Z) (m : mem) : Z :=
  let k := nlimbs bits in
  let na := negative a bits m in
  let nb := negative b bits m in
  if (bits <? 0) && negb (eqb na nb) then (if na then -1 else 1)
  else ucmp k (at_ m a) (at_ m b).

Fixpoint bi_test_loop (k : nat) (i : Z) (a : Z -> Z) : Z :=
  match k with
  | O => 0
  | S k => if negb (a i =? 0) then 1 else bi_test_loop k (i + 1) a
  end.
Definition __embcc_bi_test (a bits : Z) (m : mem) : Z := bi_test_loop (nlimbs bits) 0 (at_ m a).

Definition __embcc_bi_shl (d a count bits : Z) (m : mem) : mem :=
  let kn := nlimbs bits in
  let k := Z.of_nat kn in
  let ls := if u64 (64 * k) <=? count then k else count / 64 in
  let bs := count mod 64 in
  let r := for_up kn 0 (fun i r =>
    let v := if ls <=? i then
               let v := u64 (Z.shiftl (m (a + (i - ls))) bs) in
               if negb (bs =? 0) && (ls <? i)
               then Z.lor v (Z.shiftr (m (a + (i - ls - 1))) (64 - bs)) else v
             else 0 in
    upd r i v) (fun _ => 0) in
  norm d bits (put d kn r m).

Definition __embcc_bi_shr (d a count bits : Z) (m : mem) : mem :=
  let kn := nlimbs bits in
  let k := Z.of_nat kn in
  let fill := if negative a bits m then u64 (Z.lnot 0) else 0 in
  let ls := if u64 (64 * k) <=? count then k else count / 64 in
  let bs := count mod 64 in
  let r := for_up kn 0 (fun i r =>
    let lo := if i + ls <? k then m (a + (i + ls)) else fill in
    let hi := if i + ls + 1 <? k then m (a + (i + ls + 1)) else fill in
    upd r i (if negb (bs =? 0) then Z.lor (Z.shiftr lo bs) (u64 (Z.shiftl hi (64 - bs))) else lo))
    (fun _ => 0) in
  norm d bits (put d kn r m).

(** Unsigned division of [k] limbs, a bit at a time: [q] and [r]. *)
Definition udivmod_step (k : nat) (a b : Z -> Z) (bit : Z) '(q, r) : (Z -> Z) * (Z -> Z) :=
  let carry := Z.land (Z.shiftr (a (bit / 64)) (bit mod 64)) 1 in
  let '(carry, r) := for_up k 0 (fun i '(carry, r) =>
    let top := Z.shiftr (r i) 63 in
    (top, upd r i (Z.lor (u64 (Z.shiftl (r i) 1)) carry))) (carry, r) in
  if negb (carry =? 0) || (0 <=? ucmp k r b) then
    let '(_, r) := for_up k 0 (fun i '(br, r) =>
      let x := r i in
      let y := b i in
      (Z.lor (b2z (x <? y)) (Z.land (b2z (x =? y)) br), upd r i (u64 (x - y - br)))) (0, r) in
    (upd q (bit / 64) (Z.lor (q (bit / 64)) (u64 (Z.shiftl 1 (bit mod 64)))), r)
  else (q, r).
Definition udivmod (k : nat) (a b : Z -> Z) : (Z -> Z) * (Z -> Z) :=
  let qr := for_up k 0 (fun i '(q, r) => (upd q i 0, upd r i 0)) (fun _ => 0, fun _ => 0) in
  for_down (64 * k) (udivmod_step k a b) qr.

Definition negate (k : nat) (x : Z -> Z) : Z -> Z :=
  (for_up k 0 (fun i '(c, x) =>
    let t := u64 (u64 (Z.lnot (x i)) + c) in
    (b2z (negb (c =? 0) && (t =? 0)), upd x i t)) (1, x)).2.

Definition divmod (d a b bits : Z) (rem : bool) (m : mem) : mem :=
  let k := nlimbs bits in
  let na := negative a bits m in
  let nb := negative b bits m in
  let '(x, y) := for_up k 0 (fun i '(x, y) => (upd x i (m (a + i)), upd y i (m (b + i))))
                   (fun _ => 0, fun _ => 0) in
  let x := if na then negate k x else x in
  let y := if nb then negate k y else y in
  let '(q, r) := udivmod k x y in
  let q := if negb rem && negb (eqb na nb) then negate k q else q in
  let r := if rem && na then negate k r else r in
  norm d bits (put d k (fun i => if rem then r i else q i) m).

Definition __embcc_bi_div (d a b bits : Z) (m : mem) : mem := divmod d a b bits false m.
Definition __embcc_bi_mod (d a b bits : Z) (m : mem) : mem := divmod d a b bits true m.

Definition __embcc_bi_from64 (d v : Z) (sgn : bool) (bits : Z) (m : mem) : mem :=
  let ext := if sgn && (s64 v <? 0) then u64 (Z.lnot 0) else 0 in
  norm d bits (for_up (nlimbs bits - 1) 1 (fun i m => upd m (d + i) ext) (upd m d v)).

Definition __embcc_bi_to64 (a bits : Z) (m : mem) : Z := m a.

Definition __embcc_bi_ext (d dbits a abits : Z) (m : mem) : mem :=
  let dk := nlimbs dbits in
  let ak := LIMBS (width abits) in
  let fill := if negative a abits m then u64 (Z.lnot 0) else 0 in
  norm d dbits (for_up dk 0 (fun i m => upd m (d + i) (if i <? ak then m (a + i) else fill)) m).

(** ** Limbs and numbers *)

Fixpoint limbs (m : mem) (a : Z) (k : nat) : list Z :=
  match k with O => [] | S k => m a :: limbs m (a + 1) k end.

Fixpoint val (l : list Z) : Z := match l with [] => 0 | x :: l => x + 2 ^ 64 * val l end.

(** A [_BitInt] of [bits], from a number. *)
Definition wrap (bits x : Z) : Z := if bits <? 0 then swrap (- bits) x else uwrap bits x.

(** The memory at [a] holds the number [x] as a [_BitInt] of [bits]: the limbs are
    those of [x] in two's complement, to the end of the top limb. *)
Definition holds (bits : Z) (m : mem) (a x : Z) : Prop :=
  x = wrap bits x /\ Forall (is_u 64) (limbs m a (nlimbs bits)) /\
  val (limbs m a (nlimbs bits)) = uwrap (64 * Z.of_nat (nlimbs bits)) x.

(** The result may be an operand, or apart from it. *)
Definition alias_ok (k : nat) (d a : Z) : Prop := a = d \/ a + Z.of_nat k <= d \/ d + Z.of_nat k <= a.

(** Everything but the [k] limbs at [d] is as it was. *)
Definition frame (k : nat) (d : Z) (m m' : mem) : Prop :=
  forall p, ~ (d <= p < d + Z.of_nat k) -> m' p = m p.

Lemma limbs_ext m m' a a' k : (forall j, 0 <= j < Z.of_nat k -> m (a + j) = m' (a' + j)) ->
  limbs m a k = limbs m' a' k.
Proof.
  revert a a'. induction k as [|k IH]; intros a a' H; simpl; [done|]. f_equal.
  - specialize (H 0 ltac:(lia)). by rewrite !Z.add_0_r in H.
  - apply IH. intros j Hj. rewrite <- !Z.add_assoc. apply H. lia.
Qed.

Lemma limbs_length m a k : length (limbs m a k) = k.
Proof. revert a. induction k; intros; simpl; auto. Qed.

Lemma limbs_lookup m a k j : (j < k)%nat -> limbs m a k !! j = Some (m (a + Z.of_nat j)).
Proof.
  revert a j. induction k as [|k IH]; intros a j Hj; [lia|]. destruct j as [|j]; simpl.
  - by rewrite Z.add_0_r.
  - rewrite IH by lia. do 2 f_equal. lia.
Qed.

Lemma limbs_app m a k1 k2 : limbs m a (k1 + k2) = limbs m a k1 ++ limbs m (a + Z.of_nat k1) k2.
Proof.
  revert a. induction k1 as [|k1 IH]; intros a; simpl; [by rewrite Z.add_0_r|].
  rewrite IH. do 3 f_equal. lia.
Qed.

Lemma limbs_u m a k : Forall (is_u 64) (limbs m a k) <-> forall j, 0 <= j < Z.of_nat k -> is_u 64 (m (a + j)).
Proof.
  rewrite Forall_lookup. split.
  - intros H j Hj. apply (H (Z.to_nat j)). rewrite limbs_lookup by lia. by rewrite Z2Nat.id by lia.
  - intros H j x E. pose proof (lookup_lt_Some _ _ _ E) as L. rewrite limbs_length in L.
    rewrite limbs_lookup in E by done. injection E as <-. apply H. lia.
Qed.

Local Abbreviation W k := (64 * Z.of_nat k).

Lemma pow_W_S k : 2 ^ W (S k) = 2 ^ 64 * 2 ^ W k.
Proof. rewrite <- Z.pow_add_r by lia. f_equal. lia. Qed.

Lemma val_app l1 l2 : val (l1 ++ l2) = val l1 + 2 ^ W (length l1) * val l2.
Proof.
  induction l1 as [|x l1 IH]; cbn [app val length]; [lia|]. rewrite IH, pow_W_S. ring.
Qed.

Lemma val_range l : Forall (is_u 64) l -> 0 <= val l < 2 ^ W (length l).
Proof.
  induction 1 as [|x l Hx _ IH]; cbn [val length]; [lia|]. rewrite pow_W_S. unfold is_u in Hx. nia.
Qed.

(** ** Loops that go limb by limb *)

(** The limbs out and the carry out of a loop over two operands. *)
Fixpoint pass (f : Z -> Z -> Z -> Z -> Z * Z) (i : Z) (la lb : list Z) (c : Z) : list Z * Z :=
  match la, lb with
  | x :: la, y :: lb =>
      let '(t, c) := f i x y c in
      let '(l, c) := pass f (i + 1) la lb c in (t :: l, c)
  | _, _ => ([], c)
  end.

Lemma loop_pass f (body : Z -> Z * mem -> Z * mem) d a b K :
  (forall i c m, body i (c, m) =
     ((f i (m (a + i)) (m (b + i)) c).2, upd m (d + i) (f i (m (a + i)) (m (b + i)) c).1)) ->
  alias_ok K d a -> alias_ok K d b ->
  forall k i c m, 0 <= i -> i + Z.of_nat k <= Z.of_nat K ->
  let r := for_up k i body (c, m) in
  let p := pass f i (limbs m (a + i) k) (limbs m (b + i) k) c in
  limbs r.2 (d + i) k = p.1 /\ r.1 = p.2 /\ frame k (d + i) m r.2.
Proof.
  intros Hb Aa Ab k. induction k as [|k IH]; intros i c m Hi Hk; cbn [for_up limbs pass].
  - simpl. split_and!; [done | done | by intros p _].
  - rewrite Hb. destruct (f i (m (a + i)) (m (b + i)) c) as [t c1]. simpl.
    set (m1 := upd m (d + i) t).
    assert (E : forall q, alias_ok K d q -> limbs m1 (q + i + 1) k = limbs m (q + i + 1) k).
    { intros q Hq. apply limbs_ext. intros j Hj. unfold m1. apply upd_other.
      unfold alias_ok in Hq. lia. }
    destruct (IH (i + 1) c1 m1 ltac:(lia) ltac:(lia)) as (L & C & F).
    rewrite (Z.add_assoc a i 1), (Z.add_assoc b i 1), (E a Aa), (E b Ab) in L, C.
    rewrite (Z.add_assoc d i 1) in L. rewrite Z.add_assoc in F.
    destruct (pass f (i + 1) (limbs m (a + i + 1) k) (limbs m (b + i + 1) k) c1) as [l c2]. simpl in *.
    split_and!; [|done|].
    + f_equal; [|done]. rewrite F by lia. unfold m1. apply upd_same.
    + intros p Hp. rewrite F by lia. unfold m1. apply upd_other. lia.
Qed.

(** A loop without a carry. *)
Lemma loop_map (g : Z -> Z -> Z -> Z) (body : Z -> mem -> mem) d a b K :
  (forall i m, body i m = upd m (d + i) (g i (m (a + i)) (m (b + i)))) ->
  alias_ok K d a -> alias_ok K d b ->
  forall k i m, 0 <= i -> i + Z.of_nat k <= Z.of_nat K ->
  let m' := for_up k i body m in
  (forall j, 0 <= j < Z.of_nat k -> m' (d + i + j) = g (i + j) (m (a + i + j)) (m (b + i + j))) /\
  frame k (d + i) m m'.
Proof.
  intros Hb Aa Ab k. induction k as [|k IH]; intros i m Hi Hk; cbn [for_up].
  - split; [lia | by intros p _].
  - rewrite Hb. set (m1 := upd m (d + i) _).
    destruct (IH (i + 1) m1 ltac:(lia) ltac:(lia)) as (L & F). split.
    + intros j Hj. destruct (decide (j = 0)) as [->|].
      * rewrite !Z.add_0_r, F by lia. unfold m1. apply upd_same.
      * specialize (L (j - 1) ltac:(lia)).
        replace (d + (i + 1) + (j - 1)) with (d + i + j) in L by lia.
        replace (a + (i + 1) + (j - 1)) with (a + i + j) in L by lia.
        replace (b + (i + 1) + (j - 1)) with (b + i + j) in L by lia.
        replace (i + 1 + (j - 1)) with (i + j) in L by lia. rewrite L.
        unfold m1. unfold alias_ok in *. rewrite !upd_other by lia. done.
    + intros p Hp. rewrite F by lia. unfold m1. apply upd_other. lia.
Qed.

(** The number a loop with carries leaves: each step balances. *)
Fixpoint hval (h : Z -> Z -> Z -> Z) (i : Z) (la lb : list Z) : Z :=
  match la, lb with
  | x :: la, y :: lb => h i x y + 2 ^ 64 * hval h (i + 1) la lb
  | _, _ => 0
  end.

Lemma pass_val (f : Z -> Z -> Z -> Z -> Z * Z) (h : Z -> Z -> Z -> Z) s :
  (forall i x y c, is_u 64 x -> is_u 64 y -> 0 <= c <= 1 ->
     let '(t, c') := f i x y c in
     is_u 64 t /\ 0 <= c' <= 1 /\ t + s * (2 ^ 64 * c') = h i x y + s * c) ->
  forall la lb i c, Forall (is_u 64) la -> Forall (is_u 64) lb -> length la = length lb -> 0 <= c <= 1 ->
  let '(l, c') := pass f i la lb c in
  Forall (is_u 64) l /\ length l = length la /\ 0 <= c' <= 1 /\
  val l + s * (2 ^ W (length la) * c') = hval h i la lb + s * c.
Proof.
  intros Hf la. induction la as [|x la IH]; intros [|y lb] i c Ha Hb HL Hc; cbn [pass hval length val];
    try done.
  - split_and!; try done; try lia.
  - apply Forall_cons_1 in Ha as [Hx Ha]. apply Forall_cons_1 in Hb as [Hy Hb].
    specialize (Hf i x y c Hx Hy Hc). destruct (f i x y c) as [t c1]. destruct Hf as (Ht & Hc1 & E).
    specialize (IH lb (i + 1) c1 Ha Hb ltac:(simpl in HL; lia) Hc1).
    destruct (pass f (i + 1) la lb c1) as [l c2]. destruct IH as (Hl & HL' & Hc2 & E2).
    cbn [length val]. split_and!; try lia; [by constructor|]. rewrite pow_W_S. nia.
Qed.

(** ** The normal form *)

Lemma nlimbs_width bits : bits <> 0 ->
  Z.of_nat (nlimbs bits) = LIMBS (width bits) /\ 0 < width bits /\
  W (nlimbs bits) - 64 < width bits <= W (nlimbs bits).
Proof.
  intros Hb. unfold nlimbs, LIMBS, width.
  assert (Hw : 0 < (if bits <? 0 then - bits else bits)) by (destruct (Z.ltb_spec bits 0); lia).
  set (n := if bits <? 0 then - bits else bits) in *. pose proof (Z.div_pos (n + 63) 64 ltac:(lia) ltac:(lia)).
  pose proof (Z.div_mod (n + 63) 64 ltac:(lia)). pose proof (Z.mod_pos_bound (n + 63) 64 ltac:(lia)).
  rewrite Z2Nat.id by done. lia.
Qed.

Lemma width_wrap bits x : wrap bits x = if bits <? 0 then swrap (width bits) x else uwrap (width bits) x.
Proof. unfold wrap, width. by destruct (bits <? 0). Qed.

Lemma wrap_cong bits x y : bits <> 0 -> eqw (width bits) x y -> wrap bits x = wrap bits y.
Proof.
  intros Hb E. rewrite !width_wrap. destruct (bits <? 0); [by apply swrap_proper | by apply uwrap_proper].
Qed.

Lemma wrap_eqw bits x : bits <> 0 -> eqw (width bits) (wrap bits x) x.
Proof.
  intros Hb. destruct (nlimbs_width bits Hb) as (_ & Hw & _). rewrite width_wrap.
  destruct (bits <? 0); [apply eqw_swrap | apply eqw_uwrap]; lia.
Qed.

Lemma wrap_wrap bits x : bits <> 0 -> wrap bits (wrap bits x) = wrap bits x.
Proof. intros Hb. apply wrap_cong; [done|]. by apply wrap_eqw. Qed.

Lemma bit_land x j : 0 <= j -> Z.land (Z.shiftr x j) 1 = (x / 2 ^ j) mod 2.
Proof. intros Hj. rewrite Z.shiftr_div_pow2 by done. exact (land_ones_mod (x / 2 ^ j) 1 ltac:(lia)). Qed.

(** The top bit of [j] bits. *)
Lemma top_bit_iff x j : 0 < j -> is_u j x -> (x / 2 ^ (j - 1)) mod 2 = if x <? 2 ^ (j - 1) then 0 else 1.
Proof.
  intros Hj Hx. unfold is_u in Hx. rewrite (pow2_half j) in Hx by done. destruct (Z.ltb_spec x (2 ^ (j - 1))).
  - rewrite Z.div_small by lia. done.
  - replace (x / 2 ^ (j - 1)) with 1; [done|]. apply Z.div_unique with (x - 2 ^ (j - 1)); lia.
Qed.

Lemma mask_eq top : 0 < top < 64 -> u64 (u64 (Z.shiftl 1 top) - 1) = 2 ^ top - 1.
Proof.
  intros Ht. rewrite Z.shiftl_mul_pow2, Z.mul_1_l by lia. pose proof (pow2_pos top ltac:(lia)).
  assert (2 ^ top <= 2 ^ 63) by (apply Z.pow_le_mono_r; lia). rewrite (u64_id (2 ^ top)), u64_id; lia.
Qed.

Lemma lor_not_mask x top : 0 < top < 64 -> is_u 64 x ->
  Z.lor x (u64 (Z.lnot (2 ^ top - 1))) = x mod 2 ^ top + (2 ^ 64 - 2 ^ top).
Proof.
  intros Ht Hx. pose proof (pow2_pos top ltac:(lia)).
  assert (2 ^ top <= 2 ^ 63) by (apply Z.pow_le_mono_r; lia).
  assert (E : u64 (Z.lnot (2 ^ top - 1)) = (2 ^ (64 - top) - 1) * 2 ^ top).
  { rewrite Z.mul_sub_distr_r, <- Z.pow_add_r by lia. replace (64 - top + top) with 64 by lia.
    unfold Z.lnot. symmetry. apply Z.mod_unique with (-1); lia. }
  rewrite E. rewrite <- Z.shiftl_mul_pow2 by lia.
  replace (2 ^ 64 - 2 ^ top) with (Z.shiftl (2 ^ (64 - top) - 1) top)
    by (rewrite Z.shiftl_mul_pow2, Z.mul_sub_distr_r, <- Z.pow_add_r by lia;
        replace (64 - top + top) with 64 by lia; lia).
  pose proof (Z.mod_pos_bound x (2 ^ top) ltac:(lia)).
  rewrite <- (lor_disjoint_add (x mod 2 ^ top)).
  - apply Z.bits_inj'. intros j Hj. rewrite !Z.lor_spec, Z.shiftl_spec by done.
    destruct (Z.ltb_spec j top).
    + by rewrite Z.mod_pow2_bits_low by lia.
    + rewrite Z.mod_pow2_bits_high by lia.
      change (2 ^ (64 - top) - 1) with (Z.pred (2 ^ (64 - top))). rewrite <- Z.ones_equiv.
      destruct (Z.ltb_spec j 64); [rewrite Z.ones_spec_low by lia; by destruct (Z.testbit x j)|].
      rewrite Z.ones_spec_high by lia. rewrite (Z.bits_above_log2 x j); [done | apply Hx |].
      destruct (decide (x = 0)) as [->|]; [simpl; lia|]. apply Z.log2_lt_pow2; [unfold is_u in Hx; lia|].
      apply Z.lt_le_trans with (2 ^ 64); [apply Hx | apply Z.pow_le_mono_r; lia].
  - apply Z.bits_inj'. intros j Hj. rewrite Z.land_spec, Z.shiftl_spec, Z.bits_0 by done.
    destruct (Z.ltb_spec j top).
    + rewrite (Z.testbit_neg_r _ (j - top)) by lia. apply andb_false_r.
    + rewrite Z.mod_pow2_bits_high by lia. done.
Qed.

(** The number kept: the low [n] bits of a limb array whose top limb is [x]. *)
Lemma wrap_top bits k lo x : bits <> 0 -> Z.of_nat (nlimbs bits) = Z.of_nat k + 1 ->
  0 <= lo < 2 ^ W k -> is_u 64 x -> width bits mod 64 <> 0 ->
  let top := width bits mod 64 in
  uwrap (W k + 64) (wrap bits (lo + 2 ^ W k * x)) =
  lo + 2 ^ W k * (if (bits <? 0) && negb ((x / 2 ^ (top - 1)) mod 2 =? 0)
                  then x mod 2 ^ top + (2 ^ 64 - 2 ^ top) else x mod 2 ^ top).
Proof.
  intros Hb Hk Hlo Hx Ht top. destruct (nlimbs_width bits Hb) as (_ & Hw & Hr).
  pose proof (Z.mod_pos_bound (width bits) 64 ltac:(lia)) as Rt. fold top in Rt, Ht.
  assert (En : width bits = W k + top).
  { pose proof (Z.div_mod (width bits) 64 ltac:(lia)) as E. fold top in E. lia. }
  pose proof (pow2_pos (W k) ltac:(lia)). pose proof (pow2_pos top ltac:(lia)).
  assert (Pt : 2 ^ top <= 2 ^ 63) by (apply Z.pow_le_mono_r; lia).
  pose proof (Z.mod_pos_bound x (2 ^ top) ltac:(lia)) as Rx.
  set (u := lo + 2 ^ W k * (x mod 2 ^ top)).
  assert (Pn : 2 ^ width bits = 2 ^ W k * 2 ^ top) by (rewrite En, Z.pow_add_r by lia; done).
  assert (Ru : is_u (width bits) u) by (unfold is_u, u; nia).
  assert (Eu : uwrap (width bits) (lo + 2 ^ W k * x) = u).
  { rewrite <- (uwrap_small (width bits) u) by done. apply uwrap_proper. exists (x / 2 ^ top).
    unfold u. rewrite Pn. rewrite (Z.div_mod x (2 ^ top)) at 1 by lia. ring. }
  assert (PK : 2 ^ (W k + 64) = 2 ^ W k * 2 ^ 64) by (rewrite Z.pow_add_r by lia; done).
  rewrite width_wrap. destruct (bits <? 0); simpl.
  - rewrite <- swrap_uwrap, Eu, swrap_of_u by lia || done.
    assert (B : (x / 2 ^ (top - 1)) mod 2 = if u <? 2 ^ (width bits - 1) then 0 else 1).
    { transitivity ((x mod 2 ^ top / 2 ^ (top - 1)) mod 2).
      - rewrite (Z.div_mod x (2 ^ top)) at 1 by lia.
        replace (2 ^ top * (x / 2 ^ top)) with ((2 * (x / 2 ^ top)) * 2 ^ (top - 1))
          by (rewrite (pow2_half top) by lia; ring).
        rewrite Z.add_comm, Z.div_add by (pose proof (pow2_pos (top - 1) ltac:(lia)); lia).
        rewrite Z.mul_comm, Z.mod_add by lia. done.
      - rewrite top_bit_iff by (try lia; unfold is_u; lia).
        replace (2 ^ (width bits - 1)) with (2 ^ W k * 2 ^ (top - 1))
          by (rewrite <- Z.pow_add_r by lia; f_equal; lia).
        destruct (Z.ltb_spec (x mod 2 ^ top) (2 ^ (top - 1))), (Z.ltb_spec u (2 ^ W k * 2 ^ (top - 1)));
          done || (unfold u in *; nia). }
    rewrite B. destruct (u <? 2 ^ (width bits - 1)); simpl.
    + apply uwrap_small. unfold is_u in *. rewrite PK. nia.
    + replace (u - 2 ^ width bits) with (u - 2 ^ width bits + 2 ^ (W k + 64) + -1 * 2 ^ (W k + 64)) by ring.
      rewrite uwrap_add_mul, uwrap_small; unfold is_u in *; rewrite PK, Pn; unfold u in *; nia.
  - rewrite Eu. apply uwrap_small. unfold is_u in *. rewrite PK. nia.
Qed.

Lemma uwrap_wrap_full bits v : bits <> 0 -> width bits = W (nlimbs bits) -> 0 <= v < 2 ^ W (nlimbs bits) ->
  uwrap (W (nlimbs bits)) (wrap bits v) = v.
Proof.
  intros Hb E Hv. rewrite <- E, width_wrap in *. destruct (nlimbs_width bits Hb) as (_ & Hw & _).
  destruct (bits <? 0); [rewrite uwrap_swrap by lia | rewrite uwrap_uwrap]; by apply uwrap_small.
Qed.

Lemma norm_spec d bits m : bits <> 0 -> Forall (is_u 64) (limbs m d (nlimbs bits)) ->
  let m' := norm d bits m in
  holds bits m' d (wrap bits (val (limbs m d (nlimbs bits)))) /\ frame (nlimbs bits) d m m'.
Proof.
  intros Hb HU. destruct (nlimbs_width bits Hb) as (EK & Hw & Hr). unfold holds.
  rewrite wrap_wrap by done. pose proof (val_range _ HU) as Rv. rewrite limbs_length in Rv.
  unfold norm. cbv zeta. destruct (Z.eqb_spec (width bits mod 64) 0) as [T0|T0].
  { split; [|by intros p _]. split_and!; [done | done |]. symmetry. apply uwrap_wrap_full; try done.
    pose proof (Z.div_mod (width bits) 64 ltac:(lia)). lia. }
  pose proof (Z.mod_pos_bound (width bits) 64 ltac:(lia)) as Rt.
  destruct (nlimbs bits) as [|k] eqn:Ek; [lia|].
  replace (d + LIMBS (width bits) - 1) with (d + Z.of_nat k) by lia.
  replace (S k) with (k + 1)%nat in * by lia. rewrite limbs_app in HU, Rv |- *.
  apply Forall_app in HU as [HU1 HU2]. cbn [limbs] in HU2. apply Forall_cons_1 in HU2 as [Hx _].
  set (x := m (d + Z.of_nat k)) in *. set (top := width bits mod 64) in *.
  rewrite mask_eq, bit_land, lor_not_mask, land_ones_mod by (try lia; done).
  set (lo := val (limbs m d k)).
  assert (Rlo : 0 <= lo < 2 ^ W k) by (pose proof (val_range _ HU1) as R; by rewrite limbs_length in R).
  rewrite val_app, limbs_length. cbn [limbs val]. fold lo x. rewrite Z.mul_0_r, Z.add_0_r.
  pose proof (wrap_top bits k lo x Hb ltac:(lia) Rlo Hx T0) as E. fold top in E.
  replace (W (k + 1)) with (W k + 64) by lia. rewrite E.
  pose proof (pow2_pos top ltac:(lia)). pose proof (Z.mod_pos_bound x (2 ^ top) ltac:(lia)).
  assert (2 ^ top <= 2 ^ 63) by (apply Z.pow_le_mono_r; lia).
  set (y := if (bits <? 0) && negb ((x / 2 ^ (top - 1)) mod 2 =? 0)
            then x mod 2 ^ top + (2 ^ 64 - 2 ^ top) else x mod 2 ^ top).
  assert (Hy : is_u 64 y) by (unfold is_u, y; destruct (_ && _); lia).
  replace (if (bits <? 0) && negb ((x / 2 ^ (top - 1)) mod 2 =? 0) then _ else _)
    with (upd m (d + Z.of_nat k) y) by (unfold y; by destruct (_ && _)).
  rewrite limbs_app, (limbs_ext _ m d d k) by (intros j Hj; apply upd_other; lia).
  cbn [limbs]. rewrite upd_same. split; [split_and!|].
  - done.
  - apply Forall_app. split; [done|]. by constructor.
  - rewrite val_app, limbs_length. cbn [val]. fold lo. lia.
  - intros p Hp. apply upd_other. lia.
Qed.
