(* ===== verification/BitIntOps.v ===== *)
(** * The [_BitInt] operations compute what C says

    For the operations of [BitInt] ([src/lib/rt/bitint.c]): from operands that hold
    numbers, the result holds the number C's rules give for the type -- the sum,
    product, quotient and so on, wrapped to [N] bits -- in normal form, nothing
    else in memory changes, and the result may be either operand. *)
From stdpp Require Import base numbers list option.
From Stdlib Require Import ZArith Lia.
From S2P Require Import Prelude BitInt.

Local Open Scope Z_scope.
Local Abbreviation W k := (64 * Z.of_nat k).

(** An operation that leaves [x] at [d] and touches nothing else. *)
Definition leaves (bits d x : Z) (m m' : mem) : Prop := holds bits m' d x /\ frame (nlimbs bits) d m m'.

Section Ops.
Context (bits : Z) (Hbits : bits <> 0).
Local Abbreviation K := (nlimbs bits).

Lemma width_K : 0 < width bits <= W K.
Proof using Hbits. destruct (nlimbs_width bits Hbits) as (_ & ? & ?). lia. Qed.

Lemma frame_trans k d m1 m2 m3 : frame k d m1 m2 -> frame k d m2 m3 -> frame k d m1 m3.
Proof. intros F G p Hp. rewrite G, F by done. done. Qed.

(** The normal form of limbs that are right modulo [2^N]. *)
Lemma norm_leaves d m m1 v :
  Forall (is_u 64) (limbs m1 d K) -> eqw (width bits) (val (limbs m1 d K)) v -> frame K d m m1 ->
  leaves bits d (wrap bits v) m (norm d bits m1).
Proof using Hbits.
  intros HU E F. destruct (norm_spec d bits m1 Hbits HU) as (H & F').
  rewrite (wrap_cong bits _ v Hbits E) in H. split; [done|]. by eapply frame_trans.
Qed.

(** The limbs are the number modulo [2^N] and modulo the limbs. *)
Lemma holds_full m a x : holds bits m a x -> eqw (W K) (val (limbs m a K)) x.
Proof using Hbits. intros (_ & _ & ->). apply eqw_uwrap. lia. Qed.
Lemma holds_eqw m a x : holds bits m a x -> eqw (width bits) (val (limbs m a K)) x.
Proof using Hbits.
  intros H. apply (eqw_weaken (W K)); [pose proof width_K; lia | by apply holds_full].
Qed.
Lemma holds_limbs m a x : holds bits m a x -> Forall (is_u 64) (limbs m a K).
Proof. intros (_ & H & _). done. Qed.

(** ** Sums and differences *)

Lemma lor_b2z p q : Z.lor (b2z p) (b2z q) = b2z (p || q).
Proof. by destruct p, q. Qed.
Lemma land_b2z p c : 0 <= c <= 1 -> Z.land (b2z p) c = b2z (p && (c =? 1)).
Proof. intros Hc. assert (c = 0 \/ c = 1) as [-> | ->] by lia; by destruct p. Qed.

Lemma carry_add x y c : is_u 64 x -> is_u 64 y -> 0 <= c <= 1 ->
  let s := u64 (x + c) in let t := u64 (s + y) in let c' := Z.lor (b2z (s <? c)) (b2z (t <? s)) in
  is_u 64 t /\ 0 <= c' <= 1 /\ t + 2 ^ 64 * c' = x + y + c.
Proof.
  intros Hx Hy Hc s t c'. unfold is_u in *.
  assert (Es : s = x + c /\ (s <? c) = false \/ x + c = 2 ^ 64 /\ s = 0 /\ (s <? c) = true).
  { destruct (Z_lt_dec (x + c) (2 ^ 64)).
    - left. assert (s = x + c) by (apply u64_id; lia). split; [done | lia].
    - right. assert (E : x + c = 2 ^ 64) by lia. unfold s. rewrite E. split_and!; try done.
      change (u64 (2 ^ 64)) with 0. lia. }
  assert (Et : t = s + y /\ (t <? s) = false \/ t = s + y - 2 ^ 64 /\ (t <? s) = true).
  { assert (0 <= s < 2 ^ 64) by exact (uwrap_range 64 (x + c) ltac:(lia)).
    destruct (Z_lt_dec (s + y) (2 ^ 64)).
    - left. assert (t = s + y) by (apply u64_id; lia). split; [done | lia].
    - right. assert (t = s + y - 2 ^ 64).
      { unfold t. rewrite <- (u64_id (s + y - 2 ^ 64)) by lia. apply uwrap_proper. exists 1. lia. }
      split; [done | lia]. }
  unfold c'. rewrite lor_b2z. pose proof (uwrap_range 64 (s + y) ltac:(lia)) as Rt. fold t in Rt. unfold is_u in Rt.
  destruct Es as [[Es ->]|(E1 & Es & ->)], Et as [[Et ->]|[Et ->]]; simpl; lia.
Qed.

(** A limb loop with a carry, then [norm]. *)
Lemma carry_loop (f : Z -> Z -> Z -> Z -> Z * Z) (h : Z -> Z -> Z -> Z) s
    (body : Z -> Z * mem -> Z * mem) d a b c m v :
  (forall i c m, body i (c, m) =
     ((f i (m (a + i)) (m (b + i)) c).2, upd m (d + i) (f i (m (a + i)) (m (b + i)) c).1)) ->
  (forall i x y c, is_u 64 x -> is_u 64 y -> 0 <= c <= 1 -> let '(t, c') := f i x y c in
     is_u 64 t /\ 0 <= c' <= 1 /\ t + s * (2 ^ 64 * c') = h i x y + s * c) ->
  alias_ok K d a -> alias_ok K d b -> 0 <= c <= 1 ->
  Forall (is_u 64) (limbs m a K) -> Forall (is_u 64) (limbs m b K) ->
  eqw (width bits) (hval h 0 (limbs m a K) (limbs m b K) + s * c) v ->
  leaves bits d (wrap bits v) m (norm d bits (for_up K 0 body (c, m)).2).
Proof using Hbits.
  intros Hb Hf Aa Ab Hc Ha Hbb E.
  destruct (loop_pass f body d a b K Hb Aa Ab K 0 c m ltac:(lia) ltac:(lia)) as (L & _ & F).
  rewrite !Z.add_0_r in L. rewrite !Z.add_0_r in F.
  pose proof (pass_val f h s Hf (limbs m a K) (limbs m b K) 0 c Ha Hbb
    ltac:(by rewrite !limbs_length) Hc) as P.
  destruct (pass f 0 (limbs m a K) (limbs m b K) c) as [l c'] eqn:EP. cbn [fst snd] in L.
  destruct P as (HU & _ & _ & V). rewrite limbs_length in V.
  apply norm_leaves; [by rewrite L | | done]. rewrite L, <- E.
  apply (eqw_weaken (W K)); [pose proof width_K; lia|]. exists (- (s * c')). lia.
Qed.

Lemma hval_add i la lb : length la = length lb -> hval (fun _ x y => x + y) i la lb = val la + val lb.
Proof.
  revert i lb. induction la as [|x la IH]; intros i [|y lb] E; simpl in E; try lia; cbn [hval val]; [done|].
  rewrite IH by lia. ring.
Qed.
Lemma hval_sub i la lb : length la = length lb -> hval (fun _ x y => x - y) i la lb = val la - val lb.
Proof.
  revert i lb. induction la as [|x la IH]; intros i [|y lb] E; simpl in E; try lia; cbn [hval val]; [done|].
  rewrite IH by lia. ring.
Qed.
Lemma hval_not i la lb : length la = length lb ->
  hval (fun _ x _ => 2 ^ 64 - 1 - x) i la lb = 2 ^ W (length la) - 1 - val la.
Proof.
  revert i lb. induction la as [|x la IH]; intros i [|y lb] E; simpl in E; try lia;
    cbn [hval val length]; [done|]. rewrite IH, pow_W_S by lia. ring.
Qed.

Lemma bi_add_ok d a b m x y : alias_ok K d a -> alias_ok K d b -> holds bits m a x -> holds bits m b y ->
  leaves bits d (wrap bits (x + y)) m (__embcc_bi_add d a b bits m).
Proof using Hbits.
  intros Aa Ab Hx Hy. unfold __embcc_bi_add.
  eapply (carry_loop (fun _ x y c => let s := u64 (x + c) in let t := u64 (s + y) in
    (t, Z.lor (b2z (s <? c)) (b2z (t <? s)))) (fun _ x y => x + y) 1 _ d a b); try done; try lia.
  - intros i x' y' c Hx' Hy' Hc. destruct (carry_add x' y' c Hx' Hy' Hc) as (? & ? & ?).
    split_and!; try done; lia.
  - by eapply holds_limbs.
  - by eapply holds_limbs.
  - rewrite hval_add by (by rewrite !limbs_length). rewrite (holds_eqw _ _ _ Hx), (holds_eqw _ _ _ Hy).
    by rewrite Z.mul_0_r, Z.add_0_r.
Qed.

Lemma borrow_sub x y br : is_u 64 x -> is_u 64 y -> 0 <= br <= 1 ->
  let br' := Z.lor (b2z (x <? y)) (Z.land (b2z (x =? y)) br) in
  is_u 64 (u64 (x - y - br)) /\ 0 <= br' <= 1 /\ u64 (x - y - br) - 2 ^ 64 * br' = x - y - br.
Proof.
  intros Hx Hy Hb br'. unfold is_u in *.
  assert (E : br' = if x - y - br <? 0 then 1 else 0).
  { unfold br'. rewrite land_b2z, lor_b2z by done.
    destruct (Z.ltb_spec x y), (Z.eqb_spec x y), (Z.eqb_spec br 1), (Z.ltb_spec (x - y - br) 0); done || lia. }
  pose proof (uwrap_range 64 (x - y - br) ltac:(lia)) as R. unfold is_u in R. rewrite E.
  destruct (Z.ltb_spec (x - y - br) 0).
  - assert (u64 (x - y - br) = x - y - br + 2 ^ 64).
    { rewrite <- (u64_id (x - y - br + 2 ^ 64)) by lia. apply uwrap_proper. exists (-1). lia. }
    lia.
  - rewrite u64_id by lia. lia.
Qed.

Lemma bi_sub_ok d a b m x y : alias_ok K d a -> alias_ok K d b -> holds bits m a x -> holds bits m b y ->
  leaves bits d (wrap bits (x - y)) m (__embcc_bi_sub d a b bits m).
Proof using Hbits.
  intros Aa Ab Hx Hy. unfold __embcc_bi_sub.
  eapply (carry_loop (fun _ x y c =>
    (u64 (x - y - c), Z.lor (b2z (x <? y)) (Z.land (b2z (x =? y)) c))) (fun _ x y => x - y) (-1) _ d a b);
    try done; try lia.
  - intros i x' y' c Hx' Hy' Hc. destruct (borrow_sub x' y' c Hx' Hy' Hc) as (? & ? & ?).
    split_and!; try done; lia.
  - by eapply holds_limbs.
  - by eapply holds_limbs.
  - rewrite hval_sub by (by rewrite !limbs_length). rewrite (holds_eqw _ _ _ Hx), (holds_eqw _ _ _ Hy).
    by rewrite Z.mul_0_r, Z.add_0_r.
Qed.

Lemma not_limb x : is_u 64 x -> u64 (Z.lnot x) = 2 ^ 64 - 1 - x.
Proof. intros Hx. unfold is_u in Hx. unfold Z.lnot. symmetry. apply Z.mod_unique with (-1); lia. Qed.

Lemma carry_neg x c : is_u 64 x -> 0 <= c <= 1 ->
  let t := u64 (u64 (Z.lnot x) + c) in let c' := b2z (negb (c =? 0) && (t =? 0)) in
  is_u 64 t /\ 0 <= c' <= 1 /\ t + 2 ^ 64 * c' = 2 ^ 64 - 1 - x + c.
Proof.
  intros Hx Hc t c'. pose proof (uwrap_range 64 (u64 (Z.lnot x) + c) ltac:(lia)) as Rt. fold t in Rt.
  assert (Et : t = u64 (2 ^ 64 - 1 - x + c)) by (unfold t; by rewrite not_limb). unfold is_u in *.
  unfold c'. destruct (Z_lt_dec (2 ^ 64 - 1 - x + c) (2 ^ 64)).
  - rewrite u64_id in Et by lia.
    replace (negb (c =? 0) && (t =? 0)) with false
      by (destruct (Z.eqb_spec c 0), (Z.eqb_spec t 0); simpl; lia || done).
    simpl. lia.
  - assert (x = 0 /\ c = 1) as [-> ->] by lia. change (u64 (2 ^ 64 - 1 - 0 + 1)) with 0 in Et.
    rewrite Et. simpl. lia.
Qed.

Lemma bi_neg_ok d a m x : alias_ok K d a -> holds bits m a x ->
  leaves bits d (wrap bits (- x)) m (__embcc_bi_neg d a bits m).
Proof using Hbits.
  intros Aa Hx. unfold __embcc_bi_neg.
  eapply (carry_loop (fun _ x _ c => let t := u64 (u64 (Z.lnot x) + c) in
    (t, b2z (negb (c =? 0) && (t =? 0)))) (fun _ x _ => 2 ^ 64 - 1 - x) 1 _ d a a); try done; try lia.
  - intros i x' y' c Hx' _ Hc. destruct (carry_neg x' c Hx' Hc) as (? & ? & ?).
    split_and!; try done; lia.
  - by eapply holds_limbs.
  - by eapply holds_limbs.
  - rewrite hval_not, limbs_length by done. rewrite <- (holds_eqw _ _ _ Hx).
    apply (eqw_weaken (W K)); [pose proof width_K; lia|]. exists 1. lia.
Qed.

(** [a + k] for a 64-bit [k]: its own limb, then its sign. *)
Lemma hval_addi_high ext i la : 0 < i -> ext = 0 \/ ext = 2 ^ 64 - 1 ->
  hval (fun i x _ => x + (if i =? 0 then 0 else ext)) i la la
  = val la + (if ext =? 0 then 0 else 2 ^ W (length la) - 1).
Proof.
  intros Hi He. revert i Hi. induction la as [|x la IH]; intros i Hi; cbn [hval val length].
  - destruct (ext =? 0); done.
  - rewrite IH by lia. replace (i =? 0) with false by lia. rewrite pow_W_S.
    destruct He as [-> | ->]; [rewrite Z.eqb_refl; ring|]. change (2 ^ 64 - 1 =? 0) with false. ring.
Qed.

Lemma hval_shift (h h' : Z -> Z -> Z -> Z) i la lb : (forall j x y, i <= j -> h j x y = h' j x y) ->
  hval h i la lb = hval h' i la lb.
Proof.
  revert i lb. induction la as [|x la IH]; intros i [|y lb] E; cbn [hval]; try done.
  rewrite E, (IH (i + 1)) by (intros; try apply E; lia). done.
Qed.

Lemma bi_addi_ok d a k m x : alias_ok K d a -> holds bits m a x -> is_s 64 k ->
  leaves bits d (wrap bits (x + k)) m (__embcc_bi_addi d a k bits m).
Proof using Hbits.
  intros Aa Hx Hk. unfold __embcc_bi_addi. change (u64 (Z.lnot 0)) with (2 ^ 64 - 1).
  set (ext := if k <? 0 then 2 ^ 64 - 1 else 0).
  assert (He : ext = 0 \/ ext = 2 ^ 64 - 1) by (unfold ext; destruct (k <? 0); auto).
  assert (Hu : is_u 64 (u64 k)) by (apply uwrap_range; lia).
  eapply (carry_loop (fun i x _ c => let y := if i =? 0 then u64 k else ext in
    let s := u64 (x + c) in let t := u64 (s + y) in (t, Z.lor (b2z (s <? c)) (b2z (t <? s))))
    (fun i x _ => x + (if i =? 0 then u64 k else ext)) 1 _ d a a); try done; try lia.
  - intros i x' y' c Hx' _ Hc. cbv zeta.
    destruct (carry_add x' (if i =? 0 then u64 k else ext) c Hx') as (? & ? & ?); [|done|].
    { destruct (i =? 0); [done|]. unfold is_u. destruct He as [-> | ->]; lia. }
    split_and!; try done; lia.
  - by eapply holds_limbs.
  - by eapply holds_limbs.
  - rewrite <- (holds_eqw _ _ _ Hx). apply (eqw_weaken (W K)); [pose proof width_K; lia|].
    pose proof width_K as HK. destruct (limbs m a K) as [|z l] eqn:EL;
      [apply (f_equal length) in EL; rewrite limbs_length in EL; simpl in EL; lia|].
    assert (LK : K = S (length l)) by (rewrite <- (limbs_length m a K), EL; done).
    cbn [hval]. rewrite Z.eqb_refl, (hval_shift _ (fun i x _ => x + (if i =? 0 then 0 else ext)))
      by (intros j x' y' Hj; by replace (j =? 0) with false by lia).
    rewrite hval_addi_high by (done || lia). cbn [val]. rewrite LK.
    rewrite uwrap_of_s by (done || lia). unfold ext. destruct (Z.ltb_spec k 0).
    + exists 1. rewrite pow_W_S. change (2 ^ 64 - 1 =? 0) with false. ring.
    + exists 0. rewrite Z.eqb_refl. ring.
Qed.

(** ** Limb by limb *)

Lemma loop_map0 (g : Z -> Z -> Z -> Z) (body : Z -> mem -> mem) d a b k m :
  (forall i m, body i m = upd m (d + i) (g i (m (a + i)) (m (b + i)))) ->
  alias_ok k d a -> alias_ok k d b ->
  let m' := for_up k 0 body m in
  (forall j, 0 <= j < Z.of_nat k -> m' (d + j) = g j (m (a + j)) (m (b + j))) /\ frame k d m m'.
Proof.
  intros Hb Aa Ab. destruct (loop_map g body d a b k Hb Aa Ab k 0 m ltac:(lia) ltac:(lia)) as (L & F).
  rewrite Z.add_0_r in F. split; [|done]. intros j Hj. specialize (L j Hj).
  by rewrite !Z.add_0_r, Z.add_0_l in L.
Qed.

Lemma map_hval (g : Z -> Z -> Z -> Z) m m' d a b k i :
  (forall j, 0 <= j < Z.of_nat k -> m' (d + j) = g (i + j) (m (a + j)) (m (b + j))) ->
  val (limbs m' d k) = hval g i (limbs m a k) (limbs m b k).
Proof.
  revert d a b i. induction k as [|k IH]; intros d a b i H; cbn [limbs val hval]; [done|].
  pose proof (H 0 ltac:(lia)) as H0. rewrite !Z.add_0_r in H0. rewrite H0. f_equal. f_equal. apply IH.
  intros j Hj. specialize (H (j + 1) ltac:(lia)).
  replace (d + (j + 1)) with (d + 1 + j) in H by lia. replace (a + (j + 1)) with (a + 1 + j) in H by lia.
  replace (b + (j + 1)) with (b + 1 + j) in H by lia. by replace (i + (j + 1)) with (i + 1 + j) in H by lia.
Qed.

Lemma bi_not_ok d a m x : alias_ok K d a -> holds bits m a x ->
  leaves bits d (wrap bits (Z.lnot x)) m (__embcc_bi_not d a bits m).
Proof using Hbits.
  intros Aa Hx. unfold __embcc_bi_not. pose proof (holds_limbs _ _ _ Hx) as HU.
  destruct (loop_map0 (fun _ x _ => u64 (Z.lnot x)) (fun i m => upd m (d + i) (u64 (Z.lnot (m (a + i)))))
    d a a K m ltac:(done) Aa Aa) as (L & F).
  apply norm_leaves; [| |done].
  - apply limbs_u. intros j Hj. rewrite L by done. apply uwrap_range. lia.
  - rewrite (map_hval (fun _ x _ => 2 ^ 64 - 1 - x) m _ d a a K 0).
    + rewrite hval_not, limbs_length by done. replace (Z.lnot x) with (- x - 1) by (unfold Z.lnot; lia).
      rewrite <- (holds_eqw _ _ _ Hx). apply (eqw_weaken (W K)); [pose proof width_K; lia|]. exists 1. lia.
    + intros j Hj. rewrite L by done. apply not_limb. by apply (proj1 (limbs_u m a K) HU).
Qed.

(** *** The bitwise operations *)

Section Bitwise.
Context (op : Z -> Z -> Z) (fb : bool -> bool -> bool) (f00 : fb false false = false).
Context (op_spec : forall x y n, Z.testbit (op x y) n = fb (Z.testbit x n) (Z.testbit y n)).

Lemma shiftr_op x y n : 0 <= n -> Z.shiftr (op x y) n = op (Z.shiftr x n) (Z.shiftr y n).
Proof using op_spec.
  intros Hn. apply Z.bits_inj'. intros j Hj. by rewrite op_spec, !Z.shiftr_spec, op_spec by lia.
Qed.

Lemma uwrap_op w x y : 0 <= w -> uwrap w (op x y) = op (uwrap w x) (uwrap w y).
Proof using op_spec f00.
  intros Hw. apply Z.bits_inj'. intros j Hj. unfold uwrap. rewrite op_spec.
  destruct (Z.ltb_spec j w).
  - by rewrite !Z.mod_pow2_bits_low, op_spec by lia.
  - by rewrite !Z.mod_pow2_bits_high, f00 by lia.
Qed.

Lemma is_u_op w x y : 0 <= w -> is_u w x -> is_u w y -> is_u w (op x y).
Proof using op_spec f00.
  intros Hw Hx Hy. rewrite <- (uwrap_small w x), <- (uwrap_small w y), <- uwrap_op by done.
  by apply uwrap_range.
Qed.

Lemma op_limb x y A B : is_u 64 x -> is_u 64 y ->
  op (x + 2 ^ 64 * A) (y + 2 ^ 64 * B) = op x y + 2 ^ 64 * op A B.
Proof using op_spec f00.
  intros Hx Hy. rewrite (Z.div_mod (op (x + 2 ^ 64 * A) (y + 2 ^ 64 * B)) (2 ^ 64)) by lia.
  assert (E : forall z Q, is_u 64 z -> uwrap 64 (z + 2 ^ 64 * Q) = z /\ Z.shiftr (z + 2 ^ 64 * Q) 64 = Q).
  { intros z Q Hz. split.
    - rewrite <- (uwrap_small 64 z) at 2 by done. apply uwrap_proper. exists Q. lia.
    - rewrite Z.shiftr_div_pow2 by lia. symmetry. apply Z.div_unique with z; [left; apply Hz | lia]. }
  destruct (E x A Hx) as [E1 E2], (E y B Hy) as [E3 E4].
  change ((op (x + 2 ^ 64 * A) (y + 2 ^ 64 * B)) mod 2 ^ 64)
    with (uwrap 64 (op (x + 2 ^ 64 * A) (y + 2 ^ 64 * B))).
  rewrite uwrap_op, E1, E3 by lia. rewrite <- (Z.shiftr_div_pow2 _ 64), shiftr_op, E2, E4 by lia. ring.
Qed.

Lemma val_op i la lb : Forall (is_u 64) la -> Forall (is_u 64) lb -> length la = length lb ->
  hval (fun _ => op) i la lb = op (val la) (val lb).
Proof using op_spec f00.
  intros Ha. revert i lb. induction Ha as [|x la Hx Ha IH]; intros i [|y lb] Hb E; simpl in E; try lia;
    cbn [hval val].
  - apply Z.bits_inj'. intros j _. by rewrite op_spec, Z.bits_0, f00.
  - apply Forall_cons_1 in Hb as [Hy Hb]. by rewrite op_limb, IH by (done || lia).
Qed.

(** [N]-bit numbers are closed under the operation, signed or not. *)
Lemma is_s_shiftr w x : 0 < w -> is_s w x <-> Z.shiftr x (w - 1) = 0 \/ Z.shiftr x (w - 1) = -1.
Proof.
  intros Hw. unfold is_s. rewrite Z.shiftr_div_pow2 by lia. pose proof (pow2_pos (w - 1) ltac:(lia)).
  pose proof (Z.div_mod x (2 ^ (w - 1)) ltac:(lia)). pose proof (Z.mod_pos_bound x (2 ^ (w - 1)) ltac:(lia)).
  split.
  - intros H'. destruct (Z_lt_dec x 0).
    + right. symmetry. apply Z.div_unique with (x + 2 ^ (w - 1)); lia.
    + left. apply Z.div_small. lia.
  - intros [E|E]; rewrite E in *; lia.
Qed.

Lemma wrap_op x y : x = wrap bits x -> y = wrap bits y -> op x y = wrap bits (op x y).
Proof using op_spec f00 Hbits.
  intros Hx Hy. pose proof width_K as HW. rewrite width_wrap in *.
  destruct (bits <? 0).
  - assert (R : forall z, z = swrap (width bits) z <-> is_s (width bits) z).
    { intros z. split; [intros ->; apply swrap_range; lia | intros; symmetry; apply swrap_small; [lia|done]]. }
    apply R. apply R in Hx, Hy. apply is_s_shiftr in Hx, Hy; [|lia..].
    apply is_s_shiftr; [lia|]. rewrite shiftr_op by lia.
    assert (B : forall p q, op (if p : bool then -1 else 0) (if q : bool then -1 else 0)
                = if fb p q then -1 else 0).
    { intros p q. apply Z.bits_inj'. intros j Hj. rewrite op_spec.
      assert (E : forall r : bool, Z.testbit (if r then -1 else 0) j = r)
        by (intros []; [by apply Z.bits_m1 | apply Z.bits_0]).
      by rewrite !E. }
    assert (C : forall b : bool, (if b then -1 else 0) = 0 \/ (if b then -1 else 0) = -1)
      by (intros []; auto).
    destruct Hx as [-> | ->], Hy as [-> | ->].
    + rewrite (B false false). apply C.
    + rewrite (B false true). apply C.
    + rewrite (B true false). apply C.
    + rewrite (B true true). apply C.
  - rewrite uwrap_op by lia. by rewrite <- Hx, <- Hy.
Qed.

Lemma bitwise_ok d a b m x y : alias_ok K d a -> alias_ok K d b -> holds bits m a x -> holds bits m b y ->
  leaves bits d (op x y) m (for_up K 0 (fun i m => upd m (d + i) (op (m (a + i)) (m (b + i)))) m).
Proof using op_spec f00 Hbits.
  intros Aa Ab (Wx & Ux & Vx) (Wy & Uy & Vy).
  destruct (loop_map0 (fun _ => op) (fun i m => upd m (d + i) (op (m (a + i)) (m (b + i))))
    d a b K m ltac:(done) Aa Ab) as (L & F).
  split; [|done]. split_and!.
  - by apply wrap_op.
  - apply limbs_u. intros j Hj. rewrite L by done.
    apply is_u_op; [lia | by apply (proj1 (limbs_u m a K) Ux) | by apply (proj1 (limbs_u m b K) Uy)].
  - rewrite (map_hval (fun _ => op) m _ d a b K 0) by (intros; by apply L).
    rewrite val_op, Vx, Vy by (done || by rewrite !limbs_length). by rewrite uwrap_op by lia.
Qed.
End Bitwise.

(** ** Bits of a number in limbs *)

Lemma testbit_limb x Q j : is_u 64 x -> 0 <= j ->
  Z.testbit (x + 2 ^ 64 * Q) j = if j <? 64 then Z.testbit x j else Z.testbit Q (j - 64).
Proof.
  intros Hx Hj. destruct (Z.ltb_spec j 64).
  - rewrite <- (Z.mod_pow2_bits_low _ 64) by lia.
    rewrite (Z.mul_comm _ Q), Z.mod_add by lia. by rewrite Z.mod_pow2_bits_low by lia.
  - replace j with (j - 64 + 64) at 1 by lia. rewrite <- Z.div_pow2_bits by lia.
    rewrite (Z.mul_comm _ Q), Z.div_add, Z.div_small by (lia || exact Hx). done.
Qed.

Lemma val_testbit m a k j : Forall (is_u 64) (limbs m a k) -> 0 <= j < W k ->
  Z.testbit (val (limbs m a k)) j = Z.testbit (m (a + j / 64)) (j mod 64).
Proof.
  revert a j. induction k as [|k IH]; intros a j HU Hj; [lia|]. cbn [limbs val] in *.
  apply Forall_cons_1 in HU as [Hx HU]. rewrite testbit_limb by (done || lia).
  destruct (Z.ltb_spec j 64).
  - by rewrite Z.div_small, Z.mod_small, Z.add_0_r by lia.
  - rewrite IH by (done || lia). replace j with (j - 64 + 1 * 64) at 3 4 by lia.
    rewrite Z.div_add, Z.mod_add by lia. do 2 f_equal. lia.
Qed.

(** Limbs with the bits of [v] are [v]'s. *)
Lemma val_of_bits m a k v : Forall (is_u 64) (limbs m a k) ->
  (forall i t, 0 <= i < Z.of_nat k -> 0 <= t < 64 -> Z.testbit (m (a + i)) t = Z.testbit v (64 * i + t)) ->
  val (limbs m a k) = uwrap (W k) v.
Proof.
  intros HU H. pose proof (val_range _ HU) as R. rewrite limbs_length in R.
  rewrite <- (uwrap_small (W k) (val _)) by done. apply Z.bits_inj'. intros j Hj. unfold uwrap.
  destruct (Z.ltb_spec j (W k)).
  - rewrite !Z.mod_pow2_bits_low, val_testbit by (done || lia).
    pose proof (Z.div_mod j 64 ltac:(lia)). pose proof (Z.mod_pos_bound j 64 ltac:(lia)).
    rewrite H by (lia || (split; [apply Z.div_pos | apply Z.div_lt_upper_bound]; lia)). f_equal. lia.
  - by rewrite !Z.mod_pow2_bits_high by lia.
Qed.

Lemma holds_bit m a x i t : holds bits m a x -> 0 <= i < Z.of_nat K -> 0 <= t < 64 ->
  Z.testbit (m (a + i)) t = Z.testbit x (64 * i + t).
Proof.
  intros (_ & HU & V) Hi Ht.
  assert (E : Z.testbit (val (limbs m a K)) (64 * i + t) = Z.testbit (m (a + i)) t).
  { rewrite val_testbit by (done || lia). rewrite (Z.mul_comm 64), Z.div_add_l, Z.div_small by lia.
    rewrite (Z.add_comm _ t), Z.mod_add, Z.mod_small by lia. do 2 f_equal. lia. }
  rewrite <- E, V. unfold uwrap. by rewrite Z.mod_pow2_bits_low by lia.
Qed.

(** The bits from the sign up are the sign. *)
Lemma holds_sign m a x j : holds bits m a x -> width bits <= j + 1 -> (bits < 0 \/ width bits <= j) ->
  Z.testbit x j = (x <? 0).
Proof using Hbits.
  intros (E & _) Hj Hs. pose proof width_K as HW. rewrite width_wrap in E.
  destruct (Z.ltb_spec bits 0).
  - assert (R : is_s (width bits) x) by (rewrite E; apply swrap_range; lia).
    apply is_s_shiftr in R; [|lia]. replace j with (j - (width bits - 1) + (width bits - 1)) by lia.
    rewrite <- Z.shiftr_spec by lia. destruct R as [R|R]; rewrite R.
    + rewrite Z.bits_0. symmetry. apply Z.ltb_ge. apply Z.shiftr_nonneg with (width bits - 1). lia.
    + rewrite Z.bits_m1 by lia. symmetry. apply Z.ltb_lt. apply (Z.shiftr_neg x (width bits - 1)). lia.
  - assert (R : is_u (width bits) x) by (rewrite E; apply uwrap_range; lia). unfold is_u in R.
    replace (x <? 0) with false by lia. destruct (decide (x = 0)) as [->|]; [apply Z.bits_0|].
    apply Z.bits_above_log2; [lia|]. apply Z.log2_lt_pow2; [lia|].
    apply Z.lt_le_trans with (2 ^ width bits); [lia | apply Z.pow_le_mono_r; lia].
Qed.

Lemma bit_nonzero x j : 0 <= j -> negb (Z.land (Z.shiftr x j) 1 =? 0) = Z.testbit x j.
Proof.
  intros Hj. rewrite bit_land by done. rewrite <- (Z.testbit_spec' x j Hj). by destruct (Z.testbit x j).
Qed.

Lemma negative_ok a m x : holds bits m a x -> negative a bits m = (x <? 0).
Proof using Hbits.
  intros Hx. pose proof width_K as HW. unfold negative.
  pose proof (Z.div_mod (width bits - 1) 64 ltac:(lia)) as D.
  pose proof (Z.mod_pos_bound (width bits - 1) 64 ltac:(lia)) as R.
  destruct (Z.ltb_spec bits 0); simpl.
  - rewrite bit_nonzero by lia. rewrite (holds_bit m a x) by
      (done || lia || (split; [apply Z.div_pos | apply Z.div_lt_upper_bound]; lia)).
    rewrite <- D. apply (holds_sign m a x); [done | lia | by left].
  - destruct Hx as (E & _). rewrite width_wrap in E. replace (bits <? 0) with false in E by lia.
    assert (Ru : is_u (width bits) x) by (rewrite E; apply uwrap_range; lia). unfold is_u in Ru. lia.
Qed.

(** ** Copies, conversions and tests *)

Lemma bi_copy_ok d a m x : alias_ok K d a -> holds bits m a x ->
  leaves bits d x m (__embcc_bi_copy d a bits m).
Proof.
  intros Aa (E & HU & V). unfold __embcc_bi_copy.
  destruct (loop_map0 (fun _ x _ => x) (fun i m => upd m (d + i) (m (a + i))) d a a K m
    ltac:(done) Aa Aa) as (L & F).
  split; [|done]. unfold holds.
  assert (EL : limbs (for_up K 0 (fun i m => upd m (d + i) (m (a + i))) m) d K = limbs m a K)
    by (apply limbs_ext; intros j Hj; by apply L).
  by rewrite EL.
Qed.

Lemma fill_bits (p : bool) t : 0 <= t < 64 -> Z.testbit (if p then u64 (Z.lnot 0) else 0) t = p.
Proof.
  intros Ht. destruct p; [|apply Z.bits_0]. change (u64 (Z.lnot 0)) with (Z.ones 64).
  apply Z.ones_spec_low. lia.
Qed.
Lemma fill_u (p : bool) : is_u 64 (if p then u64 (Z.lnot 0) else 0).
Proof. destruct p; [apply uwrap_range|]; unfold is_u; lia. Qed.

(** The limbs of a number beyond its array: its sign. *)
Definition limb_or (m : mem) (a : Z) (k : Z) (p : bool) (i : Z) : Z :=
  if i <? k then m (a + i) else if p then u64 (Z.lnot 0) else 0.

Lemma limb_or_bit m a x i t : holds bits m a x -> 0 <= i -> 0 <= t < 64 ->
  is_u 64 (limb_or m a (Z.of_nat K) (x <? 0) i) /\
  Z.testbit (limb_or m a (Z.of_nat K) (x <? 0) i) t = Z.testbit x (64 * i + t).
Proof using Hbits.
  intros Hx Hi Ht. pose proof width_K as HW. unfold limb_or. destruct (Z.ltb_spec i (Z.of_nat K)).
  - split; [|by apply holds_bit]. apply (proj1 (limbs_u m a K) (holds_limbs _ _ _ Hx)). lia.
  - split; [apply fill_u|]. rewrite fill_bits by done. symmetry.
    apply (holds_sign m a x); [done | lia | right; lia].
Qed.

Lemma bi_from64_ok d v (sgn : bool) m : is_u 64 v ->
  leaves bits d (wrap bits (if sgn then s64 v else v)) m (__embcc_bi_from64 d v sgn bits m).
Proof using Hbits.
  intros Hv. unfold __embcc_bi_from64. pose proof width_K as HW.
  set (x := if sgn then s64 v else v).
  assert (Es : sgn && (s64 v <? 0) = (x <? 0)).
  { unfold x. unfold is_u in Hv. destruct sgn; simpl; [done|]. lia. }
  rewrite Es. set (ext := if x <? 0 then u64 (Z.lnot 0) else 0).
  destruct (loop_map (fun _ _ _ => ext) (fun i (m : mem) => upd m (d + i) ext) d d d K ltac:(done)
    ltac:(by left) ltac:(by left) (K - 1) 1 (upd m d v) ltac:(lia) ltac:(lia)) as (L & F).
  set (m1 := for_up (K - 1) 1 _ _) in *.
  assert (L0 : m1 d = v) by (rewrite F by lia; apply upd_same).
  assert (LI : forall i, 1 <= i < Z.of_nat K -> m1 (d + i) = ext).
  { intros i Hi. specialize (L (i - 1) ltac:(lia)). by replace (d + 1 + (i - 1)) with (d + i) in L by lia. }
  assert (HU : Forall (is_u 64) (limbs m1 d K)).
  { apply limbs_u. intros j Hj. destruct (decide (j = 0)) as [->|]; [by rewrite Z.add_0_r, L0|].
    rewrite LI by lia. apply fill_u. }
  assert (Ex : eqw 64 v x) by (unfold x; destruct sgn; [symmetry; apply eqw_swrap; lia | done]).
  assert (Rx : - 2 ^ 63 <= x < 2 ^ 64).
  { unfold x. destruct sgn; [|unfold is_u in Hv; lia]. pose proof (swrap_range 64 v ltac:(lia)) as R.
    unfold is_s in R. lia. }
  apply norm_leaves; [done | |].
  - rewrite (val_of_bits m1 d K x HU); [apply (eqw_weaken (W K)); [lia | apply eqw_uwrap; lia]|].
    intros i t Hi Ht. destruct (decide (i = 0)) as [->|].
    + rewrite Z.add_0_r, L0, Z.add_0_l.
      rewrite <- (Z.mod_pow2_bits_low v 64), <- (Z.mod_pow2_bits_low x 64) by lia.
      f_equal. apply (uwrap_proper 64). done.
    + rewrite LI by lia. unfold ext. rewrite fill_bits by done. destruct (Z.ltb_spec x 0).
      * symmetry. rewrite <- (Z.lnot_involutive x), Z.lnot_spec by lia. apply negb_true_iff.
        destruct (decide (Z.lnot x = 0)) as [->|]; [apply Z.bits_0|].
        apply Z.bits_above_log2; [unfold Z.lnot in *; lia|].
        apply Z.log2_lt_pow2; [unfold Z.lnot in *; lia|].
        apply Z.lt_le_trans with (2 ^ 64); [unfold Z.lnot; lia | apply Z.pow_le_mono_r; lia].
      * symmetry. destruct (decide (x = 0)) as [->|]; [apply Z.bits_0|].
        apply Z.bits_above_log2; [lia|]. apply Z.log2_lt_pow2; [lia|].
        apply Z.lt_le_trans with (2 ^ 64); [lia | apply Z.pow_le_mono_r; lia].
  - intros p Hp. rewrite F by lia. apply upd_other. lia.
Qed.

(** The number itself, in the range of its type and of its limbs. *)
Lemma holds_range m a x : holds bits m a x ->
  - 2 ^ (W K - 1) <= x < 2 ^ W K /\ (0 <= bits -> 0 <= x) /\ (bits < 0 -> x < 2 ^ (W K - 1)).
Proof using Hbits.
  intros (E & _). pose proof width_K as HW. rewrite width_wrap in E.
  pose proof (pow2_half (W K) ltac:(lia)). destruct (Z.ltb_spec bits 0).
  - assert (R : is_s (width bits) x) by (rewrite E; apply swrap_range; lia). unfold is_s in R.
    assert (2 ^ (width bits - 1) <= 2 ^ (W K - 1)) by (apply Z.pow_le_mono_r; lia). lia.
  - assert (R : is_u (width bits) x) by (rewrite E; apply uwrap_range; lia). unfold is_u in R.
    assert (2 ^ width bits <= 2 ^ W K) by (apply Z.pow_le_mono_r; lia). lia.
Qed.

Lemma holds_val m a x : holds bits m a x ->
  val (limbs m a K) = if x <? 0 then x + 2 ^ W K else x.
Proof using Hbits.
  intros Hx. pose proof width_K as HW. destruct (holds_range m a x Hx) as (R & _). destruct Hx as (_ & _ & ->).
  pose proof (pow2_half (W K) ltac:(lia)). destruct (Z.ltb_spec x 0).
  - replace x with (x + 2 ^ W K + -1 * 2 ^ W K) at 1 by ring. rewrite uwrap_add_mul.
    apply uwrap_small. unfold is_u. lia.
  - apply uwrap_small. unfold is_u. lia.
Qed.

Lemma bi_test_loop_ok x k i : Forall (is_u 64) (limbs x i k) ->
  bi_test_loop k i x = if val (limbs x i k) =? 0 then 0 else 1.
Proof.
  revert i. induction k as [|k IH]; intros i HU; cbn [bi_test_loop limbs val]; [done|].
  cbn [limbs] in HU. apply Forall_cons_1 in HU as [Hx HU]. unfold is_u in Hx.
  pose proof (val_range _ HU) as R. rewrite limbs_length in R.
  destruct (Z.eqb_spec (x i) 0) as [E|]; simpl.
  - rewrite IH, E by done. destruct (Z.eqb_spec (val (limbs x (i + 1) k)) 0) as [->|]; [done|].
    by replace (0 + 2 ^ 64 * val (limbs x (i + 1) k) =? 0) with false by lia.
  - by replace (x i + 2 ^ 64 * val (limbs x (i + 1) k) =? 0) with false by lia.
Qed.

Lemma limbs_at m a k : limbs (at_ m a) 0 k = limbs m a k.
Proof. apply limbs_ext. intros j _. done. Qed.

Lemma bi_test_ok a m x : holds bits m a x -> __embcc_bi_test a bits m = if x =? 0 then 0 else 1.
Proof using Hbits.
  intros Hx. unfold __embcc_bi_test.
  rewrite bi_test_loop_ok by (rewrite limbs_at; by eapply holds_limbs). rewrite limbs_at.
  destruct (holds_range m a x Hx) as (R & _). rewrite (holds_val m a x Hx).
  pose proof width_K as HW. pose proof (pow2_half (W K) ltac:(lia)).
  pose proof (pow2_pos (W K - 1) ltac:(lia)).
  destruct (Z.ltb_spec x 0), (Z.eqb_spec x 0); try lia; try done.
  by replace (x + 2 ^ W K =? 0) with false by lia.
Qed.

(** Three-way comparison of numbers. *)
Definition cmp3 (x y : Z) : Z := if x <? y then -1 else if x =? y then 0 else 1.

Lemma ucmp_ok x y k : Forall (is_u 64) (limbs x 0 k) -> Forall (is_u 64) (limbs y 0 k) ->
  ucmp k x y = cmp3 (val (limbs x 0 k)) (val (limbs y 0 k)).
Proof.
  induction k as [|k IH]; intros HX HY; [done|]. cbn [ucmp].
  replace (S k) with (k + 1)%nat in * by lia. rewrite !limbs_app in *.
  apply Forall_app in HX as [HX HX1], HY as [HY HY1]. rewrite Z.add_0_l in *. cbn [limbs] in *.
  apply Forall_cons_1 in HX1 as [Hx _], HY1 as [Hy _]. unfold is_u in Hx, Hy.
  rewrite !val_app, !limbs_length. cbn [val]. rewrite !Z.mul_0_r, !Z.add_0_r.
  pose proof (val_range _ HX) as RX. pose proof (val_range _ HY) as RY. rewrite limbs_length in RX, RY.
  pose proof (pow2_pos (W k) ltac:(lia)) as HP. set (A := val (limbs x 0 k)) in *.
  set (B := val (limbs y 0 k)) in *. set (P := 2 ^ W k) in *.
  destruct (Z.eqb_spec (x (Z.of_nat k)) (y (Z.of_nat k))) as [E|N]; simpl.
  - rewrite IH by done. rewrite E. unfold cmp3.
    destruct (Z.ltb_spec A B), (Z.ltb_spec (A + P * y (Z.of_nat k)) (B + P * y (Z.of_nat k))),
      (Z.eqb_spec A B), (Z.eqb_spec (A + P * y (Z.of_nat k)) (B + P * y (Z.of_nat k))); done || lia.
  - unfold cmp3. destruct (Z.ltb_spec (x (Z.of_nat k)) (y (Z.of_nat k))).
    + replace (A + P * x (Z.of_nat k) <? B + P * y (Z.of_nat k)) with true; [done|].
      symmetry. apply Z.ltb_lt. nia.
    + assert (B + P * y (Z.of_nat k) < A + P * x (Z.of_nat k)) by nia.
      replace (A + P * x (Z.of_nat k) <? B + P * y (Z.of_nat k)) with false by lia.
      by replace (A + P * x (Z.of_nat k) =? B + P * y (Z.of_nat k)) with false by lia.
Qed.

Lemma bi_cmp_ok a b m x y : holds bits m a x -> holds bits m b y -> __embcc_bi_cmp a b bits m = cmp3 x y.
Proof using Hbits.
  intros Hx Hy. unfold __embcc_bi_cmp. rewrite (negative_ok a m x Hx), (negative_ok b m y Hy).
  rewrite ucmp_ok by (rewrite limbs_at; by eapply holds_limbs). rewrite !limbs_at.
  rewrite (holds_val m a x Hx), (holds_val m b y Hy).
  destruct (holds_range m a x Hx) as (Rx & Ux & Sx), (holds_range m b y Hy) as (Ry & Uy & Sy).
  unfold cmp3. destruct (Z.ltb_spec bits 0), (Z.ltb_spec x 0), (Z.ltb_spec y 0); simpl; try lia;
    repeat (match goal with |- context [?p <? ?q] => destruct (Z.ltb_spec p q)
                          | |- context [?p =? ?q] => destruct (Z.eqb_spec p q) end); try done; lia.
Qed.
End Ops.

(** The copy of a conversion reads the source only where it has limbs, so the two
    may be one object or lie apart, each with its own length. *)
Definition apart (dk ak d a : Z) : Prop := a = d \/ a + ak <= d \/ d + dk <= a.

Lemma ext_loop d a ak fill n (m : mem) : apart (Z.of_nat n) ak d a ->
  let m' := for_up n 0 (fun i m => upd m (d + i) (if i <? ak then m (a + i) else fill)) m in
  forall p, m' p = if (d <=? p) && (p <? d + Z.of_nat n)
                   then (if p - d <? ak then m (a + (p - d)) else fill) else m p.
Proof.
  intros Aa m'. pose proof (for_up_inv (fun j (s : mem) => forall p, s p =
      if (d <=? p) && (p <? d + j) then (if p - d <? ak then m (a + (p - d)) else fill) else m p)
    (fun i m => upd m (d + i) (if i <? ak then m (a + i) else fill)) n 0 m) as H.
  cbv beta in H. rewrite Z.add_0_l in H. apply H.
  - intros j s Hj IH p. destruct (decide (p = d + j)) as [->|N].
    + rewrite upd_same. replace (d + j - d) with j by lia.
      replace ((d <=? d + j) && (d + j <? d + (j + 1))) with true by lia.
      destruct (Z.ltb_spec j ak); [|done]. rewrite IH. unfold apart in Aa.
      destruct ((d <=? a + j) && (a + j <? d + j)) eqn:B; [|done]. lia.
    + rewrite upd_other, IH by done.
      by replace ((d <=? p) && (p <? d + (j + 1))) with ((d <=? p) && (p <? d + j)) by lia.
  - intros p. by replace ((d <=? p) && (p <? d + 0)) with false by lia.
Qed.

Lemma bi_ext_ok dbits abits d a m x : dbits <> 0 -> abits <> 0 ->
  apart (Z.of_nat (nlimbs dbits)) (Z.of_nat (nlimbs abits)) d a ->
  holds abits m a x -> leaves dbits d (wrap dbits x) m (__embcc_bi_ext d dbits a abits m).
Proof.
  intros Hd Ha Aa Hx. unfold __embcc_bi_ext. rewrite (negative_ok abits Ha a m x Hx).
  destruct (nlimbs_width abits Ha) as (EK & _). rewrite <- EK.
  pose proof (ext_loop d a (Z.of_nat (nlimbs abits)) (if x <? 0 then u64 (Z.lnot 0) else 0) (nlimbs dbits) m Aa) as L.
  cbv zeta in L. set (m1 := for_up _ _ _ _) in *.
  assert (F : frame (nlimbs dbits) d m m1) by (intros p Hp; rewrite L; by replace (_ && _) with false by lia).
  assert (LI : forall i, 0 <= i < Z.of_nat (nlimbs dbits) ->
    m1 (d + i) = limb_or m a (Z.of_nat (nlimbs abits)) (x <? 0) i).
  { intros i Hi. rewrite L. replace (d + i - d) with i by lia. by replace (_ && _) with true by lia. }
  assert (HU : Forall (is_u 64) (limbs m1 d (nlimbs dbits))).
  { apply limbs_u. intros j Hj. rewrite LI by done. apply (limb_or_bit abits Ha m a x j 0); [done | lia..]. }
  apply norm_leaves; [done | done | | done].
  rewrite (val_of_bits m1 d _ x HU).
  - apply (eqw_weaken (W (nlimbs dbits))); [pose proof (width_K dbits Hd); lia | apply eqw_uwrap; lia].
  - intros i t Hi Ht. rewrite LI by done. apply (limb_or_bit abits Ha); [done | lia..].
Qed.
