(* ===== verification/BitIntMul.v ===== *)
(** * [_BitInt] products, shifts and quotients

    The operations of [BitInt] that build their result in local arrays: schoolbook
    multiplication by limbs, shifts across limbs and the bit-at-a-time division
    ([src/lib/rt/bitint.c]). *)
From stdpp Require Import base numbers list option.
From Stdlib Require Import ZArith Lia.
From S2P Require Import Prelude RtInt128 BitInt BitIntOps.

Local Open Scope Z_scope.
Local Abbreviation W k := (64 * Z.of_nat k).

(** A local array that a loop fills. *)
Lemma fill_array (g : Z -> Z) k r : forall i, 0 <= i < Z.of_nat k -> for_up k 0 (fun i r => upd r i (g i)) r i = g i.
Proof.
  pose proof (for_up_inv (fun j s => forall i, 0 <= i < j -> s i = g i) (fun i r => upd r i (g i)) k 0 r) as H.
  simpl in H. apply H; [|lia]. intros j s Hj IH i Hi. destruct (decide (i = j)) as [->|]; [apply upd_same|].
  rewrite upd_other by done. apply IH. lia.
Qed.

Lemma put_ok d k r m :
  limbs (put d k r m) d k = limbs r 0 k /\ frame k d m (put d k r m).
Proof.
  unfold put. destruct (loop_map0 (fun i _ _ => r i) (fun i m => upd m (d + i) (r i)) d d d k m
    ltac:(done) ltac:(by left) ltac:(by left)) as (L & F).
  split; [|done]. apply limbs_ext. intros j Hj. rewrite L by done. f_equal.
Qed.

(** ** Products *)

Lemma mul64_ok x y : is_u 64 x -> is_u 64 y ->
  let '(lo, hi) := mul64 x y in is_u 64 lo /\ is_u 64 hi /\ lo + 2 ^ 64 * hi = x * y.
Proof.
  intros Hx Hy. pose proof (rt_mul64_law x y Hx Hy) as M. unfold rt_mul64 in M. unfold mul64.
  rewrite (Z.lor_comm (u64 (Z.shiftl _ 32))).
  set (lo := Z.lor _ _) in *.
  assert (E : forall p q r s, u64 (u64 (u64 (p + q) + r) + s) = u64 (p + q + r + s)).
  { intros. apply uwrap_proper. rewrite !eqw_uwrap by lia. done. }
  rewrite E. destruct M as (Hh & Hl & EM). split_and!; try done.
  rewrite <- EM. unfold mk. lia.
Qed.

(** One limb of the multiplier: a row of the product is added at its place. *)
Definition mul_row (m : mem) (b A i j : Z) (cr : Z * mem) : Z * mem :=
  let '(carry, r) := cr in
  let '(lo, hi) := mul64 A (m (b + j)) in
  let s := u64 (r (i + j) + lo) in
  let c1 := b2z (s <? lo) in
  let t := u64 (s + carry) in
  let c2 := b2z (t <? s) in
  (u64 (u64 (hi + c1) + c2), upd r (i + j) t).

Lemma wrap_carry x y : is_u 64 x -> is_u 64 y ->
  is_u 64 (u64 (x + y)) /\ u64 (x + y) + 2 ^ 64 * b2z (u64 (x + y) <? x) = x + y /\
  u64 (x + y) + 2 ^ 64 * b2z (u64 (x + y) <? y) = x + y.
Proof.
  unfold is_u. intros Hx Hy. destruct (Z_lt_dec (x + y) (2 ^ 64)).
  - rewrite u64_id by lia. replace (x + y <? x) with false by lia. replace (x + y <? y) with false by lia.
    simpl. lia.
  - assert (E : u64 (x + y) = x + y - 2 ^ 64).
    { rewrite <- (u64_id (x + y - 2 ^ 64)) by lia. apply uwrap_proper. exists 1. lia. }
    rewrite E. replace (x + y - 2 ^ 64 <? x) with true by lia.
    replace (x + y - 2 ^ 64 <? y) with true by lia. simpl. lia.
Qed.

Lemma mul_row_step m b A i j carry (r : mem) : is_u 64 A -> is_u 64 (m (b + j)) -> is_u 64 (r (i + j)) -> is_u 64 carry ->
  let '(carry', r') := mul_row m b A i j (carry, r) in
  is_u 64 carry' /\ exists t, r' = upd r (i + j) t /\ is_u 64 t /\
    t + 2 ^ 64 * carry' = r (i + j) + A * m (b + j) + carry.
Proof.
  intros HA HB HR HC. unfold mul_row. pose proof (mul64_ok A (m (b + j)) HA HB) as M.
  destruct (mul64 A (m (b + j))) as [lo hi]. destruct M as (Hl & Hh & E).
  destruct (wrap_carry (r (i + j)) lo HR Hl) as (Hs & _ & Es). set (s := u64 (r (i + j) + lo)) in *.
  destruct (wrap_carry s carry Hs HC) as (Ht & Et & _). set (t := u64 (s + carry)) in *.
  set (c1 := b2z (s <? lo)) in *. set (c2 := b2z (t <? s)) in *.
  assert (H12 : 0 <= c1 <= 1 /\ 0 <= c2 <= 1)
    by (unfold c1, c2; destruct (s <? lo), (t <? s); simpl; lia).
  unfold is_u in *.
  assert (AB : A * m (b + j) <= (2 ^ 64 - 1) * (2 ^ 64 - 1)) by (apply Z.mul_le_mono_nonneg; lia).
  assert (Rc : 0 <= hi + c1 + c2 < 2 ^ 64) by lia.
  rewrite (u64_id (hi + c1)), u64_id by lia. split; [lia|]. exists t. split_and!; try done; lia.
Qed.

Lemma mul_row_loop m b A i n j carry r : is_u 64 A -> is_u 64 carry ->
  Forall (is_u 64) (limbs m (b + j) n) -> Forall (is_u 64) (limbs r (i + j) n) ->
  let '(carry', r') := for_up n j (mul_row m b A i) (carry, r) in
  is_u 64 carry' /\ Forall (is_u 64) (limbs r' (i + j) n) /\ frame n (i + j) r r' /\
  val (limbs r' (i + j) n) + 2 ^ W n * carry'
  = val (limbs r (i + j) n) + A * val (limbs m (b + j) n) + carry.
Proof.
  intros HA. revert j carry r. induction n as [|n IH]; intros j carry r HC HB HR; cbn [for_up limbs val].
  - split_and!; [done | constructor | by intros p _ | simpl; lia].
  - cbn [limbs] in HB, HR. apply Forall_cons_1 in HB as [Hb HB], HR as [Hr HR].
    pose proof (mul_row_step m b A i j carry r HA Hb Hr HC) as S.
    destruct (mul_row m b A i j (carry, r)) as [c1 r1]. destruct S as (Hc1 & t & -> & Ht & Et).
    assert (E1 : limbs (upd r (i + j) t) (i + (j + 1)) n = limbs r (i + j + 1) n).
    { rewrite Z.add_assoc. apply limbs_ext. intros p Hp. apply upd_other. lia. }
    specialize (IH (j + 1) c1 (upd r (i + j) t) Hc1). rewrite E1 in IH.
    rewrite (Z.add_assoc b j 1), (Z.add_assoc i j 1) in IH. specialize (IH HB HR).
    destruct (for_up n (j + 1) _ _) as [c2 r2].
    destruct IH as (Hc2 & HU & F & V).
    assert (E2 : r2 (i + j) = t) by (rewrite F by lia; apply upd_same).
    rewrite E2. split_and!; try done.
    + by constructor.
    + intros p Hp. rewrite F by lia. apply upd_other. lia.
    + rewrite pow_W_S. lia.
Qed.

Section Mul.
Context (bits : Z) (Hbits : bits <> 0).
Local Abbreviation K := (nlimbs bits).

(** After [i] rows: the product with the low [i] limbs, to the array's end. *)
Lemma mul_rows m a b (r : mem) i : Forall (is_u 64) (limbs m a K) -> Forall (is_u 64) (limbs m b K) ->
  0 <= i < Z.of_nat K -> Forall (is_u 64) (limbs r 0 K) ->
  eqw (W K) (val (limbs r 0 K)) (val (limbs m a (Z.to_nat i)) * val (limbs m b K)) ->
  let r' := (for_up (K - Z.to_nat i) 0 (mul_row m b (m (a + i)) i) (0, r)).2 in
  Forall (is_u 64) (limbs r' 0 K) /\
  eqw (W K) (val (limbs r' 0 K)) (val (limbs m a (Z.to_nat (i + 1))) * val (limbs m b K)).
Proof.
  intros HA HB Hi HR E. set (n := Z.to_nat i). set (l := (K - n)%nat).
  assert (EK : K = (n + l)%nat) by lia.
  assert (Ha : is_u 64 (m (a + i))) by (apply (proj1 (limbs_u m a K) HA); lia).
  assert (Esplit : forall x c, limbs x c K = limbs x c n ++ limbs x (c + i) l).
  { intros x c. rewrite EK, limbs_app. do 2 f_equal. lia. }
  assert (Esplit' : forall x c, limbs x c K = limbs x c l ++ limbs x (c + Z.of_nat l) n).
  { intros x c. rewrite EK, Nat.add_comm, limbs_app. done. }
  pose proof HR as HR0. rewrite Esplit in HR. apply Forall_app in HR as [HR1 HR2].
  pose proof HB as HB0. rewrite Esplit' in HB. apply Forall_app in HB as [HB1 _].
  pose proof (mul_row_loop m b (m (a + i)) i l 0 0 r Ha ltac:(unfold is_u; lia)) as L.
  rewrite !Z.add_0_r in L. rewrite Z.add_0_l in HR2. specialize (L HB1 HR2).
  destruct (for_up l 0 _ _) as [c r']. cbn [snd].
  destruct L as (_ & HU & F & V).
  assert (E1 : limbs r' 0 n = limbs r 0 n) by (apply limbs_ext; intros j Hj; apply F; lia).
  split; [rewrite Esplit, Z.add_0_l, E1; by apply Forall_app|].
  rewrite Esplit in E. rewrite (Esplit r'), E1, val_app, limbs_length in *. rewrite !Z.add_0_l in *.
  replace (Z.to_nat (i + 1)) with (n + 1)%nat by lia. rewrite limbs_app, val_app, limbs_length.
  replace (Z.of_nat n) with i in * by lia. cbn [limbs val]. rewrite Z.mul_0_r, Z.add_0_r.
  set (P := 2 ^ (64 * i)) in *. set (B := val (limbs m b K)) in *.
  assert (EB : B = val (limbs m b l) + 2 ^ W l * val (limbs m (b + Z.of_nat l) n))
    by (unfold B; by rewrite Esplit', val_app, limbs_length).
  assert (HK : W K = 64 * i + W l) by (rewrite EK; unfold n; lia).
  assert (PP : 2 ^ W K = P * 2 ^ W l) by (unfold P; rewrite <- Z.pow_add_r by lia; f_equal; lia).
  destruct E as (q & E). exists (q - c - m (a + i) * val (limbs m (b + Z.of_nat l) n)).
  assert (EY : val (limbs r' i l) = val (limbs r i l) + m (a + i) * val (limbs m b l) - 2 ^ W l * c) by lia.
  rewrite EY, PP in *.
  transitivity (val (limbs r 0 n) + P * val (limbs r i l) + P * (m (a + i) * val (limbs m b l) - 2 ^ W l * c));
    [ring|]. rewrite E, EB. fold n. ring.
Qed.

Lemma bi_mul_ok d a b m x y : holds bits m a x -> holds bits m b y ->
  leaves bits d (wrap bits (x * y)) m (__embcc_bi_mul d a b bits m).
Proof using Hbits.
  intros Hx Hy. pose proof (holds_limbs _ _ _ _ Hx) as Ux. pose proof (holds_limbs _ _ _ _ Hy) as Uy.
  unfold __embcc_bi_mul. set (r0 := for_up K 0 (fun i r => upd r i 0) (fun _ => 0)).
  assert (R0 : limbs r0 0 K = limbs (fun _ => 0) 0 K).
  { apply limbs_ext. intros j Hj. rewrite Z.add_0_l. by apply (fill_array (fun _ => 0)). }
  pose proof (for_up_inv (fun i r => Forall (is_u 64) (limbs r 0 K) /\
    eqw (W K) (val (limbs r 0 K)) (val (limbs m a (Z.to_nat i)) * val (limbs m b K)))
    (fun i r => (for_up (K - Z.to_nat i) 0 (mul_row m b (m (a + i)) i) (0, r)).2) K 0 r0) as H.
  cbv beta in H. rewrite Z.add_0_l, Nat2Z.id in H. destruct H as (HU & V).
  - intros j r Hj [HU V]. by apply mul_rows.
  - rewrite R0. split; [apply limbs_u; intros; unfold is_u; lia|].
    assert (Z0 : forall k i, val (limbs (fun _ => 0) i k) = 0).
    { induction k as [|k IH]; intros i; cbn [limbs val]; [done|]. rewrite IH. done. }
    rewrite Z0. simpl. by rewrite Z.mul_0_l.
  - match goal with |- leaves _ _ _ _ (norm _ _ (put _ _ ?q _)) => set (r := q) in * end.
    change (for_up K 0 (fun i r => (for_up (K - Z.to_nat i) 0 (mul_row m b (m (a + i)) i) (0, r)).2) r0)
      with r in HU, V.
    destruct (put_ok d K r m) as (L & F). apply norm_leaves; [done | by rewrite L | | done].
    rewrite L. apply (eqw_weaken (W K)); [pose proof (width_K bits Hbits); lia|].
    rewrite V. by rewrite (holds_full bits Hbits _ _ _ Hx), (holds_full bits Hbits _ _ _ Hy).
Qed.
End Mul.

(** ** Shifts *)

Lemma testbit_u64_shl x n t : 0 <= n -> 0 <= t < 64 ->
  Z.testbit (u64 (Z.shiftl x n)) t = if t <? n then false else Z.testbit x (t - n).
Proof.
  intros Hn Ht. unfold uwrap. rewrite Z.mod_pow2_bits_low, Z.shiftl_spec by lia.
  destruct (Z.ltb_spec t n); [apply Z.testbit_neg_r; lia | done].
Qed.

Lemma testbit_high x t : is_u 64 x -> 64 <= t -> Z.testbit x t = false.
Proof.
  intros Hx Ht. rewrite <- (uwrap_small 64 x Hx). unfold uwrap. apply Z.mod_pow2_bits_high. lia.
Qed.

Section Shifts.
Context (bits : Z) (Hbits : bits <> 0) (Hlong : width bits < 2 ^ 63).
Local Abbreviation K := (nlimbs bits).

(** Limbs that are written from a local array and have the bits of [v]. *)
Lemma put_bits d m v (g : Z -> Z) :
  (forall i, 0 <= i < Z.of_nat K -> is_u 64 (g i)) ->
  (forall i t, 0 <= i < Z.of_nat K -> 0 <= t < 64 -> Z.testbit (g i) t = Z.testbit v (64 * i + t)) ->
  leaves bits d (wrap bits v) m
    (norm d bits (put d K (for_up K 0 (fun i r => upd r i (g i)) (fun _ => 0)) m)).
Proof using Hbits.
  intros HU HB. set (r := for_up K 0 _ _). destruct (put_ok d K r m) as (L & F).
  assert (E : forall i, 0 <= i < Z.of_nat K -> r (0 + i) = g i)
    by (intros i Hi; rewrite Z.add_0_l; by apply fill_array).
  assert (U : Forall (is_u 64) (limbs r 0 K)) by (apply limbs_u; intros j Hj; rewrite E by done; by apply HU).
  apply norm_leaves; [done | by rewrite L | | done]. rewrite L, (val_of_bits r 0 K v U).
  - apply (eqw_weaken (W K)); [pose proof (width_K bits Hbits); lia | apply eqw_uwrap; lia].
  - intros i t Hi Ht. rewrite E by done. by apply HB.
Qed.

Lemma limbs_long : u64 (64 * Z.of_nat K) = 64 * Z.of_nat K.
Proof using Hbits Hlong. destruct (nlimbs_width bits Hbits) as (_ & _ & H). apply u64_id. lia. Qed.

Lemma bi_shl_ok d a m x count : holds bits m a x -> 0 <= count ->
  leaves bits d (wrap bits (x * 2 ^ count)) m (__embcc_bi_shl d a count bits m).
Proof using Hbits Hlong.
  intros Hx Hc. pose proof (proj1 (limbs_u m a K) (holds_limbs _ _ _ _ Hx)) as HU.
  unfold __embcc_bi_shl. rewrite limbs_long.
  set (ls := if 64 * Z.of_nat K <=? count then Z.of_nat K else count / 64).
  pose proof (Z.div_mod count 64 ltac:(lia)) as D. pose proof (Z.mod_pos_bound count 64 ltac:(lia)) as Rb.
  pose proof (Z.div_pos count 64 Hc ltac:(lia)). set (bs := count mod 64) in *.
  assert (Hls : (64 * Z.of_nat K <= count /\ ls = Z.of_nat K) \/ (ls = count / 64 /\ 0 <= ls))
    by (unfold ls; destruct (Z.leb_spec (64 * Z.of_nat K) count); auto).
  apply put_bits.
  - intros i Hi. destruct (Z.leb_spec ls i); [|unfold is_u; lia].
    destruct (negb (bs =? 0) && (ls <? i)) eqn:B; [|apply uwrap_range; lia].
    apply lor_is_u; [lia | apply uwrap_range; lia|]. rewrite Z.shiftr_div_pow2 by lia.
    apply shr_is_u; [apply HU; lia | lia].
  - intros i t Hi Ht. rewrite <- Z.shiftl_mul_pow2, Z.shiftl_spec by lia.
    destruct (Z.leb_spec ls i) as [Hl|Hl].
    2: { rewrite Z.bits_0, Z.testbit_neg_r; [done | lia]. }
    destruct Hls as [[? ?]|[Hls H0]]; [lia|].
    assert (E0 : Z.testbit (u64 (Z.shiftl (m (a + (i - ls))) bs)) t =
                 if t <? bs then false else Z.testbit x (64 * i + t - count)).
    { rewrite testbit_u64_shl by lia. destruct (Z.ltb_spec t bs); [done|].
      rewrite (holds_bit bits m a x) by (done || lia). f_equal. lia. }
    destruct (negb (bs =? 0) && (ls <? i)) eqn:B.
    + rewrite Z.lor_spec, E0, Z.shiftr_spec by lia. destruct (Z.ltb_spec t bs); simpl.
      * rewrite Z.sub_1_r in *. rewrite <- Z.sub_1_r.
        rewrite (holds_bit bits m a x) by (done || lia). f_equal. lia.
      * rewrite (testbit_high (m (a + (i - ls - 1)))) by (lia || (apply HU; lia)). apply orb_false_r.
    + rewrite E0. destruct (Z.ltb_spec t bs); [|done]. rewrite Z.testbit_neg_r; [done|]. lia.
Qed.

Lemma bi_shr_ok d a m x count : holds bits m a x -> 0 <= count ->
  leaves bits d (wrap bits (x / 2 ^ count)) m (__embcc_bi_shr d a count bits m).
Proof using Hbits Hlong.
  intros Hx Hc. unfold __embcc_bi_shr. rewrite limbs_long, (negative_ok bits Hbits a m x Hx).
  set (ls := if 64 * Z.of_nat K <=? count then Z.of_nat K else count / 64).
  pose proof (Z.div_mod count 64 ltac:(lia)) as D. pose proof (Z.mod_pos_bound count 64 ltac:(lia)) as Rb.
  pose proof (Z.div_pos count 64 Hc ltac:(lia)). set (bs := count mod 64) in *.
  assert (Hls : (64 * Z.of_nat K <= count /\ ls = Z.of_nat K) \/ (ls = count / 64 /\ 0 <= ls))
    by (unfold ls; destruct (Z.leb_spec (64 * Z.of_nat K) count); auto).
  set (X := limb_or m a (Z.of_nat K) (x <? 0)).
  assert (XU : forall i, 0 <= i -> is_u 64 (X i))
    by (intros i Hi; apply (limb_or_bit bits Hbits m a x i 0); [done | lia..]).
  assert (XB : forall i t, 0 <= i -> 0 <= t < 64 -> Z.testbit (X i) t = Z.testbit x (64 * i + t))
    by (intros; by apply limb_or_bit).
  change (leaves bits d (wrap bits (x / 2 ^ count)) m (norm d bits (put d K (for_up K 0 (fun i r => upd r i
    (if negb (bs =? 0) then Z.lor (Z.shiftr (X (i + ls)) bs) (u64 (Z.shiftl (X (i + ls + 1)) (64 - bs)))
     else X (i + ls))) (fun _ => 0)) m))).
  (* a bit of the shifted number, whether or not the count is past the width *)
  assert (SB : forall i t, 0 <= i -> 0 <= t -> Z.testbit x (64 * (i + ls) + (t + bs)) = Z.testbit (x / 2 ^ count) (64 * i + t)).
  { intros i t Hi Ht. rewrite Z.div_pow2_bits by lia. destruct Hls as [[Hbig Els]|[Els _]]; [|f_equal; lia].
    pose proof (width_K bits Hbits). rewrite !(holds_sign bits Hbits m a x) by (done || lia || (right; lia)).
    done. }
  apply put_bits.
  - intros i Hi. destruct (negb (bs =? 0)); [|apply XU; lia].
    apply lor_is_u; [lia | | apply uwrap_range; lia]. rewrite Z.shiftr_div_pow2 by lia.
    apply shr_is_u; [apply XU|]; lia.
  - intros i t Hi Ht. rewrite <- SB by lia. destruct (Z.eqb_spec bs 0) as [B0|B0]; simpl.
    + rewrite XB by lia. f_equal. lia.
    + rewrite Z.lor_spec, Z.shiftr_spec, testbit_u64_shl by lia. destruct (Z.ltb_spec t (64 - bs)).
      * rewrite orb_false_r. apply XB; lia.
      * rewrite testbit_high by (lia || (apply XU; lia)). simpl. rewrite XB by lia. f_equal. lia.
Qed.
End Shifts.
