(* ===== verification/BitIntDiv.v ===== *)
(** * [_BitInt] quotients and remainders

    The bit-at-a-time division of [src/lib/rt/bitint.c] on local arrays of limbs:
    the remainder is shifted up with the next bit of the dividend, compared from
    the top limb and the divisor taken off with its borrows. It is shown to be the
    restoring division of [Prelude], and [divmod] to be C's truncated one. *)
From stdpp Require Import base numbers list option.
From Stdlib Require Import ZArith Lia.
From S2P Require Import Prelude BitInt BitIntOps BitIntMul.

Local Open Scope Z_scope.
Local Abbreviation W k := (64 * Z.of_nat k).

(** A loop over one local array, each limb with a carry in and out that balances. *)
Lemma array_pass (f : Z -> Z -> Z -> Z * Z) (h : Z -> Z -> Z) s k : forall i c (r : mem),
  (forall j x c, i <= j < i + Z.of_nat k -> is_u 64 x -> 0 <= c <= 1 ->
     is_u 64 (f j x c).1 /\ 0 <= (f j x c).2 <= 1 /\
     (f j x c).1 + s * (2 ^ 64 * (f j x c).2) = h j x + s * c) ->
  Forall (is_u 64) (limbs r i k) -> 0 <= c <= 1 ->
  let cr := for_up k i (fun j '(c, r) => ((f j (r j) c).2, upd r j (f j (r j) c).1)) (c, r) in
  Forall (is_u 64) (limbs cr.2 i k) /\ 0 <= cr.1 <= 1 /\ (forall j, ~ i <= j < i + Z.of_nat k -> cr.2 j = r j) /\
  val (limbs cr.2 i k) + s * (2 ^ W k * cr.1) = val (limbs (fun j => h j (r j)) i k) + s * c.
Proof.
  induction k as [|k IH]; intros i c r Hf HR Hc; cbn [for_up limbs val].
  - split_and!; [constructor | simpl; lia.. | done | simpl; lia].
  - cbn [limbs] in HR. apply Forall_cons_1 in HR as [Hx HR].
    destruct (Hf i (r i) c ltac:(lia) Hx Hc) as (Ht & Hc1 & E). set (t := (f i (r i) c).1) in *.
    set (c1 := (f i (r i) c).2) in *.
    assert (E0 : forall g : Z -> Z -> Z, limbs (fun j => g j (upd r i t j)) (i + 1) k = limbs (fun j => g j (r j)) (i + 1) k).
    { intros g. apply limbs_ext. intros j Hj. by rewrite upd_other by lia. }
    specialize (IH (i + 1) c1 (upd r i t)). cbv zeta in IH.
    rewrite (E0 h) in IH.
    assert (E1 : limbs (upd r i t) (i + 1) k = limbs r (i + 1) k) by exact (E0 (fun _ x => x)).
    destruct IH as (HU & Hc2 & F & V); [intros; apply Hf; (done || lia) | | done|].
    { rewrite E1. done. }
    assert (E2 : (for_up k (i + 1) (fun j '(c, r) => ((f j (r j) c).2, upd r j (f j (r j) c).1)) (c1, upd r i t)).2 i = t)
      by (rewrite F by lia; apply upd_same).
    rewrite E2. split_and!; [by constructor | apply Hc2.. | |].
    + intros j Hj. rewrite F by lia. apply upd_other. lia.
    + rewrite pow_W_S. clear -V E. fold t c1. fold t c1 in V. set (cr := for_up _ _ _ _) in *.
      transitivity (t + 2 ^ 64 * (val (limbs cr.2 (i + 1) k) + s * (2 ^ W k * cr.1))); [ring|].
      rewrite V. lia.
Qed.

Lemma val_lin p q (x y : Z -> Z) i k :
  val (limbs (fun j => p * x j + q * y j) i k) = p * val (limbs x i k) + q * val (limbs y i k).
Proof. revert i. induction k as [|k IH]; intros i; cbn [limbs val]; [lia|]. rewrite IH. ring. Qed.

Lemma val_ones i k : val (limbs (fun _ => 2 ^ 64 - 1) i k) = 2 ^ W k - 1.
Proof. revert i. induction k as [|k IH]; intros i; cbn [limbs val]; [done|]. rewrite IH, pow_W_S. ring. Qed.

(** ** The three loops of the division *)

Lemma negate_ok k x : Forall (is_u 64) (limbs x 0 k) ->
  Forall (is_u 64) (limbs (negate k x) 0 k) /\ eqw (W k) (val (limbs (negate k x) 0 k)) (- val (limbs x 0 k)).
Proof.
  intros HU. unfold negate.
  destruct (array_pass (fun _ x c => let t := u64 (u64 (Z.lnot x) + c) in (t, b2z (negb (c =? 0) && (t =? 0))))
    (fun _ x => (-1) * x + 1 * (2 ^ 64 - 1)) 1 k 0 1 x) as (U & Hc & _ & V); [|done | lia|].
  - intros j y c _ Hy Hc. destruct (carry_neg y c Hy Hc) as (A & B & C). cbv zeta. cbn [fst snd].
    split_and!; [done | lia.. |]. lia.
  - set (cr := for_up _ _ _ _) in U, Hc, V. change (for_up _ _ _ _) with cr. split; [done|].
    rewrite (val_lin (-1) 1 x (fun _ => 2 ^ 64 - 1)), val_ones in V. exists (1 - cr.1). lia.
Qed.

(** [r = r << 1 | bit]. *)
Lemma shift_in_ok k bit (r : mem) : Forall (is_u 64) (limbs r 0 k) -> 0 <= bit <= 1 ->
  let cr := for_up k 0 (fun i '(carry, r) =>
    let top := Z.shiftr (r i) 63 in (top, upd r i (Z.lor (u64 (Z.shiftl (r i) 1)) carry))) (bit, r) in
  Forall (is_u 64) (limbs cr.2 0 k) /\ 0 <= cr.1 <= 1 /\
  val (limbs cr.2 0 k) + 2 ^ W k * cr.1 = 2 * val (limbs r 0 k) + bit.
Proof.
  intros HU Hb. destruct (array_pass (fun _ x c => (Z.lor (u64 (Z.shiftl x 1)) c, Z.shiftr x 63))
    (fun _ x => 2 * x + 0 * x) 1 k 0 bit r) as (U & Hc & _ & V); [|done | done|].
  - intros j x c _ Hx Hc. cbn [fst snd]. unfold is_u in *. rewrite Z.shiftl_mul_pow2, Z.shiftr_div_pow2 by lia.
    change (2 ^ 1) with 2.
    pose proof (field_lor 64 1 x c ltac:(lia) ltac:(lia)) as FL. change (2 ^ 1) with 2 in FL.
    rewrite FL.
    assert (E : uwrap 64 (x * 2 + c) = x * 2 + c - 2 ^ 64 * (x / 2 ^ 63)).
    { unfold uwrap. symmetry. apply Z.mod_unique with (x / 2 ^ 63); [left|]; 
      pose proof (Z.div_mod x (2 ^ 63) ltac:(lia)); pose proof (Z.mod_pos_bound x (2 ^ 63) ltac:(lia)); lia. }
    pose proof (uwrap_range 64 (x * 2 + c) ltac:(lia)) as R. unfold is_u in R.
    assert (0 <= x / 2 ^ 63 <= 1).
    { split; [apply Z.div_pos; lia|]. apply Z.lt_succ_r, Z.div_lt_upper_bound; lia. }
    split_and!; lia.
  - set (cr := for_up _ _ _ _) in U, Hc, V. change (for_up _ _ _ _) with cr.
    rewrite (val_lin 2 0) in V. split_and!; [done | apply Hc.. | lia].
Qed.

(** [r -= b] with the borrows. *)
Lemma take_off_ok k b (r : mem) : Forall (is_u 64) (limbs r 0 k) -> Forall (is_u 64) (limbs b 0 k) ->
  let cr := for_up k 0 (fun i '(br, r) =>
      let x := r i in
      let y := b i in
      (Z.lor (b2z (x <? y)) (Z.land (b2z (x =? y)) br), upd r i (u64 (x - y - br)))) (0, r) in
  Forall (is_u 64) (limbs cr.2 0 k) /\ 0 <= cr.1 <= 1 /\
  val (limbs cr.2 0 k) - 2 ^ W k * cr.1 = val (limbs r 0 k) - val (limbs b 0 k).
Proof.
  intros HU HB. destruct (array_pass (fun i x br => (u64 (x - b i - br),
      Z.lor (b2z (x <? b i)) (Z.land (b2z (x =? b i)) br)))
    (fun i x => 1 * x + (-1) * b i) (-1) k 0 0 r) as (U & Hc & _ & V); [|done | lia|].
  - intros j x c Hj Hx Hc. assert (Hb : is_u 64 (b j)) by (by apply (proj1 (limbs_u b 0 k) HB)).
    destruct (borrow_sub x (b j) c Hx Hb Hc) as (A & B & C). cbn [fst snd]. split_and!; [done | apply B.. | lia].
  - set (cr := for_up _ _ _ _) in U, Hc, V. change (for_up _ _ _ _) with cr.
    rewrite (val_lin 1 (-1)) in V. split_and!; [done | apply Hc.. | lia].
Qed.

(** [q |= 1 << bit], across limbs. *)
Lemma set_bit_ok k (q : mem) j : Forall (is_u 64) (limbs q 0 k) -> 0 <= j < W k ->
  val (limbs q 0 k) mod 2 ^ (j + 1) = 0 ->
  let q' := upd q (j / 64) (Z.lor (q (j / 64)) (u64 (Z.shiftl 1 (j mod 64)))) in
  Forall (is_u 64) (limbs q' 0 k) /\ val (limbs q' 0 k) = val (limbs q 0 k) + 2 ^ j.
Proof.
  intros HU Hj HZ q'. pose proof (Z.div_mod j 64 ltac:(lia)) as D.
  pose proof (Z.mod_pos_bound j 64 ltac:(lia)) as R.
  pose proof (proj1 (limbs_u q 0 k) HU) as HQ. cbv beta in HQ.
  assert (U : Forall (is_u 64) (limbs q' 0 k)).
  { apply limbs_u. intros i Hi. unfold q'. destruct (decide (0 + i = j / 64)) as [->|].
    - rewrite upd_same. apply lor_is_u; [lia | | apply uwrap_range; lia]. apply (HQ (j / 64)). lia.
    - rewrite upd_other by done. by apply HQ. }
  split; [done|]. rewrite <- (lor_bit_add (val (limbs q 0 k)) j) by (done || lia).
  rewrite (val_of_bits q' 0 k (Z.lor (val (limbs q 0 k)) (2 ^ j)) U).
  - apply uwrap_small. apply lor_is_u; [lia | |].
    + pose proof (val_range _ HU) as RV. by rewrite limbs_length in RV.
    + unfold is_u. pose proof (pow2_pos j ltac:(lia)). split; [lia|]. apply Z.pow_lt_mono_r; lia.
  - intros i t Hi Ht. rewrite Z.lor_spec, (val_testbit q 0 k) by (done || lia).
    replace ((64 * i + t) / 64) with i by (apply Z.div_unique with t; lia).
    replace ((64 * i + t) mod 64) with t by (apply Z.mod_unique with i; lia).
    rewrite Z.pow2_bits_eqb by lia. unfold q'. rewrite Z.add_0_l. destruct (decide (i = j / 64)) as [->|N].
    + rewrite upd_same, Z.lor_spec. f_equal. rewrite testbit_u64_shl by lia.
      destruct (Z.ltb_spec t (j mod 64)), (Z.eqb_spec j (64 * (j / 64) + t)); try lia; try done.
      * replace (t - j mod 64) with 0 by lia. done.
      * change 1 with (2 ^ 0). rewrite Z.pow2_bits_eqb by lia. destruct (Z.eqb_spec 0 (t - j mod 64)); [lia | done].
    + rewrite upd_other by done. replace (j =? 64 * i + t) with false; [by rewrite orb_false_r|].
      symmetry. apply Z.eqb_neq. intros E. apply N. rewrite E. apply Z.div_unique with t; lia.
Qed.

(** ** The division *)

Section Udivmod.
Context (k : nat) (a b : mem).
Context (Ha : Forall (is_u 64) (limbs a 0 k)) (Hb : Forall (is_u 64) (limbs b 0 k)).
Local Abbreviation num x := (val (limbs x 0 k)).
Context (Hpos : 0 < num b).

Definition udivmod_inv (bit : Z) (qr : (Z -> Z) * (Z -> Z)) : Prop :=
  Forall (is_u 64) (limbs qr.1 0 k) /\ Forall (is_u 64) (limbs qr.2 0 k) /\
  rdiv_inv bit (num a) (num b) (num qr.1) (num qr.2).

Lemma udivmod_step_ok bit qr : 0 <= bit < W k ->
  udivmod_inv (bit + 1) qr -> udivmod_inv bit (udivmod_step k a b bit qr).
Proof using Ha Hb Hpos.
  destruct qr as [q r]. intros Hbit (Uq & Ur & I). cbn [fst snd] in *. unfold udivmod_step.
  assert (Ecarry : Z.land (Z.shiftr (a (bit / 64)) (bit mod 64)) 1 = (num a / 2 ^ bit) mod 2).
  { rewrite bit_land by (apply Z.mod_pos_bound; lia). rewrite <- !Z.testbit_spec' by (lia || apply Z.mod_pos_bound; lia).
    by rewrite val_testbit by (done || lia). }
  rewrite Ecarry. pose proof (Z.mod_pos_bound (num a / 2 ^ bit) 2 ltac:(lia)) as Rc.
  pose proof (shift_in_ok k ((num a / 2 ^ bit) mod 2) r Ur ltac:(lia)) as S.
  match goal with |- context [for_up k 0 ?f ?s] => set (cr := for_up k 0 f s) end.
  change (let cr := cr in Forall (is_u 64) (limbs cr.2 0 k) /\ 0 <= cr.1 <= 1 /\
    num cr.2 + 2 ^ W k * cr.1 = 2 * num r + (num a / 2 ^ bit) mod 2) in S.
  clearbody cr. destruct cr as [c r1]. cbn [fst snd] in S. destruct S as (U1 & Hc & E1).
  pose proof (rdiv_inv_step (num a) (num b) bit (num q) (num r) Hpos ltac:(lia) I) as St. cbv zeta in St.
  rewrite ucmp_ok by done.
  pose proof (val_range _ U1) as R1. pose proof (val_range _ Hb) as RB. rewrite limbs_length in R1, RB.
  destruct I as (Rr & _ & Zq & _).
  assert (T : (negb (c =? 0) || (0 <=? cmp3 (num r1) (num b))) = (num b <=? 2 * num r + (num a / 2 ^ bit) mod 2)).
  { rewrite <- E1. unfold cmp3. destruct (decide (c = 0)) as [->|].
    - simpl. rewrite Z.mul_0_r, Z.add_0_r. destruct (Z.ltb_spec (num r1) (num b)), (Z.eqb_spec (num r1) (num b)); lia.
    - replace c with 1 by lia. simpl. symmetry. apply Z.leb_le. lia. }
  rewrite T. destruct (Z.leb_spec (num b) (2 * num r + (num a / 2 ^ bit) mod 2)) as [L|L].
  - pose proof (take_off_ok k b r1 U1 Hb) as S.
    match goal with |- context [for_up k 0 ?f ?s] => set (cr := for_up k 0 f s) end.
    change (let cr := cr in Forall (is_u 64) (limbs cr.2 0 k) /\ 0 <= cr.1 <= 1 /\
      num cr.2 - 2 ^ W k * cr.1 = num r1 - num b) in S.
    clearbody cr. destruct cr as [br r2]. cbn [fst snd] in S. destruct S as (U2 & Hbr & E2).
    pose proof (val_range _ U2) as R2. rewrite limbs_length in R2.
    destruct (set_bit_ok k q bit Uq Hbit Zq) as (U3 & E3).
    split_and!; [done | done |]. cbn [fst snd]. rewrite E3.
    replace (num r2) with (2 * num r + (num a / 2 ^ bit) mod 2 - num b); [done|].
    assert (c = br) by nia. subst br. lia.
  - split_and!; [done | done |]. cbn [fst snd]. replace (num r1) with (2 * num r + (num a / 2 ^ bit) mod 2); [done|].
    assert (c = 0) by nia. subst c. lia.
Qed.

Lemma udivmod_ok : let '(q, r) := udivmod k a b in
  Forall (is_u 64) (limbs q 0 k) /\ Forall (is_u 64) (limbs r 0 k) /\
  num q = num a / num b /\ num r = num a mod num b.
Proof using Ha Hb Hpos.
  unfold udivmod. set (qr := for_up k 0 _ _).
  assert (Z0 : limbs qr.1 0 k = limbs (fun _ => 0) 0 k /\ limbs qr.2 0 k = limbs (fun _ => 0) 0 k).
  { pose proof (for_up_inv (fun j (s : (Z -> Z) * (Z -> Z)) => forall i, 0 <= i < j -> s.1 i = 0 /\ s.2 i = 0)
      (fun i '(q, r) => (upd q i 0, upd r i 0)) k 0 (fun _ => 0, fun _ => 0)) as H.
    cbv beta in H. rewrite Z.add_0_l in H. fold qr in H.
    assert (G : forall i, 0 <= i < Z.of_nat k -> qr.1 i = 0 /\ qr.2 i = 0).
    { apply H; [|lia]. intros j [q r] Hj IH i Hi. cbn [fst snd]. destruct (decide (i = j)) as [->|].
      - by rewrite !upd_same.
      - rewrite !upd_other by done. apply IH. lia. }
    split; apply limbs_ext; intros j Hj; rewrite Z.add_0_l; by apply G. }
  assert (V0 : num (fun _ => 0) = 0) by exact (val_lin 0 0 (fun _ => 0) (fun _ => 0) 0 k).
  pose proof (val_range _ Ha) as RA. rewrite limbs_length in RA.
  pose proof (for_down_inv udivmod_inv (udivmod_step k a b) (64 * k) qr) as L.
  replace (Z.of_nat (64 * k)) with (W k) in L by lia.
  destruct (for_down (64 * k) (udivmod_step k a b) qr) as [q r]. destruct L as (Uq & Ur & I).
  - intros j s Hj. by apply udivmod_step_ok.
  - destruct Z0 as (Z1 & Z2). unfold udivmod_inv. rewrite Z1, Z2.
    assert (U0 : Forall (is_u 64) (limbs (fun _ => 0) 0 k)) by (apply limbs_u; intros; unfold is_u; lia).
    split_and!; [done..|]. rewrite V0. by apply rdiv_inv_init.
  - cbn [fst snd] in *. destruct I as (Rr & _ & _ & E). rewrite !Z.pow_0_r, !Z.div_1_r in E.
    split_and!; [done | done | |].
    + apply Z.div_unique with (num r); lia.
    + apply Z.mod_unique with (num q); lia.
Qed.
End Udivmod.

(** ** C's quotient and remainder *)

Section Divmod.
Context (bits : Z) (Hbits : bits <> 0).
Local Abbreviation K := (nlimbs bits).
Local Abbreviation num x := (val (limbs x 0 K)).

(** The magnitude of an operand, in a local array. *)
Lemma magnitude_ok m a x (r : mem) : holds bits m a x -> limbs r 0 K = limbs m a K ->
  let r' := if x <? 0 then negate K r else r in
  Forall (is_u 64) (limbs r' 0 K) /\ num r' = Z.abs x.
Proof using Hbits.
  intros Hx E. pose proof (holds_limbs bits _ _ _ Hx) as HU. rewrite <- E in HU.
  pose proof (holds_val bits Hbits m a x Hx) as V. rewrite <- E in V.
  destruct (holds_range bits Hbits m a x Hx) as (R & _).
  pose proof (width_K bits Hbits). pose proof (pow2_half (W K) ltac:(lia)).
  destruct (Z.ltb_spec x 0); [|split; [done | lia]].
  destruct (negate_ok K r HU) as (U & N). split; [done|].
  pose proof (val_range _ U) as RU. rewrite limbs_length in RU.
  rewrite V in N. rewrite <- (uwrap_small (W K) (num (negate K r))) by done.
  rewrite (uwrap_proper (W K) _ _ N). replace (- (x + 2 ^ W K)) with (- x + (-1) * 2 ^ W K) by lia.
  rewrite uwrap_add_mul, uwrap_small by (unfold is_u; lia). lia.
Qed.

(** A result with its sign. *)
Lemma signed_result_ok r v (p : bool) : Forall (is_u 64) (limbs r 0 K) -> num r = v ->
  let r' := if p then negate K r else r in
  Forall (is_u 64) (limbs r' 0 K) /\ eqw (W K) (num r') (if p then - v else v).
Proof. intros HU <-. destruct p; [by apply negate_ok | split; [done|]; done]. Qed.

Lemma divmod_ok d a b m x y (rem : bool) : holds bits m a x -> holds bits m b y -> y <> 0 ->
  leaves bits d (wrap bits (if rem then Z.rem x y else Z.quot x y)) m (divmod d a b bits rem m).
Proof using Hbits.
  intros Hx Hy Ny. unfold divmod. rewrite (negative_ok bits Hbits a m x Hx), (negative_ok bits Hbits b m y Hy).
  pose proof (for_up_inv (fun j (s : (Z -> Z) * (Z -> Z)) => forall i, 0 <= i < j -> s.1 i = m (a + i) /\ s.2 i = m (b + i))
    (fun i '(x, y) => (upd x i (m (a + i)), upd y i (m (b + i)))) K 0 (fun _ => 0, fun _ => 0)) as H.
  cbv beta in H. rewrite Z.add_0_l in H. destruct (for_up K 0 _ _) as [x0 y0]. cbn [fst snd] in H.
  assert (H0 : forall i, 0 <= i < Z.of_nat K -> x0 i = m (a + i) /\ y0 i = m (b + i)).
  { apply H; [|lia]. intros j [p q] Hj IH i Hi. cbn [fst snd]. destruct (decide (i = j)) as [->|].
    - by rewrite !upd_same.
    - rewrite !upd_other by done. apply IH. lia. }
  assert (Ex : limbs x0 0 K = limbs m a K) by (apply limbs_ext; intros j Hj; rewrite Z.add_0_l; by apply H0).
  assert (Ey : limbs y0 0 K = limbs m b K) by (apply limbs_ext; intros j Hj; rewrite Z.add_0_l; by apply H0).
  destruct (magnitude_ok m a x x0 Hx Ex) as (Ux & Vx), (magnitude_ok m b y y0 Hy Ey) as (Uy & Vy).
  set (x1 := if x <? 0 then negate K x0 else x0) in *. set (y1 := if y <? 0 then negate K y0 else y0) in *.
  pose proof (udivmod_ok K x1 y1 Ux Uy ltac:(lia)) as U. destruct (udivmod K x1 y1) as [q r].
  destruct U as (Uq & Ur & Vq & Vr). rewrite Vx, Vy in Vq, Vr.
  destruct (signed_result_ok q _ (negb rem && negb (eqb (x <? 0) (y <? 0))) Uq Vq) as (Uq' & Vq').
  destruct (signed_result_ok r _ (rem && (x <? 0)) Ur Vr) as (Ur' & Vr').
  set (q' := if negb rem && _ then negate K q else q) in *. set (r' := if rem && _ then negate K r else r) in *.
  destruct (put_ok d K (fun i => if rem then r' i else q' i) m) as (L & F).
  pose proof (width_K bits Hbits).
  assert (E : limbs (fun i => if rem then r' i else q' i) 0 K = if rem then limbs r' 0 K else limbs q' 0 K)
    by (destruct rem; done).
  rewrite E in L. apply norm_leaves; [done | rewrite L; by destruct rem | | done].
  rewrite L. apply (eqw_weaken (W K)); [lia|]. destruct rem; simpl in Vq', Vr'.
  - rewrite Vr'. apply eq_subrelation; [apply _|]. rewrite Z.rem_mod by done. destruct (Z.ltb_spec x 0).
    + rewrite (Z.sgn_neg x) by done. lia.
    + destruct (decide (x = 0)) as [->|]; [by rewrite Z.mod_0_l by lia|]. rewrite Z.sgn_pos by lia. lia.
  - rewrite Vq'. apply eq_subrelation; [apply _|]. rewrite Z.quot_div by done.
    destruct (decide (x = 0)) as [->|]; [rewrite !Z.div_0_l by lia; by destruct (y <? 0)|].
    destruct (Z.ltb_spec x 0), (Z.ltb_spec y 0); simpl;
      rewrite ?(Z.sgn_neg x), ?(Z.sgn_pos x), ?(Z.sgn_neg y), ?(Z.sgn_pos y) by lia; lia.
Qed.
End Divmod.
