(* ===== verification/BitIntSpec.v ===== *)
(** * What the [_BitInt] run time promises

    The compiler keeps every wide [_BitInt] object in memory and calls the library of
    [BitInt] with the addresses of the operands and of the result. [bi_ins] is one
    such call, over objects of a layout; its meaning on numbers is C's. The library
    is shown to refine it for whole sequences of calls, whatever operand a result
    shares its place with. *)
From stdpp Require Import base numbers list option.
From Stdlib Require Import ZArith Lia.
From S2P Require Import Prelude BitInt BitIntOps BitIntMul BitIntDiv.

Local Open Scope Z_scope.

(** An object: its place and its type, [bits] as the library takes it. *)
Record obj := Obj { addr : Z; bits : Z }.
Definition size (o : obj) : Z := Z.of_nat (nlimbs (bits o)).

(** The objects have a type and do not overlap. *)
Definition layout_ok (L : list obj) : Prop :=
  Forall (fun o => bits o <> 0 /\ width (bits o) < 2 ^ 63) L /\
  forall i j o p, L !! i = Some o -> L !! j = Some p -> i <> j ->
    addr o + size o <= addr p \/ addr p + size p <= addr o.

Inductive bi_un := UCopy | UNot | UNeg | UAddi (k : Z) | UShl (count : Z) | UShr (count : Z).
Inductive bi_bin := BAdd | BSub | BMul | BAnd | BOr | BXor | BDiv | BMod.

(** A call: the numbers are objects of the layout, the first the result. *)
Inductive bi_ins :=
| IUn (op : bi_un) (d a : nat)
| IBin (op : bi_bin) (d a b : nat)
| IFrom64 (d : nat) (v : Z) (sgn : bool)
| IExt (d a : nat).

(** ** The calls on memory *)

Definition call_un (op : bi_un) (d a bits : Z) : mem -> mem :=
  match op with
  | UCopy => __embcc_bi_copy d a bits
  | UNot => __embcc_bi_not d a bits
  | UNeg => __embcc_bi_neg d a bits
  | UAddi k => __embcc_bi_addi d a k bits
  | UShl n => __embcc_bi_shl d a n bits
  | UShr n => __embcc_bi_shr d a n bits
  end.
Definition call_bin (op : bi_bin) (d a b bits : Z) : mem -> mem :=
  match op with
  | BAdd => __embcc_bi_add d a b bits
  | BSub => __embcc_bi_sub d a b bits
  | BMul => __embcc_bi_mul d a b bits
  | BAnd => __embcc_bi_and d a b bits
  | BOr => __embcc_bi_or d a b bits
  | BXor => __embcc_bi_xor d a b bits
  | BDiv => __embcc_bi_div d a b bits
  | BMod => __embcc_bi_mod d a b bits
  end.

Definition no_obj : obj := Obj 0 0.
Definition call (L : list obj) (i : bi_ins) (m : mem) : mem :=
  let at_obj n := default no_obj (L !! n) in
  match i with
  | IUn op d a => call_un op (addr (at_obj d)) (addr (at_obj a)) (bits (at_obj d)) m
  | IBin op d a b => call_bin op (addr (at_obj d)) (addr (at_obj a)) (addr (at_obj b)) (bits (at_obj d)) m
  | IFrom64 d v sgn => __embcc_bi_from64 (addr (at_obj d)) v sgn (bits (at_obj d)) m
  | IExt d a => __embcc_bi_ext (addr (at_obj d)) (bits (at_obj d)) (addr (at_obj a)) (bits (at_obj a)) m
  end.

(** ** The calls on numbers: C's arithmetic in the object's type *)

Definition num_un (op : bi_un) (x : Z) : Z :=
  match op with
  | UCopy => x | UNot => Z.lnot x | UNeg => - x | UAddi k => x + k
  | UShl n => x * 2 ^ n | UShr n => x / 2 ^ n
  end.
(** [None]: undefined in C. *)
Definition num_bin (op : bi_bin) (x y : Z) : option Z :=
  match op with
  | BAdd => Some (x + y) | BSub => Some (x - y) | BMul => Some (x * y)
  | BAnd => Some (Z.land x y) | BOr => Some (Z.lor x y) | BXor => Some (Z.lxor x y)
  | BDiv => if y =? 0 then None else Some (Z.quot x y)
  | BMod => if y =? 0 then None else Some (Z.rem x y)
  end.

Definition set_num (env : nat -> Z) (d : nat) (x : Z) : nat -> Z :=
  fun n => if bool_decide (n = d) then x else env n.

(** The types an operation is called at. *)
Definition same_type (L : list obj) (d a : nat) : option Z :=
  o ← L !! d; p ← L !! a; if bits o =? bits p then Some (bits o) else None.
Definition in_range (op : bi_un) : bool :=
  match op with
  | UAddi k => (- 2 ^ 63 <=? k) && (k <? 2 ^ 63)
  | UShl n | UShr n => 0 <=? n
  | _ => true
  end.

Definition eval (L : list obj) (i : bi_ins) (env : nat -> Z) : option (nat -> Z) :=
  match i with
  | IUn op d a =>
      n ← same_type L d a; guard (in_range op);; Some (set_num env d (wrap n (num_un op (env a))))
  | IBin op d a b =>
      n ← same_type L d a; _ ← same_type L d b; z ← num_bin op (env a) (env b);
      Some (set_num env d (wrap n z))
  | IFrom64 d v sgn =>
      o ← L !! d; guard (0 <= v < 2 ^ 64);; Some (set_num env d (wrap (bits o) (if sgn then s64 v else v)))
  | IExt d a => o ← L !! d; p ← L !! a; Some (set_num env d (wrap (bits o) (env a)))
  end.
Fixpoint eval_all (L : list obj) (l : list bi_ins) (env : nat -> Z) : option (nat -> Z) :=
  match l with [] => Some env | i :: l => env ← eval L i env; eval_all L l env end.
Fixpoint call_all (L : list obj) (l : list bi_ins) (m : mem) : mem :=
  match l with [] => m | i :: l => call_all L l (call L i m) end.

(** ** The refinement *)

(** Every object of the layout holds its number. *)
Definition holds_all (L : list obj) (m : mem) (env : nat -> Z) : Prop :=
  forall n o, L !! n = Some o -> holds (bits o) m (addr o) (env n).

Section Refines.
Context (L : list obj) (HL : layout_ok L).

Lemma obj_typed n o : L !! n = Some o -> bits o <> 0 /\ width (bits o) < 2 ^ 63.
Proof using HL. intros E. exact (Forall_lookup_1 _ _ _ _ (proj1 HL) E). Qed.

Lemma objs_alias d a o p : L !! d = Some o -> L !! a = Some p ->
  apart (size o) (size p) (addr o) (addr p).
Proof using HL.
  intros Ed Ea. unfold apart. destruct (decide (d = a)) as [->|N]; [left; congruence|].
  destruct (proj2 HL d a o p Ed Ea N); lia.
Qed.

Lemma same_type_inv d a n : same_type L d a = Some n -> exists o p, L !! d = Some o /\ L !! a = Some p /\
  bits o = n /\ bits p = n /\ alias_ok (nlimbs n) (addr o) (addr p).
Proof using HL.
  unfold same_type. intros (o & Ed & E)%bind_Some. apply bind_Some in E as (p & Ea & E).
  destruct (Z.eqb_spec (bits o) (bits p)) as [B|]; [|done]. injection E as <-. exists o, p.
  split_and!; try done. pose proof (objs_alias d a o p Ed Ea) as A. unfold apart, size in A. rewrite <- B in A.
  unfold alias_ok. lia.
Qed.

(** A call that leaves a number in one object keeps the others. *)
Lemma holds_all_set d o x m m' env : L !! d = Some o -> holds_all L m env ->
  leaves (bits o) (addr o) x m m' -> holds_all L m' (set_num env d x).
Proof using HL.
  intros Ed Hm (Hx & F) n p En. unfold set_num. case_bool_decide as B.
  - subst n. congruence.
  - destruct (Hm n p En) as (Ew & U & V).
    assert (El : limbs m' (addr p) (nlimbs (bits p)) = limbs m (addr p) (nlimbs (bits p))).
    { apply limbs_ext. intros j Hj. apply F. destruct (proj2 HL n d p o En Ed B) as [|]; unfold size in *; lia. }
    unfold holds. by rewrite El.
Qed.

Lemma call_un_ok op n d a m x : n <> 0 -> width n < 2 ^ 63 -> alias_ok (nlimbs n) d a -> in_range op ->
  holds n m a x -> leaves n d (wrap n (num_un op x)) m (call_un op d a n m).
Proof.
  intros Hn Hw A R%Is_true_eq_true Hx. destruct op; simpl in *.
  - rewrite <- (proj1 Hx). by apply bi_copy_ok.
  - by apply bi_not_ok.
  - by apply bi_neg_ok.
  - apply bi_addi_ok; try done. unfold is_s. simpl. lia.
  - apply bi_shl_ok; try done. lia.
  - apply bi_shr_ok; try done. lia.
Qed.

Lemma call_bin_ok op n d a b m x y z : n <> 0 -> alias_ok (nlimbs n) d a -> alias_ok (nlimbs n) d b ->
  holds n m a x -> holds n m b y -> num_bin op x y = Some z -> leaves n d (wrap n z) m (call_bin op d a b n m).
Proof.
  intros Hn A B Hx Hy E.
  assert (bits_op : forall op fb, fb false false = false ->
    (forall x y k, Z.testbit (op x y) k = fb (Z.testbit x k) (Z.testbit y k)) ->
    leaves n d (wrap n (op x y)) m (for_up (nlimbs n) 0 (fun i m => upd m (d + i) (op (m (a + i)) (m (b + i)))) m)).
  { intros f fb H0 Hf. rewrite <- (wrap_op n Hn f fb H0 Hf x y (proj1 Hx) (proj1 Hy)). by apply (bitwise_ok n Hn f fb). }
  destruct op; simpl in *; try (injection E as <-).
  - by apply bi_add_ok.
  - by apply bi_sub_ok.
  - by apply bi_mul_ok.
  - by apply (bits_op Z.land andb eq_refl Z.land_spec).
  - by apply (bits_op Z.lor orb eq_refl Z.lor_spec).
  - by apply (bits_op Z.lxor xorb eq_refl Z.lxor_spec).
  - destruct (Z.eqb_spec y 0); [done|]. injection E as <-. by apply (divmod_ok n Hn d a b m x y false).
  - destruct (Z.eqb_spec y 0); [done|]. injection E as <-. by apply (divmod_ok n Hn d a b m x y true).
Qed.

Lemma call_refines i m env env' : holds_all L m env -> eval L i env = Some env' -> holds_all L (call L i m) env'.
Proof using HL.
  intros Hm E. destruct i as [op d a | op d a b | d v sgn | d a]; simpl in E.
  - apply bind_Some in E as (n & T & E). case_guard as R; [|done]. injection E as <-.
    destruct (same_type_inv d a n T) as (o & p & Ed & Ea & <- & Ep & A). destruct (obj_typed d o Ed).
    apply (holds_all_set d o _ m); [done | done |]. simpl. rewrite Ed, Ea. simpl.
    apply call_un_ok; try done. rewrite <- Ep. by apply Hm.
  - apply bind_Some in E as (n & T & E). apply bind_Some in E as (n' & T' & E).
    apply bind_Some in E as (z & Ez & E). injection E as <-.
    destruct (same_type_inv d a n T) as (o & p & Ed & Ea & <- & Ep & A).
    destruct (same_type_inv d b n' T') as (o' & q & Ed' & Eb & <- & Eq & B).
    rewrite Ed in Ed'. injection Ed' as <-. destruct (obj_typed d o Ed).
    apply (holds_all_set d o _ m); [done | done |]. simpl. rewrite Ed, Ea, Eb. simpl.
    apply (call_bin_ok op _ _ _ _ m (env a) (env b)); try done; [rewrite <- Ep | rewrite <- Eq]; by apply Hm.
  - apply bind_Some in E as (o & Ed & E). case_guard as R; [|done]. injection E as <-.
    destruct (obj_typed d o Ed). apply (holds_all_set d o _ m); [done | done |]. simpl. rewrite Ed. simpl.
    by apply bi_from64_ok.
  - apply bind_Some in E as (o & Ed & E). apply bind_Some in E as (p & Ea & E). injection E as <-.
    destruct (obj_typed d o Ed), (obj_typed a p Ea). apply (holds_all_set d o _ m); [done | done |].
    simpl. rewrite Ed, Ea. simpl. apply bi_ext_ok; try done; [by apply (objs_alias d a) | by apply Hm].
Qed.
End Refines.

(** C4: The [_BitInt] run-time library implements C's arithmetic: for any objects of
    any widths laid out without overlap, and any sequence of library calls on them
    (copies, sums, differences, products, quotients, remainders, bitwise operations,
    negation, shifts, conversions from integers and between [_BitInt] types), with
    results sharing operands in any way, if memory holds the objects' numbers before,
    and no division is by zero, then afterwards it holds the numbers C computes,
    each reduced to its object's type and in normal form. *)
Theorem bitint_refines L l m env env' : layout_ok L -> holds_all L m env ->
  eval_all L l env = Some env' -> holds_all L (call_all L l m) env'.
Proof.
  intros HL. revert m env. induction l as [|i l IH]; intros m env Hm E; simpl in *; [by injection E as <-|].
  apply bind_Some in E as (env1 & E1 & E). apply (IH _ env1); [|done]. by apply (call_refines L HL i m env).
Qed.

(** Three objects: two [unsigned _BitInt(200)] and a [_BitInt(100)], all zero. *)
Definition demo_layout : list obj := [Obj 0 200; Obj 4 200; Obj 8 (-100)].
Definition demo_calls : list bi_ins :=
  [IFrom64 0 7 false; IUn UNeg 0 0; IFrom64 1 1000 false; IBin BMul 1 1 0; IBin BDiv 0 0 1;
   IUn (UShl 3) 1 0; IExt 2 1].
Lemma bitint_refines_witness : exists env', eval_all demo_layout demo_calls (fun _ => 0) = Some env' /\
  holds_all demo_layout (call_all demo_layout demo_calls (fun _ => 0)) env'.
Proof.
  destruct (eval_all demo_layout demo_calls (fun _ => 0)) as [env'|] eqn:E; [|vm_compute in E; discriminate E].
  exists env'. split; [done|]. apply (bitint_refines demo_layout demo_calls (fun _ => 0) (fun _ => 0)); [..|done].
  - clear E. split.
    + repeat constructor; simpl; (done || lia).
    + intros [|[|[|i]]] [|[|[|j]]] o p Ho Hp N; simpl in *; simplify_eq; simpl; vm_compute;
        (by left) || (by right) || (left; discriminate) || (right; discriminate).
  - clear E. intros [|[|[|n]]] o Ho; simpl in Ho; simplify_eq; (split; [done | split; [repeat constructor; unfold is_u; lia | done]]).
Defined.

Lemma bitint_to64_low n a m x : n <> 0 -> holds n m a x -> __embcc_bi_to64 a n m = u64 x.
Proof.
  intros Hn Hx. pose proof (holds_limbs n m a x Hx) as HU. destruct (holds_full n Hn m a x Hx) as (k & E).
  pose proof (width_K n Hn) as Hw. destruct (nlimbs n) as [|k'] eqn:EK; [lia|].
  cbn [limbs val] in HU, E. apply Forall_cons_1 in HU as [Hm _]. rewrite pow_W_S in E. unfold __embcc_bi_to64.
  rewrite <- (u64_id (m a)) by apply Hm. apply uwrap_proper.
  exists (k * 2 ^ (64 * Z.of_nat k') - val (limbs m (a + 1) k')). lia.
Qed.

(** Comparison, truth and the low word of a [_BitInt]: [__embcc_bi_cmp] orders the
    numbers (negative ones below the others in a signed type), [__embcc_bi_test] is
    whether the number is not zero and [__embcc_bi_to64] its low 64 bits, at every
    width and signedness. *)
Theorem bitint_queries n m a b x y : n <> 0 -> holds n m a x -> holds n m b y ->
  __embcc_bi_cmp a b n m = (match x ?= y with Lt => -1 | Eq => 0 | Gt => 1 end) /\
  __embcc_bi_test a n m = b2z (negb (x =? 0)) /\
  __embcc_bi_to64 a n m = u64 x.
Proof.
  intros Hn Hx Hy. split_and!.
  - rewrite (bi_cmp_ok n Hn a b m x y Hx Hy). unfold cmp3.
    destruct (Z.compare_spec x y), (Z.ltb_spec x y), (Z.eqb_spec x y); done || lia.
  - rewrite (bi_test_ok n Hn a m x Hx). by destruct (x =? 0).
  - by apply bitint_to64_low.
Qed.

Lemma bitint_queries_witness : __embcc_bi_cmp 0 2 (-65) (fun p => if p <? 2 then 2 ^ 64 - 1 else 0) = -1 /\
  __embcc_bi_test 0 (-65) (fun p => if p <? 2 then 2 ^ 64 - 1 else 0) = 1 /\
  __embcc_bi_to64 0 (-65) (fun p => if p <? 2 then 2 ^ 64 - 1 else 0) = 2 ^ 64 - 1.
Proof.
  apply (bitint_queries (-65) (fun p => if p <? 2 then 2 ^ 64 - 1 else 0) 0 2 (-1) 0); [done|..];
    (split; [done | split; [|done]]); repeat apply Forall_cons_2; try apply Forall_nil_2; unfold is_u; simpl; lia.
Defined.

(** Widening is lossless: an object converted to a type at least as wide (and able to
    hold its sign), then back to its own, is the object's number again; and a 64-bit
    word put in a type of 64 bits or more is read back whole. *)
Theorem bitint_widen_back n w m a d e x v : n <> 0 -> w <> 0 -> width n <= width w ->
  holds n m a x ->
  apart (Z.of_nat (nlimbs w)) (Z.of_nat (nlimbs n)) d a ->
  apart (Z.of_nat (nlimbs n)) (Z.of_nat (nlimbs w)) e d ->
  is_u 64 v -> 64 <= width w ->
  holds n (__embcc_bi_ext e n d w (__embcc_bi_ext d w a n m)) e x /\
  forall sgn, __embcc_bi_to64 d w (__embcc_bi_from64 d v sgn w m) = v.
Proof.
  intros Hn Hw HW Hx A1 A2 Hv H64. split.
  - destruct (bi_ext_ok w n d a m x Hw Hn A1 Hx) as (H1 & _).
    destruct (bi_ext_ok n w e d _ _ Hn Hw A2 H1) as (H2 & _).
    replace x with (wrap n (wrap w x)); [done|]. rewrite (proj1 Hx) at 2. apply wrap_cong; [done|].
    apply (eqw_weaken (width w)); [pose proof (width_K n Hn); lia | by apply wrap_eqw].
  - intros sgn. destruct (bi_from64_ok w Hw d v sgn m Hv) as (H1 & _).
    rewrite (bitint_to64_low w d _ _ Hw H1).
    transitivity (u64 v); [|by apply u64_id]. apply uwrap_proper.
    transitivity (if sgn then s64 v else v); [|destruct sgn; [apply eqw_swrap; lia | done]].
    apply (eqw_weaken (width w)); [lia | by apply wrap_eqw].
Qed.

Lemma bitint_widen_back_witness :
  let m := fun p : Z => if p <? 2 then 2 ^ 64 - 5 else 0 in
  holds (-70) (__embcc_bi_ext 0 (-70) 2 (-130) (__embcc_bi_ext 2 (-130) 0 (-70) m)) 0
    (wrap (-70) (val [2 ^ 64 - 5; 2 ^ 64 - 5])) /\
  forall sgn, __embcc_bi_to64 2 (-130) (__embcc_bi_from64 2 9 sgn (-130) m) = 9.
Proof.
  intros m. apply (bitint_widen_back (-70) (-130) m 0 2 0 _ 9).
  - discriminate.
  - discriminate.
  - by vm_compute.
  - split; [vm_compute; reflexivity | split; [|vm_compute; reflexivity]].
    repeat apply Forall_cons_2; [by vm_compute | by vm_compute | apply Forall_nil_2].
  - right. left. by vm_compute.
  - right. right. by vm_compute.
  - by vm_compute.
  - by vm_compute.
Defined.
