(* ===== verification/Leb.v ===== *)
(** * Variable-length integers: LEB128

    Debug information, exception tables and build attributes hold their numbers seven
    bits to a byte. The compiler has three writers of them (src/src/debug/dwarf.c,
    src/src/debug/eh.c, src/src/arch/thumb/attrs.c) and its parts six readers: the
    linker's two (src/src/link/link.c), the assembler writer's
    (src/src/driver/asmout.c), the simulator's (src/tools/embsim/image.c), the
    debugger's (src/tools/embdbg/embdbg.c) and the run-time unwinder's
    (src/lib/rt/unwind.c). [reads_uleb] and [reads_sleb] are what a reader promises; every
    writer's bytes read back by every reader is one theorem for each sign. A shift by
    the word's width or more is undefined, and so is a read past the bytes: both are
    [None]. *)
From stdpp Require Import base numbers list option.
From Stdlib Require Import ZArith Lia.
From S2P Require Import Prelude.

Local Open Scope Z_scope.

(** ** The writers *)

(** [db_uleb]: at most ten rounds for an [unsigned long]. *)
Fixpoint db_uleb_loop (fuel : nat) (b : list Z) (v : Z) : list Z :=
  match fuel with
  | O => b
  | S fuel =>
      let byte := Z.land v 0x7f in
      let v := Z.shiftr v 7 in
      let byte := if negb (v =? 0) then Z.lor byte 0x80 else byte in
      let b := b ++ [Z.land byte 0xff] in
      if negb (v =? 0) then db_uleb_loop fuel b v else b
  end.
Definition db_uleb (b : list Z) (v : Z) : list Z := db_uleb_loop 10 b v.

Fixpoint db_sleb_loop (fuel : nat) (b : list Z) (v : Z) : list Z :=
  match fuel with
  | O => b
  | S fuel =>
      let byte := Z.land v 0x7f in
      let v := Z.shiftr v 7 in
      let last := ((v =? 0) && (Z.land byte 0x40 =? 0)) || ((v =? -1) && negb (Z.land byte 0x40 =? 0)) in
      let byte := if last then byte else Z.lor byte 0x80 in
      let b := b ++ [Z.land byte 0xff] in
      if last then b else db_sleb_loop fuel b v
  end.
Definition db_sleb (b : list Z) (v : Z) : list Z := db_sleb_loop 10 b v.

(** [uleb], [sleb] and [uleb_size] of eh.c; [u8] stores the low byte. *)
Fixpoint ehw_uleb_loop (fuel : nat) (b : list Z) (v : Z) : list Z :=
  match fuel with
  | O => b
  | S fuel =>
      let x := Z.land v 0x7f in
      let v := Z.shiftr v 7 in
      let b := b ++ [uwrap 8 (if negb (v =? 0) then Z.lor x 0x80 else x)] in
      if negb (v =? 0) then ehw_uleb_loop fuel b v else b
  end.
Definition ehw_uleb (b : list Z) (v : Z) : list Z := ehw_uleb_loop 10 b v.

Fixpoint ehw_sleb_loop (fuel : nat) (b : list Z) (v : Z) : list Z :=
  match fuel with
  | O => b
  | S fuel =>
      let x := Z.land v 0x7f in
      let v := Z.shiftr v 7 in
      if ((v =? 0) && (Z.land x 0x40 =? 0)) || ((v =? -1) && negb (Z.land x 0x40 =? 0))
      then b ++ [uwrap 8 x]
      else ehw_sleb_loop fuel (b ++ [uwrap 8 (Z.lor x 0x80)]) v
  end.
Definition ehw_sleb (b : list Z) (v : Z) : list Z := ehw_sleb_loop 10 b v.

Fixpoint uleb_size_loop (fuel : nat) (n v : Z) : Z :=
  match fuel with
  | O => n
  | S fuel =>
      let v := Z.shiftr v 7 in
      if negb (v =? 0) then uleb_size_loop fuel (n + 1) v else n + 1
  end.
Definition uleb_size (v : Z) : Z := uleb_size_loop 10 0 v.

(** [buleb] of the ARM build attributes. *)
Fixpoint buleb_loop (fuel : nat) (b : list Z) (v : Z) : list Z :=
  match fuel with
  | O => b
  | S fuel =>
      let byte := Z.land v 0x7f in
      let v := Z.shiftr v 7 in
      let b := b ++ [uwrap 8 (if negb (v =? 0) then Z.lor byte 0x80 else byte)] in
      if negb (v =? 0) then buleb_loop fuel b v else b
  end.
Definition buleb (b : list Z) (v : Z) : list Z := buleb_loop 10 b v.

(** ** The readers *)

(** [x << s] at width [w], where it is defined. *)
Definition shl (w x s : Z) : option Z := if (0 <=? s) && (s <? w) then Some (uwrap w (Z.shiftl x s)) else None.

(** The simulator's are bounded and set [bad] at the end. *)
Fixpoint img_uleb_loop (v sh : Z) (p : list Z) : Z * list Z * bool :=
  match p with
  | [] => (v, [], true)
  | b :: p =>
      let v := if sh <? 64 then Z.lor v (u64 (Z.shiftl (Z.land b 0x7f) sh)) else v in
      if Z.land b 0x80 =? 0 then (v, p, false) else img_uleb_loop v (sh + 7) p
  end.
Definition img_uleb (p : list Z) : Z * list Z * bool := img_uleb_loop 0 0 p.

Fixpoint img_sleb_loop (v sh : Z) (p : list Z) : Z * list Z * bool :=
  match p with
  | [] => (s64 v, [], true)
  | b :: p =>
      let v := if sh <? 64 then Z.lor v (u64 (Z.shiftl (Z.land b 0x7f) sh)) else v in
      let sh := sh + 7 in
      if Z.land b 0x80 =? 0 then
        (s64 (if (sh <? 64) && negb (Z.land b 0x40 =? 0) then Z.lor v (u64 (Z.shiftl (u64 (-1)) sh)) else v), p, false)
      else img_sleb_loop v sh p
  end.
Definition img_sleb (p : list Z) : Z * list Z * bool := img_sleb_loop 0 0 p.

(** The linker's, for exception tables and for build attributes, and the assembler
    writer's: bounded by the section. *)
Fixpoint eh_uleb_loop (v sh : Z) (q : list Z) : Z * list Z :=
  match q with
  | [] => (v, [])
  | b :: q =>
      let v := if sh <? 64 then Z.lor v (u64 (Z.shiftl (Z.land b 0x7f) sh)) else v in
      if Z.land b 0x80 =? 0 then (v, q) else eh_uleb_loop v (sh + 7) q
  end.
Definition eh_uleb (q : list Z) : Z * list Z := eh_uleb_loop 0 0 q.

Fixpoint arm_uleb_loop (v shift : Z) (p : list Z) : option (Z * list Z) :=
  match p with
  | [] => Some (v, [])
  | b :: p =>
      x ← shl 64 (Z.land b 0x7f) shift;
      let v := Z.lor v x in
      if Z.land b 0x80 =? 0 then Some (v, p) else arm_uleb_loop v (shift + 7) p
  end.
Definition arm_uleb (p : list Z) : option (Z * list Z) := arm_uleb_loop 0 0 p.

Fixpoint attr_uleb_loop (v sh : Z) (a : list Z) : option (Z * list Z) :=
  match a with
  | [] => Some (v, [])
  | c :: a =>
      x ← shl 64 (Z.land c 0x7f) sh;
      let v := Z.lor v x in
      if Z.land c 0x80 =? 0 then Some (v, a) else attr_uleb_loop v (sh + 7) a
  end.
Definition attr_uleb (a : list Z) : option (Z * list Z) := attr_uleb_loop 0 0 a.

(** The debugger's, which trust the bytes to end. Its signed one accumulates in a
    [long], whose shifts wrap here. *)
Fixpoint dbg_uleb_loop (v s : Z) (p : list Z) : option (Z * list Z) :=
  match p with
  | [] => None
  | b :: p =>
      x ← shl 64 (Z.land b 0x7f) s;
      let v := Z.lor v x in
      if negb (Z.land b 0x80 =? 0) then dbg_uleb_loop v (s + 7) p else Some (v, p)
  end.
Definition dbg_uleb (p : list Z) : option (Z * list Z) := dbg_uleb_loop 0 0 p.

Fixpoint dbg_sleb_loop (v s : Z) (p : list Z) : option (Z * list Z) :=
  match p with
  | [] => None
  | b :: p =>
      x ← shl 64 (Z.land b 0x7f) s;
      let v := Z.lor v (s64 x) in
      let s := s + 7 in
      if negb (Z.land b 0x80 =? 0) then dbg_sleb_loop v s p
      else if (s <? 64) && negb (Z.land b 0x40 =? 0)
      then y ← shl 64 1 s; Some (Z.lor v (s64 (- s64 y)), p) else Some (v, p)
  end.
Definition dbg_sleb (p : list Z) : option (Z * list Z) := dbg_sleb_loop 0 0 p.

(** The unwinder's, at the target's word of [w] bits ([uw_word] is
    [unsigned long]). *)
Fixpoint rd_uleb_loop (w v shift : Z) (p : list Z) : option (Z * list Z) :=
  match p with
  | [] => None
  | b :: p =>
      x ← shl w (Z.land b 0x7f) shift;
      let v := Z.lor v x in
      if negb (Z.land b 0x80 =? 0) then rd_uleb_loop w v (shift + 7) p else Some (v, p)
  end.
Definition rd_uleb (w : Z) (p : list Z) : option (Z * list Z) := rd_uleb_loop w 0 0 p.

Fixpoint rd_sleb_loop (w v shift : Z) (p : list Z) : option (Z * list Z) :=
  match p with
  | [] => None
  | b :: p =>
      x ← shl w (Z.land b 0x7f) shift;
      let v := Z.lor v x in
      let shift := shift + 7 in
      if negb (Z.land b 0x80 =? 0) then rd_sleb_loop w v shift p
      else if (shift <? 64) && negb (Z.land b 0x40 =? 0)
      then y ← shl w (uwrap w (-1)) shift; Some (swrap w (Z.lor v y), p) else Some (swrap w v, p)
  end.
Definition rd_sleb (w : Z) (p : list Z) : option (Z * list Z) := rd_sleb_loop w 0 0 p.

(** ** The encoding *)

Fixpoint uleb_of (n : nat) (v : Z) : list Z :=
  match n with
  | O => []
  | S n => if v <? 128 then [v] else (v mod 128 + 128) :: uleb_of n (v / 128)
  end.

Fixpoint sleb_of (n : nat) (v : Z) : list Z :=
  match n with
  | O => []
  | S n => if (-64 <=? v) && (v <? 64) then [v mod 128] else (v mod 128 + 128) :: sleb_of n (v / 128)
  end.

Lemma byte_id y : 0 <= y < 256 -> Z.land y 0xff = y /\ uwrap 8 y = y.
Proof.
  intros H. assert (U : uwrap 8 y = y) by (apply uwrap_small; unfold is_u; lia). split; [|done].
  rewrite <- U at 2. exact (land_ones_mod y 8 ltac:(lia)).
Qed.

Section Bytes.
Context (v : Z).
Let x := v mod 128.

Lemma low_range : 0 <= x < 128.
Proof. apply Z.mod_pos_bound. lia. Qed.
Lemma low_bits : Z.land v 0x7f = x.
Proof. exact (land_ones_mod v 7 ltac:(lia)). Qed.
Lemma high_bits : Z.shiftr v 7 = v / 128.
Proof. by rewrite Z.shiftr_div_pow2. Qed.
Lemma more_bit : Z.lor x 0x80 = x + 128.
Proof. pose proof low_range. change 0x80 with (1 * 2 ^ 7). apply lor_add_shift; lia. Qed.
(** The last byte of a signed number shows its sign. *)
Lemma sign_shown : ((v / 128 =? 0) && (Z.land x 0x40 =? 0)) || ((v / 128 =? -1) && negb (Z.land x 0x40 =? 0))
  = (-64 <=? v) && (v <? 64).
Proof.
  pose proof low_range as R. change 0x40 with (2 ^ 6). rewrite (land_top x 6) by lia. pose proof (Z.div_mod v 128 ltac:(lia)) as E. fold x in E.
  destruct (Z.ltb_spec x (2 ^ 6)); simpl;
    destruct (Z.eqb_spec (v / 128) 0), (Z.eqb_spec (v / 128) (-1)), (Z.leb_spec (-64) v), (Z.ltb_spec v 64); simpl; lia.
Qed.
End Bytes.

Lemma bytes_left v n : 0 <= v < 2 ^ (7 * Z.of_nat (S n)) -> 128 <= v -> 0 < v / 128 < 2 ^ (7 * Z.of_nat n).
Proof.
  intros H L. split; [apply Z.div_str_pos; lia|]. apply Z.div_lt_upper_bound; [lia|].
  replace (128 * 2 ^ (7 * Z.of_nat n)) with (2 ^ (7 * Z.of_nat (S n))); [lia|].
  change 128 with (2 ^ 7). rewrite <- Z.pow_add_r by lia. f_equal. lia.
Qed.

Lemma small_quotient v : 0 <= v < 128 -> v / 128 = 0 /\ v mod 128 = v.
Proof. intros. split; [by apply Z.div_small | by apply Z.mod_small]. Qed.

(** Every writer writes it. *)
Lemma uleb_step v n : 0 <= v < 2 ^ (7 * Z.of_nat (S n)) ->
  (v < 128 /\ v / 128 = 0 /\ v mod 128 = v) \/ (128 <= v /\ v / 128 <> 0 /\ 0 <= v / 128 < 2 ^ (7 * Z.of_nat n)).
Proof.
  intros H. destruct (Z.lt_ge_cases v 128) as [L|L].
  - left. split; [done|]. apply small_quotient. lia.
  - right. pose proof (bytes_left v n H L). split_and!; lia.
Qed.

Lemma db_uleb_of n b v : 0 <= v < 2 ^ (7 * Z.of_nat n) -> db_uleb_loop n b v = b ++ uleb_of n v.
Proof.
  revert b v. induction n as [|n IH]; intros b v H; [by rewrite app_nil_r|]. cbn [db_uleb_loop uleb_of].
  rewrite low_bits, high_bits, more_bit. pose proof (low_range v).
  destruct (uleb_step v n H) as [(L & -> & ->)|(L & N & H')]; [|rewrite (proj2 (Z.eqb_neq _ _) N)]; simpl;
    destruct (Z.ltb_spec v 128); try lia.
  - by rewrite (proj1 (byte_id v ltac:(lia))).
  - rewrite (proj1 (byte_id (v mod 128 + 128) ltac:(lia))), IH by done. by rewrite <- (assoc (++)).
Qed.

Lemma ehw_uleb_of n b v : 0 <= v < 2 ^ (7 * Z.of_nat n) -> ehw_uleb_loop n b v = b ++ uleb_of n v.
Proof.
  revert b v. induction n as [|n IH]; intros b v H; [by rewrite app_nil_r|]. cbn [ehw_uleb_loop uleb_of].
  rewrite low_bits, high_bits, more_bit. pose proof (low_range v).
  destruct (uleb_step v n H) as [(L & -> & ->)|(L & N & H')]; [|rewrite (proj2 (Z.eqb_neq _ _) N)]; simpl;
    destruct (Z.ltb_spec v 128); try lia.
  - by rewrite (proj2 (byte_id v ltac:(lia))).
  - rewrite (proj2 (byte_id (v mod 128 + 128) ltac:(lia))), IH by done. by rewrite <- (assoc (++)).
Qed.

Lemma buleb_of n b v : buleb_loop n b v = ehw_uleb_loop n b v.
Proof. revert b v. induction n as [|n IH]; intros b v; [done|]. simpl. by rewrite IH. Qed.

Lemma uleb_size_of n k v : 0 <= v < 2 ^ (7 * Z.of_nat n) -> uleb_size_loop n k v = k + Z.of_nat (length (uleb_of n v)).
Proof.
  revert k v. induction n as [|n IH]; intros k v H; [simpl; lia|]. cbn [uleb_size_loop uleb_of]. rewrite high_bits.
  destruct (uleb_step v n H) as [(L & -> & _)|(L & N & H')]; [|rewrite (proj2 (Z.eqb_neq _ _) N)]; simpl;
    destruct (Z.ltb_spec v 128); simpl; try lia.
  rewrite IH by done. lia.
Qed.

Definition sfits (n : nat) (v : Z) : Prop := - 2 ^ (7 * Z.of_nat n - 1) <= v < 2 ^ (7 * Z.of_nat n - 1).

Lemma sleb_step n v : sfits (S n) v -> -64 <= v < 64 \/ (~ -64 <= v < 64 /\ sfits n (v / 128)).
Proof.
  unfold sfits. intros H. destruct (decide (-64 <= v < 64)) as [|N]; [by left|right; split; [done|]].
  destruct n as [|n]; [change (7 * Z.of_nat 1 - 1) with 6 in H; change (2 ^ 6) with 64 in H; lia|].
  assert (E : 2 ^ (7 * Z.of_nat (S (S n)) - 1) = 128 * 2 ^ (7 * Z.of_nat (S n) - 1)).
  { change 128 with (2 ^ 7). rewrite <- Z.pow_add_r by lia. f_equal. lia. }
  rewrite E in H. split; [apply Z.div_le_lower_bound; lia | apply Z.div_lt_upper_bound; lia].
Qed.

Lemma db_sleb_of n b v : sfits n v -> db_sleb_loop n b v = b ++ sleb_of n v.
Proof.
  revert b v. induction n as [|n IH]; intros b v H; [by rewrite app_nil_r|]. cbn [db_sleb_loop sleb_of].
  rewrite low_bits, high_bits, more_bit, sign_shown. pose proof (low_range v).
  destruct (sleb_step n v H) as [L|[N H']].
  - replace ((-64 <=? v) && (v <? 64)) with true by lia. by rewrite (proj1 (byte_id (v mod 128) ltac:(lia))).
  - replace ((-64 <=? v) && (v <? 64)) with false by lia.
    rewrite (proj1 (byte_id (v mod 128 + 128) ltac:(lia))), IH by done. by rewrite <- (assoc (++)).
Qed.

Lemma ehw_sleb_of n b v : sfits n v -> ehw_sleb_loop n b v = b ++ sleb_of n v.
Proof.
  revert b v. induction n as [|n IH]; intros b v H; [by rewrite app_nil_r|]. cbn [ehw_sleb_loop sleb_of].
  rewrite low_bits, high_bits, more_bit, sign_shown. pose proof (low_range v).
  destruct (sleb_step n v H) as [L|[N H']].
  - replace ((-64 <=? v) && (v <? 64)) with true by lia. by rewrite (proj2 (byte_id (v mod 128) ltac:(lia))).
  - replace ((-64 <=? v) && (v <? 64)) with false by lia.
    rewrite (proj2 (byte_id (v mod 128 + 128) ltac:(lia))), IH by done. by rewrite <- (assoc (++)).
Qed.

(** ** What a reader promises *)

(** A reader's loop adds each byte's seven bits where they belong: [w] is its word,
    [sh] where it is. *)
Class reads_uleb (w : Z) (loop : Z -> Z -> list Z -> option (Z * list Z)) : Prop := {
  ru_more v sh b p : 0 <= sh < w -> 128 <= b < 256 ->
    loop v sh (b :: p) = loop (Z.lor v (uwrap w ((b - 128) * 2 ^ sh))) (sh + 7) p;
  ru_last v sh b p : 0 <= sh < w -> 0 <= b < 128 ->
    loop v sh (b :: p) = Some (Z.lor v (uwrap w (b * 2 ^ sh)), p) }.

(** The last byte of a signed number, by its own sign. *)
Definition sbyte (b : Z) : Z := if b <? 64 then b else b - 128.

Class reads_sleb (w : Z) (loop : Z -> Z -> list Z -> option (Z * list Z)) : Prop := {
  rs_more v sh b p : 0 <= sh -> sh + 7 < w -> 128 <= b < 256 ->
    loop v sh (b :: p) = loop (Z.lor v (uwrap w ((b - 128) * 2 ^ sh))) (sh + 7) p;
  rs_last v sh b p : 0 <= sh < w -> 0 <= b < 128 -> 0 <= v < 2 ^ sh ->
    b < 64 \/ sh + 7 < w \/ 64 <= sh + 7 ->
    loop v sh (b :: p) = Some (swrap w (v + sbyte b * 2 ^ sh), p) }.

(** Bits that come in above those that are there. *)
Lemma lor_above w v x sh : 0 <= sh <= w -> 0 <= v < 2 ^ sh ->
  exists y, uwrap w (x * 2 ^ sh) = y * 2 ^ sh /\ Z.lor v (uwrap w (x * 2 ^ sh)) = v + y * 2 ^ sh /\
    eqw w (y * 2 ^ sh) (x * 2 ^ sh).
Proof.
  intros Hw Hv. exists (x mod 2 ^ (w - sh)).
  assert (E : uwrap w (x * 2 ^ sh) = x mod 2 ^ (w - sh) * 2 ^ sh).
  { unfold uwrap. replace (2 ^ w) with (2 ^ (w - sh) * 2 ^ sh) by (rewrite <- Z.pow_add_r by lia; f_equal; lia).
    pose proof (pow2_pos sh ltac:(lia)). pose proof (pow2_pos (w - sh) ltac:(lia)). by rewrite Z.mul_mod_distr_r by lia. }
  split; [done|]. rewrite E. split; [apply lor_add_shift; lia|]. rewrite <- E. apply eqw_uwrap. lia.
Qed.

Lemma lor_exact w v x sh : 0 <= sh <= w -> 0 <= v < 2 ^ sh -> 0 <= x * 2 ^ sh < 2 ^ w ->
  Z.lor v (uwrap w (x * 2 ^ sh)) = v + x * 2 ^ sh.
Proof. intros Hw Hv Hx. rewrite uwrap_small by done. apply lor_add_shift; lia. Qed.

Section ReadU.
Context (w : Z) (loop : Z -> Z -> list Z -> option (Z * list Z)) `{!reads_uleb w loop}.

Lemma read_uleb_of n v acc sh rest : 0 <= sh -> 0 <= acc < 2 ^ sh -> acc + v * 2 ^ sh < 2 ^ w ->
  0 <= v < 2 ^ (7 * Z.of_nat n) -> 0 < v \/ sh < w ->
  loop acc sh (uleb_of n v ++ rest) = Some (acc + v * 2 ^ sh, rest) \/ n = O.
Proof using All.
  revert v acc sh. induction n as [|n IH]; intros v acc sh Hs Ha Hr Hv Hp; [by right|left]. cbn [uleb_of].
  assert (Hw : sh < w).
  { destruct Hp as [Hp|]; [|done]. destruct (Z.lt_ge_cases sh w) as [|L]; [done|].
    pose proof (pow2_le_mono w sh L). pose proof (pow2_pos sh Hs). nia. }
  pose proof (pow2_pos sh Hs) as P. destruct (uleb_step v n Hv) as [(L & _ & _)|(L & _ & Hv')].
  - replace (v <? 128) with true by lia. cbn [app]. rewrite ru_last by lia. by rewrite lor_exact by nia.
  - replace (v <? 128) with false by lia. cbn [app]. pose proof (low_range v) as Lo.
    rewrite ru_more by lia. replace (v mod 128 + 128 - 128) with (v mod 128) by lia.
    pose proof (Z.div_mod v 128 ltac:(lia)) as E.
    assert (P7 : 2 ^ (sh + 7) = 128 * 2 ^ sh) by (rewrite Z.pow_add_r by lia; lia).
    rewrite lor_exact by nia. destruct (IH (v / 128) (acc + v mod 128 * 2 ^ sh) (sh + 7)) as [-> | ->].
    + lia.
    + nia.
    + rewrite P7. nia.
    + done.
    + left. apply Z.div_str_pos. lia.
    + do 2 f_equal. rewrite P7. nia.
    + simpl in Hv'. change (2 ^ (7 * Z.of_nat 0)) with 1 in Hv'. pose proof (Z.div_str_pos v 128 ltac:(lia)). lia.
Qed.
End ReadU.

Section ReadS.
Context (w : Z) (Hw : w = 32 \/ w = 64) (loop : Z -> Z -> list Z -> option (Z * list Z)) `{!reads_sleb w loop}.

Lemma read_sleb_of n v acc k rest : 0 <= k -> 0 <= acc < 2 ^ (7 * k) -> is_s w (acc + v * 2 ^ (7 * k)) ->
  sfits n v -> (k = 0 \/ v <> 0 /\ v <> -1 \/ 7 * k < w) -> (w = 64 \/ - 2 ^ 27 <= v * 2 ^ (7 * k)) ->
  loop acc (7 * k) (sleb_of n v ++ rest) = Some (acc + v * 2 ^ (7 * k), rest) \/ n = O.
Proof using All.
  revert v acc k. induction n as [|n IH]; intros v acc k Hk Ha Hr Hv Hp Hneg; [by right|left]. cbn [sleb_of].
  pose proof (pow2_pos (7 * k) ltac:(lia)) as P.
  assert (P7 : 2 ^ (7 * (k + 1)) = 128 * 2 ^ (7 * k)) by (rewrite Z.mul_add_distr_l, Z.pow_add_r by lia; lia).
  assert (Hs : 7 * k < w).
  { destruct Hp as [->|[Hp|]]; [lia| |done]. destruct (Z.lt_ge_cases (7 * k) w) as [|L]; [done|].
    pose proof (pow2_le_mono w (7 * k) L). rewrite (pow2_half w) in * by lia. unfold is_s in Hr. nia. }
  pose proof (Z.div_mod v 128 ltac:(lia)) as E. pose proof (low_range v) as Lo.
  destruct (sleb_step n v Hv) as [L|[N Hv']].
  - replace ((-64 <=? v) && (v <? 64)) with true by lia. cbn [app].
    assert (Sb : sbyte (v mod 128) = v).
    { unfold sbyte. destruct (Z.lt_ge_cases v 0) as [Ng|Ng].
      - replace (v mod 128) with (v + 128) by (apply (Z.mod_unique v 128 (-1)); lia). destruct (Z.ltb_spec (v + 128) 64); lia.
      - rewrite Z.mod_small by lia. destruct (Z.ltb_spec v 64); lia. }
    rewrite rs_last; [|lia..|].
    + rewrite Sb, swrap_small by (done || lia). done.
    + destruct (Z.lt_ge_cases v 0) as [Ng|Ng]; [|left; rewrite Z.mod_small by lia; lia]. right.
      destruct Hneg as [->|Hneg]; [lia|]. destruct (Z.lt_ge_cases (7 * k) 28) as [|L28]; [lia|].
      pose proof (pow2_le_mono 28 (7 * k) L28) as Q. change (2 ^ 28) with (2 * 2 ^ 27) in Q. nia.
  - replace ((-64 <=? v) && (v <? 64)) with false by lia. cbn [app].
    assert (Hm : 7 * k + 7 < w).
    { destruct (Z.lt_ge_cases (7 * k + 7) w) as [|L]; [done|]. pose proof (pow2_le_mono (w - 7) (7 * k) ltac:(lia)) as Q.
      assert (Q' : 2 ^ (w - 1) = 64 * 2 ^ (w - 7)) by (destruct Hw as [-> | ->]; reflexivity). unfold is_s in Hr. nia. }
    rewrite rs_more by lia. replace (v mod 128 + 128 - 128) with (v mod 128) by lia.
    assert (Q : 128 * 2 ^ (7 * k) <= 2 ^ w) by (rewrite <- P7; apply pow2_le_mono; lia).
    rewrite lor_exact by nia. replace (7 * k + 7) with (7 * (k + 1)) by lia.
    assert (Eq : acc + v mod 128 * 2 ^ (7 * k) + v / 128 * 2 ^ (7 * (k + 1)) = acc + v * 2 ^ (7 * k)) by (rewrite P7; nia).
    destruct (IH (v / 128) (acc + v mod 128 * 2 ^ (7 * k)) (k + 1)) as [-> | ->].
    + lia.
    + nia.
    + by rewrite Eq.
    + done.
    + right. right. lia.
    + destruct Hneg as [|Hneg]; [by left|right]. destruct (Z.lt_ge_cases v 0) as [Ng|Ng];
        [|pose proof (Z.div_pos v 128 Ng ltac:(lia)); pose proof (pow2_pos (7 * (k + 1)) ltac:(lia)); nia].
      assert (K : 7 * k < 21).
      { destruct (Z.lt_ge_cases (7 * k) 21) as [|L]; [done|]. pose proof (pow2_le_mono 21 (7 * k) L).
        change (2 ^ 27) with (64 * 2 ^ 21) in Hneg. nia. }
      assert (k = 0 \/ k = 1 \/ k = 2) as [-> |[-> | ->]] by lia; simpl in *; lia.
    + by rewrite Eq.
    + unfold sfits in Hv'. change (2 ^ (7 * Z.of_nat 0 - 1)) with 0 in Hv'. lia.
Qed.
End ReadS.

(** ** Each reader keeps the promise *)

Lemma more_byte b : 128 <= b < 256 -> Z.land b 0x7f = b - 128 /\ (Z.land b 0x80 =? 0) = false.
Proof.
  intros H. split.
  - rewrite low_bits. symmetry. apply (Z.mod_unique b 128 1); lia.
  - change 0x80 with (2 ^ 7). rewrite (land_top b 7) by (change (2 ^ (7 + 1)) with 256; lia).
    change (2 ^ 7) with 128. by destruct (Z.ltb_spec b 128); [lia|].
Qed.
Lemma last_byte b : 0 <= b < 128 ->
  Z.land b 0x7f = b /\ (Z.land b 0x80 =? 0) = true /\ (Z.land b 0x40 =? 0) = (b <? 64).
Proof.
  intros H. split_and!.
  - rewrite low_bits. by apply Z.mod_small.
  - change 0x80 with (2 ^ 7). rewrite (land_top b 7) by (change (2 ^ (7 + 1)) with 256; lia).
    change (2 ^ 7) with 128. by destruct (Z.ltb_spec b 128); [|lia].
  - change 0x40 with (2 ^ 6). rewrite (land_top b 6) by (change (2 ^ (6 + 1)) with 128; lia).
    change (2 ^ 6) with 64. by destruct (Z.ltb_spec b 64).
Qed.
Lemma shl_defined w x s : 0 <= s < w -> shl w x s = Some (uwrap w (x * 2 ^ s)).
Proof. intros H. unfold shl. rewrite Z.shiftl_mul_pow2 by lia. by replace ((0 <=? s) && (s <? w)) with true by lia. Qed.

(** One round: the shift, the byte's seven bits, its top bit. *)
Ltac round :=
  intros; simpl;
  match goal with
  | H : 128 <= ?b < 256 |- _ => rewrite ?(proj1 (more_byte b H)), ?(proj2 (more_byte b H))
  | H : 0 <= ?b < 128 |- _ => rewrite ?(proj1 (last_byte b H)), ?(proj1 (proj2 (last_byte b H)))
  end;
  repeat match goal with |- context [shl ?w ?x ?s] => rewrite (shl_defined w x s) by lia; simpl end; rewrite ?Z.shiftl_mul_pow2 by lia;
  rewrite ?(proj2 (Z.ltb_lt _ _)) by lia; try done.

Definition unbad (r : Z * list Z * bool) : option (Z * list Z) :=
  let '(v, p, bad) := r in if bad then None else Some (v, p).

#[export] Instance img_reads : reads_uleb 64 (fun v sh p => unbad (img_uleb_loop v sh p)).
Proof. split; round. Qed.
#[export] Instance eh_reads : reads_uleb 64 (fun v sh p => Some (eh_uleb_loop v sh p)).
Proof. split; round. Qed.
#[export] Instance arm_reads : reads_uleb 64 arm_uleb_loop.
Proof. split; round. Qed.
#[export] Instance attr_reads : reads_uleb 64 attr_uleb_loop.
Proof. split; round. Qed.
#[export] Instance dbg_reads : reads_uleb 64 dbg_uleb_loop.
Proof. split; round. Qed.
#[export] Instance rd_reads w : reads_uleb w (rd_uleb_loop w).
Proof. split; round. Qed.

(** The sign, brought in above the bits read. *)
Lemma sign_there w v b sh : 0 <= sh < w -> b < 64 \/ w <= sh + 7 ->
  swrap w (v + b * 2 ^ sh) = swrap w (v + sbyte b * 2 ^ sh).
Proof.
  intros Hs C. unfold sbyte. destruct (Z.ltb_spec b 64); [done|]. destruct C as [|C]; [lia|].
  apply swrap_proper. exists (2 ^ (sh + 7 - w)).
  rewrite <- Z.pow_add_r by lia. replace (sh + 7 - w + w) with (7 + sh) by lia. rewrite Z.pow_add_r by lia. lia.
Qed.
Lemma last_value w v b sh : 0 <= sh < w -> 0 <= v < 2 ^ sh -> b < 64 \/ w <= sh + 7 ->
  swrap w (Z.lor v (uwrap w (b * 2 ^ sh))) = swrap w (v + sbyte b * 2 ^ sh).
Proof.
  intros Hs Hv C. destruct (lor_above w v b sh ltac:(lia) Hv) as (y & Ey & -> & Eq). rewrite <- sign_there by done.
  by rewrite Eq.
Qed.
Lemma sign_value w v b sh m : 0 <= sh -> sh + 7 < w -> 64 <= b < 128 -> 0 <= v < 2 ^ sh -> eqw w m (-1) ->
  Z.lor v (uwrap w (b * 2 ^ sh)) = v + b * 2 ^ sh /\ v + b * 2 ^ sh < 2 ^ (sh + 7) /\
  swrap w (Z.lor (v + b * 2 ^ sh) (uwrap w (m * 2 ^ (sh + 7)))) = swrap w (v + sbyte b * 2 ^ sh).
Proof.
  intros Hs W Hb Hv Hm. pose proof (pow2_pos sh Hs).
  assert (P7 : 2 ^ (sh + 7) = 128 * 2 ^ sh) by (rewrite Z.pow_add_r by lia; lia).
  pose proof (pow2_le_mono (sh + 7) w ltac:(lia)). rewrite lor_exact by nia. split_and!; [done|nia|].
  destruct (lor_above w (v + b * 2 ^ sh) m (sh + 7) ltac:(lia) ltac:(nia)) as (y & _ & -> & Eq).
  apply swrap_proper. rewrite Eq, Hm. unfold sbyte. destruct (Z.ltb_spec b 64); [lia|]. exists 0. rewrite P7. lia.
Qed.

(** The two readers that work in an unsigned word. *)
Lemma unsigned_last w v b sh (p : list Z) : w = 32 \/ w = 64 -> 0 <= sh < w -> 0 <= b < 128 -> 0 <= v < 2 ^ sh ->
  b < 64 \/ sh + 7 < w \/ 64 <= sh + 7 ->
  (if (sh + 7 <? 64) && negb (Z.land b 0x40 =? 0)
   then y ← shl w (uwrap w (-1)) (sh + 7); Some (swrap w (Z.lor (Z.lor v (uwrap w (b * 2 ^ sh))) y), p)
   else Some (swrap w (Z.lor v (uwrap w (b * 2 ^ sh))), p))
  = Some (swrap w (v + sbyte b * 2 ^ sh), p).
Proof.
  intros W Hs Hb Hv C. destruct (last_byte b Hb) as (_ & _ & ->).
  destruct (Z.ltb_spec (sh + 7) 64), (Z.ltb_spec b 64); simpl; try (by rewrite last_value by lia).
  rewrite shl_defined by lia. simpl.
  destruct (sign_value w v b sh (uwrap w (-1))) as (-> & _ & ->); [lia..|apply eqw_uwrap; lia|done].
Qed.

#[export] Instance img_sreads : reads_sleb 64 (fun v sh p => unbad (img_sleb_loop v sh p)).
Proof.
  split; [round|]. intros. rewrite <- unsigned_last by auto. round.
  rewrite (proj2 (Z.ltb_lt sh 64)) by lia. destruct (sh + 7 <? 64) eqn:E, (Z.land b 64 =? 0); simpl; try done. by rewrite shl_defined by lia.
Qed.
#[export] Instance rd_sreads w : w = 32 \/ w = 64 -> reads_sleb w (rd_sleb_loop w).
Proof. split; [round|]. intros. rewrite <- unsigned_last by auto. round. Qed.

(** The debugger's works in a signed one. *)
Lemma lor_signed w v x sh : 0 < w -> 0 <= sh < w -> 0 <= v < 2 ^ sh ->
  Z.lor v (swrap w (uwrap w (x * 2 ^ sh))) = swrap w (v + x * 2 ^ sh).
Proof.
  intros W Hs Hv. rewrite swrap_uwrap by lia.
  assert (E : exists y, swrap w (x * 2 ^ sh) = y * 2 ^ sh).
  { destruct (swrap_eq w (x * 2 ^ sh) W) as [k ->]. exists (x + k * 2 ^ (w - sh)).
    replace (2 ^ w) with (2 ^ (w - sh) * 2 ^ sh) by (rewrite <- Z.pow_add_r by lia; f_equal; lia). ring. }
  destruct E as [y E]. pose proof (swrap_range w (x * 2 ^ sh) W) as R. rewrite E in R |- *.
  rewrite lor_add_shift by lia. rewrite <- (swrap_small w (v + y * 2 ^ sh)).
  - apply swrap_proper. rewrite <- E, eqw_swrap by lia. reflexivity.
  - lia.
  - unfold is_s in *. assert (Q : 2 ^ (w - 1) = 2 ^ (w - 1 - sh) * 2 ^ sh) by (rewrite <- Z.pow_add_r by lia; f_equal; lia).
    rewrite Q in R |- *. pose proof (pow2_pos sh ltac:(lia)) as P.
    assert (y < 2 ^ (w - 1 - sh)) by (apply (Z.mul_lt_mono_pos_r (2 ^ sh)); lia). nia.
Qed.

Lemma under_sign b sh v : 0 <= sh -> sh + 7 < 64 -> 0 <= b < 128 -> 0 <= v < 2 ^ sh ->
  0 <= b * 2 ^ sh /\ v + b * 2 ^ sh < 2 ^ (sh + 7) /\ 2 ^ (sh + 7) <= 2 ^ 63.
Proof.
  intros. pose proof (pow2_pos sh ltac:(lia)). rewrite Z.pow_add_r at 1 by lia. split_and!; [nia..|]. apply pow2_le_mono. lia.
Qed.

#[export] Instance dbg_sreads : reads_sleb 64 dbg_sleb_loop.
Proof.
  split.
  - round. do 2 f_equal. destruct (under_sign (b - 128) sh 0) as (L & U & M); [lia..|pose proof (pow2_pos sh); lia|].
    rewrite (uwrap_small 64) by (unfold is_u; lia). apply s64_id. lia.
  - intros v sh b p Hs Hb Hv C.
    assert (E : forall x, Z.lor v (s64 (uwrap 64 (x * 2 ^ sh))) = s64 (v + x * 2 ^ sh)) by (intros; apply lor_signed; lia).
    round. rewrite (proj2 (proj2 (last_byte b Hb))), E.
    destruct (Z.ltb_spec (sh + 7) 64), (Z.ltb_spec b 64); simpl;
      try (by apply f_equal, f_equal2; [apply (sign_there 64); lia|]).
    rewrite shl_defined by lia. simpl. destruct (under_sign b sh v) as (L & U & M); [lia..|].
    rewrite (s64_id (v + _)) by lia. do 2 f_equal.
    replace (s64 (- s64 (uwrap 64 (1 * 2 ^ (sh + 7))))) with (s64 (uwrap 64 (-1 * 2 ^ (sh + 7)))).
    + rewrite (lor_signed 64) by lia. apply swrap_proper. unfold sbyte. replace (b <? 64) with false by lia.
      exists 0. rewrite Z.pow_add_r by lia. lia.
    + apply swrap_proper. rewrite eqw_uwrap, eqw_swrap, eqw_uwrap by lia. exists 0. lia.
Qed.

(** ** Round trips *)

Inductive uleb_writer := w_debug | w_eh | w_attrs.
Definition write_uleb (k : uleb_writer) : list Z -> Z -> list Z :=
  match k with w_debug => db_uleb | w_eh => ehw_uleb | w_attrs => buleb end.

Inductive sleb_writer := ws_debug | ws_eh.
Definition write_sleb (k : sleb_writer) : list Z -> Z -> list Z :=
  match k with ws_debug => db_sleb | ws_eh => ehw_sleb end.

(** The unwinder runs on the target, whose word [w] has. *)
Inductive uleb_reader := r_image | r_eh | r_arm | r_attr | r_debugger | r_unwind (w : Z).
Definition read_uleb (r : uleb_reader) (p : list Z) : option (Z * list Z) :=
  match r with
  | r_image => unbad (img_uleb p)
  | r_eh => Some (eh_uleb p)
  | r_arm => arm_uleb p
  | r_attr => attr_uleb p
  | r_debugger => dbg_uleb p
  | r_unwind w => rd_uleb w p
  end.
Definition reader_word (r : uleb_reader) : Z := match r with r_unwind w => w | _ => 64 end.

Inductive sleb_reader := rs_image | rs_debugger | rs_unwind (w : Z).
Definition read_sleb (r : sleb_reader) (p : list Z) : option (Z * list Z) :=
  match r with
  | rs_image => unbad (img_sleb p)
  | rs_debugger => dbg_sleb p
  | rs_unwind w => rd_sleb w p
  end.
(** What each reads: the unwinder of a 32-bit target no number under [- 2 ^ 27]. *)
Definition sleb_readable (r : sleb_reader) (v : Z) : Prop :=
  match r with
  | rs_unwind w => (w = 64 /\ is_s 64 v) \/ (w = 32 /\ - 2 ^ 27 <= v < 2 ^ 31)
  | _ => is_s 64 v
  end.

Lemma uleb_ten v : is_u 64 v -> 0 <= v < 2 ^ (7 * Z.of_nat 10).
Proof. unfold is_u. change (7 * Z.of_nat 10) with 70. pose proof (pow2_le_mono 64 70 ltac:(lia)). lia. Qed.
Lemma uleb_of_length n v : (length (uleb_of n v) <= n)%nat.
Proof. revert v. induction n as [|n IH]; intros v; simpl; [lia|]. destruct (v <? 128); simpl; [lia|]. specialize (IH (v / 128)). lia. Qed.
Lemma sleb_of_length n v : (length (sleb_of n v) <= n)%nat.
Proof.
  revert v. induction n as [|n IH]; intros v; simpl; [lia|].
  destruct ((-64 <=? v) && (v <? 64)); simpl; [lia|]. specialize (IH (v / 128)). lia.
Qed.

Lemma write_uleb_of k b v : is_u 64 v -> write_uleb k b v = b ++ uleb_of 10 v.
Proof.
  intros V. pose proof (uleb_ten v V) as B. destruct k; simpl.
  - by apply db_uleb_of.
  - by apply ehw_uleb_of.
  - unfold buleb. rewrite buleb_of. by apply ehw_uleb_of.
Qed.

Lemma write_sleb_of k b v : is_s 64 v -> write_sleb k b v = b ++ sleb_of 10 v.
Proof.
  intros V. assert (B : sfits 10 v).
  { unfold sfits, is_s in *. change (7 * Z.of_nat 10 - 1) with 69. pose proof (pow2_le_mono (64 - 1) 69 ltac:(lia)). lia. }
  destruct k; [by apply db_sleb_of | by apply ehw_sleb_of].
Qed.

Lemma read_uleb_at r v rest : 0 < reader_word r <= 64 -> is_u (reader_word r) v ->
  read_uleb r (uleb_of 10 v ++ rest) = Some (v, rest).
Proof.
  intros W V. assert (B : 0 <= v < 2 ^ (7 * Z.of_nat 10)).
  { change (7 * Z.of_nat 10) with 70. pose proof (pow2_le_mono (reader_word r) 70 ltac:(lia)). unfold is_u in V. lia. }
  assert (E : forall w loop, reads_uleb w loop -> 0 < w <= 64 -> is_u w v -> loop 0 0 (uleb_of 10 v ++ rest) = Some (v, rest)).
  { intros w loop C Hw [V0 V1]. assert (R : loop 0 0 (uleb_of 10 v ++ rest) = Some (0 + v * 2 ^ 0, rest) \/ 10%nat = O).
    { apply (read_uleb_of w loop); rewrite ?Z.pow_0_r; lia. }
    destruct R as [->|]; [|done]. rewrite Z.pow_0_r. do 2 f_equal. lia. }
  destruct r.
  - exact (E _ _ img_reads W V).
  - exact (E _ _ eh_reads W V).
  - exact (E _ _ arm_reads W V).
  - exact (E _ _ attr_reads W V).
  - exact (E _ _ dbg_reads W V).
  - exact (E _ _ (rd_reads w) W V).
Qed.

Lemma read_sleb_at r v rest : sleb_readable r v -> read_sleb r (sleb_of 10 v ++ rest) = Some (v, rest).
Proof.
  intros V.
  assert (E : forall w loop, w = 32 \/ w = 64 -> reads_sleb w loop -> is_s w v -> w = 64 \/ - 2 ^ 27 <= v ->
    loop 0 0 (sleb_of 10 v ++ rest) = Some (v, rest)).
  { intros w loop W C Hv L.
    assert (R : loop 0 (7 * 0) (sleb_of 10 v ++ rest) = Some (0 + v * 2 ^ (7 * 0), rest) \/ 10%nat = O).
    { apply (read_sleb_of w W loop); rewrite ?Z.mul_0_r, ?Z.pow_0_r, ?Z.mul_1_r, ?Z.add_0_l; try lia; try done.
      unfold sfits, is_s in *. change (7 * Z.of_nat 10 - 1) with 69. pose proof (pow2_le_mono (w - 1) 69 ltac:(lia)). lia. }
    destruct R as [R|]; [|done]. rewrite Z.mul_0_r in R. rewrite R, Z.pow_0_r. do 2 f_equal. lia. }
  destruct r.
  - exact (E 64 _ ltac:(lia) img_sreads V ltac:(lia)).
  - exact (E 64 _ ltac:(lia) dbg_sreads V ltac:(lia)).
  - destruct V as [[-> V]|[-> V]];
      [exact (E 64 _ ltac:(lia) (rd_sreads 64 ltac:(lia)) V ltac:(lia))|].
    apply (E 32 _ ltac:(lia) (rd_sreads 32 ltac:(lia))); [unfold is_s; change (2 ^ (32 - 1)) with (2 ^ 31); lia|lia].
Qed.

(** C28: every number of 64 bits has one unsigned LEB128 form, of [uleb_size] and so at
    most ten bytes, which each of the three writers appends to its buffer; each of the
    six readers whose word holds the number takes exactly those bytes off what follows
    and returns the number. *)
Theorem uleb_roundtrip v : is_u 64 v ->
  exists e, (forall k b, write_uleb k b v = b ++ e) /\ Z.of_nat (length e) = uleb_size v /\ 1 <= uleb_size v <= 10 /\
    forall r rest, 0 < reader_word r <= 64 -> is_u (reader_word r) v -> read_uleb r (e ++ rest) = Some (v, rest).
Proof.
  intros V. exists (uleb_of 10 v). split_and!.
  - intros. by apply write_uleb_of.
  - unfold uleb_size. by rewrite uleb_size_of by (by apply uleb_ten).
  - unfold uleb_size. rewrite uleb_size_of by (by apply uleb_ten). simpl. destruct (v <? 128); cbn [length]; lia.
  - unfold uleb_size. rewrite uleb_size_of by (by apply uleb_ten). pose proof (uleb_of_length 10 v). lia.
  - intros r rest W Vr. by apply read_uleb_at.
Qed.
Lemma uleb_roundtrip_witness : exists e, (forall k b, write_uleb k b 624485 = b ++ e) /\ Z.of_nat (length e) = 3 /\
  read_uleb r_image (e ++ [7]) = Some (624485, [7]) /\ read_uleb (r_unwind 32) (e ++ [7]) = Some (624485, [7]).
Proof.
  destruct (uleb_roundtrip 624485 ltac:(unfold is_u; lia)) as (e & W & L & _ & R). exists e. split; [exact W|split].
  - rewrite L. reflexivity.
  - split; apply R; unfold is_u; simpl; lia.
Defined.


(** ** Where reading goes wrong *)

Lemma sleb_long n v lo hi : 128 * lo <= v < 128 * hi -> v < -64 ->
  exists b, 128 <= b < 256 /\ lo <= v / 128 < hi /\ sleb_of (S n) v = b :: sleb_of n (v / 128).
Proof.
  intros V H0. exists (v mod 128 + 128). pose proof (low_range v). split_and!.
  - lia.
  - lia.
  - apply Z.div_le_lower_bound; lia.
  - apply Z.div_lt_upper_bound; lia.
  - cbn [sleb_of]. by replace ((-64 <=? v) && (v <? 64)) with false by lia.
Qed.

(** A five-byte negative number shifts the unwinder's sign by 35: its guard compares
    with 64, not with the width of [uw_word], and on a 32-bit target the shift is
    undefined. *)
Theorem rd_sleb_32_undefined v k rest : - 2 ^ 31 <= v < - 2 ^ 27 -> rd_sleb 32 (write_sleb k [] v ++ rest) = None.
Proof.
  intros V. rewrite write_sleb_of by (unfold is_s; lia). cbn [app]. change (2 ^ 31) with (8 * 2 ^ 28) in V.
  destruct (sleb_long 9 v (-8 * 2 ^ 21) (- 2 ^ 20)) as (b0 & H0 & V1 & ->); [lia..|].
  destruct (sleb_long 8 (v / 128) (-8 * 2 ^ 14) (- 2 ^ 13)) as (b1 & H1 & V2 & ->); [lia..|].
  destruct (sleb_long 7 (v / 128 / 128) (-8 * 2 ^ 7) (- 2 ^ 6)) as (b2 & H2 & V3 & ->); [lia..|].
  destruct (sleb_long 6 (v / 128 / 128 / 128) (-8) 0) as (b3 & H3 & V4 & ->); [lia..|].
  set (q := v / 128 / 128 / 128 / 128) in *. cbn [sleb_of]. replace ((-64 <=? q) && (q <? 64)) with true by lia.
  assert (Q : q mod 128 = q + 128) by (symmetry; apply (Z.mod_unique q 128 (-1)); lia). rewrite Q.
  unfold rd_sleb. cbn [app]. pose proof (rd_sreads 32 ltac:(lia)) as C. rewrite !(rs_more (w := 32) (loop := rd_sleb_loop 32)) by lia. cbn [rd_sleb_loop].
  destruct (last_byte (q + 128)) as (-> & -> & ->); [lia|]. rewrite (shl_defined 32 (q + 128)) by lia. simpl.
  by replace (q + 128 <? 64) with false by lia.
Qed.
