(* ===== verification/Bus.v ===== *)
(** * The simulator's bus: [src/tools/embsim/bus.c]

    Memory regions (some read-only, some a second name for another's storage),
    bit-band aliases, memory-mapped devices and watchpoints. A device is code the bus
    calls through hooks: here functions on a world of device states, with whether the
    hook refused the access ([bus_fault]). A region's bytes are a block of storage,
    so that mirrors share them. An access goes to the first that answers. *)
From stdpp Require Import base numbers list option.
From Stdlib Require Import ZArith List Lia.
From S2P Require Import Prelude.

Local Open Scope Z_scope.

Definition MEM_RAM := 0.
Definition MEM_FLASH := 1.
Definition MEM_ALIAS := 2.
Definition WATCH_WRITE := 2.
Definition WATCH_READ := 3.
Definition WATCH_ACCESS := 4.
Definition BUS_REGIONS := 12%nat.
Definition BUS_DEVICES := 24%nat.
Definition BUS_ALIASES := 4%nat.
Definition BUS_WATCHES := 32%nat.

Record region := Region { r_base : Z; r_size : Z; r_mem : nat; r_rom : bool; r_kind : Z; r_erased : Z }.
Record alias := Alias { a_base : Z; a_size : Z; a_target : Z }.
Record watch := Watch { w_addr : Z; w_len : Z; w_kind : Z }.

Section Bus.
(** The devices' states. *)
Context {W : Type}.

Record dev_ops := DevOps {
  op_read : option (Z -> Z -> W -> W * (Z * bool));
  op_write : option (Z -> Z -> Z -> W -> W * bool) }.
Record device := Device { d_ops : dev_ops; d_base : Z; d_size : Z }.

Record bus := MkBus {
  rg : list region; store : nat -> Z -> Z; nstore : nat;
  dev : list device; bb : list alias; fail_addr : Z; snoop : option (Z -> W -> W);
  watches : list watch; watch_hit : bool; watch_kind : Z; watch_addr : Z;
  debug : bool; dev_fault : bool; touched : bool; world : W }.

Definition set_rg (b : bus) l st n := MkBus l st n (dev b) (bb b) (fail_addr b) (snoop b) (watches b) (watch_hit b)
  (watch_kind b) (watch_addr b) (debug b) (dev_fault b) (touched b) (world b).
Definition set_store (b : bus) st := set_rg b (rg b) st (nstore b).
Definition set_dev (b : bus) l := MkBus (rg b) (store b) (nstore b) l (bb b) (fail_addr b) (snoop b) (watches b)
  (watch_hit b) (watch_kind b) (watch_addr b) (debug b) (dev_fault b) (touched b) (world b).
Definition set_bb (b : bus) l := MkBus (rg b) (store b) (nstore b) (dev b) l (fail_addr b) (snoop b) (watches b)
  (watch_hit b) (watch_kind b) (watch_addr b) (debug b) (dev_fault b) (touched b) (world b).
Definition set_watches (b : bus) l := MkBus (rg b) (store b) (nstore b) (dev b) (bb b) (fail_addr b) (snoop b) l
  (watch_hit b) (watch_kind b) (watch_addr b) (debug b) (dev_fault b) (touched b) (world b).
Definition set_hit (b : bus) k a := MkBus (rg b) (store b) (nstore b) (dev b) (bb b) (fail_addr b) (snoop b) (watches b)
  true k a (debug b) (dev_fault b) (touched b) (world b).
Definition set_debug (b : bus) d := MkBus (rg b) (store b) (nstore b) (dev b) (bb b) (fail_addr b) (snoop b) (watches b)
  (watch_hit b) (watch_kind b) (watch_addr b) d (dev_fault b) (touched b) (world b).
Definition set_fail (b : bus) a := MkBus (rg b) (store b) (nstore b) (dev b) (bb b) a (snoop b) (watches b)
  (watch_hit b) (watch_kind b) (watch_addr b) (debug b) (dev_fault b) (touched b) (world b).
(** A device was called: its world, and [dev_fault] cleared after it was looked at. *)
Definition set_world (b : bus) t w := MkBus (rg b) (store b) (nstore b) (dev b) (bb b) (fail_addr b) (snoop b) (watches b)
  (watch_hit b) (watch_kind b) (watch_addr b) (debug b) false t w.

(** ** Building a bus; [None] is [die] *)

Definition bus_region (b : bus) (a n : Z) : option region :=
  find (fun r => (u32 (a - r_base r) <? r_size r) && (n <=? r_size r - u32 (a - r_base r))) (rg b).

Definition bus_add_region (b : bus) (base size kind : Z) : option bus :=
  if size =? 0 then Some b
  else if bool_decide (length (rg b) = BUS_REGIONS) then None
  else Some (set_rg b (rg b ++ [Region base size (nstore b) false kind 0])
               (fun k => if bool_decide (k = nstore b) then fun _ => 0 else store b k) (S (nstore b))).

Definition bus_erase (r : region) (b : bus) : bus :=
  set_store b (fun k => if bool_decide (k = r_mem r) then
    (fun i => if (0 <=? i) && (i <? r_size r) then
                (if r_erased r =? 0 then 0 else Z.land (Z.shiftr (r_erased r) (8 * Z.land i 3)) 0xff)
              else store b k i) else store b k).

Definition bus_add_device (b : bus) (base size : Z) (ops : dev_ops) : option bus :=
  if bool_decide (length (dev b) = BUS_DEVICES) then None else Some (set_dev b (dev b ++ [Device ops base size])).

Definition bus_add_mirror (b : bus) (base target : Z) : option bus :=
  t ← bus_region b target 1;
  if bool_decide (length (rg b) = BUS_REGIONS) then None
  else Some (set_rg b (rg b ++ [Region base (r_size t) (r_mem t) (r_rom t) (r_kind t) (r_erased t)]) (store b) (nstore b)).

Definition bus_add_alias (b : bus) (base size target : Z) : option bus :=
  if size =? 0 then Some b
  else if bool_decide (length (bb b) = BUS_ALIASES) then None
  else Some (set_bb b (bb b ++ [Alias base size target])).

(** ** Accesses *)

Definition alias_of (b : bus) (a : Z) : option (Z * Z) :=
  k ← find (fun k => u32 (a - a_base k) <? a_size k) (bb b);
  Some (u32 (a_target k + Z.shiftr (u32 (a - a_base k)) 5), Z.land (Z.shiftr a 2) 7).

Definition device_of (b : bus) (a : Z) : option device :=
  find (fun d => u32 (a - d_base d) <? d_size d) (dev b).

(** Little-endian bytes: one, two or four. *)
Definition mem_rd_le (p : Z -> Z) (i n : Z) : Z :=
  let v := p i in
  let v := if 1 <? n then Z.lor v (Z.shiftl (p (i + 1)) 8) else v in
  if 2 <? n then Z.lor v (Z.lor (Z.shiftl (p (i + 2)) 16) (Z.shiftl (p (i + 3)) 24)) else v.
Definition mem_wr_le (p : Z -> Z) (i n v : Z) : Z -> Z :=
  let p := upd p i (Z.land v 0xff) in
  let p := if 1 <? n then upd p (i + 1) (Z.land (Z.shiftr v 8) 0xff) else p in
  if 2 <? n then upd (upd p (i + 2) (Z.land (Z.shiftr v 16) 0xff)) (i + 3) (Z.land (Z.shiftr v 24) 0xff) else p.

Definition mask_n (n x : Z) : Z := if n =? 4 then x else Z.land x (u32 (Z.shiftl 1 (8 * n)) - 1).

(** [rd]: the value, or [None] for -1. A chain of aliases longer than [fuel] fails
    (the source would not return); one hop is all a board has. *)
Fixpoint rd (fuel : nat) (b : bus) (a n : Z) : bus * option Z :=
  match bus_region b a n with
  | Some r => (b, Some (mem_rd_le (store b (r_mem r)) (u32 (a - r_base r)) n))
  | None =>
      match alias_of b a with
      | Some (t, bit) =>
          match fuel with
          | O => (set_fail b a, None)
          | S fuel =>
              let '(b, x) := rd fuel b t 1 in
              (b, (fun x => Z.land (Z.shiftr x bit) 1) <$> x)
          end
      | None =>
          match device_of b a with
          | Some d =>
              let '(w, (x, fault)) := match op_read (d_ops d) with
                                      | Some f => f (u32 (a - d_base d)) n (world b)
                                      | None => (world b, (0, false)) end in
              let refused := fault || dev_fault b in
              let b := set_world b true w in
              if refused then (set_fail b a, None) else (b, Some (mask_n n x))
          | None => (set_fail b a, None)
          end
      end
  end.

(** Every store of the core's, as the exclusive monitor sees it. *)
Definition tell_snoop (b : bus) (a : Z) : bus :=
  match snoop b with
  | Some f => MkBus (rg b) (store b) (nstore b) (dev b) (bb b) (fail_addr b) (snoop b) (watches b) (watch_hit b)
                (watch_kind b) (watch_addr b) (debug b) (dev_fault b) (touched b) (f a (world b))
  | None => b
  end.

Fixpoint wr (fuel : nat) (b : bus) (a n v : Z) (dbg : bool) : bus * bool :=
  let b := if dbg then b else tell_snoop b a in
  match bus_region b a n with
  | Some r =>
      (if negb (r_rom r) || dbg
       then set_store b (fun k => if bool_decide (k = r_mem r)
                                  then mem_wr_le (store b k) (u32 (a - r_base r)) n v else store b k)
       else b, true)
  | None =>
      match alias_of b a with
      | Some (t, bit) =>
          match fuel with
          | O => (set_fail b a, false)
          | S fuel =>
              match rd (length (bb b)) b t 1 with
              | (b, Some byte) =>
                  wr fuel b t 1 (if negb (Z.land v 1 =? 0) then Z.lor byte (Z.shiftl 1 bit)
                                 else Z.land byte (u32 (Z.lnot (Z.shiftl 1 bit)))) dbg
              | (b, None) => (b, false)
              end
          end
      | None =>
          match device_of b a with
          | Some d =>
              let '(w, fault) := match op_write (d_ops d) with
                                 | Some f => f (u32 (a - d_base d)) n v (world b)
                                 | None => (world b, false) end in
              let refused := fault || dev_fault b in
              let b := set_world b true w in
              if refused then (set_fail b a, false) else (b, true)
          | None => (set_fail b a, false)
          end
      end
  end.

Definition bus_read (b : bus) (a n : Z) : bus * option Z := rd (length (bb b)) b a n.
Definition bus_write (b : bus) (a n v : Z) : bus * bool := wr (length (bb b)) b a n v false.
Definition bus_debug_read (b : bus) (a n : Z) : bus * option Z :=
  let '(b, r) := rd (length (bb b)) (set_debug b true) a n in (set_debug b false, r).
Definition bus_debug_write (b : bus) (a n v : Z) : bus * bool :=
  let '(b, r) := wr (length (bb b)) (set_debug b true) a n v true in (set_debug b false, r).

(** ** Watchpoints *)

Definition watch_applies (w : watch) (a n : Z) (write : bool) : bool :=
  ((w_kind w =? WATCH_ACCESS) || (w_kind w =? (if write then WATCH_WRITE else WATCH_READ))) &&
  ((u32 (a - w_addr w) <? w_len w) || (u32 (w_addr w - a) <? n)).

Definition bus_watch_check (b : bus) (a n : Z) (write : bool) : bus * bool :=
  match find (fun w => watch_applies w a n write) (watches b) with
  | Some w =>
      (if watch_hit b then b else set_hit b (w_kind w) (if w_addr w <? a then a else w_addr w), true)
  | None => (b, false)
  end.

Definition bus_watch_add (b : bus) (kind addr len : Z) : option bus :=
  if bool_decide (length (watches b) = BUS_WATCHES) || (len =? 0) then None
  else Some (set_watches b (watches b ++ [Watch addr len kind])).

(** The last takes the removed one's place. *)
Definition bus_watch_remove (b : bus) (kind addr len : Z) : option bus :=
  match list_find (fun w => Is_true ((w_kind w =? kind) && (w_addr w =? addr) && (w_len w =? len))) (watches b) with
  | Some (i, w) => Some (set_watches b (removelast (<[i := List.last (watches b) w]> (watches b))))
  | None => None
  end.
End Bus.
Arguments dev_ops : clear implicits.
Arguments device : clear implicits.
Arguments bus : clear implicits.

(** ** Bytes *)

Definition width_ok (n : Z) : Prop := n = 1 \/ n = 2 \/ n = 4.
Definition is_byte (x : Z) : Prop := 0 <= x < 256.

Lemma byte_of v k : 0 <= k -> Z.land (Z.shiftr v k) 0xff = (v / 2 ^ k) mod 2 ^ 8.
Proof. intros Hk. rewrite Z.shiftr_div_pow2 by done. exact (land_ones_mod (v / 2 ^ k) 8 ltac:(lia)). Qed.

Lemma byte_low v : Z.land v 0xff = v mod 2 ^ 8.
Proof. exact (land_ones_mod v 8 ltac:(lia)). Qed.

Lemma cat_byte lo x k : 0 <= k -> 0 <= lo < 2 ^ k -> Z.lor lo (Z.shiftl x k) = lo + x * 2 ^ k.
Proof. intros Hk Hl. rewrite Z.shiftl_mul_pow2 by done. by apply lor_add_shift. Qed.

Lemma mem_rd_wr p i n v : width_ok n -> mem_rd_le (mem_wr_le p i n v) i n = v mod 2 ^ (8 * n).
Proof.
  intros [->|[->| ->]]; unfold mem_rd_le, mem_wr_le; cbv zeta.
  - change (1 <? 1) with false. change (2 <? 1) with false. cbv iota. rewrite upd_same. apply byte_low.
  - change (1 <? 2) with true. change (2 <? 2) with false. cbv iota.
    rewrite upd_other, upd_same, upd_same, byte_low, byte_of by lia.
    pose proof (Z.mod_pos_bound v (2 ^ 8) ltac:(lia)). rewrite cat_byte by lia.
    change (8 * 2) with (8 + 8). by rewrite mod_pow2_split by lia.
  - change (1 <? 4) with true. change (2 <? 4) with true. cbv iota.
    repeat (rewrite upd_same || rewrite upd_other by lia).
    rewrite byte_low, !byte_of by lia.
    pose proof (Z.mod_pos_bound v (2 ^ 8) ltac:(lia)). pose proof (Z.mod_pos_bound (v / 2 ^ 8) (2 ^ 8) ltac:(lia)).
    pose proof (Z.mod_pos_bound (v / 2 ^ 16) (2 ^ 8) ltac:(lia)).
    rewrite Z.lor_assoc, (cat_byte (v mod 2 ^ 8)), (cat_byte _ _ 16), (cat_byte _ _ 24) by lia.
    change (8 * 4) with (8 + (8 + (8 + 8))).
    rewrite (mod_pow2_split v 8), (mod_pow2_split (v / 2 ^ 8) 8), (mod_pow2_split (v / 2 ^ 8 / 2 ^ 8) 8) by lia.
    rewrite !Z.div_div, <- !Z.pow_add_r by lia. change (8 + 8) with 16. change (8 + 16) with 24. change (16 + 8) with 24. lia.
Qed.

Lemma mem_wr_frame p i n v j : width_ok n -> ~ (i <= j < i + n) -> mem_wr_le p i n v j = p j.
Proof.
  intros [->|[->| ->]] Hj; unfold mem_wr_le; cbv zeta; simpl; rewrite ?upd_other by lia; done.
Qed.

(** ** What the bus promises *)

Section Promises.
Context {W : Type}.
Implicit Types b : bus W.

(** What decides where an access goes, and the bytes. *)
Definition same_memory b b' : Prop :=
  rg b' = rg b /\ bb b' = bb b /\ dev b' = dev b /\ forall k i, store b' k i = store b k i.

Lemma tell_snoop_memory b a : same_memory b (tell_snoop b a).
Proof. unfold tell_snoop, same_memory. destruct (snoop b); done. Qed.

Lemma same_region b b' a n : same_memory b b' -> bus_region b' a n = bus_region b a n.
Proof. unfold bus_region. by intros (-> & _). Qed.
Lemma same_alias b b' a : same_memory b b' -> alias_of b' a = alias_of b a.
Proof. unfold alias_of. by intros (_ & -> & _). Qed.

Lemma rd_region fuel b a n r : bus_region b a n = Some r ->
  rd fuel b a n = (b, Some (mem_rd_le (store b (r_mem r)) (u32 (a - r_base r)) n)).
Proof. intros E. destruct fuel; simpl; by rewrite E. Qed.

(** The bus after a store in a region. *)
Definition stored b (a n v : Z) (r : region) : bus W :=
  set_store b (fun k => if bool_decide (k = r_mem r) then mem_wr_le (store b k) (u32 (a - r_base r)) n v else store b k).

Lemma wr_region fuel b a n v dbg r : bus_region b a n = Some r ->
  wr fuel b a n v dbg = (let b' := if dbg then b else tell_snoop b a in
    if negb (r_rom r) || dbg then stored b' a n v r else b', true).
Proof.
  intros E. assert (E' : bus_region (if dbg then b else tell_snoop b a) a n = Some r).
  { destruct dbg; [done|]. by rewrite (same_region b) by apply tell_snoop_memory. }
  destruct fuel; simpl; by rewrite E'.
Qed.


(** A bit of a byte, set or cleared. *)
Definition put_bit (byte bit : Z) (on : bool) : Z :=
  if on then Z.lor byte (Z.shiftl 1 bit) else Z.land byte (u32 (Z.lnot (Z.shiftl 1 bit))).

Lemma put_bit_spec byte bit on j : is_byte byte -> 0 <= bit < 8 -> 0 <= j ->
  is_byte (put_bit byte bit on) /\
  Z.testbit (put_bit byte bit on) j = if j =? bit then on else Z.testbit byte j.
Proof.
  intros Hb Hk Hj. unfold put_bit.
  assert (Eb : forall j, 0 <= j -> Z.testbit (Z.shiftl 1 bit) j = (j =? bit)).
  { intros j' Hj'. rewrite Z.shiftl_spec by done. change 1 with (2 ^ 0).
    destruct (Z.ltb_spec j' bit); [rewrite Z.testbit_neg_r by lia; lia|]. rewrite Z.pow2_bits_eqb by lia. lia. }
  split.
  - destruct on.
    + apply (lor_is_u 8); [lia | done |]. unfold is_u. rewrite Z.shiftl_1_l. pose proof (pow2_pos bit ltac:(lia)).
      assert (2 ^ bit < 2 ^ 8) by (apply Z.pow_lt_mono_r; lia). lia.
    + rewrite Z.land_comm. pose proof (land_bound (u32 (Z.lnot (Z.shiftl 1 bit))) byte ltac:(unfold is_byte in Hb; lia)).
      unfold is_byte in *. lia.
  - destruct on; [rewrite Z.lor_spec, Eb by done; destruct (j =? bit); [apply orb_true_r | apply orb_false_r]|].
    rewrite Z.land_spec. unfold uwrap. destruct (Z.ltb_spec j 32).
    + rewrite Z.mod_pow2_bits_low, Z.lnot_spec, Eb by lia.
      destruct (j =? bit); [apply andb_false_r | apply andb_true_r].
    + rewrite (Z.mod_pow2_bits_high _ 32) by lia. rewrite andb_false_r. destruct (Z.eqb_spec j bit); [lia|].
      symmetry. rewrite <- (uwrap_small 8 byte Hb). unfold uwrap. apply Z.mod_pow2_bits_high. lia.
Qed.

(** Bit-band: where no memory answers and an alias does, a load gives one bit of the
    target byte, and a store of an odd or even value sets or clears exactly that bit
    of the byte in RAM, leaving its other bits and every other byte as they were. *)
Theorem bus_bitband b a v t bit r : bus_region b a 4 = None -> alias_of b a = Some (t, bit) ->
  bus_region b t 1 = Some r -> r_rom r = false ->
  let off := u32 (t - r_base r) in
  let byte := store b (r_mem r) off in
  is_byte byte ->
  (bus_read b a 4).2 = Some (b2z (Z.testbit byte bit)) /\
  let '(b', ok) := bus_write b a 4 v in
  ok = true /\
  (forall j, 0 <= j -> Z.testbit (store b' (r_mem r) off) j = if j =? bit then Z.odd v else Z.testbit byte j) /\
  (forall k i, ~ (k = r_mem r /\ i = off) -> store b' k i = store b k i).
Proof.
  intros En Ea Er Hrom off byte Hbyte.
  assert (Rbit : 0 <= bit < 8).
  { unfold alias_of in Ea. destruct (find _ _); [|done]. injection Ea as _ <-.
    pose proof (land_bound (Z.shiftr a 2) 7 ltac:(lia)). lia. }
  assert (Hn : exists n, length (bb b) = S n).
  { unfold alias_of in Ea. destruct (bb b); [done|]. by eexists. }
  destruct Hn as (n & Hn). unfold bus_read, bus_write. rewrite Hn. split.
  - simpl. rewrite En, Ea, (rd_region n b t 1 r Er). simpl. f_equal.
    change (mem_rd_le (store b (r_mem r)) (u32 (t - r_base r)) 1) with byte. rewrite Z.shiftr_div_pow2 by lia.
    transitivity ((byte / 2 ^ bit) mod 2); [exact (land_ones_mod (byte / 2 ^ bit) 1 ltac:(lia))|].
    rewrite <- Z.testbit_spec' by lia. by destruct (Z.testbit byte bit).
  - cbn [wr]. pose proof (tell_snoop_memory b a) as S. destruct S as (S1 & S2 & S3 & S4).
    rewrite (same_region b), En, (same_alias b), Ea by (by split_and!). rewrite S2.
    rewrite (rd_region _ (tell_snoop b a) t 1 r) by (rewrite (same_region b); [done | by split_and!]).
    change (mem_rd_le (store (tell_snoop b a) (r_mem r)) (u32 (t - r_base r)) 1) with (store (tell_snoop b a) (r_mem r) off).
    rewrite S4. fold byte.
    assert (Eo : negb (Z.land v 1 =? 0) = Z.odd v).
    { change (Z.land v 1) with (Z.land v (2 ^ 1 - 1)). rewrite land_ones_mod by lia. change (2 ^ 1) with 2.
      rewrite Zmod_odd. by destruct (Z.odd v). }
    rewrite Eo. change (if Z.odd v then Z.lor byte _ else _) with (put_bit byte bit (Z.odd v)).
    rewrite (wr_region _ _ t 1 _ false r) by (rewrite (same_region b); [done | by split_and!]).
    rewrite Hrom. cbn [negb orb]. cbv iota. set (b1 := tell_snoop (tell_snoop b a) t).
    assert (T4 : forall k i, store b1 k i = store b k i).
    { intros k i. destruct (tell_snoop_memory (tell_snoop b a) t) as (_ & _ & _ & T). unfold b1. by rewrite T. }
    split_and!; [done | |].
    + intros j Hj. destruct (put_bit_spec byte bit (Z.odd v) j Hbyte Rbit Hj) as (Hpb & Ej). simpl.
      rewrite bool_decide_eq_true_2 by done. unfold mem_wr_le. simpl. unfold off. rewrite upd_same, byte_low.
      rewrite Z.mod_small by exact Hpb. done.
    + intros k i Hk. simpl. case_bool_decide as Ek; [|apply T4]. rewrite mem_wr_frame, T4; [done | by left |].
      intros Hi. apply Hk. split; [done|]. unfold off. lia.
Qed.

(** The ranges of an access and of a watchpoint meet. *)
Definition overlap (a n w l : Z) : Prop := Z.max a w < Z.min (a + n) (w + l).

Lemma watch_ranges a n w l : 0 <= a -> 0 < n -> a + n <= 2 ^ 32 -> 0 <= w -> 0 < l -> w + l <= 2 ^ 32 ->
  (u32 (a - w) <? l) || (u32 (w - a) <? n) = true <-> overlap a n w l.
Proof.
  intros. unfold overlap.
  assert (U : forall x, - 2 ^ 32 < x < 2 ^ 32 -> u32 x = if x <? 0 then x + 2 ^ 32 else x).
  { intros x Hx. unfold uwrap. destruct (Z.ltb_spec x 0).
    - symmetry. apply Z.mod_unique with (-1); lia.
    - apply Z.mod_small. lia. }
  rewrite orb_true_iff, !Z.ltb_lt, (U (a - w)), (U (w - a)) by lia.
  destruct (Z.ltb_spec (a - w) 0), (Z.ltb_spec (w - a) 0); lia.
Qed.

(** Watchpoints: the core's access is stopped exactly when some watchpoint of its
    kind, or of accesses, meets its bytes, and the first one that did is the one
    recorded, with the higher of the two addresses; nothing else changes. *)
Theorem bus_watch_exact b a n write : 0 <= a -> 0 < n -> a + n <= 2 ^ 32 ->
  Forall (fun w => 0 <= w_addr w /\ 0 < w_len w /\ w_addr w + w_len w <= 2 ^ 32) (watches b) ->
  let '(b', hit) := bus_watch_check b a n write in
  (hit = true <-> exists w, w ∈ watches b /\ overlap a n (w_addr w) (w_len w) /\
     (w_kind w = WATCH_ACCESS \/ w_kind w = if write then WATCH_WRITE else WATCH_READ)) /\
  (hit = false -> b' = b) /\
  (hit = true -> watch_hit b = true -> b' = b) /\
  (hit = true -> watch_hit b = false -> watch_hit b' = true /\ same_memory b b' /\
     exists w, w ∈ watches b /\ watch_kind b' = w_kind w /\ watch_addr b' = Z.max a (w_addr w)).
Proof.
  intros Ha Hn Hr HW. unfold bus_watch_check.
  assert (Ap : forall w, w ∈ watches b -> watch_applies w a n write = true <->
    overlap a n (w_addr w) (w_len w) /\ (w_kind w = WATCH_ACCESS \/ w_kind w = if write then WATCH_WRITE else WATCH_READ)).
  { intros w Hw. pose proof (Forall_in _ _ HW w Hw) as (? & ? & ?). unfold watch_applies.
    rewrite andb_true_iff, watch_ranges by done. rewrite orb_true_iff, !Z.eqb_eq. tauto. }
  destruct (find _ (watches b)) as [w|] eqn:F.
  - apply find_some in F as [Hin Happ]. apply list_elem_of_In in Hin.
    pose proof (proj1 (Ap w Hin) Happ) as (O & K). split_and!; try done.
    + split; [|done]. intros _. by exists w.
    + by intros _ ->.
    + intros _ ->. simpl. split_and!; try done. exists w. split_and!; try done.
      destruct (Z.ltb_spec (w_addr w) a); lia.
  - split_and!; try done. split; [done|]. intros (w & Hw & O & K).
    pose proof (find_none _ _ F w ltac:(by apply list_elem_of_In)) as N. cbv beta in N.
    rewrite (proj2 (Ap w Hw)) in N; done.
Qed.
End Promises.

(** A board with 256 bytes of RAM, its bit-band alias and a watchpoint. *)
Definition demo_ram : region := Region 0x20000000 256 0 false MEM_RAM 0.
Definition demo_bus : bus unit :=
  MkBus [demo_ram] (fun _ _ => 0) 1 [] [Alias 0x22000000 8192 0x20000000] 0 None
    [Watch 0x20000008 4 WATCH_WRITE] false 0 0 false false false ().


Lemma bus_bitband_witness : (bus_read demo_bus 0x22000204 4).2 = Some 0 /\
  let '(b', ok) := bus_write demo_bus 0x22000204 4 1 in
  ok = true /\ Z.testbit (store b' 0%nat 16) 1 = true /\ store b' 0%nat 17 = 0.
Proof.
  pose proof (bus_bitband demo_bus 0x22000204 1 0x20000010 1 demo_ram eq_refl eq_refl eq_refl eq_refl ltac:(by vm_compute)) as (R & H).
  split; [exact R|]. destruct (bus_write demo_bus 0x22000204 4 1) as [b' ok]. destruct H as (H1 & H2 & H3).
  split_and!; [done | exact (H2 1 ltac:(lia)) | apply (H3 0%nat 17); intros [_ E]; vm_compute in E; discriminate E].
Defined.

Lemma bus_watch_exact_witness : (bus_watch_check demo_bus 0x2000000a 4 true).2 = true.
Proof.
  pose proof (bus_watch_exact demo_bus 0x2000000a 4 true ltac:(lia) ltac:(lia) ltac:(lia)
    ltac:(repeat constructor; simpl; lia)) as H.
  destruct (bus_watch_check demo_bus 0x2000000a 4 true) as [b' hit]. destruct H as (H & _). apply H.
  exists (Watch 0x20000008 4 WATCH_WRITE). split_and!; [by left | unfold overlap; simpl; lia | by right].
Defined.
