(* ===== verification/RvEncode.v ===== *)
(** * RISC-V instruction words: [src/src/arch/riscv/emit.c]

    The six instruction formats, with the range checks that stop the compiler
    ([internal_error], here [None]), and the compressor that derives a 16-bit form
    from the 32-bit word every instruction is first encoded as ([rv_compress] and,
    with the Zcb extension, [zcb_compress]). One definition per [case] of the
    compressor's switch; the layouts it spells out again at each form are named
    once. *)
From stdpp Require Import base numbers list option.
From Stdlib Require Import ZArith Lia.
From S2P Require Import Prelude.

Local Open Scope Z_scope.

Definition OP_LOAD := 0x03.
Definition OP_IMM := 0x13.
Definition OP_AUIPC := 0x17.
Definition OP_IMM32 := 0x1b.
Definition OP_STORE := 0x23.
Definition OP_OP := 0x33.
Definition OP_LUI := 0x37.
Definition OP_OP32 := 0x3b.
Definition OP_BRANCH := 0x63.
Definition OP_JALR := 0x67.
Definition OP_JAL := 0x6f.
Definition OP_SYSTEM := 0x73.

Definition rv_fits (v bits : Z) : bool :=
  let lo := - Z.shiftl 1 (bits - 1) in
  let hi := Z.shiftl 1 (bits - 1) - 1 in
  (lo <=? v) && (v <=? hi).

(** [internal_error] does not return. *)
Definition need (v bits : Z) : option unit := if rv_fits v bits then Some () else None.
Definition need_reg (r : Z) : option unit := if (r <? 0) || (31 <? r) then None else Some ().
Definition need_even (imm : Z) : option unit := if Z.land imm 1 =? 0 then Some () else None.

(** ** The formats *)

Definition rv_enc_r (op rd f3 rs1 rs2 f7 : Z) : option Z :=
  _ ← need_reg rd; _ ← need_reg rs1; _ ← need_reg rs2;
  Some (Z.lor (Z.lor (Z.lor (Z.lor (Z.lor op (Z.shiftl rd 7)) (Z.shiftl f3 12)) (Z.shiftl rs1 15))
                     (Z.shiftl rs2 20)) (Z.shiftl f7 25)).

Definition rv_enc_i (op rd f3 rs1 imm : Z) : option Z :=
  _ ← need_reg rd; _ ← need_reg rs1; _ ← need imm 12;
  Some (Z.lor (Z.lor (Z.lor (Z.lor op (Z.shiftl rd 7)) (Z.shiftl f3 12)) (Z.shiftl rs1 15))
              (Z.shiftl (Z.land (u64 imm) 0xfff) 20)).

Definition rv_enc_s (op f3 rs1 rs2 imm : Z) : option Z :=
  _ ← need_reg rs1; _ ← need_reg rs2; _ ← need imm 12;
  let u := Z.land (u64 imm) 0xfff in
  Some (Z.lor (Z.lor (Z.lor (Z.lor (Z.lor op (Z.shiftl (Z.land u 0x1f) 7)) (Z.shiftl f3 12))
                            (Z.shiftl rs1 15)) (Z.shiftl rs2 20)) (Z.shiftl (Z.shiftr u 5) 25)).

Definition rv_enc_b (op f3 rs1 rs2 imm : Z) : option Z :=
  _ ← need_reg rs1; _ ← need_reg rs2; _ ← need_even imm; _ ← need imm 13;
  let u := u64 imm in
  Some (Z.lor (Z.lor (Z.lor (Z.lor (Z.lor (Z.lor (Z.lor op (Z.shiftl f3 12)) (Z.shiftl rs1 15)) (Z.shiftl rs2 20))
         (Z.shiftl (Z.land (Z.shiftr u 11) 1) 7)) (Z.shiftl (Z.land (Z.shiftr u 1) 0xf) 8))
         (Z.shiftl (Z.land (Z.shiftr u 5) 0x3f) 25)) (Z.shiftl (Z.land (Z.shiftr u 12) 1) 31)).

Definition rv_enc_u (op rd hi20 : Z) : option Z :=
  _ ← need_reg rd;
  Some (Z.lor (Z.lor op (Z.shiftl rd 7)) (Z.shiftl (Z.land (u64 hi20) 0xfffff) 12)).

Definition rv_enc_j (op rd imm : Z) : option Z :=
  _ ← need_reg rd; _ ← need_even imm; _ ← need imm 21;
  let u := u64 imm in
  Some (Z.lor (Z.lor (Z.lor (Z.lor (Z.lor op (Z.shiftl rd 7)) (Z.shiftl (Z.land (Z.shiftr u 12) 0xff) 12))
         (Z.shiftl (Z.land (Z.shiftr u 11) 1) 20)) (Z.shiftl (Z.land (Z.shiftr u 1) 0x3ff) 21))
         (Z.shiftl (Z.land (Z.shiftr u 20) 1) 31)).

(** ** The fields of a word *)

Definition op_of (w : Z) : Z := Z.land w 0x7f.
Definition rd_of (w : Z) : Z := Z.land (Z.shiftr w 7) 0x1f.
Definition f3_of (w : Z) : Z := Z.land (Z.shiftr w 12) 7.
Definition rs1_of (w : Z) : Z := Z.land (Z.shiftr w 15) 0x1f.
Definition rs2_of (w : Z) : Z := Z.land (Z.shiftr w 20) 0x1f.
Definition f7_of (w : Z) : Z := Z.land (Z.shiftr w 25) 0x7f.
(** Twelve bits, sign-extended from bit 11 by hand. *)
Definition sext12 (i : Z) : Z := if negb (Z.land i 0x800 =? 0) then i - 0x1000 else i.
Definition immi_of (w : Z) : Z := sext12 (Z.land (Z.shiftr w 20) 0xfff).
Definition imms_of (w : Z) : Z := sext12 (Z.lor (Z.shiftl (f7_of w) 5) (rd_of w)).

(** ** The 16-bit layouts *)

Definition creg (r : Z) : Z := if (8 <=? r) && (r <=? 15) then r - 8 else -1.

Definition cr_ca (op f6 rd_ f2 rs2_ : Z) : Z :=
  Z.lor (Z.lor (Z.lor (Z.lor op (Z.shiftl rs2_ 2)) (Z.shiftl f2 5)) (Z.shiftl rd_ 7)) (Z.shiftl f6 10).

(** A six-bit signed immediate and a register: c.addi, c.li, c.addiw, c.lui, c.andi. *)
Definition c_ci (base rd imm : Z) : Z :=
  Z.lor (Z.lor (Z.lor base (Z.shiftl (Z.land imm 0x1f) 2)) (Z.shiftl rd 7)) (Z.shiftl (b2z (imm <? 0)) 12).
(** Two registers: c.mv, c.add, c.jr, c.jalr. *)
Definition c_cr (base rd rs : Z) : Z := Z.lor (Z.lor base (Z.shiftl rs 2)) (Z.shiftl rd 7).
Definition c_addi16sp (i : Z) : Z :=
  Z.lor (Z.lor (Z.lor (Z.lor (Z.lor 0x6101 (Z.shiftl (Z.land (Z.shiftr i 5) 1) 2))
    (Z.shiftl (Z.land (Z.shiftr i 7) 3) 3)) (Z.shiftl (Z.land (Z.shiftr i 6) 1) 5))
    (Z.shiftl (Z.land (Z.shiftr i 4) 1) 6)) (Z.shiftl (Z.land (Z.shiftr i 9) 1) 12).
Definition c_addi4spn (rdc i : Z) : Z :=
  Z.lor (Z.lor (Z.lor (Z.lor (Z.lor 0x0000 (Z.shiftl rdc 2)) (Z.shiftl (Z.land (Z.shiftr i 3) 1) 5))
    (Z.shiftl (Z.land (Z.shiftr i 2) 1) 6)) (Z.shiftl (Z.land (Z.shiftr i 6) 0xf) 7))
    (Z.shiftl (Z.land (Z.shiftr i 4) 3) 11).
(** A six-bit shift amount: c.slli, and with [kind] c.srli and c.srai. *)
Definition c_shift (base rd kind sh : Z) : Z :=
  Z.lor (Z.lor (Z.lor (Z.lor base (Z.shiftl (Z.land sh 0x1f) 2)) (Z.shiftl rd 7)) (Z.shiftl kind 10))
        (Z.shiftl (Z.land (Z.shiftr sh 5) 1) 12).
(** c.lwsp and c.flwsp; c.ldsp and c.fldsp. *)
Definition c_lwsp (base rd i : Z) : Z :=
  Z.lor (Z.lor (Z.lor (Z.lor base (Z.shiftl (Z.land (Z.shiftr i 6) 3) 2)) (Z.shiftl (Z.land (Z.shiftr i 2) 7) 4))
    (Z.shiftl (Z.land (Z.shiftr i 5) 1) 12)) (Z.shiftl rd 7).
Definition c_ldsp (base rd i : Z) : Z :=
  Z.lor (Z.lor (Z.lor (Z.lor base (Z.shiftl (Z.land (Z.shiftr i 6) 7) 2)) (Z.shiftl (Z.land (Z.shiftr i 3) 3) 5))
    (Z.shiftl (Z.land (Z.shiftr i 5) 1) 12)) (Z.shiftl rd 7).
(** A word at a three-bit register: c.lw, c.flw, c.sw, c.fsw; a doubleword. *)
Definition c_lw (base rc rs1c i : Z) : Z :=
  Z.lor (Z.lor (Z.lor (Z.lor (Z.lor base (Z.shiftl rc 2)) (Z.shiftl (Z.land (Z.shiftr i 6) 1) 5))
    (Z.shiftl (Z.land (Z.shiftr i 2) 1) 6)) (Z.shiftl rs1c 7)) (Z.shiftl (Z.land (Z.shiftr i 3) 7) 10).
Definition c_ld (base rc rs1c i : Z) : Z :=
  Z.lor (Z.lor (Z.lor (Z.lor base (Z.shiftl rc 2)) (Z.shiftl (Z.land (Z.shiftr i 6) 3) 5)) (Z.shiftl rs1c 7))
    (Z.shiftl (Z.land (Z.shiftr i 3) 7) 10).
(** c.swsp and c.fswsp; c.sdsp and c.fsdsp. *)
Definition c_swsp (base rs2 i : Z) : Z :=
  Z.lor (Z.lor (Z.lor base (Z.shiftl rs2 2)) (Z.shiftl (Z.land (Z.shiftr i 6) 3) 7))
    (Z.shiftl (Z.land (Z.shiftr i 2) 0xf) 9).
Definition c_sdsp (base rs2 i : Z) : Z :=
  Z.lor (Z.lor (Z.lor base (Z.shiftl rs2 2)) (Z.shiftl (Z.land (Z.shiftr i 6) 7) 7))
    (Z.shiftl (Z.land (Z.shiftr i 3) 7) 10).

(** ** The compressor, a [case] at a time; [0] is no short form *)

Definition six_bit (imm : Z) : bool := (-32 <=? imm) && (imm <? 32).
(** An offset of [0 .. n-1] with the low bits of [mask] clear. *)
Definition offset_ok (i n mask : Z) : bool := (0 <=? i) && (i <? n) && (Z.land i mask =? 0).

Definition compress_addi (w : Z) : Z :=
  let rd := rd_of w in let rs1 := rs1_of w in let immi := immi_of w in let rdc := creg rd in
  if (rd =? 0) && (rs1 =? 0) && (immi =? 0) then 0x0001
  else if negb (rd =? 0) && (rs1 =? rd) && negb (immi =? 0) && six_bit immi then c_ci 0x0001 rd immi
  else if negb (rd =? 0) && (rs1 =? 0) && six_bit immi then c_ci 0x4001 rd immi
  else if negb (rd =? 0) && negb (rs1 =? 0) && (immi =? 0) then c_cr 0x8002 rd rs1
  else if (rd =? 2) && (rs1 =? 2) && negb (immi =? 0) && (Z.land immi 15 =? 0) &&
          (-512 <=? immi) && (immi <? 512) then c_addi16sp (u32 immi)
  else if (0 <=? rdc) && (rs1 =? 2) && (0 <? immi) && (immi <? 1024) && (Z.land immi 3 =? 0)
  then c_addi4spn rdc (u32 immi)
  else 0.

Definition compress_op_imm (w xlen : Z) : Z :=
  let rd := rd_of w in let rs1 := rs1_of w in let f3 := f3_of w in let f7 := f7_of w in
  let immi := immi_of w in let rdc := creg rd in
  let sh := Z.land (Z.shiftr w 20) (if xlen =? 64 then 0x3f else 0x1f) in
  let addi := if f3 =? 0 then compress_addi w else 0 in
  if negb (addi =? 0) then addi
  else if (f3 =? 7) && (0 <=? rdc) && (rs1 =? rd) && six_bit immi then c_ci 0x8801 rdc immi
  else if (f3 =? 1) && negb (rd =? 0) && (rs1 =? rd) && (f7 <=? 1) &&
          (negb (sh =? 0) && ((xlen =? 64) || (sh <? 32))) then c_shift 0x0002 rd 0 sh
  else if (f3 =? 5) && (0 <=? rdc) && (rs1 =? rd) &&
          ((Z.land f7 (u32 (Z.lnot 1)) =? 0) || (Z.land f7 (u32 (Z.lnot 1)) =? 0x20)) &&
          (negb (sh =? 0) && ((xlen =? 64) || (sh <? 32)))
  then c_shift 0x8001 rdc (if negb (Z.land f7 0x20 =? 0) then 1 else 0) sh
  else 0.

Definition compress_op_imm32 (w xlen : Z) : Z :=
  let rd := rd_of w in let rs1 := rs1_of w in let immi := immi_of w in
  if (xlen =? 64) && (f3_of w =? 0) && negb (rd =? 0) && (rs1 =? rd) && six_bit immi then c_ci 0x2001 rd immi
  else if (xlen =? 64) && (f3_of w =? 0) && negb (rd =? 0) && (rs1 =? 0) && six_bit immi then c_ci 0x4001 rd immi
  else 0.

Definition compress_lui (w : Z) : Z :=
  let rd := rd_of w in
  let hi := Z.land (Z.shiftr w 12) 0xfffff in
  let s := if negb (Z.land hi 0x80000 =? 0) then hi - 0x100000 else hi in
  if negb (rd =? 0) && negb (rd =? 2) && negb (s =? 0) && six_bit s then c_ci 0x6001 rd s else 0.

Definition compress_op (w : Z) : Z :=
  let rd := rd_of w in let rs1 := rs1_of w in let rs2 := rs2_of w in let f3 := f3_of w in let f7 := f7_of w in
  let rdc := creg rd in let rs2c := creg rs2 in
  let add := (f3 =? 0) && (f7 =? 0) in
  if add && negb (rd =? 0) && (rs1 =? 0) && negb (rs2 =? 0) then c_cr 0x8002 rd rs2
  else if add && negb (rd =? 0) && (rs2 =? 0) && negb (rs1 =? 0) then c_cr 0x8002 rd rs1
  else if add && negb (rd =? 0) && (rs1 =? rd) && negb (rs2 =? 0) then c_cr 0x9002 rd rs2
  else if (0 <=? rdc) && (0 <=? rs2c) && (rs1 =? rd) then
    if (f3 =? 0) && (f7 =? 0x20) then cr_ca 0x8001 0x23 rdc 0 rs2c
    else if (f3 =? 4) && (f7 =? 0) then cr_ca 0x8001 0x23 rdc 1 rs2c
    else if (f3 =? 6) && (f7 =? 0) then cr_ca 0x8001 0x23 rdc 2 rs2c
    else if (f3 =? 7) && (f7 =? 0) then cr_ca 0x8001 0x23 rdc 3 rs2c
    else 0
  else 0.

Definition compress_op32 (w xlen : Z) : Z :=
  let rd := rd_of w in let rdc := creg rd in let rs2c := creg (rs2_of w) in
  if (xlen =? 64) && (0 <=? rdc) && (0 <=? rs2c) && (rs1_of w =? rd) && (f3_of w =? 0) then
    if f7_of w =? 0x20 then cr_ca 0x9001 0x27 rdc 0 rs2c
    else if f7_of w =? 0 then cr_ca 0x9001 0x27 rdc 1 rs2c
    else 0
  else 0.

Definition compress_load (w xlen : Z) : Z :=
  let rd := rd_of w in let rs1 := rs1_of w in let f3 := f3_of w in let immi := immi_of w in
  let rdc := creg rd in let rs1c := creg rs1 in
  if (f3 =? 2) && (negb (rd =? 0) && (rs1 =? 2) && offset_ok immi 256 3) then c_lwsp 0x4002 rd (u32 immi)
  else if (f3 =? 2) && ((0 <=? rdc) && (0 <=? rs1c) && offset_ok immi 128 3) then c_lw 0x4000 rdc rs1c (u32 immi)
  else if (f3 =? 3) && (xlen =? 64) && (negb (rd =? 0) && (rs1 =? 2) && offset_ok immi 512 7)
  then c_ldsp 0x6002 rd (u32 immi)
  else if (f3 =? 3) && (xlen =? 64) && ((0 <=? rdc) && (0 <=? rs1c) && offset_ok immi 256 7)
  then c_ld 0x6000 rdc rs1c (u32 immi)
  else 0.

Definition compress_store (w xlen : Z) : Z :=
  let rs1 := rs1_of w in let rs2 := rs2_of w in let f3 := f3_of w in let imms := imms_of w in
  let rs1c := creg rs1 in let rs2c := creg rs2 in
  if (f3 =? 2) && ((rs1 =? 2) && offset_ok imms 256 3) then c_swsp 0xc002 rs2 (u32 imms)
  else if (f3 =? 2) && ((0 <=? rs1c) && (0 <=? rs2c) && offset_ok imms 128 3) then c_lw 0xc000 rs2c rs1c (u32 imms)
  else if (f3 =? 3) && (xlen =? 64) && ((rs1 =? 2) && offset_ok imms 512 7) then c_sdsp 0xe002 rs2 (u32 imms)
  else if (f3 =? 3) && (xlen =? 64) && ((0 <=? rs1c) && (0 <=? rs2c) && offset_ok imms 256 7)
  then c_ld 0xe000 rs2c rs1c (u32 imms)
  else 0.

Definition compress_load_fp (w xlen : Z) : Z :=
  let rd := rd_of w in let rs1 := rs1_of w in let f3 := f3_of w in let immi := immi_of w in
  let rdc := creg rd in let rs1c := creg rs1 in
  if (f3 =? 3) && ((rs1 =? 2) && offset_ok immi 512 7) then c_ldsp 0x2002 rd (u32 immi)
  else if (f3 =? 3) && ((0 <=? rdc) && (0 <=? rs1c) && offset_ok immi 256 7) then c_ld 0x2000 rdc rs1c (u32 immi)
  else if (f3 =? 2) && (xlen =? 32) && ((rs1 =? 2) && offset_ok immi 256 3) then c_lwsp 0x6002 rd (u32 immi)
  else if (f3 =? 2) && (xlen =? 32) && ((0 <=? rdc) && (0 <=? rs1c) && offset_ok immi 128 3)
  then c_lw 0x6000 rdc rs1c (u32 immi)
  else 0.

Definition compress_store_fp (w xlen : Z) : Z :=
  let rs1 := rs1_of w in let rs2 := rs2_of w in let f3 := f3_of w in let imms := imms_of w in
  let rs1c := creg rs1 in let rs2c := creg rs2 in
  if (f3 =? 3) && ((rs1 =? 2) && offset_ok imms 512 7) then c_sdsp 0xa002 rs2 (u32 imms)
  else if (f3 =? 3) && ((0 <=? rs1c) && (0 <=? rs2c) && offset_ok imms 256 7) then c_ld 0xa000 rs2c rs1c (u32 imms)
  else if (f3 =? 2) && (xlen =? 32) && ((rs1 =? 2) && offset_ok imms 256 3) then c_swsp 0xe002 rs2 (u32 imms)
  else if (f3 =? 2) && (xlen =? 32) && ((0 <=? rs1c) && (0 <=? rs2c) && offset_ok imms 128 3)
  then c_lw 0xe000 rs2c rs1c (u32 imms)
  else 0.

Definition compress_jalr (w : Z) : Z :=
  let rd := rd_of w in let rs1 := rs1_of w in
  if (f3_of w =? 0) && (immi_of w =? 0) && negb (rs1 =? 0) then
    if rd =? 0 then Z.lor 0x8002 (Z.shiftl rs1 7)
    else if rd =? 1 then Z.lor 0x9002 (Z.shiftl rs1 7)
    else 0
  else 0.

Definition compress_system (w : Z) : Z := if w =? 0x00100073 then 0x9002 else 0.

(** ** Zcb *)

Definition RV_EXT_ZBA := 1.
Definition RV_EXT_ZBB := 2.
Definition RV_EXT_ZCB := 4096.
Definition has_ext (ext e : Z) : bool := negb (Z.land ext e =? 0).

Definition zcb_compress (w xlen ext : Z) : Z :=
  let op := op_of w in let f3 := f3_of w in let f7 := f7_of w in
  let rd := rd_of w in let rs1 := rs1_of w in let rs2 := rs2_of w in
  let immi := Z.land (Z.shiftr w 20) 0xfff in
  let imms := Z.lor (Z.shiftl (f7_of w) 5) (rd_of w) in
  let rdc := if (8 <=? rd) && (rd <? 16) then rd - 8 else -1 in
  let r1c := if (8 <=? rs1) && (rs1 <? 16) then rs1 - 8 else -1 in
  let r2c := if (8 <=? rs2) && (rs2 <? 16) then rs2 - 8 else -1 in
  let u := Z.lor 0x9c61 (Z.shiftl rdc 7) in
  if (op =? 0x03) && (0 <=? rdc) && (0 <=? r1c) && ((f3 =? 4) && (0 <=? immi) && (immi <=? 3))
  then Z.lor (Z.lor (Z.lor (Z.lor 0x8000 (Z.shiftl r1c 7)) (Z.shiftl (Z.land immi 1) 6))
             (Z.shiftl (Z.land (Z.shiftr immi 1) 1) 5)) (Z.shiftl rdc 2)
  else if (op =? 0x03) && (0 <=? rdc) && (0 <=? r1c) && (((f3 =? 5) || (f3 =? 1)) && ((immi =? 0) || (immi =? 2)))
  then Z.lor (Z.lor (Z.lor (Z.lor 0x8400 (Z.shiftl r1c 7)) (if f3 =? 1 then Z.shiftl 1 6 else 0))
             (Z.shiftl (Z.shiftr immi 1) 5)) (Z.shiftl rdc 2)
  else if (op =? 0x23) && (0 <=? r1c) && (0 <=? r2c) && ((f3 =? 0) && (0 <=? imms) && (imms <=? 3))
  then Z.lor (Z.lor (Z.lor (Z.lor 0x8800 (Z.shiftl r1c 7)) (Z.shiftl (Z.land imms 1) 6))
             (Z.shiftl (Z.land (Z.shiftr imms 1) 1) 5)) (Z.shiftl r2c 2)
  else if (op =? 0x23) && (0 <=? r1c) && (0 <=? r2c) && ((f3 =? 1) && ((imms =? 0) || (imms =? 2)))
  then Z.lor (Z.lor (Z.lor 0x8c00 (Z.shiftl r1c 7)) (Z.shiftl (Z.shiftr imms 1) 5)) (Z.shiftl r2c 2)
  else if (rdc <? 0) || negb (rs1 =? rd) then 0
  else if (op =? 0x13) && (f3 =? 7) && (immi =? 0xff) then u
  else if (op =? 0x13) && (f3 =? 4) && (immi =? 0xfff) then Z.lor u (Z.shiftl 5 2)
  else if has_ext ext RV_EXT_ZBB && (op =? 0x13) && (f3 =? 1) && ((immi =? 0x604) || (immi =? 0x605))
  then Z.lor u (Z.shiftl (if immi =? 0x604 then 1 else 3) 2)
  else if has_ext ext RV_EXT_ZBB && (f7 =? 0x04) && (f3 =? 4) && (rs2 =? 0) &&
          (op =? (if xlen =? 64 then 0x3b else 0x33))
  then Z.lor u (Z.shiftl 2 2)
  else if (xlen =? 64) && has_ext ext RV_EXT_ZBA && (op =? 0x3b) && (f3 =? 0) && (f7 =? 0x04) && (rs2 =? 0)
  then Z.lor u (Z.shiftl 4 2)
  else if (op =? 0x33) && (f3 =? 0) && (f7 =? 0x01) && (0 <=? r2c)
  then Z.lor (Z.lor 0x9c41 (Z.shiftl rdc 7)) (Z.shiftl r2c 2)
  else 0.

(** [ext] is what the hook returns, [0] when none is installed. *)
Definition rv_compress (ext w xlen : Z) : Z :=
  let z := if has_ext ext RV_EXT_ZCB then zcb_compress w xlen ext else 0 in
  if negb (z =? 0) then z
  else
    let op := op_of w in
    if op =? 0x13 then compress_op_imm w xlen
    else if op =? 0x1b then compress_op_imm32 w xlen
    else if op =? 0x37 then compress_lui w
    else if op =? 0x33 then compress_op w
    else if op =? 0x3b then compress_op32 w xlen
    else if op =? 0x03 then compress_load w xlen
    else if op =? 0x23 then compress_store w xlen
    else if op =? 0x07 then compress_load_fp w xlen
    else if op =? 0x27 then compress_store_fp w xlen
    else if op =? 0x67 then compress_jalr w
    else if op =? 0x73 then compress_system w
    else 0.
