(* ===== verification/RvExpand.v ===== *)
(** * The simulator's decoder of compressed instructions: [src/tools/embsim/riscv.c]

    [rvc_expand] gives a 16-bit instruction's 32-bit equivalent, which the simulated
    core then executes. It was written apart from the compiler's compressor
    ([RvEncode]); [RvCompress] shows the two agree. *)
From stdpp Require Import base numbers list option.
From Stdlib Require Import ZArith Lia.
From S2P Require Import Prelude.

Local Open Scope Z_scope.

(** ** The simulator's own packers *)

Definition enc_i (op rd f3 rs1 imm : Z) : Z :=
  Z.lor (Z.lor (Z.lor (Z.lor (u32 (Z.shiftl (Z.land (u32 imm) 0xfff) 20)) (u32 (Z.shiftl rs1 15)))
    (u32 (Z.shiftl f3 12))) (u32 (Z.shiftl rd 7))) op.
Definition enc_s (op f3 rs1 rs2 imm : Z) : Z :=
  let m := u32 imm in
  Z.lor (Z.lor (Z.lor (Z.lor (Z.lor (u32 (Z.shiftl (Z.land (Z.shiftr m 5) 0x7f) 25)) (u32 (Z.shiftl rs2 20)))
    (u32 (Z.shiftl rs1 15))) (u32 (Z.shiftl f3 12))) (u32 (Z.shiftl (Z.land m 31) 7))) op.
Definition enc_r (op rd f3 rs1 rs2 f7 : Z) : Z :=
  Z.lor (Z.lor (Z.lor (Z.lor (Z.lor (u32 (Z.shiftl f7 25)) (u32 (Z.shiftl rs2 20))) (u32 (Z.shiftl rs1 15)))
    (u32 (Z.shiftl f3 12))) (u32 (Z.shiftl rd 7))) op.
Definition enc_b (f3 rs1 rs2 imm : Z) : Z :=
  let m := u32 imm in
  Z.lor (Z.lor (Z.lor (Z.lor (Z.lor (Z.lor (Z.lor (u32 (Z.shiftl (Z.land (Z.shiftr m 12) 1) 31))
    (u32 (Z.shiftl (Z.land (Z.shiftr m 5) 0x3f) 25))) (u32 (Z.shiftl rs2 20))) (u32 (Z.shiftl rs1 15)))
    (u32 (Z.shiftl f3 12))) (u32 (Z.shiftl (Z.land (Z.shiftr m 1) 15) 8)))
    (u32 (Z.shiftl (Z.land (Z.shiftr m 11) 1) 7))) 0x63.
Definition enc_j (rd imm : Z) : Z :=
  let m := u32 imm in
  Z.lor (Z.lor (Z.lor (Z.lor (Z.lor (u32 (Z.shiftl (Z.land (Z.shiftr m 20) 1) 31))
    (u32 (Z.shiftl (Z.land (Z.shiftr m 1) 0x3ff) 21))) (u32 (Z.shiftl (Z.land (Z.shiftr m 11) 1) 20)))
    (u32 (Z.shiftl (Z.land (Z.shiftr m 12) 0xff) 12))) (u32 (Z.shiftl rd 7))) 0x6f.

Definition bit (h n : Z) : Z := Z.land (Z.shiftr h n) 1.
(** [(s32)(v << k) >> k]: the low [32 - k] bits, signed. *)
Definition sext_at (v k : Z) : Z := Z.shiftr (s32 (Z.shiftl v k)) k.

(** ** The three quadrants *)

Definition rdp (h : Z) : Z := Z.land (Z.shiftr h 2) 7 + 8.
Definition rs1p (h : Z) : Z := Z.land (Z.shiftr h 7) 7 + 8.
Definition ci (h : Z) : Z := sext_at (Z.lor (Z.shiftl (bit h 12) 5) (Z.land (Z.shiftr h 2) 31)) 26.
Definition uld (h : Z) : Z := Z.lor (Z.shiftl (Z.land (Z.shiftr h 10) 7) 3) (Z.shiftl (Z.land (Z.shiftr h 5) 3) 6).
Definition ulw (h : Z) : Z :=
  Z.lor (Z.lor (Z.shiftl (Z.land (Z.shiftr h 10) 7) 3) (Z.shiftl (bit h 6) 2)) (Z.shiftl (bit h 5) 6).

Definition rvc_quadrant0 (h xlen : Z) : Z :=
  let rdp := rdp h in let rs1p := rs1p h in let uld := uld h in let ulw := ulw h in
  match Z.shiftr h 13 with
  | 0 => let imm := Z.lor (Z.lor (Z.lor (Z.shiftl (Z.land (Z.shiftr h 11) 3) 4) (Z.shiftl (Z.land (Z.shiftr h 7) 15) 6))
                          (Z.shiftl (bit h 6) 2)) (Z.shiftl (bit h 5) 3) in
         if imm =? 0 then 0 else enc_i 0x13 rdp 0 2 imm
  | 1 => enc_i 0x07 rdp 3 rs1p uld
  | 2 => enc_i 0x03 rdp 2 rs1p ulw
  | 3 => if xlen =? 32 then enc_i 0x07 rdp 2 rs1p ulw else enc_i 0x03 rdp 3 rs1p uld
  | 5 => enc_s 0x27 3 rs1p rdp uld
  | 6 => enc_s 0x23 2 rs1p rdp ulw
  | 7 => if xlen =? 32 then enc_s 0x27 2 rs1p rdp ulw else enc_s 0x23 3 rs1p rdp uld
  | _ => 0
  end.

(** C.J and C.JAL. *)
Definition rvc_cj (h : Z) : Z :=
  let imm := sext_at (Z.lor (Z.lor (Z.lor (Z.lor (Z.lor (Z.lor (Z.lor (Z.shiftl (bit h 12) 11) (Z.shiftl (bit h 11) 4))
    (Z.shiftl (Z.land (Z.shiftr h 9) 3) 8)) (Z.shiftl (bit h 8) 10)) (Z.shiftl (bit h 7) 6)) (Z.shiftl (bit h 6) 7))
    (Z.shiftl (Z.land (Z.shiftr h 3) 7) 1)) (Z.shiftl (bit h 2) 5)) 20 in
  enc_j (if Z.shiftr h 13 =? 1 then 1 else 0) imm.

(** The [case 4] of quadrant 1: shifts, c.andi and register arithmetic. *)
Definition rvc_arith (h xlen : Z) : Z :=
  let rs1p := rs1p h in let rdp := rdp h in
  let sh := Z.lor (Z.shiftl (bit h 12) 5) (Z.land (Z.shiftr h 2) 31) in
  match Z.land (Z.shiftr h 10) 3 with
  | 0 => if (xlen =? 32) && negb (bit h 12 =? 0) then 0 else enc_i 0x13 rs1p 5 rs1p sh
  | 1 => if (xlen =? 32) && negb (bit h 12 =? 0) then 0 else enc_i 0x13 rs1p 5 rs1p (Z.lor sh 0x400)
  | 2 => enc_i 0x13 rs1p 7 rs1p (ci h)
  | _ =>
      let f2 := Z.land (Z.shiftr h 5) 3 in
      if bit h 12 =? 0 then
        let f3 := match f2 with 0 => 0 | 1 => 4 | 2 => 6 | _ => 7 end in
        enc_r 0x33 rs1p f3 rs1p rdp (if f2 =? 0 then 0x20 else 0)
      else if (xlen =? 32) || (1 <? f2) then 0
      else enc_r 0x3b rs1p 0 rs1p rdp (if f2 =? 0 then 0x20 else 0)
  end.

Definition rvc_quadrant1 (h xlen : Z) : Z :=
  let rd := Z.land (Z.shiftr h 7) 31 in let ci := ci h in
  match Z.shiftr h 13 with
  | 0 => enc_i 0x13 rd 0 rd ci
  | 1 => if xlen =? 32 then rvc_cj h else if rd =? 0 then 0 else enc_i 0x1b rd 0 rd ci
  | 2 => enc_i 0x13 rd 0 0 ci
  | 3 =>
      if rd =? 2 then
        let imm := sext_at (Z.lor (Z.lor (Z.lor (Z.lor (Z.shiftl (bit h 12) 9) (Z.shiftl (bit h 6) 4))
          (Z.shiftl (bit h 5) 6)) (Z.shiftl (Z.land (Z.shiftr h 3) 3) 7)) (Z.shiftl (bit h 2) 5)) 22 in
        if imm =? 0 then 0 else enc_i 0x13 2 0 2 imm
      else if ci =? 0 then 0
      else Z.lor (Z.lor (u32 (Z.shiftl (u32 ci) 12)) (Z.shiftl rd 7)) 0x37
  | 4 => rvc_arith h xlen
  | 5 => rvc_cj h
  | _ =>
      let imm := sext_at (Z.lor (Z.lor (Z.lor (Z.lor (Z.shiftl (bit h 12) 8) (Z.shiftl (Z.land (Z.shiftr h 10) 3) 3))
        (Z.shiftl (Z.land (Z.shiftr h 5) 3) 6)) (Z.shiftl (Z.land (Z.shiftr h 3) 3) 1)) (Z.shiftl (bit h 2) 5)) 23 in
      enc_b (if Z.shiftr h 13 =? 6 then 0 else 1) (rs1p h) 0 imm
  end.

Definition rvc_quadrant2 (h xlen : Z) : Z :=
  let rd := Z.land (Z.shiftr h 7) 31 in let rs2 := Z.land (Z.shiftr h 2) 31 in
  let sld := Z.lor (Z.lor (Z.shiftl (bit h 12) 5) (Z.shiftl (Z.land (Z.shiftr h 5) 3) 3))
                   (Z.shiftl (Z.land (Z.shiftr h 2) 7) 6) in
  let slw := Z.lor (Z.lor (Z.shiftl (bit h 12) 5) (Z.shiftl (Z.land (Z.shiftr h 4) 7) 2))
                   (Z.shiftl (Z.land (Z.shiftr h 2) 3) 6) in
  let ssd := Z.lor (Z.shiftl (Z.land (Z.shiftr h 10) 7) 3) (Z.shiftl (Z.land (Z.shiftr h 7) 7) 6) in
  let ssw := Z.lor (Z.shiftl (Z.land (Z.shiftr h 9) 15) 2) (Z.shiftl (Z.land (Z.shiftr h 7) 3) 6) in
  match Z.shiftr h 13 with
  | 0 => let sh := Z.lor (Z.shiftl (bit h 12) 5) (Z.land (Z.shiftr h 2) 31) in
         if (xlen =? 32) && negb (bit h 12 =? 0) then 0 else enc_i 0x13 rd 1 rd sh
  | 1 => enc_i 0x07 rd 3 2 sld
  | 2 => if rd =? 0 then 0 else enc_i 0x03 rd 2 2 slw
  | 3 => if xlen =? 32 then enc_i 0x07 rd 2 2 slw else if rd =? 0 then 0 else enc_i 0x03 rd 3 2 sld
  | 4 =>
      if bit h 12 =? 0 then
        if rs2 =? 0 then (if rd =? 0 then 0 else enc_i 0x67 0 0 rd 0)
        else enc_r 0x33 rd 0 0 rs2 0
      else if rs2 =? 0 then (if rd =? 0 then 0x00100073 else enc_i 0x67 1 0 rd 0)
      else enc_r 0x33 rd 0 rd rs2 0
  | 5 => enc_s 0x27 3 2 rs2 ssd
  | 6 => enc_s 0x23 2 2 rs2 ssw
  | _ => if xlen =? 32 then enc_s 0x27 2 2 rs2 ssw else enc_s 0x23 3 2 rs2 ssd
  end.

Definition rvc_expand (h xlen : Z) : Z :=
  match Z.land h 3 with
  | 0 => rvc_quadrant0 h xlen
  | 1 => rvc_quadrant1 h xlen
  | 2 => rvc_quadrant2 h xlen
  | _ => 0
  end.
