(* ===== verification/RvLayouts.v ===== *)
(** * The 16-bit layouts decode to what they were made from

    A word is the sum of its fields ([iword]). Each 16-bit layout of [RvEncode] is
    decoded by [rvc_expand] ([RvExpand]) to the word it was made from: a finite
    check per layout, over its registers and immediates. *)
From stdpp Require Import base numbers list option.
From Stdlib Require Import ZArith Lia.
From S2P Require Import Prelude RvEncode RvExpand.

Local Open Scope Z_scope.

(** ** Finite checks *)

Fixpoint all_from (n : nat) (z : Z) (p : Z -> bool) : bool :=
  match n with O => true | S n => if p z then all_from n (z + 1) p else false end.
Definition all_in (lo hi : Z) (p : Z -> bool) : bool := all_from (Z.to_nat (hi - lo)) lo p.

Lemma all_in_spec lo hi p : all_in lo hi p = true -> forall z, lo <= z < hi -> p z = true.
Proof.
  unfold all_in. intros H z Hz.
  assert (G : forall n a, all_from n a p = true -> a <= z < a + Z.of_nat n -> p z = true).
  { induction n as [|n IH]; intros a Ha Hr; [lia|]. cbn [all_from] in Ha. destruct (p a) eqn:Pa; [|done].
    destruct (decide (z = a)) as [->|]; [done|]. apply (IH (a + 1)); [done | lia]. }
  apply (G _ _ H). lia.
Qed.

Lemma if_true (c b : bool) : (if c then b else true) = true -> c = true -> b = true.
Proof. by intros H ->. Qed.

(** ** Words by their fields *)

Definition iword (op rd f3 rs1 imm : Z) : Z := op + 2 ^ 7 * rd + 2 ^ 12 * f3 + 2 ^ 15 * rs1 + 2 ^ 20 * imm.
Definition imm12_of (w : Z) : Z := Z.land (Z.shiftr w 20) 0xfff.

Lemma land_mask x n : 0 <= n -> Z.land x (2 ^ n - 1) = x mod 2 ^ n.
Proof. apply land_ones_mod. Qed.

Lemma field w n k : 0 <= n -> 0 <= k -> Z.land (Z.shiftr w n) (2 ^ k - 1) = (w / 2 ^ n) mod 2 ^ k.
Proof. intros. by rewrite land_mask, Z.shiftr_div_pow2. Qed.

Lemma fields_mod w : op_of w = w mod 2 ^ 7 /\ rd_of w = (w / 2 ^ 7) mod 2 ^ 5 /\ f3_of w = (w / 2 ^ 12) mod 2 ^ 3 /\
  rs1_of w = (w / 2 ^ 15) mod 2 ^ 5 /\ rs2_of w = (w / 2 ^ 20) mod 2 ^ 5 /\ f7_of w = (w / 2 ^ 25) mod 2 ^ 7 /\
  imm12_of w = (w / 2 ^ 20) mod 2 ^ 12.
Proof.
  split_and!; [exact (land_mask w 7 ltac:(lia)) | exact (field w 7 5 ltac:(lia) ltac:(lia)) |
    exact (field w 12 3 ltac:(lia) ltac:(lia)) | exact (field w 15 5 ltac:(lia) ltac:(lia)) |
    exact (field w 20 5 ltac:(lia) ltac:(lia)) | exact (field w 25 7 ltac:(lia) ltac:(lia)) |
    exact (field w 20 12 ltac:(lia) ltac:(lia))].
Qed.

Record decoded (w op rd f3 rs1 rs2 f7 imm : Z) : Prop := {
  dec_word : w = iword op rd f3 rs1 imm;
  dec_imm : imm = rs2 + 2 ^ 5 * f7;
  dec_op : 0 <= op < 128; dec_rd : 0 <= rd < 32; dec_f3 : 0 <= f3 < 8; dec_rs1 : 0 <= rs1 < 32;
  dec_rs2 : 0 <= rs2 < 32; dec_f7 : 0 <= f7 < 128 }.

Lemma word_decoded w : is_u 32 w ->
  decoded w (op_of w) (rd_of w) (f3_of w) (rs1_of w) (rs2_of w) (f7_of w) (imm12_of w).
Proof.
  intros Hw. destruct (fields_mod w) as (-> & -> & -> & -> & -> & -> & ->). unfold is_u in Hw.
  assert (E : forall n k, 0 <= n -> 0 <= k -> w / 2 ^ n = (w / 2 ^ n) mod 2 ^ k + 2 ^ k * (w / 2 ^ (n + k))).
  { intros n k Hn Hk. rewrite Z.pow_add_r, <- Z.div_div by (pose proof (pow2_pos n Hn); pose proof (pow2_pos k Hk); lia).
    rewrite Z.add_comm. apply Z.div_mod. pose proof (pow2_pos k Hk). lia. }
  pose proof (E 0 7 ltac:(lia) ltac:(lia)) as E0. pose proof (E 7 5 ltac:(lia) ltac:(lia)) as E1.
  pose proof (E 12 3 ltac:(lia) ltac:(lia)) as E2. pose proof (E 15 5 ltac:(lia) ltac:(lia)) as E3.
  pose proof (E 20 5 ltac:(lia) ltac:(lia)) as E4. pose proof (E 20 12 ltac:(lia) ltac:(lia)) as E5.
  pose proof (E 25 7 ltac:(lia) ltac:(lia)) as E6. change (2 ^ 0) with 1 in E0. rewrite Z.div_1_r in E0.
  cbn [Z.add Pos.add] in *. change (0 + 7) with 7 in E0. change (7 + 5) with 12 in E1. change (12 + 3) with 15 in E2.
  change (15 + 5) with 20 in E3. change (20 + 5) with 25 in E4. change (20 + 12) with 32 in E5.
  change (25 + 7) with 32 in E6. rewrite (Z.div_small w (2 ^ 32)) in E5, E6 by lia.
  split; try (apply Z.mod_pos_bound; lia); unfold iword; lia.
Qed.

(** A signed twelve-bit immediate and its field. *)
Lemma sext12_mod i : 0 <= i < 4096 -> sext12 i mod 4096 = i /\ -2048 <= sext12 i < 2048 /\
  (0 <= sext12 i -> sext12 i = i).
Proof.
  intros Hi. unfold sext12.
  assert (P : all_in 0 4096 (fun i => if Z.land i 0x800 =? 0 then i <? 2048 else 2048 <=? i) = true) by (vm_compute; reflexivity).
  pose proof (all_in_spec _ _ _ P i Hi) as B. cbv beta in B.
  destruct (Z.land i 0x800 =? 0); simpl.
  - rewrite Z.mod_small by lia. lia.
  - replace (i - 4096) with (i + -1 * 4096) by lia. rewrite Z.mod_add, Z.mod_small by lia. lia.
Qed.

(** ** A short form of a word *)

Definition short_of (h w xlen : Z) : bool :=
  (0 <? h) && (h <? 65536) && negb (Z.land h 3 =? 3) && (rvc_expand h xlen =? w).
Definition both (p : Z -> bool) : bool := p 32 && p 64.

Lemma both_spec p xlen : both p = true -> xlen = 32 \/ xlen = 64 -> p xlen = true.
Proof. unfold both. intros [? ?]%andb_true_iff [->| ->]; done. Qed.

Lemma chk_ci base op f3 rs1k xlen :
  (* the register read: the one written, or x0 *)
  all_in 1 32 (fun rd => all_in (-32) 32 (fun imm => if negb (imm =? 0) || negb (base =? 0x0001)
     then short_of (c_ci base rd imm) (iword op rd f3 (rs1k * rd) (imm mod 4096)) xlen else true)) = true ->
  forall rd imm, 1 <= rd < 32 -> six_bit imm = true -> (base = 0x0001 -> imm <> 0) ->
  short_of (c_ci base rd imm) (iword op rd f3 (rs1k * rd) (imm mod 4096)) xlen = true.
Proof.
  intros H rd imm Hrd Hi Hz. unfold six_bit in Hi.
  apply (if_true _ _ (all_in_spec _ _ _ (all_in_spec _ _ _ H rd Hrd) imm ltac:(lia))).
  destruct (Z.eqb_spec base 1) as [E|]; [specialize (Hz E); lia | apply orb_true_r].
Qed.

Lemma short_addi rd imm xlen : xlen = 32 \/ xlen = 64 -> 1 <= rd < 32 -> six_bit imm = true -> imm <> 0 ->
  short_of (c_ci 0x0001 rd imm) (iword 0x13 rd 0 rd (imm mod 4096)) xlen = true.
Proof.
  intros [->| ->] Hrd Hi Hz; rewrite <- (Z.mul_1_l rd) at 3; (apply chk_ci; [vm_compute; reflexivity | done..]).
Qed.
Lemma short_li rd imm xlen : xlen = 32 \/ xlen = 64 -> 1 <= rd < 32 -> six_bit imm = true ->
  short_of (c_ci 0x4001 rd imm) (iword 0x13 rd 0 0 (imm mod 4096)) xlen = true.
Proof.
  intros [->| ->] Hrd Hi; change 0 with (0 * rd) at 2; (apply chk_ci; [vm_compute; reflexivity | done..]).
Qed.
Lemma short_addiw rd imm : 1 <= rd < 32 -> six_bit imm = true ->
  short_of (c_ci 0x2001 rd imm) (iword 0x1b rd 0 rd (imm mod 4096)) 64 = true.
Proof. intros Hrd Hi. rewrite <- (Z.mul_1_l rd) at 3. apply chk_ci; [vm_compute; reflexivity | done..]. Qed.

(** The rest: a finite check over the layout's operands, at one width or at both. *)
Ltac finite2 lo1 hi1 lo2 hi2 f :=
  let H := fresh in
  assert (H : all_in lo1 hi1 (fun a => all_in lo2 hi2 (f a)) = true) by (vm_compute; reflexivity);
  let K := fresh in
  pose proof (fun a Ha b Hb => all_in_spec lo2 hi2 _ (all_in_spec lo1 hi1 _ H a Ha) b Hb) as K; cbv beta in K; clear H.

Lemma short_cr base op xlen : xlen = 32 \/ xlen = 64 -> (base = 0x8002 /\ op = 0) \/ (base = 0x9002 /\ op = 1) ->
  forall rd rs, 1 <= rd < 32 -> 1 <= rs < 32 ->
  short_of (c_cr base rd rs) (iword 0x33 rd 0 (op * rd) rs) xlen = true.
Proof.
  intros [->| ->] [[-> ->]|[-> ->]] rd rs Hrd Hrs;
    (match goal with |- short_of (c_cr ?b _ _) (iword _ _ _ (?o * _) _) ?x = _ =>
       finite2 1 32 1 32 (fun rd rs => short_of (c_cr b rd rs) (iword 0x33 rd 0 (o * rd) rs) x) end; auto).
Qed.

Lemma short_addi16sp xlen imm : xlen = 32 \/ xlen = 64 -> imm <> 0 -> Z.land imm 15 = 0 -> -512 <= imm < 512 ->
  short_of (c_addi16sp (u32 imm)) (iword 0x13 2 0 2 (imm mod 4096)) xlen = true.
Proof.
  intros Hx Hz Hm Hr.
  assert (C : both (fun xlen => all_in (-512) 512 (fun imm => if negb (imm =? 0) && (Z.land imm 15 =? 0)
    then short_of (c_addi16sp (u32 imm)) (iword 0x13 2 0 2 (imm mod 4096)) xlen else true)) = true) by (vm_compute; reflexivity).
  apply (if_true _ _ (all_in_spec _ _ _ (both_spec _ _ C Hx) imm Hr)). rewrite Hm. lia.
Qed.

Lemma short_addi4spn xlen rd imm : xlen = 32 \/ xlen = 64 -> 8 <= rd < 16 -> 0 < imm < 1024 -> Z.land imm 3 = 0 ->
  short_of (c_addi4spn (rd - 8) (u32 imm)) (iword 0x13 rd 0 2 imm) xlen = true.
Proof.
  intros Hx Hrd Hi Hm.
  assert (C : both (fun xlen => all_in 8 16 (fun rd => all_in 1 1024 (fun imm => if Z.land imm 3 =? 0
    then short_of (c_addi4spn (rd - 8) (u32 imm)) (iword 0x13 rd 0 2 imm) xlen else true))) = true) by (vm_compute; reflexivity).
  apply (if_true _ _ (all_in_spec _ _ _ (all_in_spec _ _ _ (both_spec _ _ C Hx) rd Hrd) imm ltac:(lia))).
  by apply Z.eqb_eq.
Qed.

Lemma short_andi xlen rd imm : xlen = 32 \/ xlen = 64 -> 8 <= rd < 16 -> six_bit imm = true ->
  short_of (c_ci 0x8801 (rd - 8) imm) (iword 0x13 rd 7 rd (imm mod 4096)) xlen = true.
Proof.
  intros Hx Hrd Hi. unfold six_bit in Hi.
  assert (C : both (fun xlen => all_in 8 16 (fun rd => all_in (-32) 32 (fun imm =>
    short_of (c_ci 0x8801 (rd - 8) imm) (iword 0x13 rd 7 rd (imm mod 4096)) xlen))) = true) by (vm_compute; reflexivity).
  exact (all_in_spec _ _ _ (all_in_spec _ _ _ (both_spec _ _ C Hx) rd Hrd) imm ltac:(lia)).
Qed.

Lemma short_slli xlen rd sh : xlen = 32 \/ xlen = 64 -> 1 <= rd < 32 -> 1 <= sh < xlen ->
  short_of (c_shift 0x0002 rd 0 sh) (iword 0x13 rd 1 rd sh) xlen = true.
Proof.
  intros Hx Hrd Hs.
  assert (C : both (fun xlen => all_in 1 32 (fun rd => all_in 1 xlen (fun sh =>
    short_of (c_shift 0x0002 rd 0 sh) (iword 0x13 rd 1 rd sh) xlen))) = true) by (vm_compute; reflexivity).
  exact (all_in_spec _ _ _ (all_in_spec _ _ _ (both_spec _ _ C Hx) rd Hrd) sh Hs).
Qed.

Lemma short_shr xlen rd kind sh : xlen = 32 \/ xlen = 64 -> 8 <= rd < 16 -> 0 <= kind < 2 -> 1 <= sh < xlen ->
  short_of (c_shift 0x8001 (rd - 8) kind sh) (iword 0x13 rd 5 rd (sh + 1024 * kind)) xlen = true.
Proof.
  intros Hx Hrd Hk Hs.
  assert (C : both (fun xlen => all_in 8 16 (fun rd => all_in 0 2 (fun kind => all_in 1 xlen (fun sh =>
    short_of (c_shift 0x8001 (rd - 8) kind sh) (iword 0x13 rd 5 rd (sh + 1024 * kind)) xlen)))) = true)
    by (vm_compute; reflexivity).
  exact (all_in_spec _ _ _ (all_in_spec _ _ _ (all_in_spec _ _ _ (both_spec _ _ C Hx) rd Hrd) kind Hk) sh Hs).
Qed.

Lemma short_lui xlen rd s : xlen = 32 \/ xlen = 64 -> 1 <= rd < 32 -> rd <> 2 -> s <> 0 -> six_bit s = true ->
  short_of (c_ci 0x6001 rd s) (0x37 + 2 ^ 7 * rd + 2 ^ 12 * (s mod 2 ^ 20)) xlen = true.
Proof.
  intros Hx Hrd H2 Hz Hs. unfold six_bit in Hs.
  assert (C : both (fun xlen => all_in 1 32 (fun rd => all_in (-32) 32 (fun s => if negb (rd =? 2) && negb (s =? 0)
    then short_of (c_ci 0x6001 rd s) (0x37 + 2 ^ 7 * rd + 2 ^ 12 * (s mod 2 ^ 20)) xlen else true))) = true) by (vm_compute; reflexivity).
  apply (if_true _ _ (all_in_spec _ _ _ (all_in_spec _ _ _ (both_spec _ _ C Hx) rd Hrd) s ltac:(lia))). lia.
Qed.

(** sub, xor, or, and: [f2] chooses. *)
Definition ca_f3 (f2 : Z) : Z := match f2 with 0 => 0 | 1 => 4 | 2 => 6 | _ => 7 end.
Definition ca_f7 (f2 : Z) : Z := if f2 =? 0 then 0x20 else 0.

Lemma short_ca xlen rd f2 rs2 : xlen = 32 \/ xlen = 64 -> 8 <= rd < 16 -> 0 <= f2 < 4 -> 8 <= rs2 < 16 ->
  short_of (cr_ca 0x8001 0x23 (rd - 8) f2 (rs2 - 8)) (iword 0x33 rd (ca_f3 f2) rd (rs2 + 2 ^ 5 * ca_f7 f2)) xlen = true.
Proof.
  intros Hx Hrd Hf Hs.
  assert (C : both (fun xlen => all_in 8 16 (fun rd => all_in 0 4 (fun f2 => all_in 8 16 (fun rs2 =>
    short_of (cr_ca 0x8001 0x23 (rd - 8) f2 (rs2 - 8)) (iword 0x33 rd (ca_f3 f2) rd (rs2 + 2 ^ 5 * ca_f7 f2)) xlen)))) = true)
    by (vm_compute; reflexivity).
  exact (all_in_spec _ _ _ (all_in_spec _ _ _ (all_in_spec _ _ _ (both_spec _ _ C Hx) rd Hrd) f2 Hf) rs2 Hs).
Qed.

Lemma short_caw rd f2 rs2 : 8 <= rd < 16 -> 0 <= f2 < 2 -> 8 <= rs2 < 16 ->
  short_of (cr_ca 0x9001 0x27 (rd - 8) f2 (rs2 - 8)) (iword 0x3b rd 0 rd (rs2 + 2 ^ 5 * ca_f7 f2)) 64 = true.
Proof.
  intros Hrd Hf Hs.
  assert (C : all_in 8 16 (fun rd => all_in 0 2 (fun f2 => all_in 8 16 (fun rs2 =>
    short_of (cr_ca 0x9001 0x27 (rd - 8) f2 (rs2 - 8)) (iword 0x3b rd 0 rd (rs2 + 2 ^ 5 * ca_f7 f2)) 64))) = true)
    by (vm_compute; reflexivity).
  exact (all_in_spec _ _ _ (all_in_spec _ _ _ (all_in_spec _ _ _ C rd Hrd) f2 Hf) rs2 Hs).
Qed.

(** Loads and stores: a register and an offset, or two registers and an offset. *)
Definition sp_check (lo n mask : Z) (f : Z -> Z -> bool) : bool :=
  all_in lo 32 (fun r => all_in 0 n (fun i => if Z.land i mask =? 0 then f r i else true)).
Lemma sp_check_spec lo n mask f : sp_check lo n mask f = true ->
  forall r i, lo <= r < 32 -> offset_ok i n mask = true -> f r i = true.
Proof.
  unfold offset_ok. intros H r i Hr [[? ?]%andb_true_iff M]%andb_true_iff.
  exact (if_true _ _ (all_in_spec _ _ _ (all_in_spec _ _ _ H r Hr) i ltac:(lia)) M).
Qed.
Definition reg_check (n mask : Z) (f : Z -> Z -> Z -> bool) : bool :=
  all_in 8 16 (fun r => all_in 8 16 (fun q => all_in 0 n (fun i => if Z.land i mask =? 0 then f r q i else true))).
Lemma reg_check_spec n mask f : reg_check n mask f = true ->
  forall r q i, 8 <= r < 16 -> 8 <= q < 16 -> offset_ok i n mask = true -> f r q i = true.
Proof.
  unfold offset_ok. intros H r q i Hr Hq [[? ?]%andb_true_iff M]%andb_true_iff.
  exact (if_true _ _ (all_in_spec _ _ _ (all_in_spec _ _ _ (all_in_spec _ _ _ H r Hr) q Hq) i ltac:(lia)) M).
Qed.

(** A store's offset is split around the registers. *)
Definition sword (op f3 rs1 rs2 i : Z) : Z := iword op (i mod 32) f3 rs1 (rs2 + 2 ^ 5 * (i / 32)).

Lemma short_lwsp base op lo xlen :
  sp_check lo 256 3 (fun rd i => short_of (c_lwsp base rd (u32 i)) (iword op rd 2 2 i) xlen) = true ->
  forall rd i, lo <= rd < 32 -> offset_ok i 256 3 = true ->
  short_of (c_lwsp base rd (u32 i)) (iword op rd 2 2 i) xlen = true.
Proof. intros H. exact (sp_check_spec _ _ _ _ H). Qed.
Lemma short_ldsp base op lo xlen :
  sp_check lo 512 7 (fun rd i => short_of (c_ldsp base rd (u32 i)) (iword op rd 3 2 i) xlen) = true ->
  forall rd i, lo <= rd < 32 -> offset_ok i 512 7 = true ->
  short_of (c_ldsp base rd (u32 i)) (iword op rd 3 2 i) xlen = true.
Proof. intros H. exact (sp_check_spec _ _ _ _ H). Qed.
Lemma short_swsp base op xlen :
  sp_check 0 256 3 (fun rs2 i => short_of (c_swsp base rs2 (u32 i)) (sword op 2 2 rs2 i) xlen) = true ->
  forall rs2 i, 0 <= rs2 < 32 -> offset_ok i 256 3 = true ->
  short_of (c_swsp base rs2 (u32 i)) (sword op 2 2 rs2 i) xlen = true.
Proof. intros H. exact (sp_check_spec _ _ _ _ H). Qed.
Lemma short_sdsp base op xlen :
  sp_check 0 512 7 (fun rs2 i => short_of (c_sdsp base rs2 (u32 i)) (sword op 3 2 rs2 i) xlen) = true ->
  forall rs2 i, 0 <= rs2 < 32 -> offset_ok i 512 7 = true ->
  short_of (c_sdsp base rs2 (u32 i)) (sword op 3 2 rs2 i) xlen = true.
Proof. intros H. exact (sp_check_spec _ _ _ _ H). Qed.

Lemma short_lw base op xlen :
  reg_check 128 3 (fun rd rs1 i => short_of (c_lw base (rd - 8) (rs1 - 8) (u32 i)) (iword op rd 2 rs1 i) xlen) = true ->
  forall rd rs1 i, 8 <= rd < 16 -> 8 <= rs1 < 16 -> offset_ok i 128 3 = true ->
  short_of (c_lw base (rd - 8) (rs1 - 8) (u32 i)) (iword op rd 2 rs1 i) xlen = true.
Proof. intros H. exact (reg_check_spec _ _ _ H). Qed.
Lemma short_ld base op xlen :
  reg_check 256 7 (fun rd rs1 i => short_of (c_ld base (rd - 8) (rs1 - 8) (u32 i)) (iword op rd 3 rs1 i) xlen) = true ->
  forall rd rs1 i, 8 <= rd < 16 -> 8 <= rs1 < 16 -> offset_ok i 256 7 = true ->
  short_of (c_ld base (rd - 8) (rs1 - 8) (u32 i)) (iword op rd 3 rs1 i) xlen = true.
Proof. intros H. exact (reg_check_spec _ _ _ H). Qed.
Lemma short_sw base op xlen :
  reg_check 128 3 (fun rs2 rs1 i => short_of (c_lw base (rs2 - 8) (rs1 - 8) (u32 i)) (sword op 2 rs1 rs2 i) xlen) = true ->
  forall rs2 rs1 i, 8 <= rs2 < 16 -> 8 <= rs1 < 16 -> offset_ok i 128 3 = true ->
  short_of (c_lw base (rs2 - 8) (rs1 - 8) (u32 i)) (sword op 2 rs1 rs2 i) xlen = true.
Proof. intros H. exact (reg_check_spec _ _ _ H). Qed.
Lemma short_sd base op xlen :
  reg_check 256 7 (fun rs2 rs1 i => short_of (c_ld base (rs2 - 8) (rs1 - 8) (u32 i)) (sword op 3 rs1 rs2 i) xlen) = true ->
  forall rs2 rs1 i, 8 <= rs2 < 16 -> 8 <= rs1 < 16 -> offset_ok i 256 7 = true ->
  short_of (c_ld base (rs2 - 8) (rs1 - 8) (u32 i)) (sword op 3 rs1 rs2 i) xlen = true.
Proof. intros H. exact (reg_check_spec _ _ _ H). Qed.

Lemma short_jalr xlen link rs1 : xlen = 32 \/ xlen = 64 -> 0 <= link < 2 -> 1 <= rs1 < 32 ->
  short_of (Z.lor (0x8002 + 0x1000 * link) (Z.shiftl rs1 7)) (iword 0x67 link 0 rs1 0) xlen = true.
Proof.
  intros Hx Hl Hr.
  assert (C : both (fun xlen => all_in 0 2 (fun link => all_in 1 32 (fun rs1 =>
    short_of (Z.lor (0x8002 + 0x1000 * link) (Z.shiftl rs1 7)) (iword 0x67 link 0 rs1 0) xlen))) = true)
    by (vm_compute; reflexivity).
  exact (all_in_spec _ _ _ (all_in_spec _ _ _ (both_spec _ _ C Hx) link Hl) rs1 Hr).
Qed.
