(* ===== verification/RvCompress.v ===== *)
(** * The compressor is sound

    Each [case] of [rv_compress] ([RvEncode]): where it gives a short form, the
    simulator's decoder ([RvExpand]) gives back the word, or for the moves and
    [addiw] from zero another spelling of the same instruction ([canon]). *)
From stdpp Require Import base numbers list option.
From Stdlib Require Import ZArith Lia.
From S2P Require Import Prelude RvEncode RvExpand RvLayouts.

Local Open Scope Z_scope.

(** ** The compressor's cases *)

(** The instruction a short form stands for: the word itself, but that a move and an
    [addiw] from zero have another spelling. *)
Definition canon (w : Z) : Z :=
  let rd := rd_of w in let rs1 := rs1_of w in
  if (op_of w =? 0x13) && (f3_of w =? 0) && negb (rd =? 0) && negb (rs1 =? 0) && (imm12_of w =? 0)
  then iword 0x33 rd 0 0 rs1
  else if (op_of w =? 0x33) && (f3_of w =? 0) && negb (rd =? 0) && negb (rs1 =? 0) && (imm12_of w =? 0)
  then iword 0x33 rd 0 0 rs1
  else if (op_of w =? 0x1b) && (f3_of w =? 0) && negb (rd =? 0) && (rs1 =? 0)
  then iword 0x13 rd 0 0 (imm12_of w)
  else w.

(** A shift by a constant names a bit of the register: at RV32, bit 25 is clear. *)
Definition shift_legal (w xlen : Z) : Prop :=
  xlen = 32 -> op_of w = 0x13 -> f3_of w = 1 \/ f3_of w = 5 -> f7_of w mod 2 = 0.

(** A short form, if there is one, stands for the word. *)
Definition sound (w xlen h : Z) : Prop := h <> 0 -> short_of h (canon w) xlen = true.

Lemma creg_spec r : 0 <= r < 32 -> (0 <=? creg r) = true -> creg r = r - 8 /\ 8 <= r < 16.
Proof. unfold creg. intros Hr. destruct ((8 <=? r) && (r <=? 15)) eqn:E; [lia | done]. Qed.

(** The tests of a case, as facts. *)
Ltac facts := repeat match goal with
  | H : _ && _ = true |- _ => apply andb_true_iff in H as [? ?]
  | H : negb _ = true |- _ => apply negb_true_iff in H
  | H : (_ =? _) = true |- _ => apply Z.eqb_eq in H
  | H : (_ =? _) = false |- _ => apply Z.eqb_neq in H
  | H : (0 <=? creg ?r) = true |- _ =>
      let E := fresh "Ec" in destruct (creg_spec r ltac:(assumption) H) as [E ?]; rewrite ?E; clear H
  | H : (_ <=? _) = true |- _ => apply Z.leb_le in H
  | H : (_ <? _) = true |- _ => apply Z.ltb_lt in H
  end.
(** One alternative after the other; the last is no short form. *)
Ltac alternatives :=
  lazymatch goal with
  | |- sound _ _ (if ?c then _ else _) => let B := fresh "B" in destruct c eqn:B; [facts | alternatives]
  | |- sound _ _ 0 => let N := fresh in intros N; by exfalso
  | _ => idtac
  end.

(** funct7 of srli and srai: the sixth bit of the amount, and the kind. *)
Lemma shr_funct f7 : 0 <= f7 < 128 ->
  ((Z.land f7 (u32 (Z.lnot 1)) =? 0) || (Z.land f7 (u32 (Z.lnot 1)) =? 0x20)) = true ->
  f7 = f7 mod 2 + 32 * (if negb (Z.land f7 0x20 =? 0) then 1 else 0) /\
  0 <= (if negb (Z.land f7 0x20 =? 0) then 1 else 0) < 2.
Proof.
  intros Hf B. split; [|by destruct (negb _)]. apply Z.eqb_eq.
  assert (C : all_in 0 128 (fun f7 => if (Z.land f7 (u32 (Z.lnot 1)) =? 0) || (Z.land f7 (u32 (Z.lnot 1)) =? 0x20)
    then f7 =? f7 mod 2 + 32 * (if negb (Z.land f7 0x20 =? 0) then 1 else 0) else true) = true) by (vm_compute; reflexivity).
  exact (if_true _ _ (all_in_spec _ _ _ C f7 Hf) B).
Qed.

Section Cases.
Context (w xlen : Z) (Hw : is_u 32 w) (Hx : xlen = 32 \/ xlen = 64).
Lemma immi_field : imm12_of w = immi_of w mod 4096 /\ -2048 <= immi_of w < 2048 /\ (0 <= immi_of w -> immi_of w = imm12_of w).
Proof using Hw.
  pose proof (word_decoded w Hw) as D. destruct D. unfold immi_of.
  destruct (sext12_mod (imm12_of w)) as (A & B & C); [lia|]. unfold imm12_of in *. lia.
Qed.

Lemma imms_field : 0 <= imms_of w -> rd_of w = imms_of w mod 32 /\ f7_of w = imms_of w / 32.
Proof using Hw.
  pose proof (word_decoded w Hw) as D. destruct D. unfold imms_of. intros H.
  rewrite Z.shiftl_mul_pow2 in * by lia. rewrite (lor_shift_add 5) in * by lia.
  destruct (sext12_mod (f7_of w * 2 ^ 5 + rd_of w)) as (A & B & C); [lia|]. specialize (C H). rewrite C.
  split; [apply Z.mod_unique with (f7_of w) | apply Z.div_unique with (rd_of w)]; lia.
Qed.

Lemma word_is op rd f3 rs1 imm : op_of w = op -> rd_of w = rd -> f3_of w = f3 -> rs1_of w = rs1 -> imm12_of w = imm ->
  w = iword op rd f3 rs1 imm.
Proof using Hw. intros <- <- <- <- <-. exact (dec_word _ _ _ _ _ _ _ _ (word_decoded w Hw)). Qed.

Lemma canon_id : op_of w <> 0x13 -> op_of w <> 0x33 -> op_of w <> 0x1b -> canon w = w.
Proof using.
  intros N1 N2 N3. unfold canon.
  by rewrite (proj2 (Z.eqb_neq _ _) N1), (proj2 (Z.eqb_neq _ _) N2), (proj2 (Z.eqb_neq _ _) N3).
Qed.

Lemma regs_range : 0 <= rd_of w < 32 /\ 0 <= rs1_of w < 32 /\ 0 <= rs2_of w < 32.
Proof using Hw. destruct (word_decoded w Hw). done. Qed.

Lemma offset_range i n mask : offset_ok i n mask = true -> 0 <= i < n.
Proof using. unfold offset_ok. intros [[? ?]%andb_true_iff _]%andb_true_iff. lia. Qed.

(** The word of a load and of a store, from the tests. *)
Lemma load_word op f3 i n mask : op_of w = op -> f3_of w = f3 -> immi_of w = i -> offset_ok i n mask = true ->
  op <> 0x13 -> op <> 0x33 -> op <> 0x1b -> canon w = iword op (rd_of w) f3 (rs1_of w) i.
Proof using Hw.
  intros <- Hf <- Ho N1 N2 N3. rewrite canon_id by done. apply offset_range in Ho.
  apply word_is; try done. symmetry. apply immi_field. lia.
Qed.
Lemma store_word op f3 i n mask : op_of w = op -> f3_of w = f3 -> imms_of w = i -> offset_ok i n mask = true ->
  op <> 0x13 -> op <> 0x33 -> op <> 0x1b -> canon w = sword op f3 (rs1_of w) (rs2_of w) i.
Proof using Hw.
  intros <- Hf <- Ho N1 N2 N3. rewrite canon_id by done. apply offset_range in Ho.
  destruct (imms_field ltac:(lia)) as (Er & Ef). apply word_is; try done.
  rewrite <- Ef. apply (dec_imm _ _ _ _ _ _ _ _ (word_decoded w Hw)).
Qed.

Lemma case_load : op_of w = 0x03 -> sound w xlen (compress_load w xlen).
Proof using Hw Hx.
  intros Ho. destruct regs_range as (R1 & R2 & R3). unfold compress_load. alternatives; intros _;
    (erewrite load_word by (eassumption || done)).
  - replace (rs1_of w) with 2. apply short_lwsp with (lo := 1); [|lia | done]. destruct Hx as [->| ->]; vm_compute; reflexivity.
  - apply short_lw; [|done..]. destruct Hx as [->| ->]; vm_compute; reflexivity.
  - subst xlen. replace (rs1_of w) with 2. apply short_ldsp with (lo := 1); [vm_compute; reflexivity | lia | done].
  - subst xlen. apply short_ld; [vm_compute; reflexivity | done..].
Qed.
Lemma case_store : op_of w = 0x23 -> sound w xlen (compress_store w xlen).
Proof using Hw Hx.
  intros Ho. destruct regs_range as (R1 & R2 & R3). unfold compress_store. alternatives; intros _;
    (erewrite store_word by (eassumption || done)).
  - replace (rs1_of w) with 2. apply short_swsp; [|lia | done]. destruct Hx as [->| ->]; vm_compute; reflexivity.
  - apply short_sw; [|done..]. destruct Hx as [->| ->]; vm_compute; reflexivity.
  - subst xlen. replace (rs1_of w) with 2. apply short_sdsp; [vm_compute; reflexivity | lia | done].
  - subst xlen. apply short_sd; [vm_compute; reflexivity | done..].
Qed.

Lemma case_load_fp : op_of w = 0x07 -> sound w xlen (compress_load_fp w xlen).
Proof using Hw Hx.
  intros Ho. destruct regs_range as (R1 & R2 & R3). unfold compress_load_fp. alternatives; intros _;
    (erewrite load_word by (eassumption || done)).
  - replace (rs1_of w) with 2. apply short_ldsp with (lo := 0); [|lia | done]. destruct Hx as [->| ->]; vm_compute; reflexivity.
  - apply short_ld; [|done..]. destruct Hx as [->| ->]; vm_compute; reflexivity.
  - subst xlen. replace (rs1_of w) with 2. apply short_lwsp with (lo := 0); [vm_compute; reflexivity | lia | done].
  - subst xlen. apply short_lw; [vm_compute; reflexivity | done..].
Qed.

Lemma case_store_fp : op_of w = 0x27 -> sound w xlen (compress_store_fp w xlen).
Proof using Hw Hx.
  intros Ho. destruct regs_range as (R1 & R2 & R3). unfold compress_store_fp. alternatives; intros _;
    (erewrite store_word by (eassumption || done)).
  - replace (rs1_of w) with 2. apply short_sdsp; [|lia | done]. destruct Hx as [->| ->]; vm_compute; reflexivity.
  - apply short_sd; [|done..]. destruct Hx as [->| ->]; vm_compute; reflexivity.
  - subst xlen. replace (rs1_of w) with 2. apply short_swsp; [vm_compute; reflexivity | lia | done].
  - subst xlen. apply short_sw; [vm_compute; reflexivity | done..].
Qed.

Lemma case_jalr : op_of w = 0x67 -> sound w xlen (compress_jalr w).
Proof using Hw Hx.
  intros Ho. destruct regs_range as (R1 & R2 & R3). destruct immi_field as (I & _). unfold compress_jalr.
  destruct (_ && _) eqn:B; [|by intros N]. facts.
  assert (E : canon w = iword 0x67 (rd_of w) 0 (rs1_of w) 0).
  { rewrite canon_id by (rewrite Ho; done). apply word_is; try done. rewrite I. by replace (immi_of w) with 0. }
  alternatives; intros _; rewrite E.
  - replace (rd_of w) with 0. apply (short_jalr xlen 0); (done || lia).
  - replace (rd_of w) with 1. apply (short_jalr xlen 1); (done || lia).
Qed.

Lemma case_system : op_of w = 0x73 -> sound w xlen (compress_system w).
Proof using Hw Hx.
  intros Ho. unfold compress_system. alternatives. intros _. rewrite canon_id by (rewrite Ho; done). subst w.
  destruct Hx as [->| ->]; vm_compute; reflexivity.
Qed.

Lemma case_op32 : op_of w = 0x3b -> sound w xlen (compress_op32 w xlen).
Proof using Hw Hx.
  intros Ho. destruct regs_range as (R1 & R2 & R3). unfold compress_op32.
  destruct (_ && _) eqn:B; [|by intros N]. facts. subst xlen.
  pose proof (dec_imm _ _ _ _ _ _ _ _ (word_decoded w Hw)) as I.
  assert (E : canon w = iword 0x3b (rd_of w) 0 (rd_of w) (rs2_of w + 2 ^ 5 * f7_of w)).
  { rewrite canon_id by (rewrite Ho; done). by apply word_is. }
  alternatives; intros _; rewrite E; replace (f7_of w).
  - by apply (short_caw (rd_of w) 0 (rs2_of w)).
  - by apply (short_caw (rd_of w) 1 (rs2_of w)).
Qed.

Lemma case_op : op_of w = 0x33 -> sound w xlen (compress_op w).
Proof using Hw Hx.
  intros Ho. destruct regs_range as (R1 & R2 & R3). unfold compress_op.
  pose proof (dec_imm _ _ _ _ _ _ _ _ (word_decoded w Hw)) as I.
  assert (E : rs1_of w = 0 \/ imm12_of w <> 0 \/ f3_of w <> 0 ->
              canon w = iword 0x33 (rd_of w) (f3_of w) (rs1_of w) (rs2_of w + 2 ^ 5 * f7_of w)).
  { intros HN. transitivity w; [|by apply word_is]. unfold canon. rewrite Ho. change (0x33 =? 0x13) with false. change (0x33 =? 0x33) with true. cbn [andb].
    destruct (f3_of w =? 0) eqn:F, (rd_of w =? 0), (rs1_of w =? 0) eqn:G, (imm12_of w =? 0) eqn:J; try done.
    facts. lia. }
  destruct (word_decoded w Hw) as [_ _ _ _ _ _ _ F7].
  alternatives; [..|alternatives].
  - intros _. rewrite E by lia. replace (f3_of w) with 0 by lia. replace (rs1_of w) with 0 by lia.
    replace (f7_of w) with 0 by lia. rewrite Z.mul_0_r, Z.add_0_r. apply (short_cr 0x8002 0 xlen Hx); auto; lia.
  - intros _. replace (canon w) with (iword 0x33 (rd_of w) 0 0 (rs1_of w)).
    { apply (short_cr 0x8002 0 xlen Hx); auto; lia. }
    unfold canon. rewrite Ho. change (0x33 =? 0x13) with false. change (0x33 =? 0x33) with true. cbn [andb].
    replace (f3_of w =? 0) with true by lia. replace (rd_of w =? 0) with false by lia.
    replace (rs1_of w =? 0) with false by lia. by replace (imm12_of w =? 0) with true by lia.
  - intros _. rewrite E by lia. replace (f3_of w) with 0 by lia. replace (rs1_of w) with (1 * rd_of w) by lia.
    replace (f7_of w) with 0 by lia. rewrite Z.mul_0_r, Z.add_0_r. apply (short_cr 0x9002 1 xlen Hx); auto; lia.
  - intros _. rewrite E by lia. replace (f3_of w) with 0 by lia. replace (rs1_of w) with (rd_of w) by lia.
    replace (f7_of w) with 0x20 by lia. apply (short_ca xlen (rd_of w) 0 (rs2_of w)); done || lia.
  - intros _. rewrite E by lia. replace (f3_of w) with 4 by lia. replace (rs1_of w) with (rd_of w) by lia.
    replace (f7_of w) with 0 by lia. apply (short_ca xlen (rd_of w) 1 (rs2_of w)); done || lia.
  - intros _. rewrite E by lia. replace (f3_of w) with 6 by lia. replace (rs1_of w) with (rd_of w) by lia.
    replace (f7_of w) with 0 by lia. apply (short_ca xlen (rd_of w) 2 (rs2_of w)); done || lia.
  - intros _. rewrite E by lia. replace (f3_of w) with 7 by lia. replace (rs1_of w) with (rd_of w) by lia.
    replace (f7_of w) with 0 by lia. apply (short_ca xlen (rd_of w) 3 (rs2_of w)); done || lia.
Qed.

Lemma case_lui : op_of w = 0x37 -> sound w xlen (compress_lui w).
Proof using Hw Hx.
  intros Ho. destruct regs_range as (R1 & _). unfold compress_lui.
  set (hi := Z.land (Z.shiftr w 12) 0xfffff). set (s := if negb (Z.land hi 0x80000 =? 0) then hi - 0x100000 else hi).
  assert (Eh : hi = (w / 2 ^ 12) mod 2 ^ 20) by exact (field w 12 20 ltac:(lia) ltac:(lia)).
  assert (Hs : s mod 2 ^ 20 = hi).
  { pose proof (Z.mod_pos_bound (w / 2 ^ 12) (2 ^ 20) ltac:(lia)). unfold s. destruct (negb _).
    - replace (hi - 0x100000) with (hi + -1 * 2 ^ 20) by lia. rewrite Z.mod_add, Z.mod_small by lia. done.
    - apply Z.mod_small. lia. }
  assert (E : canon w = 0x37 + 2 ^ 7 * rd_of w + 2 ^ 12 * (s mod 2 ^ 20)).
  { rewrite canon_id by (rewrite Ho; done). rewrite Hs, Eh. destruct (word_decoded w Hw) as [Ew _ _ _ _ _ _ _].
    destruct (fields_mod w) as (_ & _ & F3 & RS1 & _ & _ & I). unfold iword in Ew. rewrite Ho in Ew.
    assert (D : (w / 2 ^ 12) mod 2 ^ 20 = f3_of w + 2 ^ 3 * rs1_of w + 2 ^ 8 * imm12_of w).
    { destruct (word_decoded w Hw).
      assert (D : f3_of w + 2 ^ 3 * rs1_of w + 2 ^ 8 * imm12_of w = w / 2 ^ 12)
        by (apply Z.div_unique with (0x37 + 2 ^ 7 * rd_of w); lia).
      rewrite <- D. apply Z.mod_small. lia. }
    lia. }
  alternatives. intros _. rewrite E. apply short_lui; (done || lia).
Qed.

Lemma case_op_imm32 : op_of w = 0x1b -> sound w xlen (compress_op_imm32 w xlen).
Proof using Hw Hx.
  intros Ho. destruct regs_range as (R1 & R2 & _). destruct immi_field as (I & _). unfold compress_op_imm32.
  alternatives; subst xlen; intros _.
  - assert (E : canon w = iword 0x1b (rd_of w) 0 (rd_of w) (immi_of w mod 4096)).
    { transitivity w; [|by apply word_is]. unfold canon. rewrite Ho. change (0x1b =? 0x13) with false.
      change (0x1b =? 0x33) with false. cbn [andb]. replace (rs1_of w =? 0) with false by lia.
      by rewrite andb_false_r. }
    rewrite E. apply short_addiw; (done || lia).
  - assert (E : canon w = iword 0x13 (rd_of w) 0 0 (immi_of w mod 4096)).
    { unfold canon. rewrite Ho, <- I. change (0x1b =? 0x13) with false. change (0x1b =? 0x33) with false.
      change (0x1b =? 0x1b) with true. cbn [andb]. replace (f3_of w =? 0) with true by lia.
      replace (rd_of w =? 0) with false by lia. by replace (rs1_of w =? 0) with true by lia. }
    rewrite E. apply short_li; (auto || lia).
Qed.

(** [canon] of an [OP_IMM] word that is not a move. *)
Lemma canon_imm : op_of w = 0x13 -> f3_of w <> 0 \/ rd_of w = 0 \/ rs1_of w = 0 \/ immi_of w <> 0 ->
  canon w = iword 0x13 (rd_of w) (f3_of w) (rs1_of w) (immi_of w mod 4096).
Proof using Hw.
  intros Ho HN. destruct immi_field as (I & Ri & _). transitivity w; [|by apply word_is]. unfold canon. rewrite Ho.
  change (0x13 =? 0x33) with false. change (0x13 =? 0x1b) with false. change (0x13 =? 0x13) with true. cbn [andb].
  destruct (f3_of w =? 0) eqn:F, (rd_of w =? 0) eqn:D, (rs1_of w =? 0) eqn:G, (imm12_of w =? 0) eqn:J; try done.
  exfalso. facts. assert (immi_of w <> 0) as N by lia. apply N. clear HN. rewrite I in J.
  apply Z.mod_divide in J as (k & J); [|lia]. lia.
Qed.

Lemma case_addi : op_of w = 0x13 -> f3_of w = 0 -> sound w xlen (compress_addi w).
Proof using Hw Hx.
  intros Ho F. destruct regs_range as (R1 & R2 & _). destruct immi_field as (I & Ri & _). unfold compress_addi.
  alternatives; intros _; try (rewrite canon_imm by (done || lia); rewrite F).
  - replace (rd_of w) with 0 by lia. replace (rs1_of w) with 0 by lia. replace (immi_of w) with 0 by lia.
    destruct Hx as [->| ->]; vm_compute; reflexivity.
  - replace (rs1_of w) with (rd_of w) by lia. apply short_addi; (done || lia).
  - replace (rs1_of w) with 0 by lia. apply short_li; (done || lia).
  - assert (E : canon w = iword 0x33 (rd_of w) 0 (0 * rd_of w) (rs1_of w)).
    { unfold canon. rewrite Ho, F, I. change (0x13 =? 0x13) with true. change (0 =? 0) with true. cbn [andb].
      replace (rd_of w =? 0) with false by lia. replace (rs1_of w =? 0) with false by lia. cbn [andb negb].
      by replace (immi_of w) with 0 by lia. }
    rewrite E. apply (short_cr 0x8002 0 xlen Hx); auto; lia.
  - replace (rd_of w) with 2 by lia. replace (rs1_of w) with 2 by lia. apply short_addi16sp; (done || lia).
  - replace (rs1_of w) with 2 by lia. rewrite (Z.mod_small (immi_of w)) by lia. apply short_addi4spn; (done || lia).
Qed.

(** The amount of a shift by a constant. *)
Lemma shift_amount n : 0 <= n -> Z.land (Z.shiftr w 20) (2 ^ n - 1) = (w / 2 ^ 20) mod 2 ^ n.
Proof using. intros Hn. apply field; lia. Qed.

Lemma case_op_imm : op_of w = 0x13 -> shift_legal w xlen -> sound w xlen (compress_op_imm w xlen).
Proof using Hw Hx.
  intros Ho Hl. destruct regs_range as (R1 & R2 & R3). destruct immi_field as (I & Ri & _). unfold compress_op_imm.
  destruct (word_decoded w Hw) as [_ Ei _ _ _ _ _ F7].
  set (sh := Z.land (Z.shiftr w 20) _). unfold shift_legal in Hl.
  assert (Esh : sh = imm12_of w mod xlen).
  { destruct (fields_mod w) as (_ & _ & _ & _ & _ & _ & ->). unfold sh. destruct Hx as [->| ->].
    - change (Z.land (Z.shiftr w 20) (if 32 =? 64 then 0x3f else 0x1f)) with (Z.land (Z.shiftr w 20) (2 ^ 5 - 1)).
      rewrite (shift_amount 5) by lia. change 32 with (2 ^ 5). rewrite Z.mod_mod_divide; [done|]. by exists (2 ^ 7).
    - change (Z.land (Z.shiftr w 20) (if 64 =? 64 then 0x3f else 0x1f)) with (Z.land (Z.shiftr w 20) (2 ^ 6 - 1)).
      rewrite (shift_amount 6) by lia. change 64 with (2 ^ 6). rewrite Z.mod_mod_divide; [done|]. by exists (2 ^ 6). }
  destruct (Z.eqb_spec (f3_of w) 0) as [F|F].
  { destruct (Z.eqb_spec (compress_addi w) 0) as [->|N]; cbn [negb].
    - rewrite F. change (0 =? 7) with false. change (0 =? 1) with false. change (0 =? 5) with false. by intros N.
    - by apply case_addi. }
  change (0 =? 0) with true. cbn [negb].
  alternatives; intros _; rewrite canon_imm by (done || lia).
  - replace (f3_of w) with 7 by lia. replace (rs1_of w) with (rd_of w) by lia. apply short_andi; (done || lia).
  - replace (f3_of w) with 1 by lia. replace (rs1_of w) with (rd_of w) by lia. rewrite <- I.
    assert (imm12_of w < xlen).
    { destruct Hx as [->| ->]; [|lia]. specialize (Hl eq_refl Ho ltac:(lia)).
      destruct (decide (f7_of w = 1)) as [E1|]; [rewrite E1 in Hl; done | lia]. }
    rewrite Z.mod_small in Esh by lia. rewrite Esh. apply short_slli; (done || lia).
  - replace (f3_of w) with 5 by lia. replace (rs1_of w) with (rd_of w) by lia. rewrite <- I.
    destruct (shr_funct _ F7 ltac:(eassumption)) as (Ek & Rk). set (kind := if negb (Z.land (f7_of w) 0x20 =? 0) then 1 else 0) in *.
    assert (Eimm : imm12_of w = sh + 1024 * kind).
    { pose proof (Z.mod_pos_bound (f7_of w) 2 ltac:(lia)). rewrite Esh. destruct Hx as [->| ->].
      - specialize (Hl eq_refl Ho ltac:(lia)). rewrite Ei, Ek, Hl.
        replace (rs2_of w + 2 ^ 5 * (0 + 32 * kind)) with (rs2_of w + 32 * kind * 32) by lia.
        rewrite Z.mod_add, Z.mod_small by lia. lia.
      - rewrite Ei, Ek. replace (rs2_of w + 2 ^ 5 * (f7_of w mod 2 + 32 * kind))
          with (rs2_of w + 32 * (f7_of w mod 2) + 16 * kind * 64) by lia.
        rewrite Z.mod_add, (Z.mod_small (rs2_of w + _)) by lia. lia. }
    rewrite Eimm. pose proof (Z.mod_pos_bound (imm12_of w) xlen ltac:(lia)). apply short_shr; (done || lia).
Qed.
End Cases.

(** ** The whole compressor *)

Lemma compress_sound w xlen ext : is_u 32 w -> xlen = 32 \/ xlen = 64 -> has_ext ext RV_EXT_ZCB = false ->
  shift_legal w xlen -> sound w xlen (rv_compress ext w xlen).
Proof.
  intros Hw Hx Hz Hl. unfold rv_compress. rewrite Hz. change (negb (0 =? 0)) with false. cbv iota.
  alternatives.
  - by apply case_op_imm.
  - by apply case_op_imm32.
  - by apply case_lui.
  - by apply case_op.
  - by apply case_op32.
  - by apply case_load.
  - by apply case_store.
  - by apply case_load_fp.
  - by apply case_store_fp.
  - by apply case_jalr.
  - by apply case_system.
Qed.

(** There is no [addiw] at RV32 to compress. *)
Lemma compress_addiw_rv32 w ext : has_ext ext RV_EXT_ZCB = false -> op_of w = 0x1b -> rv_compress ext w 32 = 0.
Proof. intros Hz Ho. unfold rv_compress. rewrite Hz, Ho. done. Qed.

Lemma canon_nonzero w : is_u 32 w -> Z.land w 3 = 3 -> canon w <> 0.
Proof.
  intros Hw H3 Z0. apply (f_equal (fun z => Z.land z 3)) in Z0. revert Z0.
  assert (L : forall op rd imm, Z.land (iword op rd 0 0 imm) 3 = op mod 2 ^ 2).
  { intros op rd imm. change (Z.land (iword op rd 0 0 imm) (2 ^ 2 - 1) = op mod 2 ^ 2). rewrite land_ones_mod by lia.
    unfold iword. replace (op + 2 ^ 7 * rd + 2 ^ 12 * 0 + 2 ^ 15 * 0 + 2 ^ 20 * imm)
      with (op + (2 ^ 5 * rd + 2 ^ 18 * imm) * 2 ^ 2) by lia. by rewrite Z.mod_add by lia. }
  unfold canon. repeat case_match; rewrite ?L; [discriminate.. | by rewrite H3].
Qed.


