(* ===== verification/RvSim.v ===== *)
(** * The simulated RISC-V core: [src/tools/embsim/riscv.c]

    The integer instructions of RV32 and RV64 with the M and A extensions, on the bus
    of [Bus]: registers, traps, memory accesses, and [exec32]. Registers hold XLEN
    bits; at RV32 a value is kept zero-extended. The system instructions (CSRs,
    returns from traps, waiting) and the floating-point ones are operations of the
    core the integer part calls ([sys_insn], [rv_fp_exec]): parameters here, with the
    state they alone use. *)
From stdpp Require Import base numbers list option.
From Stdlib Require Import ZArith Lia.
From S2P Require Import Prelude Bus.

Local Open Scope Z_scope.

Definition EXC_IFETCH_ACCESS := 1.
Definition EXC_ILLEGAL := 2.
Definition EXC_BREAKPOINT := 3.
Definition EXC_LOAD_ALIGN := 4.
Definition EXC_LOAD_ACCESS := 5.
Definition EXC_STORE_ALIGN := 6.
Definition EXC_STORE_ACCESS := 7.
Definition TRAP_WATCH := 2 ^ 64 - 1.

Section Core.
(** [W]: the devices' states; [C]: the CSRs and the floating-point registers. *)
Context {W C : Type}.

Record rv_state := RvState {
  xlen : Z; x : Z -> Z; pc : Z; npc : Z;
  resv : bool; resv_addr : Z; resv_val : Z;
  trap : bool; cause : Z; tval : Z; insn : Z; changed : bool;
  esp : bool; mem : bus W; csrs : C }.

Definition set_x (s : rv_state) (f : Z -> Z) (ch : bool) := RvState (xlen s) f (pc s) (npc s) (resv s) (resv_addr s)
  (resv_val s) (trap s) (cause s) (tval s) (insn s) ch (esp s) (mem s) (csrs s).
Definition set_npc (s : rv_state) (t : Z) := RvState (xlen s) (x s) (pc s) t (resv s) (resv_addr s) (resv_val s)
  (trap s) (cause s) (tval s) (insn s) (changed s) (esp s) (mem s) (csrs s).
Definition set_trap (s : rv_state) (c t : Z) := RvState (xlen s) (x s) (pc s) (npc s) (resv s) (resv_addr s) (resv_val s)
  true c t (insn s) (changed s) (esp s) (mem s) (csrs s).
Definition set_resv (s : rv_state) (r : bool) (a v : Z) := RvState (xlen s) (x s) (pc s) (npc s) r a v
  (trap s) (cause s) (tval s) (insn s) (changed s) (esp s) (mem s) (csrs s).
Definition set_mem (s : rv_state) (m : bus W) := RvState (xlen s) (x s) (pc s) (npc s) (resv s) (resv_addr s) (resv_val s)
  (trap s) (cause s) (tval s) (insn s) (changed s) (esp s) m (csrs s).

(** ** Values, registers, traps *)

Definition rv_xl (s : rv_state) (v : Z) : Z := if xlen s =? 32 then u32 v else v.
Definition rv_sx (s : rv_state) (v : Z) : Z := if xlen s =? 32 then s32 v else s64 v.
Definition rv_wx (rd v : Z) (s : rv_state) : rv_state :=
  if rd =? 0 then s
  else let v := rv_xl s v in
       set_x s (upd (x s) rd v) (if x s rd =? v then changed s else true).

Definition rv_trap (c t : Z) (s : rv_state) : rv_state := if trap s then s else set_trap s c t.
Definition rv_illegal (s : rv_state) : rv_state := rv_trap EXC_ILLEGAL (insn s) s.

(** ** Memory *)

(** [n] bytes of a region, the highest first. *)
Fixpoint bytes_le (p : Z -> Z) (i : Z) (n : nat) : Z :=
  match n with O => 0 | S n => Z.lor (p i) (Z.shiftl (bytes_le p (i + 1) n) 8) end.
Fixpoint put_le (p : Z -> Z) (i : Z) (n : nat) (v : Z) : Z -> Z :=
  match n with O => p | S n => put_le (upd p i (Z.land v 0xff)) (i + 1) n (Z.shiftr v 8) end.

(** The part of an access a device takes at once. *)
Definition chunk (a32 i n : Z) : Z :=
  if (4 <=? n - i) && (Z.land (u32 (a32 + i)) 3 =? 0) then 4
  else if (2 <=? n - i) && (Z.land (u32 (a32 + i)) 1 =? 0) then 2 else 1.

Definition beyond (a n : Z) : bool := negb (Z.shiftr a 32 =? 0) || negb (Z.shiftr (u64 (a + n - 1)) 32 =? 0).

Fixpoint load_parts (fuel : nat) (a i n v : Z) (s : rv_state) : rv_state * Z :=
  match fuel with
  | O => (s, v)
  | S fuel =>
      if n <=? i then (s, v)
      else
        let k := chunk a i n in
        match bus_read (mem s) (u32 (a + i)) k with
        | (m, None) => (rv_trap EXC_LOAD_ACCESS a (set_mem s m), 0)
        | (m, Some y) => load_parts fuel a (i + k) n (Z.lor v (u64 (Z.shiftl y (8 * i)))) (set_mem s m)
        end
  end.

(** Before an access: past the bus, or a watchpoint. *)
Definition access_stops (a n : Z) (write : bool) (s : rv_state) : rv_state * bool :=
  if beyond a n then (rv_trap (if write then EXC_STORE_ACCESS else EXC_LOAD_ACCESS) a s, true)
  else match watches (mem s) with
       | [] => (s, false)
       | _ => let '(m, hit) := bus_watch_check (mem s) a n write in
              if hit then (rv_trap TRAP_WATCH 0 (set_mem s m), true) else (set_mem s m, false)
       end.

Definition rv_load (a n : Z) (s : rv_state) : rv_state * Z :=
  if trap s then (s, 0)
  else
    let '(s, stop) := access_stops a n false s in
    if stop then (s, 0)
    else match bus_region (mem s) a n with
         | Some r => (s, bytes_le (store (mem s) (r_mem r)) (u32 (a - r_base r)) (Z.to_nat n))
         | None => load_parts (Z.to_nat n) a 0 n 0 s
         end.

Fixpoint store_parts (fuel : nat) (a i n v : Z) (s : rv_state) : rv_state :=
  match fuel with
  | O => s
  | S fuel =>
      if n <=? i then s
      else
        let k := chunk a i n in
        let y := u32 (Z.shiftr v (8 * i)) in
        let y := if k <? 4 then Z.land y (u32 (Z.shiftl 1 (8 * k)) - 1) else y in
        let '(m, ok) := bus_write (mem s) (u32 (a + i)) k y in
        if ok then store_parts fuel a (i + k) n v (set_mem s m)
        else rv_trap EXC_STORE_ACCESS a (set_mem s m)
  end.

Definition rv_store (a n v : Z) (s : rv_state) : rv_state :=
  if trap s then s
  else
    let '(s, stop) := access_stops a n true s in
    if stop then s
    else match bus_region (mem s) a n with
         | Some r =>
             if r_rom r then s
             else set_mem s (set_store (mem s) (fun k => if bool_decide (k = r_mem r)
                    then put_le (store (mem s) k) (u32 (a - r_base r)) (Z.to_nat n) v else store (mem s) k))
         | None => store_parts (Z.to_nat n) a 0 n v s
         end.

(** ** Integer arithmetic *)

Definition jump (t : Z) (s : rv_state) : rv_state := set_npc s (rv_xl s t).

Definition mulhu64 (a b : Z) : Z :=
  let al := u32 a in let ah := Z.shiftr a 32 in let bl := u32 b in let bh := Z.shiftr b 32 in
  let ll := u64 (al * bl) in let lh := u64 (al * bh) in let hl := u64 (ah * bl) in let hh := u64 (ah * bh) in
  let mid := u64 (Z.shiftr ll 32 + u32 lh + u32 hl) in
  u64 (hh + Z.shiftr lh 32 + Z.shiftr hl 32 + Z.shiftr mid 32).

Definition mulh (xlen f3 a b : Z) : Z :=
  if xlen =? 32 then
    let sa := s32 a in let sb := s32 b in let ua := u32 a in let ub := u32 b in
    if f3 =? 1 then u64 (Z.shiftr (s64 (sa * sb)) 32)
    else if f3 =? 2 then u64 (Z.shiftr (s64 (sa * ub)) 32)
    else Z.shiftr (u64 (ua * ub)) 32
  else
    let h := mulhu64 a b in
    let h := if ((f3 =? 1) || (f3 =? 2)) && (s64 a <? 0) then u64 (h - b) else h in
    if (f3 =? 1) && (s64 b <? 0) then u64 (h - a) else h.

Definition divrem (f3 a b w : Z) : Z :=
  let m := if w =? 32 then 0xffffffff else 2 ^ 64 - 1 in
  let sa := if w =? 32 then s32 a else s64 a in
  let sb := if w =? 32 then s32 b else s64 b in
  let ua := Z.land a m in let ub := Z.land b m in
  let smin := if w =? 32 then - 2 ^ 31 else - 2 ^ 63 in
  match f3 with
  | 4 => if sb =? 0 then 2 ^ 64 - 1
         else if (sa =? smin) && (sb =? -1) then u64 sa else u64 (Z.quot sa sb)
  | 5 => if negb (ub =? 0) then ua / ub else 2 ^ 64 - 1
  | 6 => if sb =? 0 then u64 sa
         else if (sa =? smin) && (sb =? -1) then 0 else u64 (Z.rem sa sb)
  | _ => if negb (ub =? 0) then ua mod ub else u64 sa
  end.

Definition sext32 (v : Z) : Z := u64 (s32 v).

Definition op_imm (i rd f3 a imm : Z) (s : rv_state) : rv_state :=
  let sh := if xlen s =? 64 then 63 else 31 in
  let shamt := Z.land (Z.shiftr i 20) sh in
  let top := if xlen s =? 64 then Z.shiftr i 26 else Z.shiftr i 25 in
  match f3 with
  | 0 => rv_wx rd (u64 (a + imm)) s
  | 2 => rv_wx rd (b2z (rv_sx s a <? imm)) s
  | 3 => rv_wx rd (b2z (rv_xl s a <? rv_xl s (u64 imm))) s
  | 4 => rv_wx rd (Z.lxor a (u64 imm)) s
  | 6 => rv_wx rd (Z.lor a (u64 imm)) s
  | 7 => rv_wx rd (Z.land a (u64 imm)) s
  | 1 => if negb (top =? 0) then rv_illegal s else rv_wx rd (u64 (Z.shiftl a shamt)) s
  | 5 => if negb (Z.land top (u32 (Z.lnot (if xlen s =? 64 then 0x10 else 0x20))) =? 0) then rv_illegal s
         else if negb (Z.land i (Z.shiftl 1 30) =? 0) then rv_wx rd (u64 (Z.shiftr (rv_sx s a) shamt)) s
         else rv_wx rd (Z.shiftr (rv_xl s a) shamt) s
  | _ => rv_illegal s
  end.

Definition op_reg (rd f3 f7 a b : Z) (s : rv_state) : rv_state :=
  let sh := if xlen s =? 64 then 63 else 31 in
  if f7 =? 1 then
    if f3 =? 0 then rv_wx rd (u64 (a * b)) s
    else if f3 <? 4 then rv_wx rd (mulh (xlen s) f3 a b) s
    else rv_wx rd (divrem f3 a b (xlen s)) s
  else if (f7 =? 0x20) && negb (f3 =? 0) && negb (f3 =? 5) then rv_illegal s
  else if negb (f7 =? 0) && negb (f7 =? 0x20) then rv_illegal s
  else match f3 with
  | 0 => rv_wx rd (if negb (f7 =? 0) then u64 (a - b) else u64 (a + b)) s
  | 1 => rv_wx rd (u64 (Z.shiftl a (Z.land b sh))) s
  | 2 => rv_wx rd (b2z (rv_sx s a <? rv_sx s b)) s
  | 3 => rv_wx rd (b2z (a <? b)) s
  | 4 => rv_wx rd (Z.lxor a b) s
  | 5 => if negb (f7 =? 0) then rv_wx rd (u64 (Z.shiftr (rv_sx s a) (Z.land b sh))) s
         else rv_wx rd (Z.shiftr a (Z.land b sh)) s
  | 6 => rv_wx rd (Z.lor a b) s
  | _ => rv_wx rd (Z.land a b) s
  end.

Definition op_w (i rd f3 f7 a b : Z) (imm_form : bool) (s : rv_state) : rv_state :=
  if negb (xlen s =? 64) then rv_illegal s
  else if imm_form then
    let shamt := Z.land (Z.shiftr i 20) 31 in
    let imm := Z.shiftr (s32 i) 20 in
    if f3 =? 0 then rv_wx rd (sext32 (u64 (a + imm))) s
    else if (f3 =? 1) && (f7 =? 0) then rv_wx rd (sext32 (u32 (Z.shiftl (u32 a) shamt))) s
    else if (f3 =? 5) && (f7 =? 0) then rv_wx rd (sext32 (Z.shiftr (u32 a) shamt)) s
    else if (f3 =? 5) && (f7 =? 0x20) then rv_wx rd (u64 (Z.shiftr (s32 a) shamt)) s
    else rv_illegal s
  else
    let sh := Z.land (u32 b) 31 in
    if f7 =? 1 then
      if f3 =? 0 then rv_wx rd (sext32 (u32 (u32 a * u32 b))) s
      else if 4 <=? f3 then rv_wx rd (sext32 (divrem f3 a b 32)) s
      else rv_illegal s
    else if (f3 =? 0) && (f7 =? 0) then rv_wx rd (sext32 (u64 (a + b))) s
    else if (f3 =? 0) && (f7 =? 0x20) then rv_wx rd (sext32 (u64 (a - b))) s
    else if (f3 =? 1) && (f7 =? 0) then rv_wx rd (sext32 (u32 (Z.shiftl (u32 a) sh))) s
    else if (f3 =? 5) && (f7 =? 0) then rv_wx rd (sext32 (Z.shiftr (u32 a) sh)) s
    else if (f3 =? 5) && (f7 =? 0x20) then rv_wx rd (u64 (Z.shiftr (s32 a) sh)) s
    else rv_illegal s.

(** ** LR, SC and the AMOs *)

(** An AMO's fault is a store's. *)
Definition amo_fault (s : rv_state) : rv_state :=
  if cause s =? EXC_LOAD_ACCESS then set_trap s EXC_STORE_ACCESS (tval s) else s.

Definition amo_value (f5 n old b : Z) : option Z :=
  let m := if n =? 4 then 0xffffffff else 2 ^ 64 - 1 in
  let so := if n =? 4 then s32 old else s64 old in
  let sb := if n =? 4 then s32 b else s64 b in
  let uo := Z.land old m in let ub := Z.land b m in
  match f5 with
  | 0x01 => Some b
  | 0x00 => Some (u64 (old + b))
  | 0x04 => Some (Z.lxor old b)
  | 0x0c => Some (Z.land old b)
  | 0x08 => Some (Z.lor old b)
  | 0x10 => Some (if so <? sb then old else b)
  | 0x14 => Some (if sb <? so then old else b)
  | 0x18 => Some (if uo <? ub then old else b)
  | 0x1c => Some (if ub <? uo then old else b)
  | _ => None
  end.

(** SC's store, and its result. *)
Definition amo_sc_end (rd n a b m : Z) (ok : bool) (s : rv_state) : rv_state :=
  let s := if ok then rv_store a n (Z.land b m) s else s in
  if trap s then s else rv_wx rd (b2z (negb ok)) (set_resv s false (resv_addr s) (resv_val s)).
Definition amo_sc (rd n a b m : Z) (s : rv_state) : rv_state :=
  if resv s && (resv_addr s =? a) then
    let '(s, cur) := rv_load a n s in
    if trap s then amo_fault s else amo_sc_end rd n a b m (cur =? resv_val s) s
  else amo_sc_end rd n a b m false s.

Definition amo (i rd f3 a b : Z) (s : rv_state) : rv_state :=
  let n := if f3 =? 2 then 4 else if (f3 =? 3) && (xlen s =? 64) then 8 else 0 in
  let f5 := Z.shiftr i 27 in
  let m := if n =? 4 then 0xffffffff else 2 ^ 64 - 1 in
  if n =? 0 then rv_illegal s
  else if f5 =? 2 then
    if negb (Z.land (Z.shiftr i 20) 31 =? 0) then rv_illegal s
    else if negb (Z.land a (n - 1) =? 0) then rv_trap EXC_LOAD_ALIGN a s
    else let '(s, v) := rv_load a n s in
         if trap s then s else rv_wx rd (if n =? 4 then sext32 v else v) (set_resv s true a v)
  else if negb (Z.land a (n - 1) =? 0) then rv_trap EXC_STORE_ALIGN a s
  else if f5 =? 3 then amo_sc rd n a b m s
  else
    let '(s, old) := rv_load a n s in
    if trap s then amo_fault s
    else match amo_value f5 n old b with
         | None => rv_illegal s
         | Some nv =>
             let s := rv_store a n (Z.land nv m) s in
             if trap s then s else rv_wx rd (if n =? 4 then sext32 old else old) s
         end.

(** ** The instructions *)

(** The rest of the core: system instructions, and floating point ([false]: not one). *)
Context (sys_insn : Z -> Z -> Z -> rv_state -> rv_state).
Context (rv_fp_exec : Z -> rv_state -> rv_state * bool).

Definition jal_off (i : Z) : Z :=
  Z.lor (Z.lor (Z.lor (Z.shiftr (s32 (Z.land i 0x80000000)) 11) (Z.land i 0xff000))
    (Z.land (Z.shiftr i 9) 0x800)) (Z.land (Z.shiftr i 20) 0x7fe).
Definition branch_off (i : Z) : Z :=
  Z.lor (Z.lor (Z.lor (Z.shiftr (s32 (Z.land i 0x80000000)) 19) (Z.land (u32 (Z.shiftl i 4)) 0x800))
    (Z.land (Z.shiftr i 20) 0x7e0)) (Z.land (Z.shiftr i 7) 0x1e).
Definition store_off (i : Z) : Z :=
  Z.lor (Z.shiftl (Z.shiftr (s32 i) 25) 5) (Z.land (Z.shiftr i 7) 31).

Definition branch_taken (f3 a b : Z) (s : rv_state) : option bool :=
  match f3 with
  | 0 => Some (a =? b)
  | 1 => Some (negb (a =? b))
  | 4 => Some (rv_sx s a <? rv_sx s b)
  | 5 => Some (rv_sx s b <=? rv_sx s a)
  | 6 => Some (a <? b)
  | 7 => Some (b <=? a)
  | _ => None
  end.

Definition load_insn (i rd f3 a : Z) (s : rv_state) : rv_state :=
  let ad := rv_xl s (u64 (a + Z.shiftr (s32 i) 20)) in
  let n := Z.shiftl 1 (Z.land f3 3) in
  if (f3 =? 7) || ((f3 =? 3) && (xlen s =? 32)) || ((f3 =? 6) && (xlen s =? 32)) then rv_illegal s
  else
    let '(s, v) := rv_load ad n s in
    if trap s then s
    else
      let v := if (Z.land f3 4 =? 0) && (n <? 8)
               then u64 (if n =? 1 then swrap 8 v else if n =? 2 then swrap 16 v else s32 v) else v in
      rv_wx rd v s.

Definition exec32 (i : Z) (s : rv_state) : rv_state :=
  let op := Z.land i 0x7f in let rd := Z.land (Z.shiftr i 7) 31 in let f3 := Z.land (Z.shiftr i 12) 7 in
  let rs1 := Z.land (Z.shiftr i 15) 31 in let rs2 := Z.land (Z.shiftr i 20) 31 in let f7 := Z.shiftr i 25 in
  let a := x s rs1 in let b := x s rs2 in
  let immi := Z.shiftr (s32 i) 20 in
  match op with
  | 0x37 => rv_wx rd (u64 (s32 (Z.land i 0xfffff000))) s
  | 0x17 => rv_wx rd (u64 (pc s + u64 (s32 (Z.land i 0xfffff000)))) s
  | 0x6f => let link := npc s in rv_wx rd link (jump (u64 (pc s + jal_off i)) s)
  | 0x67 => if negb (f3 =? 0) then rv_illegal s
            else let link := npc s in rv_wx rd link (jump (Z.land (u64 (a + immi)) (u64 (Z.lnot 1))) s)
  | 0x63 => match branch_taken f3 a b s with
            | None => rv_illegal s
            | Some t => if t then jump (u64 (pc s + branch_off i)) s else s
            end
  | 0x03 => load_insn i rd f3 a s
  | 0x23 => if (3 <? f3) || ((f3 =? 3) && (xlen s =? 32)) then rv_illegal s
            else rv_store (rv_xl s (u64 (a + store_off i))) (Z.shiftl 1 f3) b s
  | 0x13 => op_imm i rd f3 a immi s
  | 0x33 => op_reg rd f3 f7 a b s
  | 0x1b => op_w i rd f3 f7 a b true s
  | 0x3b => op_w i rd f3 f7 a b false s
  | 0x0f => if 1 <? f3 then rv_illegal s else s
  | 0x73 => sys_insn i rd f3 s
  | 0x2f => if esp s then rv_illegal s else amo i rd f3 a b s
  | _ => if esp s then rv_illegal s
         else let '(s, known) := rv_fp_exec i s in if known then s else rv_illegal s
  end.
End Core.
Arguments rv_state : clear implicits.
