(* ===== verification/RvExec.v ===== *)
(** * What the simulated core does

    The state keeps its form: register zero is zero, registers hold XLEN bits, memory
    holds bytes. The multiplier and divider compute the M extension's results. And
    the words [canon] exchanges have one meaning, so that executing a compressed
    instruction is executing the one it was made from. *)
From stdpp Require Import base numbers list option.
From Stdlib Require Import ZArith Lia.
From S2P Require Import Prelude RtInt128 Bus RvEncode RvExpand RvLayouts RvCompress RvSim.

Local Open Scope Z_scope.

(** ** The form of the state *)

Section Form.
Context {W C : Type}.
Implicit Types s : rv_state W C.

Definition bytes_ok (b : bus W) : Prop := forall k i, is_byte (store b k i).

Record rv_ok (s : rv_state W C) : Prop := {
  ok_xlen : xlen s = 32 \/ xlen s = 64;
  ok_zero : x s 0 = 0;
  ok_regs r : 0 <= x s r < 2 ^ xlen s;
  ok_npc : 0 <= npc s < 2 ^ xlen s;
  ok_mem : bytes_ok (mem s) }.

(** What an instruction may change without touching registers or memory. *)
Lemma rv_trap_ok c t s : rv_ok s -> rv_ok (rv_trap c t s).
Proof. intros [? ? ? ? ?]. unfold rv_trap. destruct (trap s); by constructor. Qed.
Lemma rv_illegal_ok s : rv_ok s -> rv_ok (rv_illegal s).
Proof. apply rv_trap_ok. Qed.
Lemma set_resv_ok s r a v : rv_ok s -> rv_ok (set_resv s r a v).
Proof. intros [? ? ? ? ?]. by constructor. Qed.
Lemma amo_fault_ok s : rv_ok s -> rv_ok (amo_fault s).
Proof. intros [? ? ? ? ?]. unfold amo_fault. destruct (_ =? _); by constructor. Qed.
Lemma set_mem_ok s m : rv_ok s -> bytes_ok m -> rv_ok (set_mem s m).
Proof. intros [? ? ? ? ?] ?. by constructor. Qed.

Lemma rv_xl_range s v : xlen s = 32 \/ xlen s = 64 -> is_u 64 v -> 0 <= rv_xl s v < 2 ^ xlen s.
Proof.
  intros H Hv. unfold rv_xl. destruct (Z.eqb_spec (xlen s) 32) as [->|]; [apply uwrap_range; lia|].
  destruct H as [?|H]; [done|]. by rewrite H.
Qed.

Lemma rv_wx_ok rd v s : rv_ok s -> is_u 64 v -> rv_ok (rv_wx rd v s).
Proof.
  intros [? ? ? ? ?] Hv. unfold rv_wx. destruct (Z.eqb_spec rd 0); [by constructor|].
  constructor; try done; simpl.
  - by rewrite upd_other.
  - intros r. destruct (decide (r = rd)) as [->|]; [rewrite upd_same; by apply rv_xl_range | by rewrite upd_other].
Qed.

Lemma jump_ok t s : rv_ok s -> is_u 64 t -> rv_ok (jump t s).
Proof. intros [? ? ? ? ?] Ht. constructor; try done. simpl. by apply rv_xl_range. Qed.

(** ** Memory keeps bytes *)

Lemma land_ff_byte v : is_byte (Z.land v 0xff).
Proof. pose proof (land_bound v 255 ltac:(lia)). unfold is_byte. lia. Qed.

Lemma upd_bytes (p : Z -> Z) i v : (forall j, is_byte (p j)) -> forall j, is_byte (upd p i (Z.land v 0xff) j).
Proof.
  intros H j. destruct (decide (j = i)) as [->|]; [rewrite upd_same; apply land_ff_byte | by rewrite upd_other].
Qed.

Lemma mem_wr_bytes p i n v : (forall j, is_byte (p j)) -> forall j, is_byte (mem_wr_le p i n v j).
Proof. intros H. unfold mem_wr_le. cbv zeta. destruct (1 <? n), (2 <? n); repeat apply upd_bytes; done. Qed.

Lemma put_le_bytes n : forall p i v, (forall j, is_byte (p j)) -> forall j, is_byte (put_le p i n v j).
Proof. induction n as [|n IH]; intros p i v H; simpl; [done|]. apply IH. by apply upd_bytes. Qed.

Lemma store_bytes (b : bus W) k0 (f : (Z -> Z) -> Z -> Z) : bytes_ok b ->
  (forall p, (forall j, is_byte (p j)) -> forall j, is_byte (f p j)) ->
  bytes_ok (set_store b (fun k => if bool_decide (k = k0) then f (store b k) else store b k)).
Proof. intros H Hf k i. simpl. case_bool_decide; [apply Hf; intros; apply H | apply H]. Qed.

Lemma rd_bytes fuel : forall (b : bus W) a n, bytes_ok b -> bytes_ok (rd fuel b a n).1.
Proof.
  induction fuel as [|fuel IH]; intros b a n H; simpl; destruct (bus_region b a n); try done;
    destruct (alias_of b a) as [[t bit]|]; try done.
  - destruct (device_of b a) as [d|]; [|done]. destruct (match op_read _ with Some f => _ | None => _ end) as [w [y fl]].
    by destruct (fl || dev_fault b).
  - pose proof (IH b t 1 H) as H1. by destruct (rd fuel b t 1) as [b1 [y|]].
  - destruct (device_of b a) as [d|]; [|done]. destruct (match op_read _ with Some f => _ | None => _ end) as [w [y fl]].
    by destruct (fl || dev_fault b).
Qed.

Lemma snoop_bytes (b : bus W) a (dbg : bool) : bytes_ok b -> bytes_ok (if dbg then b else tell_snoop b a).
Proof. intros H. destruct dbg; [done|]. unfold tell_snoop. by destruct (snoop b). Qed.

Lemma wr_bytes fuel : forall (b : bus W) a n v dbg, bytes_ok b -> bytes_ok (wr fuel b a n v dbg).1.
Proof.
  induction fuel as [|fuel IH]; intros b a n v dbg H; cbn [wr]; pose proof (snoop_bytes b a dbg H) as HS;
    set (b1 := if dbg then b else tell_snoop b a) in *; clearbody b1; destruct (bus_region b1 a n) as [r|].
  1, 3: (destruct (negb (r_rom r) || dbg); [|done];
    apply (store_bytes b1 (r_mem r) (fun p => mem_wr_le p (u32 (a - r_base r)) n v)); [done|]; intros p Hp; by apply mem_wr_bytes).
  all: destruct (alias_of b1 a) as [[t bit]|].
  - done.
  - destruct (device_of b1 a) as [d|]; [|done]. destruct (match op_write _ with Some f => _ | None => _ end) as [w fl].
    by destruct (fl || dev_fault b1).
  - pose proof (rd_bytes (length (bb b1)) b1 t 1 HS) as H1. destruct (rd _ b1 t 1) as [b2 [y|]]; [by apply IH | done].
  - destruct (device_of b1 a) as [d|]; [|done]. destruct (match op_write _ with Some f => _ | None => _ end) as [w fl].
    by destruct (fl || dev_fault b1).
Qed.

Lemma access_stops_ok a n w s : rv_ok s -> rv_ok (access_stops a n w s).1.
Proof.
  intros H. unfold access_stops. destruct (beyond a n); [by apply rv_trap_ok|].
  destruct (watches (mem s)) as [|w0 l] eqn:E; [done|]. clear E.
  assert (B : bytes_ok (bus_watch_check (mem s) a n w).1).
  { pose proof (ok_mem s H). unfold bus_watch_check. destruct (List.find _ _); [|done]. by destruct (watch_hit (mem s)). }
  destruct (bus_watch_check (mem s) a n w) as [m [|]]; [apply rv_trap_ok|]; by apply set_mem_ok.
Qed.

Lemma bytes_le_range p i n : (forall j, is_byte (p j)) -> 0 <= bytes_le p i n < 2 ^ (8 * Z.of_nat n).
Proof.
  intros H. revert i. induction n as [|n IH]; intros i; cbn [bytes_le]; [lia|].
  specialize (IH (i + 1)). pose proof (H i) as Hi. unfold is_byte in Hi. rewrite cat_byte by lia.
  replace (8 * Z.of_nat (S n)) with (8 + 8 * Z.of_nat n) by lia. rewrite Z.pow_add_r by lia. lia.
Qed.

Lemma load_parts_ok fuel : forall a i n v s, rv_ok s -> is_u 64 v ->
  let '(s', v') := load_parts fuel a i n v s in rv_ok s' /\ is_u 64 v'.
Proof.
  induction fuel as [|fuel IH]; intros a i n v s H Hv; simpl; [done|]. destruct (n <=? i); [done|].
  pose proof (rd_bytes (length (bb (mem s))) (mem s) (u32 (a + i)) (chunk a i n) (ok_mem s H)) as B.
  unfold bus_read. destruct (rd _ (mem s) _ _) as [m [y|]].
  - apply IH; [by apply set_mem_ok|]. apply lor_is_u; [lia | done | apply uwrap_range; lia].
  - split; [apply rv_trap_ok; by apply set_mem_ok | unfold is_u; lia].
Qed.

Lemma rv_load_ok a n s : rv_ok s -> 0 <= n <= 8 -> let '(s', v) := rv_load a n s in rv_ok s' /\ is_u 64 v.
Proof.
  intros H Hn. unfold rv_load. destruct (trap s); [split; [done | unfold is_u; lia]|].
  pose proof (access_stops_ok a n false s H) as H1. destruct (access_stops a n false s) as [s1 stop]. simpl in H1.
  destruct stop; [split; [done | unfold is_u; lia]|]. destruct (bus_region (mem s1) a n) as [r|].
  - split; [done|]. pose proof (bytes_le_range (store (mem s1) (r_mem r)) (u32 (a - r_base r)) (Z.to_nat n)
      ltac:(intros; apply (ok_mem s1 H1))) as R. unfold is_u. rewrite Z2Nat.id in R by lia.
    assert (2 ^ (8 * n) <= 2 ^ 64) by (apply Z.pow_le_mono_r; lia). lia.
  - apply load_parts_ok; [done | unfold is_u; lia].
Qed.

Lemma store_parts_ok fuel : forall a i n v s, rv_ok s -> rv_ok (store_parts fuel a i n v s).
Proof.
  induction fuel as [|fuel IH]; intros a i n v s H; simpl; [done|]. destruct (n <=? i); [done|].
  set (y := if chunk a i n <? 4 then _ else _). unfold bus_write.
  pose proof (wr_bytes (length (bb (mem s))) (mem s) (u32 (a + i)) (chunk a i n) y false (ok_mem s H)) as B.
  destruct (wr _ (mem s) _ _ _ _) as [m ok]. destruct ok; [apply IH | apply rv_trap_ok]; by apply set_mem_ok.
Qed.

Lemma rv_store_ok a n v s : rv_ok s -> rv_ok (rv_store a n v s).
Proof.
  intros H. unfold rv_store. destruct (trap s); [done|].
  pose proof (access_stops_ok a n true s H) as H1. destruct (access_stops a n true s) as [s1 stop]. simpl in H1.
  destruct stop; [done|]. destruct (bus_region (mem s1) a n) as [r|]; [|by apply store_parts_ok].
  destruct (r_rom r); [done|]. apply set_mem_ok; [done|].
  apply (store_bytes (mem s1) (r_mem r) (fun p => put_le p (u32 (a - r_base r)) (Z.to_nat n) v)); [apply H1|].
  intros p Hp. by apply put_le_bytes.
Qed.

(** ** The instructions keep the form *)

Lemma reg_u s r : rv_ok s -> is_u 64 (x s r).
Proof.
  intros H. pose proof (ok_regs s H r) as R. unfold is_u. destruct (ok_xlen s H) as [E|E]; rewrite E in R; lia.
Qed.
Lemma b2z_u (c : bool) : is_u 64 (b2z c).
Proof. unfold is_u. destruct c; simpl; lia. Qed.
Lemma land_u a b : is_u 64 b -> is_u 64 (Z.land a b).
Proof. unfold is_u. intros H. pose proof (land_bound a b ltac:(lia)). lia. Qed.
Lemma lxor_u a b : is_u 64 a -> is_u 64 b -> is_u 64 (Z.lxor a b).
Proof.
  intros Ha Hb. enough (E : Z.lxor a b = uwrap 64 (Z.lxor a b)) by (rewrite E; apply uwrap_range; lia).
  unfold uwrap. rewrite <- Z.land_ones by lia. apply Z.bits_inj'. intros j Hj.
  rewrite Z.land_spec, Z.testbit_ones_nonneg by lia. destruct (Z.ltb_spec j 64); [by rewrite andb_true_r|].
  rewrite andb_false_r, Z.lxor_spec. rewrite <- (uwrap_small 64 a Ha), <- (uwrap_small 64 b Hb). unfold uwrap.
  by rewrite !Z.mod_pow2_bits_high by lia.
Qed.
Lemma shiftr_u a n : is_u 64 a -> 0 <= n -> is_u 64 (Z.shiftr a n).
Proof. intros Ha Hn. rewrite Z.shiftr_div_pow2 by done. by apply shr_is_u. Qed.
Lemma rv_xl_u s a : is_u 64 a -> is_u 64 (rv_xl s a).
Proof.
  intros H. unfold rv_xl. destruct (_ =? _); [|done]. pose proof (uwrap_range 32 a ltac:(lia)) as R.
  unfold is_u in *. lia.
Qed.
Lemma shamt_nonneg a b : 0 <= b -> 0 <= Z.land a b.
Proof. intros H. apply land_bound. lia. Qed.

Lemma u32_u z : is_u 64 (u32 z).
Proof. pose proof (uwrap_range 32 z ltac:(lia)) as R. unfold is_u in *. lia. Qed.
Lemma u64_u z : is_u 64 (u64 z).
Proof. apply uwrap_range. lia. Qed.

Lemma divrem_u f3 a b w : is_u 64 a -> is_u 64 b -> is_u 64 (divrem f3 a b w).
Proof.
  intros Ha Hb. unfold divrem. set (m := if w =? 32 then _ else _). cbv zeta.
  assert (Hua : is_u 64 (Z.land a m)) by (rewrite Z.land_comm; by apply land_u).
  assert (Hub : is_u 64 (Z.land b m)) by (rewrite Z.land_comm; by apply land_u).
  assert (D : is_u 64 (if negb (Z.land b m =? 0) then Z.land a m / Z.land b m else 2 ^ 64 - 1)).
  { destruct (Z.eqb_spec (Z.land b m) 0); simpl; unfold is_u in *; [lia|].
    split; [apply Z.div_pos; lia|]. apply Z.le_lt_trans with (Z.land a m); [|lia].
    apply Z.div_le_upper_bound; nia. }
  assert (M : forall z, is_u 64 (if negb (Z.land b m =? 0) then Z.land a m mod Z.land b m else u64 z)).
  { intros z. destruct (Z.eqb_spec (Z.land b m) 0); simpl; [apply u64_u|]. unfold is_u in *.
    pose proof (Z.mod_pos_bound (Z.land a m) (Z.land b m) ltac:(lia)). lia. }
  destruct (negb (Z.land b m =? 0)); repeat case_match; try apply u64_u; try apply D; try apply (M 0); unfold is_u; lia.
Qed.

Lemma mulh_u xl f3 a b : is_u 64 a -> is_u 64 b -> is_u 64 (mulh xl f3 a b).
Proof.
  intros Ha Hb. unfold mulh. cbv zeta.
  repeat case_match; try apply u64_u; try (unfold mulhu64; apply u64_u); apply shiftr_u; (apply u64_u || lia).
Qed.
End Form.

Create HintDb rv.
#[export] Hint Resolve rv_trap_ok rv_illegal_ok set_resv_ok amo_fault_ok rv_wx_ok jump_ok rv_store_ok reg_u b2z_u
  lxor_u lor_is_u shiftr_u rv_xl_u u32_u u64_u divrem_u mulh_u : rv.
#[export] Hint Extern 2 (is_u 64 (Z.land _ _)) => apply land_u : rv.
#[export] Hint Extern 2 (0 <= Z.land _ _)%Z => apply shamt_nonneg : rv.
#[export] Hint Extern 4 (0 <= _)%Z => lia : rv.

Section Preserve.
Context {W C : Type}.
Implicit Types s : rv_state W C.
Context (sys_insn : Z -> Z -> Z -> rv_state W C -> rv_state W C).
Context (rv_fp_exec : Z -> rv_state W C -> rv_state W C * bool).
Context (sys_ok : forall i rd f3 s, rv_ok s -> rv_ok (sys_insn i rd f3 s)).
Context (fp_ok : forall i s, rv_ok s -> rv_ok (rv_fp_exec i s).1).

Lemma sext32_u v : is_u 64 (sext32 v). Proof. apply u64_u. Qed.
Hint Resolve sext32_u : rv.

Lemma op_imm_ok i rd f3 a imm s : rv_ok s -> is_u 64 a -> rv_ok (op_imm i rd f3 a imm s).
Proof.
  intros H Ha. unfold op_imm. cbv zeta. repeat case_match; eauto with rv;
    (apply rv_wx_ok; [done|]; apply shiftr_u; [by apply rv_xl_u | apply shamt_nonneg; lia]).
Qed.

Lemma op_reg_ok rd f3 f7 a b s : rv_ok s -> is_u 64 a -> is_u 64 b -> rv_ok (op_reg rd f3 f7 a b s).
Proof.
  intros H Ha Hb. unfold op_reg. cbv zeta. repeat case_match; eauto with rv.
Qed.

Lemma op_w_ok i rd f3 f7 a b im s : rv_ok s -> rv_ok (op_w i rd f3 f7 a b im s).
Proof. intros H. unfold op_w. cbv zeta. repeat case_match; eauto with rv. Qed.

Lemma amo_n s f3 : let n := if f3 =? 2 then 4 else if (f3 =? 3) && (xlen s =? 64) then 8 else 0 in 0 <= n <= 8.
Proof. simpl. repeat case_match; lia. Qed.

Lemma amo_sc_end_ok rd n a b m ok s : rv_ok s -> rv_ok (amo_sc_end rd n a b m ok s).
Proof. intros H. unfold amo_sc_end. cbv zeta. destruct ok; repeat case_match; eauto with rv. Qed.

Lemma amo_ok i rd f3 a b s : rv_ok s -> rv_ok (amo i rd f3 a b s).
Proof.
  intros H. unfold amo. pose proof (amo_n s f3) as Rn. cbv zeta in Rn |- *.
  set (n := if f3 =? 2 then 4 else _) in *. set (m := if n =? 4 then _ else _). clearbody n m.
  pose proof (rv_load_ok a n s H Rn) as L. unfold amo_sc. destruct (rv_load a n s) as [s1 v]. destruct L as (H1 & Hv).
  assert (X : is_u 64 (if n =? 4 then sext32 v else v)) by (destruct (n =? 4); [apply sext32_u | done]).
  repeat (case_match; [by eauto using amo_sc_end_ok with rv|..]); repeat case_match; eauto using amo_sc_end_ok with rv.
Qed.

Lemma load_insn_ok i rd f3 a s : rv_ok s -> 0 <= f3 < 8 -> rv_ok (load_insn i rd f3 a s).
Proof.
  intros H Hf. unfold load_insn. cbv zeta. destruct (_ || _ || _); [by apply rv_illegal_ok|].
  assert (Rn : 0 <= Z.shiftl 1 (Z.land f3 3) <= 8).
  { pose proof (land_bound f3 3 ltac:(lia)). rewrite Z.shiftl_1_l. pose proof (pow2_pos (Z.land f3 3) ltac:(lia)).
    assert (2 ^ Z.land f3 3 <= 2 ^ 3) by (apply Z.pow_le_mono_r; lia). lia. }
  pose proof (rv_load_ok (rv_xl s (u64 (a + Z.shiftr (s32 i) 20))) _ s H Rn) as L.
  destruct (rv_load _ _ s) as [s1 v]. destruct L as (H1 & Hv). repeat case_match; eauto with rv.
Qed.

Lemma exec32_form_at i s : rv_ok s -> (forall rd f3, rv_ok (sys_insn i rd f3 s)) -> rv_ok (rv_fp_exec i s).1 ->
  rv_ok (exec32 sys_insn rv_fp_exec i s).
Proof using.
  intros H HS Hfp. unfold exec32. cbv zeta.
  assert (Hf : 0 <= Z.land (Z.shiftr i 12) 7 < 8) by (pose proof (land_bound (Z.shiftr i 12) 7 ltac:(lia)); lia).
  set (f3 := Z.land (Z.shiftr i 12) 7) in *. set (rd := Z.land (Z.shiftr i 7) 31).
  set (a := x s (Z.land (Z.shiftr i 15) 31)). set (b := x s (Z.land (Z.shiftr i 20) 31)).
  assert (Ha : is_u 64 a) by by apply reg_u. assert (Hb : is_u 64 b) by by apply reg_u.
  assert (Hlink : is_u 64 (npc s)).
  { pose proof (ok_npc s H) as R. unfold is_u. destruct (ok_xlen s H) as [E|E]; rewrite E in R; lia. }
  destruct (rv_fp_exec i s) as [sf known]. simpl in Hfp.
  pose proof (op_imm_ok i rd f3 a (Z.shiftr (s32 i) 20) s H Ha) as P1.
  pose proof (op_reg_ok rd f3 (Z.shiftr i 25) a b s H Ha Hb) as P2.
  pose proof (load_insn_ok i rd f3 a s H Hf) as P3.
  pose proof (amo_ok i rd f3 a b s H) as P4. pose proof (HS rd f3) as P5.
  assert (P6 : forall t, rv_ok (rv_wx rd (npc s) (jump (u64 t) s))) by eauto with rv.
  repeat (case_match; eauto using op_w_ok with rv).
Qed.
Lemma exec32_form i s : rv_ok s -> rv_ok (exec32 sys_insn rv_fp_exec i s).
Proof using sys_ok fp_ok. intros H. apply exec32_form_at; auto. Qed.
End Preserve.

(** Execution of a sequence of instruction words. *)
Section Run.
Context {W C : Type}.
Implicit Types s : rv_state W C.
Context (sys_insn : Z -> Z -> Z -> rv_state W C -> rv_state W C).
Context (rv_fp_exec : Z -> rv_state W C -> rv_state W C * bool).
Local Abbreviation exec := (exec32 sys_insn rv_fp_exec).

(** The core's state keeps its form: whatever instruction words are executed, in any
    order, register zero reads zero, every register and the next program counter hold
    XLEN bits, and memory holds bytes, provided the system and floating-point
    instructions keep it so. *)
Theorem exec32_keeps_form (l : list Z) s :
  (forall i rd f3 s, rv_ok s -> rv_ok (sys_insn i rd f3 s)) ->
  (forall i s, rv_ok s -> rv_ok (rv_fp_exec i s).1) ->
  rv_ok s -> rv_ok (foldl (fun s i => exec i s) s l).
Proof.
  intros HS HF. revert s. induction l as [|i l IH]; intros s H; simpl; [done|]. apply IH.
  by apply exec32_form.
Qed.
End Run.

(** ** Fields of a word made of fields *)

Lemma iword_fields op rd f3 rs1 rs2 f7 : 0 <= op < 128 -> 0 <= rd < 32 -> 0 <= f3 < 8 -> 0 <= rs1 < 32 ->
  0 <= rs2 < 32 -> 0 <= f7 < 128 ->
  let w := iword op rd f3 rs1 (rs2 + 2 ^ 5 * f7) in
  is_u 32 w /\ op_of w = op /\ rd_of w = rd /\ f3_of w = f3 /\ rs1_of w = rs1 /\ rs2_of w = rs2 /\
  f7_of w = f7 /\ imm12_of w = rs2 + 2 ^ 5 * f7.
Proof.
  intros H1 H2 H3 H4 H5 H6 w. destruct (fields_mod w) as (-> & -> & -> & -> & -> & -> & ->). unfold is_u, w, iword.
  assert (F : forall n k v r h z, 0 <= n -> 0 <= k -> 0 <= r < 2 ^ n -> 0 <= v < 2 ^ k ->
    z = r + 2 ^ n * (v + 2 ^ k * h) -> (z / 2 ^ n) mod 2 ^ k = v).
  { intros n k v r h z Hn Hk Hr Hv ->. pose proof (pow2_pos n Hn). pose proof (pow2_pos k Hk).
    rewrite (Z.mul_comm (2 ^ n)), Z.div_add, Z.div_small, Z.add_0_l by lia.
    rewrite (Z.mul_comm (2 ^ k)), Z.mod_add, Z.mod_small by lia. done. }
  split_and!; [lia | lia | ..].
  - rewrite <- (Z.div_1_r (op + _ + _ + _ + _)). change 1 with (2 ^ 0).
    apply (F 0 7 op 0 (rd + 2 ^ 5 * f3 + 2 ^ 8 * rs1 + 2 ^ 13 * (rs2 + 2 ^ 5 * f7))); lia.
  - apply (F 7 5 rd op (f3 + 2 ^ 3 * rs1 + 2 ^ 8 * (rs2 + 2 ^ 5 * f7))); lia.
  - apply (F 12 3 f3 (op + 2 ^ 7 * rd) (rs1 + 2 ^ 5 * (rs2 + 2 ^ 5 * f7))); lia.
  - apply (F 15 5 rs1 (op + 2 ^ 7 * rd + 2 ^ 12 * f3) (rs2 + 2 ^ 5 * f7)); lia.
  - apply (F 20 5 rs2 (op + 2 ^ 7 * rd + 2 ^ 12 * f3 + 2 ^ 15 * rs1) f7); lia.
  - apply (F 25 7 f7 (op + 2 ^ 7 * rd + 2 ^ 12 * f3 + 2 ^ 15 * rs1 + 2 ^ 20 * rs2) 0); lia.
  - apply (F 20 12 (rs2 + 2 ^ 5 * f7) (op + 2 ^ 7 * rd + 2 ^ 12 * f3 + 2 ^ 15 * rs1) 0); lia.
Qed.

(** The fields as the core reads them. *)
Lemma f7_shift w : is_u 32 w -> Z.shiftr w 25 = f7_of w.
Proof.
  intros Hw. destruct (fields_mod w) as (_ & _ & _ & _ & _ & -> & _). rewrite Z.shiftr_div_pow2 by lia.
  symmetry. apply Z.mod_small. unfold is_u in Hw. split; [apply Z.div_pos; lia | apply Z.div_lt_upper_bound; lia].
Qed.

Lemma immi_shift w : is_u 32 w -> Z.shiftr (s32 w) 20 = immi_of w.
Proof.
  intros Hw. rewrite Z.shiftr_div_pow2 by lia. destruct (word_decoded w Hw).
  destruct (immi_field w Hw) as (I & R & P). rewrite swrap_of_u by (lia || done).
  unfold immi_of in *. change (Z.land (Z.shiftr w 20) 0xfff) with (imm12_of w) in *.
  unfold sext12 in *. assert (Q : w / 2 ^ 20 = imm12_of w).
  { symmetry. apply Z.div_unique with (op_of w + 2 ^ 7 * rd_of w + 2 ^ 12 * f3_of w + 2 ^ 15 * rs1_of w); [lia|].
    rewrite dec_word at 1. unfold iword. lia. }
  assert (C : all_in 0 4096 (fun i => eqb (negb (Z.land i 0x800 =? 0)) (2048 <=? i)) = true) by (vm_compute; reflexivity).
  pose proof (all_in_spec _ _ _ C (imm12_of w) ltac:(lia)) as B. cbv beta in B. apply eqb_prop in B. rewrite B.
  assert (W12 : w = (w mod 2 ^ 20) + imm12_of w * 2 ^ 20) by (rewrite <- Q; pose proof (Z.div_mod w (2 ^ 20)); lia).
  pose proof (Z.mod_pos_bound w (2 ^ 20) ltac:(lia)).
  destruct (Z.ltb_spec w (2 ^ (32 - 1))), (Z.leb_spec 2048 (imm12_of w)); try lia.
  replace (w - 2 ^ 32) with (w + (-4096) * 2 ^ 20) by lia. rewrite Z.div_add by lia. lia.
Qed.

(** [exec32] by the fields of [RvEncode]; the switch one opcode at a time. *)
Section Exec.
Context {W C : Type}.
Implicit Types s : rv_state W C.
Context (sys_insn : Z -> Z -> Z -> rv_state W C -> rv_state W C).
Context (rv_fp_exec : Z -> rv_state W C -> rv_state W C * bool).
Local Abbreviation exec := (exec32 sys_insn rv_fp_exec).

Lemma exec_op_imm w s : is_u 32 w -> op_of w = 0x13 ->
  exec w s = op_imm w (rd_of w) (f3_of w) (x s (rs1_of w)) (immi_of w) s.
Proof. intros Hw Ho. unfold exec32. change (Z.land w 0x7f) with (op_of w). rewrite Ho, immi_shift by done. done. Qed.

Lemma exec_op_reg w s : is_u 32 w -> op_of w = 0x33 ->
  exec w s = op_reg (rd_of w) (f3_of w) (f7_of w) (x s (rs1_of w)) (x s (rs2_of w)) s.
Proof. intros Hw Ho. unfold exec32. change (Z.land w 0x7f) with (op_of w). rewrite Ho, f7_shift by done. done. Qed.

Lemma exec_op_imm32 w s : is_u 32 w -> op_of w = 0x1b ->
  exec w s = op_w w (rd_of w) (f3_of w) (f7_of w) (x s (rs1_of w)) (x s (rs2_of w)) true s.
Proof. intros Hw Ho. unfold exec32. change (Z.land w 0x7f) with (op_of w). rewrite Ho, f7_shift by done. done. Qed.

Lemma exec_op32 w s : is_u 32 w -> op_of w = 0x3b ->
  exec w s = op_w w (rd_of w) (f3_of w) (f7_of w) (x s (rs1_of w)) (x s (rs2_of w)) false s.
Proof. intros Hw Ho. unfold exec32. change (Z.land w 0x7f) with (op_of w). rewrite Ho, f7_shift by done. done. Qed.

(** A move. *)
Lemma exec_move s rd rs : rv_ok s -> 0 <= rd < 32 -> 0 <= rs < 32 -> exec (iword 0x33 rd 0 0 rs) s = rv_wx rd (x s rs) s.
Proof.
  intros H Hd Hs. pose proof (iword_fields 0x33 rd 0 0 rs 0 ltac:(lia) Hd ltac:(lia) ltac:(lia) Hs ltac:(lia)) as F.
  cbv zeta in F. rewrite Z.mul_0_r, Z.add_0_r in F. destruct F as (U & F1 & F2 & F3 & F4 & F5 & F6 & _).
  rewrite exec_op_reg by done. rewrite F2, F3, F4, F5, F6. unfold op_reg. simpl. rewrite (ok_zero s H), Z.add_0_l.
  rewrite u64_id by (apply reg_u; done). done.
Qed.

(** Another spelling, the same effect. *)
Lemma exec32_canon w s : is_u 32 w -> rv_ok s -> (op_of w = 0x1b -> xlen s = 64) -> exec (canon w) s = exec w s.
Proof.
  intros Hw H H64. destruct (regs_range w Hw) as (R1 & R2 & R3). destruct (immi_field w Hw) as (I & RI & _).
  destruct (word_decoded w Hw) as [_ DI _ _ _ _ _ DF]. unfold canon.
  destruct (_ && _) eqn:B1; [|clear B1; destruct (_ && _) eqn:B2; [|clear B2; destruct (_ && _) eqn:B3; [|done]]]; facts.
  - rewrite exec_move by done. rewrite exec_op_imm by done. replace (f3_of w) with 0 by done. unfold op_imm. simpl.
    assert (Ez : immi_of w = 0).
    { assert (M : immi_of w mod 4096 = 0) by lia. apply Z.mod_divide in M as (k & M); lia. }
    rewrite Ez.
    by rewrite Z.add_0_r, u64_id by (by apply reg_u).
  - rewrite exec_move by done. rewrite exec_op_reg by done. replace (f3_of w) with 0 by done.
    replace (f7_of w) with 0 by lia. replace (rs2_of w) with 0 by lia. unfold op_reg. simpl.
    by rewrite (ok_zero s H), Z.add_0_r, u64_id by (by apply reg_u).
  - pose proof (iword_fields 0x13 (rd_of w) 0 0 (rs2_of w) (f7_of w) ltac:(lia) R1 ltac:(lia) ltac:(lia) R3 DF) as F.
    cbv zeta in F. rewrite <- DI in F. set (v := iword 0x13 (rd_of w) 0 0 (imm12_of w)) in *.
    destruct F as (U & F1 & F2 & F3 & F4 & _ & _ & F7). rewrite exec_op_imm, exec_op_imm32 by done.
    rewrite F2, F3, F4. replace (rs1_of w) with 0 by done. replace (f3_of w) with 0 by done.
    unfold op_imm, op_w. cbv zeta. rewrite (H64 ltac:(done)), immi_shift by done. simpl. rewrite (ok_zero s H), Z.add_0_l.
    replace (immi_of v) with (immi_of w) by (unfold immi_of; change (Z.land (Z.shiftr v 20) 0xfff) with (imm12_of v); by rewrite F7).
    f_equal. unfold sext32. f_equal. rewrite <- (s32_id (immi_of w)) at 1 by lia. apply swrap_proper.
    symmetry. apply (eqw_weaken 64); [lia | apply eqw_uwrap; lia].
Qed.

End Exec.

(** A 64-bit core on the board of [Bus], with no system or floating-point instructions. *)
Definition demo_core : rv_state unit unit :=
  RvState 64 (fun r => if r =? 8 then 0x20000010 else if r =? 9 then 7 else 0) 0x20000000 0x20000004
    false 0 0 false 0 0 0 false false demo_bus ().
Definition no_sys (i rd f3 : Z) (s : rv_state unit unit) : rv_state unit unit := rv_illegal s.
Definition no_fp (i : Z) (s : rv_state unit unit) : rv_state unit unit * bool := (s, false).

Lemma demo_core_ok : rv_ok demo_core.
Proof.
  constructor; [by right | done | | simpl; lia |].
  - intros r. cbn [x demo_core xlen]. destruct (r =? 8), (r =? 9); lia.
  - intros k i. by vm_compute.
Qed.

(** A store, an addition and a jump. *)
Lemma exec32_keeps_form_witness :
  rv_ok (foldl (fun s i => exec32 no_sys no_fp i s) demo_core [0x00942223; 0x00940433; 0x0000006f]).
Proof.
  apply exec32_keeps_form; [intros i rd f3 s; apply rv_illegal_ok | by intros i s H | apply demo_core_ok].
Defined.

