(* ===== verification/RvEmit.v ===== *)
(** * The RISC-V emitter: [src/src/arch/riscv/emit.c]

    Instructions become bytes in a code buffer through [rv_w], compressed when the
    switch is on. The buffer, the switch and the extensions are the state; an
    [internal_error] ends the compilation ([None]). Constants are built by [rv_li];
    branches, jumps and address pairs are emitted with a zero displacement and
    patched in place. *)
From stdpp Require Import base numbers list option.
From Stdlib Require Import ZArith Lia.
From S2P Require Import Prelude RvEncode.

Local Open Scope Z_scope.

(** ** The emitter's state *)

Record emitter := Emitter { code : list Z; g_rvc : bool; g_rvc_xlen : Z; rv_ext : Z }.
Definition set_code (c : emitter) (l : list Z) : emitter := Emitter l (g_rvc c) (g_rvc_xlen c) (rv_ext c).
Definition rv_set_compress (on : bool) (xlen : Z) (c : emitter) : emitter := Emitter (code c) on xlen (rv_ext c).
(** The hook's answer, the extensions of [-march], is the state's [rv_ext]. *)
Definition rv_set_ext_source (ext : Z) (c : emitter) : emitter := Emitter (code c) (g_rvc c) (g_rvc_xlen c) ext.
Definition rv_compress_enabled (c : emitter) : bool := g_rvc c.
Definition clen (c : emitter) : Z := Z.of_nat (length (code c)).

Definition M (A : Type) : Type := emitter -> option (A * emitter).
Global Instance M_ret : MRet M := fun _ a c => Some (a, c).
Global Instance M_bind : MBind M := fun _ _ f m c => match m c with Some (a, c) => f a c | None => None end.
Definition error {A} : M A := fun _ => None.
Definition lift {A} (o : option A) : M A := fun c => match o with Some a => Some (a, c) | None => None end.
Definition here : M Z := fun c => Some (clen c, c).
(** A region of the code that is not compressed. *)
Definition uncompressed {A} (m : M A) : M A := fun c =>
  match m (rv_set_compress false (g_rvc_xlen c) c) with
  | Some (a, c') => Some (a, rv_set_compress (g_rvc c) (g_rvc_xlen c') c')
  | None => None
  end.

(** [src/src/arch/code.c]. *)
Definition code_byte (b : Z) : M unit := fun c => Some ((), set_code c (code c ++ [Z.land b 0xff])).
Definition code_u16 (v : Z) : M unit := _ ← code_byte (Z.land v 0xff); code_byte (Z.land (Z.shiftr v 8) 0xff).
Definition code_u32 (v : Z) : M unit :=
  _ ← code_byte (Z.land v 0xff); _ ← code_byte (Z.land (Z.shiftr v 8) 0xff);
  _ ← code_byte (Z.land (Z.shiftr v 16) 0xff); code_byte (Z.land (Z.shiftr v 24) 0xff).

(** The bytes at an offset; outside the buffer the source's behaviour is undefined. *)
Definition code_at (off : Z) : M Z := fun c =>
  if off <? 0 then None else b ← code c !! Z.to_nat off; Some (b, c).
Definition code_set (off v : Z) : M unit := fun c =>
  if (off <? 0) || (clen c <=? off) then None
  else Some ((), set_code c (<[Z.to_nat off := Z.land v 0xff]> (code c))).
Definition code_word (off : Z) : M Z :=
  b0 ← code_at off; b1 ← code_at (off + 1); b2 ← code_at (off + 2); b3 ← code_at (off + 3);
  mret (Z.lor (Z.lor (Z.lor b0 (Z.shiftl b1 8)) (Z.shiftl b2 16)) (Z.shiftl b3 24)).
Definition code_patch32 (off v : Z) : M unit :=
  _ ← code_set off (Z.land v 0xff); _ ← code_set (off + 1) (Z.land (Z.shiftr v 8) 0xff);
  _ ← code_set (off + 2) (Z.land (Z.shiftr v 16) 0xff); code_set (off + 3) (Z.land (Z.shiftr v 24) 0xff).

(** The one place an instruction becomes bytes. *)
Definition rv_w (w : Z) : M unit := fun c =>
  let s := if g_rvc c then rv_compress (rv_ext c) w (g_rvc_xlen c) else 0 in
  if negb (s =? 0) then code_u16 s c else code_u32 w c.
Definition rv_wo (o : option Z) : M unit := w ← lift o; rv_w w.

Definition rv_cunimp : M unit := code_u16 0x0000.
Definition rv_czero (nez : bool) (rd rs1 rs2 : Z) : M unit := rv_wo (rv_enc_r 0x33 rd (if nez then 7 else 5) rs1 rs2 0x07).
Definition rv_mv (rd rs : Z) : M unit := rv_wo (rv_enc_i OP_IMM rd 0 rs 0).
Definition rv_lui (rd hi20 : Z) : M unit := rv_wo (rv_enc_u OP_LUI rd hi20).
Definition rv_auipc (rd hi20 : Z) : M unit := rv_wo (rv_enc_u OP_AUIPC rd hi20).

(** ** Constants *)

Definition hi20_of (v : Z) : Z := Z.land (Z.shiftr (v + 0x800) 12) 0xfffff.
Definition lo12_of (v : Z) : Z := Z.lxor (Z.land v 0xfff) 0x800 - 0x800.

Definition when (b : bool) (m : M unit) : M unit := if b then m else mret ().

(** [li_emit], with the recursion it makes: at most three peel a 64-bit value to 32
    bits. The result is the number of bytes at four to an instruction. *)
Fixpoint li_emit (fuel : nat) (rd v xlen : Z) (emit : bool) : M Z :=
  match fuel with
  | O => error
  | S fuel =>
      if rv_fits v 12 then
        _ ← when emit (rv_wo (rv_enc_i OP_IMM rd 0 0 v)); mret 4
      else if rv_fits v 32 then
        let lo := lo12_of v in
        _ ← when emit (rv_wo (rv_enc_u OP_LUI rd (hi20_of v)));
        if negb (lo =? 0) then
          let narrow := (xlen =? 64) && negb (Z.land (hi20_of v) 0x80000 =? 0) in
          _ ← when emit (rv_wo (rv_enc_i (if narrow then OP_IMM32 else OP_IMM) rd 0 rd lo)); mret 8
        else mret 4
      else
        let lo := lo12_of v in
        let hi := Z.shiftr (s64 (v - lo)) 12 in
        n ← li_emit fuel rd hi xlen emit;
        _ ← when emit (rv_wo (rv_enc_r OP_IMM rd 1 rd 12 0));
        let n := n + 4 in
        if negb (lo =? 0) then _ ← when emit (rv_wo (rv_enc_i OP_IMM rd 0 rd lo)); mret (n + 4)
        else mret n
  end.
Definition LI_FUEL := 4%nat.

Definition narrow32 (v : Z) : Z :=
  let u := u32 v in if negb (Z.land u 0x80000000 =? 0) then u - 0x100000000 else u.

Definition rv_li (rd v xlen : Z) : M unit :=
  if xlen =? 32 then
    if (v <? -2147483648) || (4294967295 <? v) then error
    else _ ← li_emit LI_FUEL rd (narrow32 v) xlen true; mret ()
  else _ ← li_emit LI_FUEL rd v xlen true; mret ().

(** Nothing is written: the length does not depend on the buffer. *)
Definition rv_li_len (v xlen : Z) : option Z :=
  let v := if xlen =? 32 then narrow32 v else v in
  fst <$> li_emit LI_FUEL 0 v xlen false (Emitter [] false xlen 0).

(** ** Arithmetic and logic *)

Inductive rv_alu_op := RV_ADD | RV_SUB | RV_SLL | RV_SLT | RV_SLTU | RV_XOR | RV_SRL | RV_SRA | RV_OR | RV_AND.
Definition alu_enc (op : rv_alu_op) : Z * bool :=
  match op with
  | RV_ADD => (0, false) | RV_SUB => (0, true) | RV_SLL => (1, false) | RV_SLT => (2, false) | RV_SLTU => (3, false)
  | RV_XOR => (4, false) | RV_SRL => (5, false) | RV_SRA => (5, true) | RV_OR => (6, false) | RV_AND => (7, false)
  end.
Definition has_word_form (op : rv_alu_op) : bool :=
  match op with RV_ADD | RV_SUB | RV_SLL | RV_SRL | RV_SRA => true | _ => false end.

Definition rv_alu (op : rv_alu_op) (rd rs1 rs2 : Z) (w : bool) : M unit :=
  if w && negb (has_word_form op) then error
  else rv_wo (rv_enc_r (if w then OP_OP32 else OP_OP) rd (alu_enc op).1 rs1 rs2 (if (alu_enc op).2 then 0x20 else 0)).

Definition rv_alu_imm (op : rv_alu_op) (rd rs1 imm : Z) (w : bool) : M unit :=
  match op with
  | RV_SUB | RV_SLL | RV_SRL | RV_SRA => error
  | _ => if w && negb (has_word_form op) then error
         else rv_wo (rv_enc_i (if w then OP_IMM32 else OP_IMM) rd (alu_enc op).1 rs1 imm)
  end.

Definition rv_shift_imm (op : rv_alu_op) (rd rs1 amt : Z) (w : bool) (xlen : Z) : M unit :=
  match op with
  | RV_SLL | RV_SRL | RV_SRA =>
      if w && negb (xlen =? 64) then error
      else
        let bits := if (xlen =? 64) && negb w then 6 else 5 in
        if (amt <? 0) || (Z.shiftl 1 bits <=? amt) then error
        else rv_wo (rv_enc_r (if w then OP_IMM32 else OP_IMM) rd (alu_enc op).1 rs1 (Z.land amt 0x1f)
                     (Z.lor (if (alu_enc op).2 then 0x20 else 0) (Z.land (Z.shiftr amt 5) 1)))
  | _ => error
  end.

Inductive rv_muldiv_op := RV_MUL | RV_MULH | RV_MULHSU | RV_MULHU | RV_DIV | RV_DIVU | RV_REM | RV_REMU.
Definition muldiv_f3 (op : rv_muldiv_op) : Z :=
  match op with
  | RV_MUL => 0 | RV_MULH => 1 | RV_MULHSU => 2 | RV_MULHU => 3 | RV_DIV => 4 | RV_DIVU => 5 | RV_REM => 6 | RV_REMU => 7
  end.
Definition is_mulh (op : rv_muldiv_op) : bool := match op with RV_MULH | RV_MULHSU | RV_MULHU => true | _ => false end.
Definition rv_muldiv (op : rv_muldiv_op) (rd rs1 rs2 : Z) (w : bool) : M unit :=
  if w && is_mulh op then error
  else rv_wo (rv_enc_r (if w then OP_OP32 else OP_OP) rd (muldiv_f3 op) rs1 rs2 1).

Definition rv_fence (pred succ : Z) : M unit :=
  if (15 <? pred) || (15 <? succ) then error
  else rv_w (Z.lor (Z.lor 0x0f (Z.shiftl pred 24)) (Z.shiftl succ 20)).
(** [op] is the funct5; LR is 2. *)
Definition rv_amo (op rd rs1 rs2 ord : Z) (w : bool) : M unit :=
  if (ord <? 0) || (3 <? ord) then error
  else if (op =? 2) && negb (rs2 =? 0) then error
  else rv_wo (rv_enc_r 0x2f rd (if w then 3 else 2) rs1 rs2 (Z.lor (Z.shiftl op 2) ord)).

(** ** Memory *)

Definition rv_load (rd rs1 off size : Z) (sign : bool) (xlen : Z) : M unit :=
  f3 ← lift (match size with
             | 1 => Some (if sign then 0 else 4)
             | 2 => Some (if sign then 1 else 5)
             | 4 => Some (if sign || (xlen =? 32) then 2 else 6)
             | 8 => if negb (xlen =? 64) then None else Some 3
             | _ => None end);
  rv_wo (rv_enc_i OP_LOAD rd f3 rs1 off).
Definition rv_store (rs2 rs1 off size xlen : Z) : M unit :=
  f3 ← lift (match size with
             | 1 => Some 0 | 2 => Some 1 | 4 => Some 2
             | 8 => if negb (xlen =? 64) then None else Some 3
             | _ => None end);
  rv_wo (rv_enc_s OP_STORE f3 rs1 rs2 off).

(** ** Control flow *)

Definition rv_b_placeholder (cond rs1 rs2 : Z) : M Z :=
  uncompressed (at_ ← here; _ ← rv_wo (rv_enc_b OP_BRANCH cond rs1 rs2 0); mret at_).
Definition rv_patch_b (at_ target : Z) : M unit :=
  w ← code_word at_;
  let w := Z.land w (u64 (Z.lnot 0xfe000f80)) in
  d ← lift (rv_enc_b 0 0 0 0 (target - at_));
  code_patch32 at_ (Z.lor w d).
Definition rv_j_placeholder (rd : Z) : M Z :=
  uncompressed (at_ ← here; _ ← rv_wo (rv_enc_j OP_JAL rd 0); mret at_).
Definition rv_patch_j (at_ target : Z) : M unit :=
  w ← code_word at_;
  let w := Z.land w (u64 (Z.lnot 0xfffff000)) in
  d ← lift (rv_enc_j 0 0 (target - at_));
  code_patch32 at_ (Z.lor w d).

Definition rv_c_placeholder : M Z := at_ ← here; _ ← code_u16 0x0001; mret at_.
Definition B_ (o n : Z) : Z := Z.land (Z.shiftr o n) 1.
Definition cj_word (o : Z) : Z :=
  Z.lor 0xa001
    (Z.lor (Z.lor (Z.lor (Z.lor (Z.lor (Z.lor (Z.lor (Z.shiftl (B_ o 11) 12) (Z.shiftl (B_ o 4) 11))
      (Z.shiftl (Z.land (Z.shiftr o 8) 3) 9)) (Z.shiftl (B_ o 10) 8)) (Z.shiftl (B_ o 6) 7)) (Z.shiftl (B_ o 7) 6))
      (Z.shiftl (Z.land (Z.shiftr o 1) 7) 3)) (Z.shiftl (B_ o 5) 2)).
Definition code_patch16 (at_ h : Z) : M unit := _ ← code_set at_ (Z.land h 0xff); code_set (at_ + 1) (Z.shiftr h 8).
Definition rv_patch_cj (at_ target : Z) : M bool :=
  let off := target - at_ in
  if (off <? -2048) || (2046 <? off) || negb (Z.land off 1 =? 0) then mret false
  else _ ← code_patch16 at_ (cj_word (Z.land (u32 off) 0xfff)); mret true.
Definition cb_word (ne : bool) (rs1 o : Z) : Z :=
  Z.lor (Z.lor (Z.shiftl (if ne then 7 else 6) 13) 1)
    (Z.lor (Z.lor (Z.lor (Z.lor (Z.lor (Z.shiftl (B_ o 8) 12) (Z.shiftl (Z.land (Z.shiftr o 3) 3) 10))
      (Z.shiftl (rs1 - 8) 7)) (Z.shiftl (Z.land (Z.shiftr o 6) 3) 5)) (Z.shiftl (Z.land (Z.shiftr o 1) 3) 3))
      (Z.shiftl (B_ o 5) 2)).
Definition rv_patch_cb (at_ : Z) (ne : bool) (rs1 target : Z) : M bool :=
  let off := target - at_ in
  if (off <? -256) || (254 <? off) || negb (Z.land off 1 =? 0) || (rs1 <? 8) || (15 <? rs1) then mret false
  else _ ← code_patch16 at_ (cb_word ne rs1 (Z.land (u32 off) 0x1ff)); mret true.
Definition rv_patch_b_checked (at_ target : Z) : M bool :=
  let off := target - at_ in
  if (off <? -4096) || (4094 <? off) || negb (Z.land off 1 =? 0) then mret false
  else _ ← rv_patch_b at_ target; mret true.

Definition rv_jalr (rd rs1 off : Z) : M unit := rv_wo (rv_enc_i OP_JALR rd 0 rs1 off).
Definition rv_ret : M unit := rv_jalr 0 1 0.
Definition rv_xret (supervisor : bool) : M unit := rv_wo (rv_enc_i OP_SYSTEM 0 0 0 (if supervisor then 0x102 else 0x302)).

Definition rv_got_pair (rd xlen : Z) : M Z :=
  uncompressed (at_ ← here; _ ← rv_auipc rd 0; _ ← rv_load rd rd 0 (xlen / 8) false xlen; mret at_).
Definition rv_pcrel_pair (rd : Z) : M Z :=
  uncompressed (at_ ← here; _ ← rv_auipc rd 0; _ ← rv_alu_imm RV_ADD rd rd 0 false; mret at_).
Definition rv_patch_pcrel_pair (at_ target : Z) : M unit :=
  let d := target - at_ in
  w ← code_word at_;
  u ← lift (rv_enc_u 0 0 (hi20_of d));
  _ ← code_patch32 at_ (Z.lor (Z.land w 0xfff) u);
  w ← code_word (at_ + 4);
  u ← lift (rv_enc_i 0 0 0 0 (lo12_of d));
  code_patch32 (at_ + 4) (Z.lor (Z.land w 0xfffff) u).
Definition rv_call_placeholder : M Z :=
  uncompressed (at_ ← here; _ ← rv_wo (rv_enc_u OP_AUIPC 1 0); _ ← rv_wo (rv_enc_i OP_JALR 1 0 1 0); mret at_).
Definition rv_tail_placeholder : M Z :=
  uncompressed (at_ ← here; _ ← rv_wo (rv_enc_u OP_AUIPC 6 0); _ ← rv_wo (rv_enc_i OP_JALR 0 0 6 0); mret at_).
Definition rv_far_placeholder (rd : Z) : M Z :=
  uncompressed (at_ ← here; _ ← rv_wo (rv_enc_u OP_AUIPC rd 0); _ ← rv_wo (rv_enc_i OP_JALR 0 0 rd 0); mret at_).

Definition enc_csr (f3 rd rs1 csr : Z) : option Z :=
  if 0xfff <? csr then None
  else Some (Z.lor (Z.lor (Z.lor (Z.lor OP_SYSTEM (Z.shiftl rd 7)) (Z.shiftl f3 12)) (Z.shiftl rs1 15)) (Z.shiftl csr 20)).
Definition rv_unimp : M unit := rv_wo (enc_csr 1 0 0 0xc00).
Definition rv_ebreak : M unit := rv_wo (enc_csr 0 0 0 1).

(** ** The F and D extensions *)

Definition OP_LOAD_FP := 0x07.
Definition OP_STORE_FP := 0x27.
Definition OP_FP := 0x53.
Definition RM_RNE := 0.
Definition RM_RTZ := 1.
Definition RM_DYN := 7.
(** Single, double, or Zfh's half. *)
Definition fmt_of (dbl : Z) : Z := if dbl =? 2 then 2 else if negb (dbl =? 0) then 1 else 0.

Definition fp_r (f5 dbl rm rd rs1 rs2 : Z) : M unit := rv_wo (rv_enc_r OP_FP rd rm rs1 rs2 (Z.lor (Z.shiftl f5 2) (fmt_of dbl))).
Definition rv_fp_r (f5 dbl rm rd rs1 rs2 : Z) : M unit := fp_r f5 dbl rm rd rs1 rs2.
Definition rv_fp_r4 (op dbl rm rd rs1 rs2 rs3 : Z) : M unit :=
  rv_w (Z.lor (Z.lor (Z.lor (Z.lor (Z.lor (Z.lor op (Z.shiftl rd 7)) (Z.shiftl rm 12)) (Z.shiftl rs1 15)) (Z.shiftl rs2 20))
    (Z.shiftl (fmt_of dbl) 25)) (Z.shiftl rs3 27)).
Definition rv_fload (frd rs1 off dbl : Z) : M unit := rv_wo (rv_enc_i OP_LOAD_FP frd (if negb (dbl =? 0) then 3 else 2) rs1 off).
Definition rv_fstore (frs2 rs1 off dbl : Z) : M unit := rv_wo (rv_enc_s OP_STORE_FP (if negb (dbl =? 0) then 3 else 2) rs1 frs2 off).
Definition rv_farith (op frd frs1 frs2 dbl : Z) : M unit :=
  if (op <? 0) || (3 <? op) then error else fp_r op dbl RM_DYN frd frs1 frs2.
Definition rv_fsqrt (frd frs1 dbl : Z) : M unit := fp_r 0x0b dbl RM_DYN frd frs1 0.
Definition rv_fsgnj (kind frd frs1 frs2 dbl : Z) : M unit :=
  if (kind <? 0) || (2 <? kind) then error else fp_r 0x04 dbl kind frd frs1 frs2.
Definition rv_fmv (frd frs dbl : Z) : M unit := rv_fsgnj 0 frd frs frs dbl.
Definition rv_fcmp (kind rd frs1 frs2 dbl : Z) : M unit :=
  if (kind <? 0) || (2 <? kind) then error else fp_r 0x14 dbl kind rd frs1 frs2.
Definition rv_fcvt_to_int (rd frs1 ity dbl : Z) : M unit :=
  if (ity <? 0) || (3 <? ity) then error else fp_r 0x18 dbl RM_RTZ rd frs1 ity.
Definition rv_fcvt_from_int (frd rs1 ity dbl : Z) : M unit :=
  if (ity <? 0) || (3 <? ity) then error
  else fp_r 0x1a dbl (if negb (dbl =? 0) && (ity <=? 1) then RM_RNE else RM_DYN) frd rs1 ity.
Definition rv_fcvt_fp (frd frs1 : Z) (to_dbl : bool) : M unit :=
  if to_dbl then fp_r 0x08 1 RM_RNE frd frs1 0 else fp_r 0x08 0 RM_DYN frd frs1 1.
Definition rv_fmv_to_x (rd frs1 dbl : Z) : M unit := fp_r 0x1c dbl 0 rd frs1 0.
Definition rv_fmv_from_x (frd rs1 dbl : Z) : M unit := fp_r 0x1e dbl 0 frd rs1 0.

(** ** Zba, Zbb, Zbs *)

Inductive rv_zb_r_op := RV_ZB_ANDN | RV_ZB_ORN | RV_ZB_XNOR | RV_ZB_MIN | RV_ZB_MINU | RV_ZB_MAX | RV_ZB_MAXU | RV_ZB_SH1ADD
  | RV_ZB_SH2ADD | RV_ZB_SH3ADD | RV_ZB_ADDUW | RV_ZB_SH1ADDUW | RV_ZB_SH2ADDUW | RV_ZB_SH3ADDUW | RV_ZB_BCLR | RV_ZB_BEXT
  | RV_ZB_BINV | RV_ZB_BSET | RV_ZB_ROL | RV_ZB_ROR | RV_ZB_ROLW | RV_ZB_RORW.
(** Major opcode, funct3, funct7. *)
Definition zb_tab (which : rv_zb_r_op) : Z * Z * Z :=
  match which with
  | RV_ZB_ANDN => (0x33, 7, 0x20) | RV_ZB_ORN => (0x33, 6, 0x20) | RV_ZB_XNOR => (0x33, 4, 0x20)
  | RV_ZB_MIN => (0x33, 4, 0x05) | RV_ZB_MINU => (0x33, 5, 0x05) | RV_ZB_MAX => (0x33, 6, 0x05) | RV_ZB_MAXU => (0x33, 7, 0x05)
  | RV_ZB_SH1ADD => (0x33, 2, 0x10) | RV_ZB_SH2ADD => (0x33, 4, 0x10) | RV_ZB_SH3ADD => (0x33, 6, 0x10)
  | RV_ZB_ADDUW => (0x3b, 0, 0x04)
  | RV_ZB_SH1ADDUW => (0x3b, 2, 0x10) | RV_ZB_SH2ADDUW => (0x3b, 4, 0x10) | RV_ZB_SH3ADDUW => (0x3b, 6, 0x10)
  | RV_ZB_BCLR => (0x33, 1, 0x24) | RV_ZB_BEXT => (0x33, 5, 0x24) | RV_ZB_BINV => (0x33, 1, 0x34) | RV_ZB_BSET => (0x33, 1, 0x14)
  | RV_ZB_ROL => (0x33, 1, 0x30) | RV_ZB_ROR => (0x33, 5, 0x30) | RV_ZB_ROLW => (0x3b, 1, 0x30) | RV_ZB_RORW => (0x3b, 5, 0x30)
  end.
Definition rv_zb_r (which : rv_zb_r_op) (rd rs1 rs2 : Z) : M unit :=
  let '(op, f3, f7) := zb_tab which in rv_wo (rv_enc_r op rd f3 rs1 rs2 f7).

Inductive rv_zb_unary_op := RV_ZB_CLZ | RV_ZB_CTZ | RV_ZB_CPOP | RV_ZB_SEXTB | RV_ZB_SEXTH | RV_ZB_REV8 | RV_ZB_ORCB | RV_ZB_ZEXTH.
Definition rv_zb_unary (which : rv_zb_unary_op) (rd rs : Z) (w32 : bool) (xlen : Z) : M unit :=
  let fixed imm := rv_wo (rv_enc_i (if w32 && (xlen =? 64) then 0x1b else 0x13) rd 1 rs imm) in
  match which with
  | RV_ZB_REV8 => rv_wo (rv_enc_i 0x13 rd 5 rs (if xlen =? 64 then 0x6b8 else 0x698))
  | RV_ZB_ORCB => rv_wo (rv_enc_i 0x13 rd 5 rs 0x287)
  | RV_ZB_ZEXTH => rv_wo (rv_enc_r (if xlen =? 64 then 0x3b else 0x33) rd 4 rs 0 0x04)
  | RV_ZB_CLZ => fixed 0x600 | RV_ZB_CTZ => fixed 0x601 | RV_ZB_CPOP => fixed 0x602
  | RV_ZB_SEXTB => fixed 0x604 | RV_ZB_SEXTH => fixed 0x605
  end.

Inductive rv_zb_imm_op := RV_ZB_BCLRI | RV_ZB_BSETI | RV_ZB_BINVI | RV_ZB_BEXTI | RV_ZB_RORI | RV_ZB_SLLIUW.
Definition rv_zb_imm (which : rv_zb_imm_op) (rd rs amt : Z) (w32 : bool) : M unit :=
  let '(op, f3, f6) := match which with
    | RV_ZB_BCLRI => (0x13, 1, 0x12) | RV_ZB_BSETI => (0x13, 1, 0x0a) | RV_ZB_BINVI => (0x13, 1, 0x1a)
    | RV_ZB_BEXTI => (0x13, 5, 0x12) | RV_ZB_RORI => (if w32 then 0x1b else 0x13, 5, 0x18)
    | RV_ZB_SLLIUW => (0x1b, 1, 0x02) end in
  rv_wo (rv_enc_i op rd f3 rs (Z.lor (Z.shiftl f6 6) (Z.land amt 63))).
