(* ===== verification/RvCode.v ===== *)
(** * Emitted code, executed

    The emitter ([RvEmit]) and the simulated core ([RvSim]) put together: the bytes
    the compiler writes, fetched parcel by parcel as the core's [step] does,
    compressed or not. *)
From stdpp Require Import base numbers list option.
From Stdlib Require Import ZArith Lia.
From S2P Require Import Prelude Bus RvEncode RvExpand RvLayouts RvCompress RvSim RvExec RvEmit.

Local Open Scope Z_scope.

(** ** The encoders, as sums of fields *)

Lemma need_reg_some r : need_reg r = Some () <-> 0 <= r < 32.
Proof. unfold need_reg. destruct (Z.ltb_spec r 0), (Z.ltb_spec 31 r); simpl; split; done || lia. Qed.
Lemma rv_fits_spec v bits : 1 <= bits -> rv_fits v bits = true <-> is_s bits v.
Proof.
  intros Hb. unfold rv_fits, is_s. rewrite Z.shiftl_mul_pow2, Z.mul_1_l by lia. rewrite andb_true_iff, !Z.leb_le. lia.
Qed.

Lemma fields_sum op rd f3 rs1 imm : 0 <= op < 128 -> 0 <= rd < 32 -> 0 <= f3 < 8 -> 0 <= rs1 < 32 -> 0 <= imm ->
  Z.lor (Z.lor (Z.lor (Z.lor op (Z.shiftl rd 7)) (Z.shiftl f3 12)) (Z.shiftl rs1 15)) (Z.shiftl imm 20)
  = iword op rd f3 rs1 imm.
Proof.
  intros. unfold iword. rewrite (cat_byte op rd 7), (cat_byte _ f3 12), (cat_byte _ rs1 15), (cat_byte _ imm 20) by lia. lia.
Qed.

Lemma enc_r_word op rd f3 rs1 rs2 f7 : 0 <= op < 128 -> 0 <= rd < 32 -> 0 <= f3 < 8 -> 0 <= rs1 < 32 ->
  0 <= rs2 < 32 -> 0 <= f7 < 128 -> rv_enc_r op rd f3 rs1 rs2 f7 = Some (iword op rd f3 rs1 (rs2 + 2 ^ 5 * f7)).
Proof.
  intros. unfold rv_enc_r. rewrite !(proj2 (need_reg_some _)) by done. simpl. f_equal.
  rewrite fields_sum, cat_byte by (done || (unfold iword; lia)). unfold iword. lia.
Qed.

Lemma enc_i_word op rd f3 rs1 imm : 0 <= op < 128 -> 0 <= rd < 32 -> 0 <= f3 < 8 -> 0 <= rs1 < 32 -> is_s 12 imm ->
  rv_enc_i op rd f3 rs1 imm = Some (iword op rd f3 rs1 (imm mod 4096)).
Proof.
  intros H1 H2 H3 H4 Hi. unfold rv_enc_i. rewrite !(proj2 (need_reg_some _)) by done. unfold need.
  rewrite (proj2 (rv_fits_spec imm 12 ltac:(lia)) Hi). simpl. f_equal.
  assert (E : Z.land (u64 imm) 4095 = imm mod 4096).
  { change 4095 with (2 ^ 12 - 1). rewrite land_ones_mod by lia. unfold uwrap.
    rewrite Z.mod_mod_divide; [done|]. by exists (2 ^ 52). }
  rewrite E. pose proof (Z.mod_pos_bound imm 4096 ltac:(lia)). apply fields_sum; done || lia.
Qed.

Lemma enc_u_word op rd hi : 0 <= op < 128 -> 0 <= rd < 32 -> 0 <= hi < 2 ^ 20 ->
  rv_enc_u op rd hi = Some (op + 2 ^ 7 * rd + 2 ^ 12 * hi).
Proof.
  intros H1 H2 H3. unfold rv_enc_u. rewrite (proj2 (need_reg_some _)) by done. simpl. f_equal.
  rewrite u64_id by lia. change 1048575 with (2 ^ 20 - 1). rewrite land_ones_mod, Z.mod_small by lia.
  rewrite (cat_byte op rd 7), (cat_byte _ hi 12) by lia. lia.
Qed.

(** ** Execution of bytes *)

Section Code.
Context {W C : Type}.
Implicit Types s : rv_state W C.
Context (sys_insn : Z -> Z -> Z -> rv_state W C -> rv_state W C).
Context (rv_fp_exec : Z -> rv_state W C -> rv_state W C * bool).
Local Abbreviation exec := (exec32 sys_insn rv_fp_exec).

Definition begin_insn (word size : Z) s : rv_state W C :=
  RvState (xlen s) (x s) (pc s) (rv_xl s (u64 (pc s + size))) (resv s) (resv_addr s) (resv_val s)
    false (cause s) (tval s) word false (esp s) (mem s) (csrs s).
Definition set_pc s (t : Z) : rv_state W C :=
  RvState (xlen s) (x s) t (npc s) (resv s) (resv_addr s) (resv_val s)
    (trap s) (cause s) (tval s) (insn s) (changed s) (esp s) (mem s) (csrs s).

(** The instruction of [step]: its bits and its size. *)
Definition step_exec (word size : Z) s : rv_state W C :=
  let s := begin_insn word size s in
  if size =? 4 then exec word s
  else let w := rvc_expand word (xlen s) in
       if negb (w =? 0) then exec w s else rv_illegal s.

Definition fetch16 (b : bus W) (a : Z) : bus W * option Z :=
  match bus_region b a 2 with
  | Some r => let p := store b (r_mem r) in let i := u32 (a - r_base r) in
              (b, Some (Z.lor (p i) (Z.shiftl (p (i + 1)) 8)))
  | None => bus_read b a 2
  end.

(** [step] from the fetch to the next program counter: what the interrupts before it
    and the counts, the trace and the trap entry after it add is not modelled. *)
Inductive stepped := Next (s : rv_state W C) | Trapped (s : rv_state W C) | NoFetch (s : rv_state W C).
Definition finish s : stepped := if trap s then Trapped s else Next (set_pc s (npc s)).
Definition step s : stepped :=
  if negb (Z.shiftr (pc s) 32 =? 0) then NoFetch s
  else match fetch16 (mem s) (pc s) with
       | (m, None) => NoFetch (set_mem s m)
       | (m, Some h0) =>
           let s := set_mem s m in
           if Z.land h0 3 =? 3 then
             match fetch16 (mem s) (u32 (pc s + 2)) with
             | (m, None) => NoFetch (set_mem s m)
             | (m, Some h1) => finish (step_exec (Z.lor h0 (u32 (Z.shiftl h1 16))) 4 (set_mem s m))
             end
           else finish (step_exec h0 2 s)
       end.
Fixpoint steps (n : nat) s : stepped :=
  match n with
  | O => Next s
  | S n => match step s with Next s => steps n s | r => r end
  end.

(** The bytes at an address, as the core fetches them. *)
Definition code_in s (a : Z) (l : list Z) : Prop :=
  forall i b0 b1, l !! i = Some b0 -> l !! S i = Some b1 ->
    fetch16 (mem s) (a + Z.of_nat i) = (mem s, Some (b0 + 256 * b1)).

(** What an instruction sequence that ends in its last byte leaves: one register
    written, everything else but the program counter as it was. *)
Record wrote (rd v : Z) (n : nat) s s' : Prop := {
  wr_xlen : xlen s' = xlen s;
  wr_mem : mem s' = mem s;
  wr_csrs : csrs s' = csrs s;
  wr_esp : esp s' = esp s;
  wr_resv : resv s' = resv s /\ resv_addr s' = resv_addr s /\ resv_val s' = resv_val s;
  wr_pc : pc s' = pc s + Z.of_nat n;
  wr_reg : x s' rd = rv_xl s v;
  wr_other r : r <> rd -> x s' r = x s r }.

Definition runs_to (l : list Z) (rd v : Z) s : Prop :=
  exists n s', steps n s = Next s' /\ rv_ok s' /\ wrote rd v (length l) s s'.

(** ** One instruction *)

Definition bytes2 (h : Z) : list Z := [Z.land h 0xff; Z.land (Z.shiftr h 8) 0xff].
Definition bytes4 (w : Z) : list Z := bytes2 w ++ bytes2 (Z.shiftr w 16).
Definition short_form (c : emitter) (w : Z) : Z := if g_rvc c then rv_compress (rv_ext c) w (g_rvc_xlen c) else 0.
Definition parcel (c : emitter) (w : Z) : list Z :=
  if negb (short_form c w =? 0) then bytes2 (short_form c w) else bytes4 w.

Lemma land_ff_twice v : Z.land (Z.land v 0xff) 0xff = Z.land v 0xff.
Proof. by rewrite <- Z.land_assoc. Qed.

Lemma rv_w_emits w c : rv_w w c = Some ((), set_code c (code c ++ parcel c w)).
Proof.
  unfold rv_w, parcel, short_form. set (h := if g_rvc c then _ else 0). destruct (negb (h =? 0)).
  - unfold code_u16, code_byte, mbind, M_bind. cbn [code set_code g_rvc g_rvc_xlen rv_ext]. unfold set_code. cbn.
    by rewrite !land_ff_twice, <- app_assoc.
  - unfold code_u32, code_byte, mbind, M_bind, bytes4, bytes2. unfold set_code. cbn -[Z.land Z.shiftr].
    rewrite !land_ff_twice, <- !app_assoc, !Z.shiftr_shiftr by lia. done.
Qed.

Lemma bytes2_value h : 0 <= h -> Z.land h 0xff + 256 * Z.land (Z.shiftr h 8) 0xff = h mod 2 ^ 16.
Proof.
  intros Hh. rewrite byte_low, byte_of by lia. change 16 with (8 + 8). rewrite mod_pow2_split by lia. lia.
Qed.

(** Fetching a parcel. *)
Lemma fetch_at s a l i : code_in s a l -> forall h, (exists l1 l2, l = l1 ++ bytes2 h ++ l2 /\ i = length l1) -> 0 <= h ->
  fetch16 (mem s) (a + Z.of_nat i) = (mem s, Some (h mod 2 ^ 16)).
Proof.
  intros HC h (l1 & l2 & -> & ->) Hh. rewrite <- bytes2_value by done. apply HC.
  - rewrite lookup_app_r, Nat.sub_diag by lia. done.
  - rewrite lookup_app_r by lia. replace (S (length l1) - length l1)%nat with 1%nat by lia. done.
Qed.

Lemma set_mem_same s : set_mem s (mem s) = s.
Proof. by destruct s. Qed.

Lemma pc_low s : 0 <= pc s < 2 ^ 32 -> Z.shiftr (pc s) 32 = 0.
Proof. intros H. rewrite Z.shiftr_div_pow2 by lia. by apply Z.div_small. Qed.

Lemma step_short s h : code_in s (pc s) (bytes2 h) -> 0 <= h < 2 ^ 16 -> Z.land h 3 <> 3 -> 0 <= pc s < 2 ^ 32 ->
  step s = finish (step_exec h 2 s).
Proof.
  intros HC Hh H3 Hp. unfold step. rewrite pc_low by done. change (negb (0 =? 0)) with false. cbv iota.
  pose proof (fetch_at s (pc s) _ 0 HC h ltac:(exists [], []; done) ltac:(lia)) as F. rewrite Z.add_0_r in F.
  rewrite Z.mod_small in F by lia. rewrite F, set_mem_same. by rewrite (proj2 (Z.eqb_neq _ _) H3).
Qed.

Lemma step_word s w : code_in s (pc s) (bytes4 w) -> is_u 32 w -> Z.land w 3 = 3 -> 0 <= pc s -> pc s + 4 <= 2 ^ 32 ->
  step s = finish (step_exec w 4 s).
Proof.
  intros HC Hw H3 Hp Hq. unfold step, is_u in *. rewrite pc_low by lia. change (negb (0 =? 0)) with false. cbv iota.
  pose proof (fetch_at s (pc s) _ 0 HC w ltac:(exists [], (bytes2 (Z.shiftr w 16)); done) ltac:(lia)) as F.
  rewrite Z.add_0_r in F. rewrite F, set_mem_same.
  assert (E3 : Z.land (w mod 2 ^ 16) 3 = 3).
  { transitivity (Z.land w 3); [|done]. change (Z.land (w mod 2 ^ 16) (2 ^ 2 - 1) = Z.land w (2 ^ 2 - 1)).
    rewrite !land_ones_mod by lia. rewrite Z.mod_mod_divide; [done|]. exists (2 ^ 14). reflexivity. }
  rewrite E3. change (3 =? 3) with true. cbv iota. rewrite (u32_id (pc s + 2)) by lia.
  assert (Hs : 0 <= w / 2 ^ 16 < 2 ^ 16) by (split; [apply Z.div_pos; lia | apply Z.div_lt_upper_bound; lia]).
  assert (Es : Z.shiftr w 16 = w / 2 ^ 16) by (apply Z.shiftr_div_pow2; lia).
  pose proof (fetch_at s (pc s) _ 2 HC (Z.shiftr w 16) ltac:(exists (bytes2 w), []; by rewrite app_nil_r) ltac:(lia)) as F2.
  rewrite Es in F2.
  change (Z.of_nat 2) with 2 in F2. rewrite F2, set_mem_same, (Z.mod_small (w / 2 ^ 16)) by lia.
  do 2 f_equal. rewrite Z.shiftl_mul_pow2, u32_id by lia. pose proof (Z.mod_pos_bound w (2 ^ 16) ltac:(lia)).
  rewrite lor_add_shift by lia. pose proof (Z.div_mod w (2 ^ 16) ltac:(lia)). lia.
Qed.

Lemma begin_ok word size s : rv_ok s -> rv_ok (begin_insn word size s).
Proof.
  intros H. pose proof (ok_xlen s H) as Hx. destruct H. constructor; try done. simpl.
  apply (rv_xl_range s); [done | apply uwrap_range; lia].
Qed.

Lemma rv_xl_u64 s v : xlen s = 32 \/ xlen s = 64 -> rv_xl s (u64 v) = uwrap (xlen s) v.
Proof.
  intros [E|E]; unfold rv_xl; rewrite E; simpl.
  - apply uwrap_proper. apply (eqw_weaken 64); [lia | apply eqw_uwrap; lia].
  - done.
Qed.

(** An instruction word that writes one register from the registers, [xl] bits wide. *)
Record writes (w xl rd : Z) (f : (Z -> Z) -> Z) : Prop := {
  ww_word : is_u 32 w;
  ww_size : Z.land w 3 = 3;
  ww_shift : shift_legal w xl;
  ww_rd : 0 < rd < 32;
  ww_effect s : rv_ok s -> xlen s = xl -> exec w s = rv_wx rd (f (x s)) s /\ is_u 64 (f (x s)) }.

(** The emitter's settings fit the core. *)
Definition for_core (c : emitter) (xl : Z) : Prop := g_rvc_xlen c = xl /\ has_ext (rv_ext c) RV_EXT_ZCB = false.

(** Either size: the effect of the word, and the next program counter. *)
Lemma after_write w xl rd f s word size : writes w xl rd f -> rv_ok s -> xlen s = xl ->
  0 <= size -> 0 <= pc s -> pc s + size < 2 ^ 32 ->
  let s1 := exec w (begin_insn word size s) in let s' := set_pc s1 (npc s1) in
  finish s1 = Next s' /\ rv_ok s' /\ wrote rd (f (x s)) (Z.to_nat size) s s'.
Proof.
  intros [Hw H3 Hl Hd He] H Hx Hs Hp Hps. destruct (He (begin_insn word size s) (begin_ok word size s H) Hx) as (E & U).
  cbv zeta. rewrite E. change (x (begin_insn word size s)) with (x s) in *.
  assert (En : rv_xl s (u64 (pc s + size)) = pc s + size).
  { rewrite rv_xl_u64 by apply H. apply uwrap_small. unfold is_u. destruct (ok_xlen s H) as [E1|E1]; rewrite E1; lia. }
  pose proof (rv_wx_ok rd (f (x s)) _ (begin_ok word size s H) U) as OK. unfold rv_wx in *.
  destruct (Z.eqb_spec rd 0); [lia|]. unfold finish. cbn [trap set_x begin_insn].
  split_and!; [done | destruct OK; by constructor |]. constructor; try done; simpl.
  - rewrite En. lia.
  - by rewrite upd_same.
  - intros r Hr. by rewrite upd_other.
Qed.

Lemma step_parcel c w xl rd f s : writes w xl rd f -> for_core c xl -> rv_ok s -> xlen s = xl ->
  code_in s (pc s) (parcel c w) -> 0 <= pc s -> pc s + Z.of_nat (length (parcel c w)) < 2 ^ 32 ->
  exists s', step s = Next s' /\ rv_ok s' /\ wrote rd (f (x s)) (length (parcel c w)) s s'.
Proof.
  intros HW [Ex Ez] H Hx HC Hp Hq. pose proof HW as [Hw H3 Hl _ _].
  pose proof (fun word size => after_write w xl rd f s word size HW H Hx) as G.
  unfold parcel in *. destruct (Z.eqb_spec (short_form c w) 0) as [E0|E0]; cbn [negb] in *.
  - rewrite (step_word s w) by (done || (simpl in Hq; lia)). unfold step_exec. change (4 =? 4) with true. cbv iota.
    destruct (G w 4 ltac:(lia) Hp ltac:(simpl in Hq; lia)) as (G1 & G2 & G3). eauto.
  - unfold short_form in *. destruct (g_rvc c); [|done]. rewrite Ex, <- Hx in *.
    pose proof (compress_sound w (xlen s) (rv_ext c) Hw (ok_xlen s H) Ez Hl E0) as S. unfold short_of in S.
    apply andb_true_iff in S as [S Ee]. apply andb_true_iff in S as [S Sq]. apply andb_true_iff in S as [S1 S2].
    apply negb_true_iff, Z.eqb_neq in Sq. apply Z.eqb_eq in Ee. apply Z.ltb_lt in S1, S2.
    set (h := rv_compress (rv_ext c) w (xlen s)) in *.
    rewrite (step_short s h) by (done || lia || (simpl in Hq; lia)). unfold step_exec. change (2 =? 4) with false. cbv iota zeta.
    change (xlen (begin_insn h 2 s)) with (xlen s). rewrite Ee.
    rewrite (proj2 (Z.eqb_neq _ _) (canon_nonzero w Hw H3)). cbn [negb]. cbv iota.
    rewrite exec32_canon; [| done | by apply begin_ok |].
    + destruct (G h 2 ltac:(lia) Hp ltac:(simpl in Hq; lia)) as (G1 & G2 & G3). eauto.
    + intros Ho. change (xlen (begin_insn h 2 s)) with (xlen s). destruct (ok_xlen s H) as [E32|]; [|done].
      exfalso. apply E0. unfold h. rewrite E32. by apply compress_addiw_rv32.
Qed.

(** ** Sequences that build a value in one register *)

Lemma code_in_app s a l1 l2 : code_in s a (l1 ++ l2) -> code_in s a l1 /\ code_in s (a + Z.of_nat (length l1)) l2.
Proof.
  intros HC. split.
  - intros i b0 b1 H0 H1. apply HC; by apply lookup_app_l_Some.
  - intros i b0 b1 H0 H1. rewrite <- Z.add_assoc, <- Nat2Z.inj_add. apply HC.
    + rewrite lookup_app_r by lia. by replace (length l1 + i - length l1)%nat with i by lia.
    + rewrite lookup_app_r by lia. by replace (S (length l1 + i) - length l1)%nat with (S i) by lia.
Qed.

Lemma steps_app n m s s1 : steps n s = Next s1 -> steps (n + m) s = steps m s1.
Proof.
  revert s. induction n as [|n IH]; intros s E; cbn [steps Nat.add] in *; [by injection E as ->|].
  destruct (step s) as [s2|s2|s2]; try done. by apply IH.
Qed.

(** The bytes load [v] in [rd], wherever the core meets them. *)
Definition loads (l : list Z) (rd v xl : Z) : Prop := forall s, rv_ok s -> xlen s = xl -> code_in s (pc s) l ->
  0 <= pc s -> pc s + Z.of_nat (length l) < 2 ^ 32 -> runs_to l rd v s.

Lemma loads_one c w xl rd f v : writes w xl rd f -> for_core c xl ->
  (forall s, rv_ok s -> xlen s = xl -> rv_xl s (f (x s)) = rv_xl s v) -> loads (parcel c w) rd v xl.
Proof.
  intros HW Hc E s H Hx HC Hp Hq. destruct (step_parcel c w xl rd f s HW Hc H Hx HC Hp Hq) as (s' & S & H' & [? ? ? ? ? ? Hr ?]).
  exists 1%nat, s'. cbn [steps]. rewrite S. split_and!; [done | done |]. constructor; try done. rewrite Hr. by apply E.
Qed.

Lemma loads_then c w xl rd f l u v : loads l rd u xl -> writes w xl rd f -> for_core c xl ->
  (forall s, rv_ok s -> xlen s = xl -> x s rd = rv_xl s u -> rv_xl s (f (x s)) = rv_xl s v) ->
  loads (l ++ parcel c w) rd v xl.
Proof.
  intros HL HW Hc E s H Hx HC Hp Hq. apply code_in_app in HC as [HC1 HC2]. rewrite length_app in Hq.
  destruct (HL s H Hx HC1 Hp ltac:(lia)) as (n & s1 & S1 & H1 & W1).
  assert (X1 : xlen s1 = xl) by (rewrite (wr_xlen _ _ _ _ _ W1); done).
  assert (HC' : code_in s1 (pc s1) (parcel c w)).
  { rewrite (wr_pc _ _ _ _ _ W1). intros i b0 b1 A B. rewrite (wr_mem _ _ _ _ _ W1). by apply HC2. }
  pose proof (wr_pc _ _ _ _ _ W1) as Pc.
  destruct (step_parcel c w xl rd f s1 HW Hc H1 X1 HC' ltac:(lia) ltac:(lia)) as (s2 & S2 & H2 & W2).
  exists (n + 1)%nat, s2. rewrite (steps_app n 1 s s1 S1). cbn [steps]. rewrite S2.
  assert (XL : forall z, rv_xl s1 z = rv_xl s z) by (intros z; unfold rv_xl; by rewrite (wr_xlen _ _ _ _ _ W1)).
  specialize (E s1 H1 X1). rewrite !XL in E. specialize (E (wr_reg _ _ _ _ _ W1)).
  destruct W1 as [A1 A2 A3 A4 (A5 & A6 & A7) A8 A9 A10], W2 as [B1 B2 B3 B4 (B5 & B6 & B7) B8 B9 B10].
  split_and!; [done | done |]. constructor; try congruence.
  - split_and!; congruence.
  - rewrite length_app. lia.
  - intros r Hr. rewrite B10, A10; done.
Qed.

(** ** The instructions of a constant *)

Lemma iword_legal op rd f3 rs1 imm xl : 0 <= op < 128 -> 0 <= rd < 32 -> 0 <= f3 < 8 -> 0 <= rs1 < 32 -> 0 <= imm < 4096 ->
  op mod 4 = 3 -> (f3 <> 1 /\ f3 <> 5) \/ imm < 32 ->
  let w := iword op rd f3 rs1 imm in
  is_u 32 w /\ Z.land w 3 = 3 /\ shift_legal w xl /\ op_of w = op /\ rd_of w = rd /\ f3_of w = f3 /\ rs1_of w = rs1 /\
  imm12_of w = imm.
Proof.
  intros H1 H2 H3 H4 H5 H6 H7 w.
  pose proof (Z.div_mod imm 32 ltac:(lia)) as D. pose proof (Z.mod_pos_bound imm 32 ltac:(lia)).
  assert (0 <= imm / 32 < 128) by (split; [apply Z.div_pos; lia | apply Z.div_lt_upper_bound; lia]).
  pose proof (iword_fields op rd f3 rs1 (imm mod 32) (imm / 32) H1 H2 H3 H4 ltac:(lia) ltac:(lia)) as F. cbv zeta in F.
  replace (imm mod 32 + 2 ^ 5 * (imm / 32)) with imm in F by lia. fold w in F.
  destruct F as (F1 & F2 & F3 & F4 & F5 & F6 & F7 & F8). split_and!; try done.
  - change (Z.land w (2 ^ 2 - 1) = 3). rewrite land_ones_mod by lia. rewrite <- H6. unfold w, iword.
    replace (op + 2 ^ 7 * rd + 2 ^ 12 * f3 + 2 ^ 15 * rs1 + 2 ^ 20 * imm)
      with (op + (2 ^ 5 * rd + 2 ^ 10 * f3 + 2 ^ 13 * rs1 + 2 ^ 18 * imm) * 2 ^ 2) by lia. by rewrite Z.mod_add by lia.
  - intros _ _ HF. rewrite F4 in HF. rewrite F7. destruct H7 as [|H7]; [lia|]. by rewrite Z.div_small by lia.
Qed.

Lemma immi_of_word w imm : is_s 12 imm -> imm12_of w = imm mod 4096 -> immi_of w = imm.
Proof.
  intros Hi E. unfold immi_of. change (Z.land (Z.shiftr w 20) 0xfff) with (imm12_of w). rewrite E.
  pose proof (Z.mod_pos_bound imm 4096 ltac:(lia)) as R. destruct (sext12_mod (imm mod 4096) R) as (A & B & _).
  change (2 ^ (12 - 1)) with 2048 in Hi. unfold is_s in Hi. change (2 ^ (12 - 1)) with 2048 in Hi.
  apply (eqw_s 12); [lia | unfold is_s; simpl; lia | unfold is_s; simpl; lia |]. apply eqw_mod; [lia|].
  exact A.
Qed.

Lemma writes_addi xl rd rs1 imm : 0 < rd < 32 -> 0 <= rs1 < 32 -> is_s 12 imm ->
  writes (iword 0x13 rd 0 rs1 (imm mod 4096)) xl rd (fun x => u64 (x rs1 + imm)).
Proof.
  intros Hd Hr Hi. pose proof (Z.mod_pos_bound imm 4096 ltac:(lia)) as Hm.
  destruct (iword_legal 0x13 rd 0 rs1 (imm mod 4096) xl) as (F1 & F2 & F3 & F4 & F5 & F6 & F7 & F8); try lia; [done|].
  constructor; try done. intros s H Hx. split; [|apply u64_u].
  rewrite exec_op_imm by done. rewrite F5, F6, F7, (immi_of_word _ imm Hi F8). done.
Qed.

Lemma writes_slli12 xl rd : 0 < rd < 32 -> xl = 64 ->
  writes (iword 0x13 rd 1 rd 12) xl rd (fun x => u64 (Z.shiftl (x rd) 12)).
Proof.
  intros Hd ->. destruct (iword_legal 0x13 rd 1 rd 12 64) as (F1 & F2 & F3 & F4 & F5 & F6 & F7 & F8); try lia; [done|].
  constructor; try done. intros s H Hx. split; [|apply u64_u].
  rewrite exec_op_imm by done. rewrite F5, F6, F7. unfold op_imm. rewrite Hx. change (64 =? 64) with true. cbv iota zeta.
  assert (E1 : Z.shiftr (iword 0x13 rd 1 rd 12) 26 = 0).
  { rewrite Z.shiftr_div_pow2 by lia. apply Z.div_small. unfold iword. lia. }
  assert (E2 : Z.land (Z.shiftr (iword 0x13 rd 1 rd 12) 20) 63 = 12).
  { change 63 with (2 ^ 6 - 1). rewrite land_ones_mod, Z.shiftr_div_pow2 by lia.
    replace (iword 0x13 rd 1 rd 12) with (0x13 + 2 ^ 7 * rd + 2 ^ 12 + 2 ^ 15 * rd + 12 * 2 ^ 20) by (unfold iword; lia).
    rewrite Z.div_add, Z.div_small by lia. done. }
  rewrite E1, E2. done.
Qed.

Lemma writes_addiw rd rs1 imm : 0 < rd < 32 -> 0 <= rs1 < 32 -> is_s 12 imm ->
  writes (iword 0x1b rd 0 rs1 (imm mod 4096)) 64 rd (fun x => sext32 (u64 (x rs1 + imm))).
Proof.
  intros Hd Hr Hi. pose proof (Z.mod_pos_bound imm 4096 ltac:(lia)) as Hm.
  destruct (iword_legal 0x1b rd 0 rs1 (imm mod 4096) 64) as (F1 & F2 & F3 & F4 & F5 & F6 & F7 & F8); try lia; [done|].
  constructor; try done. intros s H Hx. split; [|apply u64_u].
  rewrite exec_op_imm32 by done. unfold op_w. rewrite Hx, immi_shift, F5, F6, F7, (immi_of_word _ imm Hi F8) by done. done.
Qed.

Lemma writes_lui xl rd hi : 0 < rd < 32 -> 0 <= hi < 2 ^ 20 ->
  writes (0x37 + 2 ^ 7 * rd + 2 ^ 12 * hi) xl rd (fun _ => u64 (s32 (hi * 2 ^ 12))).
Proof.
  intros Hd Hh.
  assert (Hu : is_u 32 (0x37 + 2 ^ 7 * rd + 2 ^ 12 * hi)) by (unfold is_u; lia).
  assert (E7 : op_of (0x37 + 2 ^ 7 * rd + 2 ^ 12 * hi) = 0x37).
  { destruct (fields_mod (0x37 + 2 ^ 7 * rd + 2 ^ 12 * hi)) as (-> & _).
    replace (0x37 + 2 ^ 7 * rd + 2 ^ 12 * hi) with (0x37 + (rd + 2 ^ 5 * hi) * 2 ^ 7) by lia. by rewrite Z.mod_add by lia. }
  assert (Ed : rd_of (0x37 + 2 ^ 7 * rd + 2 ^ 12 * hi) = rd).
  { destruct (fields_mod (0x37 + 2 ^ 7 * rd + 2 ^ 12 * hi)) as (_ & -> & _).
    replace (0x37 + 2 ^ 7 * rd + 2 ^ 12 * hi) with (0x37 + (rd + hi * 2 ^ 5) * 2 ^ 7) by lia.
    rewrite Z.div_add, Z.div_small, Z.add_0_l, Z.mod_add, Z.mod_small by lia. done. }
  constructor; try done.
  - change (Z.land (0x37 + 2 ^ 7 * rd + 2 ^ 12 * hi) (2 ^ 2 - 1) = 3). rewrite land_ones_mod by lia.
    replace (0x37 + 2 ^ 7 * rd + 2 ^ 12 * hi) with (0x37 + (2 ^ 5 * rd + 2 ^ 10 * hi) * 2 ^ 2) by lia. by rewrite Z.mod_add by lia.
  - intros _ Ho. rewrite E7 in Ho. discriminate.
  - intros s H Hx. split; [|apply u64_u]. set (w := 0x37 + 2 ^ 7 * rd + 2 ^ 12 * hi) in *.
    unfold exec32. change (Z.land w 0x7f) with (op_of w). change (Z.land (Z.shiftr w 7) 31) with (rd_of w). rewrite E7, Ed.
    assert (El : Z.land w 0xfffff000 = hi * 2 ^ 12).
    { assert (Ew : w = Z.lor (hi * 2 ^ 12) (0x37 + 2 ^ 7 * rd)) by (rewrite lor_shift_add by lia; unfold w; lia).
      rewrite Ew. apply Z.bits_inj'. intros j Hj. change 0xfffff000 with (Z.shiftl (Z.ones 20) 12).
      rewrite Z.land_spec, Z.lor_spec, Z.shiftl_spec, <- Z.shiftl_mul_pow2, Z.shiftl_spec by lia.
      destruct (Z.ltb_spec j 12); [rewrite !(Z.testbit_neg_r _ (j - 12)) by lia; apply andb_false_r|].
      rewrite (Z.bits_above_log2 (0x37 + 2 ^ 7 * rd) j), orb_false_r; [|lia|].
      2: { apply Z.log2_lt_pow2; [lia|]. assert (2 ^ 12 <= 2 ^ j) by (apply Z.pow_le_mono_r; lia). lia. }
      rewrite Z.testbit_ones_nonneg by lia. destruct (Z.ltb_spec (j - 12) 20); [apply andb_true_r|].
      rewrite andb_false_r. symmetry. rewrite <- (Z.mod_small hi (2 ^ 20)) by lia. apply Z.mod_pow2_bits_high. lia. }
    rewrite El. done.
Qed.

(** ** [rv_li] *)

Definition q12 (v : Z) : Z := (v + 2048) / 4096.
Lemma lo12_spec v : is_s 12 (lo12_of v) /\ v = lo12_of v + 4096 * q12 v.
Proof.
  unfold lo12_of, q12. change 4095 with (2 ^ 12 - 1). rewrite land_ones_mod by lia. change (2 ^ 12) with 4096.
  assert (P : all_in 0 4096 (fun m => Z.lxor m 2048 - 2048 =? (if m <? 2048 then m else m - 4096)) = true)
    by (vm_compute; reflexivity).
  pose proof (Z.mod_pos_bound v 4096 ltac:(lia)) as R. pose proof (all_in_spec _ _ _ P _ R) as E. apply Z.eqb_eq in E.
  rewrite E. clear P E. unfold is_s. change (2 ^ (12 - 1)) with 2048. pose proof (Z.div_mod v 4096 ltac:(lia)) as D.
  destruct (Z.ltb_spec (v mod 4096) 2048).
  - replace ((v + 2048) / 4096) with (v / 4096) by (apply Z.div_unique with (v mod 4096 + 2048); lia). lia.
  - replace ((v + 2048) / 4096) with (v / 4096 + 1) by (apply Z.div_unique with (v mod 4096 - 2048); lia). lia.
Qed.

Lemma hi20_spec v : hi20_of v = q12 v mod 2 ^ 20.
Proof.
  unfold hi20_of, q12. rewrite Z.shiftr_div_pow2 by lia. change 1048575 with (2 ^ 20 - 1). by rewrite land_ones_mod by lia.
Qed.

Lemma wo_emits o w c : o = Some w -> rv_wo o c = Some ((), set_code c (code c ++ parcel c w)).
Proof. intros ->. apply rv_w_emits. Qed.

(** What [li_emit] leaves: the bytes, and their number when nothing is compressed. *)
Definition li_leaves (fuel : nat) (rd v xl : Z) (c : emitter) : Prop := exists n l,
  li_emit fuel rd v xl true c = Some (n, set_code c (code c ++ l)) /\ loads l rd (u64 v) xl /\
  (g_rvc c = false -> n = Z.of_nat (length l)) /\
  (forall rd0 c0, li_emit fuel rd0 v xl false c0 = Some (n, c0)).

Lemma parcel_len c w : g_rvc c = false -> length (parcel c w) = 4%nat.
Proof. intros E. unfold parcel, short_form. by rewrite E. Qed.

Lemma xl_eqw s a b : xlen s = 32 \/ xlen s = 64 -> eqw (xlen s) a b -> rv_xl s (u64 a) = rv_xl s (u64 b).
Proof. intros Hx E. rewrite !rv_xl_u64 by done. by apply uwrap_proper. Qed.

(** The register read back is the value loaded, modulo its width. *)
Lemma reg_eqw s r u : xlen s = 32 \/ xlen s = 64 -> x s r = rv_xl s (u64 u) -> eqw (xlen s) (x s r) u.
Proof. intros Hx ->. rewrite rv_xl_u64 by done. destruct Hx as [->| ->]; apply eqw_uwrap; lia. Qed.

Lemma s32_of_q v : is_s 32 v -> lo12_of v = 0 -> s32 (hi20_of v * 2 ^ 12) = v.
Proof.
  intros Hv E0. destruct (lo12_spec v) as (_ & E). rewrite hi20_spec. rewrite <- (swrap_small 32 v ltac:(lia) Hv) at 2.
  apply swrap_proper. rewrite E at 2. rewrite E0. exists (- (q12 v / 2 ^ 20)).
  pose proof (Z.div_mod (q12 v) (2 ^ 20) ltac:(lia)). lia.
Qed.

(** [lui] then the low part, as the sum of the two. *)
Lemma lui_sum v : eqw 32 (s32 (hi20_of v * 2 ^ 12) + lo12_of v) v.
Proof.
  destruct (lo12_spec v) as (_ & E). rewrite (eqw_swrap 32) by lia. rewrite hi20_spec. exists (- (q12 v / 2 ^ 20)).
  pose proof (Z.div_mod (q12 v) (2 ^ 20) ltac:(lia)). lia.
Qed.
Lemma lui_exact v : is_s 32 v -> Z.land (hi20_of v) 0x80000 = 0 -> s32 (hi20_of v * 2 ^ 12) + lo12_of v = v.
Proof.
  unfold is_s. intros Hv Hb. destruct (lo12_spec v) as (Hl & E). unfold is_s in Hl.
  pose proof (hi20_spec v) as Eh. pose proof (Z.mod_pos_bound (q12 v) (2 ^ 20) ltac:(lia)) as Rh. rewrite <- Eh in Rh.
  change 0x80000 with (2 ^ 19) in Hb. pose proof (land_top (hi20_of v) 19 ltac:(lia) ltac:(lia)) as T. rewrite Hb in T.
  destruct (Z.ltb_spec (hi20_of v) (2 ^ 19)); [|lia]. rewrite s32_id by lia.
  pose proof (Z.div_mod (q12 v) (2 ^ 20) ltac:(lia)). assert (q12 v / 2 ^ 20 = 0) by lia. lia.
Qed.

Lemma narrow_sum v r : is_s 32 v -> eqw 64 r (s32 (hi20_of v * 2 ^ 12)) -> sext32 (u64 (r + lo12_of v)) = u64 v.
Proof.
  intros Hv Er. unfold sext32. f_equal. rewrite <- (swrap_small 32 v ltac:(lia) Hv) at 2. apply swrap_proper.
  transitivity (r + lo12_of v); [apply (eqw_weaken 64); [lia | apply eqw_uwrap; lia]|].
  apply (eqw_weaken 64 32) in Er; [|lia]. rewrite Er. apply lui_sum.
Qed.
(** A value past 32 bits, at RV64: what is above its low twelve bits first. *)
Lemma li_hi v : is_s 64 v -> eqw 64 (Z.shiftl (Z.shiftr (s64 (v - lo12_of v)) 12) 12 + lo12_of v) v.
Proof.
  intros Hv. destruct (lo12_spec v) as (_ & E). rewrite Z.shiftl_mul_pow2, Z.shiftr_div_pow2 by lia.
  replace (v - lo12_of v) with (q12 v * 2 ^ 12) by lia. destruct (eqw_swrap 64 (q12 v * 2 ^ 12) ltac:(lia)) as [k Ek].
  rewrite Ek. replace (q12 v * 2 ^ 12 + k * 2 ^ 64) with ((q12 v + k * 2 ^ 52) * 2 ^ 12) by lia.
  rewrite Z.div_mul by lia. exists k. lia.
Qed.
Lemma li_hi_bound v k : 12 <= k <= 63 -> is_s 64 v -> - 2 ^ k <= v <= 2 ^ k ->
  let hi := Z.shiftr (s64 (v - lo12_of v)) 12 in is_s 64 hi /\ - 2 ^ (k - 12) <= hi <= 2 ^ (k - 12).
Proof.
  intros Hk Hv Hb. destruct (lo12_spec v) as (Hl & E). unfold is_s in *. cbv zeta. rewrite Z.shiftr_div_pow2 by lia.
  assert (P : 2 ^ k = 4096 * 2 ^ (k - 12)) by (change 4096 with (2 ^ 12); rewrite <- Z.pow_add_r by lia; f_equal; lia).
  assert (P2 : 2 ^ (k - 12) <= 2 ^ 51) by (apply Z.pow_le_mono_r; lia). pose proof (pow2_pos (k - 12) ltac:(lia)).
  assert (Q : - 2 ^ (k - 12) <= q12 v <= 2 ^ (k - 12)) by lia.
  replace (v - lo12_of v) with (q12 v * 2 ^ 12) by lia.
  destruct (Z.eq_dec (q12 v) (2 ^ 51)) as [Eq|Nq].
  - rewrite Eq in *. assert (2 ^ (k - 12) = 2 ^ 51) as -> by lia. vm_compute. intuition discriminate.
  - rewrite s64_id, Z.div_mul by lia. lia.
Qed.

Section Li.
Context (rd xl : Z) (c : emitter) (Hd : 0 < rd < 32) (Hx : xl = 32 \/ xl = 64) (Hc : for_core c xl).

Lemma li_small fuel v : is_s 12 v -> li_leaves (S fuel) rd v xl c.
Proof using Hd Hx Hc.
  intros Hv. exists 4, (parcel c (iword 0x13 rd 0 0 (v mod 4096))). cbn [li_emit].
  rewrite (proj2 (rv_fits_spec v 12 ltac:(lia)) Hv). split_and!.
  - unfold mbind, M_bind, when. rewrite (wo_emits _ _ c (enc_i_word OP_IMM rd 0 0 v ltac:(unfold OP_IMM; lia) ltac:(lia) ltac:(lia) ltac:(lia) Hv)).
    done.
  - eapply loads_one; [by apply writes_addi | done |]. intros s H Hs. cbv beta. by rewrite (ok_zero s H), Z.add_0_l.
  - intros E. by rewrite parcel_len.
  - done.
Qed.

Lemma medium_writes (narrow : bool) v : (narrow = true -> xl = 64) -> is_s 12 v ->
  writes (iword (if narrow then 0x1b else 0x13) rd 0 rd (v mod 4096)) xl rd
    (fun x => if narrow then sext32 (u64 (x rd + v)) else u64 (x rd + v)).
Proof using Hd. intros Hn Hv. destruct narrow; [rewrite Hn by done; apply writes_addiw | apply writes_addi]; done || lia. Qed.

Lemma li_medium fuel v : ~ is_s 12 v -> is_s 32 v -> li_leaves (S fuel) rd v xl c.
Proof using Hd Hx Hc.
  intros N Hv. destruct (lo12_spec v) as (Hlo & E). pose proof (hi20_spec v) as Eh.
  pose proof (Z.mod_pos_bound (q12 v) (2 ^ 20) ltac:(lia)) as Rh. rewrite <- Eh in Rh.
  assert (F12 : rv_fits v 12 = false).
  { destruct (rv_fits v 12) eqn:F; [|done]. exfalso. apply N. by apply rv_fits_spec in F. }
  pose proof (writes_lui xl rd (hi20_of v) Hd Rh) as WL.
  pose proof (enc_u_word OP_LUI rd (hi20_of v) ltac:(unfold OP_LUI; lia) ltac:(lia) Rh) as EL.
  change (OP_LUI + 2 ^ 7 * rd + 2 ^ 12 * hi20_of v) with (0x37 + 2 ^ 7 * rd + 2 ^ 12 * hi20_of v) in EL.
  set (wl := 0x37 + 2 ^ 7 * rd + 2 ^ 12 * hi20_of v) in *.
  assert (LL : loads (parcel c wl) rd (u64 (s32 (hi20_of v * 2 ^ 12))) xl)
    by (eapply loads_one; [exact WL | done | by intros]).
  destruct (Z.eqb_spec (lo12_of v) 0) as [L0|L0].
  - exists 4, (parcel c wl). cbn [li_emit]. rewrite F12, (proj2 (rv_fits_spec v 32 ltac:(lia)) Hv), L0.
    change (0 =? 0) with true. cbn [negb]. unfold mbind, M_bind, when. rewrite (wo_emits _ _ c EL).
    split_and!; [done | by rewrite <- (s32_of_q v Hv L0) | intros G; by rewrite parcel_len | done].
  - set (narrow := (xl =? 64) && negb (Z.land (hi20_of v) 0x80000 =? 0)).
    set (op := if narrow then 0x1b else 0x13). set (wa := iword op rd 0 rd (lo12_of v mod 4096)).
    assert (narrow64 : narrow = true -> xl = 64) by (intros [Hn _]%andb_true_iff; by apply Z.eqb_eq).
    exists 8, (parcel c wl ++ parcel c wa). cbn [li_emit]. rewrite F12, (proj2 (rv_fits_spec v 32 ltac:(lia)) Hv).
    rewrite (proj2 (Z.eqb_neq _ _) L0). cbn [negb]. unfold mbind, M_bind, when. rewrite (wo_emits _ _ c EL).
    assert (EA : rv_enc_i (if narrow then OP_IMM32 else OP_IMM) rd 0 rd (lo12_of v) = Some wa).
    { unfold wa, op. destruct narrow; apply enc_i_word; try lia; done. }
    fold narrow. rewrite (wo_emits _ _ (set_code c (code c ++ parcel c wl)) EA). split_and!.
    + unfold set_code. cbn [code g_rvc g_rvc_xlen rv_ext]. by rewrite <- app_assoc.
    + eapply loads_then; [exact LL | apply medium_writes; [apply narrow64 | done] | done |]. intros s H Hs Er. cbv beta.
      assert (Hxs : xlen s = 32 \/ xlen s = 64) by (by rewrite Hs). apply (reg_eqw s _ _ Hxs) in Er. rewrite Hs in Er.
      unfold narrow. destruct Hx as [Ex|Ex]; rewrite Ex in *; cbn [Z.eqb Pos.eqb andb].
      * apply xl_eqw; [done|]. rewrite Hs, Er. apply lui_sum.
      * destruct (Z.eqb_spec (Z.land (hi20_of v) 0x80000) 0) as [Z0|Z0]; cbn [negb].
        -- apply xl_eqw; [done|]. by rewrite Hs, Er, lui_exact.
        -- f_equal. by apply narrow_sum.
    + intros G. rewrite length_app, !parcel_len by done. done.
    + done.
Qed.
Lemma li_large fuel v : xl = 64 -> ~ is_s 32 v -> is_s 64 v ->
  li_leaves fuel rd (Z.shiftr (s64 (v - lo12_of v)) 12) xl c -> li_leaves (S fuel) rd v xl c.
Proof using Hd Hc.
  intros Ex N Hv (n & l & EL & LL & Ln & Lq). destruct (lo12_spec v) as (Hlo & _). pose proof (li_hi v Hv) as Eh.
  set (hi := Z.shiftr (s64 (v - lo12_of v)) 12) in *.
  assert (F32 : rv_fits v 32 = false) by (apply not_true_iff_false; by rewrite rv_fits_spec by lia).
  assert (F12 : rv_fits v 12 = false).
  { apply not_true_iff_false. rewrite rv_fits_spec by lia. intros H. apply N. unfold is_s in *. simpl in *. lia. }
  set (ws := iword 0x13 rd 1 rd 12). assert (ES : rv_enc_r OP_IMM rd 1 rd 12 0 = Some ws).
  { rewrite enc_r_word by (unfold OP_IMM; lia). done. }
  assert (LS : loads (l ++ parcel c ws) rd (u64 (Z.shiftl hi 12)) xl).
  { eapply loads_then; [exact LL | by apply writes_slli12 | done |]. intros s H Hs Er. cbv beta.
    assert (Hxs : xlen s = 32 \/ xlen s = 64) by lia. apply (reg_eqw s _ _ Hxs) in Er. apply xl_eqw; [done|].
    rewrite !Z.shiftl_mul_pow2 by lia. by rewrite Er. }
  assert (Em : forall b l', code (set_code b l') = l') by done.
  destruct (Z.eqb_spec (lo12_of v) 0) as [L0|L0].
  - exists (n + 4), (l ++ parcel c ws). cbn [li_emit]. rewrite F12, F32. fold hi. rewrite L0. change (0 =? 0) with true.
    cbn [negb]. unfold mbind, M_bind. rewrite EL. unfold when. rewrite (wo_emits _ _ _ ES). split_and!.
    + unfold set_code. cbn [code g_rvc g_rvc_xlen rv_ext]. by rewrite <- app_assoc.
    + rewrite L0, Z.add_0_r in Eh. by rewrite <- (uwrap_proper 64 _ _ Eh).
    + intros G. rewrite length_app, parcel_len, (Ln G) by done. lia.
    + intros rd0 c0. by rewrite Lq.
  - set (wa := iword 0x13 rd 0 rd (lo12_of v mod 4096)).
    assert (EA : rv_enc_i OP_IMM rd 0 rd (lo12_of v) = Some wa) by (apply enc_i_word; unfold OP_IMM; done || lia).
    exists (n + 4 + 4), ((l ++ parcel c ws) ++ parcel c wa). cbn [li_emit]. rewrite F12, F32. fold hi.
    rewrite (proj2 (Z.eqb_neq _ _) L0). cbn [negb]. unfold mbind, M_bind. rewrite EL. unfold when.
    rewrite (wo_emits _ _ _ ES), (wo_emits _ _ _ EA). split_and!.
    + unfold set_code. cbn [code g_rvc g_rvc_xlen rv_ext]. by rewrite <- !app_assoc.
    + eapply loads_then; [exact LS | apply writes_addi; done || lia | done |]. intros s H Hs Er. cbv beta.
      assert (Hxs : xlen s = 32 \/ xlen s = 64) by lia. apply (reg_eqw s _ _ Hxs) in Er. apply xl_eqw; [done|].
      rewrite Er, Hs, Ex. exact Eh.
    + intros G. rewrite !length_app, !parcel_len, (Ln G) by done. lia.
    + intros rd0 c0. by rewrite Lq.
Qed.

(** Twelve bits go at each level: the fuel of [rv_li] is enough for every 64-bit value. *)
Lemma li_total k v : (k <= 3)%nat -> is_s 64 v -> (xl = 32 -> is_s 32 v) -> - 2 ^ (27 + 12 * Z.of_nat k) <= v <= 2 ^ (27 + 12 * Z.of_nat k) ->
  li_leaves (S k) rd v xl c.
Proof using Hd Hx Hc.
  revert v. induction k as [|k IH]; intros v Hk Hv H32 Hb.
  all: destruct (decide (is_s 12 v)); [by apply li_small|]; destruct (decide (is_s 32 v)) as [|N]; [by apply li_medium|].
  - exfalso. apply N. unfold is_s. simpl in Hb. simpl. lia.
  - destruct Hx as [Ex|Ex]; [tauto|]. apply li_large; try done.
    destruct (li_hi_bound v (27 + 12 * Z.of_nat (S k)) ltac:(lia) Hv Hb) as (B1 & B2).
    apply IH; [lia | done | lia |]. replace (27 + 12 * Z.of_nat k) with (27 + 12 * Z.of_nat (S k) - 12) by lia. done.
Qed.
End Li.

Lemma narrow32_spec v : is_s 32 (narrow32 v) /\ eqw 32 (narrow32 v) v.
Proof.
  unfold narrow32. pose proof (uwrap_range 32 v ltac:(lia)) as R. unfold is_u in R.
  change 0x80000000 with (2 ^ 31). change 0x100000000 with (1 * 2 ^ 32).
  rewrite (land_top (u32 v) 31) by (simpl; lia). destruct (Z.ltb_spec (u32 v) (2 ^ 31));
    [change (negb (0 =? 0)) with false | change (negb (2 ^ 31 =? 0)) with true]; cbv iota.
  - split; [unfold is_s; simpl; lia | apply eqw_uwrap; lia].
  - split; [unfold is_s; simpl; lia |]. destruct (eqw_uwrap 32 v ltac:(lia)) as [k E]. exists (k - 1). lia.
Qed.

(** C10: [rv_li] never fails on a value its register holds, and the bytes it appends,
    compressed or not, executed by the simulated core from wherever they were placed,
    leave exactly that value in the register and change nothing else; without
    compression [rv_li_len] is their number. *)
Theorem rv_li_correct (rd v xl : Z) (c : emitter) : 0 < rd < 32 -> xl = 32 \/ xl = 64 -> for_core c xl -> is_s 64 v ->
  (xl = 32 -> - 2 ^ 31 <= v < 2 ^ 32) ->
  exists l, rv_li rd v xl c = Some ((), set_code c (code c ++ l)) /\ loads l rd (u64 v) xl /\
    (g_rvc c = false -> rv_li_len v xl = Some (Z.of_nat (length l))).
Proof.
  intros Hd Hx Hc Hv H32. destruct (narrow32_spec v) as (N1 & N2).
  set (v' := if xl =? 32 then narrow32 v else v).
  assert (Hv' : is_s 64 v') by (unfold v'; destruct (xl =? 32); [unfold is_s in *; lia | done]).
  assert (Hn : xl = 32 -> is_s 32 v') by (unfold v'; by intros ->).
  destruct (li_total rd xl c Hd Hx Hc 3 v' ltac:(lia) Hv' Hn) as (n & l & E & L & Ln & Lq);
    [unfold is_s in Hv'; lia|].
  assert (E' : rv_li rd v xl c = Some ((), set_code c (code c ++ l))).
  { unfold rv_li, v', LI_FUEL in *. destruct Hx as [->| ->]; cbn [Z.eqb Pos.eqb] in *.
    - specialize (H32 eq_refl). destruct (Z.ltb_spec v (-2147483648)), (Z.ltb_spec 4294967295 v); try lia. cbn [orb].
      unfold mbind, M_bind. by rewrite E.
    - unfold mbind, M_bind. by rewrite E. }
  exists l. split_and!; [done | | intros G; unfold rv_li_len; fold v'; unfold LI_FUEL; rewrite Lq; simpl; by rewrite (Ln G)].
  intros s H Hs HC Hp Hq. destruct (L s H Hs HC Hp Hq) as (m & s' & S & H' & [? ? ? ? ? ? Hr ?]).
  exists m, s'. split_and!; [done | done |]. constructor; try done. rewrite Hr. apply xl_eqw; [by rewrite Hs|].
  rewrite Hs. unfold v'. destruct Hx as [->| ->]; done.
Qed.
End Code.

(** The subtraction [li_emit] makes before its shift stays within 64 bits exactly for
    the values below 2^63 - 2048: at the top of the range it overflows. *)
Theorem li_emit_overflow (v : Z) : is_s 64 v -> is_s 64 (v - lo12_of v) <-> v < 2 ^ 63 - 2048.
Proof.
  intros Hv. destruct (lo12_spec v) as (Hl & E). unfold is_s in *. split; intros H.
  - destruct (Z.lt_ge_cases v (2 ^ 63 - 2048)) as [|G]; [done|]. assert (2 ^ 51 <= q12 v) by lia. lia.
  - assert (q12 v < 2 ^ 51) by lia. lia.
Qed.
Lemma li_emit_overflow_witness : ~ is_s 64 (2 ^ 63 - 1 - lo12_of (2 ^ 63 - 1)).
Proof. intros H%(li_emit_overflow (2 ^ 63 - 1) ltac:(unfold is_s; lia)). lia. Defined.

(** A 64-bit constant, built compressed. *)
Lemma rv_li_correct_witness : exists l,
  rv_li 10 0x123456789abcdef 64 (Emitter [0x13; 0; 0; 0] true 64 0) = Some ((), Emitter ([0x13; 0; 0; 0] ++ l) true 64 0) /\
  loads no_sys no_fp l 10 0x123456789abcdef 64.
Proof.
  destruct (rv_li_correct no_sys no_fp 10 0x123456789abcdef 64 (Emitter [0x13; 0; 0; 0] true 64 0))
    as (l & E & L & _); [lia | by right | done | unfold is_s; lia | done |].
  exists l. split; [exact E | exact L].
Defined.
