(* ===== verification/RvStream.v ===== *)
(** * The instruction stream

    Every emitter of [src/src/arch/riscv/emit.c] as one type of calls: what a call
    leaves in the buffer, whatever it emits. *)
From stdpp Require Import base numbers list option.
From Stdlib Require Import ZArith Lia.
From S2P Require Import Prelude RvEncode RvEmit RvCode.

Local Open Scope Z_scope.

Inductive rv_call :=
  | Call_cunimp | Call_czero (nez : bool) (rd rs1 rs2 : Z) | Call_mv (rd rs : Z) | Call_lui (rd hi : Z) | Call_auipc (rd hi : Z)
  | Call_li (rd v xlen : Z)
  | Call_alu (op : rv_alu_op) (rd rs1 rs2 : Z) (w : bool) | Call_alu_imm (op : rv_alu_op) (rd rs1 imm : Z) (w : bool)
  | Call_shift_imm (op : rv_alu_op) (rd rs1 amt : Z) (w : bool) (xlen : Z)
  | Call_muldiv (op : rv_muldiv_op) (rd rs1 rs2 : Z) (w : bool) | Call_fence (pred succ : Z)
  | Call_amo (op rd rs1 rs2 ord : Z) (w : bool)
  | Call_load (rd rs1 off size : Z) (sign : bool) (xlen : Z) | Call_store (rs2 rs1 off size xlen : Z)
  | Call_fp_r (f5 dbl rm rd rs1 rs2 : Z) | Call_fp_r4 (op dbl rm rd rs1 rs2 rs3 : Z) | Call_fload (frd rs1 off dbl : Z)
  | Call_fstore (frs2 rs1 off dbl : Z) | Call_farith (op frd frs1 frs2 dbl : Z) | Call_fsqrt (frd frs1 dbl : Z)
  | Call_fsgnj (kind frd frs1 frs2 dbl : Z) | Call_fcmp (kind rd frs1 frs2 dbl : Z) | Call_fcvt_to_int (rd frs1 ity dbl : Z)
  | Call_fcvt_from_int (frd rs1 ity dbl : Z) | Call_fcvt_fp (frd frs1 : Z) (to_dbl : bool) | Call_fmv_to_x (rd frs1 dbl : Z)
  | Call_fmv_from_x (frd rs1 dbl : Z)
  | Call_b (cond rs1 rs2 : Z) | Call_j (rd : Z) | Call_c | Call_jalr (rd rs1 off : Z) | Call_xret (supervisor : bool)
  | Call_got_pair (rd xlen : Z) | Call_pcrel_pair (rd : Z) | Call_call | Call_tail | Call_far (rd : Z) | Call_unimp | Call_ebreak
  | Call_zb_r (which : rv_zb_r_op) (rd rs1 rs2 : Z) | Call_zb_unary (which : rv_zb_unary_op) (rd rs : Z) (w32 : bool) (xlen : Z)
  | Call_zb_imm (which : rv_zb_imm_op) (rd rs amt : Z) (w32 : bool).

(** The offset a placeholder returns is where its instruction starts. *)
Definition at_of (m : M Z) : M (option Z) := a ← m; mret (Some a).
Definition only (m : M unit) : M (option Z) := _ ← m; mret None.

Definition emit_call (i : rv_call) : M (option Z) :=
  match i with
  | Call_cunimp => only rv_cunimp
  | Call_czero nez rd rs1 rs2 => only (rv_czero nez rd rs1 rs2)
  | Call_mv rd rs => only (rv_mv rd rs)
  | Call_lui rd hi => only (rv_lui rd hi)
  | Call_auipc rd hi => only (rv_auipc rd hi)
  | Call_li rd v xlen => only (rv_li rd v xlen)
  | Call_alu op rd rs1 rs2 w => only (rv_alu op rd rs1 rs2 w)
  | Call_alu_imm op rd rs1 imm w => only (rv_alu_imm op rd rs1 imm w)
  | Call_shift_imm op rd rs1 amt w xlen => only (rv_shift_imm op rd rs1 amt w xlen)
  | Call_muldiv op rd rs1 rs2 w => only (rv_muldiv op rd rs1 rs2 w)
  | Call_fence pred succ => only (rv_fence pred succ)
  | Call_amo op rd rs1 rs2 ord w => only (rv_amo op rd rs1 rs2 ord w)
  | Call_load rd rs1 off size sign xlen => only (rv_load rd rs1 off size sign xlen)
  | Call_store rs2 rs1 off size xlen => only (rv_store rs2 rs1 off size xlen)
  | Call_fp_r f5 dbl rm rd rs1 rs2 => only (rv_fp_r f5 dbl rm rd rs1 rs2)
  | Call_fp_r4 op dbl rm rd rs1 rs2 rs3 => only (rv_fp_r4 op dbl rm rd rs1 rs2 rs3)
  | Call_fload frd rs1 off dbl => only (rv_fload frd rs1 off dbl)
  | Call_fstore frs2 rs1 off dbl => only (rv_fstore frs2 rs1 off dbl)
  | Call_farith op frd frs1 frs2 dbl => only (rv_farith op frd frs1 frs2 dbl)
  | Call_fsqrt frd frs1 dbl => only (rv_fsqrt frd frs1 dbl)
  | Call_fsgnj kind frd frs1 frs2 dbl => only (rv_fsgnj kind frd frs1 frs2 dbl)
  | Call_fcmp kind rd frs1 frs2 dbl => only (rv_fcmp kind rd frs1 frs2 dbl)
  | Call_fcvt_to_int rd frs1 ity dbl => only (rv_fcvt_to_int rd frs1 ity dbl)
  | Call_fcvt_from_int frd rs1 ity dbl => only (rv_fcvt_from_int frd rs1 ity dbl)
  | Call_fcvt_fp frd frs1 to_dbl => only (rv_fcvt_fp frd frs1 to_dbl)
  | Call_fmv_to_x rd frs1 dbl => only (rv_fmv_to_x rd frs1 dbl)
  | Call_fmv_from_x frd rs1 dbl => only (rv_fmv_from_x frd rs1 dbl)
  | Call_b cond rs1 rs2 => at_of (rv_b_placeholder cond rs1 rs2)
  | Call_j rd => at_of (rv_j_placeholder rd)
  | Call_c => at_of rv_c_placeholder
  | Call_jalr rd rs1 off => only (rv_jalr rd rs1 off)
  | Call_xret supervisor => only (rv_xret supervisor)
  | Call_got_pair rd xlen => at_of (rv_got_pair rd xlen)
  | Call_pcrel_pair rd => at_of (rv_pcrel_pair rd)
  | Call_call => at_of rv_call_placeholder
  | Call_tail => at_of rv_tail_placeholder
  | Call_far rd => at_of (rv_far_placeholder rd)
  | Call_unimp => only rv_unimp
  | Call_ebreak => only rv_ebreak
  | Call_zb_r which rd rs1 rs2 => only (rv_zb_r which rd rs1 rs2)
  | Call_zb_unary which rd rs w32 xlen => only (rv_zb_unary which rd rs w32 xlen)
  | Call_zb_imm which rd rs amt w32 => only (rv_zb_imm which rd rs amt w32)
  end.

(** ** What every emitter does to the buffer *)

(** Whole halfwords of bytes after what was there, and nothing else. *)
Definition appends {A} (m : M A) : Prop := forall c a c', m c = Some (a, c') ->
  exists l, c' = set_code c (code c ++ l) /\ Forall (fun b => 0 <= b < 256) l /\ (length l mod 2 = 0)%nat.
Create HintDb stream.

Lemma ap_ret {A} (a : A) : appends (mret a).
Proof. intros c ? ? [= <- <-]. exists []. rewrite app_nil_r. split_and!; [by destruct c | constructor | done]. Qed.
Lemma ap_error {A} : appends (@error A).
Proof. done. Qed.
Lemma ap_lift {A} (o : option A) : appends (lift o).
Proof. intros c a c'. unfold lift. destruct o; [|done]. apply (ap_ret a0). Qed.
Lemma ap_here : appends here.
Proof. intros c a c' [= <- <-]. by apply (ap_ret (clen c) c (clen c)). Qed.
Lemma ap_bind {A B} (m : M A) (f : A -> M B) : appends m -> (forall a, appends (f a)) -> appends (m ≫= f).
Proof.
  intros Hm Hf c b c'. unfold mbind, M_bind. destruct (m c) as [[a c1]|] eqn:E; [|done]. intros E2.
  destruct (Hm c a c1 E) as (l1 & -> & B1 & L1). destruct (Hf a _ _ _ E2) as (l2 & -> & B2 & L2).
  exists (l1 ++ l2). split_and!; [by rewrite app_assoc | by apply Forall_app_2 |].
  rewrite length_app. rewrite Nat.Div0.add_mod, L1, L2. done.
Qed.
Lemma land_byte v : 0 <= Z.land v 0xff < 256.
Proof. pose proof (land_bound v 0xff ltac:(lia)). lia. Qed.
Lemma parcel_bytes c w : Forall (fun b => 0 <= b < 256) (parcel c w) /\ (length (parcel c w) mod 2 = 0)%nat /\ (0 < length (parcel c w))%nat.
Proof.
  unfold parcel, bytes4, bytes2. destruct (negb _); simpl; split_and!; try lia; repeat constructor; apply land_byte.
Qed.
Lemma ap_w w : appends (rv_w w).
Proof.
  intros c a c'. rewrite rv_w_emits. intros [= <- <-]. destruct (parcel_bytes c w) as (B & L & _). by exists (parcel c w).
Qed.
Lemma ap_wo o : appends (rv_wo o).
Proof. apply ap_bind; [apply ap_lift | apply ap_w]. Qed.
Lemma ap_u16 v : appends (code_u16 v).
Proof.
  intros c a c' [= <- <-]. eexists. split; [unfold set_code; cbn [code]; by rewrite <- app_assoc|].
  split; [|done]. rewrite !land_ff_twice. repeat constructor; apply land_byte.
Qed.
Lemma ap_if {A} (b : bool) (m1 m2 : M A) : appends m1 -> appends m2 -> appends (if b then m1 else m2).
Proof. by destruct b. Qed.
Lemma ap_uncompressed {A} (m : M A) : appends m -> appends (uncompressed m).
Proof.
  intros H c a c'. unfold uncompressed. destruct (m _) as [[b c1]|] eqn:E; [|done]. intros [= <- <-].
  destruct (H _ _ _ E) as (l & -> & B & L). by exists l.
Qed.
#[local] Hint Resolve ap_ret ap_error ap_lift ap_here ap_w ap_wo ap_u16 ap_if ap_uncompressed : stream.
#[local] Hint Extern 1 (appends (_ ≫= _)) => apply ap_bind; [|intros ?] : stream.
#[local] Hint Extern 1 (appends (when ?b _)) => destruct b; cbn [when] : stream.

Lemma ap_li fuel rd v xlen : appends (li_emit fuel rd v xlen true).
Proof.
  revert v. induction fuel as [|fuel IH]; intros v; [apply ap_error|]. cbn [li_emit]. cbv zeta. unfold when.
  repeat case_match; auto 8 with stream.
Qed.

Lemma ap_call i : appends (emit_call i).
Proof.
  destruct i; cbn [emit_call]; unfold only, at_of; (apply ap_bind; [|intros ?; apply ap_ret]).
  all: unfold rv_cunimp, rv_czero, rv_mv, rv_lui, rv_auipc, rv_li, rv_alu, rv_alu_imm, rv_shift_imm, rv_muldiv, rv_fence, rv_amo,
    rv_load, rv_store, rv_fp_r, rv_fp_r4, rv_fload, rv_fstore, rv_farith, rv_fsqrt, rv_fsgnj, rv_fcmp, rv_fcvt_to_int,
    rv_fcvt_from_int, rv_fcvt_fp, rv_fmv_to_x, rv_fmv_from_x, fp_r, rv_b_placeholder, rv_j_placeholder, rv_c_placeholder, rv_jalr,
    rv_xret, rv_got_pair, rv_pcrel_pair, rv_call_placeholder, rv_tail_placeholder, rv_far_placeholder, rv_unimp, rv_ebreak,
    rv_zb_r, rv_zb_unary, rv_zb_imm; cbv zeta.
  all: repeat case_match; auto 10 using ap_li with stream.
  all: apply ap_uncompressed; apply ap_bind; [apply ap_here|]; intros ?; apply ap_bind; [apply ap_wo|]; intros ?;
    (apply ap_bind; [|intros ?; apply ap_ret]); unfold rv_load, rv_alu_imm; auto with stream.
Qed.

(** A placeholder's result is where its instruction starts. *)
Definition starts (m : M Z) : Prop := forall c a c', m c = Some (a, c') -> a = clen c /\ clen c < clen c'.

Lemma clen_app c l : clen (set_code c (code c ++ l)) = clen c + Z.of_nat (length l).
Proof. unfold clen. cbn [code set_code]. rewrite length_app. lia. Qed.
Lemma st_placeholder {A} o (k : M A) : appends k -> starts (uncompressed (at_ ← here; _ ← rv_wo o; _ ← k; mret at_)).
Proof.
  intros Hk c a c'. unfold uncompressed, mbind, M_bind, here. set (c0 := rv_set_compress false (g_rvc_xlen c) c).
  change (clen c0) with (clen c). destruct o as [w|]; [|done]. rewrite (wo_emits _ w) by done. set (c1 := set_code c0 _).
  destruct (k c1) as [[b c2]|] eqn:E; [|done]. unfold mret, M_ret. intros [= <- <-].
  destruct (Hk _ _ _ E) as (l & -> & _). split; [done|]. destruct (parcel_bytes c0 w) as (_ & _ & L).
  change (clen c < clen (set_code c1 (code c1 ++ l))). rewrite clen_app. unfold c1. rewrite clen_app. change (clen c0) with (clen c). lia.
Qed.
Lemma st_one o : starts (uncompressed (at_ ← here; _ ← rv_wo o; mret at_)).
Proof. intros c a c' E. by apply (st_placeholder o (mret ()) (ap_ret ()) c a c'). Qed.
Lemma st_c : starts rv_c_placeholder.
Proof.
  intros c a c' [= <- <-]. split; [done|]. unfold clen. cbn [code set_code]. rewrite !length_app. simpl. lia.
Qed.

Lemma call_starts i c a c' : emit_call i c = Some (Some a, c') -> a = clen c /\ clen c < clen c'.
Proof.
  assert (N : forall m, only m c = Some (Some a, c') -> False).
  { intros m. unfold only, mbind, M_bind. by destruct (m c) as [[]|]. }
  assert (Y : forall m, starts m -> at_of m c = Some (Some a, c') -> a = clen c /\ clen c < clen c').
  { intros m Hm. unfold at_of, mbind, M_bind. destruct (m c) as [[b c1]|] eqn:E; [|done]. intros [= -> ->]. by apply Hm. }
  destruct i; cbn [emit_call]; intros E; try (by destruct (N _ E)); revert E; apply Y;
    first [apply st_c | apply st_one | idtac].
  all: apply st_placeholder; unfold rv_load, rv_alu_imm; auto 8 with stream.
Qed.

(** A sequence of calls, and the offsets it returned. *)
Fixpoint emit_all (l : list rv_call) : M (list Z) :=
  match l with
  | [] => mret []
  | i :: l => a ← emit_call i; r ← emit_all l; mret (match a with Some a => a :: r | None => r end)
  end.

(** The code buffer only grows: whatever sequence of emitters runs to its end, what
    was written before it is unchanged, the new code is whole halfwords of bytes, the
    compression switch and the extensions are as before, and every offset returned for
    a later patch is an instruction's start within the new code, each after the last. *)
Theorem stream_appends (l : list rv_call) (c c' : emitter) (ats : list Z) : emit_all l c = Some (ats, c') ->
  exists new, c' = set_code c (code c ++ new) /\ Forall (fun b => 0 <= b < 256) new /\ (length new mod 2 = 0)%nat /\
    Forall (fun a => clen c <= a < clen c' /\ (a - clen c) mod 2 = 0) ats /\
    (forall i j a b, ats !! i = Some a -> ats !! j = Some b -> (i < j)%nat -> a < b).
Proof.
  revert c ats. induction l as [|i l IH]; intros c ats; cbn [emit_all].
  - intros [= <- <-]. exists []. rewrite app_nil_r. split_and!; try constructor; try done. by destruct c.
  - unfold mbind, M_bind. destruct (emit_call i c) as [[oa c1]|] eqn:E1; [|done].
    destruct (emit_all l c1) as [[r c2]|] eqn:E2; [|done]. intros [= <- <-].
    destruct (ap_call i c oa c1 E1) as (n1 & E & B1 & L1). destruct (IH c1 r E2) as (n2 & Ec & B2 & L2 & F2 & O2).
    assert (K : clen c1 = clen c + Z.of_nat (length n1)) by (rewrite E; apply clen_app).
    assert (K2 : clen c2 = clen c1 + Z.of_nat (length n2)) by (rewrite Ec; apply clen_app).
    assert (M1 : Z.of_nat (length n1) mod 2 = 0) by (rewrite <- (Nat2Z.inj_mod _ 2), L1; done).
    assert (F2' : Forall (fun a => clen c <= a < clen c2 /\ (a - clen c) mod 2 = 0) r).
    { eapply Forall_impl; [|exact F2]. intros a (Ha & He). split; [lia|].
      replace (a - clen c) with (a - clen c1 + Z.of_nat (length n1)) by lia. by rewrite Z.add_mod, He, M1 by lia. }
    exists (n1 ++ n2). split_and!.
    + rewrite Ec, E. unfold set_code. cbn [code g_rvc g_rvc_xlen rv_ext]. by rewrite app_assoc.
    + by apply Forall_app_2.
    + rewrite length_app, Nat.Div0.add_mod, L1, L2. done.
    + destruct oa as [a|]; [|done]. destruct (call_starts i c a c1 E1) as (-> & G). constructor; [|done].
      split; [lia|]. by rewrite Z.sub_diag.
    + destruct oa as [a|]; [|done]. destruct (call_starts i c a c1 E1) as (-> & G).
      intros [|p] [|q] a b Ha Hb Hlt; try lia; cbn in Ha, Hb; [|apply (O2 p q a b); [done | done | lia]].
      injection Ha as <-. pose proof (proj1 (Forall_lookup _ _) F2 q b Hb) as (Q & _). cbv beta in Q. lia.
Qed.

Lemma stream_appends_witness : exists ats c' new,
  emit_all [Call_li 10 0x12345678 64; Call_b 0 10 11; Call_fload 8 2 16 1; Call_call] (Emitter [1; 0] true 64 0) = Some (ats, c') /\
  code c' = [1; 0] ++ new /\ length ats = 2%nat.
Proof.
  destruct (emit_all [Call_li 10 0x12345678 64; Call_b 0 10 11; Call_fload 8 2 16 1; Call_call] (Emitter [1; 0] true 64 0))
    as [[ats c']|] eqn:E; [|vm_compute in E; discriminate].
  destruct (stream_appends _ _ _ _ E) as (new & Ec & _). exists ats, c', new. split_and!; [done | by rewrite Ec |].
  vm_compute in E. by injection E as <- _.
Defined.
