(* ===== verification/RvArith.v ===== *)
(** * Register arithmetic, from the emitter to its result

    What the ten ALU operations and the eight of the M extension compute, as integer
    arithmetic at a width, and that the instruction the emitter writes for each,
    compressed or not, makes the simulated core compute exactly that. *)
From stdpp Require Import base numbers list option.
From Stdlib Require Import ZArith Lia.
From S2P Require Import Prelude RtInt128 Bus RvEncode RvExpand RvLayouts RvCompress RvSim RvExec RvEmit RvCode.

Local Open Scope Z_scope.

(** ** The operations, on [n]-bit unsigned operands *)

Definition alu_result (n : Z) (op : rv_alu_op) (a b : Z) : Z :=
  match op with
  | RV_ADD => a + b
  | RV_SUB => a - b
  | RV_SLL => a * 2 ^ (b mod n)
  | RV_SLT => b2z (swrap n a <? swrap n b)
  | RV_SLTU => b2z (a <? b)
  | RV_XOR => Z.lxor a b
  | RV_SRL => a / 2 ^ (b mod n)
  | RV_SRA => swrap n a / 2 ^ (b mod n)
  | RV_OR => Z.lor a b
  | RV_AND => Z.land a b
  end.

(** Division by zero gives all ones and leaves the dividend; the one quotient that
    does not fit wraps. *)
Definition muldiv_result (n : Z) (op : rv_muldiv_op) (a b : Z) : Z :=
  let sa := swrap n a in let sb := swrap n b in
  match op with
  | RV_MUL => a * b
  | RV_MULH => sa * sb / 2 ^ n
  | RV_MULHSU => sa * b / 2 ^ n
  | RV_MULHU => a * b / 2 ^ n
  | RV_DIV => if b =? 0 then -1 else Z.quot sa sb
  | RV_DIVU => if b =? 0 then -1 else a / b
  | RV_REM => if b =? 0 then a else Z.rem sa sb
  | RV_REMU => if b =? 0 then a else a mod b
  end.

(** ** The multiplier and the divider *)

Lemma mulhu64_spec a b : is_u 64 a -> is_u 64 b -> mulhu64 a b = a * b / 2 ^ 64.
Proof.
  intros Ha Hb. assert (E : mulhu64 a b = (rt_mul64 a b).1).
  { unfold mulhu64, rt_mul64. cbn [fst]. change 0xFFFFFFFF with (2 ^ 32 - 1). rewrite !land_ones_mod by lia.
    assert (Em : forall p q r, u64 (u64 (p + q) + r) = u64 (p + q + r))
      by (intros; apply uwrap_proper; by rewrite (eqw_uwrap 64) by lia).
    by rewrite Em. }
  rewrite E. pose proof (rt_mul64_law a b Ha Hb) as L. destruct (rt_mul64 a b) as [hi lo]. destruct L as (Hh & Hl & L).
  cbn [fst]. unfold is_u, mk in *. apply Z.div_unique with lo; lia.
Qed.

Lemma swrap_cases n a : 0 < n -> is_u n a -> swrap n a = a /\ 0 <= swrap n a \/ swrap n a = a - 2 ^ n /\ swrap n a < 0.
Proof.
  intros Hn Ha. rewrite swrap_of_u by done. unfold is_u in Ha. pose proof (pow2_half n Hn).
  destruct (Z.ltb_spec a (2 ^ (n - 1))); lia.
Qed.

Definition muldiv_of (f3 : Z) : rv_muldiv_op :=
  match f3 with
  | 0 => RV_MUL | 1 => RV_MULH | 2 => RV_MULHSU | 3 => RV_MULHU | 4 => RV_DIV | 5 => RV_DIVU | 6 => RV_REM | _ => RV_REMU
  end.
Lemma muldiv_of_f3 op : muldiv_of (muldiv_f3 op) = op.
Proof. by destruct op. Qed.

Lemma mulh_spec xl op a b : xl = 32 \/ xl = 64 -> is_mulh op = true -> is_u xl a -> is_u xl b ->
  eqw xl (mulh xl (muldiv_f3 op) a b) (muldiv_result xl op a b).
Proof.
  intros [->| ->] Hm Ha Hb; pose proof (swrap_range 32 a ltac:(lia)) as S1; pose proof (swrap_range 32 b ltac:(lia)) as S2;
    unfold is_s, is_u in *.
  - unfold mulh. change (32 =? 32) with true. cbv iota zeta. rewrite (u32_id a), (u32_id b) by lia.
    destruct op; try done; cbn [muldiv_f3 muldiv_result]; cbn [Z.eqb Pos.eqb]; cbv iota; rewrite Z.shiftr_div_pow2 by lia.
    + rewrite s64_id by nia. apply (eqw_weaken 64); [lia | apply eqw_uwrap; lia].
    + rewrite s64_id by nia. apply (eqw_weaken 64); [lia | apply eqw_uwrap; lia].
    + rewrite u64_id by nia. reflexivity.
  - unfold mulh. change (64 =? 32) with false. cbv iota zeta. rewrite mulhu64_spec by done.
    destruct (swrap_cases 64 a ltac:(lia) Ha) as [[Ea La]|[Ea La]], (swrap_cases 64 b ltac:(lia) Hb) as [[Eb Lb]|[Eb Lb]];
      destruct op; try done; cbn [muldiv_f3 muldiv_result]; cbn [Z.eqb Pos.eqb orb andb];
      rewrite ?(proj2 (Z.ltb_lt (s64 a) 0) La), ?(proj2 (Z.ltb_ge (s64 a) 0) La),
        ?(proj2 (Z.ltb_lt (s64 b) 0) Lb), ?(proj2 (Z.ltb_ge (s64 b) 0) Lb); rewrite ?Ea, ?Eb; cbv iota;
      rewrite ?(eqw_uwrap 64) by lia.
    all: try reflexivity.
    + replace (a * (b - 2 ^ 64)) with (a * b + (- a) * 2 ^ 64) by lia. rewrite Z.div_add by lia. exists 0. lia.
    + replace ((a - 2 ^ 64) * b) with (a * b + (- b) * 2 ^ 64) by lia. rewrite Z.div_add by lia. exists 0. lia.
    + replace ((a - 2 ^ 64) * b) with (a * b + (- b) * 2 ^ 64) by lia. rewrite Z.div_add by lia. exists 0. lia.
    + replace ((a - 2 ^ 64) * (b - 2 ^ 64)) with (a * b + (2 ^ 64 - a - b) * 2 ^ 64) by lia. rewrite Z.div_add by lia.
      exists (-1). lia.
    + replace ((a - 2 ^ 64) * b) with (a * b + (- b) * 2 ^ 64) by lia. rewrite Z.div_add by lia. exists 0. lia.
Qed.

Lemma land_width n a : n = 32 \/ n = 64 -> Z.land a (if n =? 32 then 0xffffffff else 2 ^ 64 - 1) = uwrap n a.
Proof.
  intros [->| ->]; [change (32 =? 32) with true; change 0xffffffff with (2 ^ 32 - 1) | change (64 =? 32) with false];
    cbv iota; by rewrite land_ones_mod by lia.
Qed.

(** [divrem] at a width, from wider operands. *)
Lemma divrem_spec n op a b : n = 32 \/ n = 64 -> 4 <= muldiv_f3 op ->
  eqw n (divrem (muldiv_f3 op) a b n) (muldiv_result n op (uwrap n a) (uwrap n b)).
Proof.
  intros Hn Hf. unfold divrem. rewrite !land_width by done.
  assert (Es : forall v, (if n =? 32 then s32 v else s64 v) = swrap n v) by (intros v; by destruct Hn as [->| ->]).
  rewrite !Es. set (smin := if n =? 32 then _ else _).
  assert (W : forall v, eqw n (u64 v) v).
  { intros v. destruct Hn as [->| ->]; [apply (eqw_weaken 64)|]; try (apply eqw_uwrap); lia. }
  assert (Z0 : (swrap n b =? 0) = (uwrap n b =? 0)).
  { apply eq_true_iff_eq. rewrite !Z.eqb_eq. assert (Hp : 0 < n) by lia. split; intros E.
    - rewrite <- (uwrap_swrap n b Hp), E. apply uwrap_small. unfold is_u. pose proof (pow2_pos n). lia.
    - rewrite <- (swrap_uwrap n b Hp), E. apply swrap_small; [done|]. unfold is_s. pose proof (pow2_pos (n - 1)). lia. }
  assert (M1 : eqw n (2 ^ 64 - 1) (-1)) by (destruct Hn as [->| ->]; [exists (2 ^ 32) | exists 1]; reflexivity).
  assert (Ov : swrap n a = smin -> eqw n smin (- smin)).
  { intros _. unfold smin. destruct Hn as [->| ->]; exists (-1); reflexivity. }
  destruct op; cbn [muldiv_f3] in Hf; try lia; cbn [muldiv_f3 muldiv_result]; rewrite ?Z0, ?swrap_uwrap by lia.
  - destruct (uwrap n b =? 0); [done|]. destruct (Z.eqb_spec (swrap n a) smin) as [Ea|], (Z.eqb_spec (swrap n b) (-1)) as [Eb|];
      cbn [andb]; try apply W. rewrite W, Ea, Eb. change (-1) with (- (1)). rewrite Z.quot_opp_r, Z.quot_1_r by lia. by apply Ov.
  - destruct (uwrap n b =? 0); done.
  - destruct (uwrap n b =? 0).
    + rewrite W. rewrite (eqw_swrap n a), (eqw_uwrap n a) by lia. done.
    + destruct (Z.eqb_spec (swrap n a) smin), (Z.eqb_spec (swrap n b) (-1)) as [Eb|]; cbn [andb]; try apply W.
      rewrite Eb. change (-1) with (- (1)). rewrite Z.rem_opp_r, Z.rem_1_r by lia. done.
  - destruct (uwrap n b =? 0); [|done]. cbn [negb]. rewrite W, (eqw_swrap n a), (eqw_uwrap n a) by lia. done.
Qed.

(** ** One instruction of each *)

Section Arith.
Context {W C : Type}.
Implicit Types s : rv_state W C.
Context (sys_insn : Z -> Z -> Z -> rv_state W C -> rv_state W C).
Context (rv_fp_exec : Z -> rv_state W C -> rv_state W C * bool).
Local Abbreviation exec := (exec32 sys_insn rv_fp_exec).

(** A result at the width of the operation, as a register holds it. *)
Lemma put_eqw s rd v r : rv_ok s -> is_u 64 v -> eqw (xlen s) v r -> rv_wx rd v s = rv_wx rd (u64 (swrap (xlen s) r)) s.
Proof.
  intros H Hv E. assert (Ex : rv_xl s v = rv_xl s (u64 (swrap (xlen s) r))).
  { pose proof (ok_xlen s H) as Hx. rewrite <- (u64_id v) by done. apply xl_eqw; [done|].
    rewrite E. symmetry. apply eqw_swrap. lia. }
  unfold rv_wx. by rewrite Ex.
Qed.

Lemma mask_mod n b : n = 32 \/ n = 64 -> Z.land b (if n =? 64 then 63 else 31) = b mod n.
Proof. intros [->| ->]; [exact (land_ones_mod b 5 ltac:(lia)) | exact (land_ones_mod b 6 ltac:(lia))]. Qed.
Lemma reg_at s r : rv_ok s -> uwrap (xlen s) (x s r) = x s r.
Proof. intros H. apply uwrap_small. apply (ok_regs s H r). Qed.
Lemma rv_sx_swrap s v : rv_ok s -> rv_sx s v = swrap (xlen s) v.
Proof. intros H. unfold rv_sx. by destruct (ok_xlen s H) as [->| ->]. Qed.

Lemma op_reg_alu s rd op a b : rv_ok s -> is_u (xlen s) a -> is_u (xlen s) b ->
  op_reg rd (alu_enc op).1 (if (alu_enc op).2 then 0x20 else 0) a b s
  = rv_wx rd (u64 (swrap (xlen s) (alu_result (xlen s) op a b))) s.
Proof.
  intros H Ha Hb. pose proof (ok_xlen s H) as Hx. set (n := xlen s) in *.
  assert (Hu : forall v, is_u n v -> is_u 64 v) by (intros v; unfold is_u; destruct Hx as [->| ->]; lia).
  assert (W64 : forall v, eqw n (u64 v) v).
  { intros v. destruct Hx as [->| ->]; [apply (eqw_weaken 64)|]; try (apply eqw_uwrap); lia. }
  assert (Hb2 : forall b, is_u 64 (b2z b)) by (intros []; unfold is_u; simpl; lia).
  pose proof (Z.mod_pos_bound b n ltac:(lia)) as Rm.
  unfold op_reg. fold n. destruct op; cbn [alu_enc fst snd]; cbn [Z.eqb Pos.eqb andb negb alu_result]; cbv iota zeta;
    rewrite ?mask_mod, ?rv_sx_swrap, ?Z.shiftl_mul_pow2, ?Z.shiftr_div_pow2 by (done || lia); fold n;
    (apply put_eqw; [done | first [apply u64_u | apply Hb2 | idtac] | first [apply W64 | reflexivity]]).
  - apply lxor_u; auto.
  - specialize (Hu a Ha). unfold is_u in *. pose proof (pow2_pos (b mod n)). split; [apply Z.div_pos; lia|].
    apply Z.div_lt_upper_bound; nia.
  - apply lor_is_u; auto; lia.
  - specialize (Hu b Hb). unfold is_u in *. pose proof (land_bound a b ltac:(lia)). lia.
Qed.

Lemma op_reg_muldiv s rd op a b : rv_ok s -> is_u (xlen s) a -> is_u (xlen s) b ->
  op_reg rd (muldiv_f3 op) 1 a b s = rv_wx rd (u64 (swrap (xlen s) (muldiv_result (xlen s) op a b))) s.
Proof.
  intros H Ha Hb. pose proof (ok_xlen s H) as Hx. unfold op_reg. change (1 =? 1) with true. cbv iota.
  assert (Hu : forall v, is_u (xlen s) v -> is_u 64 v) by (intros v; unfold is_u; destruct Hx as [->| ->]; lia).
  destruct (Z.eqb_spec (muldiv_f3 op) 0) as [E0|N0]; [|destruct (Z.ltb_spec (muldiv_f3 op) 4)].
  - destruct op; try done. cbn [muldiv_result]. apply put_eqw; [done | apply u64_u |].
    destruct Hx as [->| ->]; [apply (eqw_weaken 64)|]; try (apply eqw_uwrap); lia.
  - apply put_eqw; [done | apply mulh_u; auto |]. apply mulh_spec; auto. destruct op; simpl in *; done || lia.
  - apply put_eqw; [done | apply divrem_u; auto |].
    rewrite <- (uwrap_small (xlen s) a Ha), <- (uwrap_small (xlen s) b Hb) at 2. by apply divrem_spec.
Qed.

(** The word forms. *)
Lemma sext32_eqw v r : eqw 32 v r -> sext32 v = u64 (swrap 32 r).
Proof. intros E. unfold sext32. f_equal. by apply swrap_proper. Qed.
Lemma eqw32_u64 v : eqw 32 (u64 v) v.
Proof. apply (eqw_weaken 64); [lia | apply eqw_uwrap; lia]. Qed.

Lemma op_w_alu s i rd op a b : rv_ok s -> xlen s = 64 -> has_word_form op = true ->
  op_w i rd (alu_enc op).1 (if (alu_enc op).2 then 0x20 else 0) a b false s
  = rv_wx rd (u64 (swrap 32 (alu_result 32 op (u32 a) (u32 b)))) s.
Proof.
  intros H Hx Hw. unfold op_w. rewrite Hx. change (64 =? 64) with true. cbn [negb].
  assert (E31 : Z.land (u32 b) 31 = u32 b mod 32) by exact (land_ones_mod (u32 b) 5 ltac:(lia)).
  pose proof (Z.mod_pos_bound (u32 b) 32 ltac:(lia)) as Rm.
  destruct op; try done; cbn [alu_enc fst snd]; cbn [Z.eqb Pos.eqb andb alu_result]; cbv iota zeta; rewrite ?E31; f_equal;
    rewrite ?Z.shiftl_mul_pow2, ?Z.shiftr_div_pow2 by lia.
  - apply sext32_eqw. by rewrite eqw32_u64, !(eqw_uwrap 32) by lia.
  - apply sext32_eqw. by rewrite eqw32_u64, !(eqw_uwrap 32) by lia.
  - apply sext32_eqw. apply eqw_uwrap. lia.
  - by apply sext32_eqw.
  - f_equal. rewrite swrap_uwrap by lia. symmetry. apply swrap_small; [lia|].
    pose proof (swrap_range 32 a ltac:(lia)) as R. unfold is_s in *. pose proof (pow2_pos (u32 b mod 32) ltac:(lia)) as P.
    split; [apply Z.div_le_lower_bound; [lia|] | apply Z.div_lt_upper_bound; [lia|]]; nia.
Qed.

Lemma op_w_muldiv s i rd op a b : rv_ok s -> xlen s = 64 -> is_mulh op = false ->
  op_w i rd (muldiv_f3 op) 1 a b false s = rv_wx rd (u64 (swrap 32 (muldiv_result 32 op (u32 a) (u32 b)))) s.
Proof.
  intros H Hx Hm. unfold op_w. rewrite Hx. change (64 =? 64) with true. change (1 =? 1) with true. cbn [negb]. cbv iota zeta.
  destruct op; try done; cbn [muldiv_f3]; cbn [Z.eqb Pos.eqb]; cbv iota; f_equal; apply sext32_eqw.
  1: apply eqw_uwrap; lia.
  1: apply (divrem_spec 32 RV_DIV). 3: apply (divrem_spec 32 RV_DIVU). 5: apply (divrem_spec 32 RV_REM).
  7: apply (divrem_spec 32 RV_REMU). all: by left || (simpl; lia).
Qed.

(** ** What the emitter writes *)

Definition opcode (w : bool) : Z := if w then 0x3b else 0x33.
Definition op_width (w : bool) (xl : Z) : Z := if w then 32 else xl.

(** A two-register instruction, and the register function it is. *)
Lemma writes_reg (w : bool) xl rd f3 rs1 rs2 f7 (f : (Z -> Z) -> Z) : 0 < rd < 32 -> 0 <= f3 < 8 -> 0 <= rs1 < 32 -> 0 <= rs2 < 32 -> 0 <= f7 < 128 ->
  (forall g, is_u 64 (f g)) ->
  (forall i s, rv_ok s -> xlen s = xl ->
     (if w then op_w i rd f3 f7 (x s rs1) (x s rs2) false s else op_reg rd f3 f7 (x s rs1) (x s rs2) s) = rv_wx rd (f (x s)) s) ->
  writes sys_insn rv_fp_exec (iword (opcode w) rd f3 rs1 (rs2 + 2 ^ 5 * f7)) xl rd f.
Proof.
  intros Hd H3 H1 H2 H7 Hf He. assert (Ho : 0 <= opcode w < 128) by (destruct w; simpl; lia).
  pose proof (iword_fields (opcode w) rd f3 rs1 rs2 f7 Ho ltac:(lia) H3 H1 H2 H7) as F. cbv zeta in F.
  set (i := iword _ _ _ _ _) in *. destruct F as (U & F1 & F2 & F3 & F4 & F5 & F6 & F7).
  constructor; try done.
  - change (Z.land i (2 ^ 2 - 1) = 3). rewrite land_ones_mod by lia. unfold i, iword.
    replace (opcode w + 2 ^ 7 * rd + 2 ^ 12 * f3 + 2 ^ 15 * rs1 + 2 ^ 20 * (rs2 + 2 ^ 5 * f7))
      with (opcode w + (2 ^ 5 * rd + 2 ^ 10 * f3 + 2 ^ 13 * rs1 + 2 ^ 18 * (rs2 + 2 ^ 5 * f7)) * 2 ^ 2) by lia.
    rewrite Z.mod_add by lia. by destruct w.
  - intros _ Hop. rewrite F1 in Hop. by destruct w.
  - intros s H Hx. split; [|apply Hf]. rewrite <- (He i s H Hx). destruct w.
    + rewrite exec_op32 by done. by rewrite F2, F3, F4, F5, F6.
    + rewrite exec_op_reg by done. by rewrite F2, F3, F4, F5, F6.
Qed.

(** The bytes are one instruction that puts a function of the registers in [rd]. *)
Definition computes (l : list Z) (rd : Z) (f : (Z -> Z) -> Z) (xl : Z) : Prop := forall s, rv_ok s -> xlen s = xl ->
  code_in s (pc s) l -> 0 <= pc s -> pc s + Z.of_nat (length l) < 2 ^ 32 ->
  exists s', step sys_insn rv_fp_exec s = Next s' /\ rv_ok s' /\ wrote rd (f (x s)) (length l) s s'.

Lemma reg_emitted w xl rd f3 rs1 rs2 f7 f c : 0 <= rd < 32 -> 0 <= f3 < 8 -> 0 <= rs1 < 32 -> 0 <= rs2 < 32 -> 0 <= f7 < 128 ->
  for_core c xl -> writes sys_insn rv_fp_exec (iword (opcode w) rd f3 rs1 (rs2 + 2 ^ 5 * f7)) xl rd f ->
  exists l, rv_wo (rv_enc_r (if w then OP_OP32 else OP_OP) rd f3 rs1 rs2 f7) c = Some ((), set_code c (code c ++ l)) /\
    computes l rd f xl.
Proof.
  intros Hd H3 H1 H2 H7 Hc HW. exists (parcel c (iword (opcode w) rd f3 rs1 (rs2 + 2 ^ 5 * f7))). split.
  - apply wo_emits. destruct w; apply enc_r_word; done || (unfold OP_OP, OP_OP32; lia).
  - intros s H Hx HC Hp Hq. by apply (step_parcel sys_insn rv_fp_exec c _ xl).
Qed.

(** C20: [rv_alu] writes one instruction, compressed or not, that makes the core put the
    operation's result at its width in the destination and change nothing else; it
    refuses a 32-bit form that does not exist. *)
Theorem rv_alu_correct (op : rv_alu_op) (rd rs1 rs2 : Z) (w : bool) (xl : Z) (c : emitter) :
  0 < rd < 32 -> 0 <= rs1 < 32 -> 0 <= rs2 < 32 -> xl = 32 \/ xl = 64 -> for_core c xl -> (w = true -> xl = 64) ->
  if w && negb (has_word_form op) then rv_alu op rd rs1 rs2 w c = None
  else exists l, rv_alu op rd rs1 rs2 w c = Some ((), set_code c (code c ++ l)) /\
    let n := op_width w xl in
    computes l rd (fun x => u64 (swrap n (alu_result n op (uwrap n (x rs1)) (uwrap n (x rs2))))) xl.
Proof.
  intros Hd H1 H2 Hx Hc Hw. unfold rv_alu. destruct (w && negb (has_word_form op)) eqn:E; [done|].
  apply reg_emitted; try done; [lia | destruct op; simpl; lia | destruct op; simpl; lia |].
  apply writes_reg; try done; [destruct op; simpl; lia | destruct op; simpl; lia | intros; apply u64_u |].
  intros i s H Hs. destruct w; unfold op_width.
  - apply op_w_alu; [done | rewrite Hs; by apply Hw | by apply negb_false_iff in E].
  - rewrite <- Hs, !reg_at by done. apply op_reg_alu; [done | apply (ok_regs s H) | apply (ok_regs s H)].
Qed.

(** C21: [rv_muldiv] writes one instruction that makes the core put the exact result of
    the M extension in the destination (high halves by sign, division by zero and the
    overflowing quotient included) and change nothing else; it refuses a 32-bit high
    multiply. *)
Theorem rv_muldiv_correct (op : rv_muldiv_op) (rd rs1 rs2 : Z) (w : bool) (xl : Z) (c : emitter) :
  0 < rd < 32 -> 0 <= rs1 < 32 -> 0 <= rs2 < 32 -> xl = 32 \/ xl = 64 -> for_core c xl -> (w = true -> xl = 64) ->
  if w && is_mulh op then rv_muldiv op rd rs1 rs2 w c = None
  else exists l, rv_muldiv op rd rs1 rs2 w c = Some ((), set_code c (code c ++ l)) /\
    let n := op_width w xl in
    computes l rd (fun x => u64 (swrap n (muldiv_result n op (uwrap n (x rs1)) (uwrap n (x rs2))))) xl.
Proof.
  intros Hd H1 H2 Hx Hc Hw. unfold rv_muldiv. destruct (w && is_mulh op) eqn:E; [done|].
  apply reg_emitted; try done; [lia | destruct op; simpl; lia |].
  apply writes_reg; try done; [destruct op; simpl; lia | intros; apply u64_u |].
  intros i s H Hs. destruct w; unfold op_width.
  - apply op_w_muldiv; [done | rewrite Hs; by apply Hw | done].
  - rewrite <- Hs, !reg_at by done. apply op_reg_muldiv; [done | apply (ok_regs s H) | apply (ok_regs s H)].
Qed.
End Arith.

(** A compressed subtraction, and a 32-bit remainder. *)
Lemma rv_alu_correct_witness : exists l,
  rv_alu RV_SUB 8 8 9 false (Emitter [] true 64 0) = Some ((), Emitter l true 64 0) /\ length l = 2%nat /\
  computes no_sys no_fp l 8 (fun x => u64 (swrap 64 (uwrap 64 (x 8) - uwrap 64 (x 9)))) 64.
Proof.
  destruct (rv_alu_correct no_sys no_fp RV_SUB 8 8 9 false 64 (Emitter [] true 64 0)) as (l & E & L); try done; try lia.
  exists l. split_and!; [exact E | | exact L]. vm_compute in E. by injection E as <-.
Defined.

Lemma rv_muldiv_correct_witness : exists l,
  rv_muldiv RV_REM 10 11 12 true (Emitter [] true 64 0) = Some ((), Emitter l true 64 0) /\
  computes no_sys no_fp l 10 (fun x => u64 (swrap 32 (muldiv_result 32 RV_REM (u32 (x 11)) (u32 (x 12))))) 64.
Proof.
  destruct (rv_muldiv_correct no_sys no_fp RV_REM 10 11 12 true 64 (Emitter [] true 64 0)) as (l & E & L); try done; try lia.
  exists l. split; [exact E | exact L].
Defined.
