(* ===== verification/RvPatch.v ===== *)
(** * Branches and jumps, patched

    A branch or jump is written with no displacement and patched when its target is
    known. Here: the words the patches leave, and that the simulated core, executing
    them, goes to the target. *)
From stdpp Require Import base numbers list option.
From Stdlib Require Import ZArith Lia Btauto.
From S2P Require Import Prelude Bus RvEncode RvExpand RvLayouts RvCompress RvSim RvExec RvEmit RvCode.

Local Open Scope Z_scope.

(** ** Bits under a shifted mask *)

Lemma land_shifted v m k : 0 <= k -> Z.land v (Z.shiftl m k) = Z.shiftl (Z.land (Z.shiftr v k) m) k.
Proof.
  intros Hk. apply Z.bits_inj'. intros j Hj. rewrite Z.land_spec, !Z.shiftl_spec, Z.land_spec by lia.
  destruct (Z.ltb_spec j k); [rewrite !(Z.testbit_neg_r _ (j - k)) by lia; apply andb_false_r|].
  rewrite Z.shiftr_spec by lia. by replace (j - k + k) with j by lia.
Qed.

Lemma lor4_swap a b c d e f g h : Z.lor (Z.lor (Z.lor (Z.lor (Z.lor (Z.lor (Z.lor a b) c) d) e) f) g) h
  = Z.lor (Z.lor (Z.lor (Z.lor (Z.lor (Z.lor (Z.lor a e) f) b) c) d) g) h.
Proof. apply Z.bits_inj'. intros j _. rewrite !Z.lor_spec. btauto. Qed.

(** ** The displacement of a branch, over the fields [rd] and [f7] *)

Definition brd (off : Z) : Z := (off / 2 ^ 11) mod 2 + 2 * ((off / 2) mod 2 ^ 4).
Definition bf7 (off : Z) : Z := (off / 2 ^ 5) mod 2 ^ 6 + 2 ^ 6 * ((off / 2 ^ 12) mod 2).
Lemma brd_range off : 0 <= brd off < 32.
Proof. unfold brd. pose proof (Z.mod_pos_bound (off / 2 ^ 11) 2). pose proof (Z.mod_pos_bound (off / 2) (2 ^ 4)). lia. Qed.
Lemma bf7_range off : 0 <= bf7 off < 128.
Proof. unfold bf7. pose proof (Z.mod_pos_bound (off / 2 ^ 5) (2 ^ 6)). pose proof (Z.mod_pos_bound (off / 2 ^ 12) 2). lia. Qed.

Definition bword (op f3 rs1 rs2 off : Z) : Z := iword op (brd off) f3 rs1 (rs2 + 2 ^ 5 * bf7 off).

(** A field of the displacement, from its 64-bit image. *)
Lemma u64_field off k m : 0 <= k -> 0 <= m -> k + m <= 64 -> Z.land (Z.shiftr (u64 off) k) (2 ^ m - 1) = (off / 2 ^ k) mod 2 ^ m.
Proof.
  intros Hk Hm Hs. rewrite land_ones_mod, Z.shiftr_div_pow2 by lia. unfold uwrap.
  replace (2 ^ 64) with (2 ^ k * 2 ^ (64 - k)) by (rewrite <- Z.pow_add_r by lia; f_equal; lia).
  pose proof (pow2_pos k Hk). pose proof (pow2_pos (64 - k)).
  rewrite Z.rem_mul_r, Z.mul_comm, Z.div_add, (Z.div_small (off mod 2 ^ k)), Z.add_0_l by (pose proof (Z.mod_pos_bound off (2 ^ k)); lia).
  replace (2 ^ (64 - k)) with (2 ^ m * 2 ^ (64 - k - m)) by (rewrite <- Z.pow_add_r by lia; f_equal; lia).
  pose proof (pow2_pos m Hm). pose proof (pow2_pos (64 - k - m)).
  rewrite Z.rem_mul_r, Z.mul_comm, Z.mod_add, Z.mod_mod by lia. done.
Qed.

Definition reaches_b (off : Z) : Prop := is_s 13 off /\ Z.land off 1 = 0.
#[export] Instance reaches_b_dec off : Decision (reaches_b off).
Proof. unfold reaches_b, is_s. apply _. Defined.
Lemma enc_b_word op f3 rs1 rs2 off : 0 <= op < 128 -> 0 <= f3 < 8 -> 0 <= rs1 < 32 -> 0 <= rs2 < 32 -> reaches_b off ->
  rv_enc_b op f3 rs1 rs2 off = Some (bword op f3 rs1 rs2 off).
Proof.
  intros H1 H2 H3 H4 (Hs & He). unfold rv_enc_b, need_even, need. rewrite !(proj2 (need_reg_some _)) by done. rewrite He.
  rewrite (proj2 (rv_fits_spec off 13 ltac:(lia)) Hs). cbn [Z.eqb mbind option_bind]. f_equal.
  pose proof (u64_field off 11 1 ltac:(lia) ltac:(lia) ltac:(lia)) as E11.
  pose proof (u64_field off 1 4 ltac:(lia) ltac:(lia) ltac:(lia)) as E1.
  pose proof (u64_field off 5 6 ltac:(lia) ltac:(lia) ltac:(lia)) as E5.
  pose proof (u64_field off 12 1 ltac:(lia) ltac:(lia) ltac:(lia)) as E12.
  change (2 ^ 1 - 1) with 1 in E11, E12. change (2 ^ 4 - 1) with 15 in E1. change (2 ^ 6 - 1) with 63 in E5.
  rewrite E11, E1, E5, E12. change (2 ^ 1) with 2. rewrite lor4_swap.
  set (c := (off / 2 ^ 11) mod 2). set (a := (off / 2) mod 2 ^ 4). set (b := (off / 2 ^ 5) mod 2 ^ 6). set (d := (off / 2 ^ 12) mod 2).
  assert (R : 0 <= c < 2 /\ 0 <= a < 2 ^ 4 /\ 0 <= b < 2 ^ 6 /\ 0 <= d < 2) by (split_and!; apply Z.mod_pos_bound; lia).
  rewrite (cat_byte op c 7), (cat_byte _ a 8), (cat_byte _ f3 12), (cat_byte _ rs1 15), (cat_byte _ rs2 20), (cat_byte _ b 25),
    (cat_byte _ d 31) by lia.
  unfold bword, iword, brd, bf7. fold a b c d. lia.
Qed.

(** The core reads the displacement back from the two fields. *)
Definition boff (r f : Z) : Z :=
  Z.lor (Z.lor (Z.lor (Z.shiftr (s32 (Z.shiftl (Z.land f 64) 25)) 19) (Z.shiftl (Z.land r 1) 11))
    (Z.shiftl (Z.land f 63) 5)) (Z.land r 0x1e).
Lemma branch_off_fields w : is_u 32 w -> branch_off w = boff (rd_of w) (f7_of w).
Proof.
  intros Hw. unfold branch_off, boff. rewrite <- (f7_shift w Hw). unfold rd_of.
  assert (T1 : Z.land w 0x80000000 = Z.shiftl (Z.land (Z.shiftr w 25) 64) 25) by (by rewrite <- land_shifted by lia).
  assert (T2 : Z.land (u32 (Z.shiftl w 4)) 0x800 = Z.shiftl (Z.land (Z.land (Z.shiftr w 7) 31) 1) 11).
  { change 0x800 with (Z.shiftl 1 11). rewrite land_shifted by lia. f_equal.
    rewrite <- Z.land_assoc. change (Z.land 31 1) with 1. unfold uwrap. apply Z.bits_inj'. intros j Hj.
    rewrite !Z.land_spec. destruct (Z.eq_dec j 0) as [->|].
    - rewrite !Z.shiftr_spec, Z.mod_pow2_bits_low, Z.shiftl_spec by lia. done.
    - change 1 with (2 ^ 0). rewrite Z.pow2_bits_false, !andb_false_r by lia. done. }
  assert (T3 : Z.land (Z.shiftr w 20) 0x7e0 = Z.shiftl (Z.land (Z.shiftr w 25) 63) 5).
  { change 0x7e0 with (Z.shiftl 63 5). by rewrite land_shifted, Z.shiftr_shiftr by lia. }
  rewrite T1, T2, T3. by rewrite <- (Z.land_assoc (Z.shiftr w 7) 31 0x1e).
Qed.

Lemma boff_back off : reaches_b off -> boff (brd off) (bf7 off) = off.
Proof.
  intros (Hs & He). assert (C : all_in 0 4096 (fun k => let off := 2 * k - 4096 in boff (brd off) (bf7 off) =? off) = true)
    by (vm_compute; reflexivity).
  assert (E2 : off mod 2 = 0) by (rewrite <- He; symmetry; exact (land_ones_mod off 1 ltac:(lia))).
  pose proof (Z.div_mod off 2 ltac:(lia)) as D. unfold is_s in Hs. change (2 ^ (13 - 1)) with 4096 in Hs.
  pose proof (all_in_spec _ _ _ C (off / 2 + 2048) ltac:(lia)) as F. cbv beta zeta in F.
  replace (2 * (off / 2 + 2048) - 4096) with off in F by lia. by apply Z.eqb_eq.
Qed.

(** ** Jumps *)

Definition ju (off : Z) : Z :=
  (off / 2 ^ 12) mod 2 ^ 8 + 2 ^ 8 * ((off / 2 ^ 11) mod 2) + 2 ^ 9 * ((off / 2) mod 2 ^ 10) + 2 ^ 19 * ((off / 2 ^ 20) mod 2).
Definition jword (op rd off : Z) : Z := op + 2 ^ 7 * rd + 2 ^ 12 * ju off.
Lemma ju_parts off : exists c b a d, 0 <= c < 2 ^ 8 /\ 0 <= b < 2 /\ 0 <= a < 2 ^ 10 /\ 0 <= d < 2 /\
  ju off = c + 2 ^ 8 * b + 2 ^ 9 * a + 2 ^ 19 * d /\
  c = (off / 2 ^ 12) mod 2 ^ 8 /\ b = (off / 2 ^ 11) mod 2 /\ a = (off / 2) mod 2 ^ 10 /\ d = (off / 2 ^ 20) mod 2.
Proof.
  exists ((off / 2 ^ 12) mod 2 ^ 8), ((off / 2 ^ 11) mod 2), ((off / 2) mod 2 ^ 10), ((off / 2 ^ 20) mod 2).
  split_and!; try reflexivity; apply Z.mod_pos_bound; lia.
Qed.
Lemma ju_range off : 0 <= ju off < 2 ^ 20.
Proof. destruct (ju_parts off) as (c & b & a & d & Hc & Hb & Ha & Hd & -> & _). lia. Qed.

Definition reaches_j (off : Z) : Prop := is_s 21 off /\ Z.land off 1 = 0.

#[export] Instance reaches_j_dec off : Decision (reaches_j off).
Proof. unfold reaches_j, is_s. apply _. Defined.
Lemma enc_j_word op rd off : 0 <= op < 128 -> 0 <= rd < 32 -> reaches_j off -> rv_enc_j op rd off = Some (jword op rd off).
Proof.
  intros H1 H2 (Hs & He). unfold rv_enc_j, need_even, need. rewrite (proj2 (need_reg_some _)) by done. rewrite He.
  rewrite (proj2 (rv_fits_spec off 21 ltac:(lia)) Hs). cbn [Z.eqb mbind option_bind]. f_equal.
  pose proof (u64_field off 12 8 ltac:(lia) ltac:(lia) ltac:(lia)) as E12.
  pose proof (u64_field off 11 1 ltac:(lia) ltac:(lia) ltac:(lia)) as E11.
  pose proof (u64_field off 1 10 ltac:(lia) ltac:(lia) ltac:(lia)) as E1.
  pose proof (u64_field off 20 1 ltac:(lia) ltac:(lia) ltac:(lia)) as E20.
  change (2 ^ 1 - 1) with 1 in E11, E20. change (2 ^ 8 - 1) with 255 in E12. change (2 ^ 10 - 1) with 1023 in E1.
  rewrite E11, E1, E12, E20. destruct (ju_parts off) as (c & b & a & d & Hc & Hb & Ha & Hd & Ej & Ec & Eb & Ea & Ed).
  change (2 ^ 1) with 2. rewrite <- Ec, <- Eb, <- Ea, <- Ed. unfold jword. rewrite Ej.
  rewrite (cat_byte op rd 7), (cat_byte _ c 12), (cat_byte _ b 20), (cat_byte _ a 21), (cat_byte _ d 31) by lia. lia.
Qed.

Lemma jal_off_back op rd off : 0 <= op < 128 -> 0 <= rd < 32 -> reaches_j off -> jal_off (jword op rd off) = off.
Proof.
  intros H1 H2 (Hs & He). unfold jal_off. set (w := jword op rd off).
  destruct (ju_parts off) as (c & b & a & d & Hc & Hb & Ha & Hd & Ej & Ec & Eb & Ea & Ed).
  assert (S : forall k z r, 0 <= k -> w = z * 2 ^ k + r -> 0 <= r < 2 ^ k -> Z.shiftr w k = z).
  { intros k z r Hk E R. rewrite Z.shiftr_div_pow2 by done. symmetry. apply Z.div_unique with r; lia. }
  assert (S12 : Z.shiftr w 12 = ju off) by (apply (S 12 _ (op + 2 ^ 7 * rd)); unfold w, jword; lia).
  assert (T1 : Z.land w 0x80000000 = d * 2 ^ 31).
  { change 0x80000000 with (Z.shiftl 1 31). rewrite land_shifted, (S 31 d (op + 2 ^ 7 * rd + 2 ^ 12 * (c + 2 ^ 8 * b + 2 ^ 9 * a)))
      by (unfold w, jword; rewrite ?Ej; lia).
    rewrite Z.shiftl_mul_pow2 by lia. f_equal. transitivity (d mod 2); [exact (land_ones_mod d 1 ltac:(lia)) | apply Z.mod_small; lia]. }
  assert (T2 : Z.land w 0xff000 = c * 2 ^ 12).
  { change 0xff000 with (Z.shiftl 255 12). rewrite land_shifted, S12, Ej, Z.shiftl_mul_pow2 by lia. f_equal.
    transitivity ((c + 2 ^ 8 * b + 2 ^ 9 * a + 2 ^ 19 * d) mod 2 ^ 8); [exact (land_ones_mod _ 8 ltac:(lia)) |].
    replace (c + 2 ^ 8 * b + 2 ^ 9 * a + 2 ^ 19 * d) with (c + (b + 2 * a + 2 ^ 11 * d) * 2 ^ 8) by lia.
    rewrite Z.mod_add by lia. apply Z.mod_small. lia. }
  assert (S20 : Z.shiftr w 20 = b + 2 * a + 2 ^ 11 * d).
  { apply (S 20 _ (op + 2 ^ 7 * rd + 2 ^ 12 * c)); [lia | unfold w, jword; rewrite Ej; lia | lia]. }
  assert (T3 : Z.land (Z.shiftr w 9) 0x800 = b * 2 ^ 11).
  { change 0x800 with (Z.shiftl 1 11). rewrite land_shifted, Z.shiftr_shiftr by lia. change (9 + 11) with 20. rewrite S20.
    rewrite Z.shiftl_mul_pow2 by lia. f_equal. transitivity ((b + 2 * a + 2 ^ 11 * d) mod 2); [exact (land_ones_mod _ 1 ltac:(lia))|].
    replace (b + 2 * a + 2 ^ 11 * d) with (b + (a + 2 ^ 10 * d) * 2) by lia. rewrite Z.mod_add by lia. apply Z.mod_small. lia. }
  assert (T4 : Z.land (Z.shiftr w 20) 0x7fe = a * 2 ^ 1).
  { change 0x7fe with (Z.shiftl 1023 1). rewrite land_shifted, Z.shiftr_shiftr by lia. change (20 + 1) with 21.
    rewrite (S 21 (a + 2 ^ 10 * d) (op + 2 ^ 7 * rd + 2 ^ 12 * (c + 2 ^ 8 * b))) by (unfold w, jword; rewrite ?Ej; lia).
    rewrite Z.shiftl_mul_pow2 by lia. f_equal. transitivity ((a + d * 2 ^ 10) mod 2 ^ 10);
      [rewrite (Z.mul_comm d); exact (land_ones_mod _ 10 ltac:(lia)) |]. rewrite Z.mod_add by lia. apply Z.mod_small. lia. }
  rewrite T1, T2, T3, T4. assert (T5 : Z.shiftr (s32 (d * 2 ^ 31)) 11 = - d * 2 ^ 20).
  { assert (Hd' : d = 0 \/ d = 1) by lia. destruct Hd' as [-> | ->]; reflexivity. }
  rewrite T5, <- !Z.lor_assoc.
  rewrite (lor_shift_add 11 b), (lor_shift_add 12 c), (lor_shift_add 20 (- d)) by lia.
  assert (E2 : off mod 2 = 0) by (rewrite <- He; symmetry; exact (land_ones_mod off 1 ltac:(lia))).
  unfold is_s in Hs. change (2 ^ (21 - 1)) with (2 ^ 20) in Hs. clear S S12 S20 T1 T2 T3 T4 T5 w Ej.
  rewrite Ea, Eb, Ec, Ed. clear Ea Eb Ec Ed Ha Hb Hc Hd a b c d.
  set (A := off / 2). set (B := off / 2 ^ 11). set (X := off / 2 ^ 12). set (Y := off / 2 ^ 20).
  assert (EB : B = A / 2 ^ 10) by (unfold A, B; by rewrite Z.div_div by lia).
  assert (EX : X = B / 2) by (unfold X, B; by rewrite Z.div_div by lia).
  assert (EY : Y = X / 2 ^ 8) by (unfold X, Y; by rewrite Z.div_div by lia).
  pose proof (Z.div_mod off 2 ltac:(lia)) as D1. fold A in D1. pose proof (Z.div_mod A (2 ^ 10) ltac:(lia)) as D2.
  pose proof (Z.div_mod B 2 ltac:(lia)) as D3. pose proof (Z.div_mod X (2 ^ 8) ltac:(lia)) as D4.
  pose proof (Z.div_mod Y 2 ltac:(lia)) as D5. rewrite <- EB in D2. rewrite <- EX in D3. rewrite <- EY in D4.
  pose proof (Z.mod_pos_bound A (2 ^ 10) ltac:(lia)). pose proof (Z.mod_pos_bound B 2 ltac:(lia)).
  pose proof (Z.mod_pos_bound X (2 ^ 8) ltac:(lia)). pose proof (Z.mod_pos_bound Y 2 ltac:(lia)). lia.
Qed.

(** ** Patching the buffer *)

Lemma insert_mid (l1 l2 : list Z) b v : <[length l1 := v]> (l1 ++ b :: l2) = l1 ++ v :: l2.
Proof. induction l1 as [|h t IH]; simpl; [done | by rewrite IH]. Qed.

Lemma code_set_mid c l1 b l2 v : code_set (Z.of_nat (length l1)) v (set_code c (l1 ++ b :: l2))
  = Some ((), set_code c (l1 ++ Z.land v 0xff :: l2)).
Proof.
  unfold code_set, clen. cbn [code set_code]. rewrite length_app. cbn [length].
  destruct (Z.ltb_spec (Z.of_nat (length l1)) 0), (Z.leb_spec (Z.of_nat (length l1 + S (length l2))) (Z.of_nat (length l1)));
    try lia. cbn [orb]. by rewrite Nat2Z.id, insert_mid.
Qed.
Lemma code_at_mid c l1 b l2 : code_at (Z.of_nat (length l1)) (set_code c (l1 ++ b :: l2)) = Some (b, set_code c (l1 ++ b :: l2)).
Proof.
  unfold code_at. destruct (Z.ltb_spec (Z.of_nat (length l1)) 0); [lia|]. cbn [code set_code].
  rewrite Nat2Z.id, lookup_app_r, Nat.sub_diag by lia. done.
Qed.

(** One more byte of the prefix. *)
Lemma next_off (l1 : list Z) b : Z.of_nat (length l1) + 1 = Z.of_nat (length (l1 ++ [b])).
Proof. rewrite length_app. simpl. lia. Qed.
Lemma cons_mid (l1 l2 : list Z) b : l1 ++ b :: l2 = (l1 ++ [b]) ++ l2.
Proof. by rewrite <- app_assoc. Qed.

Lemma code_set_2 c l1 a b l2 v w :
  (_ ← code_set (Z.of_nat (length l1)) v; code_set (Z.of_nat (length l1) + 1) w) (set_code c (l1 ++ a :: b :: l2))
  = Some ((), set_code c (l1 ++ Z.land v 0xff :: Z.land w 0xff :: l2)).
Proof.
  unfold mbind, M_bind. rewrite code_set_mid, (next_off l1 (Z.land v 0xff)), (cons_mid l1 (b :: l2)), code_set_mid.
  by rewrite <- app_assoc.
Qed.

Lemma code_patch32_mid c l1 b0 b1 b2 b3 l2 v :
  code_patch32 (Z.of_nat (length l1)) v (set_code c (l1 ++ [b0; b1; b2; b3] ++ l2)) = Some ((), set_code c (l1 ++ bytes4 v ++ l2)).
Proof.
  unfold code_patch32. set (n := Z.of_nat (length l1)). cbn [app].
  pose proof (code_set_2 c l1 b0 b1 (b2 :: b3 :: l2) (Z.land v 0xff) (Z.land (Z.shiftr v 8) 0xff)) as E1.
  set (p := l1 ++ [Z.land v 0xff; Z.land (Z.shiftr v 8) 0xff]).
  pose proof (code_set_2 c p b2 b3 l2 (Z.land (Z.shiftr v 16) 0xff) (Z.land (Z.shiftr v 24) 0xff)) as E2.
  assert (Ep : Z.of_nat (length p) = n + 2) by (unfold p; rewrite length_app; simpl; unfold n; lia).
  rewrite Ep in E2. replace (n + 2 + 1) with (n + 3) in E2 by lia. rewrite !land_ff_twice in E1, E2.
  replace (l1 ++ Z.land v 0xff :: Z.land (Z.shiftr v 8) 0xff :: b2 :: b3 :: l2) with (p ++ b2 :: b3 :: l2) in E1 by (unfold p; by rewrite <- app_assoc).
  fold n in E1. unfold mbind, M_bind in *.
  destruct (code_set n (Z.land v 0xff) _) as [[[] c1]|]; [|done]. cbv beta in E1. rewrite E1. rewrite E2.
  unfold p, bytes4, bytes2. rewrite Z.shiftr_shiftr by lia. by rewrite <- !app_assoc.
Qed.

Lemma code_word_mid c l1 w l2 : is_u 32 w -> code_word (Z.of_nat (length l1)) (set_code c (l1 ++ bytes4 w ++ l2))
  = Some (w, set_code c (l1 ++ bytes4 w ++ l2)).
Proof.
  intros Hw. unfold code_word, bytes4, bytes2. set (n := Z.of_nat (length l1)).
  set (b0 := Z.land w 0xff). set (b1 := Z.land (Z.shiftr w 8) 0xff). set (b2 := Z.land (Z.shiftr w 16) 0xff).
  set (b3 := Z.land (Z.shiftr (Z.shiftr w 16) 8) 0xff). cbn [app].
  assert (G : forall p b q, l1 ++ b0 :: b1 :: b2 :: b3 :: l2 = p ++ b :: q ->
    code_at (Z.of_nat (length p)) (set_code c (l1 ++ b0 :: b1 :: b2 :: b3 :: l2)) = Some (b, set_code c (l1 ++ b0 :: b1 :: b2 :: b3 :: l2)))
    by (intros p b q ->; apply code_at_mid).
  assert (L : forall q, Z.of_nat (length (l1 ++ q)) = n + Z.of_nat (length q)) by (intros q; rewrite length_app; unfold n; lia).
  pose proof (G l1 _ _ eq_refl) as G0. fold n in G0.
  pose proof (G (l1 ++ [b0]) b1 (b2 :: b3 :: l2) ltac:(by rewrite <- app_assoc)) as G1.
  pose proof (G (l1 ++ [b0; b1]) b2 (b3 :: l2) ltac:(by rewrite <- app_assoc)) as G2.
  pose proof (G (l1 ++ [b0; b1; b2]) b3 l2 ltac:(by rewrite <- app_assoc)) as G3.
  rewrite L in G1, G2, G3. change (Z.of_nat (length [b0])) with 1 in G1.
  change (Z.of_nat (length [b0; b1])) with 2 in G2. change (Z.of_nat (length [b0; b1; b2])) with 3 in G3.
  unfold mbind, M_bind. rewrite G0, G1, G2, G3. unfold mret, M_ret. do 2 f_equal.
  unfold is_u in Hw. assert (E3 : b3 = w / 2 ^ 24).
  { unfold b3. rewrite Z.shiftr_shiftr by lia. change (16 + 8) with 24. rewrite byte_of by lia. apply Z.mod_small.
    split; [apply Z.div_pos; lia | apply Z.div_lt_upper_bound; lia]. }
  unfold b0, b1, b2. rewrite E3, byte_low, !byte_of by lia.
  pose proof (Z.mod_pos_bound w (2 ^ 8) ltac:(lia)). pose proof (Z.mod_pos_bound (w / 2 ^ 8) (2 ^ 8) ltac:(lia)).
  pose proof (Z.mod_pos_bound (w / 2 ^ 16) (2 ^ 8) ltac:(lia)).
  rewrite (cat_byte (w mod 2 ^ 8)), (cat_byte _ _ 16), (cat_byte _ _ 24) by lia.
  assert (D1 : w = 2 ^ 8 * (w / 2 ^ 8) + w mod 2 ^ 8) by (apply Z.div_mod; lia).
  assert (D2 : w / 2 ^ 8 = 2 ^ 8 * (w / 2 ^ 16) + (w / 2 ^ 8) mod 2 ^ 8).
  { change (2 ^ 16) with (2 ^ 8 * 2 ^ 8). rewrite <- Z.div_div by lia. apply Z.div_mod. lia. }
  assert (D3 : w / 2 ^ 16 = 2 ^ 8 * (w / 2 ^ 24) + (w / 2 ^ 16) mod 2 ^ 8).
  { change (2 ^ 24) with (2 ^ 16 * 2 ^ 8). rewrite <- Z.div_div by lia. apply Z.div_mod. lia. }
  lia.
Qed.

(** ** What a patch leaves *)

Lemma bword_u op f3 rs1 rs2 off : 0 <= op < 128 -> 0 <= f3 < 8 -> 0 <= rs1 < 32 -> 0 <= rs2 < 32 -> is_u 32 (bword op f3 rs1 rs2 off).
Proof.
  intros. pose proof (brd_range off). pose proof (bf7_range off).
  by apply (iword_fields op (brd off) f3 rs1 rs2 (bf7 off)).
Qed.

(** The fields of a branch around a displacement, whatever displacement it had. *)
Lemma strip_branch f3 rs1 rs2 off : 0 <= f3 < 8 -> 0 <= rs1 < 32 -> 0 <= rs2 < 32 ->
  Z.land (bword 0x63 f3 rs1 rs2 off) (u64 (Z.lnot 0xfe000f80)) = iword 0x63 0 f3 rs1 rs2.
Proof.
  intros H3 H1 H2. pose proof (brd_range off) as Rr. pose proof (bf7_range off) as Rf.
  pose proof (iword_fields 0x63 (brd off) f3 rs1 rs2 (bf7 off) ltac:(lia) Rr H3 H1 H2 Rf) as F. cbv zeta in F.
  fold (bword 0x63 f3 rs1 rs2 off) in F. set (w := bword _ _ _ _ _) in *. destruct F as (U & _ & F2 & _ & _ & _ & F6 & _).
  rewrite land_not by (unfold is_u in *; lia).
  assert (E : Z.land w 0xfe000f80 = bf7 off * 2 ^ 25 + brd off * 2 ^ 7).
  { change 0xfe000f80 with (Z.lor (Z.shiftl 0x7f 25) (Z.shiftl 0x1f 7)). rewrite Z.land_lor_distr_r, !land_shifted by lia.
    change (Z.land (Z.shiftr w 25) 0x7f) with (f7_of w). change (Z.land (Z.shiftr w 7) 0x1f) with (rd_of w).
    rewrite F2, F6, !Z.shiftl_mul_pow2 by lia. apply lor_shift_add; lia. }
  rewrite E. unfold w, bword, iword. lia.
Qed.

Lemma fill_branch f3 rs1 rs2 off : 0 <= f3 < 8 -> 0 <= rs1 < 32 -> 0 <= rs2 < 32 ->
  Z.lor (iword 0x63 0 f3 rs1 rs2) (bword 0 0 0 0 off) = bword 0x63 f3 rs1 rs2 off.
Proof.
  intros H3 H1 H2. pose proof (brd_range off) as Rr. pose proof (bf7_range off) as Rf. unfold bword.
  rewrite <- (fields_sum 0x63 0 f3 rs1 rs2), <- (fields_sum 0 (brd off) 0 0 (0 + 2 ^ 5 * bf7 off)),
    <- (fields_sum 0x63 (brd off) f3 rs1 (rs2 + 2 ^ 5 * bf7 off)) by lia.
  replace (rs2 + 2 ^ 5 * bf7 off) with (Z.lor rs2 (Z.shiftl (bf7 off) 5)) by (rewrite cat_byte by lia; lia).
  replace (0 + 2 ^ 5 * bf7 off) with (Z.shiftl (bf7 off) 5) by (rewrite Z.shiftl_mul_pow2 by lia; lia).
  rewrite Z.shiftl_lor, !Z.shiftl_0_l. apply Z.bits_inj'. intros j _. rewrite !Z.lor_spec, !Z.bits_0. btauto.
Qed.

Lemma patch_b_mid c l1 f3 rs1 rs2 off0 l2 target : 0 <= f3 < 8 -> 0 <= rs1 < 32 -> 0 <= rs2 < 32 ->
  let at_ := Z.of_nat (length l1) in reaches_b (target - at_) ->
  rv_patch_b at_ target (set_code c (l1 ++ bytes4 (bword 0x63 f3 rs1 rs2 off0) ++ l2))
  = Some ((), set_code c (l1 ++ bytes4 (bword 0x63 f3 rs1 rs2 (target - at_)) ++ l2)).
Proof.
  intros H3 H1 H2 at_ Hr. unfold rv_patch_b, mbind, M_bind. unfold at_ at 1.
  rewrite code_word_mid by (apply bword_u; lia). rewrite strip_branch, enc_b_word by (done || lia).
  unfold lift. rewrite fill_branch by done. apply code_patch32_mid.
Qed.

Lemma patch_j_mid c l1 rd off0 l2 target : 0 <= rd < 32 ->
  let at_ := Z.of_nat (length l1) in reaches_j (target - at_) ->
  rv_patch_j at_ target (set_code c (l1 ++ bytes4 (jword 0x6f rd off0) ++ l2))
  = Some ((), set_code c (l1 ++ bytes4 (jword 0x6f rd (target - at_)) ++ l2)).
Proof.
  intros Hd at_ Hr. pose proof (ju_range off0) as R0. unfold rv_patch_j, mbind, M_bind. unfold at_ at 1.
  assert (U : is_u 32 (jword 0x6f rd off0)) by (unfold is_u, jword; lia).
  rewrite code_word_mid by done. rewrite land_not by (unfold is_u in *; lia).
  assert (E : Z.land (jword 0x6f rd off0) 0xfffff000 = ju off0 * 2 ^ 12).
  { change 0xfffff000 with (Z.shiftl 0xfffff 12). rewrite land_shifted, Z.shiftl_mul_pow2, Z.shiftr_div_pow2 by lia. f_equal.
    replace (jword 0x6f rd off0 / 2 ^ 12) with (ju off0)
      by (apply Z.div_unique with (0x6f + 2 ^ 7 * rd); unfold jword; lia).
    transitivity (ju off0 mod 2 ^ 20); [exact (land_ones_mod _ 20 ltac:(lia)) | by apply Z.mod_small]. }
  rewrite E. replace (jword 0x6f rd off0 - ju off0 * 2 ^ 12) with (0x6f + 2 ^ 7 * rd) by (unfold jword; lia).
  rewrite enc_j_word by (done || lia). unfold lift.
  replace (Z.lor (0x6f + 2 ^ 7 * rd) (jword 0 0 (target - at_))) with (jword 0x6f rd (target - at_)).
  - apply code_patch32_mid.
  - unfold jword. replace (0 + 2 ^ 7 * 0 + 2 ^ 12 * ju (target - at_)) with (Z.shiftl (ju (target - at_)) 12)
      by (rewrite Z.shiftl_mul_pow2 by lia; lia). rewrite cat_byte by lia. lia.
Qed.

(** ** Going there *)

(** The comparison of a branch, on XLEN-bit operands. *)
Definition branch_holds (n cond a b : Z) : bool :=
  match cond with
  | 0 => a =? b
  | 1 => negb (a =? b)
  | 4 => swrap n a <? swrap n b
  | 5 => negb (swrap n a <? swrap n b)
  | 6 => a <? b
  | _ => negb (a <? b)
  end.
Definition is_cond (cond : Z) : Prop := cond = 0 \/ cond = 1 \/ 4 <= cond < 8.

Section Go.
Context {W C : Type}.
Implicit Types s : rv_state W C.
Context (sys_insn : Z -> Z -> Z -> rv_state W C -> rv_state W C).
Context (rv_fp_exec : Z -> rv_state W C -> rv_state W C * bool).
Local Abbreviation exec := (exec32 sys_insn rv_fp_exec).
Local Abbreviation step := (step sys_insn rv_fp_exec).

(** Only the program counter moved, and the link register if there is one. *)
Record jumped (rd link t : Z) s s' : Prop := {
  jp_xlen : xlen s' = xlen s;
  jp_mem : mem s' = mem s;
  jp_csrs : csrs s' = csrs s;
  jp_resv : resv s' = resv s /\ resv_addr s' = resv_addr s /\ resv_val s' = resv_val s;
  jp_pc : pc s' = t;
  jp_regs r : x s' r = if (r =? rd) && negb (rd =? 0) then link else x s r }.

(** The bytes are one instruction that goes to a displacement when [holds]. *)
Definition goes (l : list Z) (rd : Z) (holds : (Z -> Z) -> bool) (off xl : Z) : Prop := forall s, rv_ok s -> xlen s = xl ->
  code_in s (pc s) l -> 0 <= pc s -> pc s + Z.of_nat (length l) < 2 ^ 32 -> 0 <= pc s + off < 2 ^ 32 ->
  exists s', step s = Next s' /\ rv_ok s' /\
    jumped rd (pc s + Z.of_nat (length l)) (if holds (x s) then pc s + off else pc s + Z.of_nat (length l)) s s'.

(** The bytes of a word, long or short. *)
Definition codes (xl : Z) (l : list Z) (w : Z) : Prop := is_u 32 w /\ Z.land w 3 = 3 /\
  (l = bytes4 w \/ exists h, l = bytes2 h /\ 0 <= h < 2 ^ 16 /\ Z.land h 3 <> 3 /\ rvc_expand h xl = w).

Lemma codes_step l w s : codes (xlen s) l w -> code_in s (pc s) l -> 0 <= pc s -> pc s + Z.of_nat (length l) < 2 ^ 32 ->
  exists word, step s = finish (exec w (begin_insn word (Z.of_nat (length l)) s)).
Proof.
  intros (U & H3 & [->|(h & -> & Hh & Hq & Ex)]) HC Hp Hl; simpl length in *.
  - exists w. by rewrite (step_word _ _ s w) by (done || lia).
  - exists h. rewrite (step_short _ _ s h) by (done || lia). unfold step_exec. change (2 =? 4) with false. cbv iota zeta.
    change (xlen (begin_insn h 2 s)) with (xlen s). rewrite Ex.
    assert (N : w <> 0) by (intros ->; discriminate). by rewrite (proj2 (Z.eqb_neq _ _) N).
Qed.

Lemma npc_at s t : rv_ok s -> 0 <= t < 2 ^ 32 -> rv_xl s (u64 t) = t.
Proof.
  intros H Ht. rewrite rv_xl_u64 by apply H. apply uwrap_small. unfold is_u. destruct (ok_xlen s H) as [E|E]; rewrite E; lia.
Qed.

Lemma goes_branch xl l cond rs1 rs2 off : is_cond cond -> 0 <= rs1 < 32 -> 0 <= rs2 < 32 -> reaches_b off ->
  codes xl l (bword 0x63 cond rs1 rs2 off) -> goes l 0 (fun x => branch_holds xl cond (x rs1) (x rs2)) off xl.
Proof.
  intros Hc H1 H2 Hr HC s H Hx HI Hp Hl Ho. subst xl.
  destruct (codes_step l _ s HC HI Hp Hl) as (word & ->). set (n := Z.of_nat (length l)) in *.
  set (w := bword _ _ _ _ _) in *. set (s0 := begin_insn word n s).
  assert (R3 : 0 <= cond < 8) by (unfold is_cond in Hc; lia).
  pose proof (iword_fields 0x63 (brd off) cond rs1 rs2 (bf7 off) ltac:(lia) (brd_range off) R3 H1 H2 (bf7_range off)) as F.
  cbv zeta in F. fold (bword 0x63 cond rs1 rs2 off) in F. fold w in F. destruct F as (U & F1 & F2 & F3 & F4 & F5 & F6 & _).
  assert (B : branch_off w = off) by (rewrite branch_off_fields, F2, F6 by done; by apply boff_back).
  assert (X : exec w s0 = if branch_holds (xlen s) cond (x s rs1) (x s rs2) then jump (u64 (pc s + off)) s0 else s0).
  { unfold exec32. change (Z.land w 0x7f) with (op_of w). change (Z.land (Z.shiftr w 12) 7) with (f3_of w).
    change (Z.land (Z.shiftr w 15) 31) with (rs1_of w). change (Z.land (Z.shiftr w 20) 31) with (rs2_of w).
    rewrite F1, F3, F4, F5, B. change (x s0) with (x s). change (pc s0) with (pc s).
    assert (Es : forall v, rv_sx s0 v = swrap (xlen s) v).
    { intros v. unfold rv_sx. change (xlen s0) with (xlen s). by destruct (ok_xlen s H) as [->| ->]. }
    assert (Hc' : cond = 0 \/ cond = 1 \/ cond = 4 \/ cond = 5 \/ cond = 6 \/ cond = 7) by (unfold is_cond in Hc; lia).
    unfold branch_taken, branch_holds. rewrite !Es. rewrite !Z.ltb_antisym.
    destruct Hc' as [->|[->|[->|[->|[->| ->]]]]]; cbv iota; rewrite ?negb_involutive; done. }
  rewrite X. clear X. set (t := branch_holds _ _ _ _). unfold finish.
  assert (OK0 : rv_ok s0) by (by apply begin_ok).
  assert (En : rv_xl s (u64 (pc s + n)) = pc s + n) by (apply npc_at; [done | lia]).
  assert (Eo : rv_xl s0 (u64 (pc s + off)) = pc s + off) by (apply (npc_at s0); done).
  assert (OK1 : rv_ok (jump (u64 (pc s + off)) s0)) by (apply jump_ok; [done | apply u64_u]).
  destruct t; (eexists; split; [reflexivity|]; split; [destruct OK0, OK1; by constructor|]; constructor; try done).
  - intros r. by rewrite andb_false_r.
  - intros r. by rewrite andb_false_r.
Qed.

Lemma goes_jump xl l rd off : 0 <= rd < 32 -> reaches_j off -> codes xl l (jword 0x6f rd off) ->
  goes l rd (fun _ => true) off xl.
Proof.
  intros Hd Hr HC s H Hx HI Hp Hl Ho. subst xl. pose proof (ju_range off) as Rj.
  destruct (codes_step l _ s HC HI Hp Hl) as (word & ->). set (n := Z.of_nat (length l)) in *.
  set (s0 := begin_insn word n s).
  assert (X : exec (jword 0x6f rd off) s0 = rv_wx rd (npc s0) (jump (u64 (pc s + off)) s0)).
  { unfold exec32. rewrite jal_off_back by (done || lia).
    assert (E7 : Z.land (jword 0x6f rd off) 0x7f = 0x6f).
    { transitivity (jword 0x6f rd off mod 2 ^ 7); [exact (land_ones_mod _ 7 ltac:(lia))|]. unfold jword.
      replace (0x6f + 2 ^ 7 * rd + 2 ^ 12 * ju off) with (0x6f + (rd + 2 ^ 5 * ju off) * 2 ^ 7) by lia. by rewrite Z.mod_add by lia. }
    assert (Ed : Z.land (Z.shiftr (jword 0x6f rd off) 7) 31 = rd).
    { transitivity ((jword 0x6f rd off / 2 ^ 7) mod 2 ^ 5); [rewrite <- Z.shiftr_div_pow2 by lia; exact (land_ones_mod _ 5 ltac:(lia))|].
      unfold jword. replace (0x6f + 2 ^ 7 * rd + 2 ^ 12 * ju off) with (0x6f + (rd + ju off * 2 ^ 5) * 2 ^ 7) by lia.
      rewrite Z.div_add, Z.div_small, Z.add_0_l, Z.mod_add, Z.mod_small by lia. done. }
    rewrite E7, Ed. done. }
  rewrite X. clear X. assert (OK0 : rv_ok s0) by (by apply begin_ok).
  assert (OK1 : rv_ok (jump (u64 (pc s + off)) s0)) by (apply jump_ok; [done | apply u64_u]).
  assert (En : rv_xl s (u64 (pc s + n)) = pc s + n) by (apply npc_at; [done | lia]).
  assert (Ol : is_u 64 (npc s0)) by (change (is_u 64 (rv_xl s (u64 (pc s + n)))); rewrite En; unfold is_u; lia).
  pose proof (rv_wx_ok rd (npc s0) _ OK1 Ol) as OK2.
  assert (Eo : rv_xl s0 (u64 (pc s + off)) = pc s + off) by (apply (npc_at s0); done).
  assert (El : rv_xl s (npc s0) = pc s + n).
  { change (npc s0) with (rv_xl s (u64 (pc s + n))). rewrite En. rewrite <- (u64_id (pc s + n)) at 1 by lia. exact En. }
  unfold finish, rv_wx in *. destruct (Z.eqb_spec rd 0) as [E0|N0].
  - eexists. split; [reflexivity|]. cbv beta. split; [destruct OK2; by constructor|].
    constructor; try done. intros r. rewrite (proj2 (Z.eqb_eq rd 0) E0). by rewrite andb_false_r.
  - eexists. split; [reflexivity|]. cbv beta. split; [destruct OK2; by constructor|].
    constructor; try done. intros r. rewrite (proj2 (Z.eqb_neq rd 0) N0). cbn [negb]. rewrite andb_true_r. destruct (Z.eqb_spec r rd) as [->|Nr].
    + cbn [x set_pc set_x]. rewrite upd_same. exact El.
    + cbn [x set_pc set_x]. by rewrite upd_other.
Qed.

(** ** The short forms *)

Definition short_ok (h w xl : Z) : bool := (0 <=? h) && (h <? 2 ^ 16) && negb (Z.land h 3 =? 3) && (rvc_expand h xl =? w).
Lemma short_codes h w xl : short_ok h w xl = true -> is_u 32 w -> Z.land w 3 = 3 -> codes xl (bytes2 h) w.
Proof.
  unfold short_ok. rewrite !andb_true_iff, negb_true_iff, Z.leb_le, Z.ltb_lt, Z.eqb_neq, Z.eqb_eq. intros (((A & B) & D) & E) U H3.
  split_and!; [done | done |]. right. exists h. split_and!; done || lia.
Qed.

Lemma cj_short off xl : xl = 32 \/ xl = 64 -> -2048 <= off <= 2046 -> off mod 2 = 0 ->
  short_ok (cj_word (Z.land (u32 off) 0xfff)) (jword 0x6f 0 off) xl = true.
Proof.
  intros Hx Ho He. assert (K : forall x, x = 32 \/ x = 64 -> all_in 0 2048 (fun k => let off := 2 * k - 2048 in
    short_ok (cj_word (Z.land (u32 off) 0xfff)) (jword 0x6f 0 off) x) = true)
    by (intros ? [->| ->]; vm_compute; reflexivity).
  pose proof (Z.div_mod off 2 ltac:(lia)) as D.
  pose proof (all_in_spec _ _ _ (K xl Hx) (off / 2 + 1024) ltac:(lia)) as F. cbv beta zeta in F.
  by replace (2 * (off / 2 + 1024) - 2048) with off in F by lia.
Qed.

Lemma cb_short (ne : bool) rs1 off xl : xl = 32 \/ xl = 64 -> 8 <= rs1 <= 15 -> -256 <= off <= 254 -> off mod 2 = 0 ->
  short_ok (cb_word ne rs1 (Z.land (u32 off) 0x1ff)) (bword 0x63 (b2z ne) rs1 0 off) xl = true.
Proof.
  intros Hx Hr Ho He. assert (K : forall x n, x = 32 \/ x = 64 -> all_in 0 2048 (fun k =>
      let off := 2 * (k / 8) - 256 in let r := k mod 8 + 8 in
      short_ok (cb_word n r (Z.land (u32 off) 0x1ff)) (bword 0x63 (b2z n) r 0 off) x) = true)
    by (intros ? [] [->| ->]; vm_compute; reflexivity).
  pose proof (Z.div_mod off 2 ltac:(lia)) as D.
  pose proof (all_in_spec _ _ _ (K xl ne Hx) (8 * (off / 2 + 128) + (rs1 - 8)) ltac:(lia)) as F. cbv beta zeta in F.
  replace ((8 * (off / 2 + 128) + (rs1 - 8)) / 8) with (off / 2 + 128) in F by (apply Z.div_unique with (rs1 - 8); lia).
  replace ((8 * (off / 2 + 128) + (rs1 - 8)) mod 8) with (rs1 - 8) in F by (apply Z.mod_unique with (off / 2 + 128); lia).
  replace (2 * (off / 2 + 128) - 256) with off in F by lia. by replace (rs1 - 8 + 8) with rs1 in F by lia.
Qed.

Lemma land3_word op rest : Z.land (op + 2 ^ 2 * rest) 3 = op mod 2 ^ 2.
Proof.
  transitivity ((op + 2 ^ 2 * rest) mod 2 ^ 2); [exact (land_ones_mod _ 2 ltac:(lia))|].
  rewrite Z.mul_comm. by rewrite Z.mod_add by lia.
Qed.
Lemma bword_3 f3 rs1 rs2 off : Z.land (bword 0x63 f3 rs1 rs2 off) 3 = 3.
Proof.
  transitivity (Z.land (0x63 + 2 ^ 2 * (2 ^ 5 * brd off + 2 ^ 10 * f3 + 2 ^ 13 * rs1 + 2 ^ 18 * (rs2 + 2 ^ 5 * bf7 off))) 3);
    [f_equal; unfold bword, iword; lia | exact (land3_word 0x63 _)].
Qed.
Lemma jword_3 rd off : Z.land (jword 0x6f rd off) 3 = 3.
Proof.
  transitivity (Z.land (0x6f + 2 ^ 2 * (2 ^ 5 * rd + 2 ^ 10 * ju off)) 3);
    [f_equal; unfold jword; lia | exact (land3_word 0x6f _)].
Qed.

(** ** Emission, then the patch *)

Lemma uncompressed_wo w c : uncompressed (at_ ← here; _ ← rv_wo (Some w); mret at_) c
  = Some (clen c, set_code c (code c ++ bytes4 w)).
Proof.
  unfold uncompressed, mbind, M_bind, here. rewrite (wo_emits _ w) by done. unfold mret, M_ret.
  unfold set_code, rv_set_compress. cbn [code g_rvc g_rvc_xlen rv_ext]. unfold parcel, short_form. cbn [g_rvc Z.eqb negb]. done.
Qed.

Lemma even_mod off : Z.land off 1 = off mod 2.
Proof. exact (land_ones_mod off 1 ltac:(lia)). Qed.

(** C13: A branch emitted without a target and patched once the target is known (in
    whatever the buffer has become after it): if the displacement is even and within
    4 KiB, the patch changes just the branch, and the core executing it goes to the
    target exactly when the comparison holds; otherwise the checked patch refuses and
    changes nothing. *)
Theorem rv_branch_correct (cond rs1 rs2 xl target : Z) (c : emitter) (rest : list Z) :
  is_cond cond -> 0 <= rs1 < 32 -> 0 <= rs2 < 32 -> xl = 32 \/ xl = 64 ->
  let at_ := clen c in let off := target - at_ in
  exists l0, rv_b_placeholder cond rs1 rs2 c = Some (at_, set_code c (code c ++ l0)) /\
    let c1 := set_code c (code c ++ l0 ++ rest) in
    if decide (reaches_b off)
    then exists l, rv_patch_b_checked at_ target c1 = Some (true, set_code c (code c ++ l ++ rest)) /\
           length l = length l0 /\ goes l 0 (fun x => branch_holds xl cond (x rs1) (x rs2)) off xl
    else rv_patch_b_checked at_ target c1 = Some (false, c1).
Proof.
  intros Hc H1 H2 Hx at_ off. assert (R3 : 0 <= cond < 8) by (unfold is_cond in Hc; lia).
  assert (Z0 : reaches_b 0) by (split; [unfold is_s; simpl; lia | done]).
  exists (bytes4 (bword 0x63 cond rs1 rs2 0)). split.
  { unfold rv_b_placeholder. rewrite enc_b_word by (done || (unfold OP_BRANCH; lia)). apply uncompressed_wo. }
  cbv zeta. unfold rv_patch_b_checked. fold off.
  assert (Eb : (off <? -4096) || (4094 <? off) || negb (Z.land off 1 =? 0) = negb (bool_decide (reaches_b off))).
  { rewrite even_mod. pose proof (Z.div_mod off 2 ltac:(lia)). pose proof (Z.mod_pos_bound off 2 ltac:(lia)).
    destruct (bool_decide_reflect (reaches_b off)) as [[Hs He]|N]; cbn [negb].
    - rewrite even_mod in He. unfold is_s in Hs. change (2 ^ (13 - 1)) with 4096 in Hs.
      destruct (Z.ltb_spec off (-4096)), (Z.ltb_spec 4094 off), (Z.eqb_spec (off mod 2) 0); done || lia.
    - destruct (Z.ltb_spec off (-4096)), (Z.ltb_spec 4094 off), (Z.eqb_spec (off mod 2) 0); try done.
      exfalso. apply N. split; [unfold is_s; simpl; lia | by rewrite even_mod]. }
  rewrite Eb. destruct (decide (reaches_b off)) as [Hr|N].
  - rewrite bool_decide_eq_true_2 by done. cbn [negb]. exists (bytes4 (bword 0x63 cond rs1 rs2 off)). split_and!.
    + unfold mbind, M_bind. pose proof (patch_b_mid c (code c) cond rs1 rs2 0 rest target R3 H1 H2 Hr) as P. cbv zeta in P.
      change (Z.of_nat (length (code c))) with at_ in P. by rewrite P.
    + done.
    + apply goes_branch; try done. split_and!; [apply bword_u; lia | apply bword_3 | by left].
  - by rewrite bool_decide_eq_false_2 by done.
Qed.

(** A jump emitted without a target and patched later goes to its target, within a
    megabyte either way, and leaves the address after it in the link register; past
    that the patch is an internal error, not a wrong jump. *)
Theorem rv_jump_correct (rd xl target : Z) (c : emitter) (rest : list Z) : 0 <= rd < 32 -> xl = 32 \/ xl = 64 ->
  let at_ := clen c in let off := target - at_ in
  exists l0, rv_j_placeholder rd c = Some (at_, set_code c (code c ++ l0)) /\
    let c1 := set_code c (code c ++ l0 ++ rest) in
    if decide (reaches_j off)
    then exists l, rv_patch_j at_ target c1 = Some ((), set_code c (code c ++ l ++ rest)) /\
           length l = length l0 /\ goes l rd (fun _ => true) off xl
    else rv_patch_j at_ target c1 = None.
Proof.
  intros Hd Hx at_ off. assert (Z0 : reaches_j 0) by (split; [unfold is_s; simpl; lia | done]).
  exists (bytes4 (jword 0x6f rd 0)). split.
  { unfold rv_j_placeholder. rewrite enc_j_word by (done || (unfold OP_JAL; lia)). apply uncompressed_wo. }
  cbv zeta. destruct (decide (reaches_j off)) as [Hr|N].
  - exists (bytes4 (jword 0x6f rd off)). pose proof (ju_range off). split_and!.
    + exact (patch_j_mid c (code c) rd 0 rest target Hd Hr).
    + done.
    + apply goes_jump; try done. split_and!; [unfold is_u, jword; lia | apply jword_3 | by left].
  - pose proof (ju_range 0). unfold rv_patch_j, mbind, M_bind. unfold at_ at 1, clen.
    rewrite code_word_mid by (unfold is_u, jword; lia). fold off.
    replace (rv_enc_j 0 0 off) with (@None Z); [done|]. unfold rv_enc_j, need_even, need.
    rewrite (proj2 (need_reg_some 0)) by lia. cbn [mbind option_bind].
    destruct (Z.eqb_spec (Z.land off 1) 0) as [He|]; [|done]. cbn [mbind option_bind].
    destruct (rv_fits off 21) eqn:Ef; [|done]. exfalso. apply N. by apply rv_fits_spec in Ef.
Qed.

(** The two-byte jump and branches patched by branch relaxation reach their targets
    as the long ones do, on either width of core; out of reach, or on a register the
    short form cannot name, they are refused and nothing changes. *)
Theorem rv_short_branch_correct (ne : bool) (rs1 xl target : Z) (c : emitter) (rest : list Z) : xl = 32 \/ xl = 64 ->
  let at_ := clen c in let off := target - at_ in
  rv_c_placeholder c = Some (at_, set_code c (code c ++ [1; 0])) /\
  let c1 := set_code c (code c ++ [1; 0] ++ rest) in
  (if decide (-2048 <= off <= 2046 /\ off mod 2 = 0)
   then exists l, rv_patch_cj at_ target c1 = Some (true, set_code c (code c ++ l ++ rest)) /\ length l = 2%nat /\
          goes l 0 (fun _ => true) off xl
   else rv_patch_cj at_ target c1 = Some (false, c1)) /\
  (if decide ((-256 <= off <= 254 /\ off mod 2 = 0) /\ 8 <= rs1 <= 15)
   then exists l, rv_patch_cb at_ ne rs1 target c1 = Some (true, set_code c (code c ++ l ++ rest)) /\ length l = 2%nat /\
          goes l 0 (fun x => if ne then negb (x rs1 =? x 0) else x rs1 =? x 0) off xl
   else rv_patch_cb at_ ne rs1 target c1 = Some (false, c1)).
Proof.
  intros Hx at_ off. split.
  { unfold rv_c_placeholder, mbind, M_bind, here, code_u16, code_byte, mret, M_ret, set_code, mbind, M_bind.
    cbn [code g_rvc g_rvc_xlen rv_ext]. unfold at_. by rewrite <- app_assoc. }
  cbv zeta. assert (P : forall h, code_patch16 at_ h (set_code c (code c ++ [1; 0] ++ rest))
    = Some ((), set_code c (code c ++ bytes2 h ++ rest))).
  { intros h. unfold code_patch16. pose proof (code_set_2 c (code c) 1 0 rest (Z.land h 0xff) (Z.shiftr h 8)) as E.
    rewrite land_ff_twice in E. exact E. }
  split.
  - unfold rv_patch_cj. fold off. rewrite even_mod. destruct (decide _) as [[Ho He]|N].
    + destruct (Z.ltb_spec off (-2048)), (Z.ltb_spec 2046 off); try lia. rewrite He. cbn [orb negb Z.eqb].
      eexists. split; [unfold mbind, M_bind; rewrite P; reflexivity|]. split; [done|]. pose proof (ju_range off).
      apply goes_jump; [lia | split; [unfold is_s; simpl; lia | by rewrite even_mod] |].
      apply short_codes; [by apply cj_short | unfold is_u, jword; lia | apply jword_3].
    + destruct (Z.ltb_spec off (-2048)), (Z.ltb_spec 2046 off), (Z.eqb_spec (off mod 2) 0); try done. lia.
  - unfold rv_patch_cb. fold off. rewrite even_mod. destruct (decide _) as [[[Ho He] Hr]|N].
    + destruct (Z.ltb_spec off (-256)), (Z.ltb_spec 254 off), (Z.ltb_spec rs1 8), (Z.ltb_spec 15 rs1); try lia.
      rewrite He. cbn [orb negb Z.eqb]. eexists. split; [unfold mbind, M_bind; rewrite P; reflexivity|]. split; [done|].
      assert (G : goes (bytes2 (cb_word ne rs1 (Z.land (u32 off) 0x1ff))) 0 (fun x => branch_holds xl (b2z ne) (x rs1) (x 0)) off xl).
      { apply goes_branch; [destruct ne; unfold is_cond; simpl; lia | lia | lia |
          split; [unfold is_s; simpl; lia | by rewrite even_mod] |].
        apply short_codes; [by apply cb_short | apply bword_u; destruct ne; simpl; lia | apply bword_3]. }
      intros s A1 A2 A3 A4 A5 A6. specialize (G s A1 A2 A3 A4 A5 A6). by destruct ne.
    + destruct (Z.ltb_spec off (-256)), (Z.ltb_spec 254 off), (Z.eqb_spec (off mod 2) 0), (Z.ltb_spec rs1 8), (Z.ltb_spec 15 rs1);
        try done. exfalso. apply N. lia.
Qed.
End Go.

Lemma rv_branch_correct_witness : exists l,
  rv_patch_b_checked 4 20 (Emitter ([1; 0; 1; 0] ++ [0x63; 0x10; 0xb5; 0x00] ++ [1; 0]) true 64 0)
  = Some (true, Emitter ([1; 0; 1; 0] ++ l ++ [1; 0]) true 64 0) /\
  goes no_sys no_fp l 0 (fun x => negb (x 10 =? x 11)) 16 64.
Proof.
  destruct (rv_branch_correct no_sys no_fp 1 10 11 64 20 (Emitter [1; 0; 1; 0] true 64 0) [1; 0]) as (l0 & E0 & H);
    [by right; left | lia | lia | by right |].
  assert (El : l0 = bytes4 (bword 0x63 1 10 11 0)) by (vm_compute in E0; by injection E0 as <-).
  destruct (decide (reaches_b _)) as [_|N]; [|exfalso; apply N; vm_compute; intuition discriminate].
  destruct H as (l & E & _ & G). exists l. split; [|exact G]. subst l0. etransitivity; [|exact E]. vm_compute. reflexivity.
Defined.

Lemma rv_jump_correct_witness : exists l0 l,
  rv_patch_j 0 0x1000 (Emitter (l0 ++ [1; 0]) false 32 0) = Some ((), Emitter (l ++ [1; 0]) false 32 0) /\
  goes no_sys no_fp l 1 (fun _ => true) 0x1000 32.
Proof.
  destruct (rv_jump_correct no_sys no_fp 1 32 0x1000 (Emitter [] false 32 0) [1; 0]) as (l0 & _ & H); [lia | by left |].
  destruct (decide (reaches_j _)) as [_|N]; [|exfalso; apply N; vm_compute; intuition discriminate].
  destruct H as (l & E & _ & G). exists l0, l. split; [exact E | exact G].
Defined.

Lemma rv_short_branch_correct_witness : exists l,
  rv_patch_cb 0 true 9 (-256) (Emitter [1; 0] true 32 0) = Some (true, Emitter l true 32 0) /\
  goes no_sys no_fp l 0 (fun x => negb (x 9 =? x 0)) (-256) 32.
Proof.
  destruct (rv_short_branch_correct no_sys no_fp true 9 32 (-256) (Emitter [] true 32 0) []) as (_ & _ & H); [by left|].
  destruct (decide _) as [_|N]; [|exfalso; apply N; vm_compute; intuition discriminate]. destruct H as (l & E & _ & G). exists l.
  split; [|exact G]. etransitivity; [exact E|]. cbn [app code]. by rewrite app_nil_r.
Defined.
