(* ===== verification/RvTrap.v ===== *)
(** * Machine mode of the simulated core: CSRs, traps, interrupts

    The rest of [src/tools/embsim/riscv.c]: the control and status registers, the
    system instructions, trap entry and return, interrupts, the whole of [step] and
    the reset. What the core asks of the rest of the simulator is a parameter: the
    devices' clock ([sim_advance], [sim_next_event], [sim_event_coming]), an attached
    interrupt controller, semihosting, the instruction costs and the floating-point
    unit. The analyses and the trace only observe and are left out. *)
From stdpp Require Import base numbers list option.
From Stdlib Require Import ZArith Lia.
From S2P Require Import Prelude Bus RvExpand RvSim RvExec RvCode.

Local Open Scope Z_scope.

(** ** The registers *)

(** The fields of [rv_state] the integer instructions do not use, and those of the
    simulation the core counts in. *)
Inductive field :=
  | Priv | Mstatus | Mie | Mtvec | Mepc | Mcause | Mtval | Mscratch | Medeleg | Mideleg | Mcounteren | Mcountinhibit | Menvcfg
  | Pmpcfg (n : Z) | Pmpaddr (n : Z) | McycleOff | MinstretOff | CycNow | InsnNow | Fflags | Frm
  | Mpcer | Mpcmr | Mpccr | MpcCyc | MpcIns | MpcIdle | Idle | Tselect | Tdata1 (n : Z) | Tdata2 (n : Z) | Tcontrol | GpioOen | GpioOut
  | Cycles | Insns | SimState.
#[export] Instance field_eq_dec : EqDecision field.
Proof. solve_decision. Defined.

Definition csr_file : Type := field -> Z.
Definition setf (f : field) (v : Z) (c : csr_file) : csr_file := fun g => if decide (g = f) then v else c g.
Lemma setf_same f v c : setf f v c f = v.
Proof. unfold setf. by rewrite decide_True. Qed.
Lemma setf_other f v c g : g <> f -> setf f v c g = c g.
Proof. intros N. unfold setf. by rewrite decide_False. Qed.

Definition PRV_U := 0.
Definition PRV_M := 3.
Definition MSTATUS_MIE := 0x8.
Definition MSTATUS_MPIE := 0x80.
Definition MSTATUS_MPP := 0x1800.
Definition MSTATUS_FS := 0x6000.
Definition MSTATUS_MPRV := 0x20000.
Definition MSTATUS_TW := 0x200000.
Definition MIP_MSIP := 0x8.
Definition MIP_MTIP := 0x80.
Definition IRQ_MSI := 3.
Definition IRQ_MTI := 7.
Definition EXC_ECALL_U := 8.
Definition EXC_ECALL_M := 11.
Definition RUN := 0.
Definition END_LOCKUP := 2.
Definition END_IDLE := 3.

Definition has (v m : Z) : bool := negb (Z.land v m =? 0).
Definition not64 (m : Z) : Z := u64 (Z.lnot m).
Definition set_lo (old v : Z) : Z := Z.lor (Z.land old (not64 0xffffffff)) (u32 v).
Definition set_hi (old v : Z) : Z := Z.lor (Z.land old 0xffffffff) (u64 (Z.shiftl v 32)).

Section Machine.
Context {W : Type}.
Local Abbreviation state := (rv_state W csr_file).
Implicit Types s : state.

Definition set_csrs s (c : csr_file) : state :=
  RvState (xlen s) (x s) (pc s) (npc s) (resv s) (resv_addr s) (resv_val s)
    (trap s) (cause s) (tval s) (insn s) (changed s) (esp s) (mem s) c.
Definition put (f : field) (v : Z) s : state := set_csrs s (setf f v (csrs s)).
Definition get s (f : field) : Z := csrs s f.

(** The CLINT's registers, which the bus reads and writes as a device's: the software
    interrupt, the time compared and the time's offset; a software interrupt raised,
    and the registers of a core out of reset. *)
Context (msip mtimecmp mtime_off : W -> Z) (raise_msip clint_reset : W -> W).

(** An interrupt controller attached to the core. *)
Record rv_eic := Eic { eic_pending : W -> Z; eic_claim : option (Z -> W -> W) }.
Context (eic : option rv_eic).
Definition pending_id s : Z := match eic with Some e => eic_pending e (world (mem s)) | None => 0 end.
Definition has_eic : bool := match eic with Some _ => true | None => false end.
Definition in_world (f : W -> W) s : state := set_mem s (set_world (mem s) (touched (mem s)) (f (world (mem s)))).

Context (sim_next_event : state -> option Z) (sim_advance : Z -> W -> W) (sim_event_coming : state -> bool).
Context (rv_semihost : state -> state * bool) (rv_fp_exec : Z -> state -> state * bool).
Context (rv_cost : list Z -> Z * bool) (counting : bool).

Definition sim_end (why : Z) s : state := put SimState why s.

(** ** Trap entry *)

Definition trap_enter (cause tval : Z) (intr : bool) s : state :=
  let st := get s Mstatus in
  let s := put Mepc (pc s) s in
  let s := put Mcause (if intr then Z.lor (Z.shiftl 1 (xlen s - 1)) cause else cause) s in
  let s := put Mtval (rv_xl s tval) s in
  let st := Z.lor (Z.land st (not64 MSTATUS_MPIE)) (if has st MSTATUS_MIE then MSTATUS_MPIE else 0) in
  let st := Z.land st (not64 MSTATUS_MIE) in
  let st := Z.lor (Z.land st (not64 MSTATUS_MPP)) (Z.shiftl (get s Priv) 11) in
  let s := put Mstatus st s in
  let s := put Priv PRV_M s in
  let s := set_resv s false (resv_addr s) (resv_val s) in
  let base := Z.land (get s Mtvec) (not64 3) in
  set_pc s (if intr && has (get s Mtvec) 1 then u64 (base + 4 * cause) else base).

(** ** The counters and the CSRs *)

Definition rv_mtime s : Z := u64 (get s Cycles + mtime_off (world (mem s))).
Definition rv_mip s : Z :=
  let p := if has (msip (world (mem s))) 1 then MIP_MSIP else 0 in
  if mtimecmp (world (mem s)) <=? rv_mtime s then Z.lor p MIP_MTIP else p.

Definition mstatus_rd s : Z :=
  let v := get s Mstatus in
  let v := if Z.land v MSTATUS_FS =? MSTATUS_FS then Z.lor v (Z.shiftl 1 (xlen s - 1)) else v in
  let v := if xlen s =? 64 then Z.lor v 0xa00000000 else v in
  rv_xl s v.

Definition misa s : Z :=
  if esp s then 0x40101104
  else let ext := 0x10112d in
       if xlen s =? 64 then Z.lor (Z.shiftl 2 62) ext else Z.lor (Z.shiftl 1 30) ext.

Definition fs_on s : bool := has (get s Mstatus) MSTATUS_FS.
Definition rv_fp_dirty s : state := put Mstatus (Z.lor (get s Mstatus) MSTATUS_FS) s.

Definition mpccr_now s : Z :=
  let v := get s Mpccr in let e := get s Mpcer in
  if negb (has (get s Mpcmr) 1) then v
  else
    let idle := u64 (get s Idle - get s MpcIdle) in
    let n := if has e 1 then u64 (get s CycNow - get s MpcCyc - idle)
             else if has e 2 then u64 (get s InsnNow - get s MpcIns) else 0 in
    let n := if has e 16 then u64 (n + idle) else n in
    let v := u64 (v + n) in
    if 0xffffffff <? v then if has (get s Mpcmr) 2 then 0xffffffff else Z.land v 0xffffffff else v.

Definition esp_csr_rd (csr : Z) s : option Z :=
  if (0x3a0 <=? csr) && (csr <=? 0x3a3) then Some (get s (Pmpcfg (csr - 0x3a0)))
  else if (0x3b0 <=? csr) && (csr <=? 0x3bf) then Some (get s (Pmpaddr (csr - 0x3b0)))
  else match csr with
  | 0xf11 => Some 0x612 | 0xf12 => Some 0x80000001 | 0xf13 => Some 1 | 0xf14 => Some 0
  | 0x300 => Some (get s Mstatus) | 0x301 => Some (misa s) | 0x305 => Some (get s Mtvec)
  | 0x340 => Some (get s Mscratch) | 0x341 => Some (get s Mepc) | 0x342 => Some (get s Mcause) | 0x343 => Some (get s Mtval)
  | 0x7a0 => Some (get s Tselect)
  | 0x7a1 => Some (get s (Tdata1 (Z.land (get s Tselect) 7)))
  | 0x7a2 => Some (get s (Tdata2 (Z.land (get s Tselect) 7)))
  | 0x7a5 => Some (get s Tcontrol)
  | 0x7e0 => Some (get s Mpcer) | 0x7e1 => Some (get s Mpcmr) | 0x7e2 => Some (mpccr_now s)
  | 0x803 => Some (get s GpioOen) | 0x804 => Some 0 | 0x805 => Some (get s GpioOut)
  | _ => None
  end.

(** The performance counter counted up to here, from here as written. *)
Definition mpc_restart (csr v : Z) s : state :=
  let s := put Mpccr (if csr =? 0x7e2 then v else mpccr_now s) s in
  let s := put MpcCyc (get s Cycles) s in
  let s := put MpcIns (get s Insns) s in
  put MpcIdle (get s Idle) s.

Definition esp_csr_wr (csr v : Z) s : state :=
  let v := u32 v in
  if (0x3a0 <=? csr) && (csr <=? 0x3a3) then put (Pmpcfg (csr - 0x3a0)) v s
  else if (0x3b0 <=? csr) && (csr <=? 0x3bf) then put (Pmpaddr (csr - 0x3b0)) v s
  else match csr with
  | 0x300 =>
      let m := Z.lor (Z.lor MSTATUS_MIE MSTATUS_MPIE) MSTATUS_TW in
      let mpp := if has (Z.shiftr v 11) 1 then MSTATUS_MPP else 0 in
      put Mstatus (Z.lor (Z.lor (Z.land (get s Mstatus) (not64 (Z.lor m MSTATUS_MPP))) (Z.land v m)) mpp) s
  | 0x305 => put Mtvec (Z.lor (Z.land v (not64 0xff)) 1) s
  | 0x340 => put Mscratch v s
  | 0x341 => put Mepc (Z.land v (not64 1)) s
  | 0x342 => put Mcause (Z.land v 0x8000001f) s
  | 0x343 => put Mtval v s
  | 0x7a0 => put Tselect (Z.land v 7) s
  | 0x7a1 => put (Tdata1 (Z.land (get s Tselect) 7)) v s
  | 0x7a2 => put (Tdata2 (Z.land (get s Tselect) 7)) v s
  | 0x7a5 => put Tcontrol v s
  | 0x7e0 => put Mpcer (Z.land v 0x7ff) (mpc_restart csr v s)
  | 0x7e1 => put Mpcmr (Z.land v 3) (mpc_restart csr v s)
  | 0x7e2 => mpc_restart csr v s
  | 0x803 => put GpioOen (Z.land v 0xff) s
  | 0x805 => put GpioOut (Z.land v 0xff) s
  | _ => s
  end.

Definition in_range (lo csr hi : Z) : bool := (lo <=? csr) && (csr <=? hi).

(** The CSRs with a number of their own. *)
Definition csr_one (csr : Z) s : option Z :=
  let x32 := xlen s =? 32 in
  let cyc := u64 (get s CycNow + get s McycleOff) in
  let ins := u64 (get s InsnNow + get s MinstretOff) in
  match csr with
  | 0x300 => Some (mstatus_rd s) | 0x301 => Some (misa s)
  | 0x302 => Some (get s Medeleg) | 0x303 => Some (get s Mideleg) | 0x304 => Some (get s Mie)
  | 0x305 => Some (get s Mtvec) | 0x306 => Some (get s Mcounteren)
  | 0x30a => Some (rv_xl s (get s Menvcfg))
  | 0x310 => if x32 then Some 0 else None
  | 0x31a => if x32 then Some (Z.shiftr (get s Menvcfg) 32) else None
  | 0x320 => Some (get s Mcountinhibit)
  | 0x340 => Some (get s Mscratch) | 0x341 => Some (get s Mepc) | 0x342 => Some (get s Mcause) | 0x343 => Some (get s Mtval)
  | 0x344 => Some (rv_mip s)
  | 0xb00 | 0xc00 => Some (rv_xl s cyc)
  | 0xb02 | 0xc02 => Some (rv_xl s ins)
  | 0xc01 => Some (rv_xl s (rv_mtime s))
  | 0xb80 | 0xc80 => if x32 then Some (Z.shiftr cyc 32) else None
  | 0xb82 | 0xc82 => if x32 then Some (Z.shiftr ins 32) else None
  | 0xc81 => if x32 then Some (Z.shiftr (rv_mtime s) 32) else None
  | 0xf11 | 0xf12 | 0xf13 | 0xf14 | 0xf15 => Some 0
  | _ => None
  end.

Definition csr_rd (csr : Z) (debug : bool) s : option Z :=
  if esp s then esp_csr_rd csr s
  else
    let x32 := xlen s =? 32 in
    if in_range 1 csr 3 then
      if negb (fs_on s) && negb debug then None
      else Some (if csr =? 1 then get s Fflags else if csr =? 2 then get s Frm
                 else Z.lor (u32 (Z.shiftl (get s Frm) 5)) (get s Fflags))
    else if in_range 0x323 csr 0x33f then Some 0
    else if in_range 0x3a0 csr 0x3af then
      if negb x32 && has csr 1 then None else Some (rv_xl s (get s (Pmpcfg (csr - 0x3a0))))
    else if in_range 0x3b0 csr 0x3ef then Some (rv_xl s (get s (Pmpaddr (csr - 0x3b0))))
    else if in_range 0xb03 csr 0xb1f || in_range 0xc03 csr 0xc1f
            || (x32 && (in_range 0xb83 csr 0xb9f || in_range 0xc83 csr 0xc9f)) then Some 0
    else csr_one csr s.

Definition mstatus_wr (v : Z) s : state :=
  let mask := Z.lor (Z.lor (Z.lor (Z.lor MSTATUS_MIE MSTATUS_MPIE) MSTATUS_FS) MSTATUS_MPRV) MSTATUS_TW in
  let mpp := Z.land (Z.shiftr v 11) 3 in
  let mask := if (mpp =? PRV_U) || (mpp =? PRV_M) then Z.lor mask MSTATUS_MPP else mask in
  put Mstatus (Z.lor (Z.land (get s Mstatus) (not64 mask)) (Z.land v mask)) s.

Definition touch s : state := set_mem s (set_world (mem s) true (world (mem s))).

Definition csr_wr (csr v : Z) s : state :=
  if esp s then esp_csr_wr csr v s
  else
    let x32 := xlen s =? 32 in
    let s := touch s in
    let cyc := u64 (get s CycNow + get s McycleOff) in
    let ins := u64 (get s InsnNow + get s MinstretOff) in
    match csr with
    | 1 => rv_fp_dirty (put Fflags (Z.land (u32 v) 31) s)
    | 2 => rv_fp_dirty (put Frm (Z.land (u32 v) 7) s)
    | 3 => rv_fp_dirty (put Frm (Z.land (u32 (Z.shiftr v 5)) 7) (put Fflags (Z.land (u32 v) 31) s))
    | 0x300 => mstatus_wr v s
    | 0x304 => put Mie (Z.land v (Z.lor (Z.lor MIP_MSIP MIP_MTIP) 0x800)) s
    | 0x305 => if Z.land v 3 <? 2 then put Mtvec (rv_xl s v) s else s
    | 0x306 => put Mcounteren (u32 v) s
    | 0x30a => put Menvcfg (if x32 then set_lo (get s Menvcfg) v else v) s
    | 0x31a => put Menvcfg (set_hi (get s Menvcfg) v) s
    | 0x320 => put Mcountinhibit (Z.land (u32 v) (u32 (Z.lnot 2))) s
    | 0x340 => put Mscratch (rv_xl s v) s
    | 0x341 => put Mepc (Z.land (rv_xl s v) (not64 1)) s
    | 0x342 => put Mcause (rv_xl s v) s
    | 0x343 => put Mtval (rv_xl s v) s
    | 0xb00 => put McycleOff (u64 (get s McycleOff + ((if x32 then set_lo cyc v else v) - cyc))) s
    | 0xb80 => put McycleOff (u64 (get s McycleOff + (set_hi cyc v - cyc))) s
    | 0xb02 => let n := u64 (ins + 1) in
               put MinstretOff (u64 (get s MinstretOff + ((if x32 then set_lo n v else v) - n))) s
    | 0xb82 => let n := u64 (ins + 1) in put MinstretOff (u64 (get s MinstretOff + (set_hi n v - n))) s
    | _ =>
        if in_range 0x3a0 csr 0x3af then put (Pmpcfg (csr - 0x3a0)) (rv_xl s v) s
        else if in_range 0x3b0 csr 0x3ef then
          put (Pmpaddr (csr - 0x3b0)) (Z.land (rv_xl s v) (if x32 then 0xffffffff else 0x3fffffffffffff)) s
        else s
    end.

(** CSRRW, CSRRS, CSRRC and their immediate forms. *)
Definition csr_insn (i : Z) s : state :=
  let csr := Z.shiftr i 20 in let rd := Z.land (Z.shiftr i 7) 31 in let rs1 := Z.land (Z.shiftr i 15) 31 in
  let f3 := Z.land (Z.shiftr i 12) 7 in
  let src := if has f3 4 then rs1 else x s rs1 in
  let write := (Z.land f3 3 =? 1) || negb (rs1 =? 0) in
  if (get s Priv <? Z.land (Z.shiftr csr 8) 3) || (write && ((Z.shiftr csr 10 =? 3) || (esp s && (csr =? 0x804))))
  then rv_illegal s
  else match csr_rd csr false s with
  | None => rv_illegal s
  | Some old =>
      if (get s Priv <? PRV_M) && in_range 0xc00 csr 0xc1f && negb (has (Z.shiftr (get s Mcounteren) (Z.land csr 31)) 1)
      then rv_illegal s
      else
        let s := if write
                 then csr_wr csr (if Z.land f3 3 =? 1 then src else if Z.land f3 3 =? 2 then Z.lor old src
                                  else Z.land old (not64 src)) s
                 else s in
        rv_wx rd old s
  end.

(** ** The system instructions *)

Definition wfi s : state :=
  if (get s Priv <? PRV_M) && has (get s Mstatus) MSTATUS_TW then rv_illegal s
  else if negb (pending_id s =? 0) then s
  else if negb (Z.land (get s Mie) (rv_mip s) =? 0) then s
  else match (if negb (get s Mie =? 0) || has_eic then sim_next_event s else None) with
       | Some cycles =>
           let s := put Cycles (u64 (get s Cycles + cycles)) s in
           let s := put Idle (u64 (get s Idle + cycles)) s in
           in_world (sim_advance cycles) s
       | None => sim_end END_IDLE s
       end.

Definition mret s : state :=
  if negb (get s Priv =? PRV_M) then rv_illegal s
  else
    let st := get s Mstatus in
    let mpp := Z.land (Z.shiftr st 11) 3 in
    let st := Z.lor (Z.land st (not64 MSTATUS_MIE)) (if has st MSTATUS_MPIE then MSTATUS_MIE else 0) in
    let st := Z.lor st MSTATUS_MPIE in
    let st := Z.land st (not64 MSTATUS_MPP) in
    let st := if negb (mpp =? PRV_M) then Z.land st (not64 MSTATUS_MPRV) else st in
    let s := put Mstatus st s in
    let s := put Priv mpp s in
    jump (get s Mepc) s.

Definition sys_insn (i rd f3 : Z) s : state :=
  if negb (f3 =? 0) then if f3 =? 4 then rv_illegal s else csr_insn i s
  else match i with
  | 0x00000073 => rv_trap (if get s Priv =? PRV_M then EXC_ECALL_M else EXC_ECALL_U) 0 s
  | 0x00100073 => let '(s, answered) := rv_semihost s in if answered then s else rv_trap EXC_BREAKPOINT (pc s) s
  | 0x30200073 => mret s
  | 0x10500073 => wfi s
  | _ => rv_illegal s
  end.

(** ** Interrupts and the step *)

(** [None]: none was taken. *)
Definition take_interrupt s : option state :=
  if (get s Priv =? PRV_M) && negb (has (get s Mstatus) MSTATUS_MIE) then None
  else match eic with
  | Some e =>
      let id := eic_pending e (world (mem s)) in
      if id =? 0 then None
      else let s := trap_enter id 0 true s in
           Some (match eic_claim e with Some f => in_world (f id) s | None => s end)
  | None =>
      let p := Z.land (get s Mie) (rv_mip s) in
      if p =? 0 then None
      else Some (trap_enter (if has p 0x800 then 11 else if has p MIP_MSIP then IRQ_MSI else IRQ_MTI) 0 true s)
  end.

(** The instruction at [pc]: its bits and its size. *)
Definition fetch s : state * option (Z * Z) :=
  if negb (Z.shiftr (pc s) 32 =? 0) then (s, None)
  else match fetch16 (mem s) (pc s) with
       | (m, None) => (set_mem s m, None)
       | (m, Some h0) =>
           let s := set_mem s m in
           if Z.land h0 3 =? 3 then
             match fetch16 (mem s) (u32 (pc s + 2)) with
             | (m, None) => (set_mem s m, None)
             | (m, Some h1) => (set_mem s m, Some (Z.lor h0 (u32 (Z.shiftl h1 16)), 4))
             end
           else (s, Some (h0, 2))
       end.

Definition insn_bytes (word size : Z) : list Z :=
  firstn (Z.to_nat size) [Z.land word 0xff; Z.land (Z.shiftr word 8) 0xff; Z.land (Z.shiftr word 16) 0xff; Z.land (Z.shiftr word 24) 0xff].

(** After an instruction that did not trap. *)
Definition retire (cost size : Z) (br : bool) s : state :=
  let far := br && negb (npc s =? u64 (pc s + size)) in
  let s := if far then put Cycles (u64 (get s Cycles + 2)) s else s in
  let cost := if far && esp s then u32 (cost + 2) else cost in
  let s := if counting then in_world (sim_advance cost) s else s in
  if (npc s =? pc s) && negb (changed s) && (get s SimState =? RUN) then
    let on := (get s Priv <? PRV_M) || has (get s Mstatus) MSTATUS_MIE in
    let src := negb (get s Mie =? 0) || has_eic in
    let now := negb (Z.land (get s Mie) (rv_mip s) =? 0) || negb (pending_id s =? 0) in
    if negb on || negb src || (negb now && negb (sim_event_coming s)) then sim_end END_IDLE s
    else set_pc s (npc s)
  else set_pc s (npc s).

Definition step_insn (word size : Z) s : state :=
  let '(cost, br) := rv_cost (insn_bytes word size) in
  let s := put CycNow (get s Cycles) s in
  let s := put InsnNow (get s Insns) s in
  let s := put Insns (u64 (get s Insns + 1)) s in
  let s := put Cycles (u64 (get s Cycles + cost)) s in
  let s := step_exec sys_insn rv_fp_exec word size s in
  if trap s then
    if cause s =? TRAP_WATCH then
      put Cycles (u64 (get s Cycles - cost)) (put Insns (u64 (get s Insns - 1)) s)
    else trap_enter (cause s) (tval s) false s
  else retire cost size br s.

Definition rv_step s : state :=
  match (if negb (get s Mie =? 0) || has_eic then take_interrupt s else None) with
  | Some s => s
  | None =>
      match fetch s with
      | (s, None) => if pc s =? Z.land (get s Mtvec) (not64 3) then sim_end END_LOCKUP s
                     else trap_enter EXC_IFETCH_ACCESS (pc s) false s
      | (s, Some (word, size)) => step_insn word size s
      end
  end.

(** ** Reset, and a software interrupt *)

(** [None]: the image's width is not the core's. *)
Definition cpu_reset (model_xlen : Z) (elf64 : bool) (entry : Z) s : option state :=
  if negb (model_xlen =? 0) && negb (eqb (model_xlen =? 64) elf64) then None
  else
    let c := setf Priv PRV_M (fun f => match f with Cycles | Insns | SimState => csrs s f | _ => 0 end) in
    let c := if esp s then setf Mpcmr 3 (setf Mtvec 1 c) else c in
    Some (RvState (if negb (model_xlen =? 0) then model_xlen else if elf64 then 64 else 32) (fun _ => 0)
            (if esp s then entry else 0x1000) 0 false 0 0 false 0 0 0 false (esp s) (mem (in_world clint_reset s)) c).

Definition cpu_interrupt (n : Z) s : state := if n =? IRQ_MSI then in_world raise_msip s else s.
End Machine.
