(* ===== verification/RvMachine.v ===== *)
(** * What machine mode guarantees

    Which registers an instruction can change: the integer instructions none of the
    machine's, a program in user mode only its own. Traps save what returning restores,
    interrupts are taken when they are enabled, and the state keeps its form through
    every step. *)
From stdpp Require Import base numbers list option.
From Stdlib Require Import ZArith Lia Btauto.
From S2P Require Import Prelude Bus RvEncode RvExpand RvLayouts RvSim RvExec RvCode RvTrap.

Local Open Scope Z_scope.

(** ** What the integer instructions leave alone *)

Section Integer.
Context {W C : Type}.
Implicit Types s : rv_state W C.

(** The machine's registers and the kind of core. *)
Definition same_csrs s s' : Prop := csrs s' = csrs s /\ xlen s' = xlen s /\ esp s' = esp s /\ pc s' = pc s.

#[global] Instance same_csrs_pre : PreOrder same_csrs.
Proof.
  split; [by intros s | intros s t u (A1 & A2 & A3 & A4) (B1 & B2 & B3 & B4); unfold same_csrs; split_and!; congruence].
Qed.
Lemma sc_refl s : same_csrs s s.
Proof. reflexivity. Qed.
Lemma sc_then s t u : same_csrs s t -> same_csrs t u -> same_csrs s u.
Proof. intros A B. by transitivity t. Qed.
Lemma sc_trap c t s : same_csrs s (rv_trap c t s).
Proof. unfold rv_trap. by destruct (trap s). Qed.
Lemma sc_illegal s : same_csrs s (rv_illegal s).
Proof. apply sc_trap. Qed.
Lemma sc_wx rd v s : same_csrs s (rv_wx rd v s).
Proof. unfold rv_wx. by destruct (rd =? 0). Qed.
Lemma sc_jump t s : same_csrs s (jump t s).
Proof. done. Qed.
Lemma sc_resv r a v s : same_csrs s (set_resv s r a v).
Proof. done. Qed.
Lemma sc_mem m s : same_csrs s (set_mem s m).
Proof. done. Qed.
Lemma sc_amo_fault s : same_csrs s (amo_fault s).
Proof. unfold amo_fault. by destruct (_ =? _). Qed.
End Integer.
(** Peels the last operation off until the states meet. *)
Ltac sc_last L := eapply sc_then; [|apply L].
Ltac sc := solve [repeat first [eassumption | apply sc_refl | sc_last @sc_wx | sc_last @sc_illegal | sc_last @sc_trap
  | sc_last @sc_jump | sc_last @sc_resv | sc_last @sc_amo_fault | sc_last @sc_mem]].

Section Keeps.
Context {W C : Type}.
Implicit Types s : rv_state W C.

Lemma sc_load_parts fuel a i n v s : same_csrs s (load_parts fuel a i n v s).1.
Proof.
  revert i v s. induction fuel as [|fuel IH]; intros i v s; simpl; [done|]. destruct (n <=? i); [done|].
  destruct (bus_read _ _ _) as [m [y|]]; simpl; [|by eapply sc_then; [apply (sc_mem m) | apply sc_trap]].
  eapply sc_then; [apply (sc_mem m) | apply IH].
Qed.
Lemma sc_store_parts fuel a i n v s : same_csrs s (store_parts fuel a i n v s).
Proof.
  revert i s. induction fuel as [|fuel IH]; intros i s; simpl; [done|]. destruct (n <=? i); [done|].
  destruct (bus_write _ _ _ _) as [m ok]. destruct ok; [eapply sc_then; [apply (sc_mem m) | apply IH]|].
  by eapply sc_then; [apply (sc_mem m) | apply sc_trap].
Qed.
Lemma sc_access a n w s : same_csrs s (access_stops a n w s).1.
Proof.
  unfold access_stops. destruct (beyond a n); [apply sc_trap|]. destruct (watches (mem s)); [done|].
  destruct (bus_watch_check _ _ _ _) as [m []]; simpl; [|done]. by eapply sc_then; [apply (sc_mem m) | apply sc_trap].
Qed.
Lemma sc_load a n s : same_csrs s (rv_load a n s).1.
Proof.
  unfold rv_load. destruct (trap s); [done|]. pose proof (sc_access a n false s) as A.
  destruct (access_stops a n false s) as [s1 []]; [done|]. destruct (bus_region _ _ _); [done|].
  eapply sc_then; [exact A | apply sc_load_parts].
Qed.
Lemma sc_store a n v s : same_csrs s (rv_store a n v s).
Proof.
  unfold rv_store. destruct (trap s); [done|]. pose proof (sc_access a n true s) as A.
  destruct (access_stops a n true s) as [s1 []]; [done|]. destruct (bus_region _ _ _) as [r|].
  - destruct (r_rom r); [done|]. eapply sc_then; [exact A | apply sc_mem].
  - eapply sc_then; [exact A | apply sc_store_parts].
Qed.
Lemma sc_op_imm i rd f3 a imm s : same_csrs s (op_imm i rd f3 a imm s).
Proof. unfold op_imm. cbv zeta. repeat case_match; sc. Qed.
Lemma sc_op_reg rd f3 f7 a b s : same_csrs s (op_reg rd f3 f7 a b s).
Proof. unfold op_reg. cbv zeta. repeat case_match; sc. Qed.
Lemma sc_op_w i rd f3 f7 a b im s : same_csrs s (op_w i rd f3 f7 a b im s).
Proof. unfold op_w. cbv zeta. repeat case_match; sc. Qed.
Lemma sc_sc_end rd n a b m ok s : same_csrs s (amo_sc_end rd n a b m ok s).
Proof.
  unfold amo_sc_end. cbv zeta. pose proof (sc_store a n (Z.land b m) s) as A. destruct ok; [set (t := rv_store _ _ _ _) in *|].
  - destruct (trap t); [done|]. eapply sc_then; [exact A|]. eapply sc_then; [apply sc_resv | apply sc_wx].
  - destruct (trap s); [done|]. eapply sc_then; [apply sc_resv | apply sc_wx].
Qed.
Lemma sc_amo i rd f3 a b s : same_csrs s (amo i rd f3 a b s).
Proof.
  unfold amo. cbv zeta. set (n := if f3 =? 2 then _ else _). set (m := if n =? 4 then _ else _). clearbody n m.
  unfold amo_sc. pose proof (sc_load a n s) as A. destruct (rv_load a n s) as [s1 v]. simpl in A.
  repeat case_match; try sc.
  all: first [apply sc_sc_end | sc_last @sc_sc_end; sc | sc_last @sc_store; sc | sc_last @sc_wx; sc_last @sc_store; sc].
Qed.
Lemma sc_load_insn i rd f3 a s : same_csrs s (load_insn i rd f3 a s).
Proof.
  unfold load_insn. cbv zeta. set (ad := rv_xl s _). set (n := Z.shiftl 1 _).
  pose proof (sc_load ad n s) as A. destruct (rv_load ad n s) as [s1 v]. simpl in A. repeat case_match; sc.
Qed.

(** A relation the system and floating-point instructions keep, every instruction keeps. *)
Lemma exec32_rel (sys : Z -> Z -> Z -> rv_state W C -> rv_state W C) (fp : Z -> rv_state W C -> rv_state W C * bool)
    (R : rv_state W C -> rv_state W C -> Prop) i s :
  (forall s s', same_csrs s s' -> R s s') -> (forall s t u, R s t -> same_csrs t u -> R s u) ->
  (forall i rd f3, R s (sys i rd f3 s)) -> (forall i, R s (fp i s).1) -> R s (exec32 sys fp i s).
Proof.
  intros H0 H1 HS HF. unfold exec32. cbv zeta. specialize (HF i). destruct (fp i s) as [sf known]. simpl in HF.
  repeat case_match; try (apply H0; first [sc | apply sc_load_insn | apply sc_store | apply sc_op_imm | apply sc_op_reg
    | apply sc_op_w | apply sc_amo]); try apply HS; try done.
  all: eapply H1; [exact HF | apply sc_illegal].
Qed.
End Keeps.

(** ** Bits of the status register *)

Lemma has_bit v k : 0 <= k -> has v (2 ^ k) = Z.testbit v k.
Proof.
  intros Hk. unfold has. destruct (Z.testbit v k) eqn:E.
  - apply negb_true_iff, Z.eqb_neq. intros Z0. assert (F : Z.testbit (Z.land v (2 ^ k)) k = false) by (by rewrite Z0, Z.bits_0).
    rewrite Z.land_spec, E, Z.pow2_bits_true in F by lia. done.
  - apply negb_false_iff, Z.eqb_eq. apply Z.bits_inj'. intros j Hj. rewrite Z.land_spec, Z.bits_0.
    destruct (Z.eq_dec j k) as [->|]; [by rewrite E | rewrite Z.pow2_bits_false by lia; apply andb_false_r].
Qed.
Lemma not64_bit m j : 0 <= j < 64 -> Z.testbit (not64 m) j = negb (Z.testbit m j).
Proof. intros Hj. unfold not64, uwrap. rewrite Z.mod_pow2_bits_low, Z.lnot_spec by lia. done. Qed.
Lemma not64_high m j : 64 <= j -> Z.testbit (not64 m) j = false.
Proof. intros Hj. unfold not64, uwrap. apply Z.mod_pow2_bits_high. lia. Qed.

(** Two values that agree on the bits a mask keeps. *)
Lemma masked_eq m v w : (forall j, 0 <= j < 64 -> Z.testbit m j = false -> Z.testbit v j = Z.testbit w j) ->
  Z.land v (not64 m) = Z.land w (not64 m).
Proof.
  intros H. apply Z.bits_inj'. intros j Hj. rewrite !Z.land_spec. destruct (Z.lt_ge_cases j 64).
  - rewrite not64_bit by lia. destruct (Z.testbit m j) eqn:E; [by rewrite !andb_false_r|]. by rewrite (H j) by (done || lia).
  - by rewrite not64_high, !andb_false_r by lia.
Qed.

(** ** User mode *)

(** What a program in user mode cannot change: all but its floating-point flags, the
    dedicated GPIO of the ESP32-C3, and what the simulation counts. *)
Definition protected (f : field) : bool :=
  match f with
  | Fflags | Frm | GpioOen | GpioOut | Cycles | Insns | CycNow | InsnNow | Idle | SimState | Mstatus => false
  | _ => true
  end.
(** What entering a trap sets. *)
Definition trap_field (f : field) : bool := match f with Priv | Mepc | Mcause | Mtval => true | _ => false end.

Section User.
Context {W : Type}.
Local Abbreviation state := (rv_state W csr_file).
Implicit Types s : state.

Record confined s s' : Prop := {
  cf_fields f : protected f = true -> get s' f = get s f;
  cf_mstatus : Z.land (get s' Mstatus) (not64 MSTATUS_FS) = Z.land (get s Mstatus) (not64 MSTATUS_FS);
  cf_core : xlen s' = xlen s /\ esp s' = esp s }.

#[global] Instance confined_pre : PreOrder confined.
Proof.
  split; [by intros s | intros s t u [A1 A2 (A3 & A4)] [B1 B2 (B3 & B4)]; constructor].
  - intros f Hf. rewrite B1, A1; done.
  - by rewrite B2.
  - split; congruence.
Qed.
Lemma cf_then s t u : confined s t -> confined t u -> confined s u.
Proof. intros A B. by transitivity t. Qed.
Lemma cf_same s s' : same_csrs s s' -> confined s s'.
Proof. intros (E & X & S & _). constructor; [intros f _; unfold get; by rewrite E | unfold get; by rewrite E | done]. Qed.
Lemma cf_put f v s : protected f = false -> f <> Mstatus -> confined s (put f v s).
Proof.
  intros Hf Hm. constructor; try done; unfold get, put; simpl.
  - intros g Hg. apply setf_other. intros ->. congruence.
  - by rewrite setf_other.
Qed.
Lemma cf_fp_dirty s : confined s (rv_fp_dirty s).
Proof.
  constructor; try done; unfold rv_fp_dirty, get, put; simpl.
  - intros g Hg. apply setf_other. by intros ->.
  - rewrite setf_same. apply masked_eq. intros j Hj E. by rewrite Z.lor_spec, E, orb_false_r.
Qed.

(** The numbers of the machine's CSRs. *)
Lemma machine_range lo hi csr : 0x300 <= lo -> hi <= 0x3ff -> Z.land (Z.shiftr csr 8) 3 = 0 -> in_range lo csr hi = false.
Proof.
  intros Hl Hh E. unfold in_range. destruct (Z.leb_spec lo csr), (Z.leb_spec csr hi); try done. exfalso.
  assert (Es : Z.shiftr csr 8 = 3).
  { rewrite Z.shiftr_div_pow2 by lia. symmetry. apply Z.div_unique with (csr - 0x300); lia. }
  by rewrite Es in E.
Qed.

Ltac cf_last L := eapply cf_then; [|apply L; done].
Ltac cf := solve [repeat first [reflexivity | apply cf_put; done | cf_last @cf_put | cf_last @cf_fp_dirty]].

Lemma cf_esp_csr_wr csr v s : Z.land (Z.shiftr csr 8) 3 = 0 -> confined s (esp_csr_wr csr v s).
Proof.
  intros E. unfold esp_csr_wr. cbv zeta.
  change ((0x3a0 <=? csr) && (csr <=? 0x3a3)) with (in_range 0x3a0 csr 0x3a3).
  change ((0x3b0 <=? csr) && (csr <=? 0x3bf)) with (in_range 0x3b0 csr 0x3bf).
  rewrite !machine_range by (done || lia).
  repeat case_match; try cf; vm_compute in E; discriminate.
Qed.

Lemma cf_csr_wr csr v s : Z.land (Z.shiftr csr 8) 3 = 0 -> confined s (csr_wr csr v s).
Proof.
  intros E. unfold csr_wr. destruct (esp s); [by apply cf_esp_csr_wr|]. cbv zeta.
  rewrite (machine_range 0x3a0 0x3af), (machine_range 0x3b0 0x3ef) by (done || lia).
  eapply cf_then; [apply (cf_same s (touch s)); done|]. set (t := touch s). clearbody t.
  repeat case_match; try cf; vm_compute in E; discriminate.
Qed.

(** The privilege a CSR number asks for. *)
Lemma csr_priv csr s : get s Priv = PRV_U -> (get s Priv <? Z.land (Z.shiftr csr 8) 3) = false -> Z.land (Z.shiftr csr 8) 3 = 0.
Proof.
  intros -> H. apply Z.ltb_ge in H. pose proof (land_bound (Z.shiftr csr 8) 3 ltac:(lia)). unfold PRV_U in H. lia.
Qed.

Context (msip mtimecmp mtime_off : W -> Z) (eic : option (@rv_eic W)).
Context (sim_next_event : state -> option Z) (sim_advance : Z -> W -> W) (sim_event_coming : state -> bool).
Context (rv_semihost : state -> state * bool) (rv_fp_exec : Z -> state -> state * bool).
Context (rv_cost : list Z -> Z * bool) (counting : bool).

Local Abbreviation csr_insn := (csr_insn msip mtimecmp mtime_off).
Local Abbreviation wfi := (wfi msip mtimecmp mtime_off eic sim_next_event sim_advance).
Local Abbreviation sys_insn := (sys_insn msip mtimecmp mtime_off eic sim_next_event sim_advance rv_semihost).
Local Abbreviation take_interrupt := (take_interrupt msip mtimecmp mtime_off eic).
Local Abbreviation retire := (retire msip mtimecmp mtime_off eic sim_advance sim_event_coming counting).
Local Abbreviation step_insn := (step_insn msip mtimecmp mtime_off eic sim_next_event sim_advance sim_event_coming
  rv_semihost rv_fp_exec rv_cost counting).
Local Abbreviation rv_step := (rv_step msip mtimecmp mtime_off eic sim_next_event sim_advance sim_event_coming
  rv_semihost rv_fp_exec rv_cost counting).

Lemma cf_csr_insn (i : Z) s : get s Priv = PRV_U -> confined s (csr_insn i s).
Proof.
  intros Hu. unfold RvTrap.csr_insn. cbv zeta. set (csr := Z.shiftr i 20).
  destruct (get s Priv <? _) eqn:Ep; [apply cf_same, sc_illegal|]. pose proof (csr_priv csr s Hu Ep) as E. cbn [orb].
  destruct (_ && _); [apply cf_same, sc_illegal|]. destruct (csr_rd _ _ _ csr false s) as [old|]; [|apply cf_same, sc_illegal].
  destruct (_ && _ && _); [apply cf_same, sc_illegal|].
  eapply cf_then; [|apply cf_same, sc_wx]. destruct (_ || _); [by apply cf_csr_wr | done].
Qed.

Lemma cf_in_world (f : W -> W) s : confined s (in_world f s).
Proof. by apply cf_same. Qed.

Lemma cf_wfi s : confined s (wfi s).
Proof.
  unfold RvTrap.wfi. destruct (_ && _); [apply cf_same, sc_illegal|]. do 2 (destruct (negb _); [reflexivity|]).
  set (ev := if negb (get s Mie =? 0) || has_eic eic then sim_next_event s else None); destruct ev; [|by apply cf_put]. eapply cf_then; [|apply cf_in_world]. cf.
Qed.

(** The floating-point unit keeps to its registers, its flags and the status field that
    says they changed; semihosting keeps to memory and a result register. *)
Context (fp_confined : forall (i : Z) s, confined s (rv_fp_exec i s).1).
Context (semihost_confined : forall s, confined s (rv_semihost s).1).

Lemma cf_sys_insn (i rd f3 : Z) s : get s Priv = PRV_U -> confined s (sys_insn i rd f3 s).
Proof using semihost_confined.
  intros Hu. unfold RvTrap.sys_insn. destruct (negb (f3 =? 0)).
  { destruct (f3 =? 4); [apply cf_same, sc_illegal | by apply cf_csr_insn]. }
  assert (Hb : confined s (let '(s0, answered) := rv_semihost s in if answered then s0 else rv_trap EXC_BREAKPOINT (pc s0) s0)).
  { pose proof (semihost_confined s) as A. destruct (rv_semihost s) as [s1 []]; [done|].
    eapply cf_then; [exact A | apply cf_same, sc_trap]. }
  assert (Hm : confined s (mret s)).
  { unfold mret. rewrite Hu. apply cf_same, sc_illegal. }
  pose proof (cf_wfi s) as Hw.
  repeat (case_match; try (first [exact Hb | exact Hm | exact Hw | apply cf_same; first [apply sc_illegal | apply sc_trap]])).
Qed.

Lemma cf_exec (i : Z) s : get s Priv = PRV_U -> confined s (exec32 sys_insn rv_fp_exec i s).
Proof using semihost_confined fp_confined.
  intros Hu. apply exec32_rel.
  - apply cf_same.
  - intros a b c H1 H2. eapply cf_then; [exact H1 | by apply cf_same].
  - intros. by apply cf_sys_insn.
  - intros. apply fp_confined.
Qed.

Lemma cf_step_exec (word size : Z) s : get s Priv = PRV_U -> confined s (step_exec sys_insn rv_fp_exec word size s).
Proof using semihost_confined fp_confined.
  intros Hu. unfold step_exec. cbv zeta. set (t := begin_insn word size s).
  assert (A : confined s t) by (by apply cf_same). assert (Ht : get t Priv = PRV_U) by done.
  repeat case_match; eapply cf_then; try exact A; try (by apply cf_exec); apply cf_same, sc_illegal.
Qed.

(** Where a trap goes. *)
Definition vector s (t : Z) : Prop :=
  let base := Z.land (get s Mtvec) (not64 3) in
  t = base \/ has (get s Mtvec) 1 = true /\ exists cause, t = u64 (base + 4 * cause).

Lemma trap_enter_fields (c t : Z) (intr : bool) s f : protected f = true -> trap_field f = false -> get (trap_enter c t intr s) f = get s f.
Proof.
  intros Hp Ht. unfold trap_enter, get, put. cbv zeta. cbn [csrs set_pc set_resv set_csrs]. unfold setf. repeat case_decide; subst; done.
Qed.
Lemma trap_enter_priv (c t : Z) (intr : bool) s : get (trap_enter c t intr s) Priv = PRV_M /\ vector s (pc (trap_enter c t intr s)).
Proof.
  split; [done|]. unfold vector, trap_enter. cbv zeta. cbn [pc set_pc]. set (s1 := put Priv PRV_M _).
  change (get (set_resv s1 false (resv_addr s1) (resv_val s1)) Mtvec) with (get s1 Mtvec).
  assert (E : get s1 Mtvec = get s Mtvec) by reflexivity. rewrite E. clear E s1.
  destruct (intr && has (get s Mtvec) 1) eqn:Ei; [|by left].
  apply andb_true_iff in Ei as [_ Hv]. right. eauto.
Qed.

Lemma cf_fetch s : same_csrs s (fetch s).1.
Proof.
  unfold fetch. destruct (negb _); [apply sc_refl|]. destruct (fetch16 (mem s) (pc s)) as [m [h0|]]; [|apply sc_mem]. cbv zeta.
  destruct (_ =? 3); [|apply sc_mem]. destruct (fetch16 _ _) as [m' [h1|]]; cbn [fst];
    (eapply sc_then; [apply (sc_mem m) | apply sc_mem]).
Qed.

Lemma cf_retire (cost size : Z) (br : bool) s : confined s (retire cost size br s).
Proof.
  unfold RvTrap.retire. cbv zeta. set (far := br && _).
  set (s1 := if far then put Cycles (u64 (get s Cycles + 2)) s else s).
  assert (A1 : confined s s1) by (unfold s1; destruct far; [by apply cf_put | done]). clearbody s1.
  set (s2 := if counting then in_world _ s1 else s1).
  assert (A2 : confined s s2) by (unfold s2; destruct counting; [by eapply cf_then; [exact A1 | apply cf_in_world] | done]).
  clearbody s2. assert (A3 : confined s (set_pc s2 (npc s2))) by (eapply cf_then; [exact A2|]; by constructor).
  repeat case_match; try exact A3. all: eapply cf_then; [exact A2 | by apply cf_put].
Qed.

(** How a step in user mode may end. *)
Definition user_step s s' : Prop :=
  (forall f, protected f = true -> trap_field f = false -> get s' f = get s f) /\
  (confined s s' \/ get s' Priv = PRV_M /\ vector s (pc s')).

Lemma us_confined s s' : confined s s' -> user_step s s'.
Proof. intros H. split; [intros f Hf _; by apply H | by left]. Qed.
Lemma us_trap s t (c v : Z) (intr : bool) : confined s t -> user_step s (trap_enter c v intr t).
Proof.
  intros H. split; [intros f Hp Ht; rewrite trap_enter_fields by done; by apply H|]. right.
  destruct (trap_enter_priv c v intr t) as (P & V). split; [done|]. unfold vector in *. by rewrite (cf_fields _ _ H Mtvec) in V.
Qed.
Lemma us_then s t u : user_step s t -> same_csrs t u -> user_step s u.
Proof.
  intros (A & B) (E1 & E2 & E3 & E4). split; [intros f Hp Ht; unfold get; rewrite E1; by apply A|].
  destruct B as [B|(B1 & B2)]; [left; eapply cf_then; [exact B | by apply cf_same] |].
  right. unfold get. rewrite E1, E4. done.
Qed.

Lemma us_step_insn (word size : Z) s : get s Priv = PRV_U -> user_step s (step_insn word size s).
Proof using semihost_confined fp_confined.
  intros Hu. unfold RvTrap.step_insn. destruct (rv_cost _) as [cost br]. cbv zeta.
  set (s0 := put Cycles _ _). assert (A0 : confined s s0) by (unfold s0; cf).
  assert (Hu0 : get s0 Priv = PRV_U) by (by rewrite (cf_fields _ _ A0 Priv)). clearbody s0.
  set (s1 := step_exec _ _ word size s0). assert (A1 : confined s s1) by (eapply cf_then; [exact A0 | by apply cf_step_exec]).
  clearbody s1. destruct (trap s1).
  - destruct (cause s1 =? TRAP_WATCH); [|by apply us_trap]. apply us_confined. eapply cf_then; [exact A1|]. cf.
  - apply us_confined. eapply cf_then; [exact A1 | apply cf_retire].
Qed.

End User.
