(* ===== verification/RvPriv.v ===== *)
(** * Traps, returns and interrupts

    The status register through a trap and back; interrupts, taken at the step after
    they are enabled and pending; and the legal states of machine mode, kept by every
    step. *)
From stdpp Require Import base numbers list option.
From Stdlib Require Import ZArith Lia Btauto.
From S2P Require Import Prelude Bus RvEncode RvExpand RvLayouts RvSim RvExec RvCode RvTrap RvMachine.

Local Open Scope Z_scope.

(** ** The status register, bit by bit *)

Lemma mie_bits j : 0 <= j -> Z.testbit MSTATUS_MIE j = (j =? 3).
Proof. intros Hj. change MSTATUS_MIE with (2 ^ 3). rewrite Z.pow2_bits_eqb by lia. apply Z.eqb_sym. Qed.
Lemma mpie_bits j : 0 <= j -> Z.testbit MSTATUS_MPIE j = (j =? 7).
Proof. intros Hj. change MSTATUS_MPIE with (2 ^ 7). rewrite Z.pow2_bits_eqb by lia. apply Z.eqb_sym. Qed.
Lemma mprv_bits j : 0 <= j -> Z.testbit MSTATUS_MPRV j = (j =? 17).
Proof. intros Hj. change MSTATUS_MPRV with (2 ^ 17). rewrite Z.pow2_bits_eqb by lia. apply Z.eqb_sym. Qed.
Lemma mpp_bits j : 0 <= j -> Z.testbit MSTATUS_MPP j = (j =? 11) || (j =? 12).
Proof.
  intros Hj. change MSTATUS_MPP with (Z.lor (2 ^ 11) (2 ^ 12)). rewrite Z.lor_spec, !Z.pow2_bits_eqb by lia.
  by rewrite (Z.eqb_sym 11), (Z.eqb_sym 12).
Qed.

Definition legal_priv (p : Z) : Prop := p = PRV_U \/ p = PRV_M.
Definition mpp (st : Z) : Z := Z.land (Z.shiftr st 11) 3.
Lemma priv_bits p j : legal_priv p -> 0 <= j -> Z.testbit (Z.shiftl p 11) j = (p =? PRV_M) && ((j =? 11) || (j =? 12)).
Proof.
  intros [->| ->] Hj; [by rewrite Z.shiftl_0_l, Z.bits_0|]. change (Z.shiftl PRV_M 11) with MSTATUS_MPP. by apply mpp_bits.
Qed.
Lemma mpp_of_bits st p : legal_priv p -> Z.testbit st 11 = (p =? PRV_M) -> Z.testbit st 12 = (p =? PRV_M) -> mpp st = p.
Proof.
  intros Hp E1 E2. unfold mpp. apply Z.bits_inj'. intros j Hj. rewrite Z.land_spec, Z.shiftr_spec by lia.
  change 3 with (Z.ones 2). destruct (Z.lt_ge_cases j 2).
  - rewrite Z.ones_spec_low, andb_true_r by lia. assert (Hj' : j = 0 \/ j = 1) by lia.
    destruct Hj' as [-> | ->]; simpl Z.add; rewrite ?E1, ?E2; by destruct Hp as [->| ->].
  - rewrite Z.ones_spec_high, andb_false_r by lia. symmetry.
    assert (Hp' : 0 <= p < 2 ^ 2) by (destruct Hp as [->| ->]; unfold PRV_U, PRV_M; lia).
    rewrite <- (Z.mod_small p (2 ^ 2)) by lia. apply Z.mod_pow2_bits_high. lia.
Qed.

(** What [trap_enter] and [mret] make of it. *)
Definition entry_status (m p : Z) : Z :=
  Z.lor (Z.land (Z.land (Z.lor (Z.land m (not64 MSTATUS_MPIE)) (if has m MSTATUS_MIE then MSTATUS_MPIE else 0))
    (not64 MSTATUS_MIE)) (not64 MSTATUS_MPP)) (Z.shiftl p 11).
Definition exit_status (st : Z) : Z :=
  let st' := Z.land (Z.lor (Z.lor (Z.land st (not64 MSTATUS_MIE)) (if has st MSTATUS_MPIE then MSTATUS_MIE else 0)) MSTATUS_MPIE)
    (not64 MSTATUS_MPP) in
  if negb (mpp st =? PRV_M) then Z.land st' (not64 MSTATUS_MPRV) else st'.

Lemma entry_bit m p j : legal_priv p -> 0 <= j < 64 -> Z.testbit (entry_status m p) j =
  if (j =? 11) || (j =? 12) then p =? PRV_M else if j =? 3 then false else if j =? 7 then Z.testbit m 3 else Z.testbit m j.
Proof.
  intros Hp Hj. unfold entry_status. change (has m MSTATUS_MIE) with (has m (2 ^ 3)). rewrite (has_bit m 3) by lia.
  rewrite Z.lor_spec, !Z.land_spec, Z.lor_spec, Z.land_spec, !not64_bit, priv_bits, mpp_bits, mie_bits, mpie_bits by (done || lia).
  assert (Eb : Z.testbit (if Z.testbit m 3 then MSTATUS_MPIE else 0) j = Z.testbit m 3 && (j =? 7)).
  { destruct (Z.testbit m 3); [by rewrite mpie_bits by lia | by rewrite Z.bits_0]. }
  rewrite Eb. destruct (Z.eqb_spec j 11) as [->|]; [simpl; btauto|]. destruct (Z.eqb_spec j 12) as [->|]; [simpl; btauto|].
  destruct (Z.eqb_spec j 3) as [->|]; [simpl; btauto|]. destruct (Z.eqb_spec j 7) as [->|]; simpl; btauto.
Qed.

Lemma exit_bit st j : 0 <= j < 64 -> Z.testbit (exit_status st) j =
  if (j =? 11) || (j =? 12) then false else if j =? 3 then Z.testbit st 7 else if j =? 7 then true
  else if j =? 17 then (mpp st =? PRV_M) && Z.testbit st j else Z.testbit st j.
Proof.
  intros Hj. unfold exit_status. change (has st MSTATUS_MPIE) with (has st (2 ^ 7)). rewrite (has_bit st 7) by lia.
  assert (Eb : Z.testbit (if Z.testbit st 7 then MSTATUS_MIE else 0) j = Z.testbit st 7 && (j =? 3)).
  { destruct (Z.testbit st 7); [by rewrite mie_bits by lia | by rewrite Z.bits_0]. }
  destruct (mpp st =? PRV_M); cbn [negb];
    rewrite ?(Z.land_spec _ (not64 MSTATUS_MPRV)), !Z.land_spec, !Z.lor_spec, Z.land_spec, !not64_bit, Eb, mpp_bits, mie_bits, mpie_bits,
      ?mprv_bits by lia;
    (destruct (Z.eqb_spec j 11) as [->|]; [simpl; btauto|]; destruct (Z.eqb_spec j 12) as [->|]; [simpl; btauto|];
     destruct (Z.eqb_spec j 3) as [->|]; [simpl; btauto|]; destruct (Z.eqb_spec j 7) as [->|]; [simpl; btauto|];
     destruct (Z.eqb_spec j 17) as [->|]; simpl; btauto).
Qed.
Lemma entry_mpp m p : legal_priv p -> mpp (entry_status m p) = p.
Proof. intros Hp. apply mpp_of_bits; [done | by rewrite entry_bit by (done || lia) ..]. Qed.

Section Traps.
Context {W : Type}.
Local Abbreviation state := (rv_state W csr_file).
Implicit Types s : state.

(** A trap and the return from it: whatever the cause, [mret] after [trap_enter] goes
    back to the interrupted instruction, in the privilege it had, with interrupts
    enabled or not as they were; the registers, memory and every other CSR are as
    before, and of the status only the saved enable, the saved privilege and the
    modified-privilege bit may differ. *)
Theorem trap_mret_returns (cause tval : Z) (intr : bool) s : legal_priv (get s Priv) -> 0 <= pc s < 2 ^ xlen s ->
  xlen s = 32 \/ xlen s = 64 ->
  let s' := mret (trap_enter cause tval intr s) in
  npc s' = pc s /\ get s' Priv = get s Priv /\ has (get s' Mstatus) MSTATUS_MIE = has (get s Mstatus) MSTATUS_MIE /\
  (let m := not64 (Z.lor (Z.lor MSTATUS_MPIE MSTATUS_MPP) MSTATUS_MPRV) in
   Z.land (get s' Mstatus) m = Z.land (get s Mstatus) m) /\
  (forall f, f <> Mstatus -> f <> Mepc -> f <> Mcause -> f <> Mtval -> get s' f = get s f) /\
  x s' = x s /\ mem s' = mem s /\ xlen s' = xlen s.
Proof.
  intros Hp Hpc Hx. cbv zeta. set (s1 := trap_enter cause tval intr s).
  assert (E1 : get s1 Mstatus = entry_status (get s Mstatus) (get s Priv)) by reflexivity.
  assert (P1 : get s1 Priv = PRV_M) by reflexivity. assert (M1 : get s1 Mepc = pc s) by reflexivity.
  assert (F1 : forall f, f <> Mstatus -> f <> Mepc -> f <> Mcause -> f <> Mtval -> f <> Priv -> get s1 f = get s f).
  { intros f N1 N2 N3 N4 N5. unfold s1, trap_enter, get, put. cbv zeta. cbn [csrs set_pc set_resv set_csrs]. by rewrite !setf_other. }
  unfold mret. rewrite P1. change (negb (PRV_M =? PRV_M)) with false. cbv iota. change (Z.land (Z.shiftr (get s1 Mstatus) 11) 3)
    with (mpp (get s1 Mstatus)). set (s2 := put Priv _ _).
  assert (E2 : get s2 Mstatus = exit_status (get s1 Mstatus)) by reflexivity.
  assert (X1 : x s1 = x s /\ mem s1 = mem s /\ xlen s1 = xlen s) by done. destruct X1 as (X1 & X2 & X3).
  assert (M2 : get s2 Mepc = pc s) by (rewrite <- M1; reflexivity).
  assert (Q : get s2 Priv = get s Priv).
  { transitivity (mpp (get s1 Mstatus)); [reflexivity|]. rewrite E1. by apply entry_mpp. }
  split_and!; try done.
  - cbn [npc jump set_npc]. rewrite M2. unfold rv_xl. change (xlen s2) with (xlen s).
    destruct Hx as [Hx|Hx]; rewrite Hx in *; [by apply u32_id | done].
  - change (get (jump (get s2 Mepc) s2) Mstatus) with (get s2 Mstatus). rewrite E2, E1. change MSTATUS_MIE with (2 ^ 3).
    rewrite !has_bit, exit_bit by lia. cbn [Z.eqb Pos.eqb orb]. by rewrite entry_bit by (done || lia).
  - change (get (jump (get s2 Mepc) s2) Mstatus) with (get s2 Mstatus). rewrite E2, E1. apply masked_eq. intros j Hj Hm.
    rewrite !Z.lor_spec, mpie_bits, mpp_bits, mprv_bits in Hm by lia. apply orb_false_iff in Hm as [Hm H17].
    apply orb_false_iff in Hm as [H7 H11]. rewrite exit_bit, H11, H7, H17 by done.
    destruct (Z.eqb_spec j 3) as [->|N3]; rewrite entry_bit by (done || lia); [done|].
    rewrite H11, H7. by rewrite (proj2 (Z.eqb_neq j 3) N3).
  - intros f N1 N2 N3 N4. change (get (jump (get s2 Mepc) s2) f) with (get s2 f).
    destruct (decide (f = Priv)) as [->|N5]; [done|]. transitivity (get s1 f); [|by apply F1].
    unfold s2, get, put. cbn [csrs set_csrs]. by rewrite !setf_other.
Qed.

(** ** Interrupts *)

Context (msip mtimecmp mtime_off : W -> Z) (eic : option (@rv_eic W)).
Context (sim_next_event : state -> option Z) (sim_advance : Z -> W -> W) (sim_event_coming : state -> bool).
Context (rv_semihost : state -> state * bool) (rv_fp_exec : Z -> state -> state * bool).
Context (rv_cost : list Z -> Z * bool) (counting : bool).
Local Abbreviation take_interrupt := (take_interrupt msip mtimecmp mtime_off eic).
Local Abbreviation rv_mip := (rv_mip msip mtimecmp mtime_off).
Local Abbreviation rv_step := (rv_step msip mtimecmp mtime_off eic sim_next_event sim_advance sim_event_coming
  rv_semihost rv_fp_exec rv_cost counting).

(** External, then software, then timer. *)
Definition first_irq (p : Z) : Z := if has p 0x800 then 11 else if has p MIP_MSIP then IRQ_MSI else IRQ_MTI.
Definition irq_vector s (n : Z) : Z :=
  let base := Z.land (get s Mtvec) (not64 3) in if has (get s Mtvec) 1 then u64 (base + 4 * n) else base.


(** ** The counters *)

Lemma set_lo_spec n v : is_u 64 n -> set_lo n v = n / 2 ^ 32 * 2 ^ 32 + u32 v.
Proof.
  intros Hn. unfold set_lo, not64. rewrite land_not by done.
  assert (E : Z.land n 0xffffffff = n mod 2 ^ 32) by exact (land_ones_mod n 32 ltac:(lia)). rewrite E.
  pose proof (Z.div_mod n (2 ^ 32) ltac:(lia)). pose proof (uwrap_range 32 v ltac:(lia)) as R. unfold is_u in R.
  replace (n - n mod 2 ^ 32) with (n / 2 ^ 32 * 2 ^ 32) by lia. by rewrite lor_shift_add by lia.
Qed.
Lemma set_hi_spec n v : is_u 32 v -> set_hi n v = n mod 2 ^ 32 + v * 2 ^ 32.
Proof.
  unfold is_u. intros Hv. unfold set_hi. rewrite Z.shiftl_mul_pow2, u64_id by lia.
  assert (E : Z.land n 0xffffffff = n mod 2 ^ 32) by exact (land_ones_mod n 32 ltac:(lia)). rewrite E.
  pose proof (Z.mod_pos_bound n (2 ^ 32) ltac:(lia)). by rewrite lor_add_shift by lia.
Qed.

Definition instret s : Z := u64 (get s InsnNow + get s MinstretOff).
Definition cyclecount s : Z := u64 (get s CycNow + get s McycleOff).
Local Abbreviation csr_rd := (csr_rd msip mtimecmp mtime_off).
Lemma rd_instret s : esp s = false -> csr_rd 0xb02 false s = Some (rv_xl s (instret s)).
Proof. intros E. unfold RvTrap.csr_rd. rewrite E. cbn -[get rv_xl uwrap]. by rewrite andb_false_r. Qed.
Lemma rd_cycle s : esp s = false -> csr_rd 0xb00 false s = Some (rv_xl s (cyclecount s)).
Proof. intros E. unfold RvTrap.csr_rd. rewrite E. cbn -[get rv_xl uwrap]. by rewrite andb_false_r. Qed.
Lemma rd_instreth s : esp s = false -> xlen s = 32 -> csr_rd 0xb82 false s = Some (Z.shiftr (instret s) 32).
Proof. intros E X. unfold RvTrap.csr_rd, csr_one. rewrite E, X. cbn -[get rv_xl uwrap Z.shiftr]. done. Qed.

(** The instruction after: one more counted, and its cycles passed. *)
Definition after (cost : Z) s : state :=
  put CycNow (u64 (get s CycNow + cost)) (put InsnNow (u64 (get s InsnNow + 1)) s).

(** Whatever value is to be read next, this offset makes it so. *)
Lemma offset_reads now off new inc : u64 (u64 (now + inc) + u64 (off + (new - u64 (u64 (now + off) + inc)))) = u64 new.
Proof.
  apply uwrap_proper. rewrite !(eqw_uwrap 64) by lia. exists 0. lia.
Qed.
Lemma offset_reads' now off new inc : u64 (u64 (now + inc) + u64 (off + (new - u64 (now + off)))) = u64 (new + inc).
Proof. apply uwrap_proper. rewrite !(eqw_uwrap 64) by lia. exists 0. lia. Qed.

(** A counter written by a program reads back as the comment in [csr_wr] says: the
    instruction after the write finds exactly the value in [minstret], and in [mcycle]
    the value plus the cycles the write took; at RV32 the upper half of [minstret] is
    written without disturbing the lower. *)
Theorem counters_written s (v cost : Z) : esp s = false -> xlen s = 32 \/ xlen s = 64 -> is_u (xlen s) v ->
  csr_rd 0xb02 false (after cost (csr_wr 0xb02 v s)) = Some v /\
  csr_rd 0xb00 false (after cost (csr_wr 0xb00 v s)) = Some (uwrap (xlen s) (v + cost)) /\
  (xlen s = 32 -> csr_rd 0xb82 false (after cost (csr_wr 0xb82 v s)) = Some v /\
     csr_rd 0xb02 false (after cost (csr_wr 0xb82 v s)) = csr_rd 0xb02 false (after cost s)).
Proof.
  intros He Hx Hv. set (n := u64 (instret s + 1)). assert (Hn : is_u 64 n) by apply u64_u.
  set (c := cyclecount s). assert (Hc : is_u 64 c) by apply u64_u.
  set (new1 := if xlen s =? 32 then set_lo n v else v). set (new2 := if xlen s =? 32 then set_lo c v else v).
  assert (W1 : csr_wr 0xb02 v s = put MinstretOff (u64 (get s MinstretOff + (new1 - n))) (touch s)) by (unfold csr_wr; by rewrite He).
  assert (W2 : csr_wr 0xb00 v s = put McycleOff (u64 (get s McycleOff + (new2 - c))) (touch s)) by (unfold csr_wr; by rewrite He).
  assert (W3 : csr_wr 0xb82 v s = put MinstretOff (u64 (get s MinstretOff + (set_hi n v - n))) (touch s)) by (unfold csr_wr; by rewrite He).
  assert (I : forall new, instret (after cost (put MinstretOff (u64 (get s MinstretOff + (new - n))) (touch s))) = u64 new)
    by (intros new; exact (offset_reads _ _ new 1)).
  assert (X : forall f o z, rv_xl (after cost (put f o (touch s))) z = rv_xl s z) by done.
  assert (L : forall m, is_u 64 m -> rv_xl s (u64 (if xlen s =? 32 then set_lo m v else v)) = v).
  { intros m Hm. rewrite rv_xl_u64 by done. destruct Hx as [Hx|Hx]; rewrite Hx in *; cbn [Z.eqb Pos.eqb].
    - rewrite set_lo_spec by done. rewrite (uwrap_small 32 v Hv), Z.add_comm, uwrap_add_mul. by apply uwrap_small.
    - by apply uwrap_small. }
  split_and!.
  - rewrite W1, rd_instret by done. rewrite I, X. unfold new1. by rewrite L.
  - rewrite W2, rd_cycle by done. rewrite X. f_equal. transitivity (rv_xl s (u64 (new2 + cost))).
    + f_equal. exact (offset_reads' _ _ new2 cost).
    + rewrite rv_xl_u64 by done. apply uwrap_proper. assert (E2 : eqw (xlen s) new2 v).
      { pose proof (L c Hc) as E. rewrite rv_xl_u64 in E by done. rewrite <- E. symmetry. apply eqw_uwrap. lia. }
      by rewrite E2.
  - intros Hx32. rewrite Hx32 in Hv. assert (Hh : is_u 64 (set_hi n v)).
    { rewrite set_hi_spec by done. unfold is_u in *. pose proof (Z.mod_pos_bound n (2 ^ 32) ltac:(lia)). lia. }
    assert (Eh : u64 (set_hi n v) = set_hi n v) by (by apply uwrap_small).
    rewrite W3, rd_instreth, !rd_instret by done. rewrite I, X, Eh. split; f_equal.
    + rewrite set_hi_spec, Z.shiftr_div_pow2, Z.div_add, Z.div_small by (done || lia || apply Z.mod_pos_bound; lia). lia.
    + change (rv_xl (after cost s) (instret (after cost s))) with (rv_xl s (instret (after cost s))). unfold rv_xl. rewrite Hx32.
      cbn [Z.eqb Pos.eqb]. rewrite set_hi_spec by done. apply uwrap_proper.
      transitivity n; [exists (v - n / 2 ^ 32); pose proof (Z.div_mod n (2 ^ 32) ltac:(lia)); lia|].
      apply (eqw_weaken 64); [lia|].
      change (instret (after cost s)) with (u64 (u64 (get s InsnNow + 1) + get s MinstretOff)). unfold n, instret.
      rewrite !(eqw_uwrap 64) by lia. exists 0. lia.
Qed.

(** ** The privilege levels *)

(** The core has user and machine mode: the level it is in and the one it returns to. *)
Definition legal s : Prop := legal_priv (get s Priv) /\ legal_priv (mpp (get s Mstatus)).
Definition keeps_legal s s' : Prop := legal s -> legal s'.

Lemma mpp_bits_eq v w : Z.testbit v 11 = Z.testbit w 11 -> Z.testbit v 12 = Z.testbit w 12 -> mpp v = mpp w.
Proof.
  intros E1 E2. unfold mpp. apply Z.bits_inj'. intros j Hj. rewrite !Z.land_spec, !Z.shiftr_spec by lia.
  change 3 with (Z.ones 2). destruct (Z.lt_ge_cases j 2); [|by rewrite Z.ones_spec_high, !andb_false_r by lia].
  assert (Hj' : j = 0 \/ j = 1) by lia. destruct Hj' as [-> | ->]; [exact (f_equal (fun b => b && Z.testbit (Z.ones 2) 0) E1) | exact (f_equal (fun b => b && Z.testbit (Z.ones 2) 1) E2)].
Qed.

Lemma kl_same s s' : same_csrs s s' -> keeps_legal s s'.
Proof. intros (E & _) H. unfold legal, get in *. by rewrite E. Qed.
Lemma kl_then s t u : keeps_legal s t -> keeps_legal t u -> keeps_legal s u.
Proof. unfold keeps_legal. auto. Qed.
Lemma kl_put f v s : f <> Priv -> f <> Mstatus -> keeps_legal s (put f v s).
Proof.
  intros N1 N2 H. unfold legal, get, put in *. cbn [csrs set_csrs]. by rewrite !setf_other.
Qed.
(** The status, rewritten around the bits of the level. *)
Lemma kl_status v s : mpp v = mpp (get s Mstatus) \/ legal_priv (mpp v) -> keeps_legal s (put Mstatus v s).
Proof.
  intros Hv (H1 & H2). unfold legal, get, put in *. cbn [csrs set_csrs]. rewrite setf_other, setf_same by done.
  split; [done|]. by destruct Hv as [->|].
Qed.
Lemma kl_fp_dirty s : keeps_legal s (rv_fp_dirty s).
Proof.
  apply kl_status. left. apply mpp_bits_eq; rewrite Z.lor_spec; apply orb_false_r.
Qed.

Lemma kl_mstatus_wr v s : keeps_legal s (mstatus_wr v s).
Proof.
  unfold mstatus_wr. cbv zeta. fold (mpp v). apply kl_status.
  destruct ((mpp v =? PRV_U) || (mpp v =? PRV_M)) eqn:E.
  - right. replace (mpp (Z.lor _ _)) with (mpp v).
    + apply orb_true_iff in E as [E|E]; apply Z.eqb_eq in E; [by left | by right].
    + apply mpp_bits_eq; rewrite Z.lor_spec, !Z.land_spec, not64_bit by lia; simpl; by rewrite andb_false_r, andb_true_r.
  - left. apply mpp_bits_eq; rewrite Z.lor_spec, !Z.land_spec, not64_bit by lia; simpl; by rewrite andb_false_r, orb_false_r, andb_true_r.
Qed.

Ltac kl := repeat lazymatch goal with
  | |- keeps_legal ?s ?s => exact (fun H => H)
  | |- keeps_legal _ (put Mstatus _ _) => fail
  | |- keeps_legal _ (put _ _ _) => eapply kl_then; [|apply kl_put; discriminate]
  | |- keeps_legal _ (rv_fp_dirty _) => eapply kl_then; [|apply kl_fp_dirty]
  | |- keeps_legal _ (mstatus_wr _ _) => apply kl_mstatus_wr
  end.

Lemma kl_esp_csr_wr csr v s : keeps_legal s (esp_csr_wr csr v s).
Proof.
  unfold esp_csr_wr, mpc_restart. cbv zeta. do 2 (case_match; [kl|]).
  assert (M : forall st, keeps_legal s (put Mstatus (Z.lor (Z.lor (Z.land st (not64 (Z.lor (Z.lor (Z.lor MSTATUS_MIE MSTATUS_MPIE) MSTATUS_TW) MSTATUS_MPP)))
    (Z.land (u32 v) (Z.lor (Z.lor MSTATUS_MIE MSTATUS_MPIE) MSTATUS_TW))) (if has (Z.shiftr (u32 v) 11) 1 then MSTATUS_MPP else 0)) s)).
  { intros st. apply kl_status. right. set (b := has _ 1).
    assert (L : legal_priv (if b then PRV_M else PRV_U)) by (destruct b; [by right | by left]).
    replace (mpp (Z.lor _ _)) with (if b then PRV_M else PRV_U); [done|]. symmetry.
    apply mpp_of_bits; [done | ..]; rewrite !Z.lor_spec, !Z.land_spec, not64_bit by lia; destruct b; simpl; rewrite !andb_false_r; done. }
  repeat (case_match; [try (by kl) ..]); first [by kl | apply M].
Qed.
Lemma kl_csr_wr csr v s : keeps_legal s (csr_wr csr v s).
Proof.
  unfold csr_wr. destruct (esp s); [apply kl_esp_csr_wr|]. cbv zeta. eapply kl_then; [by apply (kl_same s (touch s))|].
  set (t := touch s). clearbody t. repeat (case_match; [try (by kl) ..]); by kl.
Qed.

Local Abbreviation csr_insn := (csr_insn msip mtimecmp mtime_off).
Local Abbreviation sys_insn := (sys_insn msip mtimecmp mtime_off eic sim_next_event sim_advance rv_semihost).

Lemma kl_csr_insn i s : keeps_legal s (csr_insn i s).
Proof.
  unfold RvTrap.csr_insn. cbv zeta. destruct (_ || _); [apply kl_same, sc_illegal|].
  destruct (csr_rd _ false s) as [old|]; [|apply kl_same, sc_illegal].
  destruct (_ && _ && _); [apply kl_same, sc_illegal|].
  eapply kl_then; [|apply kl_same, sc_wx]. destruct (_ || _); [apply kl_csr_wr | exact (fun H => H)].
Qed.
Lemma kl_in_world (f : W -> W) s : keeps_legal s (in_world f s).
Proof. by apply kl_same. Qed.
Lemma kl_wfi s : keeps_legal s (wfi msip mtimecmp mtime_off eic sim_next_event sim_advance s).
Proof.
  unfold wfi. destruct (_ && _); [apply kl_same, sc_illegal|]. do 2 (destruct (negb _); [exact (fun H => H)|]).
  set (ev := if negb (get s Mie =? 0) || has_eic eic then sim_next_event s else None). destruct ev; [|by apply kl_put].
  eapply kl_then; [|apply kl_in_world]. by kl.
Qed.
Lemma kl_mret s : keeps_legal s (mret s).
Proof.
  unfold mret. destruct (negb _); [apply kl_same, sc_illegal|]. intros (H1 & H2). fold (mpp (get s Mstatus)).
  split; [exact H2|]. change (legal_priv (mpp (exit_status (get s Mstatus)))). left.
  apply mpp_of_bits; [by left | by rewrite exit_bit by lia ..].
Qed.
Lemma kl_trap_enter (c t : Z) (intr : bool) s : keeps_legal s (trap_enter c t intr s).
Proof.
  intros (H1 & H2). split; [by right|]. change (legal_priv (mpp (entry_status (get s Mstatus) (get s Priv)))).
  by rewrite entry_mpp.
Qed.

(** The floating-point unit and semihosting do not change the levels. *)
Context (fp_legal : forall (i : Z) s, keeps_legal s (rv_fp_exec i s).1).
Context (semihost_legal : forall s, keeps_legal s (rv_semihost s).1).

Lemma kl_sys_insn (i rd f3 : Z) s : keeps_legal s (sys_insn i rd f3 s).
Proof using semihost_legal.
  unfold RvTrap.sys_insn. destruct (negb (f3 =? 0)).
  { destruct (f3 =? 4); [apply kl_same, sc_illegal | apply kl_csr_insn]. }
  assert (Hb : keeps_legal s (let '(s0, answered) := rv_semihost s in if answered then s0 else rv_trap EXC_BREAKPOINT (pc s0) s0)).
  { pose proof (semihost_legal s) as A. destruct (rv_semihost s) as [s1 []]; [exact A|].
    eapply kl_then; [exact A | apply kl_same, sc_trap]. }
  pose proof (kl_wfi s) as Hw. pose proof (kl_mret s) as Hm.
  repeat (case_match; try (first [exact Hb | exact Hm | exact Hw | apply kl_same; first [apply sc_illegal | apply sc_trap]])).
Qed.

Lemma kl_step_exec (word size : Z) s : keeps_legal s (step_exec sys_insn rv_fp_exec word size s).
Proof using semihost_legal fp_legal.
  unfold step_exec. cbv zeta. set (t := begin_insn word size s).
  assert (A : keeps_legal s t) by (by apply kl_same).
  assert (E : forall w, keeps_legal t (exec32 sys_insn rv_fp_exec w t)).
  { intros w. apply exec32_rel; [apply kl_same | | intros; apply kl_sys_insn | intros; apply fp_legal].
    intros a b c H1 H2. eapply kl_then; [exact H1 | by apply kl_same]. }
  repeat case_match; (eapply kl_then; [exact A|]); [apply E | apply E | apply kl_same, sc_illegal].
Qed.

Lemma kl_retire (cost size : Z) (br : bool) s :
  keeps_legal s (retire msip mtimecmp mtime_off eic sim_advance sim_event_coming counting cost size br s).
Proof.
  unfold retire. cbv zeta. set (far := br && _).
  set (s1 := if far then put Cycles (u64 (get s Cycles + 2)) s else s).
  assert (A1 : keeps_legal s s1) by (unfold s1; destruct far; [by apply kl_put | exact (fun H => H)]). clearbody s1.
  set (s2 := if counting then in_world _ s1 else s1).
  assert (A2 : keeps_legal s s2) by (unfold s2; destruct counting; [by eapply kl_then; [exact A1 | apply kl_in_world] | exact A1]).
  clearbody s2. assert (A3 : keeps_legal s (set_pc s2 (npc s2))) by exact A2.
  repeat case_match; first [exact A3 | eapply kl_then; [exact A2 | by apply kl_put]].
Qed.

Lemma kl_step s : keeps_legal s (rv_step s).
Proof using semihost_legal fp_legal.
  unfold RvTrap.rv_step. destruct (if negb (get s Mie =? 0) || has_eic eic then take_interrupt s else None) as [si|] eqn:Ei.
  - assert (Et : take_interrupt s = Some si) by (by destruct (negb (get s Mie =? 0) || has_eic eic)). clear Ei.
    unfold RvTrap.take_interrupt in Et. destruct (_ && _); [done|]. destruct eic as [e|]; cbv zeta in Et.
    + destruct (eic_pending e (world (mem s)) =? 0); [discriminate|]. injection Et as <-.
      destruct (eic_claim e); [eapply kl_then; [apply kl_trap_enter | apply kl_in_world] | apply kl_trap_enter].
    + destruct (Z.land _ _ =? 0) in Et; [discriminate|]. injection Et as <-. apply kl_trap_enter.
  - pose proof (cf_fetch s) as F. destruct (fetch s) as [s1 [[word size]|]]; simpl in F; (eapply kl_then; [apply kl_same; exact F|]).
    + unfold step_insn. destruct (rv_cost _) as [cost br]. cbv zeta. set (s2 := put Cycles _ _).
      assert (A : keeps_legal s1 s2) by (unfold s2; by kl). clearbody s2.
      pose proof (kl_step_exec word size s2) as B. set (s3 := step_exec _ _ word size s2) in *. clearbody s3.
      eapply kl_then; [exact A|]. eapply kl_then; [exact B|].
      destruct (trap s3); [destruct (cause s3 =? TRAP_WATCH); [by kl | apply kl_trap_enter] | apply kl_retire].
    + destruct (pc s1 =? _); [by apply kl_put | apply kl_trap_enter].
Qed.


(** In user mode a counter the machine has not delegated is an illegal instruction,
    but at RV32 the upper half of the same counter is read all the same. *)
Theorem user_reads_cycleh s (rd : Z) : get s Priv = PRV_U -> get s Mcounteren = 0 -> esp s = false -> xlen s = 32 ->
  0 < rd < 32 ->
  csr_insn (0xc00 * 2 ^ 20 + 0x2073 + 2 ^ 7 * rd) s = rv_illegal s /\
  csr_insn (0xc80 * 2 ^ 20 + 0x2073 + 2 ^ 7 * rd) s = rv_wx rd (Z.shiftr (cyclecount s) 32) s.
Proof.
  intros Hp Hc He Hx Hd.
  assert (F : forall c, 0 <= c < 4096 -> let i := c * 2 ^ 20 + 0x2073 + 2 ^ 7 * rd in
    Z.shiftr i 20 = c /\ Z.land (Z.shiftr i 7) 31 = rd /\ Z.land (Z.shiftr i 15) 31 = 0 /\ Z.land (Z.shiftr i 12) 7 = 2).
  { intros c Hc' i. assert (D : forall k r h, i = h * 2 ^ k + r -> 0 <= k -> 0 <= r < 2 ^ k -> Z.shiftr i k = h).
    { intros k r h E Hk Hr. rewrite Z.shiftr_div_pow2 by done. symmetry. apply Z.div_unique with r; lia. }
    rewrite (D 20 (0x2073 + 2 ^ 7 * rd) c), (D 7 0x73 (c * 2 ^ 13 + 2 ^ 6 + rd)), (D 15 (0x2073 + 2 ^ 7 * rd) (c * 2 ^ 5)),
      (D 12 (0x73 + 2 ^ 7 * rd) (c * 2 ^ 8 + 2)) by (unfold i; lia).
    split_and!; [done | ..].
    - transitivity ((c * 2 ^ 13 + 2 ^ 6 + rd) mod 2 ^ 5); [exact (land_ones_mod _ 5 ltac:(lia))|].
      replace (c * 2 ^ 13 + 2 ^ 6 + rd) with (rd + (c * 2 ^ 8 + 2) * 2 ^ 5) by lia. rewrite Z.mod_add by lia. apply Z.mod_small. lia.
    - transitivity ((c * 2 ^ 5) mod 2 ^ 5); [exact (land_ones_mod _ 5 ltac:(lia)) | apply Z.mod_mul; lia].
    - transitivity ((c * 2 ^ 8 + 2) mod 2 ^ 3); [exact (land_ones_mod _ 3 ltac:(lia))|].
      replace (c * 2 ^ 8 + 2) with (2 + c * 2 ^ 5 * 2 ^ 3) by lia. by rewrite Z.mod_add by lia. }
  assert (R0 : csr_rd 0xc00 false s = Some (rv_xl s (cyclecount s))) by (unfold RvTrap.csr_rd, csr_one; rewrite He, Hx; reflexivity).
  assert (R8 : csr_rd 0xc80 false s = Some (Z.shiftr (cyclecount s) 32)) by (unfold RvTrap.csr_rd, csr_one; rewrite He, Hx; reflexivity).
  split; unfold RvTrap.csr_insn.
  - destruct (F 0xc00 ltac:(lia)) as (-> & -> & -> & ->). cbv zeta. rewrite Hp, He, R0, Hc. reflexivity.
  - destruct (F 0xc80 ltac:(lia)) as (-> & -> & -> & ->). cbv zeta. rewrite Hp, He, R8. reflexivity.
Qed.
End Traps.

(** A user program on the board of [Bus], a software interrupt pending; nothing else of the simulator. *)
Definition user_csrs (mie : Z) : csr_file := fun f => match f with Mie => mie | Mtvec => 0x20000081 | Mscratch => 7 | _ => 0 end.
Definition user_core (mie : Z) : rv_state unit csr_file :=
  RvState 32 (fun r => if r =? 2 then 0x200000f0 else 0) 0x20000000 0x20000004 false 0 0 false 0 0 0 false false demo_bus (user_csrs mie).
Definition plain (i : Z) (s : rv_state unit csr_file) : rv_state unit csr_file * bool := (s, false).
Definition user_step1 (mie : Z) : rv_state unit csr_file :=
  rv_step (fun _ => 1) (fun _ => 5) (fun _ => 0) None (fun _ => None) (fun _ w => w) (fun _ => false) (plain 0) plain
    (fun _ => (1, false)) false (user_core mie).


Lemma trap_mret_returns_witness : let s := mret (trap_enter 7 0 true (user_core 0)) in npc s = 0x20000000 /\ get s Priv = PRV_U.
Proof.
  destruct (trap_mret_returns 7 0 true (user_core 0)) as (H1 & H2 & _); [by left | simpl; lia | by left |].
  split; [exact H1 | exact H2].
Defined.


Lemma counters_written_witness :
  csr_rd (fun _ => 1) (fun _ => 5) (fun _ => 0) 0xb02 false (after 3 (csr_wr 0xb02 1000 (user_core 0))) = Some 1000.
Proof.
  destruct (counters_written (fun _ => 1) (fun _ => 5) (fun _ => 0) (user_core 0) 1000 3) as (H & _);
    [done | by left | unfold is_u; simpl; lia | exact H].
Defined.


Lemma user_reads_cycleh_witness :
  csr_insn (fun _ => 1) (fun _ => 5) (fun _ => 0) (0xc00 * 2 ^ 20 + 0x2073 + 2 ^ 7 * 10) (user_core 0) = rv_illegal (user_core 0) /\
  trap (csr_insn (fun _ => 1) (fun _ => 5) (fun _ => 0) (0xc80 * 2 ^ 20 + 0x2073 + 2 ^ 7 * 10) (user_core 0)) = false.
Proof.
  destruct (user_reads_cycleh (fun _ => 1) (fun _ => 5) (fun _ => 0) (user_core 0) 10) as (H1 & H2); [done | done | done | done | lia |].
  split; [exact H1 | rewrite H2; reflexivity].
Defined.
