(* ===== verification/Ir.v ===== *)
(** * EmbIR: the data every pass of the optimizer works on

    The instruction set, the instruction and the function records of
    [src/src/ir/ir.h], and the reading aids of [src/src/opt/util.c]: which
    operations write a temporary, which are pure, the visitors over the vregs
    an instruction reads and the labels it names, and the definition analysis
    ([compute_defs]) that says which vregs have exactly one definition.

    C's [int] flags that are only ever tested are booleans; vreg numbers,
    labels and widths are [Z], with -1 for "none" as in the source. An array
    indexed by vreg is a function on [Z] updated by [upd]; the instruction
    array of a function is a list. Fields that are only carried along -- the
    ABI classification of a call, the source position -- are grouped in
    sub-records under the names they have in the source. *)
From stdpp Require Import base numbers list option.
From Stdlib Require Import ZArith Lia.
From S2P Require Import Prelude.

Local Open Scope Z_scope.

(** ** Opcodes and predicates *)

Inductive ir_op :=
  | IR_CONST | IR_MOV
  | IR_ADD | IR_SUB | IR_MUL | IR_DIV | IR_MOD
  | IR_AND | IR_OR | IR_XOR | IR_SHL | IR_SHR
  | IR_NEG | IR_BNOT | IR_CMP
  | IR_LDVAR | IR_STVAR | IR_ADDR | IR_STRADDR | IR_GADDR | IR_FADDR
  | IR_LOAD | IR_STORE | IR_EXT
  | IR_I2F | IR_F2I | IR_F2F | IR_BITCAST
  | IR_CALL | IR_RET | IR_LABEL | IR_JMP
  | IR_MEMCPY | IR_MEMZERO | IR_BRZ | IR_BRNZ
  | IR_VA_START | IR_BSWAP | IR_SQRT | IR_FENCE | IR_UD2
  | IR_XCHG | IR_XADD | IR_CMPXCHG | IR_ASM | IR_LABELADDR | IR_IGOTO | IR_SWITCH
  | IR_ARMW | IR_CAS | IR_CAS16
  | IR_FRAMEADDR | IR_ALLOCA | IR_SPSAVE | IR_SPRESTORE | IR_LANDING
  | IR_VLOAD | IR_VSTORE | IR_VBIN | IR_VSPLAT | IR_VREDADD
  | IR_SELECT | IR_VWIDEN
  | IR_MULH | IR_MULW
  | IR_CLZ | IR_CTZ | IR_POPCNT.

Inductive binop :=
  | B_ADD | B_SUB | B_MUL | B_DIV | B_MOD
  | B_AND | B_OR | B_XOR | B_SHL | B_SHR
  | B_EQ | B_NE | B_LT | B_LE | B_GT | B_GE
  | B_LAND | B_LOR.

#[export] Instance ir_op_eq_dec : EqDecision ir_op.
Proof. solve_decision. Defined.
#[export] Instance binop_eq_dec : EqDecision binop.
Proof. solve_decision. Defined.

Definition op_is (x y : ir_op) : bool := bool_decide (x = y).

(** ** Instructions *)

(** What a pass reads off the function a direct call names. *)
Record func := Func {
  f_id : Z;
  inf_no_write : bool;
  inf_no_read : bool;
  is_nothrow : bool }.

(** A call's argument: the vreg, and the classification irgen gave it. *)
Record ir_arg := Arg {
  arg_vreg : Z;
  arg_is_struct : bool;
  arg_size : Z;
  arg_abi : list Z }.

Record ir_asm_op := AsmOp {
  ao_temp : Z;
  ao_reg : Z;
  ao_size : Z;
  ao_inout : bool;
  ao_mem : bool;
  ao_val : bool }.

Record ir_asm := Asm {
  asm_code : list Z;
  asm_in : list ir_asm_op;
  asm_out : list ir_asm_op;
  asm_cont : bool;
  asm_clob : Z }.

(** Where an instruction came from. *)
Record ins_loc := Loc { line : Z; col : Z; synth : Z; heat : Z; prob : Z }.

(** What a memory access carries besides its width. *)
Record ins_mem := Mem {
  mo : Z; vol : bool; flash : bool; atomic : bool; memoff : Z; natural : bool }.

(** What a call carries. *)
Record ins_call := Call {
  callee : option func;
  callee_sym : Z;
  indirect : bool;
  argv : list ir_arg;
  eh_region : Z;
  call_abi : list Z }.

Record ir_ins := Ins {
  i_op : ir_op;
  i_dst : Z; i_a : Z; i_b : Z; i_c : Z;
  i_w : Z; i_size : Z;
  i_sign : bool; i_flt : bool;
  i_imm : Z; i_imm_b : bool;
  i_pred : binop;
  i_label : Z; i_jt : Z;
  i_glob : Z;
  i_loc : ins_loc;
  i_mem : ins_mem;
  i_call : ins_call;
  i_asm : option ir_asm }.

Definition i_vol (i : ir_ins) : bool := vol (i_mem i).

(** [ins_blank]: a zeroed instruction whose vreg and label fields are -1.
    ([memset] makes the opcode the first, [IR_CONST].) *)
Definition loc0 : ins_loc := Loc 0 0 0 0 0.
Definition mem0 : ins_mem := Mem 0 false false false 0 false.
Definition call0 : ins_call := Call None 0 false [] 0 [].

Definition ins_zero : ir_ins :=
  Ins IR_CONST 0 0 0 0 0 0 false false 0 false B_ADD 0 0 0 loc0 mem0 call0 None.
Definition ins_blank : ir_ins :=
  Ins IR_CONST (-1) (-1) (-1) 0 0 0 false false 0 false B_ADD (-1) 0 0 loc0 mem0 call0 None.

(** Field updates: the assignments [i->f = v] of the passes. *)
Definition set_op v i := let 'Ins _ d a b c w s g f k kb p l j gl lo m ca asm := i in
  Ins v d a b c w s g f k kb p l j gl lo m ca asm.
Definition set_dst v i := let 'Ins o _ a b c w s g f k kb p l j gl lo m ca asm := i in
  Ins o v a b c w s g f k kb p l j gl lo m ca asm.
Definition set_a v i := let 'Ins o d _ b c w s g f k kb p l j gl lo m ca asm := i in
  Ins o d v b c w s g f k kb p l j gl lo m ca asm.
Definition set_b v i := let 'Ins o d a _ c w s g f k kb p l j gl lo m ca asm := i in
  Ins o d a v c w s g f k kb p l j gl lo m ca asm.
Definition set_c v i := let 'Ins o d a b _ w s g f k kb p l j gl lo m ca asm := i in
  Ins o d a b v w s g f k kb p l j gl lo m ca asm.
Definition set_w v i := let 'Ins o d a b c _ s g f k kb p l j gl lo m ca asm := i in
  Ins o d a b c v s g f k kb p l j gl lo m ca asm.
Definition set_size v i := let 'Ins o d a b c w _ g f k kb p l j gl lo m ca asm := i in
  Ins o d a b c w v g f k kb p l j gl lo m ca asm.
Definition set_sign v i := let 'Ins o d a b c w s _ f k kb p l j gl lo m ca asm := i in
  Ins o d a b c w s v f k kb p l j gl lo m ca asm.
Definition set_flt v i := let 'Ins o d a b c w s g _ k kb p l j gl lo m ca asm := i in
  Ins o d a b c w s g v k kb p l j gl lo m ca asm.
Definition set_imm v i := let 'Ins o d a b c w s g f _ kb p l j gl lo m ca asm := i in
  Ins o d a b c w s g f v kb p l j gl lo m ca asm.
Definition set_imm_b v i := let 'Ins o d a b c w s g f k _ p l j gl lo m ca asm := i in
  Ins o d a b c w s g f k v p l j gl lo m ca asm.
Definition set_pred v i := let 'Ins o d a b c w s g f k kb _ l j gl lo m ca asm := i in
  Ins o d a b c w s g f k kb v l j gl lo m ca asm.
Definition set_label v i := let 'Ins o d a b c w s g f k kb p _ j gl lo m ca asm := i in
  Ins o d a b c w s g f k kb p v j gl lo m ca asm.
Definition set_loc v i := let 'Ins o d a b c w s g f k kb p l j gl _ m ca asm := i in
  Ins o d a b c w s g f k kb p l j gl v m ca asm.
Definition set_call v i := let 'Ins o d a b c w s g f k kb p l j gl lo m _ asm := i in
  Ins o d a b c w s g f k kb p l j gl lo m v asm.
Definition set_asm v i := let 'Ins o d a b c w s g f k kb p l j gl lo m ca _ := i in
  Ins o d a b c w s g f k kb p l j gl lo m ca v.

Definition set_vreg (v : Z) (x : ir_arg) : ir_arg :=
  Arg v (arg_is_struct x) (arg_size x) (arg_abi x).
Definition set_temp (v : Z) (x : ir_asm_op) : ir_asm_op :=
  AsmOp v (ao_reg x) (ao_size x) (ao_inout x) (ao_mem x) (ao_val x).
Definition set_argv (l : list ir_arg) (c : ins_call) : ins_call :=
  Call (callee c) (callee_sym c) (indirect c) l (eh_region c) (call_abi c).
Definition set_asm_ops (ins outs : list ir_asm_op) (x : ir_asm) : ir_asm :=
  Asm (asm_code x) ins outs (asm_cont x) (asm_clob x).

(** The position of [src], as the passes copy it onto what they build. *)
Definition at_loc (src : ir_ins) (sy : Z) : ins_loc :=
  Loc (line (i_loc src)) (col (i_loc src)) sy 0 0.

(** ** Functions *)

Record ir_local := Local_ {
  l_size : Z; l_align : Z;
  is_volatile : bool;
  is_ldouble : bool;
  is_int128 : bool;
  is_int_or_ptr : bool;
  is_scalar_int_or_ptr : bool;
  is_scalar_float : bool }.

Record ir_eh := Eh { eh_parent : Z; eh_lo : Z; eh_hi : Z; lp_label : Z }.

Record ir_func := Fn {
  nparams : Z;
  nvars : Z;
  nvregs : Z;
  nlabels : Z;
  locals : list ir_local;
  ins : list ir_ins;
  jt : list (list Z);
  var_scope : option (list (Z * Z));  (* var_scope_lo, var_scope_hi; None: NULL *)
  eh : list ir_eh }.

Definition nins (fn : ir_func) : Z := Z.of_nat (length (ins fn)).

Definition set_ins (l : list ir_ins) (fn : ir_func) : ir_func :=
  Fn (nparams fn) (nvars fn) (nvregs fn) (nlabels fn) (locals fn) l (jt fn) (var_scope fn) (eh fn).
Definition set_nvregs (n : Z) (fn : ir_func) : ir_func :=
  Fn (nparams fn) (nvars fn) n (nlabels fn) (locals fn) (ins fn) (jt fn) (var_scope fn) (eh fn).
Definition set_scope (s : option (list (Z * Z))) (fn : ir_func) : ir_func :=
  Fn (nparams fn) (nvars fn) (nvregs fn) (nlabels fn) (locals fn) (ins fn) (jt fn) s (eh fn).

Definition ins_at (fn : ir_func) (n : Z) : option ir_ins :=
  if n <? 0 then None else ins fn !! Z.to_nat n.
