(* ===== verification/Util.v ===== *)
(** * Reading the IR: [src/src/opt/util.c]

    Operation classes, the visitors [each_read] and [each_label], the definition
    analysis [compute_defs] and the constants it makes known ([const_b],
    [get_const]). The visitors take the callback the C functions take: it sees
    the field, may replace it, and threads a context. A call's argument array is
    a value here, so [ins_own_args] and [unshare_call_args], which only undo the
    sharing of one array by two calls, have no counterpart. *)
From stdpp Require Import base numbers list option.
From Stdlib Require Import ZArith Lia.
From S2P Require Import Prelude Ir.

Local Open Scope Z_scope.

(** ** Operation classes *)

Definition writes_temp (op : ir_op) : bool :=
  match op with
  | IR_CONST | IR_MOV
  | IR_ADD | IR_SUB | IR_MUL | IR_DIV | IR_MOD
  | IR_AND | IR_OR | IR_XOR | IR_SHL | IR_SHR
  | IR_NEG | IR_BNOT | IR_CMP
  | IR_LDVAR | IR_ADDR | IR_STRADDR | IR_GADDR
  | IR_FADDR | IR_LOAD | IR_EXT | IR_BSWAP | IR_SQRT
  | IR_CLZ | IR_CTZ | IR_POPCNT
  | IR_I2F | IR_F2I | IR_F2F | IR_BITCAST
  | IR_CALL | IR_XCHG
  | IR_XADD | IR_CMPXCHG | IR_ARMW | IR_CAS | IR_CAS16
  | IR_FRAMEADDR | IR_ALLOCA | IR_SPSAVE
  | IR_SELECT | IR_MULH | IR_MULW
  | IR_LABELADDR
  | IR_VLOAD | IR_VBIN | IR_VSPLAT | IR_VREDADD
  | IR_VWIDEN => true
  | _ => false
  end.

Definition is_pure (op : ir_op) : bool :=
  match op with
  | IR_CONST | IR_MOV
  | IR_ADD | IR_SUB | IR_MUL
  | IR_AND | IR_OR | IR_XOR | IR_SHL | IR_SHR
  | IR_NEG | IR_BNOT | IR_CMP
  | IR_LDVAR | IR_ADDR | IR_STRADDR | IR_GADDR
  | IR_FADDR | IR_EXT | IR_BSWAP | IR_SQRT
  | IR_CLZ | IR_CTZ | IR_POPCNT
  | IR_I2F | IR_F2I | IR_F2F | IR_BITCAST
  | IR_SELECT | IR_LABELADDR
  | IR_MULH | IR_MULW => true
  | _ => false
  end.

Definition def_target (i : ir_ins) : Z :=
  if op_is (i_op i) IR_STVAR then i_dst i
  else if writes_temp (i_op i) then i_dst i
  else if op_is (i_op i) IR_ASM then i_dst i
  else -1.

Definition ir_result_w (i : ir_ins) : Z := if op_is (i_op i) IR_CMP then 4 else i_w i.
Definition ir_result_flt (i : ir_ins) : bool := if op_is (i_op i) IR_CMP then false else i_flt i.

(** ** The visitors *)

Section Visit.
Context {S : Type} (cb : Z -> S -> Z * S).

Definition at_a (r : ir_ins * S) : ir_ins * S :=
  let '(i, s) := r in let '(v, s) := cb (i_a i) s in (set_a v i, s).
Definition at_b (r : ir_ins * S) : ir_ins * S :=
  let '(i, s) := r in let '(v, s) := cb (i_b i) s in (set_b v i, s).
Definition at_c (r : ir_ins * S) : ir_ins * S :=
  let '(i, s) := r in let '(v, s) := cb (i_c i) s in (set_c v i, s).

Fixpoint at_args (l : list ir_arg) (s : S) : list ir_arg * S :=
  match l with
  | [] => ([], s)
  | x :: l =>
      let '(v, s) := cb (arg_vreg x) s in
      let '(l, s) := at_args l s in (set_vreg v x :: l, s)
  end.

(** The operands of an asm: every input, and each output that is not a value. *)
Fixpoint at_asm_ops (all : bool) (l : list ir_asm_op) (s : S) : list ir_asm_op * S :=
  match l with
  | [] => ([], s)
  | x :: l =>
      let '(x, s) := if all || negb (ao_val x)
                     then let '(v, s) := cb (ao_temp x) s in (set_temp v x, s)
                     else (x, s) in
      let '(l, s) := at_asm_ops all l s in (x :: l, s)
  end.

Definition at_argv (r : ir_ins * S) : ir_ins * S :=
  let '(i, s) := r in
  let '(l, s) := at_args (argv (i_call i)) s in
  (set_call (set_argv l (i_call i)) i, s).

Definition at_asm (r : ir_ins * S) : ir_ins * S :=
  let '(i, s) := r in
  match i_asm i with
  | None => (i, s)
  | Some x =>
      let '(ins, s) := at_asm_ops true (asm_in x) s in
      let '(outs, s) := at_asm_ops false (asm_out x) s in
      (set_asm (Some (set_asm_ops ins outs x)) i, s)
  end.

Definition each_read (i : ir_ins) (s : S) : ir_ins * S :=
  match i_op i with
  | IR_MOV | IR_NEG | IR_BNOT
  | IR_I2F | IR_F2I | IR_F2F | IR_BITCAST
  | IR_EXT | IR_BSWAP | IR_SQRT
  | IR_CLZ | IR_CTZ | IR_POPCNT
  | IR_LDVAR | IR_ADDR | IR_LOAD
  | IR_MEMZERO | IR_VA_START | IR_STVAR
  | IR_ALLOCA | IR_SPRESTORE
  | IR_IGOTO | IR_SWITCH => at_a (i, s)
  | IR_ADD | IR_SUB | IR_MUL | IR_DIV | IR_MOD
  | IR_AND | IR_OR | IR_XOR | IR_SHL | IR_SHR
  | IR_CMP => if i_imm_b i then at_a (i, s) else at_b (at_a (i, s))
  | IR_STORE | IR_MEMCPY | IR_XCHG
  | IR_XADD | IR_ARMW
  | IR_VSTORE
  | IR_MULH | IR_MULW => at_b (at_a (i, s))
  | IR_VBIN => if 0 <=? i_b i then at_b (at_a (i, s)) else at_a (i, s)
  | IR_VLOAD | IR_VSPLAT | IR_VREDADD | IR_VWIDEN => at_a (i, s)
  | IR_CMPXCHG | IR_CAS | IR_CAS16 | IR_SELECT => at_c (at_b (at_a (i, s)))
  | IR_BRZ | IR_BRNZ => at_a (i, s)
  | IR_RET => if 0 <=? i_a i then at_a (i, s) else (i, s)
  | IR_CALL => at_argv (if indirect (i_call i) then at_a (i, s) else (i, s))
  | IR_ASM => at_asm (i, s)
  | _ => (i, s)
  end.

(** The labels an instruction names. A switch's table is the function's, so the
    table comes in and goes out beside the instruction. *)
Fixpoint at_labels (l : list Z) (s : S) : list Z * S :=
  match l with
  | [] => ([], s)
  | x :: l => let '(x, s) := cb x s in let '(l, s) := at_labels l s in (x :: l, s)
  end.

Definition each_label (tabs : list (list Z)) (i : ir_ins) (s : S)
  : list (list Z) * ir_ins * S :=
  match i_op i with
  | IR_JMP | IR_BRZ | IR_BRNZ | IR_LABELADDR =>
      let '(l, s) := cb (i_label i) s in (tabs, set_label l i, s)
  | IR_SWITCH =>
      let '(l, s) := cb (i_label i) s in
      let k := Z.to_nat (i_jt i) in
      let '(tab, s) := at_labels (tabs !!! k) s in
      (<[k := tab]> tabs, set_label l i, s)
  | _ => (tabs, i, s)
  end.
End Visit.

(** The callbacks of util.c and dce.c. *)
Definition retarget_cb (from to : Z) (p : Z) (s : unit) : Z * unit :=
  (if p =? from then to else p, s).
Definition count_cb (n : Z) (p : Z) (use : Z -> Z) : Z * (Z -> Z) :=
  (p, if (0 <=? p) && (p <? n) then fun v => if v =? p then use v + 1 else use v else use).

(** [struct opnds]: at most four operands, and whether there were more. *)
Record opnds := Opnds { o_v : list Z; o_over : bool }.
Definition opnd_cb (p : Z) (o : opnds) : Z * opnds :=
  (p, if (length (o_v o) <? 4)%nat then Opnds (o_v o ++ [p]) (o_over o) else Opnds (o_v o) true).
Definition value_opnds (i : ir_ins) : opnds :=
  if op_is (i_op i) IR_LDVAR || op_is (i_op i) IR_ADDR then Opnds [] false
  else (each_read opnd_cb i (Opnds [] false)).2.

Definition findv_cb (v : Z) (p : Z) (found : bool) : Z * bool :=
  (p, if p =? v then true else found).
Definition ins_reads (i : ir_ins) (v : Z) : bool :=
  if op_is (i_op i) IR_LDVAR || op_is (i_op i) IR_ADDR then false
  else (each_read (findv_cb v) i false).2.

(** What [each_read] visits, in order, and the labels [each_label] visits. *)
Definition reads (i : ir_ins) : list Z := (each_read (fun p l => (p, l ++ [p])) i []).2.
Definition labels_of (tabs : list (list Z)) (i : ir_ins) : list Z :=
  (each_label (fun p l => (p, l ++ [p])) tabs i []).2.
(** The instruction with every vreg it reads renamed. *)
Definition rename (f : Z -> Z) (i : ir_ins) : ir_ins := (each_read (fun p s => (f p, s)) i tt).1.

(** ** Definitions *)

Record defs := Defs {
  d_cnt : Z -> Z;     (* number of definitions of each vreg *)
  d_ins : Z -> Z }.   (* index of the sole defining instruction, or -1 *)

(** [if (d->cnt[t]++ == 0) d->ins[t] = n; else d->ins[t] = -1;] *)
Definition note_def (n t : Z) (d : defs) : defs :=
  Defs (upd (d_cnt d) t (d_cnt d t + 1))
       (upd (d_ins d) t (if d_cnt d t =? 0 then n else -1)).

(** The vregs one instruction defines, as [compute_defs] counts them: a landing
    pad has two, the others [def_target]'s. *)
Definition def_list (nv : Z) (i : ir_ins) : list Z :=
  if op_is (i_op i) IR_LANDING
  then filter (fun v => 0 <= v < nv) [i_dst i; i_b i]
  else if def_target i <? 0 then [] else [def_target i].

Fixpoint compute_defs_loop (nv n : Z) (l : list ir_ins) (d : defs) : defs :=
  match l with
  | [] => d
  | i :: l => compute_defs_loop nv (n + 1) l (foldl (fun d t => note_def n t d) d (def_list nv i))
  end.

Definition defs_init (fn : ir_func) : defs :=
  Defs (fun v => if (0 <=? v) && (v <? nparams fn) && (v <? nvregs fn) then 1 else 0) (fun _ => -1).
Definition compute_defs (fn : ir_func) : defs :=
  compute_defs_loop (nvregs fn) 0 (ins fn) (defs_init fn).

Definition const_b (fn : ir_func) (d : defs) (i : ir_ins) : option Z :=
  if i_imm_b i then Some (i_imm i)
  else
    let v := i_b i in
    if (v <? 0) || (nvregs fn <=? v) || negb (d_cnt d v =? 1) then None
    else match ins_at fn (d_ins d v) with
         | Some di => if op_is (i_op di) IR_CONST then Some (i_imm di) else None
         | None => None
         end.

Definition get_const (fn : ir_func) (d : defs) (v : Z) : option Z :=
  if (v <? 0) || negb (d_cnt d v =? 1) || (d_ins d v <? 0) then None
  else match ins_at fn (d_ins d v) with
       | Some di => if negb (op_is (i_op di) IR_CONST) || i_flt di then None else Some (i_imm di)
       | None => None
       end.

(** [defs_lists]: per vreg the instructions that define it, in order (the
    [first]/[next] chains), by [def_target]. *)
Fixpoint defs_list_from (fn : ir_func) (n : Z) (l : list ir_ins) (v : Z) : list Z :=
  match l with
  | [] => []
  | i :: l =>
      let t := def_target i in
      let rest := defs_list_from fn (n + 1) l v in
      if (0 <=? t) && (t <? nvregs fn) && negb (op_is (i_op i) IR_LANDING) && (t =? v)
      then n :: rest else rest
  end.
Definition defs_lists (fn : ir_func) (v : Z) : list Z := defs_list_from fn 0 (ins fn) v.

(** [remap_scopes] (cfgclean.c), which every pass that renumbers the
    instructions runs, or writes out. *)
Definition remap_bound (newpos : Z -> Z) (oldn x : Z) : Z :=
  if (0 <=? x) && (x <=? oldn) then newpos x else x.
Definition remap_scopes (newpos : Z -> Z) (oldn : Z) (s : option (list (Z * Z)))
  : option (list (Z * Z)) :=
  map (fun p => (remap_bound newpos oldn p.1, remap_bound newpos oldn p.2)) <$> s.

(** ** Laws of the visitors *)

Section Observe.
Context {S : Type} (cb : Z -> S -> Z * S).
Context (Hcb : forall p s, (cb p s).1 = p).
Let obs (s : S) (p : Z) : S := (cb p s).2.

Lemma observe_at p s : cb p s = (p, obs s p).
Proof using Hcb. unfold obs. rewrite <- (Hcb p s) at 2. apply surjective_pairing. Qed.

Lemma at_args_observe l s :
  at_args cb l s = (l, foldl obs s (map arg_vreg l)).
Proof using Hcb.
  revert s. induction l as [|x l IH]; intros s; simpl; [done|].
  rewrite observe_at, IH. by destruct x.
Qed.

Lemma at_asm_ops_observe all l s :
  at_asm_ops cb all l s
  = (l, foldl obs s (map ao_temp (filter (fun x => all || negb (ao_val x)) l))).
Proof using Hcb.
  revert s. induction l as [|x l IH]; intros s; simpl; [done|]. rewrite filter_cons.
  destruct (all || negb (ao_val x)) eqn:E; simpl; [rewrite observe_at|]; rewrite IH; simpl.
  - by destruct x.
  - done.
Qed.

Lemma at_labels_observe l s : at_labels cb l s = (l, foldl obs s l).
Proof using Hcb.
  revert s. induction l as [|x l IH]; intros s; simpl; [done|]. by rewrite observe_at, IH.
Qed.
End Observe.

Lemma foldl_snoc_id (l acc : list Z) : foldl (fun l p => l ++ [p]) acc l = acc ++ l.
Proof.
  revert acc. induction l as [|x l IH]; intros acc; simpl; [by rewrite app_nil_r|].
  rewrite IH, <- (assoc (++)). done.
Qed.

(** A closed form of [reads]. *)
Definition asm_reads (x : ir_asm) : list Z :=
  map ao_temp (asm_in x) ++ map ao_temp (filter (fun o => negb (ao_val o)) (asm_out x)).

Definition reads_spec (i : ir_ins) : list Z :=
  match i_op i with
  | IR_MOV | IR_NEG | IR_BNOT | IR_I2F | IR_F2I | IR_F2F | IR_BITCAST
  | IR_EXT | IR_BSWAP | IR_SQRT | IR_CLZ | IR_CTZ | IR_POPCNT
  | IR_LDVAR | IR_ADDR | IR_LOAD | IR_MEMZERO | IR_VA_START | IR_STVAR
  | IR_ALLOCA | IR_SPRESTORE | IR_IGOTO | IR_SWITCH
  | IR_VLOAD | IR_VSPLAT | IR_VREDADD | IR_VWIDEN | IR_BRZ | IR_BRNZ => [i_a i]
  | IR_ADD | IR_SUB | IR_MUL | IR_DIV | IR_MOD
  | IR_AND | IR_OR | IR_XOR | IR_SHL | IR_SHR | IR_CMP =>
      if i_imm_b i then [i_a i] else [i_a i; i_b i]
  | IR_STORE | IR_MEMCPY | IR_XCHG | IR_XADD | IR_ARMW | IR_VSTORE
  | IR_MULH | IR_MULW => [i_a i; i_b i]
  | IR_VBIN => if 0 <=? i_b i then [i_a i; i_b i] else [i_a i]
  | IR_CMPXCHG | IR_CAS | IR_CAS16 | IR_SELECT => [i_a i; i_b i; i_c i]
  | IR_RET => if 0 <=? i_a i then [i_a i] else []
  | IR_CALL => (if indirect (i_call i) then [i_a i] else []) ++ map arg_vreg (argv (i_call i))
  | IR_ASM => match i_asm i with Some x => asm_reads x | None => [] end
  | _ => []
  end.

Section EachRead.
Context {S : Type} (cb : Z -> S -> Z * S).
Context (Hcb : forall p s, (cb p s).1 = p).
Let obs (s : S) (p : Z) : S := (cb p s).2.

Lemma at_a_observe i s : at_a cb (i, s) = (i, obs s (i_a i)).
Proof using Hcb. unfold at_a. rewrite (observe_at cb Hcb). by destruct i. Qed.
Lemma at_b_observe i s : at_b cb (i, s) = (i, obs s (i_b i)).
Proof using Hcb. unfold at_b. rewrite (observe_at cb Hcb). by destruct i. Qed.
Lemma at_c_observe i s : at_c cb (i, s) = (i, obs s (i_c i)).
Proof using Hcb. unfold at_c. rewrite (observe_at cb Hcb). by destruct i. Qed.
Lemma at_argv_observe i s : at_argv cb (i, s) = (i, foldl obs s (map arg_vreg (argv (i_call i)))).
Proof using Hcb.
  unfold at_argv. rewrite (at_args_observe cb Hcb). by destruct i as [? ? ? ? ? ? ? ? ? ? ? ? ? ? ? ? ? [] ?].
Qed.
Lemma at_asm_observe i s :
  at_asm cb (i, s) = (i, foldl obs s (match i_asm i with Some x => asm_reads x | None => [] end)).
Proof using Hcb.
  unfold at_asm. destruct (i_asm i) as [x|] eqn:E; [|done].
  rewrite !(at_asm_ops_observe cb Hcb). simpl. unfold asm_reads. rewrite foldl_app.
  replace (filter (fun _ => True) (asm_in x)) with (asm_in x).
  2: { clear. induction (asm_in x) as [|y l IH]; [done|].
       rewrite filter_cons, decide_True by done. by rewrite <- IH. }
  destruct i, x; simpl in *; subst; reflexivity.
Qed.

(** A callback that changes no field leaves the instruction as it is and folds
    over what the instruction reads. *)
Lemma each_read_observe i s : each_read cb i s = (i, foldl obs s (reads_spec i)).
Proof using Hcb.
  unfold each_read, reads_spec.
  destruct (i_op i) eqn:Eo;
    rewrite ?at_a_observe, ?at_b_observe, ?at_c_observe, ?at_asm_observe; try reflexivity;
    try (destruct (i_imm_b i); rewrite ?at_a_observe, ?at_b_observe; reflexivity);
    try (destruct (0 <=? i_b i); rewrite ?at_a_observe, ?at_b_observe; reflexivity);
    try (destruct (0 <=? i_a i); rewrite ?at_a_observe; reflexivity).
  destruct (indirect (i_call i)); rewrite ?at_a_observe, at_argv_observe; done.
Qed.
End EachRead.

Lemma reads_eq i : reads i = reads_spec i.
Proof. unfold reads. rewrite each_read_observe by done. simpl. by rewrite foldl_snoc_id. Qed.

Lemma ins_reads_iff i v :
  ins_reads i v = true <->
  i_op i <> IR_LDVAR /\ i_op i <> IR_ADDR /\ v ∈ reads i.
Proof.
  unfold ins_reads, op_is. rewrite each_read_observe by done. rewrite reads_eq. simpl.
  assert (F : forall l b, foldl (fun s p => (findv_cb v p s).2) b l = true <-> b = true \/ v ∈ l).
  { induction l as [|x l IH]; intros b; simpl; [rewrite elem_of_nil; tauto|]. rewrite IH, elem_of_cons. unfold findv_cb. simpl.
    destruct (Z.eqb_spec x v); intuition congruence. }
  do 2 case_bool_decide; simpl; rewrite ?F; intuition congruence.
Qed.

(** *** Renaming *)

Lemma at_args_rename f l : (at_args (fun p (s : unit) => (f p, s)) l tt).1
  = map (fun x => set_vreg (f (arg_vreg x)) x) l.
Proof. induction l as [|x l IH]; simpl; [done|]. rewrite <- IH. by destruct (at_args _ _ _). Qed.

Definition rename_asm_op (f : Z -> Z) (all : bool) (x : ir_asm_op) : ir_asm_op :=
  if all || negb (ao_val x) then set_temp (f (ao_temp x)) x else x.

Lemma at_asm_ops_rename f all l : (at_asm_ops (fun p (s : unit) => (f p, s)) all l tt).1
  = map (rename_asm_op f all) l.
Proof.
  induction l as [|x l IH]; simpl; [done|]. rewrite <- IH. unfold rename_asm_op.
  destruct (all || negb (ao_val x)); by destruct (at_asm_ops _ _ _ _).
Qed.

Lemma asm_reads_rename f x :
  asm_reads (set_asm_ops (map (rename_asm_op f true) (asm_in x))
                         (map (rename_asm_op f false) (asm_out x)) x)
  = map f (asm_reads x).
Proof.
  unfold asm_reads. simpl. rewrite map_app, !map_map. f_equal.
  induction (asm_out x) as [|o l IH]; [done|].
  destruct o as [t r sz io me []]; simpl; [|by rewrite IH].
  rewrite !filter_cons. exact IH.
Qed.

(** A renaming that keeps "none" apart from vregs. *)
Definition keeps_sign (f : Z -> Z) : Prop := forall v, (0 <=? f v) = (0 <=? v).

(** Renaming renames exactly what is read. *)
Lemma reads_rename f i : keeps_sign f -> reads (rename f i) = map f (reads i).
Proof.
  intros H. rewrite !reads_eq. unfold rename, each_read, reads_spec.
  destruct i as [o d a b c w s g fl k kb p l j gl lo m ca asm]; simpl.
  destruct o; simpl; try reflexivity; try (destruct kb; reflexivity);
    try (destruct (0 <=? b) eqn:E; simpl; rewrite ?H, E; reflexivity);
    try (destruct (0 <=? a) eqn:E; simpl; rewrite ?H, E; reflexivity).
  - destruct ca as [ce cs ind av eh abi]; simpl.
    destruct ind; simpl; pose proof (at_args_rename f av) as E;
      destruct (at_args _ _ _) as [l' []]; simpl in *; subst l'; by rewrite !map_map.
  - destruct asm as [x|]; [|done]. simpl.
    pose proof (at_asm_ops_rename f true (asm_in x)) as E1.
    pose proof (at_asm_ops_rename f false (asm_out x)) as E2.
    destruct (at_asm_ops _ true _ _) as [l1 []]. destruct (at_asm_ops _ false _ _) as [l2 []].
    simpl in *. subst. apply asm_reads_rename.
Qed.

(** *** Labels *)

Definition labels_spec (tabs : list (list Z)) (i : ir_ins) : list Z :=
  match i_op i with
  | IR_JMP | IR_BRZ | IR_BRNZ | IR_LABELADDR => [i_label i]
  | IR_SWITCH => i_label i :: tabs !!! Z.to_nat (i_jt i)
  | _ => []
  end.

Lemma each_label_observe {S} (cb : Z -> S -> Z * S) tabs i s :
  (forall p s, (cb p s).1 = p) ->
  each_label cb tabs i s = (tabs, i, foldl (fun s p => (cb p s).2) s (labels_spec tabs i)).
Proof.
  intros Hcb. unfold each_label, labels_spec.
  assert (L : set_label (i_label i) i = i) by now destruct i.
  destruct (i_op i); try reflexivity; rewrite (observe_at cb Hcb), L; try reflexivity.
  rewrite (at_labels_observe cb Hcb). simpl. f_equal. f_equal.
  destruct (decide (Z.to_nat (i_jt i) < length tabs)%nat).
  - apply list_insert_id. by apply list_lookup_lookup_total_lt.
  - apply list_insert_ge. lia.
Qed.

Lemma labels_of_eq tabs i : labels_of tabs i = labels_spec tabs i.
Proof. unfold labels_of. rewrite each_label_observe by done. simpl. by rewrite foldl_snoc_id. Qed.

(** ** What [compute_defs] computes *)

(** The definitions of the instruction list, in order: (vreg, instruction). *)
Fixpoint def_events (nv n : Z) (l : list ir_ins) : list (Z * Z) :=
  match l with
  | [] => []
  | i :: l => map (fun t => (t, n)) (def_list nv i) ++ def_events nv (n + 1) l
  end.

Definition note_event (d : defs) (e : Z * Z) : defs := note_def e.2 e.1 d.

Lemma compute_defs_events nv n l d :
  compute_defs_loop nv n l d = foldl note_event d (def_events nv n l).
Proof.
  revert n d. induction l as [|i l IH]; intros n d; simpl; [done|]. rewrite IH, foldl_app. f_equal.
  generalize (def_list nv i) as ts. clear. intros ts. revert d.
  induction ts as [|t ts IH]; intros d; simpl; [done|]. by rewrite IH.
Qed.

(** How often [v] is defined in a list of events. *)
Definition ndefs (v : Z) (es : list (Z * Z)) : Z := Z.of_nat (length (filter (fun e => e.1 = v) es)).

Lemma ndefs_cons v e es : ndefs v (e :: es) = (if e.1 =? v then 1 else 0) + ndefs v es.
Proof.
  unfold ndefs. rewrite filter_cons. destruct (Z.eqb_spec e.1 v); case_decide; try done; simpl; lia.
Qed.

Lemma ndefs_nonneg v es : 0 <= ndefs v es.
Proof. unfold ndefs. lia. Qed.

Lemma note_events_cnt es d v : d_cnt (foldl note_event d es) v = d_cnt d v + ndefs v es.
Proof.
  revert d. induction es as [|e es IH]; intros d; simpl; [unfold ndefs; simpl; lia|].
  rewrite IH, ndefs_cons. unfold note_event, note_def, upd. simpl.
  rewrite (Z.eqb_sym v). destruct (Z.eqb_spec e.1 v); subst; lia.
Qed.

(** After the events, a vreg with one definition names it; with more, or a
    count that did not start at zero, none. *)
Lemma note_events_ins es d v :
  0 <= d_cnt d v ->
  d_ins (foldl note_event d es) v =
    match filter (fun e => e.1 = v) es with
    | [] => d_ins d v
    | [e] => if d_cnt d v =? 0 then e.2 else -1
    | _ => -1
    end.
Proof.
  revert d. induction es as [|e es IH]; intros d Hd; simpl; [done|].
  rewrite IH; unfold note_event, note_def, upd; simpl; [|destruct (Z.eqb_spec v e.1); subst; lia].
  rewrite filter_cons, (Z.eqb_sym v). destruct (Z.eqb_spec e.1 v) as [<-|]; case_decide; try done.
  replace (d_cnt d e.1 + 1 =? 0) with false by (symmetry; apply Z.eqb_neq; lia).
  destruct (filter _ es) as [|? [|]]; done.
Qed.

Lemma compute_defs_cnt fn v :
  d_cnt (compute_defs fn) v
  = d_cnt (defs_init fn) v + ndefs v (def_events (nvregs fn) 0 (ins fn)).
Proof. unfold compute_defs. by rewrite compute_defs_events, note_events_cnt. Qed.

Lemma def_events_In nv k l v n :
  (v, n) ∈ def_events nv k l <->
  exists i, k <= n /\ l !! Z.to_nat (n - k) = Some i /\ v ∈ def_list nv i.
Proof.
  revert k. induction l as [|x l IH]; intros k; simpl.
  - rewrite elem_of_nil. split; [done|]. intros (i & _ & E & _). by rewrite lookup_nil in E.
  - rewrite elem_of_app, IH, list_elem_of_fmap. split.
    + intros [(t & E & Ht) | (i & Hk & E & Hv)].
      * simplify_eq. exists x. rewrite Z.sub_diag. split_and!; [lia | done | done].
      * exists i. split_and!; [lia | | done].
        replace (Z.to_nat (n - k)) with (S (Z.to_nat (n - (k + 1)))) by lia. done.
    + intros (i & Hk & E & Hv). destruct (decide (n = k)) as [->|].
      * rewrite Z.sub_diag in E. simpl in E. simplify_eq. left. by exists v.
      * right. exists i. split_and!; [lia | | done].
        replace (Z.to_nat (n - k)) with (S (Z.to_nat (n - (k + 1)))) in E by lia. done.
Qed.

(** [v] is defined by instruction [n] of [fn] and by no other, and is not bound
    at entry as a parameter. *)
Definition single_def (fn : ir_func) (v n : Z) : Prop :=
  0 <= n /\ (exists i, ins_at fn n = Some i /\ v ∈ def_list (nvregs fn) i) /\
  (forall m i, ins_at fn m = Some i -> v ∈ def_list (nvregs fn) i -> m = n).

Lemma ins_at_nonneg fn n i : ins_at fn n = Some i -> 0 <= n.
Proof. unfold ins_at. destruct (Z.ltb_spec n 0); [done|lia]. Qed.

Lemma ins_at_lookup fn n : 0 <= n -> ins_at fn n = ins fn !! Z.to_nat n.
Proof. unfold ins_at. destruct (Z.ltb_spec n 0); [lia|done]. Qed.

Lemma compute_defs_single fn v n :
  0 <= n -> d_cnt (compute_defs fn) v = 1 -> d_ins (compute_defs fn) v = n -> single_def fn v n.
Proof.
  intros Hn Hc Hi. rewrite compute_defs_cnt in Hc.
  unfold compute_defs in Hi. rewrite compute_defs_events in Hi.
  assert (H0 : 0 <= d_cnt (defs_init fn) v) by (simpl; repeat case_match; lia).
  rewrite note_events_ins in Hi by done. unfold ndefs in Hc.
  destruct (filter _ _) as [|[v' n'] [|]] eqn:F; simpl in *; try lia.
  destruct (_ =? 0); [|lia]. subst n'.
  assert (U : forall m, (v, m) ∈ def_events (nvregs fn) 0 (ins fn) <-> m = n).
  { intros m. transitivity ((v, m) ∈ filter (fun e => e.1 = v) (def_events (nvregs fn) 0 (ins fn))).
    - rewrite list_elem_of_filter. simpl. tauto.
    - rewrite F, list_elem_of_singleton.
      assert (v' = v).
      { assert (I : (v', n) ∈ [(v', n)]) by (apply list_elem_of_singleton; done). rewrite <- F in I.
        apply list_elem_of_filter in I. apply I. }
      split; [congruence | intros ->; congruence]. }
  split; [done|]. split.
  - destruct (proj1 (def_events_In _ _ _ _ _) (proj2 (U n) eq_refl)) as (i & _ & E & Hv).
    exists i. rewrite ins_at_lookup, <- (Z.sub_0_r n) by done. done.
  - intros m i Hm Hv. apply U, def_events_In. exists i.
    pose proof (ins_at_nonneg _ _ _ Hm). rewrite ins_at_lookup in Hm by done.
    rewrite Z.sub_0_r. done.
Qed.
