(* ===== verification/IrSem.v ===== *)
(** * What EmbIR means

    An executable small-step semantics of [src/src/ir/ir.h], after the opcode
    comments of [enum ir_op] and the reference in [docs/internals/ir.md].
    The integer operations at widths 4 and 8 are concrete: a value is held
    sign-extended from its width class, as the folder's [norm] leaves it, a
    division by zero or of the least number by -1 traps, and a shift count is
    taken modulo the width. What the sources leave to a target or to the rest of
    the program -- floating point, 128-bit values, addresses, memory, calls,
    inline assembly -- comes from a [Machine]: pure operations are functions of
    the operand values, effectful ones transform a world. A temporary has no
    value until it is written, and reading one that has none is stuck; a frame
    slot starts with an arbitrary value. *)
From stdpp Require Import base numbers list option.
From Stdlib Require Import ZArith Lia.
From S2P Require Import Prelude Ir Util.

Local Open Scope Z_scope.

(** ** The parts the IR takes from elsewhere *)

(** The result of an effectful operation: it returns up to two values, unwinds,
    or never comes back; the slots memory can reach may have changed. *)
Inductive ext_result (W : Type) :=
  | XRet (v1 v2 : Z) (slots : Z -> Z) (w : W)
  | XThrow (slots : Z -> Z) (w : W)
  | XHalt (w : W).
Arguments XRet {W}.
Arguments XThrow {W}.
Arguments XHalt {W}.

Class Machine := {
  world : Type;
  (* a pure operation: the instruction less its operands, their values *)
  pure_ext : ir_ins -> list Z -> Z;
  (* an effectful one: also the slots memory can reach, and the world *)
  ext : ir_ins -> list Z -> (Z -> Z) -> world -> ext_result world;
  (* the label an address of a label names *)
  igoto : Z -> option Z;
  (* the slots memory can reach: those whose address the program uses *)
  esc : Z -> bool }.

(** An instruction less its destination, its operands and its position: what a
    [Machine] may depend on. A slot an instruction names is part of it. *)
Definition shape (i : ir_ins) : ir_ins :=
  let i := if op_is (i_op i) IR_LDVAR || op_is (i_op i) IR_ADDR then i
           else rename (fun _ => -1) i in
  let i := if op_is (i_op i) IR_STVAR then i else set_dst (-1) i in
  let i := if op_is (i_op i) IR_LANDING then set_b (-1) i else i in
  set_loc loc0 i.

(** ** Values *)

Definition env : Type := Z -> option Z.

Definition bits (w : Z) : Z := 8 * w.
Definition word_ok (w : Z) : bool := (w =? 4) || (w =? 8).
Definition size_ok (s : Z) : bool := (s =? 1) || (s =? 2) || (s =? 4) || (s =? 8).

(** A comparison's result, on the operands read by the comparison's sign. (The
    other members of [enum binop] are never a comparison's predicate.) *)
Definition compare (p : binop) (x y : Z) : bool :=
  match p with
  | B_EQ => x =? y
  | B_NE => negb (x =? y)
  | B_LT => x <? y
  | B_LE => x <=? y
  | B_GT => y <? x
  | B_GE => y <=? x
  | _ => false
  end.

(** The operand [x] of width [w] as a number, by the operation's sign. *)
Definition num (w : Z) (sign : bool) (x : Z) : Z :=
  if sign then swrap (bits w) x else uwrap (bits w) x.

(** Division at width [w]: [None] is a trap. *)
Definition div_val (w : Z) (sign modulo : bool) (x y : Z) : option Z :=
  let x := num w sign x in
  let y := num w sign y in
  if y =? 0 then None
  else if sign && (x =? - 2 ^ (bits w - 1)) && (y =? -1) then None
  else Some (if modulo then Z.rem x y else Z.quot x y).

(** A binary operation of width [w] on two values: the result before it is
    normalised to the width. *)
Definition bin_val (op : ir_op) (w : Z) (sign : bool) (pred : binop) (x y : Z) : option Z :=
  match op with
  | IR_ADD => Some (x + y)
  | IR_SUB => Some (x - y)
  | IR_MUL => Some (x * y)
  | IR_DIV => div_val w sign false x y
  | IR_MOD => div_val w sign true x y
  | IR_AND => Some (Z.land x y)
  | IR_OR => Some (Z.lor x y)
  | IR_XOR => Some (Z.lxor x y)
  | IR_SHL => Some (x * 2 ^ (y mod bits w))
  | IR_SHR => Some (num w sign x / 2 ^ (y mod bits w))
  | IR_CMP => Some (b2z (compare pred (num w sign x) (num w sign y)))
  | IR_MULH => Some (num 4 sign x * num 4 sign y / 2 ^ 32)
  | IR_MULW => Some (num 4 sign x * num 4 sign y)
  | _ => None
  end.

Definition is_bin (op : ir_op) : bool :=
  match op with
  | IR_ADD | IR_SUB | IR_MUL | IR_DIV | IR_MOD | IR_AND | IR_OR | IR_XOR
  | IR_SHL | IR_SHR | IR_CMP | IR_MULH | IR_MULW => true
  | _ => false
  end.

Definition normw (w x : Z) : Z := swrap (bits w) x.

(** The low [size] bytes of a value, extended to width [w]. *)
Definition ext_val (size : Z) (sign : bool) (w x : Z) : Z :=
  normw w (if sign then swrap (bits size) x else uwrap (bits size) x).

Section Sem.
Context {M : Machine}.

(** The value an operation that neither jumps nor touches the world computes
    from its operands' values; [None] traps. *)
Definition eval (i : ir_ins) (vals : list Z) : option Z :=
  let other := Some (pure_ext (shape i) vals) in
  let int := negb (i_flt i) && word_ok (i_w i) in
  match i_op i, vals with
  | IR_CONST, [] => if int then Some (normw (i_w i) (i_imm i)) else other
  | IR_MOV, [x] => Some x
  | IR_ADDR, _ => Some (pure_ext (shape i) [])
  | IR_NEG, [x] => if int then Some (normw (i_w i) (- x)) else other
  | IR_BNOT, [x] => if int then Some (normw (i_w i) (Z.lnot x)) else other
  | IR_EXT, [x] | IR_LDVAR, [x] =>
      if int && size_ok (i_size i) then Some (ext_val (i_size i) (i_sign i) (i_w i) x) else other
  | IR_SELECT, [x; y; z] =>
      if int && word_ok (i_size i) then Some (if uwrap (bits (i_size i)) x =? 0 then z else y)
      else other
  | op, [x] =>
      if is_bin op && i_imm_b i && int
      then normw (i_w i) <$> bin_val op (i_w i) (i_sign i) (i_pred i) x (i_imm i) else other
  | op, [x; y] =>
      if is_bin op && int
      then normw (i_w i) <$> bin_val op (i_w i) (i_sign i) (i_pred i) x y else other
  | _, _ => other
  end.

(** The operations [eval] is for: the pure ones and the division, except a
    volatile read. *)
Definition computes (i : ir_ins) : bool :=
  (is_pure (i_op i) || op_is (i_op i) IR_DIV || op_is (i_op i) IR_MOD) &&
  negb (op_is (i_op i) IR_LDVAR && i_vol i).

(** ** One instruction *)

Inductive outcome := ORet (l : list Z) | OTrap | OUnwind | OHalt.

Inductive flow :=
  | Fall (e : env) (w : world)
  | Goto (l : Z) (e : env) (w : world)
  | Stop (o : outcome) (w : world)
  | Bad.

Definition write (e : env) (t v : Z) : env := if t <? 0 then e else upd e t (Some v).

Definition slots_out (e : env) : Z -> Z := fun s => if esc s then default 0 (e s) else 0.
Definition slots_in (e : env) (sl : Z -> Z) : env := fun s => if esc s then Some (sl s) else e s.

(** The results of an effectful operation: [def_target]'s, and a landing pad's
    two. *)
Definition write_ext (i : ir_ins) (e : env) (v1 v2 : Z) : env :=
  if op_is (i_op i) IR_LANDING then write (write e (i_dst i) v1) (i_b i) v2
  else write e (def_target i) v1.

Definition truncate (size x : Z) : Z := if size_ok size then uwrap (bits size) x else x.

Definition exec_ext (fn : ir_func) (i : ir_ins) (vals : list Z) (e : env) (w : world) : flow :=
  match ext (shape i) vals (slots_out e) w with
  | XRet v1 v2 sl w' => Fall (write_ext i (slots_in e sl) v1 v2) w'
  | XThrow sl w' =>
      match eh fn !! Z.to_nat (eh_region (i_call i) - 1) with
      | Some r => if eh_region (i_call i) <=? 0 then Stop OUnwind w'
                  else Goto (lp_label r) (slots_in e sl) w'
      | None => Stop OUnwind w'
      end
  | XHalt w' => Stop OHalt w'
  end.

(** The test a conditional branch makes, which its width decides: both branches
    make the same, whatever their labels. *)
Definition zero_test (w : Z) : ir_ins := set_w w (set_op IR_BRZ ins_blank).
Definition is_zero (i : ir_ins) (x : Z) : bool :=
  if word_ok (i_w i) then uwrap (bits (i_w i)) x =? 0 else pure_ext (zero_test (i_w i)) [x] =? 0.

Definition switch_label (fn : ir_func) (i : ir_ins) (x : Z) : Z :=
  let u := uwrap (bits (i_w i)) x in
  match (jt fn !!! Z.to_nat (i_jt i)) !! Z.to_nat u with
  | Some l => l
  | None => i_label i
  end.

Definition exec1 (fn : ir_func) (i : ir_ins) (e : env) (w : world) : flow :=
  match mapM e (reads i) with
  | None => Bad
  | Some vals =>
      if computes i then
        match eval i vals with
        | Some v => Fall (write e (i_dst i) v) w
        | None => Stop OTrap w
        end
      else
        match i_op i, vals with
        | IR_LABEL, _ => Fall e w
        | IR_JMP, _ => Goto (i_label i) e w
        | IR_BRZ, [x] => if is_zero i x then Goto (i_label i) e w else Fall e w
        | IR_BRNZ, [x] => if is_zero i x then Fall e w else Goto (i_label i) e w
        | IR_SWITCH, [x] => Goto (switch_label fn i x) e w
        | IR_IGOTO, [x] => match igoto x with Some l => Goto l e w | None => Bad end
        | IR_RET, _ => Stop (ORet vals) w
        | IR_UD2, _ => Stop OTrap w
        | IR_STVAR, [x] =>
            if i_vol i then exec_ext fn i vals e w
            else Fall (write e (i_dst i) (truncate (i_size i) x)) w
        | _, _ => exec_ext fn i vals e w
        end
  end.

(** ** Running a function *)

Inductive config := Run (pc : nat) (e : env) (w : world) | Halted (o : outcome) (w : world) | Wrong.

Fixpoint label_from (l : Z) (n : nat) (code : list ir_ins) : option nat :=
  match code with
  | [] => None
  | i :: code => if op_is (i_op i) IR_LABEL && (i_label i =? l) then Some n else label_from l (S n) code
  end.
Definition label_pos (fn : ir_func) (l : Z) : option nat := label_from l 0 (ins fn).

Definition after (fn : ir_func) (pc : nat) (f : flow) : config :=
  match f with
  | Fall e w => Run (S pc) e w
  | Goto l e w => match label_pos fn l with Some n => Run n e w | None => Wrong end
  | Stop o w => Halted o w
  | Bad => Wrong
  end.

(** The end of the instruction array returns. *)
Definition step (fn : ir_func) (c : config) : config :=
  match c with
  | Run pc e w =>
      match ins fn !! pc with
      | Some i => after fn pc (exec1 fn i e w)
      | None => Halted (ORet []) w
      end
  | _ => c
  end.

Fixpoint exec (k : nat) (fn : ir_func) (c : config) : config :=
  match k with O => c | S k => exec k fn (step fn c) end.

(** A call of the function: its slots hold [sl], its temporaries nothing. *)
Definition entry (fn : ir_func) (sl : Z -> Z) (w : world) : config :=
  Run 0 (fun v => if (0 <=? v) && (v <? nvars fn) then Some (sl v) else None) w.

Definition halts (fn : ir_func) (c : config) (o : outcome) (w : world) : Prop :=
  exists k, exec k fn c = Halted o w.
Definition safe (fn : ir_func) (c : config) : Prop := forall k, exec k fn c <> Wrong.

(** [tgt] does what [src] does: wherever [src] is not stuck, neither is [tgt], and
    they halt alike, with the same outcome in the same world -- neither halts
    where the other does not. *)
Definition preserves (src tgt : ir_func) : Prop :=
  forall sl w, safe src (entry src sl w) ->
  safe tgt (entry tgt sl w) /\
  forall o w', halts src (entry src sl w) o w' <-> halts tgt (entry tgt sl w) o w'.

#[export] Instance preserves_preorder : PreOrder preserves.
Proof.
  split; [by intros fn sl w|]. intros a b c Hab Hbc sl w Sa.
  destruct (Hab sl w Sa) as [Sb Eb]. destruct (Hbc sl w Sb) as [Sc Ec].
  split; [done|]. intros o w'. by rewrite Eb.
Qed.

(** ** Facts every pass uses *)

Lemma eval_pure i vals : is_pure (i_op i) = true -> is_Some (eval i vals).
Proof.
  intros P. unfold eval. destruct (i_op i) eqn:O; try done;
    repeat (case_match; simpl; try (by eexists)); simpl in *; try congruence.
Qed.

Lemma mapM_ext_in (e e' : env) l : (forall r, r ∈ l -> e r = e' r) -> mapM e l = mapM e' l.
Proof.
  induction l as [|x l IH]; intros H; [done|]. simpl. rewrite (H x) by left.
  rewrite IH by (intros r Hr; apply H; by right). done.
Qed.

Lemma write_eq e e' t v x : (x <> t -> e x = e' x) -> (x = t -> t < 0 -> e x = e' x) ->
  write e t v x = write e' t v x.
Proof.
  intros H H'. unfold write, upd. destruct (Z.ltb_spec t 0).
  - destruct (decide (x = t)); auto.
  - destruct (Z.eqb_spec x t); auto.
Qed.

Lemma write_other e t v x : x <> t -> write e t v x = e x.
Proof. intros N. unfold write, upd. destruct (t <? 0); [done|]. by destruct (Z.eqb_spec x t). Qed.

Lemma write_same e t v : 0 <= t -> write e t v t = Some v.
Proof. intros H. unfold write, upd. destruct (Z.ltb_spec t 0); [lia|]. by rewrite Z.eqb_refl. Qed.

(** What the passes rely on in the functions they are given: instructions read
    only vregs there are, and an operation that makes a temporary writes no frame
    slot ([each_read]'s comment: "every dst a pass propagates is a TEMP"). *)
Definition wf_ins (fn : ir_func) (i : ir_ins) : Prop :=
  Forall (fun r => r < nvregs fn) (reads i) /\
  (writes_temp (i_op i) = false \/ i_dst i < 0 \/ nvars fn <= i_dst i).
Definition wf_func (fn : ir_func) : Prop :=
  0 <= nvars fn <= nvregs fn /\ Forall (wf_ins fn) (ins fn).

#[export] Instance wf_ins_dec fn i : Decision (wf_ins fn i).
Proof. unfold wf_ins. apply _. Defined.
#[export] Instance wf_func_dec fn : Decision (wf_func fn).
Proof. unfold wf_func. apply _. Defined.
End Sem.
