(* ===== verification/Simulate.v ===== *)
(** * One simulation argument for every pass that rebuilds the instructions

    A pass that replaces each instruction by a block -- of itself, of nothing, or
    of a sequence that computes the same -- preserves the function when each
    block simulates its instruction ([block_sim]) and labels stay where they are.
    [preserves] follows once, here: same outcomes in the same worlds, and
    termination both ways, from a measure that bounds how long the result can
    stand still. *)
From stdpp Require Import base numbers list option.
From Stdlib Require Import ZArith Lia.
From S2P Require Import Prelude Ir Util IrSem.

Local Open Scope Z_scope.

Section Simulate.
Context {M : Machine}.

(** A block, run from its first instruction. *)
Fixpoint exec_list (fn : ir_func) (code : list ir_ins) (e : env) (w : world) : flow :=
  match code with
  | [] => Fall e w
  | i :: code =>
      match exec1 fn i e w with
      | Fall e w => exec_list fn code e w
      | f => f
      end
  end.

Lemma exec_list_app fn a b e w :
  exec_list fn (a ++ b) e w =
    match exec_list fn a e w with Fall e w => exec_list fn b e w | f => f end.
Proof.
  revert e w. induction a as [|i a IH]; intros e w; simpl; [done|].
  destruct (exec1 fn i e w); [apply IH | done..].
Qed.

Lemma exec1_indep fn fn' i e w :
  jt fn = jt fn' -> eh fn = eh fn' -> exec1 fn i e w = exec1 fn' i e w.
Proof.
  intros Hj He. unfold exec1, exec_ext, switch_label. by rewrite Hj, He.
Qed.

Lemma exec_list_indep fn fn' code e w :
  jt fn = jt fn' -> eh fn = eh fn' -> exec_list fn code e w = exec_list fn' code e w.
Proof.
  intros Hj He. revert e w. induction code as [|i code IH]; intros e w; simpl; [done|].
  rewrite (exec1_indep fn fn') by done. destruct (exec1 fn' i e w); [apply IH | done..].
Qed.

Lemma exec_halted k fn o w : exec k fn (Halted o w) = Halted o w.
Proof. by induction k. Qed.
Lemma exec_wrong k fn : exec k fn Wrong = Wrong.
Proof. by induction k. Qed.
Lemma exec_add k k' fn c : exec (k + k') fn c = exec k' fn (exec k fn c).
Proof. revert c. induction k as [|k IH]; intros c; simpl; [done | apply IH]. Qed.
Lemma exec_mono k k' fn c o w :
  (k <= k')%nat -> exec k fn c = Halted o w -> exec k' fn c = Halted o w.
Proof.
  intros Hk E. replace k' with (k + (k' - k))%nat by lia. rewrite exec_add, E. apply exec_halted.
Qed.

(** Where a block leaves the machine that runs it in place. *)
Definition block_end (fn : ir_func) (pc : nat) (code : list ir_ins) (f : flow) : config :=
  match f with Fall e w => Run (pc + length code) e w | f => after fn pc f end.

Lemma exec_block fn pre code post e w :
  ins fn = pre ++ code ++ post ->
  exists k, exec k fn (Run (length pre) e w) = block_end fn (length pre) code (exec_list fn code e w) /\
            match exec_list fn code e w with Fall _ _ => True | _ => (1 <= k)%nat end.
Proof.
  revert pre e w. induction code as [|i code IH]; intros pre e w E; simpl in *.
  - exists O. simpl. by rewrite Nat.add_0_r.
  - assert (L : ins fn !! length pre = Some i) by (rewrite E; by rewrite lookup_app_r, Nat.sub_diag).
    destruct (exec1 fn i e w) as [e' w'|l e' w'|o w'|] eqn:X.
    1: { destruct (IH (pre ++ [i]) e' w') as (k & Hk & Hf).
         { rewrite E. by rewrite <- (assoc (++)). }
         exists (S k). simpl. rewrite L, X. simpl.
         rewrite length_app in Hk. simpl in Hk. rewrite Nat.add_1_r in Hk. rewrite Hk. split.
         - unfold block_end. destruct (exec_list fn code e' w'); try done. f_equal. simpl. lia.
         - destruct (exec_list fn code e' w'); [done|lia..]. }
    all: exists 1%nat; simpl; rewrite L, X; done.
Qed.

(** ** Blocks in place of instructions *)

Definition label_ok (i : ir_ins) (blk : list ir_ins) : Prop :=
  if op_is (i_op i) IR_LABEL
  then exists i', blk = [i'] /\ i_op i' = IR_LABEL /\ i_label i' = i_label i
  else Forall (fun j => i_op j <> IR_LABEL) blk.

Definition offset (blks : list (list ir_ins)) (n : nat) : nat := length (concat (take n blks)).

Lemma label_from_shift l n code : label_from l n code = Nat.add n <$> label_from l 0 code.
Proof.
  revert n. induction code as [|i code IH]; intros n; simpl; [done|].
  destruct (_ && _); simpl; [f_equal; lia|].
  rewrite (IH (S n)), (IH 1%nat). destruct (label_from l 0 code); simpl; [f_equal; lia | done].
Qed.

Lemma label_from_ge l n code m : label_from l n code = Some m -> (n <= m)%nat.
Proof.
  revert n. induction code as [|i code IH]; intros n; simpl; [done|].
  destruct (_ && _); [intros; simplify_eq; lia | intros E%IH; lia].
Qed.

Lemma label_from_skip l n blk code : Forall (fun j => i_op j <> IR_LABEL) blk ->
  label_from l n (blk ++ code) = label_from l (n + length blk) code.
Proof.
  intros F. revert n. induction F as [|i blk Hi F IH]; intros n; simpl; [f_equal; lia|].
  unfold op_is. rewrite bool_decide_false by done. simpl. rewrite IH. f_equal. lia.
Qed.

Lemma label_from_blocks l code blks k n :
  Forall2 label_ok code blks ->
  label_from l n (concat blks)
  = (fun m => (n + offset blks (m - k))%nat) <$> label_from l k code.
Proof.
  intros F. revert n k. induction F as [|i blk code blks Hi F IH]; intros n k; simpl; [done|].
  unfold label_ok in Hi. destruct (op_is (i_op i) IR_LABEL) eqn:O; simpl.
  - destruct Hi as (i' & -> & Ho & Hl). simpl. rewrite Hl. unfold op_is at 1. rewrite Ho.
    rewrite bool_decide_true by done. simpl. destruct (Z.eqb_spec (i_label i) l); simpl.
    + rewrite Nat.sub_diag. unfold offset. simpl. f_equal. lia.
    + rewrite (IH (S n) (S k)), !(label_from_shift l (S k)). destruct (label_from l 0 code) as [m|]; simpl; [|done].
      f_equal. unfold offset. replace (k + m - k)%nat with m by lia.
      replace (S (k + m) - k)%nat with (S m) by lia. simpl. lia.
  - rewrite label_from_skip by done. rewrite (IH _ (S k)), !(label_from_shift l (S k)).
    destruct (label_from l 0 code) as [m|]; simpl; [|done]. f_equal. unfold offset.
    replace (k + m - k)%nat with m by lia. replace (S (k + m) - k)%nat with (S m) by lia.
    simpl. rewrite length_app. lia.
Qed.

Section Diagram.
Context (src tgt : ir_func) (blks : list (list ir_ins)).
Context (R : nat -> env -> env -> Prop).

(** The block that replaces an instruction does what the instruction does. *)
Definition flow_sim (n : nat) (f f' : flow) : Prop :=
  match f with
  | Fall es w => exists et, f' = Fall et w /\ R (S n) es et
  | Goto l es w => exists et, f' = Goto l et w /\ (forall m, label_pos src l = Some m -> R m es et)
  | Stop o w => f' = Stop o w
  | Bad => True
  end.

(** A jump to the next instruction is as good as falling into it. *)
Definition flow_jump (n : nat) (f f' : flow) : Prop :=
  match f with
  | Fall es w => exists l et, f' = Goto l et w /\ label_pos src l = Some (S n) /\ R (S n) es et
  | _ => False
  end.

Definition block_sim : Prop := forall n i blk es et w,
  ins src !! n = Some i -> blks !! n = Some blk -> R n es et ->
  flow_sim n (exec1 src i es w) (exec_list src blk et w).

Definition block_jump_sim : Prop := forall n i blk es et w,
  ins src !! n = Some i -> blks !! n = Some blk -> R n es et ->
  after src n (exec1 src i es w) <> Wrong ->
  flow_sim n (exec1 src i es w) (exec_list src blk et w) \/
  flow_jump n (exec1 src i es w) (exec_list src blk et w).

(** Every label the source can go to is where its block is. *)
Definition labels_kept : Prop := forall l m es et,
  label_pos src l = Some m -> R m es et -> label_pos tgt l = Some (offset blks m).

Context (Hins : ins tgt = concat blks).
Context (Hjt : jt tgt = jt src) (Heh : eh tgt = eh src) (Hnv : nvars tgt = nvars src).
Context (Hlen : length blks = length (ins src)).
Context (Hkept : labels_kept).
Context (Hsim : block_jump_sim).

Inductive match_cfg : config -> config -> Prop :=
  | match_run n es et w : (n <= length (ins src))%nat -> R n es et ->
      match_cfg (Run n es w) (Run (offset blks n) et w)
  | match_halted o w : match_cfg (Halted o w) (Halted o w).

Definition pos_of (c : config) : nat := match c with Run n _ _ => n | _ => length (ins src) end.

Lemma label_from_lt l n code m : label_from l n code = Some m -> (m < n + length code)%nat.
Proof.
  revert n. induction code as [|i code IH]; intros n; simpl; [done|].
  destruct (_ && _); [intros; simplify_eq; lia | intros E%IH; lia].
Qed.

Lemma offset_S n blk : blks !! n = Some blk -> offset blks (S n) = (offset blks n + length blk)%nat.
Proof.
  intros E. unfold offset. rewrite (take_S_r _ _ _ E), concat_app. simpl.
  rewrite app_nil_r, length_app. done.
Qed.

Lemma blocks_split n blk : blks !! n = Some blk ->
  ins tgt = concat (take n blks) ++ blk ++ concat (drop (S n) blks).
Proof using Hins.
  intros E. rewrite Hins. rewrite <- (take_drop_middle _ _ _ E) at 1. by rewrite concat_app.
Qed.

(** One step of the source: the result catches up, and every step that is not
    a fall-through costs it at least one of its own. *)
Lemma step_sim c c' :
  match_cfg c c' -> step src c <> Wrong ->
  exists k, match_cfg (step src c) (exec k tgt c') /\
            (S (pos_of c) <= k * S (length (ins src)) + pos_of (step src c))%nat \/
            (exists o w, c = Halted o w /\ c' = Halted o w).
Proof using Hins Hjt Heh Hlen Hkept Hsim.
  destruct 1 as [n es et w Hn HR|o w]; intros NW; [|exists O; right; eauto].
  simpl in *. destruct (ins src !! n) as [i|] eqn:I.
  2: { exists 1%nat. left. simpl. apply lookup_ge_None in I.
       assert (offset blks n = length (ins tgt)) as ->.
       { unfold offset. rewrite take_ge, Hins by (rewrite Hlen; lia). done. }
       rewrite lookup_ge_None_2 by lia. split; [constructor | simpl; lia]. }
  pose proof (lookup_lt_Some _ _ _ I) as Hlt.
  destruct (lookup_lt_is_Some_2 blks n) as [blk B]; [by rewrite Hlen|].
  pose proof (Hsim n i blk es et w I B HR NW) as S. rewrite <- (exec_list_indep tgt src) in S by done.
  destruct (exec_block tgt _ _ _ et w (blocks_split n blk B)) as (k & Hk & Hp).
  fold (offset blks n) in Hk. exists k. left. rewrite Hk.
  destruct S as [S|S]; destruct (exec1 src i es w) as [es' w'|l es' w'|o w'|]; simpl in *; try done.
  - destruct S as (et' & E & HR'). rewrite E in *. simpl.
    rewrite <- (offset_S n blk B). split; [constructor; [lia|done] | lia].
  - destruct S as (et' & E & HR'). rewrite E in *. simpl in *.
    destruct (label_pos src l) as [m|] eqn:L; [|done].
    rewrite (Hkept l m es' et' L) by (by apply HR').
    pose proof (label_from_lt l 0 (ins src) m L).
    split; [apply match_run; [lia | by apply HR'] | simpl; nia].
  - rewrite S in *. simpl in *. split; [constructor | nia].
  - destruct S as (l & et' & E & L & HR'). rewrite E in *. simpl in *.
    rewrite (Hkept l (Datatypes.S n) es' et' L HR').
    pose proof (label_from_lt l 0 (ins src) _ L). split; [apply match_run; [lia | done] | nia].
Qed.

Lemma exec_sim k c c' :
  match_cfg c c' -> safe src c ->
  exists k', match_cfg (exec k src c) (exec k' tgt c') /\
    ((k + pos_of c <= k' * S (length (ins src)) + pos_of (exec k src c))%nat \/
     exists o w, exec k src c = Halted o w).
Proof using Hins Hjt Heh Hlen Hkept Hsim.
  revert c c'. induction k as [|k IH]; intros c c' HM HS; simpl.
  - exists O. split; [done | left; simpl; lia].
  - destruct (step_sim c c' HM (HS 1%nat)) as (k1 & [[HM1 Hc] | (o & w & -> & ->)]).
    + destruct (IH _ _ HM1) as (k2 & HM2 & Hc2); [intros j; exact (HS (S j))|].
      exists (k1 + k2)%nat. rewrite exec_add. split; [done|].
      destruct Hc2 as [Hc2 | Hc2]; [left; lia | by right].
    + exists O. simpl. rewrite exec_halted. split; [constructor | right; eauto].
Qed.

Lemma match_halted_inv c' o w : match_cfg (Halted o w) c' -> c' = Halted o w.
Proof. by inversion 1. Qed.

(** However far the result runs, the source has a run that goes at least as far. *)
Lemma exec_catch k' c c' :
  match_cfg c c' -> safe src c ->
  exists k k2, match_cfg (exec k src c) (exec k2 tgt c') /\
    ((k' <= k2)%nat \/ exists o w, exec k src c = Halted o w).
Proof using Hins Hjt Heh Hlen Hkept Hsim.
  intros HM HS.
  destruct (exec_sim (k' * S (length (ins src)) + S (length (ins src)))%nat _ _ HM HS)
    as (k2 & HM2 & Hc).
  exists (k' * S (length (ins src)) + S (length (ins src)))%nat, k2. split; [done|].
  destruct Hc as [Hc | Hc]; [left | by right].
  assert (pos_of (exec (k' * S (length (ins src)) + S (length (ins src))) src c)
          <= length (ins src))%nat by (inversion HM2; simpl; lia).
  destruct (Nat.le_gt_cases k' k2) as [|L]; [done|].
  pose proof (Nat.mul_le_mono_r k2 k' (S (length (ins src))) ltac:(lia)). lia.
Qed.

Context (H0 : forall e : env, (forall v, nvars src <= v -> e v = None) ->
     (forall v, 0 <= v < nvars src -> is_Some (e v)) -> R 0 e e).

Lemma match_entry sl w : match_cfg (entry src sl w) (entry tgt sl w).
Proof using All.
  unfold entry. rewrite Hnv. apply (match_run 0); [lia|]. apply H0.
  - intros v Hv. destruct (Z.ltb_spec v (nvars src)); [lia|]. by rewrite andb_false_r.
  - intros v Hv. destruct (Z.leb_spec 0 v), (Z.ltb_spec v (nvars src)); try lia. simpl. eauto.
Qed.

Lemma diagram_safe sl w : safe src (entry src sl w) -> safe tgt (entry tgt sl w).
Proof using All.
  intros HS k' E. pose proof (match_entry sl w) as HM.
  destruct (exec_catch k' _ _ HM HS) as (k & k2 & HM2 & Hc).
  destruct (Nat.le_ge_cases k' k2) as [L|L].
  - replace k2 with (k' + (k2 - k'))%nat in HM2 by lia. rewrite exec_add, E, exec_wrong in HM2.
    inversion HM2.
  - destruct Hc as [K | (o2 & w2 & E2)].
    + assert (k2 = k') by lia. subst. rewrite E in HM2. inversion HM2.
    + rewrite E2 in HM2. apply match_halted_inv in HM2.
      replace k' with (k2 + (k' - k2))%nat in E by lia. by rewrite exec_add, HM2, exec_halted in E.
Qed.
(** The pass preserves the function, and stays safe where it was. *)
Lemma diagram_preserves : preserves src tgt.
Proof using All.
  intros sl w HS. split; [by apply diagram_safe|]. intros o w'. pose proof (match_entry sl w) as HM. split.
  - intros (k & E). destruct (exec_sim k _ _ HM HS) as (k' & HM' & _). rewrite E in HM'.
    exists k'. by apply match_halted_inv.
  - intros (k' & E). destruct (exec_catch k' _ _ HM HS) as (k & k2 & HM2 & Hc). exists k.
    destruct Hc as [K | (o2 & w2 & E2)].
    + rewrite (exec_mono _ _ _ _ _ _ K E) in HM2. inversion HM2 as [|? ? Eh]. subst. by symmetry.
    + rewrite E2 in HM2. apply match_halted_inv in HM2.
      destruct (Nat.le_ge_cases k' k2) as [L|L].
      * rewrite (exec_mono _ _ _ _ _ _ L E) in HM2. by rewrite E2, HM2.
      * rewrite (exec_mono _ _ _ _ _ _ L HM2) in E. rewrite E2. done.
Qed.

End Diagram.

(** *** Labels of code that is only dropped *)

(** A block that is dropped, or keeps its label as it was. *)
Definition label_sub (i : ir_ins) (blk : list ir_ins) : Prop := blk = [] \/ label_ok i blk.

Lemma label_from_sub l code blks k n m : Forall2 label_sub code blks -> label_from l k code = Some m ->
  blks !! (m - k)%nat <> Some [] -> label_from l n (concat blks) = Some (n + offset blks (m - k))%nat.
Proof.
  intros F. revert n k. induction F as [|i blk code blks Hi F IH]; intros n k; simpl; [done|].
  assert (shift : forall n, label_from l (S k) code = Some m -> (blk :: blks) !! (m - k)%nat <> Some [] ->
    label_from l (n + length blk) (concat blks) = Some (n + offset (blk :: blks) (m - k))%nat).
  { intros n0 L Nb. pose proof (label_from_ge l (S k) code m L) as G.
    replace (m - k)%nat with (S (m - S k)) in * by lia. rewrite (IH _ _ L Nb). unfold offset. simpl.
    rewrite length_app. f_equal. lia. }
  destruct Hi as [->|Hi].
  - destruct (op_is (i_op i) IR_LABEL && (i_label i =? l)); intros L Nb.
    + simplify_eq. by rewrite Nat.sub_diag in Nb.
    + specialize (shift n L Nb). simpl in shift. by rewrite Nat.add_0_r in shift.
  - unfold label_ok in Hi. destruct (op_is (i_op i) IR_LABEL) eqn:O; simpl.
    + destruct Hi as (i' & -> & Ho & Hl). simpl. unfold op_is at 1. rewrite Ho, Hl. simpl.
      destruct (Z.eqb_spec (i_label i) l); intros L Nb.
      * simplify_eq. rewrite Nat.sub_diag. unfold offset. simpl. f_equal. lia.
      * specialize (shift n L Nb). simpl in shift. by rewrite Nat.add_1_r in shift.
    + intros L Nb. rewrite label_from_skip by done. by apply shift.
Qed.

(** ** Every instruction keeps its place *)

Section Blocks.
Context (src tgt : ir_func) (blks : list (list ir_ins)) (R : nat -> env -> env -> Prop).
Context (Hins : ins tgt = concat blks).
Context (Hjt : jt tgt = jt src) (Heh : eh tgt = eh src) (Hnv : nvars tgt = nvars src).
Context (Hlab : Forall2 label_ok (ins src) blks).
Context (Hsim : block_sim src blks R).

Lemma blocks_labels_kept : labels_kept src tgt blks R.
Proof using Hins Hlab.
  intros l m es et L _. unfold label_pos. rewrite Hins, (label_from_blocks l _ _ 0 0 Hlab).
  fold (label_pos src l). rewrite L. simpl. by rewrite Nat.sub_0_r.
Qed.

Lemma blocks_jump_sim : block_jump_sim src blks R.
Proof using Hsim. intros n i blk es et w I B HR _. left. by apply Hsim. Qed.

Context (H0 : forall e : env, (forall v, nvars src <= v -> e v = None) ->
     (forall v, 0 <= v < nvars src -> is_Some (e v)) -> R 0 e e).

Lemma blocks_preserve : preserves src tgt.
Proof using All.
  apply (diagram_preserves src tgt blks R); try done.
  - symmetry. eapply Forall2_length, Hlab.
  - apply blocks_labels_kept.
  - apply blocks_jump_sim.
Qed.
End Blocks.

Lemma concat_singles {A B} (g : A -> B) l : concat (map (fun x => [g x]) l) = map g l.
Proof. induction l as [|x l IH]; [done|]. simpl. by rewrite IH. Qed.

(** A run that halts is not stuck on the way, and another that halts otherwise
    refutes preservation. *)
Lemma halts_safe fn c o w : halts fn c o w -> safe fn c.
Proof.
  intros (k & E) k' W. destruct (Nat.le_ge_cases k k') as [L|L].
  - by rewrite (exec_mono k k' _ _ _ _ L E) in W.
  - replace k with (k' + (k - k'))%nat in E by lia. by rewrite exec_add, W, exec_wrong in E.
Qed.

Lemma halts_fun fn c o w o' w' : halts fn c o w -> halts fn c o' w' -> o = o' /\ w = w'.
Proof.
  intros (k & E) (k' & E'). apply (exec_mono _ (k + k')) in E; [|lia]. apply (exec_mono _ (k + k')) in E'; [|lia].
  rewrite E in E'. by injection E'.
Qed.

Lemma halts_differ src tgt sl w o w1 o' w2 :
  halts src (entry src sl w) o w1 -> halts tgt (entry tgt sl w) o' w2 -> o <> o' -> ~ preserves src tgt.
Proof.
  intros H H' N P. destruct (P sl w (halts_safe _ _ _ _ H)) as [_ E]. apply E in H.
  by destruct (halts_fun _ _ _ _ _ _ H H').
Qed.

(** ** Passes that meet

    A pass that leaves every instruction in its place need not go step by step: from
    a position both can be at, the two functions run some steps each and are again
    in one state. [P] is where they meet. *)
Section Meet.
Context (src tgt : ir_func) (P : nat -> Prop).

Definition at_meet (c : config) : Prop := match c with Run n _ _ => P n | _ => True end.
Definition reached (c : config) : Prop := exists sl w j, exec j src (entry src sl w) = c.

Definition meets (c : config) : Prop :=
  exists k k', (1 <= k)%nat /\ (1 <= k')%nat /\ exec k' tgt c = exec k src c /\ at_meet (exec k src c).

Context (Hnv : nvars tgt = nvars src) (H0 : P 0).
Context (Hm : forall n e w, reached (Run n e w) -> safe src (Run n e w) -> P n -> meets (Run n e w)).

Lemma safe_later k c : safe src c -> safe src (exec k src c).
Proof. intros H j. rewrite <- exec_add. apply H. Qed.

Lemma reached_later k c : reached c -> reached (exec k src c).
Proof. intros (sl & w & j & <-). exists sl, w, (j + k)%nat. apply exec_add. Qed.

Lemma meets_any c : reached c -> safe src c -> at_meet c -> meets c.
Proof using Hm.
  intros R S A. destruct c as [n e w|o w|]; [by apply Hm| |by destruct (S O)].
  exists 1%nat, 1%nat. done.
Qed.

Lemma meet_run N c : reached c -> safe src c -> at_meet c ->
  exec N tgt c <> Wrong /\
  (forall o w, exec N src c = Halted o w -> halts tgt c o w) /\
  (forall o w, exec N tgt c = Halted o w -> halts src c o w).
Proof using Hm.
  revert c. induction (lt_wf N) as [N _ IH]. intros c R S A.
  destruct (meets_any c R S A) as (k & k' & Hk & Hk' & E & A').
  assert (Next : forall j, (1 <= j <= N)%nat -> _) by (intros j Hj; exact (IH (N - j)%nat ltac:(lia)
    (exec k src c) (reached_later k c R) (safe_later k c S) A')).
  assert (Split : forall fn j, (j <= N)%nat -> exec N fn c = exec (N - j) fn (exec j fn c)).
  { intros fn j Hj. rewrite <- exec_add. f_equal. lia. }
  split_and!.
  - destruct (Nat.le_gt_cases k' N) as [L|L].
    + rewrite (Split tgt k' L), E. by apply Next.
    + intros W. apply (S k). rewrite <- E. replace k' with (N + (k' - N))%nat by lia.
      by rewrite exec_add, W, exec_wrong.
  - intros o w H. destruct (Nat.le_gt_cases k N) as [L|L].
    + rewrite (Split src k L) in H. destruct (Next k ltac:(lia)) as (_ & Hs & _).
      destruct (Hs o w H) as (j & Hj). exists (k' + j)%nat. by rewrite exec_add, E.
    + exists k'. rewrite E. apply (exec_mono N); [lia | done].
  - intros o w H. destruct (Nat.le_gt_cases k' N) as [L|L].
    + rewrite (Split tgt k' L), E in H. destruct (Next k' ltac:(lia)) as (_ & _ & Ht).
      destruct (Ht o w H) as (j & Hj). exists (k + j)%nat. by rewrite exec_add.
    + exists k. rewrite <- E. apply (exec_mono N); [lia | done].
Qed.

Lemma meet_preserves : preserves src tgt.
Proof using All.
  intros sl w S. assert (E : entry tgt sl w = entry src sl w) by (unfold entry; by rewrite Hnv). rewrite E.
  assert (G := fun N => meet_run N (entry src sl w) (ex_intro _ sl (ex_intro _ w (ex_intro _ O eq_refl))) S H0).
  split; [intros k; by apply G|]. intros o w'. split; intros (k & H); by apply (G k).
Qed.
End Meet.

(** Every step of the result is one or more of the source's. *)
Lemma catch_up_preserves src tgt : nvars tgt = nvars src ->
  (forall n e w, reached src (Run n e w) -> safe src (Run n e w) ->
     exists k, (1 <= k)%nat /\ step tgt (Run n e w) = exec k src (Run n e w)) ->
  preserves src tgt.
Proof.
  intros Hn H. apply (meet_preserves src tgt (fun _ => True)); [done | done|]. intros n e w R S _.
  destruct (H n e w R S) as (k & Hk & E). exists k, 1%nat. split_and!; [done | lia | done|].
  by destruct (exec k src (Run n e w)).
Qed.

(** A pass that leaves the instructions alone. *)
Lemma preserves_same src tgt : ins tgt = ins src -> jt tgt = jt src -> eh tgt = eh src ->
  nvars tgt = nvars src -> preserves src tgt.
Proof.
  intros Ei Ej Ee En.
  apply (blocks_preserve src tgt (map (fun i => [i]) (ins src)) (fun _ e e' => e = e')); try done.
  - rewrite Ei, (concat_singles (fun i => i)). by rewrite map_id.
  - clear. induction (ins src) as [|i l IH]; [constructor|]. simpl. constructor; [|done].
    unfold label_ok, op_is. case_bool_decide; [by eexists | by apply Forall_singleton].
  - intros n i blk es et w I B <-. rewrite list_lookup_fmap, I in B. simpl in B. injection B as <-. simpl.
    destruct (exec1 src i es w); simpl; eauto.
Qed.
End Simulate.
