(* ===== verification/Rename.v ===== *)
(** * Renaming what instructions read

    What the rewriting passes of [src/src/opt] have in common: a callback that
    replaces the vregs an instruction reads ([repl_cb], [cpmap_cb], [lcopy_cb] of
    copyprop.c), handed to [each_read]. Such a pass is a [rename], which composes;
    and an instruction whose new operands hold the values of its old ones does
    what it did ([exec1_rename]). *)
From stdpp Require Import base numbers list option sets.
From Stdlib Require Import ZArith Lia.
From S2P Require Import Prelude Ir Util IrSem Simulate.

Local Open Scope Z_scope.

(** ** A callback that renames and observes *)

Section Split.
Context {S : Type} (cb : Z -> S -> Z * S) (f : Z -> Z) (g : S -> Z -> S).
Context (Hcb : forall p s, cb p s = (f p, g s p)).

Lemma at_args_split l s :
  at_args cb l s = (map (fun x => set_vreg (f (arg_vreg x)) x) l, foldl g s (map arg_vreg l)).
Proof using Hcb. revert s. induction l as [|x l IH]; intros s; simpl; [done|]. by rewrite Hcb, IH. Qed.

Lemma at_asm_ops_split all l s :
  at_asm_ops cb all l s =
  (map (rename_asm_op f all) l, foldl g s (map ao_temp (filter (fun x => all || negb (ao_val x)) l))).
Proof using Hcb.
  revert s. induction l as [|x l IH]; intros s; simpl; [done|]. rewrite filter_cons.
  unfold rename_asm_op at 1.
  destruct (all || negb (ao_val x)); [rewrite Hcb|]; rewrite IH; done.
Qed.

Lemma at_a_split i s : at_a cb (i, s) = (set_a (f (i_a i)) i, g s (i_a i)).
Proof using Hcb. unfold at_a. by rewrite Hcb. Qed.
Lemma at_b_split i s : at_b cb (i, s) = (set_b (f (i_b i)) i, g s (i_b i)).
Proof using Hcb. unfold at_b. by rewrite Hcb. Qed.
Lemma at_c_split i s : at_c cb (i, s) = (set_c (f (i_c i)) i, g s (i_c i)).
Proof using Hcb. unfold at_c. by rewrite Hcb. Qed.
End Split.

Lemma filter_all_true {A} (l : list A) : filter (fun _ => True) l = l.
Proof. induction l as [|x l IH]; [done|]. rewrite filter_cons, decide_True by done. by rewrite IH. Qed.

(** [each_read] with such a callback renames the instruction and folds over what
    it read. *)
Lemma each_read_split {S} (cb : Z -> S -> Z * S) f g i s :
  (forall p s, cb p s = (f p, g s p)) ->
  each_read cb i s = (rename f i, foldl g s (reads i)).
Proof.
  intros Hcb. rewrite reads_eq. unfold rename, each_read, reads_spec.
  set (cb' := fun (p : Z) (s : unit) => (f p, s)).
  assert (Hcb' : forall p s, cb' p s = (f p, (fun _ _ => tt) s p)) by (by intros ? []).
  destruct (i_op i) eqn:O;
    rewrite ?(at_a_split cb f g Hcb), ?(at_b_split cb f g Hcb), ?(at_c_split cb f g Hcb),
      ?(at_a_split cb' f _ Hcb'), ?(at_b_split cb' f _ Hcb'), ?(at_c_split cb' f _ Hcb');
    try reflexivity;
    try (destruct (i_imm_b i); rewrite ?(at_a_split cb f g Hcb), ?(at_b_split cb f g Hcb),
      ?(at_a_split cb' f _ Hcb'), ?(at_b_split cb' f _ Hcb'); by destruct i);
    try (destruct (0 <=? i_b i); rewrite ?(at_a_split cb f g Hcb), ?(at_b_split cb f g Hcb),
      ?(at_a_split cb' f _ Hcb'), ?(at_b_split cb' f _ Hcb'); by destruct i);
    try (destruct (0 <=? i_a i); rewrite ?(at_a_split cb f g Hcb), ?(at_a_split cb' f _ Hcb');
      by destruct i); try by destruct i.
  - destruct (indirect (i_call i)); rewrite ?(at_a_split cb f g Hcb), ?(at_a_split cb' f _ Hcb');
      unfold at_argv; rewrite (at_args_split cb f g Hcb), (at_args_split cb' f _ Hcb'); by destruct i.
  - unfold at_asm. destruct (i_asm i) as [x|]; [|done].
    rewrite !(at_asm_ops_split cb f g Hcb), !(at_asm_ops_split cb' f _ Hcb'). simpl.
    unfold asm_reads. rewrite foldl_app. do 2 f_equal. f_equal. f_equal. apply filter_all_true.
Qed.

(** ** Composition *)

Lemma keeps_sign_comp f g : keeps_sign f -> keeps_sign g -> keeps_sign (fun v => g (f v)).
Proof. intros Hf Hg v. by rewrite Hg, Hf. Qed.

(** A renaming in closed form: the fields [each_read] visits, renamed. *)
Definition rename_arg (f : Z -> Z) (x : ir_arg) : ir_arg := set_vreg (f (arg_vreg x)) x.
Definition rename_call (f : Z -> Z) (c : ins_call) : ins_call :=
  set_argv (map (rename_arg f) (argv c)) c.
Definition rename_asm (f : Z -> Z) (x : ir_asm) : ir_asm :=
  set_asm_ops (map (rename_asm_op f true) (asm_in x)) (map (rename_asm_op f false) (asm_out x)) x.

Lemma rename_eq f i : rename f i =
  match i_op i with
  | IR_MOV | IR_NEG | IR_BNOT | IR_I2F | IR_F2I | IR_F2F | IR_BITCAST
  | IR_EXT | IR_BSWAP | IR_SQRT | IR_CLZ | IR_CTZ | IR_POPCNT
  | IR_LDVAR | IR_ADDR | IR_LOAD | IR_MEMZERO | IR_VA_START | IR_STVAR
  | IR_ALLOCA | IR_SPRESTORE | IR_IGOTO | IR_SWITCH
  | IR_VLOAD | IR_VSPLAT | IR_VREDADD | IR_VWIDEN | IR_BRZ | IR_BRNZ => set_a (f (i_a i)) i
  | IR_ADD | IR_SUB | IR_MUL | IR_DIV | IR_MOD
  | IR_AND | IR_OR | IR_XOR | IR_SHL | IR_SHR | IR_CMP =>
      if i_imm_b i then set_a (f (i_a i)) i else set_b (f (i_b i)) (set_a (f (i_a i)) i)
  | IR_STORE | IR_MEMCPY | IR_XCHG | IR_XADD | IR_ARMW | IR_VSTORE
  | IR_MULH | IR_MULW => set_b (f (i_b i)) (set_a (f (i_a i)) i)
  | IR_VBIN => if 0 <=? i_b i then set_b (f (i_b i)) (set_a (f (i_a i)) i) else set_a (f (i_a i)) i
  | IR_CMPXCHG | IR_CAS | IR_CAS16 | IR_SELECT =>
      set_c (f (i_c i)) (set_b (f (i_b i)) (set_a (f (i_a i)) i))
  | IR_RET => if 0 <=? i_a i then set_a (f (i_a i)) i else i
  | IR_CALL => set_call (rename_call f (i_call i))
                 (if indirect (i_call i) then set_a (f (i_a i)) i else i)
  | IR_ASM => match i_asm i with Some x => set_asm (Some (rename_asm f x)) i | None => i end
  | _ => i
  end.
Proof.
  unfold rename, each_read. destruct i as [o d a b c w s g fl k kb p l j gl lo m ca asm].
  set (cb := fun (p : Z) (s : unit) => (f p, s)).
  assert (Hcb : forall p s, cb p s = (f p, (fun _ _ => tt) s p)) by (by intros ? []).
  simpl. destruct o; simpl; try reflexivity; try (by destruct kb); try (by destruct (0 <=? _)).
  - destruct ca as [ce cs ind av eh abi]. simpl.
    destruct ind; simpl; rewrite (at_args_split cb f _ Hcb); done.
  - destruct asm as [x|]; [|done]. simpl. by rewrite !(at_asm_ops_split cb f _ Hcb).
Qed.

Lemma rename_asm_comp f g x : rename_asm g (rename_asm f x) = rename_asm (fun v => g (f v)) x.
Proof.
  unfold rename_asm, set_asm_ops. simpl. rewrite !map_map.
  f_equal; apply map_ext; intros [t r sz io me []]; done.
Qed.

Lemma rename_call_comp f g c : rename_call g (rename_call f c) = rename_call (fun v => g (f v)) c.
Proof. unfold rename_call, set_argv. simpl. by rewrite map_map. Qed.

(** Renaming twice is renaming once. *)
Lemma rename_rename f g i : keeps_sign f -> rename g (rename f i) = rename (fun v => g (f v)) i.
Proof.
  intros H. rewrite (rename_eq f i).
  destruct i as [o d a b c w s gn fl k kb p l j gl lo m ca asm]; simpl.
  destruct o; simpl; try (rewrite !rename_eq; reflexivity);
    try (destruct kb; rewrite !rename_eq; reflexivity);
    try (destruct (0 <=? a) eqn:E; rewrite !rename_eq; simpl; rewrite ?H, E; reflexivity);
    try (destruct (0 <=? b) eqn:E; rewrite !rename_eq; simpl; rewrite ?H, E; reflexivity).
  - destruct (indirect ca) eqn:E; rewrite !rename_eq; simpl; rewrite E; simpl;
      by rewrite rename_call_comp.
  - destruct asm; rewrite !rename_eq; simpl; by rewrite ?rename_asm_comp.
Qed.

(** Only the vregs an instruction reads matter. *)
Lemma rename_ext f g i : (forall r, r ∈ reads i -> f r = g r) -> rename f i = rename g i.
Proof.
  rewrite reads_eq, !rename_eq. unfold reads_spec.
  destruct i as [o d a b c w s gn fl k kb p l j gl lo m ca asm]; simpl.
  assert (three : forall x y z, (forall r, r ∈ [x; y; z] -> f r = g r) -> f x = g x /\ f y = g y /\ f z = g z).
  { intros x y z H. split_and!; apply H; set_solver. }
  assert (two : forall x y, (forall r, r ∈ [x; y] -> f r = g r) -> f x = g x /\ f y = g y).
  { intros x y H. split; apply H; set_solver. }
  assert (one : forall x, (forall r, r ∈ [x] -> f r = g r) -> f x = g x) by (intros x H; apply H; set_solver).
  destruct o; simpl; try reflexivity;
    try (intros ->%one; reflexivity); try (intros [-> ->]%two; reflexivity);
    try (intros (-> & -> & ->)%three; reflexivity);
    try (destruct kb; [intros ->%one | intros [-> ->]%two]; reflexivity);
    try (destruct (0 <=? a); [intros ->%one|]; reflexivity);
    try (destruct (0 <=? b); [intros [-> ->]%two | intros ->%one]; reflexivity); intros H.
  - destruct ca as [ce cs ind av eh abi]; simpl in *.
    assert (E : map (rename_arg f) av = map (rename_arg g) av).
    { apply map_ext_in. intros x Hx. unfold rename_arg. rewrite H; [done|].
      apply elem_of_app. right. apply list_elem_of_fmap. exists x. split; [done|]. by apply list_elem_of_In. }
    unfold rename_call. simpl. rewrite E. destruct ind; simpl in *; [|done]. by rewrite (H a) by left.
  - destruct asm as [x|]; [|done]. do 2 f_equal. unfold rename_asm, asm_reads in *.
    f_equal; apply map_ext_in; intros y Hy%list_elem_of_In; unfold rename_asm_op; simpl.
    + rewrite H; [done|]. apply elem_of_app. left. apply list_elem_of_fmap. by exists y.
    + destruct (ao_val y) eqn:V; simpl; [done|]. rewrite H; [done|]. apply elem_of_app. right.
      apply list_elem_of_fmap. exists y. split; [done|]. apply list_elem_of_filter. by rewrite V.
Qed.

Lemma rename_id i : rename (fun v => v) i = i.
Proof.
  rewrite rename_eq. assert (A : forall l, map (rename_arg (fun v => v)) l = l).
  { induction l as [|[] l IH]; [done|]. simpl. by rewrite IH. }
  assert (B : forall b l, map (rename_asm_op (fun v => v) b) l = l).
  { intros b. induction l as [|[? ? ? ? ? v] l IH]; [done|]. simpl. rewrite IH. unfold rename_asm_op. simpl.
    by destruct b, v. }
  destruct i as [o d a b c w s gn fl k kb p l j gl lo m ca asm]; simpl.
  destruct o; simpl; try reflexivity; try (by destruct kb); try (by destruct (0 <=? _)).
  - unfold rename_call. rewrite A. by destruct ca as [? ? [] ? ? ?].
  - destruct asm as [[]|]; [|done]. unfold rename_asm. simpl. by rewrite !B.
Qed.

(** ** What an instruction does *)

Section Exec.
Context {M : Machine}.

Lemma rename_op f i : i_op (rename f i) = i_op i.
Proof. rewrite rename_eq. destruct i, i_op; simpl; repeat case_match; done. Qed.

(** What stays: everything but the operands. *)
Lemma rename_fields f i :
  i_dst (rename f i) = i_dst i /\ i_w (rename f i) = i_w i /\ i_size (rename f i) = i_size i /\
  i_sign (rename f i) = i_sign i /\ i_flt (rename f i) = i_flt i /\ i_imm (rename f i) = i_imm i /\
  i_imm_b (rename f i) = i_imm_b i /\ i_pred (rename f i) = i_pred i /\
  i_label (rename f i) = i_label i /\ i_jt (rename f i) = i_jt i /\ i_vol (rename f i) = i_vol i /\
  eh_region (i_call (rename f i)) = eh_region (i_call i).
Proof.
  rewrite rename_eq. destruct i as [o d a b c w s gn fl k kb p l j gl lo m ca asm]; simpl.
  destruct o; simpl; repeat case_match; simpl; done.
Qed.

Definition names_slot (i : ir_ins) : bool := op_is (i_op i) IR_LDVAR || op_is (i_op i) IR_ADDR.

Lemma shape_rename f i : keeps_sign f -> (names_slot i = true -> rename f i = i) ->
  shape (rename f i) = shape i.
Proof.
  intros H Hs. unfold shape. fold (names_slot i).
  unfold names_slot in *. rewrite !rename_op.
  destruct (op_is (i_op i) IR_LDVAR || op_is (i_op i) IR_ADDR); [by rewrite Hs|].
  by rewrite rename_rename.
Qed.

Lemma rename_landing f i : i_op i = IR_LANDING -> rename f i = i.
Proof. intros O. rewrite rename_eq. by rewrite O. Qed.

Lemma def_target_rename f i : def_target (rename f i) = def_target i.
Proof. unfold def_target. rewrite !rename_op. by destruct (rename_fields f i) as (-> & _). Qed.

Lemma def_list_rename f nv i : def_list nv (rename f i) = def_list nv i.
Proof.
  unfold def_list. rewrite rename_op, def_target_rename. unfold op_is.
  case_bool_decide as O; [|done]. by rewrite rename_landing.
Qed.

(** An instruction whose new operands hold what its old ones held does the same. *)
Lemma exec1_rename fn f i e w : keeps_sign f -> (names_slot i = true -> rename f i = i) ->
  mapM e (map f (reads i)) = mapM e (reads i) ->
  exec1 fn (rename f i) e w = exec1 fn i e w.
Proof.
  intros H Hs V. pose proof (shape_rename f i H Hs) as Sh. pose proof (rename_op f i) as Op.
  pose proof (def_target_rename f i) as Dt.
  destruct (rename_fields f i) as (Fd & Fw & Fsz & Fsg & Ff & Fi & Fib & Fp & Fl & Fj & Fv & Fe).
  assert (Ev : forall vals, eval (rename f i) vals = eval i vals).
  { intros vals. unfold eval. rewrite Sh, Op, Fw, Fsz, Fsg, Ff, Fi, Fib, Fp. done. }
  assert (Ex : forall vals, exec_ext fn (rename f i) vals e w = exec_ext fn i vals e w).
  { intros vals. unfold exec_ext, write_ext. rewrite Sh, Op, Fe, Dt, Fd.
    destruct (ext _ _ _ _); try done. f_equal. unfold op_is. case_bool_decide as O; [|done].
    by rewrite rename_landing. }
  unfold exec1. rewrite (reads_rename f i H), V. destruct (mapM e (reads i)) as [vals|]; [|done].
  replace (computes (rename f i)) with (computes i) by (unfold computes; by rewrite Op, Fv).
  rewrite Ev, Op. destruct (computes i); [by rewrite Fd|].
  unfold is_zero, switch_label. rewrite Ex, Fd, Fw, Fsz, Fl, Fj, Fv. done.
Qed.
End Exec.
