(* ===== verification/Paths.v ===== *)
(** * Paths through a function, and strictness

    The passes that reason about "the one definition of a temporary" --
    [src/src/opt/copyprop.c], [src/src/opt/fold.c], [src/src/opt/gcse.c] -- read
    it at any use, on the ground that a temporary with a single definition "cannot
    have changed". That holds of functions in which every path from the entry to
    a use passes the definition, which irgen's temporaries and mem2reg's phi
    copies satisfy. [reach] walks the paths of a function, collecting what
    they define; [strict] states the property; [covers] is a check of it by a
    table of what is assigned on entry to each instruction, which [strict_check]
    shows enough. A computed goto goes to the labels whose address the function
    takes, as [build_cfg] of [src/src/opt/cfg.c] has it. *)
From stdpp Require Import base numbers list option.
From Stdlib Require Import ZArith Lia.
From S2P Require Import Prelude Ir Util IrSem Simulate.

Local Open Scope Z_scope.

(** ** Where an instruction can go *)

(** The labels whose address something takes. *)
Definition taken_labels (fn : ir_func) : list Z :=
  map i_label (filter (fun i => i_op i = IR_LABELADDR) (ins fn)).

Definition goto_labels (fn : ir_func) (i : ir_ins) : list Z :=
  match i_op i with
  | IR_JMP | IR_BRZ | IR_BRNZ => [i_label i]
  | IR_SWITCH => i_label i :: jt fn !!! Z.to_nat (i_jt i)
  | IR_IGOTO => taken_labels fn
  | _ => []
  end.

(** Where a call that unwinds lands. *)
Definition unwind_label (fn : ir_func) (i : ir_ins) : option Z :=
  if eh_region (i_call i) <=? 0 then None
  else lp_label <$> eh fn !! Z.to_nat (eh_region (i_call i) - 1).

Definition falls (i : ir_ins) : bool :=
  match i_op i with
  | IR_JMP | IR_SWITCH | IR_IGOTO | IR_RET | IR_UD2 => false
  | _ => true
  end.

(** [reach fn D n]: a path from the entry to instruction [n], along which the
    vregs [D] are written. *)
Inductive reach (fn : ir_func) : list Z -> nat -> Prop :=
  | reach_entry : reach fn [] 0
  | reach_fall D n i : reach fn D n -> ins fn !! n = Some i -> falls i = true ->
      reach fn (def_list (nvregs fn) i ++ D) (S n)
  | reach_goto D n i l m : reach fn D n -> ins fn !! n = Some i -> l ∈ goto_labels fn i ->
      label_pos fn l = Some m -> reach fn D m
  | reach_unwind D n i l m : reach fn D n -> ins fn !! n = Some i -> unwind_label fn i = Some l ->
      label_pos fn l = Some m -> reach fn D m.

(** Every path to a use of a temporary writes it first. *)
Definition strict (fn : ir_func) : Prop := forall D n i r,
  reach fn D n -> ins fn !! n = Some i -> r ∈ reads i -> nvars fn <= r -> r ∈ D.

(** Written on every path to [n]. *)
Definition must (fn : ir_func) (n : nat) (v : Z) : Prop := forall D, reach fn D n -> v ∈ D.

(** ** A check of strictness *)

Definition subset_of (a b : list Z) : bool := forallb (fun v => bool_decide (v ∈ b)) a.

Definition flows_into (A : nat -> list Z) (fn : ir_func) (from : list Z) (l : Z) : bool :=
  match label_pos fn l with Some m => subset_of (A m) from | None => true end.

Definition covers_at (A : nat -> list Z) (fn : ir_func) (n : nat) (i : ir_ins) : bool :=
  forallb (fun r => (r <? nvars fn) || bool_decide (r ∈ A n)) (reads i) &&
  (negb (falls i) || subset_of (A (S n)) (def_list (nvregs fn) i ++ A n)) &&
  forallb (flows_into A fn (A n)) (goto_labels fn i) &&
  match unwind_label fn i with Some l => flows_into A fn (A n) l | None => true end.

Fixpoint covers_from (A : nat -> list Z) (fn : ir_func) (n : nat) (l : list ir_ins) : bool :=
  match l with
  | [] => true
  | i :: l => covers_at A fn n i && covers_from A fn (S n) l
  end.

Definition covers (A : nat -> list Z) (fn : ir_func) : bool :=
  subset_of (A O) [] && covers_from A fn 0 (ins fn).

Lemma subset_of_spec a b : subset_of a b = true <-> forall v, v ∈ a -> v ∈ b.
Proof.
  unfold subset_of. rewrite forallb_forall. setoid_rewrite bool_decide_eq_true.
  split; intros H v Hv; apply H; by apply list_elem_of_In.
Qed.

Lemma covers_from_at A fn k l n i :
  covers_from A fn k l = true -> l !! n = Some i -> covers_at A fn (k + n) i = true.
Proof.
  revert k n. induction l as [|x l IH]; intros k n; simpl; [done|].
  intros [Hx Hl]%andb_true_iff. destruct n as [|n]; simpl; intros E.
  - simplify_eq. by rewrite Nat.add_0_r.
  - rewrite Nat.add_succ_r. exact (IH (S k) n Hl E).
Qed.

Lemma covers_paths A fn D n : covers A fn = true -> reach fn D n -> forall v, v ∈ A n -> v ∈ D.
Proof.
  intros [C0 C]%andb_true_iff. rewrite subset_of_spec in C0.
  assert (F : forall (D : list Z) n i l m, (forall v, v ∈ A n -> v ∈ D) -> flows_into A fn (A n) l = true ->
    label_pos fn l = Some m -> ins fn !! n = Some i -> forall v, v ∈ A m -> v ∈ D).
  { intros D' n' i l m IH Fl L _ v Hv. unfold flows_into in Fl. rewrite L, subset_of_spec in Fl. auto. }
  induction 1 as [|D n i H IH I Fa|D n i l m H IH I Hl L|D n i l m H IH I Hl L]; [exact C0|..];
    pose proof (covers_from_at _ _ _ _ _ _ C I) as K; unfold covers_at in K; simpl in K;
    rewrite !andb_true_iff in K; destruct K as [[[_ Kf] Kg] Ku].
  - rewrite Fa in Kf. simpl in Kf. rewrite subset_of_spec in Kf.
    intros v [Hv|Hv]%Kf%elem_of_app; apply elem_of_app; auto.
  - eapply F; try done. rewrite forallb_forall in Kg. by apply Kg, list_elem_of_In.
  - rewrite Hl in Ku. eapply F; done.
Qed.

Lemma strict_check A fn : covers A fn = true -> strict fn.
Proof.
  intros C D n i r H I Hr Hn. apply (covers_paths A fn D n C H).
  apply andb_true_iff in C as [_ C]. pose proof (covers_from_at _ _ _ _ _ _ C I) as K.
  unfold covers_at in K. simpl in K. rewrite !andb_true_iff in K. destruct K as [[[K _] _] _].
  rewrite forallb_forall in K. specialize (K r (proj1 (list_elem_of_In _ _) Hr)).
  apply orb_true_iff in K as [K|K]; [lia | by apply bool_decide_eq_true in K].
Qed.

(** ** One definition *)

Lemma defs_at_most_one fn v p q i j :
  d_cnt (compute_defs fn) v <= 1 -> ins fn !! p = Some i -> v ∈ def_list (nvregs fn) i ->
  ins fn !! q = Some j -> v ∈ def_list (nvregs fn) j -> p = q.
Proof.
  rewrite compute_defs_cnt. intros Hc I Hi J Hj.
  assert (H0 : 0 <= d_cnt (defs_init fn) v) by (simpl; repeat case_match; lia).
  assert (E : forall p i, ins fn !! p = Some i -> v ∈ def_list (nvregs fn) i ->
    (v, Z.of_nat p) ∈ filter (fun e => e.1 = v) (def_events (nvregs fn) 0 (ins fn))).
  { intros p' i' I' H'. apply list_elem_of_filter. split; [done|]. apply def_events_In. exists i'.
    rewrite Z.sub_0_r, Nat2Z.id. split_and!; [lia | done | done]. }
  pose proof (E p i I Hi) as Ep. pose proof (E q j J Hj) as Eq.
  unfold ndefs in Hc. destruct (filter _ _) as [|e [|e' es]]; cbn [length] in Hc; [|..|lia].
  - by apply elem_of_nil in Ep.
  - apply list_elem_of_singleton in Ep, Eq. rewrite <- Ep in Eq. by injection Eq as ->%Nat2Z.inj.
Qed.

(** ** What one instruction can do *)

Section Frame.
Context {M : Machine}.
Context (fn : ir_func).

(** The vregs an instruction may change: those it defines, and what memory
    reaches. *)
Definition framed (defs : list Z) (e e' : env) : Prop :=
  forall v, v < nvregs fn -> esc v = false -> v ∉ defs -> e' v = e v.

(** Where control goes, [G] the labels a jump may name. *)
Definition flow_frame (G : Z -> Prop) (i : ir_ins) (e : env) (f : flow) : Prop :=
  match f with
  | Fall e' _ => falls i = true /\ framed (def_list (nvregs fn) i) e e'
  | Goto l e' _ => (G l \/ unwind_label fn i = Some l) /\ framed [] e e'
  | _ => True
  end.

Definition flow_path (i : ir_ins) : env -> flow -> Prop := flow_frame (fun l => l ∈ goto_labels fn i) i.

Lemma framed_refl d e : framed d e e.
Proof. by intros v. Qed.

Lemma framed_write d e e' t x : framed d e e' -> (0 <= t < nvregs fn -> t ∈ d) -> framed d e (write e' t x).
Proof.
  intros H Ht v Hb He Hd. destruct (decide (v = t)) as [->|N].
  - destruct (Z.ltb_spec t 0) as [L|L]; [|by destruct Hd; apply Ht].
    unfold write. destruct (Z.ltb_spec t 0); [by apply H | lia].
  - rewrite write_other by done. by apply H.
Qed.

Lemma framed_slots d e sl : framed d e (slots_in e sl).
Proof. intros v _ He _. unfold slots_in. by rewrite He. Qed.

Lemma target_in_defs i : i_op i <> IR_LANDING -> 0 <= def_target i -> def_target i ∈ def_list (nvregs fn) i.
Proof.
  intros N H. unfold def_list, op_is. rewrite bool_decide_false by done.
  destruct (Z.ltb_spec (def_target i) 0); [lia | by apply list_elem_of_singleton].
Qed.

Lemma computes_target i : computes i = true -> def_target i = i_dst i /\ i_op i <> IR_LANDING /\ falls i = true.
Proof. unfold computes, op_is, def_target, falls, op_is. by destruct (i_op i). Qed.

Lemma ext_path G i vals e w : falls i = true -> flow_frame G i e (exec_ext fn i vals e w).
Proof.
  intros Fa. unfold exec_ext. destruct (ext (shape i) vals (slots_out e) w) as [v1 v2 sl w'|sl w'|w']; simpl; [| |done].
  - split; [done|]. unfold write_ext, op_is. case_bool_decide as L.
    + assert (D : forall t, t = i_dst i \/ t = i_b i -> 0 <= t < nvregs fn -> t ∈ def_list (nvregs fn) i).
      { intros t Ht Hb. unfold def_list, op_is. rewrite bool_decide_true by done.
        apply list_elem_of_filter. split; [done|]. apply list_elem_of_In. simpl. destruct Ht; auto. }
      apply framed_write; [apply framed_write; [apply framed_slots|]|]; auto.
    + apply framed_write; [apply framed_slots|]. intros. apply target_in_defs; [done|lia].
  - destruct (eh fn !! _) as [r|] eqn:E; [|done].
    destruct (Z.leb_spec (eh_region (i_call i)) 0) as [L|L]; [done|]. split; [|apply framed_slots].
    right. unfold unwind_label. rewrite E. by destruct (Z.leb_spec (eh_region (i_call i)) 0); [lia|].
Qed.

(** A jump names one of the instruction's labels, or is a computed goto. *)
Lemma exec1_frame i e w :
  flow_frame (fun l => l ∈ goto_labels fn i \/ (i_op i = IR_IGOTO /\ exists x, igoto x = Some l))
    i e (exec1 fn i e w).
Proof.
  unfold exec1. destruct (mapM e (reads i)) as [vals|] eqn:V; [|done].
  destruct (computes i) eqn:C.
  - destruct (computes_target i C) as (T & N & Fa). destruct (eval i vals); simpl; [|done].
    split; [done|]. apply framed_write; [apply framed_refl|]. intros. rewrite <- T.
    apply target_in_defs; [done|lia].
  - pose proof (fun G => ext_path G i vals e w) as X. unfold flow_frame, falls, goto_labels in *.
    pose proof (length_mapM _ _ _ V) as Ln. rewrite reads_eq in Ln. unfold reads_spec in Ln.
    destruct (i_op i) eqn:O; try exact (X _ eq_refl); try done;
      try (split; [left; left; by left | apply framed_refl]).
    all: try (destruct vals as [|x [|]]; try exact (X _ eq_refl); try done).
    all: try (destruct (is_zero i x); (split; [try done; left; left; by left | apply framed_refl])).
    all: try (split; [done | apply framed_refl]).
    + destruct (i_vol i); [exact (X _ eq_refl)|]. split; [done|].
      apply framed_write; [apply framed_refl|]. intros.
      replace (i_dst i) with (def_target i) by (unfold def_target, op_is; by rewrite O).
      apply target_in_defs; [congruence|]. unfold def_target, op_is. rewrite O. simpl. lia.
    + destruct (igoto x) eqn:G; [|done]. split; [left; right; eauto | apply framed_refl].
    + split; [|apply framed_refl]. left. left. unfold switch_label.
      destruct (_ !! Z.to_nat (uwrap _ x)) eqn:E; [right; by eapply list_elem_of_lookup_2 | by left].
Qed.

Context (Hig : forall x l, igoto x = Some l -> l ∈ taken_labels fn).

Lemma exec1_path i e w : flow_path i e (exec1 fn i e w).
Proof using Hig.
  pose proof (exec1_frame i e w) as F. unfold flow_path, flow_frame in *.
  destruct (exec1 fn i e w); try done. destruct F as [[[|[O (x & Hx)]]|] F]; split; try done; auto.
  left. unfold goto_labels. rewrite O. by eapply Hig.
Qed.
End Frame.
