(* ===== verification/CopyProp.v ===== *)
(** * Copy propagation: [pass_copyprop] of [src/src/opt/copyprop.c]

    An eligible move [dst = mov a] has one definition on both ends; a read of
    [dst] becomes a read of [a]. [copyprop_by_move] is the rule one move at a time;
    [pass_copyprop] resolves the chains of moves to their roots and rewrites every
    read in one walk, falling back to the rule when the moves make a cycle. The
    walk of a chain is the source's, with the stack and the three states of a
    vreg. *)
From stdpp Require Import base numbers list option sets relations.
From Stdlib Require Import ZArith Lia.
From S2P Require Import Prelude Ir Util IrSem Simulate Rename Paths.

Local Open Scope Z_scope.

(** ** The pass *)

(** [for (m...) each_read(&fn->ins[m], cb, &r)] *)
Fixpoint read_all {S} (cb : Z -> S -> Z * S) (l : list ir_ins) (s : S) : list ir_ins * S :=
  match l with
  | [] => ([], s)
  | i :: l =>
      let '(i, s) := each_read cb i s in
      let '(l, s) := read_all cb l s in (i :: l, s)
  end.

(** [struct repl]: from, to and the number of reads replaced. *)
Definition repl_cb (from to : Z) (p : Z) (n : Z) : Z * Z :=
  if p =? from then (to, n + 1) else (p, n).

(** Both ends of the move are single-assignment, and it is not a move to itself. *)
Definition cp_eligible (d : defs) (i : ir_ins) : bool :=
  if negb (op_is (i_op i) IR_MOV) || (i_a i <? 0) || (i_dst i <? 0) || (i_a i =? i_dst i) then false
  else if negb (d_cnt d (i_a i) =? 1) || negb (d_cnt d (i_dst i) =? 1) then false
  else true.

(** What a pass leaves: the code, whether it changed, and the rewrites it adds
    to [g_did.copy]. *)
Record cp_state := CpState { cp_code : list ir_ins; cp_changed : bool; cp_did : Z }.

(** One round of [copyprop_by_move]'s loop: the move at [n], as it reads by then. *)
Definition by_move_step (d : defs) (st : cp_state) (n : nat) : cp_state :=
  match cp_code st !! n with
  | Some i =>
      if cp_eligible d i then
        let '(code, k) := read_all (repl_cb (i_dst i) (i_a i)) (cp_code st) 0 in
        CpState code (cp_changed st || negb (k =? 0)) (cp_did st + k)
      else st
  | None => st
  end.

Definition copyprop_by_move (fn : ir_func) (d : defs) : cp_state :=
  foldl (by_move_step d) (CpState (ins fn) false 0) (seq 0 (length (ins fn))).

(** [src], [pos] and [nmov]. *)
Record cp_moves := CpMoves { cp_src : Z -> Z; cp_pos : Z -> Z; cp_nmov : Z }.

Fixpoint find_moves (d : defs) (n : Z) (l : list ir_ins) (m : cp_moves) : cp_moves :=
  match l with
  | [] => m
  | i :: l =>
      find_moves d (n + 1) l
        (if cp_eligible d i
         then CpMoves (upd (cp_src m) (i_dst i) (i_a i)) (upd (cp_pos m) (i_dst i) n) (cp_nmov m + 1)
         else m)
  end.
Definition moves_of (fn : ir_func) : cp_moves :=
  find_moves (compute_defs fn) 0 (ins fn) (CpMoves (fun _ => -1) (fun _ => 0) 0).

(** [root], [nrw] and [state], and the flag that stops the search. *)
Record chains := Chains { c_root : Z -> Z; c_nrw : Z -> Z; c_state : Z -> Z; c_cycle : bool }.

Section Chains.
Context (src pos : Z -> Z).

(** [while (src[u] >= 0 && state[u] == 0)]: mark, push and follow. The stack
    holds each vreg once, so [nvregs] rounds end it. *)
Fixpoint chain_walk (fuel : nat) (state : Z -> Z) (stk : list Z) (u : Z)
  : (Z -> Z) * list Z * Z :=
  match fuel with
  | O => (state, stk, u)
  | S fuel =>
      if (0 <=? src u) && (state u =? 0)
      then chain_walk fuel (upd state u 1) (u :: stk) (src u)
      else (state, stk, u)
  end.

(** [while (sp > 0)]: the vregs of the chain, last first, take the root. *)
Fixpoint chain_unwind (r : Z) (stk : list Z) (c : chains) : chains :=
  match stk with
  | [] => c
  | w :: stk =>
      let s := src w in
      let later := (src s <? 0) || (pos w <? pos s) in
      chain_unwind r stk
        (Chains (upd (c_root c) w r)
                (upd (c_nrw c) w ((if src s <? 0 then 0 else c_nrw c s) + b2z later))
                (upd (c_state c) w 2) (c_cycle c))
  end.

Definition chain_step (nv : Z) (c : chains) (v : Z) : chains :=
  if c_cycle c then c
  else if (src v <? 0) || (c_state c v =? 2) then c
  else
    let '(state, stk, u) := chain_walk (Z.to_nat nv) (c_state c) [] v in
    if (0 <=? src u) && (state u =? 1) then Chains (c_root c) (c_nrw c) state true
    else
      let r := if src u <? 0 then u else c_root c u in
      chain_unwind r stk (Chains (c_root c) (c_nrw c) state false).

Definition resolve (nv : Z) : chains :=
  foldl (chain_step nv) (Chains (fun _ => 0) (fun _ => 0) (fun _ => 0) false) (seqZ 0 nv).
End Chains.

(** [struct cpmap] and its callback. *)
Definition cpmap_cb (root nrw : Z -> Z) (nv : Z) (v n : Z) : Z * Z :=
  if (0 <=? v) && (v <? nv) && (0 <=? root v) then (root v, n + nrw v) else (v, n).

Definition copyprop_run (fn : ir_func) : cp_state :=
  let d := compute_defs fn in
  let m := moves_of fn in
  if cp_nmov m =? 0 then CpState (ins fn) false 0
  else
    let c := resolve (cp_src m) (cp_pos m) (nvregs fn) in
    if c_cycle c then copyprop_by_move fn d
    else
      let root v := if cp_src m v <? 0 then -1 else c_root c v in
      let '(code, n) := read_all (cpmap_cb root (c_nrw c) (nvregs fn)) (ins fn) 0 in
      CpState code (0 <? n) n.

Definition pass_copyprop (fn : ir_func) : ir_func := set_ins (cp_code (copyprop_run fn)) fn.

(** ** Reads follow moves *)

(** [u] and [a] are the ends of an eligible move, at [p]. *)
Definition copy_at (fn : ir_func) (p : nat) (u a : Z) : Prop :=
  exists i, ins fn !! p = Some i /\ cp_eligible (compute_defs fn) i = true /\ i_dst i = u /\ i_a i = a.

(** [u'] is further down the chain of moves from [u]. *)
Definition copy_of (fn : ir_func) : Z -> Z -> Prop := rtc (fun u a => exists p, copy_at fn p u a).

Lemma cp_eligible_spec d i : cp_eligible d i = true <->
  i_op i = IR_MOV /\ 0 <= i_a i /\ 0 <= i_dst i /\ i_a i <> i_dst i /\
  d_cnt d (i_a i) = 1 /\ d_cnt d (i_dst i) = 1.
Proof.
  unfold cp_eligible, op_is. case_bool_decide as O; simpl; [|by split; [|intros [? _]]].
  destruct (Z.ltb_spec (i_a i) 0), (Z.ltb_spec (i_dst i) 0), (Z.eqb_spec (i_a i) (i_dst i)); simpl;
    try (split; [done|]; intros (_ & ? & ? & ? & _); lia).
  destruct (Z.eqb_spec (d_cnt d (i_a i)) 1), (Z.eqb_spec (d_cnt d (i_dst i)) 1); simpl;
    split; try done; intros (_ & _ & _ & _ & ? & ?); lia.
Qed.

Lemma read_all_split {S} (cb : Z -> S -> Z * S) f g l s :
  (forall p s, cb p s = (f p, g s p)) ->
  read_all cb l s = (map (rename f) l, foldl g s (concat (map reads l))).
Proof.
  intros Hcb. revert s. induction l as [|i l IH]; intros s; simpl; [done|].
  rewrite (each_read_split cb f g i s Hcb), IH, foldl_app. done.
Qed.

Lemma copy_of_sign fn u a : copy_of fn u a -> (0 <=? a) = (0 <=? u).
Proof.
  induction 1 as [|u x a (p & i & _ & E & <- & <-) _ IH]; [done|].
  apply cp_eligible_spec in E. rewrite IH. lia.
Qed.

(** ** A renaming along the moves preserves the function *)

(** A vreg is a frame slot or a temporary, and an operation takes one or the other:
    [IR_MOV] is a "full temp-to-temp copy" (ir.h), [IR_LDVAR] and [IR_ADDR] name a
    slot. *)
Definition kinds_ok (fn : ir_func) : Prop :=
  Forall (fun i => (i_op i = IR_MOV -> i_a i < 0 \/ nvars fn <= i_a i) /\
                   (names_slot i = true -> i_a i < nvars fn)) (ins fn).
#[export] Instance kinds_ok_dec fn : Decision (kinds_ok fn).
Proof. unfold kinds_ok. apply _. Defined.

Section Along.
Context {M : Machine}.
Context (fn : ir_func).
Context (Hwf : wf_func fn) (Hst : strict fn).
Context (Hesc : forall s, esc s = true -> 0 <= s < nvars fn).
Context (Hmov : kinds_ok fn).
Context (Hig : forall x l, igoto x = Some l -> l ∈ taken_labels fn).

Lemma copy_facts p u a : copy_at fn p u a ->
  nvars fn <= a < nvregs fn /\ nvars fn <= u /\ 0 <= u /\ a <> u /\ esc a = false /\ esc u = false /\
  d_cnt (compute_defs fn) a = 1 /\ d_cnt (compute_defs fn) u = 1 /\
  exists i, ins fn !! p = Some i /\ i_op i = IR_MOV /\ i_dst i = u /\ i_a i = a /\
            def_list (nvregs fn) i = [u] /\ reads i = [a].
Proof using Hwf Hesc Hmov.
  intros (i & I & (O & Ha & Hd & N & Ca & Cd)%cp_eligible_spec & <- & <-).
  destruct Hwf as [Hb F]. pose proof (Forall_lookup_1 _ _ _ _ F I) as [Wr Wd].
  assert (R : reads i = [i_a i]) by (rewrite reads_eq; unfold reads_spec; by rewrite O).
  rewrite R in Wr. pose proof (proj1 (Forall_singleton _ _) Wr) as Wa. cbv beta in Wa.
  rewrite O in Wd. destruct Wd as [|[|Wd]]; [done|lia|].
  destruct (proj1 (Forall_lookup_1 _ _ _ _ Hmov I) O) as [|Ht]; [lia|].
  assert (E : forall v, nvars fn <= v -> esc v = false).
  { intros v Hv. destruct (esc v) eqn:E; [apply Hesc in E; lia | done]. }
  split_and!; auto; try lia.
  - exists i. split_and!; try done. unfold def_list, def_target, op_is. rewrite O. simpl.
    destruct (Z.ltb_spec (i_dst i) 0); [lia|done].
Qed.

(** Once a copy is made on every path, so is its source. *)
Lemma must_source p u a n : copy_at fn p u a -> must fn n u -> must fn n a.
Proof using Hwf Hst Hesc Hmov.
  intros C Hu D H. specialize (Hu D H).
  destruct (copy_facts p u a C) as (Ha & _ & _ & _ & _ & _ & _ & Cu & i & I & _ & _ & _ & Dl & Rd).
  clear C. induction H as [|D n j H IH J Fa|D n j l m H IH J Hl L|D n j l m H IH J Hl L];
    [by apply elem_of_nil in Hu| |auto..].
  apply elem_of_app in Hu as [Hu|Hu]; apply elem_of_app; [|right; by apply IH].
  assert (n = p) as -> by (eapply (defs_at_most_one fn u); [lia | done | done | exact I | rewrite Dl; by left]).
  rewrite I in J. simplify_eq. right. apply (Hst D p j a); try done; [rewrite Rd; by left | lia].
Qed.

(** Before the source is computed again, the copy has not been made on every
    path: on a path that reaches the source's definition for the first time it
    has not been made at all. *)
Lemma copy_not_yet p u a q j n D :
  copy_at fn p u a -> ins fn !! q = Some j -> a ∈ def_list (nvregs fn) j ->
  reach fn D n ->
  ((u ∉ D) /\ (a ∉ D)) \/ exists D0, reach fn D0 q /\ (u ∉ D0).
Proof using Hwf Hst Hesc Hmov.
  intros C J Ha. destruct (copy_facts p u a C) as (Hn & _ & _ & _ & _ & _ & Ca & Cu & i & I & _ & _ & _ & Dl & Rd).
  induction 1 as [|D n k H IH K Fa|D n k l m H IH K Hl L|D n k l m H IH K Hl L]; [|..|auto].
  - left. split; apply not_elem_of_nil.
  - destruct IH as [[Hu Ha']|]; [|by right].
    destruct (decide (a ∈ def_list (nvregs fn) k)) as [A|A].
    { right. exists D. split; [|done]. assert (n = q) as <-; [|done].
      eapply (defs_at_most_one fn a); [lia | exact K | done | exact J | done]. }
    left. rewrite !not_elem_of_app. split_and!; try done. intros U. apply Ha'.
    assert (n = p) as -> by (eapply (defs_at_most_one fn u); [lia | exact K | done | exact I | rewrite Dl; by left]).
    rewrite I in K. simplify_eq. apply (Hst D p k a); try done; [rewrite Rd; by left | lia].
  - done.
Qed.

(** What holds while the function runs: some path led here, and a copy made on
    every path holds what its source holds. *)
Definition copies_hold (n : nat) (e : env) : Prop :=
  (exists D, reach fn D n) /\
  forall p u a, copy_at fn p u a -> u < nvregs fn -> must fn n u -> e u = e a.

Lemma copies_fall n i e w e' w' : ins fn !! n = Some i -> copies_hold n e ->
  exec1 fn i e w = Fall e' w' -> copies_hold (S n) e'.
Proof using Hwf Hst Hesc Hmov Hig.
  intros I [(D & HD) HC] X. pose proof (exec1_path fn Hig i e w) as P. rewrite X in P.
  destruct P as [Fa Fr]. split; [eexists; by eapply reach_fall|].
  intros p u a C Hb Hm. destruct (copy_facts p u a C) as (Ha & Hu & H0 & N & Ea & Eu & Ca & Cu & c & Ic & Oc & Dc & Sc & Dl & Rd).
  destruct (decide (u ∈ def_list (nvregs fn) i)) as [U|U].
  - assert (n = p) as -> by (eapply (defs_at_most_one fn u); [lia | exact I | done | exact Ic | rewrite Dl; by left]).
    rewrite I in Ic. simplify_eq. unfold exec1 in X. rewrite Rd in X. simpl in X.
    destruct (e (i_a c)) as [x|] eqn:Ex; [|done]. simpl in X.
    unfold computes, op_is, eval in X. rewrite Oc in X. simpl in X. injection X as <- _.
    rewrite write_same, write_other by done. by rewrite Ex.
  - assert (Hm' : must fn n u).
    { intros D' H'. specialize (Hm _ (reach_fall _ _ _ _ H' I Fa)). by apply elem_of_app in Hm as [|]. }
    destruct (decide (a ∈ def_list (nvregs fn) i)) as [A|A].
    + exfalso. destruct (copy_not_yet p u a n i n D C I A HD) as [[Hu' _]|(D0 & H0' & Hu')];
        by apply Hu', Hm'.
    + rewrite (Fr u), (Fr a) by (done || lia). by apply (HC p).
Qed.

Lemma copies_goto n i e w l e' w' m : ins fn !! n = Some i -> copies_hold n e ->
  exec1 fn i e w = Goto l e' w' -> label_pos fn l = Some m -> copies_hold m e'.
Proof using Hwf Hst Hesc Hmov Hig.
  intros I [(D & HD) HC] X L. pose proof (exec1_path fn Hig i e w) as P. rewrite X in P.
  destruct P as [Hl Fr].
  assert (R : forall D, reach fn D n -> reach fn D m).
  { intros D' H'. destruct Hl; [by eapply reach_goto | by eapply reach_unwind]. }
  split; [eauto|]. intros p u a C Hb Hm.
  destruct (copy_facts p u a C) as (Ha & Hu & H0 & N & Ea & Eu & _).
  rewrite (Fr u), (Fr a) by (done || lia || apply not_elem_of_nil).
  apply (HC p); try done. intros D' H'. auto.
Qed.

(** Every vreg down the chain from one that is read holds what it holds. *)
Lemma copy_of_value n e u u' : copies_hold n e -> u < nvregs fn -> copy_of fn u u' ->
  must fn n u \/ u < nvars fn -> e u' = e u.
Proof using Hwf Hst Hesc Hmov.
  intros [_ HC] Hb H. induction H as [|u x u' (p & C) _ IH]; [done|]. intros Hm.
  destruct (copy_facts p u x C) as (Ha & Hu & _). destruct Hm as [Hm|]; [|lia].
  rewrite IH; [by symmetry; eapply HC | lia | left; by eapply must_source].
Qed.

Context (f : Z -> Z) (Hf : forall v, copy_of fn v (f v)).

Lemma along_sign : keeps_sign f.
Proof using Hf. intros v. by eapply copy_of_sign. Qed.

(** A frame slot is no copy, so an instruction that names one is left alone. *)
Lemma along_slot n i : ins fn !! n = Some i -> names_slot i = true -> rename f i = i.
Proof using Hwf Hesc Hmov Hf.
  intros I S. destruct (Forall_lookup_1 _ _ _ _ Hmov I) as [_ Hs].
  rewrite <- (rename_id i) at 2. apply rename_ext. intros r Hr.
  assert (r < nvars fn) as L.
  { assert (r = i_a i) as ->; [|auto]. rewrite reads_eq in Hr. unfold reads_spec in Hr.
    unfold names_slot, op_is in S. destruct (i_op i); try done; by apply list_elem_of_singleton in Hr. }
  destruct (rtc_inv _ _ (Hf r)) as [E|(x & (p & C) & _)]; [done|].
  destruct (copy_facts _ _ _ C). lia.
Qed.

Lemma along_exec1 n i e w : ins fn !! n = Some i -> copies_hold n e ->
  exec1 fn (rename f i) e w = exec1 fn i e w.
Proof using All.
  intros I HC. apply exec1_rename; [apply along_sign | |].
  - by eapply along_slot.
  - destruct Hwf as [Hb F]. destruct (Forall_lookup_1 _ _ _ _ F I) as [Wr _].
    assert (E : forall r, r ∈ reads i -> e (f r) = e r).
    { intros r Hr. eapply copy_of_value; [exact HC | | done |].
      - rewrite Forall_forall in Wr. by apply Wr.
      - destruct (decide (r < nvars fn)) as [|L]; [by right | left]. intros D H. eapply Hst; try done. lia. }
    clear -E. revert E. generalize (reads i) as l. induction l as [|r l IH]; intros E; [done|]. simpl. rewrite E by left.
    destruct (e r); [|done]. simpl. rewrite IH; [done|]. intros; apply E; by right.
Qed.

Definition along : ir_func := set_ins (map (rename f) (ins fn)) fn.

Definition copies_match (n : nat) (es et : env) : Prop := es = et /\ copies_hold n es.

Lemma along_sim : block_sim fn (map (fun i => [rename f i]) (ins fn)) copies_match.
Proof using All.
  intros n i blk es et w I B [<- HC]. rewrite list_lookup_fmap, I in B. simpl in B. injection B as <-.
  simpl. rewrite (along_exec1 n i es w I HC).
  destruct (exec1 fn i es w) as [e' w'|l e' w'|o w'|] eqn:X; simpl; try done.
  - eexists. split; [done|]. split; [done|]. by eapply copies_fall.
  - eexists. split; [done|]. intros m L. split; [done|]. by eapply copies_goto.
Qed.

Lemma along_labels : Forall2 label_ok (ins fn) (map (fun i => [rename f i]) (ins fn)).
Proof.
  induction (ins fn) as [|i l IH]; [constructor|]. simpl. constructor; [|done].
  unfold label_ok, op_is. case_bool_decide as O.
  - eexists. split; [done|]. rewrite rename_op. split; [done|]. by destruct (rename_fields f i) as (_ & _ & _ & _ & _ & _ & _ & _ & -> & _).
  - apply Forall_singleton. by rewrite rename_op.
Qed.

Lemma along_entry (e : env) : copies_match 0 e e.
Proof.
  split; [done|]. split; [exists []; apply reach_entry|]. intros p u a C Hb Hm.
  specialize (Hm [] (reach_entry fn)). by apply elem_of_nil in Hm.
Qed.

Lemma along_preserves : preserves fn along.
Proof using All.
  apply (blocks_preserve fn along (map (fun i => [rename f i]) (ins fn)) copies_match); try done.
  - symmetry. apply concat_singles.
  - apply along_labels.
  - apply along_sim.
  - intros. apply along_entry.
Qed.
End Along.

(** ** The moves found are the eligible moves *)

Lemma mov_def_unique fn p q i j : ins fn !! p = Some i -> ins fn !! q = Some j ->
  i_op i = IR_MOV -> i_op j = IR_MOV -> i_dst i = i_dst j -> 0 <= i_dst i ->
  d_cnt (compute_defs fn) (i_dst i) = 1 -> p = q /\ i = j.
Proof.
  intros I J Oi Oj E Hd C.
  assert (T : forall k, i_op k = IR_MOV -> 0 <= i_dst k -> i_dst k ∈ def_list (nvregs fn) k).
  { intros k Ok Hk. unfold def_list, def_target, op_is. rewrite Ok. simpl.
    destruct (Z.ltb_spec (i_dst k) 0); [lia | by left]. }
  assert (p = q) as ->; [|split; [done | congruence]].
  eapply (defs_at_most_one fn (i_dst i)); [lia | exact I | by apply T | exact J |].
  rewrite E. apply T; [done | lia].
Qed.

Lemma copy_at_unique fn p q u a b : copy_at fn p u a -> copy_at fn q u b -> p = q /\ a = b.
Proof.
  intros (i & I & (Oi & _ & Di & _ & _ & Ci)%cp_eligible_spec & <- & <-)
    (j & J & (Oj & _)%cp_eligible_spec & Dj & <-).
  destruct (mov_def_unique fn p q i j) as [-> ->]; done.
Qed.

Record moves_ok (fn : ir_func) (n : Z) (m : cp_moves) : Prop := {
  mv_copy u : 0 <= cp_src m u -> exists p, Z.of_nat p = cp_pos m u /\ copy_at fn p u (cp_src m u);
  mv_all p u a : Z.of_nat p < n -> copy_at fn p u a -> cp_src m u = a /\ cp_pos m u = Z.of_nat p;
  mv_none u : cp_src m u < 0 -> cp_src m u = -1;
  mv_count : 0 <= cp_nmov m /\ (cp_nmov m = 0 <-> forall u, cp_src m u < 0) }.

Lemma find_moves_ok fn n l m : drop n (ins fn) = l -> moves_ok fn (Z.of_nat n) m ->
  moves_ok fn (Z.of_nat n + Z.of_nat (length l)) (find_moves (compute_defs fn) (Z.of_nat n) l m).
Proof.
  revert n m. induction l as [|i l IH]; intros n m E Hm; simpl.
  - by rewrite Z.add_0_r.
  - assert (I : ins fn !! n = Some i) by (by rewrite <- (Nat.add_0_r n), <- lookup_drop, E).
    replace (Z.of_nat n + Z.of_nat (S (length l))) with (Z.of_nat (S n) + Z.of_nat (length l)) by lia.
    replace (Z.of_nat n + 1) with (Z.of_nat (S n)) by lia. apply IH.
    { by rewrite <- Nat.add_1_r, <- drop_drop, E. }
    destruct (cp_eligible (compute_defs fn) i) eqn:El.
    + assert (C : copy_at fn n (i_dst i) (i_a i)) by (by exists i).
      pose proof El as (_ & Ha & Hd & _)%cp_eligible_spec. split; simpl; unfold upd.
      * intros u. destruct (Z.eqb_spec u (i_dst i)) as [->|]; [intros _; exists n; done | apply Hm].
      * intros p u a Hp Cp. destruct (Z.eqb_spec u (i_dst i)) as [->|N].
        { destruct (copy_at_unique _ _ _ _ _ _ C Cp) as [-> ->]. done. }
        apply (mv_all _ _ _ Hm); [|done]. destruct (decide (p = n)) as [->|]; [|lia].
        destruct Cp as (j & J & _ & D & _). simplify_eq.
      * intros u. destruct (Z.eqb_spec u (i_dst i)); [lia | apply Hm].
      * destruct (mv_count _ _ _ Hm) as [H0 H1]. split; [lia|]. split; [lia|].
        intros Hn. specialize (Hn (i_dst i)). rewrite Z.eqb_refl in Hn. lia.
    + split; [apply Hm| |apply Hm|apply Hm]. intros p u a Hp Cp. apply (mv_all _ _ _ Hm); [|done].
      destruct (decide (p = n)) as [->|]; [|lia]. destruct Cp as (j & J & Ej & _). congruence.
Qed.

Lemma moves_of_ok fn : moves_ok fn (nins fn) (moves_of fn).
Proof.
  apply (find_moves_ok fn 0 (ins fn)); [done|]. split; simpl; [lia | lia | done|].
  split; [done|]. split; [intros; lia | done].
Qed.

Lemma moves_src fn u a : 0 <= a -> cp_src (moves_of fn) u = a <-> exists p, copy_at fn p u a.
Proof.
  intros Ha. pose proof (moves_of_ok fn) as Hm. split.
  - intros <-. destruct (mv_copy _ _ _ Hm u Ha) as (p & _ & C). eauto.
  - intros (p & C). apply (mv_all _ _ _ Hm p); [|done]. destruct C as (i & I & _).
    apply lookup_lt_Some in I. unfold nins. lia.
Qed.

(** ** Chains of moves *)

Section Resolve.
Context (src : Z -> Z) (nv : Z).
Context (Hsrc : forall u, 0 <= src u -> src u < nv).

(** One move down; a vreg has at most one. *)
Definition next (u a : Z) : Prop := 0 <= src u /\ a = src u.

(** The last vreg of the chain from [u]. *)
Definition chain_end (u r : Z) : Prop := rtc next u r /\ src r < 0.

Lemma chain_end_step u : 0 <= src u -> forall r, chain_end (src u) r -> chain_end u r.
Proof. intros Hu r [H E]. split; [|done]. eapply rtc_l; [|done]. by split. Qed.

Lemma chain_end_unique u r r' : chain_end u r -> chain_end u r' -> r = r'.
Proof.
  intros [H E]. induction H as [u|u x r [Hu ->] _ IH]; intros [H' E'].
  - destruct (rtc_inv _ _ H') as [|(y & [? _] & _)]; [done|lia].
  - apply IH; [done|]. destruct (rtc_inv _ _ H') as [->|(y & [_ ->] & H2)]; [lia | by split].
Qed.

(** [x] comes back to itself. *)
Definition on_cycle (x : Z) : Prop := 0 <= src x /\ rtc next (src x) x.

Lemma on_cycle_next x : on_cycle x -> on_cycle (src x).
Proof.
  intros [Hx H]. assert (S : next x (src x)) by done.
  destruct (rtc_inv _ _ H) as [E|(y & [Hy ->] & H')].
  - rewrite E. by split.
  - split; [done|]. eapply rtc_r; done.
Qed.

(** A chain that ends has no cycle. *)
Lemma chain_end_acyclic u r : chain_end u r -> ~ on_cycle u.
Proof.
  intros [H E]. induction H as [u|u x r [Hu ->] _ IH]; [intros [? _]; lia|].
  intros C. apply IH; [done | by apply on_cycle_next].
Qed.

(** *** The walk *)

Definition fresh (state : Z -> Z) : nat := length (filter (fun u => state u = 0) (seqZ 0 nv)).

Lemma fresh_mark state u : 0 <= u < nv -> state u = 0 -> fresh state = S (fresh (upd state u 1)).
Proof.
  intros Hu Hs. apply (filter_remove u); [apply NoDup_seqZ | apply elem_of_seqZ; lia | done | |].
  - unfold upd. by rewrite Z.eqb_refl.
  - intros y Hy. unfold upd. by destruct (Z.eqb_spec y u).
Qed.

(** The stack: each vreg was reached from the one under it, the top one leads to
    [u]. *)
Fixpoint stacked (stk : list Z) (u : Z) : Prop :=
  match stk with
  | [] => True
  | w :: stk => next w u /\ stacked stk w
  end.

Lemma stacked_reaches stk u w : stacked stk u -> w ∈ stk -> 0 <= src w /\ rtc next (src w) u.
Proof.
  revert u. induction stk as [|x stk IH]; intros u; simpl; [intros _ []%elem_of_nil|].
  intros [[Hx ->] H] [->|Hw]%elem_of_cons; [by split|].
  destruct (IH x H Hw) as [Hs Hr]. split; [done|]. eapply rtc_r; [done|]. by split.
Qed.

(** The vregs the walk marks are the ones it stacks. *)
Lemma chain_walk_spec fuel state stk u :
  0 <= u < nv -> (fresh state <= fuel)%nat -> stacked stk u ->
  (forall w, w ∈ stk -> 0 <= w < nv) ->
  let '(state', stk', u') := chain_walk src fuel state stk u in
  0 <= u' < nv /\ stacked stk' u' /\ (forall w, w ∈ stk' -> 0 <= w < nv) /\
  (src u' < 0 \/ state' u' <> 0) /\
  (forall w, state' w = 1 -> state w = 1 \/ w ∈ stk') /\
  (forall w, w ∈ stk -> w ∈ stk') /\
  (forall w, state w <> 0 -> state' w = state w) /\
  (forall w, state' w = 0 -> state w = 0) /\
  (forall w, state' w <> 0 -> state w = 0 -> state' w = 1 /\ w ∈ stk') /\
  (0 <= src u -> state' u <> 0).
Proof using Hsrc.
  revert state stk u. induction fuel as [|fuel IH]; intros state stk u Hu Hf Hs Hb; simpl.
  - split_and!; try done; try (intros; tauto || by left).
    all: try (right; intros E; rewrite (fresh_mark state u Hu E) in Hf; lia).
    intros _ E. rewrite (fresh_mark state u Hu E) in Hf. lia.
  - destruct (Z.leb_spec 0 (src u)) as [Hp|Hp]; simpl.
    2: { split_and!; try done; try (intros; tauto || lia). }
    destruct (Z.eqb_spec (state u) 0) as [E|E].
    2: { split_and!; try done; try (intros; tauto || lia). }
    specialize (IH (upd state u 1) (u :: stk) (src u)).
    destruct (chain_walk src fuel (upd state u 1) (u :: stk) (src u)) as [[state' stk'] u'].
    destruct IH as (B & St & Bs & Hd & H1 & Hin & Hk & H0 & Hn & _).
    + pose proof (Hsrc u Hp). lia.
    + rewrite (fresh_mark state u Hu E) in Hf. lia.
    + by split.
    + intros w [->|Hw]%elem_of_cons; auto.
    + assert (U : u ∈ stk') by (apply Hin; by left).
      assert (Uu : upd state u 1 u = 1) by (unfold upd; by rewrite Z.eqb_refl).
      assert (Uo : forall w, w <> u -> upd state u 1 w = state w)
        by (intros w Hw; unfold upd; by destruct (Z.eqb_spec w u)).
      split_and!; try done; try apply B.
      * intros w Hw. destruct (decide (w = u)) as [->|N]; [by right|].
        destruct (H1 w Hw) as [Hw'|]; [left; by rewrite <- (Uo w N) | by right].
      * intros w Hw. apply Hin. by right.
      * intros w Hw. assert (w <> u) by congruence. rewrite <- (Uo w) by done. apply Hk. by rewrite Uo.
      * intros w Hw. destruct (decide (w = u)) as [->|N]; [done|]. rewrite <- (Uo w N). auto.
      * intros w Hw Hz. destruct (decide (w = u)) as [->|N].
        { split; [|done]. rewrite Hk; [done | by rewrite Uu]. }
        apply Hn; [done | by rewrite Uo].
      * intros _. rewrite Hk by (by rewrite Uu). by rewrite Uu.
Qed.

(** *** The search *)

Context (pos : Z -> Z).

(** A resolved vreg names the end of its chain, a rewrite of a read of it counts,
    and everything below it is resolved. *)
Record resolved (c : chains) (w : Z) : Prop := {
  rs_move : 0 <= src w;
  rs_end : chain_end w (c_root c w);
  rs_nrw : 1 <= c_nrw c w;
  rs_next : 0 <= src (src w) -> c_state c (src w) = 2 }.

Definition search_ok (c : chains) : Prop :=
  forall w, c_state c w = 0 \/ (c_state c w = 2 /\ resolved c w).

Lemma chain_unwind_spec r stk u c :
  stacked stk u -> (if src u <? 0 then r = u else chain_end u r /\ c_state c u = 2 /\ 1 <= c_nrw c u) ->
  (forall w, c_state c w = 2 -> resolved c w) ->
  let c' := chain_unwind src pos r stk c in
  c_cycle c' = c_cycle c /\
  (forall w, c_state c' w = 2 -> resolved c' w) /\
  (forall w, w ∈ stk -> c_state c' w = 2) /\
  (forall w, c_state c' w = c_state c w \/ (w ∈ stk /\ c_state c' w = 2)).
Proof using Hsrc.
  revert u c. induction stk as [|w stk IH]; intros u c; simpl.
  - intros _ _ H. split_and!; try done; [by intros w ?%elem_of_nil | by left].
  - intros [[Hw ->] Hs] Hu Hr.
    set (c1 := Chains _ _ _ _).
    assert (Es : forall x, c_state c1 x = if x =? w then 2 else c_state c x) by done.
    assert (R1 : resolved c1 w).
    { split; simpl; unfold upd; rewrite ?Z.eqb_refl; [done|..].
      - destruct (Z.ltb_spec (src (src w)) 0) as [L|L].
        + subst r. split; [eapply rtc_l; [|done]; by split | done].
        + apply chain_end_step; [done | apply Hu].
      - destruct (Z.ltb_spec (src (src w)) 0) as [L|L]; simpl; [lia|]. destruct Hu as (_ & _ & ?).
        destruct (pos w <? pos (src w)); simpl; lia.
      - intros L. destruct (Z.eqb_spec (src w) w) as [E|N]; [done|].
        destruct (Z.ltb_spec (src (src w)) 0); [lia | apply Hu]. }
    assert (Ro : forall x, c_state c1 x = 2 -> resolved c1 x).
    { intros x. rewrite Es. destruct (Z.eqb_spec x w) as [->|N]; [done|]. intros Hx.
      destruct (Hr x Hx) as [A B C D]. split; simpl; unfold upd; destruct (Z.eqb_spec x w); try done.
      intros L. destruct (Z.eqb_spec (src x) w); auto. }
    destruct (IH w c1 Hs) as (H1 & H2 & H3 & H4); [| |]; try done.
    { destruct (Z.ltb_spec (src w) 0); [lia|]. rewrite Es, Z.eqb_refl. split_and!; [|done | apply R1].
      replace r with (c_root c1 w) by (simpl; unfold upd; by rewrite Z.eqb_refl). apply R1. }
    split_and!; try done.
    + intros x [->|Hx]%elem_of_cons; [|auto]. destruct (H4 w) as [E|[_ E]]; [|done].
      rewrite E, Es. by rewrite Z.eqb_refl.
    + intros x. destruct (H4 x) as [E|[Hx E]]; [|right; split; [by right | done]].
      rewrite E, Es. destruct (Z.eqb_spec x w) as [->|]; [right; split; [by left | done] | by left].
Qed.

Lemma chain_step_spec c v : 0 <= v < nv -> c_cycle c = false -> search_ok c ->
  let c' := chain_step src pos nv c v in
  if c_cycle c' then exists x, on_cycle x
  else search_ok c' /\ (0 <= src v -> c_state c' v = 2) /\
       (forall w, c_state c w = 2 -> c_state c' w = 2).
Proof using Hsrc.
  intros Hv Hc Ho. unfold chain_step. rewrite Hc.
  destruct (Z.ltb_spec (src v) 0) as [L|L]; simpl; [rewrite Hc; split_and!; [done|lia|done]|].
  destruct (Z.eqb_spec (c_state c v) 2) as [E|E]; [rewrite Hc; by split_and!|].
  pose proof (chain_walk_spec (Z.to_nat nv) (c_state c) [] v Hv) as W.
  destruct (chain_walk src (Z.to_nat nv) (c_state c) [] v) as [[state stk] u].
  assert (Hf : (fresh (c_state c) <= Z.to_nat nv)%nat).
  { unfold fresh. etrans; [apply length_filter|]. rewrite length_seqZ. done. }
  destruct (W Hf I) as (Hu & Hs & Hb & Hd & H1 & _ & Hk & _ & Hn & Hm); [by intros w ?%elem_of_nil|].
  assert (O1 : forall w, c_state c w <> 1) by (intros w; destruct (Ho w) as [->|[-> _]]; lia).
  destruct (Z.leb_spec 0 (src u)) as [Lu|Lu]; simpl; [destruct (Z.eqb_spec (state u) 1) as [E1|E1]; simpl|].
  { (* back on the chain being walked *)
    exists u. destruct (H1 u E1) as [F|F]; [by destruct (O1 u)|].
    destruct (stacked_reaches stk u u Hs F). by split. }
  all: set (c1 := Chains (c_root c) (c_nrw c) state false).
  all: assert (St : forall w, state w = 2 -> resolved c1 w).
  1, 3: intros w Hw; destruct (Ho w) as [Z0|[_ [A B C D]]]; [destruct (Hn w); lia|];
    split; simpl; try done; intros Hp; rewrite Hk; rewrite D by done; lia.
  all: match goal with |- context [chain_unwind _ _ ?r _ _] => set (r0 := r) end.
  all: assert (Hr : if src u <? 0 then r0 = u else chain_end u r0 /\ state u = 2 /\ 1 <= c_nrw c1 u).
  1: { subst r0. destruct (Z.ltb_spec (src u) 0); [lia|]. destruct Hd as [|Hd]; [lia|].
       assert (Eu : state u = 2) by (destruct (Ho u) as [Z0|[E2 _]]; [by destruct (Hn u Hd Z0)
         | rewrite (Hk u); [done|lia]]).
       destruct (St u Eu). done. }
  2: { subst r0. by destruct (Z.ltb_spec (src u) 0); [|lia]. }
  all: destruct (chain_unwind_spec r0 stk u c1 Hs Hr St) as (C1 & C2 & C3 & C4); rewrite C1; simpl.
  all: assert (Sv : forall w, c_state c w = 2 -> state w = 2) by (intros w Hw; rewrite Hk; lia).
  all: split_and!.
  1, 4: intros w; destruct (C4 w) as [F|[_ F]]; [|right; by auto];
    destruct (decide (state w = 0)) as [Z0|Z0]; [left; by rewrite F|]; right;
    assert (F2 : c_state (chain_unwind src pos r0 stk c1) w = 2);
      [destruct (Ho w) as [Z1|[E2 _]]; [destruct (Hn w Z0 Z1); by apply C3 | rewrite F; by apply Sv]
      | by auto].
  1, 3: intros _; destruct (Ho v) as [Z1|[E2 _]]; [|done]; destruct (Hn v (Hm L) Z1); by apply C3.
  all: intros w Hw; destruct (C4 w) as [->|[_ F]]; [by apply Sv | done].
Qed.

Lemma chain_steps_cycle l c : c_cycle c = true -> foldl (chain_step src pos nv) c l = c.
Proof.
  intros H. induction l as [|v l IH]; [done|]. simpl. unfold chain_step at 2. by rewrite H.
Qed.

Lemma chain_steps_spec l c : (forall v, v ∈ l -> 0 <= v < nv) -> c_cycle c = false -> search_ok c ->
  let c' := foldl (chain_step src pos nv) c l in
  if c_cycle c' then exists x, on_cycle x
  else search_ok c' /\ (forall v, v ∈ l -> 0 <= src v -> c_state c' v = 2) /\
       (forall w, c_state c w = 2 -> c_state c' w = 2).
Proof using Hsrc.
  revert c. induction l as [|v l IH]; intros c Hl Hc Ho; cbn [foldl].
  - rewrite Hc. split_and!; [done | by intros v ?%elem_of_nil | done].
  - pose proof (chain_step_spec c v (Hl v ltac:(by left)) Hc Ho) as S. cbv zeta in S.
    destruct (c_cycle (chain_step src pos nv c v)) eqn:C; [by rewrite chain_steps_cycle, C|].
    destruct S as (S1 & S2 & S3).
    pose proof (IH _ (fun w Hw => Hl w ltac:(by right)) C S1) as R. cbv zeta in R.
    destruct (c_cycle (foldl _ _ l)); [done|]. destruct R as (R1 & R2 & R3).
    split_and!; [done | | auto]. intros w [->|Hw]%elem_of_cons; auto.
Qed.

(** The search ends: it reports a cycle and there is one, or every vreg with a
    move has the last vreg of its chain, and there is none. *)
Lemma resolve_spec :
  let c := resolve src pos nv in
  if c_cycle c then exists x, on_cycle x
  else forall v, 0 <= v < nv -> 0 <= src v -> chain_end v (c_root c v) /\ 1 <= c_nrw c v.
Proof using Hsrc.
  unfold resolve.
  pose proof (chain_steps_spec (seqZ 0 nv) (Chains (fun _ => 0) (fun _ => 0) (fun _ => 0) false)) as S.
  cbv zeta in *. destruct (c_cycle (foldl _ _ _)) eqn:C.
  - apply S; [intros v Hv%elem_of_seqZ; lia | done | by left].
  - destruct S as (S1 & S2 & _); [intros v Hv%elem_of_seqZ; lia | done | by left|].
    intros v Hv Hp. assert (E : c_state (foldl (chain_step src pos nv)
      (Chains (fun _ => 0) (fun _ => 0) (fun _ => 0) false) (seqZ 0 nv)) v = 2)
      by (apply S2; [apply elem_of_seqZ; lia | done]).
    destruct (S1 v) as [F|[_ R]]; [lia|]. by destruct R.
Qed.
End Resolve.

(** ** The rule, one move at a time *)

Section ByMove.
Context (fn : ir_func).
Let d := compute_defs fn.

Definition repl (from to v : Z) : Z := if v =? from then to else v.

(** What a read of each vreg names after the moves before [n]. *)
Definition rep_step (rep : Z -> Z) (n : nat) : Z -> Z :=
  match ins fn !! n with
  | Some i => if cp_eligible d (rename rep i)
              then fun u => repl (i_dst i) (rep (i_a i)) (rep u) else rep
  | None => rep
  end.

Lemma rename_mov f i : i_op i = IR_MOV -> rename f i = set_a (f (i_a i)) i.
Proof. intros O. rewrite rename_eq. by rewrite O. Qed.

Lemma eligible_rename rep i : cp_eligible d (rename rep i) = true <->
  i_op i = IR_MOV /\ 0 <= rep (i_a i) /\ 0 <= i_dst i /\ rep (i_a i) <> i_dst i /\
  d_cnt d (rep (i_a i)) = 1 /\ d_cnt d (i_dst i) = 1.
Proof.
  rewrite cp_eligible_spec, rename_op. destruct (rename_fields rep i) as (-> & _).
  split; intros (O & H); (split; [done|]); rewrite (rename_mov rep i O) in *; by destruct i.
Qed.

(** The reads of all the code, and those of them that a round replaces. *)
Definition all_reads : list Z := concat (map reads (ins fn)).

Lemma by_move_step_rep rep st n : keeps_sign rep -> cp_code st = map (rename rep) (ins fn) ->
  let st' := by_move_step d st n in
  cp_code st' = map (rename (rep_step rep n)) (ins fn) /\ keeps_sign (rep_step rep n).
Proof.
  intros Hk E. unfold by_move_step, rep_step. rewrite E, list_lookup_fmap.
  destruct (ins fn !! n) as [i|]; simpl; [|done].
  destruct (cp_eligible d (rename rep i)) eqn:El; [|done].
  pose proof (proj1 (eligible_rename rep i) El) as (O & Ha & Hd & _).
  assert (Ea : i_a (rename rep i) = rep (i_a i)) by (rewrite (rename_mov rep i O); by destruct i).
  destruct (rename_fields rep i) as (Ed & _). rewrite Ea, Ed.
  rewrite (read_all_split _ (repl (i_dst i) (rep (i_a i)))
    (fun k p => if p =? i_dst i then k + 1 else k)).
  2: { intros p k. unfold repl_cb, repl. by destruct (p =? _). }
  simpl. split.
  - rewrite map_map. apply map_ext. intros j. by apply rename_rename.
  - intros u. unfold repl. destruct (Z.eqb_spec (rep u) (i_dst i)) as [F|]; [|apply Hk].
    rewrite <- (Hk u), F. lia.
Qed.

(** A move that is eligible as rewritten is eligible as written. *)
Lemma eligible_before rep n i : ins fn !! n = Some i -> (forall u, copy_of fn u (rep u)) ->
  cp_eligible d (rename rep i) = true -> copy_at fn n (i_dst i) (i_a i).
Proof.
  intros I Hr (O & Ha & Hd & N & Ca & Cd)%eligible_rename. exists i. split_and!; try done.
  apply cp_eligible_spec. fold d. pose proof (copy_of_sign _ _ _ (Hr (i_a i))) as S.
  destruct (rtc_inv _ _ (Hr (i_a i))) as [E|(x & (p & C) & _)].
  - rewrite <- E in *. split_and!; try done; lia.
  - pose proof C as (j & J & (Oj & _ & _ & Nj & _ & Cj)%cp_eligible_spec & Dj & Aj).
    split_and!; try done; try lia; [|by rewrite <- Dj].
    intros F. destruct (mov_def_unique fn n p i j) as [_ ?]; try done; congruence.
Qed.

Lemma rep_step_copy rep n : (forall u, copy_of fn u (rep u)) -> forall u, copy_of fn u (rep_step rep n u).
Proof.
  intros Hr u. unfold rep_step. destruct (ins fn !! n) as [i|] eqn:I; [|done].
  destruct (cp_eligible d (rename rep i)) eqn:El; [|done].
  pose proof (eligible_before rep n i I Hr El) as C. unfold repl.
  destruct (Z.eqb_spec (rep u) (i_dst i)) as [E|]; [|done].
  etrans; [apply Hr|]. rewrite E. eapply rtc_l; [by exists n | apply Hr].
Qed.

Definition reps (ns : list nat) : Z -> Z := foldl rep_step (fun v => v) ns.

Lemma reps_snoc ns n : reps (ns ++ [n]) = rep_step (reps ns) n.
Proof. unfold reps. by rewrite foldl_app. Qed.

Lemma reps_copy ns u : copy_of fn u (reps ns u).
Proof.
  revert u. induction ns as [|n ns IH] using rev_ind; intros u; [done|].
  rewrite reps_snoc. by apply rep_step_copy.
Qed.

Lemma reps_sign ns : keeps_sign (reps ns).
Proof. intros u. eapply copy_of_sign, reps_copy. Qed.

Lemma by_move_code ns :
  cp_code (foldl (by_move_step d) (CpState (ins fn) false 0) ns) = map (rename (reps ns)) (ins fn).
Proof.
  induction ns as [|n ns IH] using rev_ind.
  - simpl. rewrite <- (map_id (ins fn)) at 1. apply map_ext. intros i. by rewrite rename_id.
  - rewrite foldl_app, reps_snoc. simpl.
    apply (by_move_step_rep (reps ns) _ n (reps_sign ns) IH).
Qed.
End ByMove.

(** ** The pass *)

Section Pass.
Context (fn : ir_func) (Hwf : wf_func fn).
Let src := cp_src (moves_of fn).

Lemma src_bound u : 0 <= src u -> src u < nvregs fn.
Proof using Hwf.
  intros H. destruct (proj1 (moves_src fn u (src u) H) eq_refl) as (p & i & I & (O & _)%cp_eligible_spec & _ & <-).
  destruct Hwf as [_ F]. destruct (Forall_lookup_1 _ _ _ _ F I) as [Wr _].
  rewrite reads_eq in Wr. unfold reads_spec in Wr. rewrite O in Wr. by inversion Wr.
Qed.

Lemma next_copy u a : next src u a <-> exists p, copy_at fn p u a.
Proof.
  split.
  - intros [H ->]. by apply moves_src.
  - intros (p & C). assert (Ha : 0 <= a) by (destruct C as (i & _ & (_ & ? & _)%cp_eligible_spec & _ & <-); done).
    pose proof (proj2 (moves_src fn u a Ha) (ex_intro _ p C)) as <-. by split.
Qed.

Lemma next_copy_of u a : rtc (next src) u a <-> copy_of fn u a.
Proof. split; (induction 1 as [|u x a H _ IH]; [done|]; eapply rtc_l; [|exact IH]; by apply next_copy). Qed.

(** What [cpmap_cb] makes of a read. *)
Definition mapped (v : Z) : Z :=
  let root := if src v <? 0 then -1 else c_root (resolve src (cp_pos (moves_of fn)) (nvregs fn)) v in
  if (0 <=? v) && (v <? nvregs fn) && (0 <=? root) then root else v.

Definition mapped_count (n v : Z) : Z :=
  let c := resolve src (cp_pos (moves_of fn)) (nvregs fn) in
  let root := if src v <? 0 then -1 else c_root c v in
  if (0 <=? v) && (v <? nvregs fn) && (0 <=? root) then n + c_nrw c v else n.

Lemma mapped_copy : c_cycle (resolve src (cp_pos (moves_of fn)) (nvregs fn)) = false ->
  forall v, copy_of fn v (mapped v).
Proof using Hwf.
  intros C v. unfold mapped. pose proof (resolve_spec src (nvregs fn) src_bound (cp_pos (moves_of fn))) as R.
  cbv zeta in R. rewrite C in R.
  destruct (Z.leb_spec 0 v), (Z.ltb_spec v (nvregs fn)), (Z.ltb_spec (src v) 0); simpl; try done.
  destruct (Z.leb_spec 0 (c_root (resolve src (cp_pos (moves_of fn)) (nvregs fn)) v)); [|done].
  destruct (R v) as [[H' _] _]; [lia | done|]. by apply next_copy_of.
Qed.

Lemma map_cb_split :
  forall v n, cpmap_cb (fun v => if cp_src (moves_of fn) v <? 0 then -1 else
      c_root (resolve src (cp_pos (moves_of fn)) (nvregs fn)) v)
    (c_nrw (resolve src (cp_pos (moves_of fn)) (nvregs fn))) (nvregs fn) v n = (mapped v, mapped_count n v).
Proof. intros v n. unfold cpmap_cb, mapped, mapped_count. by destruct (_ && _). Qed.

(** Every read the pass leaves is further down its chain of moves. *)
Lemma copyprop_renames : exists f, (forall v, copy_of fn v (f v)) /\
  cp_code (copyprop_run fn) = map (rename f) (ins fn).
Proof using Hwf.
  unfold copyprop_run. destruct (cp_nmov (moves_of fn) =? 0).
  { exists (fun v => v). split; [done|]. simpl. rewrite <- (map_id (ins fn)) at 1. apply map_ext.
    intros i. by rewrite rename_id. }
  destruct (c_cycle _) eqn:C.
  - exists (reps fn (seq 0 (length (ins fn)))). split; [apply reps_copy | apply by_move_code].
  - exists mapped. split; [by apply mapped_copy|].
    rewrite (read_all_split _ mapped mapped_count _ _ map_cb_split). done.
Qed.
End Pass.

(** ** One walk does what the rule does *)

Section OneWalk.
Context (fn : ir_func) (Hwf : wf_func fn).
Let d := compute_defs fn.
Let src := cp_src (moves_of fn).
Let pos := cp_pos (moves_of fn).
Context (Hac : c_cycle (resolve src pos (nvregs fn)) = false).

Lemma no_cycle u : ~ on_cycle src u.
Proof using Hwf Hac.
  intros [Hu H]. pose proof (resolve_spec src (nvregs fn) (src_bound fn Hwf) pos) as R.
  cbv zeta in R. rewrite Hac in R.
  assert (B : 0 <= u < nvregs fn).
  { apply rtc_inv_r in H as [E|(y & _ & [Hy ->])].
    - rewrite <- E. split; [done | by apply src_bound].
    - split; [done | by apply src_bound]. }
  destruct (R u B Hu) as [E _]. eapply chain_end_acyclic; [exact E | by split].
Qed.

Lemma copy_not_back p u a : copy_at fn p u a -> ~ copy_of fn a u.
Proof using Hwf Hac.
  intros C H. assert (N : next src u a) by (apply next_copy; eauto). destruct N as [Hu ->].
  apply (no_cycle u). split; [done | by apply next_copy_of].
Qed.

Lemma move_at u : 0 <= src u -> exists p, Z.of_nat p = pos u /\ copy_at fn p u (src u) /\ (p < length (ins fn))%nat.
Proof.
  intros H. destruct (mv_copy _ _ _ (moves_of_ok fn) u H) as (p & E & C). exists p. split_and!; try done.
  destruct C as (i & I & _). by apply lookup_lt_Some in I.
Qed.

Lemma move_pos p u a : copy_at fn p u a -> src u = a /\ 0 <= a /\ pos u = Z.of_nat p.
Proof.
  intros C. pose proof C as (i & I & (_ & Ha & _)%cp_eligible_spec & _ & Ei).
  destruct (mv_all _ _ _ (moves_of_ok fn) p u a); [|done|].
  - apply lookup_lt_Some in I. unfold nins. lia.
  - split_and!; [done | by rewrite <- Ei | done].
Qed.

(** With no cycle every eligible move is still eligible when it is met. *)
Lemma eligible_when_met ns n i : ins fn !! n = Some i ->
  (cp_eligible d (rename (reps fn ns) i) = true <-> copy_at fn n (i_dst i) (i_a i)).
Proof using Hwf Hac.
  intros I. split; [apply eligible_before; [done | apply reps_copy]|]. intros C.
  pose proof C as (j & J & El & _). assert (j = i) as -> by congruence.
  apply cp_eligible_spec in El as (O & Ha & Hd & N & Ca & Cd).
  apply eligible_rename. pose proof (reps_copy fn ns (i_a i)) as H. pose proof (copy_of_sign _ _ _ H).
  split_and!; try done; [lia | intros E; rewrite E in H; by apply (copy_not_back n _ _ C)|].
  apply rtc_inv_r in H as [<-|(y & _ & (p & k & _ & (_ & _ & _ & _ & Ck & _)%cp_eligible_spec & _ & <-))]; done.
Qed.

(** Before its move is met, a read of a vreg is as it was. *)
Lemma reps_waiting n u : src u < 0 \/ Z.of_nat n <= pos u -> reps fn (seq 0 n) u = u.
Proof using Hwf Hac.
  induction n as [|n IH]; intros H; [done|]. rewrite seq_S, reps_snoc. simpl. unfold rep_step.
  assert (W : reps fn (seq 0 n) u = u) by (apply IH; destruct H; [by left | right; lia]).
  destruct (ins fn !! n) as [i|] eqn:I; [|done]. destruct (cp_eligible _ _) eqn:El; [|done]. rewrite W.
  apply (eligible_when_met _ _ _ I) in El. unfold repl.
  destruct (Z.eqb_spec u (i_dst i)) as [->|]; [|done]. destruct (move_pos _ _ _ El) as (E & Ha & Ep).
  destruct H; lia.
Qed.

(** A read names a vreg whose move is still to come, or one that has none. *)
Lemma reps_pending n u : src (reps fn (seq 0 n) u) < 0 \/ Z.of_nat n <= pos (reps fn (seq 0 n) u).
Proof using Hwf Hac.
  revert u. induction n as [|n IH]; intros u.
  { change (reps fn (seq 0 0) u) with u. destruct (decide (src u < 0)) as [|L]; [by left | right].
    destruct (move_at u) as (p & E & _); lia. }
  assert (step : forall v, (forall a, ~ copy_at fn n v a) -> src v < 0 \/ Z.of_nat n <= pos v ->
    src v < 0 \/ Z.of_nat (S n) <= pos v).
  { intros v Hv [|L]; [by left|]. destruct (decide (src v < 0)) as [|Hs]; [by left|right].
    destruct (move_at v) as (p & E & C & _); [lia|]. destruct (decide (p = n)) as [->|]; [|lia].
    by destruct (Hv _ C). }
  rewrite seq_S, reps_snoc. simpl. unfold rep_step.
  destruct (ins fn !! n) as [i|] eqn:I.
  2: { apply step; [|apply IH]. intros a (j & J & _). congruence. }
  destruct (cp_eligible _ _) eqn:El.
  - apply (eligible_when_met _ _ _ I) in El. unfold repl.
    destruct (Z.eqb_spec (reps fn (seq 0 n) u) (i_dst i)) as [E|N]; apply step; try apply IH.
    + intros a C. apply (copy_not_back _ _ _ El).
      assert (E2 : reps fn (seq 0 n) (i_a i) = i_dst i).
      { destruct C as (j & J & _ & Dj & _). congruence. }
      rewrite <- E2. apply reps_copy.
    + intros a (j & J & _ & Dj & _). congruence.
  - apply step; [|apply IH]. intros a C. pose proof C as (j & J & Ej & Dj & Aj).
    assert (j = i) as -> by congruence. apply not_true_iff_false in El. apply El.
    apply (eligible_when_met _ _ _ I). by exists i.
Qed.

(** After the last move a read names the end of its chain: the root. *)
Lemma reps_root v : v < nvregs fn -> reps fn (seq 0 (length (ins fn))) v = mapped fn v.
Proof using Hwf Hac.
  intros Hv. set (r := reps fn (seq 0 (length (ins fn))) v).
  assert (E : src r < 0).
  { destruct (reps_pending (length (ins fn)) v) as [|L]; [done|]. fold r in L.
    destruct (decide (src r < 0)) as [|Hs]; [done|]. destruct (move_at r) as (p & Ep & _ & Hp); lia. }
  assert (Er : chain_end src v r) by (split; [apply next_copy_of, reps_copy | done]).
  unfold mapped. fold src pos.
  pose proof (resolve_spec src (nvregs fn) (src_bound fn Hwf) pos) as R. cbv zeta in R. rewrite Hac in R.
  destruct (Z.ltb_spec (src v) 0) as [L|L].
  - rewrite andb_false_r. destruct Er as [H _]. destruct (rtc_inv _ _ H) as [|(y & [? _] & _)]; [done|lia].
  - assert (H0 : 0 <= v).
    { destruct (move_at v L) as (p & _ & (i & _ & (_ & _ & ? & _)%cp_eligible_spec & <- & _) & _). done. }
    destruct (R v) as [Ev _]; [lia | done|].
    rewrite (chain_end_unique src v _ _ Ev Er).
    assert (Hr : (0 <=? r) = true) by (unfold r; rewrite reps_sign; lia).
    rewrite Hr. destruct (Z.leb_spec 0 v), (Z.ltb_spec v (nvregs fn)); try lia. done.
Qed.

Lemma one_walk_code : cp_code (copyprop_run fn) = cp_code (copyprop_by_move fn d).
Proof using Hwf Hac.
  unfold copyprop_by_move, d. rewrite by_move_code.
  assert (E : forall f, (forall v, v < nvregs fn -> f v = mapped fn v) ->
    map (rename f) (ins fn) = map (rename (mapped fn)) (ins fn)).
  { intros f Hf. apply map_ext_in. intros i Hi%list_elem_of_In. apply rename_ext. intros r Hr. apply Hf.
    destruct Hwf as [_ F]. rewrite Forall_forall in F. destruct (F i Hi) as [W _].
    rewrite Forall_forall in W. by apply W. }
  rewrite (E (reps fn (seq 0 (length (ins fn))))) by apply reps_root.
  unfold copyprop_run. destruct (Z.eqb_spec (cp_nmov (moves_of fn)) 0) as [Z0|Z0].
  - simpl. rewrite <- (E (fun v => v)); [rewrite <- (map_id (ins fn)) at 1; apply map_ext; intros; by rewrite rename_id|].
    intros v Hv. rewrite <- reps_root by done. symmetry. apply reps_waiting. left.
    apply (mv_count _ _ _ (moves_of_ok fn)), Z0.
  - fold src pos. rewrite Hac. rewrite (read_all_split _ (mapped fn) (mapped_count fn) _ _ (map_cb_split fn)). done.
Qed.

(** *** Whether it changed anything *)

Lemma foldl_count_ge (g : Z -> Z -> Z) (l : list Z) k : (forall k p, k <= g k p) -> k <= foldl g k l.
Proof. intros H. revert k. induction l as [|p l IH]; intros k; simpl; [done|]. etrans; [apply (H k p) | apply IH]. Qed.

(** A count grows exactly when an element makes it grow. *)
Lemma foldl_count_pos (g : Z -> Z -> Z) (l : list Z) (P : Z -> Prop) :
  (forall k p, k <= g k p) -> (forall k p, k < g k p <-> P p) ->
  0 < foldl g 0 l <-> exists p, p ∈ l /\ P p.
Proof.
  intros Hle Hlt.
  assert (G : forall k, k < foldl g k l <-> exists p, p ∈ l /\ P p).
  { induction l as [|p l IH]; intros k; simpl.
    - split; [lia | intros (q & []%elem_of_nil & _)].
    - pose proof (Hle k p) as L. pose proof (foldl_count_ge g l (g k p) Hle) as L2. split.
      + intros H. destruct (Z.lt_ge_cases k (g k p)) as [Pp|Np].
        * exists p. split; [by left | by apply (Hlt k)].
        * destruct (proj1 (IH (g k p))) as (q & Hq & Pq); [lia|]. exists q. split; [by right | done].
      + intros (q & [->|Hq]%elem_of_cons & Pq).
        * pose proof (proj2 (Hlt k p) Pq). lia.
        * pose proof (proj2 (IH (g k p)) (ex_intro _ q (conj Hq Pq))). lia. }
  apply G.
Qed.

(** The round of the move at [n], after those of [ms], replaces something: some
    read names its destination by then. *)
Definition hits (ms : list nat) (n : nat) : Prop := exists i r,
  ins fn !! n = Some i /\ cp_eligible d (rename (reps fn ms) i) = true /\
  r ∈ all_reads fn /\ reps fn ms r = i_dst i.

Lemma round_changed ns n st : cp_code st = map (rename (reps fn ns)) (ins fn) ->
  cp_changed (by_move_step d st n) = true <-> cp_changed st = true \/ hits ns n.
Proof.
  intros Ec. unfold by_move_step, hits. rewrite Ec, list_lookup_fmap.
  destruct (ins fn !! n) as [i|] eqn:I; simpl; [|split; [by left | intros [|(i & r & ? & _)]; done]].
  destruct (cp_eligible d (rename (reps fn ns) i)) eqn:El.
  2: { split; [by left | intros [|(j & r & ? & Ej & _)]; [done | congruence]]. }
  destruct (rename_fields (reps fn ns) i) as (Ed & _). rewrite Ed.
  set (g := fun k p => if p =? i_dst i then k + 1 else k).
  rewrite (read_all_split _ (repl (i_dst i) (i_a (rename (reps fn ns) i))) g).
  2: { intros p k. unfold repl_cb, repl, g. by destruct (p =? _). }
  simpl. rewrite orb_true_iff.
  assert (Er : concat (map reads (map (rename (reps fn ns)) (ins fn))) = map (reps fn ns) (all_reads fn)).
  { unfold all_reads. rewrite concat_map, !map_map. f_equal. apply map_ext. intros j.
    apply reads_rename, reps_sign. }
  rewrite Er.
  assert (H1 : forall k p, k <= g k p) by (intros k p; unfold g; destruct (p =? _); lia).
  assert (H2 : forall k p, k < g k p <-> p = i_dst i)
    by (intros k p; unfold g; destruct (Z.eqb_spec p (i_dst i)); lia).
  pose proof (foldl_count_pos g (map (reps fn ns) (all_reads fn)) _ H1 H2) as Cp.
  pose proof (foldl_count_ge g (map (reps fn ns) (all_reads fn)) 0 H1) as Cg.
  rewrite negb_true_iff, Z.eqb_neq. apply or_iff_compat_l. split.
  - intros N. destruct (proj1 Cp) as (p & (r & -> & Hr)%list_elem_of_fmap & Hp); [lia|]. by exists i, r.
  - intros (j & r & J & _ & Hr & Hd). simplify_eq. apply Z.neq_sym, Z.lt_neq, Cp.
    exists (i_dst j). split; [|done]. rewrite <- Hd. by apply list_elem_of_fmap_2.
Qed.

Lemma by_move_changed k : cp_changed (foldl (by_move_step d) (CpState (ins fn) false 0) (seq 0 k)) = true <->
  exists n, (n < k)%nat /\ hits (seq 0 n) n.
Proof.
  induction k as [|k IH]; [split; [done | intros (n & ? & _); lia]|].
  rewrite seq_S, foldl_app. cbn [foldl]. rewrite (round_changed (seq 0 k)) by apply by_move_code.
  rewrite IH. split.
  - intros [(n & L & H)|H]; [exists n; split; [lia|done] | exists k; split; [lia|done]].
  - intros (n & L & H). destruct (decide (n = k)) as [->|]; [by right|]. left. exists n. split; [lia|done].
Qed.

Lemma all_reads_bound r : r ∈ all_reads fn -> r < nvregs fn.
Proof using Hwf.
  unfold all_reads. rewrite list_elem_of_In, in_concat. intros (l & Hl & Hr).
  apply in_map_iff in Hl as (i & <- & Hi). destruct Hwf as [_ F]. rewrite Forall_forall in F.
  destruct (F i) as [W _]; [by apply list_elem_of_In|]. rewrite Forall_forall in W.
  apply W. by apply list_elem_of_In.
Qed.

(** Both say "changed" when some read has a move. *)
Lemma by_move_changed_iff : cp_changed (copyprop_by_move fn d) = true <->
  exists r, r ∈ all_reads fn /\ 0 <= src r.
Proof using Hwf Hac.
  unfold copyprop_by_move. rewrite by_move_changed. split.
  - intros (n & _ & i & r & I & El & Hr & E). exists r. split; [done|].
    apply (eligible_when_met _ _ _ I) in El. destruct (move_pos _ _ _ El) as (Es & Ha & _).
    pose proof (reps_copy fn (seq 0 n) r) as H. rewrite E in H.
    apply next_copy_of in H. fold src in H.
    destruct (rtc_inv _ _ H) as [F|(y & [? _] & _)]; [rewrite F; lia | done].
  - intros (r & Hr & Hs). destruct (move_at r Hs) as (p & E & C & Hp). exists p. split; [done|].
    pose proof C as (i & I & _ & Di & _). exists i, r. split_and!; try done.
    + apply (eligible_when_met _ _ _ I). rewrite Di. destruct C as (j & J & Ej & Dj & Aj). exists j.
      simplify_eq. done.
    + rewrite reps_waiting; [done|]. right. lia.
Qed.

Lemma one_walk_changed : cp_changed (copyprop_run fn) = cp_changed (copyprop_by_move fn d).
Proof using Hwf Hac.
  apply eq_true_iff_eq. rewrite by_move_changed_iff. unfold copyprop_run.
  destruct (Z.eqb_spec (cp_nmov (moves_of fn)) 0) as [Z0|Z0].
  { split; [done|]. intros (r & _ & Hs).
    pose proof (proj1 (proj2 (mv_count _ _ _ (moves_of_ok fn))) Z0 r). unfold src in Hs. lia. }
  fold src pos. rewrite Hac, (read_all_split _ (mapped fn) (mapped_count fn) _ _ (map_cb_split fn)).
  simpl. rewrite Z.ltb_lt. fold (all_reads fn).
  pose proof (resolve_spec src (nvregs fn) (src_bound fn Hwf) pos) as R. cbv zeta in R. rewrite Hac in R.
  assert (G : forall k p, k <= mapped_count fn k p /\
    (k < mapped_count fn k p <-> (0 <= p < nvregs fn) /\ 0 <= src p)).
  { intros k p. unfold mapped_count. fold src pos.
    destruct (Z.leb_spec 0 p), (Z.ltb_spec p (nvregs fn)), (Z.ltb_spec (src p) 0); simpl; try lia.
    destruct (R p) as [[H' _] Hn]; [lia | done|].
    pose proof (copy_of_sign fn p _ (proj1 (next_copy_of fn _ _) H')) as Sg. fold src pos in Sg.
    destruct (Z.leb_spec 0 (c_root (resolve src pos (nvregs fn)) p)); lia. }
  rewrite (foldl_count_pos _ _ (fun p => 0 <= p < nvregs fn /\ 0 <= src p)) by (intros k p; apply (G k p)).
  split; intros (r & Hr & Hs); exists r; (split; [done|]); [apply Hs|]. split; [|done]. split.
  - destruct (move_at r Hs) as (p & _ & (i & _ & (_ & _ & ? & _)%cp_eligible_spec & <- & _) & _). done.
  - apply all_reads_bound; done.
Qed.
End OneWalk.

Section Correct.
Context {M : Machine}.

(** C5: [pass_copyprop] preserves the function. In a function whose temporaries
    are written on every path before they are read, every read it renames -- by
    the chains' roots, or move by move when the moves make a cycle -- holds the
    value it held: same outcomes in the same worlds, termination included. *)
Theorem pass_copyprop_preserves (fn : ir_func) :
  wf_func fn -> strict fn -> kinds_ok fn ->
  (forall s, esc s = true -> 0 <= s < nvars fn) ->
  (forall x l, igoto x = Some l -> l ∈ taken_labels fn) ->
  preserves fn (pass_copyprop fn).
Proof.
  intros Hwf Hst Hk He Hi. destruct (copyprop_renames fn Hwf) as (f & Hf & E).
  unfold pass_copyprop. rewrite E. by apply along_preserves.
Qed.
End Correct.

(** The search for the roots ends with the answer. Within the fuel of
    one round per vreg it either reports a cycle, and some move does come back to
    its own destination, or finds for every move the vreg its chain ends in, which
    has no move of its own -- and then no chain comes back. *)
Theorem copyprop_chains_end (fn : ir_func) : wf_func fn ->
  let m := moves_of fn in
  let c := resolve (cp_src m) (cp_pos m) (nvregs fn) in
  if c_cycle c then exists p u a, copy_at fn p u a /\ copy_of fn a u
  else forall p u a, copy_at fn p u a -> u < nvregs fn ->
       copy_of fn a (c_root c u) /\ (forall q b, ~ copy_at fn q (c_root c u) b) /\ ~ copy_of fn a u.
Proof.
  intros Hwf m c. pose proof (resolve_spec (cp_src m) (nvregs fn) (src_bound fn Hwf) (cp_pos m)) as R.
  fold c in R. cbv zeta in R. destruct (c_cycle c) eqn:C.
  - destruct R as (x & Hx & H). destruct (proj1 (next_copy fn x (cp_src m x))) as (p & Cp); [by split|].
    exists p, x, (cp_src m x). split; [done | by apply next_copy_of].
  - intros p u a Cu Hu. pose proof Cu as (i & _ & (_ & Ha & Hd & _)%cp_eligible_spec & Ei & Ea).
    destruct (move_pos fn p u a Cu) as (Es & _ & _). fold m in Es.
    destruct (R u) as [[H He] _]; [lia | lia|].
    split_and!; [| |by apply (copy_not_back fn Hwf C p)].
    + apply next_copy_of. fold m. destruct (rtc_inv _ _ H) as [F|(y & [_ ->] & H')]; [|by rewrite <- Es].
      rewrite <- F in He. lia.
    + intros q b Cq. destruct (move_pos fn q _ b Cq) as (Eb & Hb & _). fold m in Eb. lia.
Qed.

(** C17: one walk does what the rule does, one move at a time. Where the moves make
    no cycle, [pass_copyprop] leaves the very instructions [copyprop_by_move]
    leaves, and says "changed" when it does. *)
Theorem copyprop_one_walk (fn : ir_func) : wf_func fn ->
  c_cycle (resolve (cp_src (moves_of fn)) (cp_pos (moves_of fn)) (nvregs fn)) = false ->
  cp_code (copyprop_run fn) = cp_code (copyprop_by_move fn (compute_defs fn)) /\
  cp_changed (copyprop_run fn) = cp_changed (copyprop_by_move fn (compute_defs fn)).
Proof. intros Hwf C. split; [by apply one_walk_code | by apply one_walk_changed]. Qed.

(** ** Examples *)

Definition mov_ (dst a : Z) : ir_ins := set_w 4 (set_a a (set_dst dst (set_op IR_MOV ins_blank))).
Definition const_ (dst k : Z) : ir_ins := set_w 4 (set_imm k (set_dst dst ins_blank)).
Definition ret_ (a : Z) : ir_ins := set_a a (set_op IR_RET ins_blank).
Definition code_ (nv : Z) (l : list ir_ins) : ir_func := Fn 0 0 nv 0 [] l [] None [].

(** [%3 = const; %1 = mov %2] with [%2 = mov %3] before it. *)
Definition chain_fn : ir_func :=
  code_ 4 [const_ 3 7; mov_ 2 3; mov_ 1 2; mov_ 0 1; ret_ 0].

Definition still : Machine :=
  {| world := unit; pure_ext _ _ := 0; ext _ _ _ _ := XHalt tt; igoto _ := None; esc _ := false |}.

Lemma pass_copyprop_preserves_witness :
  preserves (M := still) chain_fn (pass_copyprop chain_fn) /\ ins (pass_copyprop chain_fn) !! 4%nat = Some (ret_ 3).
Proof.
  split; [|reflexivity]. apply (pass_copyprop_preserves (M := still)).
  - apply (bool_decide_unpack (wf_func chain_fn)). vm_compute. exact I.
  - apply (strict_check (fun n => nth n [[]; [3]; [3; 2]; [3; 2; 1]; [3; 2; 1; 0]] [])). vm_compute. reflexivity.
  - apply (bool_decide_unpack (kinds_ok chain_fn)). vm_compute. exact I.
  - done.
  - done.
Defined.

Lemma copyprop_one_walk_witness :
  cp_code (copyprop_run chain_fn) = cp_code (copyprop_by_move chain_fn (compute_defs chain_fn)) /\
  cp_changed (copyprop_run chain_fn) = cp_changed (copyprop_by_move chain_fn (compute_defs chain_fn)).
Proof.
  apply copyprop_one_walk.
  - apply (bool_decide_unpack (wf_func chain_fn)). vm_compute. exact I.
  - vm_compute. reflexivity.
Defined.

Lemma copyprop_chains_end_witness :
  copy_of chain_fn 1 (c_root (resolve (cp_src (moves_of chain_fn)) (cp_pos (moves_of chain_fn)) (nvregs chain_fn)) 0).
Proof.
  assert (W : wf_func chain_fn) by (apply (bool_decide_unpack (wf_func chain_fn)); vm_compute; exact I).
  pose proof (copyprop_chains_end chain_fn W) as H. cbv zeta in H.
  assert (E : c_cycle (resolve (cp_src (moves_of chain_fn)) (cp_pos (moves_of chain_fn)) (nvregs chain_fn)) = false)
    by (vm_compute; reflexivity).
  rewrite E in H.
  assert (C : copy_at chain_fn 3 0 1) by (exists (mov_ 0 1); split_and!; vm_compute; reflexivity).
  exact (proj1 (H 3%nat 0 1 C eq_refl)).
Defined.

(** Blocks laid out as B, A, C and run as A, B, C: the chain [%0 -> %1 -> %2 -> %3]
    has its last move first and its middle one second. *)
Definition label_ (l : Z) : ir_ins := set_label l (set_op IR_LABEL ins_blank).
Definition jmp_ (l : Z) : ir_ins := set_label l (set_op IR_JMP ins_blank).
Definition laid_out : ir_func :=
  Fn 0 0 4 3 [] [const_ 3 7; jmp_ 0; label_ 1; mov_ 1 2; jmp_ 2; label_ 0; mov_ 2 3; jmp_ 1;
                 label_ 2; mov_ 0 1; ret_ 0] [] None [].

(** The number of rewrites the one walk counts, "one rewrite for every step
    down the chain where the next move comes LATER", is not the rule's where a
    vreg's move comes after its source's has itself been overtaken: a read of [%0]
    takes one rewrite, to the root its move reads by then, and counts as two. *)
Theorem copyprop_count_differs :
  c_cycle (resolve (cp_src (moves_of laid_out)) (cp_pos (moves_of laid_out)) (nvregs laid_out)) = false /\
  cp_code (copyprop_run laid_out) = cp_code (copyprop_by_move laid_out (compute_defs laid_out)) /\
  cp_did (copyprop_run laid_out) = 5 /\
  cp_did (copyprop_by_move laid_out (compute_defs laid_out)) = 4.
Proof. vm_compute. done. Qed.
