(* ===== verification/Cfg.v ===== *)
(** * The control-flow graph: [build_cfg] of [src/src/opt/cfg.c]

    Basic blocks as instruction ranges, their successors and predecessors and the
    map from labels to blocks; the search of a predecessor list
    ([bb_pred_index]) and of a natural loop ([loop_body]). The theorems: the
    blocks partition the code, control enters a block only at its start and leaves
    it only at its end, and every step of an execution stays in its block or goes
    along an edge. *)
From stdpp Require Import base numbers list option sets relations.
From Stdlib Require Import ZArith Lia.
From S2P Require Import Prelude Ir Util IrSem Simulate Paths.

Local Open Scope Z_scope.

(** ** Blocks *)

Record bb := BB { b_start : nat; b_end : nat; b_succ : list nat; b_pred : list nat }.

(** The operations after which a block ends. *)
Definition ends_block (op : ir_op) : bool :=
  match op with
  | IR_JMP | IR_BRZ | IR_BRNZ | IR_RET | IR_UD2 | IR_IGOTO | IR_SWITCH => true
  | _ => false
  end.

(** [lead[i]], from instruction [n] on; [prev] says whether instruction [n - 1]
    ended a block, or there is none. *)
Fixpoint leads (prev : bool) (l : list ir_ins) : list bool :=
  match l with
  | [] => []
  | i :: l => (prev || op_is (i_op i) IR_LABEL) :: leads (ends_block (i_op i)) l
  end.
Definition lead (fn : ir_func) : list bool := leads true (ins fn).

(** [for (i = 1; i <= N; i++) if (i == N || lead[i])]: the ranges, the current one
    from [prev]. *)
Fixpoint spans_from (prev i : nat) (lead : list bool) : list (nat * nat) :=
  match lead with
  | [] => [(prev, i)]
  | b :: lead => if b then (prev, i) :: spans_from i (S i) lead else spans_from prev (S i) lead
  end.
Definition spans (fn : ir_func) : list (nat * nat) :=
  match lead fn with
  | [] => [(0, 0)]%nat
  | _ :: lead => spans_from 0 1 lead
  end.

(** [l2b]: the block a label opens, -1 for none; a later block overwrites. *)
Fixpoint label_blocks (fn : ir_func) (b : nat) (sp : list (nat * nat)) (l2b : Z -> option nat)
  : Z -> option nat :=
  match sp with
  | [] => l2b
  | (s, e) :: sp =>
      label_blocks fn (S b) sp
        (match ins fn !! s with
         | Some i => if (s <? e)%nat && op_is (i_op i) IR_LABEL then upd l2b (i_label i) (Some b) else l2b
         | None => l2b
         end)
  end.
Definition l2b_of (fn : ir_func) : Z -> option nat := label_blocks fn 0 (spans fn) (fun _ => None).

Definition in_labels (fn : ir_func) (l : Z) : bool := (0 <=? l) && (l <? nlabels fn).

(** [taken_lbl[l]] *)
Definition taken_lbl (fn : ir_func) (l : Z) : bool :=
  existsb (fun i => op_is (i_op i) IR_LABELADDR && in_labels fn (i_label i) && (i_label i =? l)) (ins fn).

(** [cfg_succ]: add [t] to block [i]'s successors, once; [seen[t] == i + 1] says it
    is there. *)
Definition cfg_succ (i : nat) (st : (nat -> nat) * list nat) (t : nat) : (nat -> nat) * list nat :=
  let '(seen, succ) := st in
  if (seen t =? i + 1)%nat then st
  else ((fun x => if (x =? t)%nat then (i + 1)%nat else seen x), succ ++ [t]).

(** The blocks block [i] of [nbb] goes to, in the order they are added. *)
Definition succ_targets (fn : ir_func) (l2b : Z -> option nat) (nbb i : nat) (s e : nat) : list nat :=
  let next := if (i + 1 <? nbb)%nat then [i + 1]%nat else [] in
  let to l := match l2b l with Some b => [b] | None => [] end in
  if (s <? e)%nat then
    match ins fn !! (e - 1)%nat with
    | Some t =>
        match i_op t with
        | IR_RET | IR_UD2 => []
        | IR_JMP => to (i_label t)
        | IR_BRZ | IR_BRNZ => to (i_label t) ++ next
        | IR_SWITCH =>
            concat (map (fun l => if in_labels fn l then to l else [])
                        (i_label t :: jt fn !!! Z.to_nat (i_jt t)))
        | IR_IGOTO =>
            concat (map (fun l => if taken_lbl fn l then to l else []) (seqZ 0 (nlabels fn)))
        | _ => next
        end
    | None => []
    end
  else [].

Fixpoint succs_from (fn : ir_func) (l2b : Z -> option nat) (nbb i : nat) (sp : list (nat * nat))
    (seen : nat -> nat) : list (list nat) :=
  match sp with
  | [] => []
  | (s, e) :: sp =>
      let '(seen, succ) := foldl (cfg_succ i) (seen, []) (succ_targets fn l2b nbb i s e) in
      succ :: succs_from fn l2b nbb (S i) sp seen
  end.
Definition succs (fn : ir_func) : list (list nat) :=
  succs_from fn (l2b_of fn) (length (spans fn)) 0 (spans fn) (fun _ => O).

(** The predecessors, by source block. *)
Fixpoint preds_from (i : nat) (ss : list (list nat)) (t : nat) : list nat :=
  match ss with
  | [] => []
  | succ :: ss => map (fun _ => i) (filter (fun s => s = t) succ) ++ preds_from (S i) ss t
  end.

Fixpoint blocks_from (ss : list (list nat)) (i : nat) (sp : list (nat * nat)) (sc : list (list nat))
  : list bb :=
  match sp, sc with
  | (s, e) :: sp, succ :: sc => BB s e succ (preds_from 0 ss i) :: blocks_from ss (S i) sp sc
  | _, _ => []
  end.

Definition build_cfg (fn : ir_func) : list bb * (Z -> option nat) :=
  (blocks_from (succs fn) 0 (spans fn) (succs fn), l2b_of fn).

(** ** Searching a predecessor list *)

(** [bb_pred_index]: the interval shrinks each round, so its length is fuel
    enough. *)
Fixpoint pred_search (fuel : nat) (pred : list nat) (p : nat) (lo hi : Z) : Z :=
  match fuel with
  | O => -1
  | S fuel =>
      if lo <=? hi then
        let mid := lo + (hi - lo) / 2 in
        match pred !! Z.to_nat mid with
        | Some x =>
            if (x =? p)%nat then mid
            else if (x <? p)%nat then pred_search fuel pred p (mid + 1) hi
            else pred_search fuel pred p lo (mid - 1)
        | None => -1
        end
      else -1
  end.
Definition bb_pred_index (b : bb) (p : nat) : Z :=
  pred_search (S (length (b_pred b))) (b_pred b) p 0 (Z.of_nat (length (b_pred b)) - 1).

(** ** The worklist *)

(** Pop a block, mark and push what it leads to: the loop of [loop_body], and of
    the reachability in sccp.c. *)
Definition visit (st : (nat -> bool) * list nat) (t : nat) : (nat -> bool) * list nat :=
  let '(seen, stk) := st in
  if seen t then st else ((fun x => if (x =? t)%nat then true else seen x), t :: stk).

Fixpoint search (fuel : nat) (next : nat -> list nat) (st : (nat -> bool) * list nat) : nat -> bool :=
  match st.2, fuel with
  | b :: stk, S fuel => search fuel next (foldl visit (st.1, stk) (next b))
  | _, _ => st.1
  end.

(** [loop_body]: [h], and every block that reaches [tail] without passing [h]. *)
Definition loop_body (bs : list bb) (h tail : nat) : nat -> bool :=
  let inh := fun x => (x =? h)%nat in
  let st := if inh tail then (inh, []) else ((fun x => if (x =? tail)%nat then true else inh x), [tail]) in
  search (length bs) (fun b => default [] (b_pred <$> bs !! b)) st.

(** ** The blocks partition the code *)

(** Ranges one after another, none empty, from [from] to [to]. *)
Fixpoint tiles (from : nat) (sp : list (nat * nat)) (to : nat) : Prop :=
  match sp with
  | [] => from = to
  | (s, e) :: sp => s = from /\ (s < e)%nat /\ tiles e sp to
  end.

Lemma tiles_bounds from sp to k s e : tiles from sp to -> sp !! k = Some (s, e) ->
  (from <= s /\ s < e /\ e <= to)%nat.
Proof.
  revert from k. induction sp as [|[s0 e0] sp IH]; intros from k; simpl; [done|].
  assert (M : forall from sp to, tiles from sp to -> (from <= to)%nat).
  { clear. intros from sp to. revert from. induction sp as [|[s e] sp IH]; intros from; simpl; [lia|].
    intros (-> & ? & ?%IH). lia. }
  intros (-> & L & T). pose proof (M _ _ _ T). destruct k as [|k]; simpl; intros E.
  - simplify_eq. lia.
  - destruct (IH e0 k T E). lia.
Qed.

Lemma tiles_at from sp to n : tiles from sp to -> (from <= n < to)%nat ->
  exists k s e, sp !! k = Some (s, e) /\ (s <= n < e)%nat.
Proof.
  revert from. induction sp as [|[s0 e0] sp IH]; intros from; simpl; [lia|]. intros (-> & L & T) Hn.
  destruct (Nat.lt_ge_cases n e0) as [|G]; [exists O, from, e0; split; [done|lia]|].
  destruct (IH e0 T ltac:(lia)) as (k & s & e & E & H). exists (S k), s, e. done.
Qed.

Lemma tiles_next from sp to k s e : tiles from sp to -> sp !! k = Some (s, e) ->
  match sp !! S k with Some (s', _) => s' = e | None => e = to end.
Proof.
  revert from k. induction sp as [|[s0 e0] sp IH]; intros from k; simpl; [done|]. intros (-> & L & T).
  destruct k as [|k]; simpl; intros E.
  - simplify_eq. destruct sp as [|[s1 e1] sp]; simpl in *; [done | apply T].
  - exact (IH e0 k T E).
Qed.

Lemma tiles_unique from sp to k k' s e s' e' n : tiles from sp to ->
  sp !! k = Some (s, e) -> sp !! k' = Some (s', e') -> (s <= n < e)%nat -> (s' <= n < e')%nat -> k = k'.
Proof.
  revert from k k'. induction sp as [|[s0 e0] sp IH]; intros from k k'; simpl; [done|].
  intros (-> & L & T) E E' Hn Hn'.
  destruct k as [|k], k' as [|k']; simpl in *; [done|..].
  - simplify_eq. destruct (tiles_bounds _ _ _ _ _ _ T E'). lia.
  - simplify_eq. destruct (tiles_bounds _ _ _ _ _ _ T E). lia.
  - f_equal. by eapply IH.
Qed.

Lemma spans_from_tiles prev i ld : (prev < i)%nat -> tiles prev (spans_from prev i ld) (i + length ld).
Proof.
  revert prev i. induction ld as [|b ld IH]; intros prev i L; simpl.
  - rewrite Nat.add_0_r. done.
  - rewrite Nat.add_succ_r, <- Nat.add_succ_l. destruct b; simpl; [split_and!; [done..|]|]; apply IH; lia.
Qed.

(** Inside a range nothing leads. *)
Lemma spans_from_inside prev i ld s e j : (s, e) ∈ spans_from prev i ld ->
  (s < j < e)%nat -> (i <= j)%nat -> ld !! (j - i)%nat = Some false.
Proof.
  revert prev i. induction ld as [|b ld IH]; intros prev i; simpl.
  - intros E%list_elem_of_singleton Hj Hi. simplify_eq. lia.
  - assert (G : forall prev, (s, e) ∈ spans_from prev (S i) ld -> (s < j < e)%nat -> (i <= j)%nat ->
      j <> i -> (b :: ld) !! (j - i)%nat = Some false).
    { intros prev' H Hj Hi N. replace (j - i)%nat with (S (j - S i)) by lia. simpl.
      eapply IH; [done | done | lia]. }
    assert (B : forall prev i s e, (prev < i)%nat -> (s, e) ∈ spans_from prev i ld -> (prev <= s)%nat).
    { intros p i' s' e' L [k Hk]%list_elem_of_lookup.
      destruct (tiles_bounds _ _ _ _ _ _ (spans_from_tiles p i' ld L) Hk). done. }
    destruct b.
    + intros [E|H]%elem_of_cons Hj Hi; [simplify_eq; lia|]. eapply G; try done.
      pose proof (B i (S i) s e ltac:(lia) H). lia.
    + intros H Hj Hi. destruct (decide (j = i)) as [->|]; [by rewrite Nat.sub_diag | by eapply G].
Qed.

Section Blocks.
Context (fn : ir_func).
Let N := length (ins fn).

Lemma leads_lookup prev l n : leads prev l !! n =
  (fun i => (match n with O => prev | S m => default false ((fun j => ends_block (i_op j)) <$> l !! m) end)
            || op_is (i_op i) IR_LABEL) <$> l !! n.
Proof.
  revert prev n. induction l as [|x l IH]; intros prev n; simpl; [done|].
  destruct n as [|n]; simpl; [done|]. rewrite IH. by destruct n.
Qed.

Lemma leads_length prev l : length (leads prev l) = length l.
Proof. revert prev. induction l as [|x l IH]; intros prev; simpl; [done|]. by rewrite IH. Qed.

Lemma spans_tiles : (0 < N)%nat -> tiles 0 (spans fn) N.
Proof.
  intros HN. unfold spans. pose proof (leads_length true (ins fn)) as L. fold (lead fn) in L.
  destruct (lead fn) as [|b ld]; simpl in L; [lia|].
  replace N with (1 + length ld)%nat by (unfold N; lia). apply spans_from_tiles. lia.
Qed.

Lemma spans_inside s e j : (s, e) ∈ spans fn -> (s < j < e)%nat -> lead fn !! j = Some false.
Proof.
  unfold spans. destruct (lead fn) as [|b ld]; [intros E%list_elem_of_singleton Hj; simplify_eq; lia|].
  intros H Hj. replace j with (S (j - 1)) by lia. simpl. eapply spans_from_inside; [done | done | lia].
Qed.

(** Control can enter a block only at its start... *)
Lemma label_starts_block k s e n i : spans fn !! k = Some (s, e) -> (s <= n < e)%nat ->
  ins fn !! n = Some i -> i_op i = IR_LABEL -> n = s.
Proof.
  intros K Hn I O. destruct (decide (n = s)) as [|Ne]; [done|]. exfalso.
  pose proof (spans_inside s e n (list_elem_of_lookup_2 _ _ _ K) ltac:(lia)) as L.
  unfold lead in L. rewrite leads_lookup, I in L. simpl in L. injection L as L.
  apply orb_false_iff in L as [_ L]. unfold op_is in L. by rewrite O in L.
Qed.

(** ... and leave it only at its end. *)
Lemma jump_ends_block k s e n i : spans fn !! k = Some (s, e) -> (s <= n < e)%nat ->
  ins fn !! n = Some i -> ends_block (i_op i) = true -> S n = e.
Proof.
  intros K Hn I O. destruct (decide (S n = e)) as [|Ne]; [done|]. exfalso.
  pose proof (spans_inside s e (S n) (list_elem_of_lookup_2 _ _ _ K) ltac:(lia)) as L.
  unfold lead in L. rewrite leads_lookup in L. destruct (ins fn !! S n); [|done]. simpl in L.
  rewrite I in L. simpl in L. rewrite O in L. done.
Qed.
End Blocks.

(** ** Labels and edges *)

(** Labels are numbers the function has, each placed once. *)
Definition labels_ok (fn : ir_func) : Prop :=
  Forall (fun i => i_op i = IR_LABEL -> in_labels fn (i_label i) = true) (ins fn) /\
  NoDup (map i_label (filter (fun i => i_op i = IR_LABEL) (ins fn))).
#[export] Instance labels_ok_dec fn : Decision (labels_ok fn).
Proof. unfold labels_ok. apply _. Defined.

Lemma label_from_spec l n code m : label_from l n code = Some m ->
  (n <= m)%nat /\ exists i, code !! (m - n)%nat = Some i /\ i_op i = IR_LABEL /\ i_label i = l.
Proof.
  revert n. induction code as [|i code IH]; intros n; simpl; [done|].
  unfold op_is at 1. destruct (bool_decide_reflect (i_op i = IR_LABEL)) as [O|]; simpl.
  - destruct (Z.eqb_spec (i_label i) l) as [E|].
    + intros [= <-]. split; [done|]. exists i. by rewrite Nat.sub_diag.
    + intros (L & j & J & H)%IH. split; [lia|]. exists j.
      replace (m - n)%nat with (S (m - S n)) by lia. done.
  - intros (L & j & J & H)%IH. split; [lia|]. exists j.
    replace (m - n)%nat with (S (m - S n)) by lia. done.
Qed.

Lemma label_pos_spec fn l m : label_pos fn l = Some m ->
  exists i, ins fn !! m = Some i /\ i_op i = IR_LABEL /\ i_label i = l.
Proof. intros (_ & H)%label_from_spec. by rewrite Nat.sub_0_r in H. Qed.

Lemma labels_unique fn p q i j : labels_ok fn -> ins fn !! p = Some i -> ins fn !! q = Some j ->
  i_op i = IR_LABEL -> i_op j = IR_LABEL -> i_label i = i_label j -> p = q.
Proof.
  intros [_ ND]. revert p q. induction (ins fn) as [|x l IH]; intros p q I J Oi Oj E; [done|].
  rewrite filter_cons in ND. case_decide as Ox.
  - simpl in ND. apply NoDup_cons in ND as [Hx ND].
    assert (Hin : forall k y, l !! k = Some y -> i_op y = IR_LABEL -> i_label y <> i_label x).
    { intros k y Hy Oy Ey. apply Hx. rewrite <- Ey. apply list_elem_of_fmap_2.
      apply list_elem_of_filter. split; [done|]. by eapply list_elem_of_lookup_2. }
    destruct p as [|p], q as [|q]; simpl in *; simplify_eq; [done|..].
    + by destruct (Hin q j J Oj).
    + by destruct (Hin p i I Oi).
    + f_equal. by apply IH.
  - destruct p as [|p], q as [|q]; simpl in *; simplify_eq; try done. f_equal. by apply IH.
Qed.

Lemma label_from_complete l n code p i : code !! p = Some i -> i_op i = IR_LABEL -> i_label i = l ->
  is_Some (label_from l n code).
Proof.
  revert n p. induction code as [|x code IH]; intros n p; simpl; [done|]. intros P O E.
  destruct (op_is (i_op x) IR_LABEL && (i_label x =? l)) eqn:B; [by eexists|].
  destruct p as [|p]; simpl in P; [|by eapply IH]. simplify_eq. unfold op_is in B.
  rewrite O, Z.eqb_refl in B. done.
Qed.

Lemma label_pos_unique fn p i : labels_ok fn -> ins fn !! p = Some i -> i_op i = IR_LABEL ->
  label_pos fn (i_label i) = Some p.
Proof.
  intros Hl I O. destruct (label_from_complete (i_label i) 0 (ins fn) p i I O eq_refl) as [m Hm].
  unfold label_pos. rewrite Hm. f_equal. destruct (label_pos_spec fn _ m Hm) as (j & J & Oj & Ej).
  by eapply (labels_unique fn m p j i).
Qed.

Section Edges.
Context (fn : ir_func) (Hl : labels_ok fn).

Lemma label_blocks_keep b sp m l : (forall k s e i, sp !! k = Some (s, e) -> ins fn !! s = Some i ->
    i_op i = IR_LABEL -> i_label i <> l) -> label_blocks fn b sp m l = m l.
Proof.
  revert b m. induction sp as [|[s e] sp IH]; intros b m H; simpl; [done|].
  rewrite IH by (intros k; apply (H (S k))). destruct (ins fn !! s) as [i|] eqn:I; [|done].
  destruct (s <? e)%nat; simpl; [|done]. unfold op_is. case_bool_decide as O; [|done].
  unfold upd. destruct (Z.eqb_spec l (i_label i)) as [E|]; [|done]. by destruct (H 0%nat s e i eq_refl I O).
Qed.

(** A label's block is the one it opens. *)
Lemma l2b_label k s e i : spans fn !! k = Some (s, e) -> (s < e)%nat -> ins fn !! s = Some i ->
  i_op i = IR_LABEL -> (forall k' s' e', spans fn !! k' = Some (s', e') -> s' = s -> k' = k) ->
  l2b_of fn (i_label i) = Some k.
Proof using Hl.
  intros K L I O U. unfold l2b_of.
  assert (G : forall sp b m j, sp !! j = Some (s, e) ->
    (forall j' s' e', sp !! j' = Some (s', e') -> s' = s -> j' = j) ->
    label_blocks fn b sp m (i_label i) = Some (b + j)%nat).
  { induction sp as [|[s0 e0] sp IH]; intros b m j E Uj; simpl; [done|]. destruct j as [|j]; simpl in E.
    - simplify_eq. rewrite I. rewrite (proj2 (Nat.ltb_lt s e) L). unfold op_is. rewrite O. simpl.
      rewrite label_blocks_keep.
      + unfold upd. rewrite Z.eqb_refl. f_equal. lia.
      + intros k' s' e' i' K' I' O' El. assert (s' = s) as -> by (eapply (labels_unique fn); done).
        pose proof (Uj (S k') s e' K' eq_refl). lia.
    - rewrite (IH _ _ j E); [f_equal; lia|]. intros j' s' e' E' Es.
      pose proof (Uj (S j') s' e' E' Es). lia. }
  rewrite (G (spans fn) 0%nat _ k K); [done|]. done.
Qed.

Lemma label_block l m : label_pos fn l = Some m -> exists k e,
  l2b_of fn l = Some k /\ spans fn !! k = Some (m, e) /\ (m < e)%nat /\ in_labels fn l = true.
Proof using Hl.
  intros (i & I & O & <-)%label_pos_spec. pose proof (lookup_lt_Some _ _ _ I) as Lt.
  pose proof (spans_tiles fn ltac:(lia)) as T.
  destruct (tiles_at _ _ _ m T ltac:(lia)) as (k & s & e & K & Hm).
  assert (m = s) as -> by (by eapply label_starts_block).
  exists k, e. split_and!; try done; [|lia|].
  - eapply l2b_label; try done; [lia|]. intros k' s' e' K' ->.
    pose proof (tiles_bounds _ _ _ _ _ _ T K'). eapply (tiles_unique _ _ _ _ _ _ _ _ _ s T); [done|done|lia|lia].
  - destruct Hl as [F _]. exact (Forall_lookup_1 _ _ _ _ F I O).
Qed.

(** *** Successors, once each *)

Fixpoint once (acc ts : list nat) : list nat :=
  match ts with
  | [] => acc
  | t :: ts => once (if bool_decide (t ∈ acc) then acc else acc ++ [t]) ts
  end.

Lemma cfg_succ_once i seen acc ts :
  (forall t, seen t = (i + 1)%nat <-> t ∈ acc) -> (forall t, seen t <= i + 1)%nat ->
  let r := foldl (cfg_succ i) (seen, acc) ts in
  r.2 = once acc ts /\ (forall t, r.1 t <= i + 1)%nat.
Proof.
  revert seen acc. induction ts as [|t ts IH]; intros seen acc Hs Hb; cbn [foldl once]; [done|].
  unfold cfg_succ at 2 4. destruct (Nat.eqb_spec (seen t) (i + 1)) as [E|E].
  - rewrite bool_decide_true by (by apply Hs). by apply IH.
  - rewrite bool_decide_false by (by rewrite <- Hs). apply IH.
    + intros x. rewrite elem_of_app, list_elem_of_singleton, <- Hs.
      destruct (Nat.eqb_spec x t); intuition congruence.
    + intros x. destruct (Nat.eqb_spec x t); [lia | apply Hb].
Qed.

Lemma once_In acc ts t : t ∈ once acc ts <-> t ∈ acc \/ t ∈ ts.
Proof.
  revert acc. induction ts as [|x ts IH]; intros acc; simpl; [rewrite elem_of_nil; tauto|].
  rewrite IH, elem_of_cons. case_bool_decide as H.
  - split; [tauto|]. intros [|[->|]]; auto.
  - rewrite elem_of_app, list_elem_of_singleton. tauto.
Qed.

Lemma once_prefix acc ts : acc `prefix_of` once acc ts.
Proof.
  revert acc. induction ts as [|x ts IH]; intros acc; simpl; [done|].
  case_bool_decide; [apply IH|]. etrans; [|apply IH]. by apply prefix_app_r.
Qed.

Lemma once_NoDup acc ts : NoDup acc -> NoDup (once acc ts).
Proof.
  revert acc. induction ts as [|x ts IH]; intros acc H; simpl; [done|]. apply IH.
  case_bool_decide; [done|]. apply NoDup_app. split_and!; [done | | apply NoDup_singleton].
  intros y Hy ->%list_elem_of_singleton. done.
Qed.

Lemma succs_from_lookup l2b nbb i sp seen k s e : (forall t, seen t <= i)%nat ->
  sp !! k = Some (s, e) ->
  succs_from fn l2b nbb i sp seen !! k = Some (once [] (succ_targets fn l2b nbb (i + k) s e)).
Proof.
  revert i seen k. induction sp as [|[s0 e0] sp IH]; intros i seen k Hs E; [done|]. simpl.
  pose proof (cfg_succ_once i seen [] (succ_targets fn l2b nbb i s0 e0)) as C.
  destruct (foldl _ _ _) as [seen' succ]. destruct C as [Ec B].
  { intros t. pose proof (Hs t). split; [lia | by intros ?%elem_of_nil]. }
  { intros t. pose proof (Hs t). lia. }
  simpl in Ec, B. subst succ.
  destruct k as [|k]; simpl in *.
  - simplify_eq. by rewrite Nat.add_0_r.
  - rewrite (IH (S i)); [by rewrite Nat.add_succ_r | | done]. intros t. pose proof (B t). lia.
Qed.

Lemma succs_lookup k s e : spans fn !! k = Some (s, e) ->
  succs fn !! k = Some (once [] (succ_targets fn (l2b_of fn) (length (spans fn)) k s e)).
Proof. intros K. unfold succs. rewrite (succs_from_lookup _ _ _ _ _ k s e) by (done || lia). done. Qed.

Lemma succs_from_length l2b nbb i sp seen : length (succs_from fn l2b nbb i sp seen) = length sp.
Proof.
  revert i seen. induction sp as [|[s e] sp IH]; intros i seen; simpl; [done|].
  destruct (foldl _ _ _). simpl. by rewrite IH.
Qed.

(** The successors of block [k]. *)
Definition succ_of (k : nat) : list nat := default [] (succs fn !! k).

Lemma succ_of_In k s e t : spans fn !! k = Some (s, e) ->
  t ∈ succ_of k <-> t ∈ succ_targets fn (l2b_of fn) (length (spans fn)) k s e.
Proof.
  intros K. unfold succ_of. rewrite (succs_lookup k s e K). simpl. rewrite once_In, elem_of_nil. tauto.
Qed.
End Edges.

(** ** Executions go along the edges *)

Section Steps.
Context {M : Machine}.
Context (fn : ir_func) (Hl : labels_ok fn).
Context (Hig : forall x l, igoto x = Some l -> l ∈ taken_labels fn).
Context (Heh : eh fn = []).

Lemma taken_lbl_spec l : in_labels fn l = true -> l ∈ taken_labels fn -> taken_lbl fn l = true.
Proof.
  intros R (i & -> & (O & Hi)%list_elem_of_filter)%list_elem_of_fmap. unfold taken_lbl.
  apply existsb_exists. exists i. split; [by apply list_elem_of_In|]. unfold op_is.
  rewrite bool_decide_true, R, Z.eqb_refl by done. done.
Qed.

(** The fall-through out of a block's last instruction. *)
Lemma fall_edge k s e i : spans fn !! k = Some (s, e) -> ins fn !! (e - 1)%nat = Some i -> falls i = true ->
  (e < length (ins fn))%nat -> S k ∈ succ_of fn k /\ exists e', spans fn !! S k = Some (e, e').
Proof.
  intros K I Fa He. pose proof (lookup_lt_Some _ _ _ I) as Lt.
  pose proof (spans_tiles fn ltac:(lia)) as T. pose proof (tiles_bounds _ _ _ _ _ _ T K) as B.
  pose proof (tiles_next _ _ _ _ _ _ T K) as Nx.
  destruct (spans fn !! S k) as [[s' e']|] eqn:K'; [|lia]. subst s'. split; [|eauto].
  apply (succ_of_In fn k s e); [done|]. unfold succ_targets. rewrite I.
  rewrite (proj2 (Nat.ltb_lt s e)) by lia.
  assert (Hn : (if (k + 1 <? length (spans fn))%nat then [(k + 1)%nat] else []) = [S k]).
  { apply lookup_lt_Some in K'. rewrite (proj2 (Nat.ltb_lt _ _)) by lia. f_equal. lia. }
  rewrite Hn. unfold falls in Fa. destruct (i_op i); try done; try (by left);
    apply elem_of_app; right; by left.
Qed.

Lemma goto_ends i l : l ∈ goto_labels fn i -> ends_block (i_op i) = true.
Proof. unfold goto_labels. destruct (i_op i); try done; by intros ?%elem_of_nil. Qed.

(** A jump out of a block's last instruction. *)
Lemma goto_edge k s e i l m : spans fn !! k = Some (s, e) -> (s < e)%nat -> ins fn !! (e - 1)%nat = Some i ->
  l ∈ goto_labels fn i -> label_pos fn l = Some m ->
  exists k' e', k' ∈ succ_of fn k /\ spans fn !! k' = Some (m, e') /\ l2b_of fn l = Some k'.
Proof using Hl.
  intros K L I G P. destruct (label_block fn Hl l m P) as (k' & e' & B & K' & _ & R).
  exists k', e'. split_and!; try done. apply (succ_of_In fn k s e); [done|]. unfold succ_targets.
  rewrite I, (proj2 (Nat.ltb_lt s e)) by done.
  assert (Cc : forall (g : Z -> bool) ls, l ∈ ls -> g l = true ->
    k' ∈ concat (map (fun l => if g l then match l2b_of fn l with Some b => [b] | None => [] end else []) ls)).
  { intros g ls Hls Hg. apply list_elem_of_In, in_concat. exists [k']. split; [|by left].
    apply in_map_iff. exists l. rewrite Hg, B. split; [done | by apply list_elem_of_In]. }
  unfold goto_labels in G. destruct (i_op i) eqn:O; try (by apply elem_of_nil in G).
  - apply list_elem_of_singleton in G as ->. rewrite B. by left.
  - apply list_elem_of_singleton in G as ->. rewrite B. by left.
  - apply list_elem_of_singleton in G as ->. rewrite B. by left.
  - apply Cc; [|by apply taken_lbl_spec]. apply elem_of_seqZ. unfold in_labels in R. lia.
  - by apply Cc.
Qed.

(** Where a step of the code in block [k] goes. *)
Definition along_edge (k n : nat) (s e : nat) (f : flow) : Prop :=
  match f with
  | Fall _ _ => (S n < e)%nat \/
      (S n = e /\ ((e < length (ins fn))%nat -> S k ∈ succ_of fn k /\ exists e', spans fn !! S k = Some (e, e')))
  | Goto l _ _ => forall m, label_pos fn l = Some m ->
      S n = e /\ exists k' e', k' ∈ succ_of fn k /\ spans fn !! k' = Some (m, e') /\ l2b_of fn l = Some k'
  | _ => True
  end.

Lemma exec1_edge k s e n i en w : spans fn !! k = Some (s, e) -> (s <= n < e)%nat ->
  ins fn !! n = Some i -> along_edge k n s e (exec1 fn i en w).
Proof using Hl Hig Heh.
  intros K Hn I. pose proof (exec1_path fn Hig i en w) as P.
  destruct (exec1 fn i en w) as [e' w'|l e' w'|o w'|]; simpl in *; try done.
  - destruct P as [Fa _]. destruct (decide (S n = e)) as [E|]; [right|left; lia]. split; [done|].
    apply (fall_edge k s e i); [done | | done]. by rewrite <- E, Nat.sub_1_r.
  - destruct P as [[G|U] _]; intros m Lm.
    + pose proof (jump_ends_block fn k s e n i K Hn I (goto_ends _ _ G)) as E. split; [done|].
      apply (goto_edge k s e i l m); try done; [lia|]. by rewrite <- E, Nat.sub_1_r.
    + unfold unwind_label in U. rewrite Heh in U. by destruct (_ <=? 0).
Qed.
End Steps.

(** ** The worklist marks what can be reached *)

Section Search.
Context (next : nat -> list nat) (nb : nat).
Context (Hnext : forall b t, t ∈ next b -> (t < nb)%nat).

Definition unseen (seen : nat -> bool) : nat := length (filter (fun x => seen x = false) (seq 0 nb)).

Lemma unseen_mark seen t : (t < nb)%nat -> seen t = false ->
  unseen seen = S (unseen (fun x => if (x =? t)%nat then true else seen x)).
Proof.
  intros Ht Hs. apply (filter_remove t); [apply NoDup_seq | apply elem_of_seq; lia | done | |].
  - by rewrite Nat.eqb_refl.
  - intros y Hy. by destruct (Nat.eqb_spec y t).
Qed.

Lemma unseen_ext seen seen' : (forall x, seen x = seen' x) -> unseen seen = unseen seen'.
Proof. intros E. unfold unseen. f_equal. apply filter_ext_in. intros x _. by rewrite E. Qed.

Lemma unseen_all : unseen (fun _ => false) = nb.
Proof.
  unfold unseen. rewrite <- (length_seq nb 0) at 2. f_equal. induction (seq 0 nb) as [|y l IH]; [done|].
  rewrite filter_cons, decide_True by done. by rewrite IH.
Qed.

Lemma visits_spec ts seen stk : (forall t, t ∈ ts -> (t < nb)%nat) ->
  let r := foldl visit (seen, stk) ts in
  (forall x, r.1 x = true <-> seen x = true \/ x ∈ ts) /\
  (forall x, x ∈ r.2 <-> x ∈ stk \/ (x ∈ ts /\ seen x = false)) /\
  (unseen r.1 + length r.2 = unseen seen + length stk)%nat.
Proof.
  revert seen stk. induction ts as [|t ts IH]; intros seen stk Ht; cbn [foldl].
  - split_and!; [| |done]; intros x; rewrite elem_of_nil; tauto.
  - unfold visit at 2 4 6 8. destruct (seen t) eqn:St.
    + destruct (IH seen stk) as (A & B & C); [intros; apply Ht; by right|].
      split_and!; [| |done]; intros x; rewrite ?A, ?B, elem_of_cons.
      * split; [intros [|]; auto | intros [|[->|]]; auto].
      * split; [intros [|[? ?]]; auto | intros [|[[->|] ?]]; auto; congruence].
    + set (seen1 := fun x => if (x =? t)%nat then true else seen x).
      destruct (IH seen1 (t :: stk)) as (A & B & C); [intros; apply Ht; by right|].
      split_and!.
      * intros x. rewrite A, elem_of_cons. unfold seen1. destruct (Nat.eqb_spec x t); intuition congruence.
      * intros x. rewrite B, !elem_of_cons. unfold seen1. destruct (Nat.eqb_spec x t); intuition congruence.
      * rewrite C, (unseen_mark seen t) by (done || apply Ht; by left). fold seen1. simpl. lia.
Qed.

Context (seen0 : nat -> bool) (stk0 : list nat) (Hstk : forall x, x ∈ stk0 -> seen0 x = true).

(** What the search is to mark: the start, and what can be reached from it through
    blocks that were on the stack or not yet marked. *)
Inductive visited : nat -> Prop :=
  | visited_start x : seen0 x = true -> visited x
  | visited_next y x : visited y -> seen0 y = false \/ y ∈ stk0 -> x ∈ next y -> visited x.

Record searching (seen : nat -> bool) (stk : list nat) : Prop := {
  sr_sound x : seen x = true -> visited x;
  sr_start x : seen0 x = true -> seen x = true;
  sr_stk x : x ∈ stk -> seen x = true /\ (seen0 x = false \/ x ∈ stk0);
  sr_done x t : seen x = true -> x ∉ stk -> seen0 x = false \/ x ∈ stk0 -> t ∈ next x -> seen t = true }.

Lemma search_spec fuel seen stk : (unseen seen + length stk <= fuel)%nat -> searching seen stk ->
  forall x, search fuel next (seen, stk) x = true <-> visited x.
Proof using Hnext Hstk.
  revert seen stk. induction fuel as [|fuel IH]; intros seen stk Hf Hs.
  - destruct stk as [|b stk]; [|simpl in Hf; lia]. simpl. intros x. split; [apply Hs|].
    induction 1 as [x Hx|y x _ IHy Hy Hx]; [by apply Hs|].
    eapply (sr_done _ _ Hs y); [done | by apply not_elem_of_nil | done | done].
  - destruct stk as [|b stk]; simpl.
    { intros x. split; [apply Hs|]. induction 1 as [x Hx|y x _ IHy Hy Hx]; [by apply Hs|].
      eapply (sr_done _ _ Hs y); [done | by apply not_elem_of_nil | done | done]. }
    destruct (visits_spec (next b) seen stk (Hnext b)) as (A & B & C).
    destruct (foldl visit (seen, stk) (next b)) as [seen' stk']. simpl in *. apply IH; [lia|].
    destruct (sr_stk _ _ Hs b ltac:(by left)) as [Sb Ob]. split.
    + intros x [Hx|Hx]%A; [by apply Hs|]. eapply visited_next; [by apply Hs | done | done].
    + intros x Hx. apply A. left. by apply Hs.
    + intros x [Hx|[Hx Hn]]%B.
      * destruct (sr_stk _ _ Hs x ltac:(by right)). split; [apply A; by left | done].
      * split; [apply A; by right|]. left. destruct (seen0 x) eqn:E; [|done].
        apply (sr_start _ _ Hs) in E. congruence.
    + intros x t Hx Nx Ox Ht. apply A. destruct (decide (x = b)) as [->|N]; [by right|].
      rewrite B in Nx. apply A in Hx as [Hx|Hx].
      * left. eapply (sr_done _ _ Hs x); try done. intros [|]%elem_of_cons; tauto.
      * destruct (seen x) eqn:Sx; [|tauto]. left. eapply (sr_done _ _ Hs x); try done.
        intros [|]%elem_of_cons; tauto.
Qed.

Lemma searching_start : searching seen0 stk0.
Proof using Hstk.
  split; [intros x Hx; by constructor | done | intros x Hx; split; [by apply Hstk | by right]|].
  intros x t Hx Nx [E|E]; [congruence | done].
Qed.
End Search.

(** ** Predecessors *)

Lemma preds_from_In i ss t j : j ∈ preds_from i ss t <-> exists k, j = (i + k)%nat /\ t ∈ default [] (ss !! k).
Proof.
  revert i. induction ss as [|sc ss IH]; intros i; simpl.
  - rewrite elem_of_nil. split; [done|]. intros (k & _ & H). by apply elem_of_nil in H.
  - rewrite elem_of_app, IH. split.
    + intros [(s & -> & (-> & Hs)%list_elem_of_filter)%list_elem_of_fmap|(k & -> & H)].
      * exists O. split; [lia | done].
      * exists (S k). split; [lia | done].
    + intros ([|k] & -> & H); simpl in H.
      * left. rewrite Nat.add_0_r. apply list_elem_of_fmap. exists t. split; [done|].
        by apply list_elem_of_filter.
      * right. exists k. split; [lia | done].
Qed.

(** Once each, in increasing order. *)
Definition increasing (l : list nat) : Prop :=
  forall a b x y, l !! a = Some x -> l !! b = Some y -> (a < b)%nat -> (x < y)%nat.

Lemma preds_from_increasing i ss t : Forall (fun sc => NoDup sc) ss -> increasing (preds_from i ss t).
Proof.
  intros F. revert i. induction F as [|sc ss ND F IH]; intros i; simpl; [by intros a|].
  assert (One : map (fun _ => i) (filter (fun s => s = t) sc) = [] \/
                map (fun _ => i) (filter (fun s => s = t) sc) = [i]).
  { clear -ND. induction ND as [|x l Hx ND IH]; [by left|]. rewrite filter_cons. case_decide as E; [|done].
    subst x. right. simpl. f_equal. destruct (filter (fun s => s = t) l) as [|y l'] eqn:E; [done|].
    assert (Hy : y ∈ filter (fun s => s = t) l) by (rewrite E; by left).
    apply list_elem_of_filter in Hy as [-> Hy]. done. }
  destruct One as [-> | ->]; [apply IH|]. intros a b x y Ha Hb L.
  destruct b as [|b]; [lia|]. simpl in Hb. destruct a as [|a]; simpl in Ha.
  - simplify_eq. apply list_elem_of_lookup_2, preds_from_In in Hb as (k & -> & _). lia.
  - eapply (IH (S i) a b); [done | done | lia].
Qed.

(** ** Binary search *)

Lemma pred_search_spec fuel pred p lo hi : increasing pred ->
  0 <= lo -> hi < Z.of_nat (length pred) -> (Z.to_nat (hi - lo + 1) < fuel)%nat ->
  let r := pred_search fuel pred p lo hi in
  (0 <= r -> pred !! Z.to_nat r = Some p) /\ -1 <= r /\
  (r = -1 -> forall k, lo <= Z.of_nat k <= hi -> pred !! k <> Some p).
Proof.
  intros Inc. revert lo hi. induction fuel as [|fuel IH]; intros lo hi Hlo Hhi Hf; [lia|]. simpl.
  destruct (Z.leb_spec lo hi) as [L|L]; [|split_and!; [lia | lia | intros _ k Hk; lia]].
  set (mid := lo + (hi - lo) / 2).
  assert (Hm : lo <= mid <= hi) by (subst mid; pose proof (Z.div_pos (hi - lo) 2); pose proof (Z.div_le_upper_bound (hi - lo) 2 (hi - lo)); lia).
  destruct (lookup_lt_is_Some_2 pred (Z.to_nat mid)) as [x Hx]; [lia|]. rewrite Hx.
  destruct (Nat.eqb_spec x p) as [->|N]; [split_and!; [done | lia | lia]|].
  destruct (Nat.ltb_spec x p) as [G|G].
  - destruct (IH (mid + 1) hi) as (A & B & C); [lia | lia | lia|]. split_and!; [done | done|].
    intros R k Hk E. destruct (Z.le_gt_cases (mid + 1) (Z.of_nat k)) as [K|K]; [apply (C R k); [lia | done]|].
    destruct (decide (k = Z.to_nat mid)) as [->|]; [congruence|].
    pose proof (Inc k (Z.to_nat mid) p x E Hx ltac:(lia)). lia.
  - destruct (IH lo (mid - 1)) as (A & B & C); [lia | lia | lia|]. split_and!; [done | done|].
    intros R k Hk E. destruct (Z.le_gt_cases (Z.of_nat k) (mid - 1)) as [K|K]; [apply (C R k); [lia | done]|].
    destruct (decide (k = Z.to_nat mid)) as [->|]; [congruence|].
    pose proof (Inc (Z.to_nat mid) k x p Hx E ltac:(lia)). lia.
Qed.

(** ** The graph *)

Lemma blocks_from_lookup ss i sp sc k : length sc = length sp ->
  blocks_from ss i sp sc !! k =
    match sp !! k, sc !! k with
    | Some (s, e), Some succ => Some (BB s e succ (preds_from 0 ss (i + k)))
    | _, _ => None
    end.
Proof.
  revert i k sc. induction sp as [|[s e] sp IH]; intros i k sc Ln; destruct sc as [|succ sc]; simpl in *; try done.
  destruct k as [|k]; simpl; [by rewrite Nat.add_0_r|].
  rewrite IH by lia. by rewrite Nat.add_succ_r.
Qed.

Lemma build_cfg_lookup fn k : (build_cfg fn).1 !! k =
  match spans fn !! k with
  | Some (s, e) => Some (BB s e (succ_of fn k) (preds_from 0 (succs fn) k))
  | None => None
  end.
Proof.
  unfold build_cfg. simpl. rewrite blocks_from_lookup by apply succs_from_length.
  destruct (spans fn !! k) as [[s e]|] eqn:K; [|done]. unfold succ_of.
  by rewrite (succs_lookup fn k s e K).
Qed.

Lemma succs_NoDup fn : Forall (fun sc => NoDup sc) (succs fn).
Proof.
  apply Forall_lookup. intros k sc E. pose proof (lookup_lt_Some _ _ _ E) as L.
  unfold succs in L. rewrite succs_from_length in L. destruct (lookup_lt_is_Some_2 _ _ L) as [[s e] K].
  rewrite (succs_lookup fn k s e K) in E. simplify_eq. apply once_NoDup, NoDup_nil_2.
Qed.

Lemma build_cfg_preds fn k b : (build_cfg fn).1 !! k = Some b ->
  forall j, j ∈ b_pred b <-> exists b', (build_cfg fn).1 !! j = Some b' /\ k ∈ b_succ b'.
Proof.
  intros B. rewrite build_cfg_lookup in B. destruct (spans fn !! k) as [[s e]|]; [|done]. simplify_eq.
  simpl. intros j. rewrite preds_from_In. setoid_rewrite build_cfg_lookup. split.
  - intros (j' & -> & Hj). simpl. fold (succ_of fn j') in Hj.
    destruct (spans fn !! j') as [[s' e']|] eqn:J; [by eexists|].
    unfold succ_of in Hj. replace (succs fn !! j') with (@None (list nat)) in Hj; [by apply elem_of_nil in Hj|].
    symmetry. apply lookup_ge_None. unfold succs. rewrite succs_from_length. by apply lookup_ge_None.
  - intros (b' & B' & Hj). destruct (spans fn !! j) as [[s' e']|]; [|done]. simplify_eq. by exists j.
Qed.


(** The binary search of a predecessor list finds what a scan would: the
    index it returns holds the block, and it returns -1 only when no index does. *)
Theorem bb_pred_index_correct (fn : ir_func) (k : nat) (b : bb) (p : nat) :
  (build_cfg fn).1 !! k = Some b ->
  (0 <= bb_pred_index b p /\ b_pred b !! Z.to_nat (bb_pred_index b p) = Some p) \/
  (bb_pred_index b p = -1 /\ p ∉ b_pred b).
Proof.
  intros B. rewrite build_cfg_lookup in B. destruct (spans fn !! k) as [[s e]|]; [|done].
  injection B as <-. unfold bb_pred_index. cbn [b_pred].
  set (l := preds_from 0 (succs fn) k).
  pose proof (pred_search_spec (S (length l)) l p 0 (Z.of_nat (length l) - 1)
    (preds_from_increasing 0 _ k (succs_NoDup fn)) ltac:(lia) ltac:(lia) ltac:(lia)) as H. cbv zeta in H.
  revert H. generalize (pred_search (S (length l)) l p 0 (Z.of_nat (length l) - 1)) as r.
  intros r (A & B & C). destruct (Z.le_gt_cases 0 r) as [G|G]; [left; auto|].
  right. split; [lia|]. intros [j Hj]%list_elem_of_lookup.
  apply (C ltac:(lia) j); [|done]. apply lookup_lt_Some in Hj. lia.
Qed.

Lemma bb_pred_index_correct_witness :
  let fn := Fn 0 0 1 1 [] [set_op IR_LABEL (set_label 0 ins_blank); set_label 0 (set_op IR_BRZ (set_a 0 ins_blank));
                           set_label 0 (set_op IR_JMP ins_blank)] [] None [] in
  exists b, (build_cfg fn).1 !! 0%nat = Some b /\ bb_pred_index b 1 = 1 /\
  ((0 <= bb_pred_index b 1 /\ b_pred b !! Z.to_nat (bb_pred_index b 1) = Some 1%nat) \/
   (bb_pred_index b 1 = -1 /\ 1%nat ∉ b_pred b)).
Proof.
  intros fn. assert (B : (build_cfg fn).1 !! 0%nat = Some (BB 0 2 [0; 1]%nat [0; 1]%nat)) by (vm_compute; reflexivity).
  exists (BB 0 2 [0; 1]%nat [0; 1]%nat). split; [exact B|]. split; [vm_compute; reflexivity|].
  exact (bb_pred_index_correct fn 0 _ 1 B).
Defined.


(** ** Natural loops *)

(** [loop_body] marks the natural loop of a back edge: the header, the tail and
    every block that reaches the tail along edges without passing the header --
    those and no others, in as many rounds as there are blocks. *)
Theorem loop_body_correct (fn : ir_func) (h tail : nat) :
  let bs := (build_cfg fn).1 in
  (h < length bs)%nat -> (tail < length bs)%nat ->
  forall x, loop_body bs h tail x = true <->
    x = h \/ rtc (fun y p => y <> h /\ exists b, bs !! y = Some b /\ p ∈ b_pred b) tail x.
Proof.
  intros bs Hh Ht x. unfold loop_body.
  set (next := fun b => default [] (b_pred <$> bs !! b)).
  assert (Nx : forall b t, t ∈ next b <-> exists b', bs !! b = Some b' /\ t ∈ b_pred b').
  { intros b t. unfold next. destruct (bs !! b) as [b'|]; simpl.
    - split; [eauto | by intros (? & [= <-] & ?)].
    - split; [by intros ?%elem_of_nil | by intros (? & ? & _)]. }
  assert (Hn : forall b t, t ∈ next b -> (t < length bs)%nat).
  { intros b t (b' & B & Hb)%Nx. apply (build_cfg_preds fn b b' B) in Hb as (b2 & B2 & _).
    by apply lookup_lt_Some in B2. }
  destruct (Nat.eqb_spec tail h) as [->|N].
  { replace (search (length bs) next (fun x => (x =? h)%nat, [])) with (fun x => (x =? h)%nat)
      by (by destruct (length bs)).
    rewrite Nat.eqb_eq. split; [by left|]. intros [|R]; [done|].
    destruct (rtc_inv _ _ R) as [|(y & [? _] & _)]; done. }
  set (seen0 := fun x => if (x =? tail)%nat then true else (x =? h)%nat).
  assert (S0 : forall y, seen0 y = true <-> y = tail \/ y = h)
    by (intros y; unfold seen0; destruct (Nat.eqb_spec y tail), (Nat.eqb_spec y h); intuition congruence).
  rewrite (search_spec next (length bs) Hn seen0 [tail]).
  - split.
    + induction 1 as [y [->| ->]%S0|y z _ IH Hy Hz]; [by right | by left|]. right.
      assert (y <> h) as Ny.
      { intros ->. destruct Hy as [Hy|Hy%list_elem_of_singleton]; [|done].
        rewrite (proj2 (S0 h)) in Hy; [done | by right]. }
      destruct IH as [|R]; [done|]. eapply rtc_r; [exact R|]. split; [done | by apply Nx].
    + intros [->|R]; [apply visited_start, S0; by right|].
      revert x R. apply (rtc_ind_r _ tail); [apply visited_start, S0; by left|].
      intros y z R [Ny Hz] IH. eapply visited_next; [exact IH | | by apply Nx]. destruct (seen0 y) eqn:E; [|by left].
      apply S0 in E as [->|]; [right; by left | done].
  - intros y ->%list_elem_of_singleton. apply S0. by left.
  - pose proof (unseen_all (length bs)) as U.
    rewrite (unseen_mark (length bs) _ h Hh) in U by done.
    rewrite (unseen_mark (length bs) _ tail Ht) in U by (by destruct (Nat.eqb_spec tail h)).
    rewrite (unseen_ext (length bs) _ seen0) in U; [simpl; lia|].
    intros y. unfold seen0. by destruct (Nat.eqb_spec y tail), (Nat.eqb_spec y h).
  - apply searching_start. intros y ->%list_elem_of_singleton. apply S0. by left.
Qed.

Lemma loop_body_correct_witness :
  let fn := Fn 0 0 1 1 [] [set_op IR_LABEL (set_label 0 ins_blank); set_label 0 (set_op IR_BRZ (set_a 0 ins_blank));
                           set_label 0 (set_op IR_JMP ins_blank)] [] None [] in
  loop_body (build_cfg fn).1 0 1 1 = true <->
  (1 = 0)%nat \/ rtc (fun y p => y <> 0%nat /\ exists b, (build_cfg fn).1 !! y = Some b /\ p ∈ b_pred b) 1%nat 1%nat.
Proof. intros fn. apply (loop_body_correct fn 0 1); vm_compute; lia. Defined.

(** ** Executions *)


Definition spin : ir_func :=
  Fn 0 0 1 1 [] [set_op IR_LABEL (set_label 0 ins_blank); set_label 0 (set_op IR_JMP ins_blank)] [] None [].

