(* ===== verification/Fold.v ===== *)
(** * The folder's arithmetic: [src/src/opt/fold.c]

    What [pass_fold] computes with: an integer operation on two constants
    ([fold_bin]), an extension of one ([fold_ext]), and the constants a block
    holds in temporaries that have several definitions ([lk_note], [lk_get]).
    A [long] of the host is a [Z] in the 64-bit range; the comparisons of width and
    the conversions are the source's. *)
From stdpp Require Import base numbers list option.
From Stdlib Require Import ZArith Lia.
From S2P Require Import Prelude Ir Util IrSem Simulate Paths Cfg.

Local Open Scope Z_scope.

(** ** Arithmetic on constants *)

(** [w == 8 ? r : (long)(int)r] *)
Definition norm (r w : Z) : Z := if w =? 8 then r else s32 r.

Definition fold_bin (op : ir_op) (A B w : Z) (sign : bool) (pred : binop) : option Z :=
  let ua := if w =? 8 then u64 A else u32 A in
  let ub := if w =? 8 then u64 B else u32 B in
  let sa := if w =? 8 then A else s32 A in
  let sb := if w =? 8 then B else s32 B in
  let sh := Z.land ub (if w =? 8 then 63 else 31) in
  let out r := Some (norm (s64 r) w) in
  let p := if sign then u64 (s32 A * s32 B) else u64 (u32 A * u32 B) in
  match op with
  | IR_ADD => out (u64 (ua + ub))
  | IR_SUB => out (u64 (ua - ub))
  | IR_MUL => out (u64 (ua * ub))
  | IR_MULW => Some (s64 p)
  | IR_MULH => out (if sign then u64 (Z.shiftr (s64 p) 32) else Z.shiftr p 32)
  | IR_DIV | IR_MOD =>
      if (negb (w =? 4) && negb (w =? 8)) || (ub =? 0) then None
      else if sign then
        let min := if w =? 8 then s64 (u64 (Z.shiftl 1 63)) else - 2 ^ 31 in
        if (sa =? min) && (sb =? -1) then None
        else out (u64 (if op_is op IR_DIV then Z.quot sa sb else Z.rem sa sb))
      else out (if op_is op IR_DIV then ua / ub else ua mod ub)
  | IR_AND => out (Z.land ua ub)
  | IR_OR => out (Z.lor ua ub)
  | IR_XOR => out (Z.lxor ua ub)
  | IR_SHL => out (u64 (Z.shiftl ua sh))
  | IR_SHR => out (if sign then u64 (Z.shiftr sa sh) else Z.shiftr ua sh)
  | IR_CMP =>
      let c := match pred with
               | B_EQ => Some (ua =? ub)
               | B_NE => Some (negb (ua =? ub))
               | B_LT => Some (if sign then sa <? sb else ua <? ub)
               | B_LE => Some (if sign then sa <=? sb else ua <=? ub)
               | B_GT => Some (if sign then sb <? sa else ub <? ua)
               | B_GE => Some (if sign then sb <=? sa else ub <=? ua)
               | _ => None
               end in
      match c with Some c => out (b2z c) | None => None end
  | _ => None
  end.

Definition fold_ext (A size : Z) (sign : bool) (w : Z) : Z :=
  let bits := size * 8 in
  let m := if 64 <=? bits then u64 (Z.lnot 0) else u64 (Z.shiftl 1 bits - 1) in
  let low := Z.land (u64 A) m in
  let r := if sign && (bits <? 64) && negb (Z.land low (Z.shiftl 1 (bits - 1)) =? 0)
           then s64 (Z.lor low (u64 (Z.lnot m))) else s64 low in
  norm r w.

(** ** Block-local constants *)

(** [struct lkconst]: at generation [lk_gen], [v] is known where [lk_gen_of v] is
    the generation. *)
Record lkconst := LkConst {
  lk_gen_of : Z -> Z; lk_val : Z -> Z; lk_w : Z -> Z; lk_gen : Z; lk_nv : Z }.

Definition lk_forget (k : lkconst) (t : Z) : lkconst :=
  LkConst (upd (lk_gen_of k) t 0) (lk_val k) (lk_w k) (lk_gen k) (lk_nv k).
Definition lk_set (k : lkconst) (t v w : Z) : lkconst :=
  LkConst (upd (lk_gen_of k) t (lk_gen k)) (upd (lk_val k) t v) (upd (lk_w k) t w) (lk_gen k) (lk_nv k).

Definition lk_note (k : lkconst) (i : ir_ins) : lkconst :=
  match i_op i with
  | IR_LABEL | IR_JMP | IR_BRZ | IR_BRNZ | IR_SWITCH
  | IR_RET | IR_IGOTO | IR_UD2 | IR_ASM | IR_LANDING =>
      LkConst (lk_gen_of k) (lk_val k) (lk_w k) (lk_gen k + 1) (lk_nv k)
  | _ =>
      let t := def_target i in
      if (t <? 0) || (lk_nv k <=? t) then k
      else if op_is (i_op i) IR_CONST && negb (i_flt i) && ((i_w i =? 4) || (i_w i =? 8))
      then lk_set k t (i_imm i) (i_w i)
      else if op_is (i_op i) IR_MOV && negb (i_vol i) && negb (i_flt i) && (0 <=? i_a i) &&
              (i_a i <? lk_nv k) && negb (i_a i =? t) && (lk_gen_of k (i_a i) =? lk_gen k) &&
              (lk_w k (i_a i) =? i_w i)
      then lk_set k t (lk_val k (i_a i)) (i_w i)
      else lk_forget k t
  end.

Definition lk_get (k : lkconst) (v w : Z) : option Z :=
  if (v <? 0) || (lk_nv k <=? v) || negb (lk_gen_of k v =? lk_gen k) || negb (lk_w k v =? w) then None
  else Some (lk_val k v).

(** ** The arithmetic is the machine's *)

Lemma norm_eqw w r r' : w = 4 \/ w = 8 -> eqw (bits w) r r' -> norm (s64 r) w = normw w r'.
Proof.
  intros [-> | ->] E; unfold norm, normw; simpl.
  - rewrite <- E. change (bits 4) with 32. apply swrap_proper.
    eapply (eqw_weaken 64); [lia|]. by apply eqw_swrap.
  - by rewrite <- E.
Qed.

(** Bitwise operations respect congruence. *)
Section Bitwise.
Context (op : Z -> Z -> Z) (f : bool -> bool -> bool).
Context (op_spec : forall x y j, Z.testbit (op x y) j = f (Z.testbit x j) (Z.testbit y j)) (f00 : f false false = false).

Lemma bitwise_uwrap w x y : 0 <= w -> eqw w (op (uwrap w x) (uwrap w y)) (op x y).
Proof using op_spec f00.
  intros Hw. apply eqw_mod; [done|]. apply Z.bits_inj'. intros j Hj. unfold uwrap.
  destruct (Z.ltb_spec j w).
  - by rewrite !Z.mod_pow2_bits_low, !op_spec, !Z.mod_pow2_bits_low by lia.
  - by rewrite !Z.mod_pow2_bits_high by lia.
Qed.
End Bitwise.

(** The source's two readings of an operand are the width's. *)
Lemma operand_u w x : w = 4 \/ w = 8 -> (if w =? 8 then u64 x else u32 x) = uwrap (bits w) x.
Proof. by intros [-> | ->]. Qed.
Lemma operand_s w x : w = 4 \/ w = 8 -> is_s 64 x -> (if w =? 8 then x else s32 x) = swrap (bits w) x.
Proof. intros [-> | ->] H; simpl; [done|]. symmetry. by apply swrap_small. Qed.

Lemma shift_count w x : w = 4 \/ w = 8 ->
  Z.land (uwrap (bits w) x) (if w =? 8 then 63 else 31) = x mod bits w.
Proof.
  unfold uwrap. intros [-> | ->]; simpl.
  - rewrite (land_ones_mod _ 5) by lia. apply Z.mod_mod_divide. by exists (2 ^ 27).
  - rewrite (land_ones_mod _ 6) by lia. apply Z.mod_mod_divide. by exists (2 ^ 58).
Qed.

Lemma land63_pos w x : w = 4 \/ w = 8 -> 0 <= x mod bits w < bits w.
Proof. intros [-> | ->]; apply Z.mod_pos_bound; reflexivity. Qed.

(** The 64-bit product of two 32-bit values is exact. *)
Lemma wide_product (sign : bool) A B :
  s64 (if sign then u64 (s32 A * s32 B) else u64 (u32 A * u32 B)) = s64 (num 4 sign A * num 4 sign B).
Proof. destruct sign; apply swrap_uwrap; lia. Qed.

Lemma product_signed A B : s64 (u64 (s32 A * s32 B)) = s32 A * s32 B.
Proof.
  rewrite swrap_uwrap by lia. apply s64_id.
  pose proof (swrap_range 32 A ltac:(lia)). pose proof (swrap_range 32 B ltac:(lia)). unfold is_s in *. nia.
Qed.
Lemma product_unsigned A B : u64 (u32 A * u32 B) = u32 A * u32 B.
Proof.
  apply u64_id. pose proof (uwrap_range 32 A ltac:(lia)). pose proof (uwrap_range 32 B ltac:(lia)). unfold is_u in *. nia.
Qed.

(** Which operations the folder and the machine both know. *)
Definition foldable (op : ir_op) (w : Z) (pred : binop) : Prop :=
  is_bin op = true /\ (op = IR_MULW -> w = 8) /\
  (op = IR_CMP -> pred = B_EQ \/ pred = B_NE \/ pred = B_LT \/ pred = B_LE \/ pred = B_GT \/ pred = B_GE).

Lemma fold_compare w sign pred A B : w = 4 \/ w = 8 -> is_s 64 A -> is_s 64 B ->
  (pred = B_EQ \/ pred = B_NE \/ pred = B_LT \/ pred = B_LE \/ pred = B_GT \/ pred = B_GE) ->
  fold_bin IR_CMP A B w sign pred = Some (b2z (compare pred (num w sign A) (num w sign B))).
Proof.
  intros Hw HA HB Hp. unfold fold_bin. rewrite !operand_u, !operand_s by done.
  assert (N : forall c, norm (s64 (b2z c)) w = b2z c) by (intros []; destruct Hw as [-> | ->]; reflexivity).
  assert (Eq : (swrap (bits w) A =? swrap (bits w) B) = (uwrap (bits w) A =? uwrap (bits w) B)).
  { assert (0 < bits w) by (unfold bits; lia). apply eq_true_iff_eq. rewrite !Z.eqb_eq. split; intros E.
    - rewrite <- (uwrap_swrap _ A), <- (uwrap_swrap _ B) by done. by rewrite E.
    - rewrite <- (swrap_uwrap _ A), <- (swrap_uwrap _ B) by done. by rewrite E. }
  unfold num. destruct sign; destruct Hp as [-> | [-> | [-> | [-> | [-> | ->]]]]]; simpl; rewrite N, ?Eq; done.
Qed.

Lemma fold_division op w sign pred A B : (op = IR_DIV \/ op = IR_MOD) -> w = 4 \/ w = 8 -> is_s 64 A -> is_s 64 B ->
  fold_bin op A B w sign pred = normw w <$> bin_val op w sign pred A B.
Proof.
  intros Ho Hw HA HB. assert (0 < bits w) by (unfold bits; lia).
  assert (E : fold_bin op A B w sign pred = 
    if (uwrap (bits w) B =? 0) then None
    else if sign then
      if (swrap (bits w) A =? - 2 ^ (bits w - 1)) && (swrap (bits w) B =? -1) then None
      else Some (norm (s64 (u64 (if op_is op IR_DIV then Z.quot (swrap (bits w) A) (swrap (bits w) B)
                                 else Z.rem (swrap (bits w) A) (swrap (bits w) B)))) w)
    else Some (norm (s64 (if op_is op IR_DIV then uwrap (bits w) A / uwrap (bits w) B
                          else uwrap (bits w) A mod uwrap (bits w) B)) w)).
  { destruct Ho as [-> | ->]; unfold fold_bin; rewrite !operand_u, !operand_s by done;
      destruct Hw as [-> | ->]; reflexivity. }
  rewrite E.
  assert (Z0 : (num w sign B =? 0) = (uwrap (bits w) B =? 0)).
  { unfold num. destruct sign; [|done]. apply eq_true_iff_eq. rewrite !Z.eqb_eq. split; intros E0.
    - rewrite <- (uwrap_swrap _ B) by done. rewrite E0. apply uwrap_small. split; [done | by apply Z.pow_pos_nonneg; lia].
    - rewrite <- (swrap_uwrap _ B) by done. rewrite E0. apply swrap_small; [done|].
      pose proof (Z.pow_pos_nonneg 2 (bits w - 1)). unfold is_s. lia. }
  assert (Nn : forall r r', r = r' -> norm (s64 r) w = normw w r') by (intros r r' ->; by apply norm_eqw).
  assert (Nu : forall r, norm (s64 (u64 r)) w = normw w r).
  { intros r. apply norm_eqw; [done|]. eapply (eqw_weaken 64); [|by apply eqw_uwrap]. unfold bits. lia. }
  assert (G : bin_val op w sign pred A B = div_val w sign (op_is op IR_MOD) A B) by (by destruct Ho as [-> | ->]).
  rewrite G. unfold div_val. rewrite Z0. destruct (uwrap (bits w) B =? 0) eqn:Zb; [done|]. unfold num. destruct sign; simpl.
  - destruct (_ && _); [done|]. simpl. f_equal. rewrite Nu. by destruct Ho as [-> | ->].
  - f_equal. apply Nn. rewrite Z.eqb_neq in Zb.
    pose proof (uwrap_range (bits w) A ltac:(lia)). pose proof (uwrap_range (bits w) B ltac:(lia)). unfold is_u in *.
    destruct Ho as [-> | ->]; simpl; [symmetry; apply Z.quot_div_nonneg; lia | symmetry; apply Z.rem_mod_nonneg; lia].
Qed.

Lemma fold_bin_sound op w sign pred A B : w = 4 \/ w = 8 -> is_s 64 A -> is_s 64 B -> foldable op w pred ->
  fold_bin op A B w sign pred = normw w <$> bin_val op w sign pred A B.
Proof.
  intros Hw HA HB (Hb & Hm & Hc).
  assert (P : 0 < bits w <= 64) by (unfold bits; lia).
  destruct (decide (op = IR_DIV \/ op = IR_MOD)) as [Hd|Hd]; [by apply fold_division|].
  destruct (decide (op = IR_CMP)) as [->|Nc].
  { rewrite fold_compare by auto. simpl. f_equal. symmetry. apply swrap_small; [lia|].
    pose proof (pow2_le_mono 31 (bits w - 1) ltac:(unfold bits; lia)). unfold is_s.
    destruct (compare _ _ _); simpl; lia. }
  unfold fold_bin. rewrite !operand_u, !operand_s, shift_count by done.
  pose proof (land63_pos w B Hw) as Sh.
  assert (Ua : eqw (bits w) (uwrap (bits w) A) A) by (apply eqw_uwrap; lia).
  assert (Ub : eqw (bits w) (uwrap (bits w) B) B) by (apply eqw_uwrap; lia).
  assert (U : forall r, eqw (bits w) (u64 r) r) by (intros r; eapply (eqw_weaken 64); [lia | by apply eqw_uwrap]).
  assert (Out : forall r r', eqw (bits w) r r' -> Some (norm (s64 r) w) = normw w <$> Some r').
  { intros r r' E. simpl. f_equal. by apply norm_eqw. }
  destruct op; try done; simpl; try (exfalso; tauto).
  - apply Out. by rewrite U, Ua, Ub.
  - apply Out. by rewrite U, Ua, Ub.
  - apply Out. by rewrite U, Ua, Ub.
  - apply Out. rewrite (bitwise_uwrap Z.land andb Z.land_spec); done || lia.
  - apply Out. rewrite (bitwise_uwrap Z.lor orb Z.lor_spec); done || lia.
  - apply Out. rewrite (bitwise_uwrap Z.lxor xorb Z.lxor_spec); done || lia.
  - apply Out. rewrite U, Z.shiftl_mul_pow2 by lia. by rewrite Ua.
  - apply Out. rewrite !Z.shiftr_div_pow2 by lia. destruct sign; [by rewrite U | done].
  - apply Out. destruct sign.
    + by rewrite U, product_signed, Z.shiftr_div_pow2 by lia.
    + by rewrite product_unsigned, Z.shiftr_div_pow2 by lia.
  - rewrite (Hm eq_refl) in *. simpl. f_equal. apply wide_product.
Qed.

Lemma lnot_mask b : 0 <= b <= 64 -> u64 (Z.lnot (2 ^ b - 1)) = (2 ^ (64 - b) - 1) * 2 ^ b.
Proof.
  intros Hb. replace (Z.lnot (2 ^ b - 1)) with (- 2 ^ b) by (unfold Z.lnot; lia).
  assert (E : 2 ^ 64 = 2 ^ (64 - b) * 2 ^ b) by (rewrite <- Z.pow_add_r by lia; f_equal; lia).
  pose proof (Z.pow_pos_nonneg 2 b). pose proof (Z.pow_pos_nonneg 2 (64 - b)).
  unfold uwrap. rewrite E. symmetry. apply (Z.mod_unique _ _ (-1)); [left; nia | ring].
Qed.

Lemma fold_ext_sound A size sign w : size_ok size = true -> w = 4 \/ w = 8 ->
  fold_ext A size sign w = ext_val size sign w A.
Proof.
  intros Hs Hw. assert (S : size = 1 \/ size = 2 \/ size = 4 \/ size = 8).
  { unfold size_ok in Hs. lia. }
  assert (B : bits size = size * 8 /\ 0 < size * 8 <= 64) by (unfold bits; lia). destruct B as [B B'].
  set (b := size * 8) in *. assert (P : 2 ^ b = 2 * 2 ^ (b - 1)) by (apply pow2_half; lia).
  pose proof (Z.pow_pos_nonneg 2 (b - 1) ltac:(lia) ltac:(lia)) as P1.
  assert (M : (if 64 <=? b then u64 (Z.lnot 0) else u64 (Z.shiftl 1 b - 1)) = 2 ^ b - 1).
  { destruct (Z.leb_spec 64 b); [assert (b = 64) as -> by lia; reflexivity|].
    rewrite Z.shiftl_mul_pow2, Z.mul_1_l by lia. pose proof (pow2_le_mono b 63 ltac:(lia)). apply u64_id. lia. }
  unfold fold_ext, ext_val. fold b. rewrite M, land_ones_mod, B by lia. fold (uwrap b (u64 A)).
  assert (L : uwrap b (u64 A) = uwrap b A).
  { apply uwrap_proper. eapply (eqw_weaken 64); [lia | by apply eqw_uwrap]. }
  rewrite L. pose proof (uwrap_range b A ltac:(lia)) as R. unfold is_u in R.
  assert (N : forall r r', eqw (bits w) r r' -> norm (s64 r) w = normw w r') by (intros; by apply norm_eqw).
  destruct sign; simpl; [|by apply N]. rewrite Z.shiftl_mul_pow2, Z.mul_1_l, land_top by (lia || (rewrite Z.sub_add; lia)).
  assert (Sw : eqw 64 (if uwrap b A <? 2 ^ (b - 1) then uwrap b A else uwrap b A - 2 ^ b) (swrap b A)).
  { rewrite <- swrap_of_u, swrap_uwrap by (done || lia). done. }
  assert (W : eqw (bits w) (if uwrap b A <? 2 ^ (b - 1) then uwrap b A else uwrap b A - 2 ^ b) (swrap b A))
    by (eapply eqw_weaken; [|exact Sw]; unfold bits; lia).
  destruct (Z.ltb_spec (uwrap b A) (2 ^ (b - 1))) as [Lt|Ge].
  - rewrite andb_false_r. by apply N.
  - rewrite (proj2 (Z.eqb_neq _ _)) by lia. simpl. rewrite andb_true_r. destruct (Z.ltb_spec b 64) as [L64|G64].
    + apply N. rewrite <- W, lnot_mask, lor_add_shift by lia.
      eapply (eqw_weaken 64); [unfold bits; lia|]. exists 1.
      rewrite Z.mul_sub_distr_r, <- Z.pow_add_r by lia. replace (64 - b + b) with 64 by lia. lia.
    + apply N. rewrite <- W. assert (b = 64) as -> by lia.
      eapply (eqw_weaken 64); [unfold bits; lia|]. exists 1. lia.
Qed.

(** C19: what the folder computes is what the program would: an integer operation
    on two constants of either width folds exactly when it does not trap, to the
    value the machine leaves, and an extension to the machine's. *)
Theorem fold_matches_machine (op : ir_op) (A B w size : Z) (sign : bool) (pred : binop) :
  w = 4 \/ w = 8 -> is_s 64 A -> is_s 64 B -> foldable op w pred -> size_ok size = true ->
  fold_bin op A B w sign pred = normw w <$> bin_val op w sign pred A B /\
  fold_ext A size sign w = ext_val size sign w A.
Proof. intros. split; [by apply fold_bin_sound | by apply fold_ext_sound]. Qed.

Lemma fold_matches_machine_witness :
  fold_bin IR_DIV (-7) 2 4 true B_ADD = normw 4 <$> bin_val IR_DIV 4 true B_ADD (-7) 2 /\
  fold_ext (-7) 1 true 4 = ext_val 1 true 4 (-7).
Proof.
  apply (fold_matches_machine IR_DIV (-7) 2 4 1 true B_ADD).
  - by left.
  - unfold is_s. lia.
  - unfold is_s. lia.
  - split; [reflexivity|]. split; discriminate.
  - reflexivity.
Defined.

(** ** Block-local constants hold *)

Section Local.
Context {M : Machine}.
Context (fn : ir_func) (Hwf : wf_func fn).
Context (Hesc : forall s, esc s = true -> 0 <= s < nvars fn).

(** The table before instruction [n]: [pass_cfgclean] and [pass_fold] note each
    instruction as they pass it. *)
Definition lk_init : lkconst := LkConst (fun _ => 0) (fun _ => 0) (fun _ => 0) 1 (nvregs fn).
Definition lk_at (n : nat) : lkconst := foldl lk_note lk_init (take n (ins fn)).

Record lk_holds (k : lkconst) (e : env) : Prop := {
  lk_nvregs : lk_nv k = nvregs fn;
  lk_pos : 0 < lk_gen k;
  lk_old v : lk_gen_of k v <= lk_gen k;
  lk_temp v : lk_gen_of k v = lk_gen k -> nvars fn <= v < nvregs fn;
  lk_word v : lk_gen_of k v = lk_gen k -> word_ok (lk_w k v) = true;
  lk_value v x : lk_gen_of k v = lk_gen k -> e v = Some x -> x = normw (lk_w k v) (lk_val k v) }.

(** What a table needs beyond the values: [lk_holds] of it in any environment that
    agrees on the known temporaries. *)
Lemma lk_next k e e' : lk_holds k e ->
  lk_holds (LkConst (lk_gen_of k) (lk_val k) (lk_w k) (lk_gen k + 1) (lk_nv k)) e'.
Proof.
  intros H. pose proof (lk_old k e H) as O. pose proof (lk_pos k e H).
  split; simpl; [apply H | lia | intros v; pose proof (O v); lia |..]; intros v; pose proof (O v); lia.
Qed.

Lemma lk_forget_holds k e e' t : lk_holds k e -> (forall v, v <> t -> nvars fn <= v < nvregs fn -> e' v = e v) ->
  lk_holds (lk_forget k t) e'.
Proof.
  intros H E. pose proof (lk_pos k e H). split; simpl; unfold upd.
  - apply H.
  - done.
  - intros v. destruct (_ =? _); [lia | apply H].
  - intros v. destruct (_ =? _); [lia | apply H].
  - intros v. destruct (_ =? _); [lia | apply H].
  - intros v x. destruct (Z.eqb_spec v t); [lia|]. intros G X. apply (lk_value k e H); [done|].
    rewrite <- X. symmetry. apply E; [done | by apply (lk_temp k e H)].
Qed.

Lemma lk_set_holds k e e' t c w : lk_holds k e -> (forall v, v <> t -> nvars fn <= v < nvregs fn -> e' v = e v) ->
  nvars fn <= t < nvregs fn -> word_ok w = true -> (forall x, e' t = Some x -> x = normw w c) ->
  lk_holds (lk_set k t c w) e'.
Proof.
  intros H E Ht Hw Hc. pose proof (lk_pos k e H). split; simpl; unfold upd.
  - apply H.
  - done.
  - intros v. destruct (_ =? _); [lia | apply H].
  - intros v. destruct (Z.eqb_spec v t); [lia | apply H].
  - intros v. destruct (Z.eqb_spec v t); [done | apply H].
  - intros v x. destruct (Z.eqb_spec v t) as [->|]; [auto|]. intros G X. apply (lk_value k e H); [done|].
    rewrite <- X. symmetry. apply E; [done | by apply (lk_temp k e H)].
Qed.

Lemma lk_note_holds n k i e w e' w' : ins fn !! n = Some i -> lk_holds k e ->
  exec1 fn i e w = Fall e' w' -> lk_holds (lk_note k i) e'.
Proof using Hwf Hesc.
  intros I H X. pose proof (exec1_frame fn i e w) as Fr. rewrite X in Fr. destruct Fr as [_ Fr].
  destruct Hwf as [Hb F]. destruct (Forall_lookup_1 _ _ _ _ F I) as [_ Wd].
  assert (Hv : lk_nv k = nvregs fn) by apply H.
  assert (E : i_op i <> IR_LANDING -> forall v, v <> def_target i -> nvars fn <= v < nvregs fn -> e' v = e v).
  { intros NL v N Hv'. apply Fr; [lia | |].
    - destruct (esc v) eqn:Ev; [apply Hesc in Ev; lia | done].
    - unfold def_list, op_is. rewrite bool_decide_false by done.
      destruct (_ <? 0); [apply not_elem_of_nil | by rewrite list_elem_of_singleton]. }
  assert (Def : i_op i <> IR_LANDING -> lk_holds
    (let t := def_target i in
     if (t <? 0) || (lk_nv k <=? t) then k
     else if op_is (i_op i) IR_CONST && negb (i_flt i) && ((i_w i =? 4) || (i_w i =? 8))
     then lk_set k t (i_imm i) (i_w i)
     else if op_is (i_op i) IR_MOV && negb (i_vol i) && negb (i_flt i) && (0 <=? i_a i) &&
             (i_a i <? lk_nv k) && negb (i_a i =? t) && (lk_gen_of k (i_a i) =? lk_gen k) &&
             (lk_w k (i_a i) =? i_w i)
     then lk_set k t (lk_val k (i_a i)) (i_w i)
     else lk_forget k t) e'); [|unfold lk_note; destruct (i_op i); try (by apply Def); by eapply lk_next].
  intros NL. specialize (E NL). cbv zeta. destruct (_ || _) eqn:T.
  { assert (G : forall v, nvars fn <= v < nvregs fn -> e' v = e v) by (intros v Hv'; apply E; lia).
    destruct H as [H1 H2 H3 H4 H5 H6]. split; try done. intros v x Gv Xv. apply (H6 v); [done|]. rewrite <- Xv. symmetry. by apply G, H4. }
  destruct (op_is (i_op i) IR_CONST && _ && _) eqn:C.
  { unfold op_is in C. destruct (bool_decide_reflect (i_op i = IR_CONST)) as [O|]; [|done]. simpl in C.
    unfold def_target, op_is in *. rewrite O in *. simpl in *.
    apply lk_set_holds with e; try done; [lia | by apply andb_true_iff in C as [_ C2] |].
    intros x. unfold exec1, computes, eval, op_is in X.
    assert (R : reads i = []) by (rewrite reads_eq; unfold reads_spec; by rewrite O). rewrite R, O in X. simpl in X.
    apply andb_true_iff in C as [C1 C2]. unfold word_ok in X. rewrite C1, C2 in X. simpl in X. injection X as <- _.
    rewrite write_same by lia. by intros [= <-]. }
  destruct (op_is (i_op i) IR_MOV && _ && _ && _ && _ && _ && _ && _) eqn:Mv; [|by apply lk_forget_holds with e].
  unfold op_is in Mv. destruct (bool_decide_reflect (i_op i = IR_MOV)) as [O|]; [|done]. rewrite !andb_true_iff in Mv.
  unfold def_target, op_is in *. rewrite O in *. simpl in *. apply lk_set_holds with e; try done; [lia | |].
  { destruct Mv as [[_ Mg] Mw]. apply Z.eqb_eq in Mg, Mw. rewrite <- Mw. by apply (lk_word k e H). }
  intros x. unfold exec1, computes, eval, op_is in X.
  assert (R : reads i = [i_a i]) by (rewrite reads_eq; unfold reads_spec; by rewrite O). rewrite R, O in X. simpl in X.
  destruct (e (i_a i)) as [y|] eqn:Ey; [|done]. simpl in X. injection X as <- _.
  rewrite write_same by lia. intros [= <-]. destruct Mv as [[[[[[[_ _] _] _] _] _] Mg] Mw]. apply Z.eqb_eq in Mg, Mw.
  rewrite <- Mw. by apply (lk_value k e H).
Qed.

Lemma lk_at_S n i : ins fn !! n = Some i -> lk_at (S n) = lk_note (lk_at n) i.
Proof. intros I. unfold lk_at. by rewrite (take_S_r _ _ _ I), foldl_app. Qed.

(** The form of the table does not depend on the execution. *)
Lemma lk_note_form n k i : ins fn !! n = Some i -> lk_holds k (fun _ => None) -> lk_holds (lk_note k i) (fun _ => None).
Proof using Hwf.
  intros I H. destruct Hwf as [Hb F]. destruct (Forall_lookup_1 _ _ _ _ F I) as [_ Wd].
  assert (Hv : lk_nv k = nvregs fn) by apply H.
  assert (T : op_is (i_op i) IR_CONST = true \/ op_is (i_op i) IR_MOV = true -> 0 <= def_target i ->
    nvars fn <= def_target i).
  { unfold def_target, op_is. intros [O|O] Ht; apply bool_decide_eq_true in O; rewrite O in *; simpl in *; lia. }
  unfold lk_note. destruct (i_op i) eqn:O; try (by eapply lk_next);
    cbv zeta; (destruct (_ || _) eqn:Tb; [done|]);
    repeat (match goal with |- context [if ?b then _ else _] => destruct b eqn:? end);
    try (by apply lk_forget_holds with (fun _ => None));
    (apply lk_set_holds with (fun _ => None); [done | done | split; [apply T; lia || auto | lia] | | done]);
    repeat match goal with E : _ && _ = true |- _ => apply andb_true_iff in E as [? ?] end; try done.
  match goal with G : (lk_gen_of k _ =? _) = true, W : (lk_w k _ =? _) = true |- _ => apply Z.eqb_eq in G, W end.
  match goal with W : lk_w k _ = _ |- _ => rewrite <- W end. by apply (lk_word k _ H).
Qed.

Lemma lk_at_form n : lk_holds (lk_at n) (fun _ => None).
Proof using Hwf.
  induction n as [|n IH].
  - unfold lk_at. simpl. split; simpl; try done; lia.
  - destruct (ins fn !! n) as [i|] eqn:I.
    + rewrite (lk_at_S n i I). by apply (lk_note_form n).
    + apply lookup_ge_None in I. unfold lk_at in *. rewrite !take_ge in * by lia. done.
Qed.

(** Wherever the function runs, past a block's label, the table holds. *)
Definition lk_match (n : nat) (e : env) : Prop :=
  match ins fn !! n with
  | Some i => i_op i <> IR_LABEL -> lk_holds (lk_at n) e
  | None => True
  end.

Lemma lk_fall n i e w e' w' : ins fn !! n = Some i -> lk_match n e -> exec1 fn i e w = Fall e' w' ->
  lk_match (S n) e'.
Proof using Hwf Hesc.
  intros I H X. unfold lk_match in *. rewrite I in H. destruct (ins fn !! S n) as [j|]; [|done]. intros _.
  rewrite (lk_at_S n i I). destruct (decide (i_op i = IR_LABEL)) as [O|N].
  - unfold lk_note. rewrite O. eapply lk_next, lk_at_form.
  - by apply (lk_note_holds n (lk_at n) i e w e' w' I (H N)).
Qed.

Lemma lk_run k n e w sl w0 : exec k fn (entry fn sl w0) = Run n e w -> lk_match n e.
Proof using Hwf Hesc.
  revert n e w. induction k as [|k IH]; intros n e w.
  - intros [= <- _ _]. unfold lk_match. destruct (ins fn !! 0%nat); [|done]. intros _. 
    split; simpl; try done; lia.
  - rewrite <- Nat.add_1_r, exec_add. simpl. destruct (exec k fn (entry fn sl w0)) as [m e1 w1|o w1|] eqn:E; [|done..].
    specialize (IH m e1 w1 eq_refl). simpl. destruct (ins fn !! m) as [i|] eqn:I; [|done].
    destruct (exec1 fn i e1 w1) as [e2 w2|l e2 w2|o w2|] eqn:X; simpl; try done.
    + intros [= <- <- <-]. by eapply lk_fall.
    + destruct (label_pos fn l) as [m'|] eqn:L; [|done]. intros [= <- <- <-].
      destruct (label_pos_spec fn l m' L) as (h & Ih & Oh & _).
      unfold lk_match. rewrite Ih. done.
Qed.
End Local.

(** The constants a block is said to hold, it holds. Whenever control is at an
    instruction that is not a label, a temporary [lk_get] knows there -- however
    many definitions it has -- has the constant's value at the width asked for. *)
Theorem lk_consts_hold {M : Machine} (fn : ir_func) (k n : nat) (e : env) (w w0 : world) (sl : Z -> Z)
  (i : ir_ins) (v wd c x : Z) :
  wf_func fn -> (forall s, esc s = true -> 0 <= s < nvars fn) ->
  exec k fn (entry fn sl w0) = Run n e w -> ins fn !! n = Some i -> i_op i <> IR_LABEL ->
  lk_get (lk_at fn n) v wd = Some c -> e v = Some x -> x = normw wd c.
Proof.
  intros Hwf He X I N G Ex. pose proof (lk_run fn Hwf He k n e w sl w0 X) as H. unfold lk_match in H.
  rewrite I in H. specialize (H N). unfold lk_get in G. destruct (_ || _ || _ || _) eqn:C; [done|].
  injection G as <-. rewrite !orb_false_iff, !negb_false_iff in C. destruct C as [[_ Cg] Cw].
  apply Z.eqb_eq in Cg, Cw. subst wd. by apply (lk_value fn _ e H).
Qed.

(** A loop's counter, set before the guard and again at the latch. *)
Definition guard_fn : ir_func :=
  let mk op dst a := set_w 4 (set_a a (set_dst dst (set_op op ins_blank))) in
  Fn 0 0 2 1 [] [set_imm 7 (mk IR_CONST 0 (-1)); mk IR_MOV 1 0; set_label 0 (mk IR_BRZ (-1) 1);
    set_imm 9 (mk IR_CONST 1 (-1)); set_label 0 (set_op IR_LABEL ins_blank); mk IR_RET (-1) 1] [] None [].

Lemma lk_consts_hold_witness :
  lk_get (lk_at guard_fn 2) 1 4 = Some 7 /\ 7 = normw 4 7.
Proof.
  split; [vm_compute; reflexivity|].
  refine (lk_consts_hold (M := {| world := unit; pure_ext _ _ := 0; ext _ _ _ _ := XHalt tt;
    igoto _ := None; esc _ := false |}) guard_fn 2 2 _ tt tt (fun _ => 0) _ 1 4 7 7 _ _ _ _ _ _ _).
  - apply (bool_decide_unpack (wf_func guard_fn)). vm_compute. exact I.
  - discriminate.
  - reflexivity.
  - reflexivity.
  - discriminate.
  - vm_compute. reflexivity.
  - vm_compute. reflexivity.
Defined.
