(* ===== verification/CopyLocal.v ===== *)
(** * Block-local copy propagation: [pass_copyprop_local] of [src/src/opt/copyprop.c]

    Inside a block a table says which vreg each temporary is a copy of. The table
    is an array [cp] with each entry also filed under its source: [by] heads a
    chain through [f], a filing may go stale and is checked against [cp] when it is
    used. [lctab_reset] and the clearing of a redefined source only touch what is
    filed; that this clears everything it should is the invariant [lct_ok]. The
    pass then preserves the function: an entry holds while the block runs, and no
    entry crosses a block boundary. *)
From stdpp Require Import base numbers list option sets relations.
From Stdlib Require Import ZArith Lia.
From S2P Require Import Prelude Ir Util IrSem Simulate Rename Paths CopyProp Cfg.

Local Open Scope Z_scope.

(** ** The table *)

Record lcfile := LcFile { lf_v : Z; lf_src : Z; lf_next : Z }.
Record lctab := LcTab { lt_cp : Z -> Z; lt_by : Z -> Z; lt_f : list lcfile }.

Definition lctab_init : lctab := LcTab (fun _ => -1) (fun _ => -1) [].

Definition lctab_reset (t : lctab) : lctab :=
  LcTab (foldl (fun cp x => upd cp (lf_v x) (-1)) (lt_cp t) (lt_f t))
        (foldl (fun by_ x => upd by_ (lf_src x) (-1)) (lt_by t) (lt_f t)) [].

Definition lctab_set (t : lctab) (v src : Z) : lctab :=
  LcTab (upd (lt_cp t) v src)
        (upd (lt_by t) src (Z.of_nat (length (lt_f t))))
        (lt_f t ++ [LcFile v src (lt_by t src)]).

(** [for (k = by[t]; k >= 0; k = f[k].next) if (cp[f[k].v] == t) cp[f[k].v] = -1;]
    A filing's [next] is an earlier one, so the length of [f] is fuel enough. *)
Fixpoint lctab_clear (fuel : nat) (f : list lcfile) (t k : Z) (cp : Z -> Z) : Z -> Z :=
  match fuel with
  | O => cp
  | S fuel =>
      if k <? 0 then cp
      else match f !! Z.to_nat k with
           | Some x => lctab_clear fuel f t (lf_next x) (if cp (lf_v x) =? t then upd cp (lf_v x) (-1) else cp)
           | None => cp
           end
  end.

(** A definition of [t]. *)
Definition lctab_def (t : Z) (tb : lctab) : lctab :=
  LcTab (lctab_clear (length (lt_f tb)) (lt_f tb) t (lt_by tb t) (upd (lt_cp tb) t (-1)))
        (upd (lt_by tb) t (-1)) (lt_f tb).

(** ** The pass *)

(** [struct lcopy] and its callback. *)
Definition lcopy_cb (cp : Z -> Z) (nv : Z) (p n : Z) : Z * Z :=
  if (0 <=? p) && (p <? nv) && (0 <=? cp p) then (cp p, n + 1) else (p, n).

Definition local_mov (d : defs) (nv : Z) (i : ir_ins) : bool :=
  op_is (i_op i) IR_MOV && negb (i_vol i) && (0 <=? i_dst i) && (0 <=? i_a i) &&
  negb (i_dst i =? i_a i) && (i_dst i <? nv) && (i_a i <? nv) && (d_cnt d (i_dst i) =? 1).

(** One instruction: the table after it, the instruction and the rewrites. *)
Definition local_ins (d : defs) (nv : Z) (tb : lctab) (i : ir_ins) : lctab * ir_ins * Z :=
  if op_is (i_op i) IR_ASM || op_is (i_op i) IR_LANDING then (lctab_reset tb, i, 0)
  else
    let '(i, n) := each_read (lcopy_cb (lt_cp tb) nv) i 0 in
    let t := def_target i in
    let tb := if (0 <=? t) && (t <? nv) then lctab_def t tb else tb in
    let tb := if local_mov d nv i
              then lctab_set tb (i_dst i) (if 0 <=? lt_cp tb (i_a i) then lt_cp tb (i_a i) else i_a i)
              else tb in
    (tb, i, n).

Fixpoint local_range (d : defs) (nv : Z) (tb : lctab) (l : list ir_ins) : lctab * list ir_ins * Z :=
  match l with
  | [] => (tb, [], 0)
  | i :: l =>
      let '(tb, i, n) := local_ins d nv tb i in
      let '(tb, l, m) := local_range d nv tb l in (tb, i :: l, n + m)
  end.

Fixpoint local_blocks (fn : ir_func) (d : defs) (tb : lctab) (sp : list (nat * nat)) : list ir_ins * Z :=
  match sp with
  | [] => ([], 0)
  | (s, e) :: sp =>
      let '(tb, code, n) := local_range d (nvregs fn) (lctab_reset tb) (take (e - s) (drop s (ins fn))) in
      let '(rest, m) := local_blocks fn d tb sp in (code ++ rest, n + m)
  end.

Definition copyprop_local_run (fn : ir_func) : list ir_ins * Z :=
  if (nins fn =? 0) || (nvregs fn =? 0) then (ins fn, 0)
  else local_blocks fn (compute_defs fn) lctab_init
         (map (fun b => (b_start b, b_end b)) (build_cfg fn).1).

Definition pass_copyprop_local (fn : ir_func) : ir_func * bool :=
  let '(code, n) := copyprop_local_run fn in (set_ins code fn, negb (n =? 0)).

Lemma lookup_zip_with_Some' {A B C} (f : A -> B -> C) l k n x y :
  l !! n = Some x -> k !! n = Some y -> zip_with f l k !! n = Some (f x y).
Proof. intros X Y. rewrite lookup_zip_with, X. simpl. by rewrite Y. Qed.

(** ** What the filing promises *)

(** The filings on the chain from [k]. *)
Inductive on_chain (f : list lcfile) : Z -> lcfile -> Prop :=
  | chain_here k x : 0 <= k -> f !! Z.to_nat k = Some x -> on_chain f k x
  | chain_next k x y : 0 <= k -> f !! Z.to_nat k = Some x -> on_chain f (lf_next x) y -> on_chain f k y.

Record lct_ok (t : lctab) : Prop := {
  ok_next k x : lt_f t !! k = Some x -> lf_next x < Z.of_nat k;
  ok_by s : lt_by t s = -1 \/ exists x, 0 <= lt_by t s /\ lt_f t !! Z.to_nat (lt_by t s) = Some x /\ lf_src x = s;
  ok_cp v : lt_cp t v = -1 \/
    (0 <= lt_cp t v /\ exists x, on_chain (lt_f t) (lt_by t (lt_cp t v)) x /\ lf_v x = v /\ x ∈ lt_f t) }.

Lemma lctab_init_ok : lct_ok lctab_init.
Proof. split; simpl; [done | by left | by left]. Qed.

Lemma foldl_upd {A} (key : A -> Z) (l : list A) (g : Z -> Z) v :
  foldl (fun g x => upd g (key x) (-1)) g l v = if bool_decide (v ∈ map key l) then -1 else g v.
Proof.
  revert g. induction l as [|x l IH]; intros g; simpl; [done|]. rewrite IH.
  destruct (decide (v ∈ map key l)) as [H|H].
  - rewrite !bool_decide_true; [done | by right | done].
  - rewrite (bool_decide_false _ H). unfold upd. destruct (Z.eqb_spec v (key x)) as [->|N].
    + rewrite bool_decide_true; [done | by left].
    + rewrite bool_decide_false; [done|]. by intros [|]%elem_of_cons.
Qed.

(** A reset empties the table. *)
Lemma lctab_reset_spec t : lct_ok t ->
  (forall v, lt_cp (lctab_reset t) v = -1) /\ (forall s, lt_by (lctab_reset t) s = -1) /\ lt_f (lctab_reset t) = [].
Proof.
  intros H. split_and!; [| |done].
  - intros v. simpl. rewrite (foldl_upd lf_v). case_bool_decide as E; [done|].
    destruct (ok_cp _ H v) as [|(_ & x & _ & <- & Hx)]; [done|]. destruct E. by apply list_elem_of_fmap_2.
  - intros s. simpl. rewrite (foldl_upd lf_src). case_bool_decide as E; [done|].
    destruct (ok_by _ H s) as [|(x & _ & Hx & <-)]; [done|]. destruct E.
    apply list_elem_of_fmap_2. by eapply list_elem_of_lookup_2.
Qed.

Lemma lctab_reset_ok t : lct_ok t -> lct_ok (lctab_reset t).
Proof.
  intros (A & B & C)%lctab_reset_spec. split; [by rewrite C | intros s; left; apply B | intros v; left; apply A].
Qed.

(** The walk of a chain clears every vreg filed on it that is a copy of [t], and
    nothing else. *)
Lemma lctab_clear_spec fuel f t k cp v :
  (forall j x, f !! j = Some x -> lf_next x < Z.of_nat j) -> k < Z.of_nat fuel -> 0 <= t ->
  (lctab_clear fuel f t k cp v = cp v \/ (cp v = t /\ lctab_clear fuel f t k cp v = -1)) /\
  ((exists x, on_chain f k x /\ lf_v x = v) -> cp v = t -> lctab_clear fuel f t k cp v = -1).
Proof.
  intros Hn. revert k cp. induction fuel as [|fuel IH]; intros k cp Hk Ht; simpl.
  { split; [by left|]. intros (x & Hx & _) _. inversion Hx; lia. }
  destruct (Z.ltb_spec k 0) as [L|L].
  { split; [by left|]. intros (x & Hx & _) _. inversion Hx; lia. }
  destruct (f !! Z.to_nat k) as [x|] eqn:X.
  2: { split; [by left|]. intros (x & Hx & _) _. inversion Hx; congruence. }
  set (cp1 := if cp (lf_v x) =? t then upd cp (lf_v x) (-1) else cp).
  pose proof (Hn _ _ X) as Lx. destruct (IH (lf_next x) cp1 ltac:(lia) Ht) as [A B].
  assert (E : cp1 v = if (lf_v x =? v) && (cp v =? t) then -1 else cp v).
  { unfold cp1, upd. destruct (Z.eqb_spec (cp (lf_v x)) t), (Z.eqb_spec (lf_v x) v), (Z.eqb_spec v (lf_v x)),
      (Z.eqb_spec (cp v) t); simpl; congruence. }
  destruct ((lf_v x =? v) && (cp v =? t)) eqn:C.
  - assert (cp v = t) by lia. split.
    + right. split; [done|]. destruct A as [->|[? _]]; [done | lia].
    + intros _ _. destruct A as [->|[? _]]; [done|lia].
  - rewrite E in *. split; [done|]. intros (y & Hy & Ey) Hc. apply B; [|done]. exists y. split; [|done].
    inversion Hy as [k' x' _ X'|k' x' y' _ X' Hy']; simplify_eq; [lia | done].
Qed.

(** A definition of [t] clears [t] and every copy of [t]. *)
Lemma lctab_def_spec t tb v : lct_ok tb -> 0 <= t ->
  lt_cp (lctab_def t tb) v = if (v =? t) || (lt_cp tb v =? t) then -1 else lt_cp tb v.
Proof.
  intros H Ht. simpl.
  assert (Hb : lt_by tb t < Z.of_nat (length (lt_f tb))).
  { destruct (ok_by _ H t) as [->|(x & L & Hx & _)]; [lia|]. apply lookup_lt_Some in Hx. lia. }
  destruct (lctab_clear_spec (length (lt_f tb)) (lt_f tb) t (lt_by tb t) (upd (lt_cp tb) t (-1)) v
    (ok_next _ H) Hb Ht) as [A B].
  assert (E : upd (lt_cp tb) t (-1) v = if v =? t then -1 else lt_cp tb v) by done.
  rewrite E in *. destruct (Z.eqb_spec v t) as [->|N]; simpl; [destruct A as [->|[? _]]; lia|].
  destruct (Z.eqb_spec (lt_cp tb v) t) as [C|C].
  - apply B; [|done]. destruct (ok_cp _ H v) as [|(_ & x & Hx & Ev & _)]; [lia|]. exists x. by rewrite <- C.
  - destruct A as [->|[? _]]; done.
Qed.

Lemma lctab_def_ok t tb : lct_ok tb -> 0 <= t -> lct_ok (lctab_def t tb).
Proof.
  intros H Ht. split.
  - apply H.
  - intros s. simpl. unfold upd. destruct (Z.eqb_spec s t); [by left | apply H].
  - intros v. rewrite (lctab_def_spec t tb v H Ht). destruct ((v =? t) || (lt_cp tb v =? t)) eqn:C; [by left|].
    destruct (ok_cp _ H v) as [|(L & x & Hx & Ev)]; [by left|]. right. split; [done|]. exists x. split; [|done].
    simpl. unfold upd. destruct (Z.eqb_spec (lt_cp tb v) t); [lia | done].
Qed.

Lemma on_chain_app f g k x : on_chain f k x -> on_chain (f ++ g) k x.
Proof.
  induction 1 as [k x L X|k x y L X _ IH].
  - apply chain_here; [done|]. by apply lookup_app_l_Some.
  - eapply chain_next; [done | by apply lookup_app_l_Some | done].
Qed.

Lemma lctab_set_ok t v src : lct_ok t -> 0 <= src -> lct_ok (lctab_set t v src).
Proof.
  intros H Hs. set (x0 := LcFile v src (lt_by t src)).
  assert (N0 : lf_next x0 < Z.of_nat (length (lt_f t))).
  { simpl. destruct (ok_by _ H src) as [->|(x & L & Hx & _)]; [lia|]. apply lookup_lt_Some in Hx. lia. }
  assert (L0 : (lt_f t ++ [x0]) !! length (lt_f t) = Some x0) by (by rewrite lookup_app_r, Nat.sub_diag).
  split; simpl; fold x0.
  - intros k x Hx. apply lookup_app_Some in Hx as [Hx|[Hl Hx]]; [by eapply ok_next|].
    destruct (k - length (lt_f t))%nat as [|] eqn:E; [|done]. simpl in Hx. simplify_eq. lia.
  - intros s. unfold upd. destruct (Z.eqb_spec s src) as [->|N].
    + right. exists x0. rewrite Nat2Z.id. split; [lia | done].
    + destruct (ok_by _ H s) as [|(x & L & Hx & Es)]; [by left|]. right. exists x.
      split_and!; [done | by apply lookup_app_l_Some | done].
  - assert (Ch : forall s x, on_chain (lt_f t) (lt_by t s) x ->
      on_chain (lt_f t ++ [x0]) (upd (lt_by t) src (Z.of_nat (length (lt_f t))) s) x).
    { intros s x Hx. unfold upd. destruct (Z.eqb_spec s src) as [->|]; [|by apply on_chain_app].
      eapply chain_next; [lia | by rewrite Nat2Z.id | by apply on_chain_app]. }
    intros u. unfold upd at 1 2 4. destruct (Z.eqb_spec u v) as [->|N].
    + right. split; [done|]. exists x0. split_and!; [|done | apply elem_of_app; right; by left].
      unfold upd. rewrite Z.eqb_refl. apply chain_here; [lia | by rewrite Nat2Z.id].
    + destruct (ok_cp _ H u) as [|(L & x & Hx & Ev & Hin)]; [by left|]. right. split; [done|].
      exists x. split_and!; [by apply Ch | done | apply elem_of_app; by left].
Qed.

(** *** The plain table *)

(** What the filing replaces: "a sweep over every vreg" at each block and each
    definition. *)
Inductive lcop := LcReset | LcDef (t : Z) | LcSet (v src : Z).

Definition plain_step (cp : Z -> Z) (o : lcop) : Z -> Z :=
  match o with
  | LcReset => fun _ => -1
  | LcDef t => fun v => if (v =? t) || (cp v =? t) then -1 else cp v
  | LcSet v src => upd cp v src
  end.

Definition filed_step (t : lctab) (o : lcop) : lctab :=
  match o with
  | LcReset => lctab_reset t
  | LcDef v => lctab_def v t
  | LcSet v src => lctab_set t v src
  end.

Definition lcop_ok (o : lcop) : Prop :=
  match o with LcReset => True | LcDef t => 0 <= t | LcSet _ src => 0 <= src end.

(** C31: the filed table is the plain table. Whatever operations a block makes, in
    whatever order, an entry of the filed table is the one the sweeping table has:
    stale filings are never missed and never believed. *)
Theorem lctab_refines (ops : list lcop) (v : Z) : Forall lcop_ok ops ->
  lt_cp (foldl filed_step lctab_init ops) v = foldl plain_step (fun _ => -1) ops v.
Proof.
  intros F.
  assert (G : lct_ok (foldl filed_step lctab_init ops) /\
    forall v, lt_cp (foldl filed_step lctab_init ops) v = foldl plain_step (fun _ => -1) ops v).
  { clear v. induction ops as [|o ops IH] using rev_ind; [split; [apply lctab_init_ok | done]|].
    apply Forall_app in F as [F Fo]. apply Forall_cons_1 in Fo as [Fo _]. destruct (IH F) as [Ok Eq].
    rewrite !foldl_app. destruct o as [|t|u src]; cbn [foldl filed_step plain_step lcop_ok] in *.
    - split; [by apply lctab_reset_ok|]. intros v. by apply (lctab_reset_spec _ Ok).
    - split; [by apply lctab_def_ok|]. intros v. rewrite <- Eq. by apply (lctab_def_spec t).
    - split; [by apply lctab_set_ok|]. intros v. cbn [lt_cp lctab_set]. unfold upd. by rewrite Eq. }
  apply G.
Qed.

Lemma lctab_refines_witness :
  let ops := [LcSet 5 2; LcSet 6 2; LcDef 6; LcSet 6 3; LcDef 2] in
  lt_cp (foldl filed_step lctab_init ops) 6 = 3 /\
  lt_cp (foldl filed_step lctab_init ops) 6 = foldl plain_step (fun _ => -1) ops 6.
Proof.
  intros ops. split; [vm_compute; reflexivity|]. apply lctab_refines.
  repeat constructor; simpl; lia.
Defined.

(** ** The table while the block runs *)

Section Run.
Context {M : Machine}.
Context (fn : ir_func).
Context (Hwf : wf_func fn) (Hk : kinds_ok fn).
Context (Hesc : forall s, esc s = true -> 0 <= s < nvars fn).
Let nv := nvregs fn.
Let d := compute_defs fn.

(** An entry is between two temporaries that hold the same. *)
Record tab_holds (t : lctab) (e : env) : Prop := {
  th_ok : lct_ok t;
  th_temp v : 0 <= lt_cp t v -> nvars fn <= v < nv /\ nvars fn <= lt_cp t v < nv;
  th_same v : 0 <= lt_cp t v -> e v = e (lt_cp t v) }.

Lemma reset_holds t e : lct_ok t -> tab_holds (lctab_reset t) e.
Proof.
  intros H. destruct (lctab_reset_spec t H) as (A & _). split; [by apply lctab_reset_ok|..];
    intros v; rewrite A; lia.
Qed.

(** What [lcopy_cb] makes of a read. *)
Definition copied (t : lctab) (v : Z) : Z :=
  if (0 <=? v) && (v <? nv) && (0 <=? lt_cp t v) then lt_cp t v else v.

Lemma copied_sign t : keeps_sign (copied t).
Proof.
  intros v. unfold copied. destruct (Z.leb_spec 0 v), (v <? nv), (Z.leb_spec 0 (lt_cp t v)); simpl; lia.
Qed.

Lemma copied_value t e v : tab_holds t e -> e (copied t v) = e v.
Proof.
  intros H. unfold copied. destruct (_ && _ && _) eqn:C; [|done]. symmetry. apply (th_same _ _ H). lia.
Qed.

Lemma copied_temp t e v : tab_holds t e -> v < nv -> copied t v < nv /\ (nvars fn <= v -> nvars fn <= copied t v) /\
  (v < nvars fn -> copied t v = v).
Proof.
  intros H Hv. unfold copied. destruct (_ && _ && _) eqn:C; [|split_and!; done].
  pose proof (th_temp _ _ H v ltac:(lia)). lia.
Qed.

Lemma local_ins_code t i : (local_ins d nv t i).1.2 =
  if op_is (i_op i) IR_ASM || op_is (i_op i) IR_LANDING then i else rename (copied t) i.
Proof.
  unfold local_ins. destruct (_ || _); [done|].
  rewrite (each_read_split _ (copied t)
    (fun n p => if (0 <=? p) && (p <? nv) && (0 <=? lt_cp t p) then n + 1 else n)); [done|].
  intros p n. unfold lcopy_cb, copied. by destruct (_ && _ && _).
Qed.

(** The rewritten instruction does what the instruction does. *)
Lemma local_exec1 n t i e w : ins fn !! n = Some i -> tab_holds t e ->
  exec1 fn (local_ins d nv t i).1.2 e w = exec1 fn i e w.
Proof using Hk Hwf.
  intros I H. rewrite local_ins_code. destruct (_ || _); [done|].
  apply exec1_rename; [apply copied_sign | |].
  - intros S. rewrite <- (rename_id i) at 2. apply rename_ext. intros r Hr.
    destruct (Forall_lookup_1 _ _ _ _ Hk I) as [_ Hs]. specialize (Hs S).
    assert (r = i_a i) as ->.
    { rewrite reads_eq in Hr. unfold reads_spec in Hr. unfold names_slot, op_is in S.
      destruct (i_op i); try done; by apply list_elem_of_singleton in Hr. }
    apply (copied_temp t e (i_a i) H); [|done]. destruct Hwf. unfold nv. lia.
  - induction (reads i) as [|r l IH]; [done|]. simpl. rewrite (copied_value t e r H), IH. done.
Qed.

(** A definition leaves the other entries as they were. *)
Lemma define_holds t tg e e' : tab_holds t e -> framed fn (if tg <? 0 then [] else [tg]) e e' ->
  tab_holds (if (0 <=? tg) && (tg <? nv) then lctab_def tg t else t) e'.
Proof using Hesc.
  intros H F.
  assert (K : forall v, nvars fn <= v < nv -> v <> tg \/ tg < 0 -> e' v = e v).
  { intros v Hv N. apply F; [apply Hv | |].
    - destruct (esc v) eqn:E; [apply Hesc in E; lia | done].
    - destruct (Z.ltb_spec tg 0); [by intros ?%elem_of_nil | intros ->%list_elem_of_singleton; lia]. }
  destruct (Z.leb_spec 0 tg) as [L|L], (Z.ltb_spec tg nv) as [G|G]; simpl.
  2, 3, 4: split; [apply H | apply H|]; intros v Hv; destruct (th_temp _ _ H v Hv);
    rewrite !K by lia; by apply (th_same _ _ H).
  split; [by apply lctab_def_ok; [apply H|] | |]; intros v; rewrite (lctab_def_spec tg t v (th_ok _ _ H) L);
    destruct (Z.eqb_spec v tg), (Z.eqb_spec (lt_cp t v) tg); simpl; try lia; intros Hv.
  - by apply (th_temp _ _ H).
  - destruct (th_temp _ _ H v Hv). rewrite !K by lia. by apply (th_same _ _ H).
Qed.

(** A move of a temporary makes an entry. *)
Lemma set_holds t e v a x : tab_holds t e -> nvars fn <= v < nv -> nvars fn <= a < nv -> 0 <= a -> a <> v ->
  lt_cp t v = -1 -> (forall u, lt_cp t u <> v) -> e v = Some x -> e a = Some x ->
  tab_holds (lctab_set t v (if 0 <=? lt_cp t a then lt_cp t a else a)) e.
Proof.
  intros H Hv Ha H0 N Cv Cu Ev Ea. set (src := if 0 <=? lt_cp t a then lt_cp t a else a).
  assert (Hs : 0 <= src /\ nvars fn <= src < nv /\ e src = Some x).
  { unfold src. destruct (Z.leb_spec 0 (lt_cp t a)) as [L|L]; [|done].
    split_and!; [done | apply (th_temp _ _ H a L) | apply (th_temp _ _ H a L)|].
    by rewrite <- (th_same _ _ H a L). }
  destruct Hs as (S0 & Sb & Se). split.
  - apply lctab_set_ok; [apply H | done].
  - intros u. simpl. unfold upd. destruct (Z.eqb_spec u v) as [->|]; [done | apply H].
  - intros u. simpl. unfold upd. destruct (Z.eqb_spec u v) as [->|]; [congruence | apply H].
Qed.

Lemma local_holds n t i e w e' w' : ins fn !! n = Some i -> tab_holds t e ->
  exec1 fn i e w = Fall e' w' -> tab_holds (local_ins d nv t i).1.1 e'.
Proof using Hwf Hk Hesc.
  intros I H X. pose proof (exec1_frame fn i e w) as F. rewrite X in F. destruct F as [_ F].
  unfold local_ins. destruct (_ || _) eqn:AL; [apply reset_holds, H|].
  rewrite (each_read_split _ (copied t)
    (fun n p => if (0 <=? p) && (p <? nv) && (0 <=? lt_cp t p) then n + 1 else n))
    by (intros p k; unfold lcopy_cb, copied; by destruct (_ && _ && _)).
  rewrite def_target_rename.
  assert (Dl : def_list nv i = if def_target i <? 0 then [] else [def_target i]).
  { unfold def_list. apply orb_false_iff in AL as [_ ->]. done. }
  fold nv in F. rewrite Dl in F. pose proof (define_holds t _ e e' H F) as T1.
  destruct (local_mov d nv (rename (copied t) i)) eqn:LM; cbn [fst]; [|exact T1].
  unfold local_mov, op_is in LM. rewrite rename_op in LM.
  destruct (bool_decide_reflect (i_op i = IR_MOV)) as [O|]; [|done].
  rewrite (rename_mov (copied t) i O) in *.
  assert (Ea : i_a (set_a (copied t (i_a i)) i) = copied t (i_a i)) by (by destruct i).
  assert (Ed : i_dst (set_a (copied t (i_a i)) i) = i_dst i) by (by destruct i). rewrite Ea, Ed in *.
  destruct Hwf as [_ Fw]. destruct (Forall_lookup_1 _ _ _ _ Fw I) as [Wr Wd].
  destruct (Forall_lookup_1 _ _ _ _ Hk I) as [Hm _].
  assert (R : reads i = [i_a i]) by (rewrite reads_eq; unfold reads_spec; by rewrite O).
  assert (T : def_target i = i_dst i) by (unfold def_target, op_is; by rewrite O).
  unfold exec1 in X. rewrite R in *. apply Forall_cons_1 in Wr as [Wa _].
  simpl in X. destruct (e (i_a i)) as [x|] eqn:Ex; [|done]. simpl in X.
  unfold computes, op_is, eval in X. rewrite O in X, Wd. simpl in X. injection X as <- _.
  pose proof (copied_sign t (i_a i)) as Sg. rewrite !andb_true_iff in LM.
  assert (nvars fn <= i_dst i) by (destruct Wd as [|[|]]; [done | lia | done]).
  assert (nvars fn <= i_a i) by (destruct (Hm O); lia).
  destruct (copied_temp t e (i_a i) H) as (B1 & B2 & _); [done|].
  rewrite T in T1 |- *. replace ((0 <=? i_dst i) && (i_dst i <? nv)) with true in * by lia.
  pose proof (lctab_def_spec (i_dst i) t) as Dsp.
  apply (set_holds _ _ _ _ x); try done; try lia.
  - rewrite Dsp by (apply H || lia). by rewrite Z.eqb_refl.
  - intros u. rewrite Dsp by (apply H || lia).
    destruct (Z.eqb_spec u (i_dst i)), (Z.eqb_spec (lt_cp t u) (i_dst i)); simpl; lia.
  - rewrite write_same; [done | lia].
  - rewrite write_other by lia. by rewrite (copied_value t e _ H).
Qed.

Lemma local_ins_ok t i : lct_ok t -> lct_ok (local_ins d nv t i).1.1.
Proof.
  intros H. unfold local_ins. destruct (_ || _); [by apply lctab_reset_ok|].
  destruct (each_read _ i 0) as [i' n].
  assert (T1 : lct_ok (if (0 <=? def_target i') && (def_target i' <? nv) then lctab_def (def_target i') t else t)).
  { destruct (Z.leb_spec 0 (def_target i')); simpl; [|done]. destruct (_ <? _); [by apply lctab_def_ok | done]. }
  destruct (local_mov d nv i') eqn:LM; [|done]. apply lctab_set_ok; [done|].
  unfold local_mov in LM. rewrite !andb_true_iff in LM. destruct (Z.leb_spec 0 (lt_cp (if (0 <=? def_target i') &&
    (def_target i' <? nv) then lctab_def (def_target i') t else t) (i_a i'))); lia.
Qed.

(** *** The table before each instruction *)

Fixpoint range_tabs (t : lctab) (l : list ir_ins) : list lctab :=
  match l with
  | [] => []
  | i :: l => t :: range_tabs (local_ins d nv t i).1.1 l
  end.

Definition slice (s e : nat) : list ir_ins := take (e - s) (drop s (ins fn)).

Fixpoint blocks_tabs (t : lctab) (sp : list (nat * nat)) : list lctab :=
  match sp with
  | [] => []
  | (s, e) :: sp =>
      range_tabs (lctab_reset t) (slice s e) ++
      blocks_tabs (local_range d nv (lctab_reset t) (slice s e)).1.1 sp
  end.

Definition rewrites (t : lctab) (i : ir_ins) : ir_ins := (local_ins d nv t i).1.2.

Lemma local_range_code t l : (local_range d nv t l).1.2 = zip_with rewrites (range_tabs t l) l.
Proof.
  revert t. induction l as [|i l IH]; intros t; simpl; [done|]. unfold rewrites at 1.
  destruct (local_ins d nv t i) as [[t' i'] n]. simpl. rewrite <- IH.
  by destruct (local_range d nv t' l) as [[t2 l2] m].
Qed.

Lemma local_range_ok t l : lct_ok t -> lct_ok (local_range d nv t l).1.1.
Proof.
  revert t. induction l as [|i l IH]; intros t H; simpl; [done|].
  pose proof (local_ins_ok t i H) as H1. destruct (local_ins d nv t i) as [[t' i'] n]. simpl in H1.
  specialize (IH t' H1). by destruct (local_range d nv t' l) as [[t2 l2] m].
Qed.

Lemma range_tabs_length t l : length (range_tabs t l) = length l.
Proof. revert t. induction l as [|i l IH]; intros t; simpl; [done|]. by rewrite IH. Qed.

Lemma range_tabs_step t l j i : l !! j = Some i -> (S j < length l)%nat ->
  exists t', range_tabs t l !! j = Some t' /\ range_tabs t l !! S j = Some (local_ins d nv t' i).1.1.
Proof.
  revert t j. induction l as [|x l IH]; intros t j; simpl; [done|]. intros J Lj. destruct j as [|j]; simpl in J.
  - simplify_eq. exists t. split; [done|]. simpl. destruct l; simpl in *; [lia | done].
  - destruct (IH (local_ins d nv t x).1.1 j J ltac:(lia)) as (t' & A & B). by exists t'.
Qed.

Lemma slice_drop from s e to sp : tiles from ((s, e) :: sp) to -> (to <= length (ins fn))%nat ->
  drop from (ins fn) = slice s e ++ drop e (ins fn) /\ length (slice s e) = (e - s)%nat.
Proof.
  intros T Hto. pose proof (tiles_bounds _ _ _ 0 s e T eq_refl) as B. destruct T as (-> & L & T).
  unfold slice. split.
  - rewrite <- (take_drop (e - from) (drop from (ins fn))) at 1. f_equal. rewrite drop_drop. f_equal. lia.
  - rewrite length_take, length_drop. lia.
Qed.

Lemma blocks_tabs_code t from sp : tiles from sp (length (ins fn)) ->
  (local_blocks fn d t sp).1 = zip_with rewrites (blocks_tabs t sp) (drop from (ins fn)).
Proof.
  revert t from. induction sp as [|[s e] sp IH]; intros t from T; [done|].
  destruct (slice_drop _ _ _ _ _ T ltac:(lia)) as [E Ln]. simpl. fold (slice s e). rewrite E.
  rewrite zip_with_app by (by rewrite range_tabs_length). rewrite <- local_range_code.
  fold nv. destruct T as (_ & _ & T). specialize (IH (local_range d nv (lctab_reset t) (slice s e)).1.1 e T).
  rewrite <- IH. destruct (local_range d nv (lctab_reset t) (slice s e)) as [[t' code] n]. simpl.
  by destruct (local_blocks fn d t' sp) as [rest m].
Qed.

Lemma blocks_tabs_length t from sp : tiles from sp (length (ins fn)) ->
  length (blocks_tabs t sp) = (length (ins fn) - from)%nat.
Proof.
  revert t from. induction sp as [|[s e] sp IH]; intros t from T; simpl.
  - simpl in T. lia.
  - destruct (slice_drop _ _ _ _ _ T ltac:(lia)) as [_ Ln]. pose proof (tiles_bounds _ _ _ 0 s e T eq_refl).
    destruct T as (-> & L & T). rewrite length_app, range_tabs_length, Ln, (IH _ e T). lia.
Qed.

(** At a block's start the table is empty; inside it is what the instruction before
    left. *)
Lemma blocks_tabs_at t from sp k s e n : lct_ok t -> tiles from sp (length (ins fn)) ->
  sp !! k = Some (s, e) -> (s <= n < e)%nat ->
  exists tn, blocks_tabs t sp !! (n - from)%nat = Some tn /\
    (n = s -> exists t0, lct_ok t0 /\ tn = lctab_reset t0) /\
    (forall m i, n = S m -> (s <= m)%nat -> ins fn !! m = Some i ->
       exists tm, blocks_tabs t sp !! (m - from)%nat = Some tm /\ tn = (local_ins d nv tm i).1.1).
Proof.
  revert t from k. induction sp as [|[s0 e0] sp IH]; intros t from k Ht T K Hn; [done|].
  destruct (slice_drop _ _ _ _ _ T ltac:(lia)) as [E Ln]. simpl.
  assert (Lr : length (range_tabs (lctab_reset t) (slice s0 e0)) = (e0 - s0)%nat) by (by rewrite range_tabs_length).
  destruct k as [|k]; simpl in K.
  - simplify_eq. destruct T as (-> & L & T).
    destruct (lookup_lt_is_Some_2 (range_tabs (lctab_reset t) (slice from e)) (n - from)) as [tn Tn]; [lia|].
    exists tn. split; [by apply lookup_app_l_Some|]. split.
    + intros ->. rewrite Nat.sub_diag in Tn. exists t. split; [done|].
      destruct (slice from e); simpl in *; congruence.
    + intros m i -> Hm I.
      assert (J : slice from e !! (m - from)%nat = Some i).
      { rewrite <- (lookup_app_l _ (drop e (ins fn))) by lia. rewrite <- E, lookup_drop. rewrite <- I. f_equal. lia. }
      destruct (range_tabs_step (lctab_reset t) (slice from e) (m - from) i J) as (tm & A & B); [lia|].
      exists tm. split; [by apply lookup_app_l_Some|].
      replace (S m - from)%nat with (S (m - from)) in Tn by lia. congruence.
  - pose proof T as (-> & L & T'). pose proof (tiles_bounds _ _ _ _ _ _ T' K) as B.
    destruct (IH (local_range d nv (lctab_reset t) (slice from e0)).1.1 e0 k) as (tn & A & S1 & S2); try done.
    { by apply local_range_ok, lctab_reset_ok. }
    exists tn. split; [|split; [done|]].
    + rewrite lookup_app_r by lia. rewrite <- A. f_equal. lia.
    + intros m i Em Hm I. destruct (S2 m i Em Hm I) as (tm & Tm & Et). exists tm. split; [|done].
      rewrite lookup_app_r by lia. rewrite <- Tm. f_equal. lia.
Qed.

(** *** The pass *)

Let tabs : list lctab := blocks_tabs lctab_init (spans fn).

Definition local_match (n : nat) (es et : env) : Prop :=
  es = et /\ forall t, tabs !! n = Some t -> tab_holds t es.

Lemma tabs_at n i : ins fn !! n = Some i -> exists k s e tn, spans fn !! k = Some (s, e) /\
  (s <= n < e)%nat /\ tabs !! n = Some tn /\ (n = s -> exists t0, lct_ok t0 /\ tn = lctab_reset t0) /\
  (forall m j, n = S m -> (s <= m)%nat -> ins fn !! m = Some j ->
     exists tm, tabs !! m = Some tm /\ tn = (local_ins d nv tm j).1.1).
Proof.
  intros I. pose proof (lookup_lt_Some _ _ _ I) as L. pose proof (spans_tiles fn ltac:(lia)) as T.
  destruct (tiles_at _ _ _ n T ltac:(lia)) as (k & s & e & K & Hn).
  destruct (blocks_tabs_at lctab_init 0 (spans fn) k s e n lctab_init_ok T K Hn) as (tn & A & B & C).
  rewrite Nat.sub_0_r in A. exists k, s, e, tn. do 4 (split; [done|]).
  intros m j Em Hm J. destruct (C m j Em Hm J) as (tm & Tm & Et). rewrite Nat.sub_0_r in Tm. eauto.
Qed.

(** Arriving at a label, or falling through, the table holds. *)
Lemma label_match l m es : label_pos fn l = Some m -> local_match m es es.
Proof.
  intros (i & I & O & _)%label_pos_spec. split; [done|]. intros t Tm.
  destruct (tabs_at m i I) as (k & s & e & tn & K & Hn & A & B & _).
  destruct (B (label_starts_block fn k s e m i K Hn I O)) as (t0 & H0 & ->). simplify_eq. by apply reset_holds.
Qed.

Lemma fall_match n i es w e' w' : ins fn !! n = Some i -> local_match n es es ->
  exec1 fn i es w = Fall e' w' -> local_match (S n) e' e'.
Proof using Hwf Hk Hesc.
  intros I [_ H] X. split; [done|]. intros t Tn.
  destruct (ins fn !! S n) as [j|] eqn:J.
  - destruct (tabs_at (S n) j J) as (k & s & e & tn & K & Hn & A & B & C). rewrite A in Tn. simplify_eq.
    destruct (decide (S n = s)) as [E|N]; [destruct (B E) as (t0 & H0 & ->); by apply reset_holds|].
    destruct (C n i eq_refl ltac:(lia) I) as (tm & Tm & ->). eapply local_holds; [done | by apply H | done].
  - apply lookup_lt_Some in Tn. apply lookup_ge_None in J. pose proof (lookup_lt_Some _ _ _ I).
    unfold tabs in Tn. rewrite (blocks_tabs_length _ 0) in Tn by (apply spans_tiles; lia). lia.
Qed.

Definition local_code : list ir_ins := zip_with rewrites tabs (ins fn).

Lemma local_sim : block_sim fn (map (fun i => [i]) local_code) local_match.
Proof using Hwf Hk Hesc.
  intros n i blk es et w I B [<- H]. rewrite list_lookup_fmap in B. unfold local_code in B.
  destruct (tabs_at n i I) as (k & s & e & tn & _ & _ & A & _).
  rewrite (lookup_zip_with_Some' rewrites tabs (ins fn) n tn i A I) in B. simpl in B. injection B as <-.
  simpl. unfold rewrites. rewrite (local_exec1 n tn i es w I (H tn A)).
  destruct (exec1 fn i es w) as [e' w'|l e' w'|o w'|] eqn:X; simpl; try done.
  - eexists. split; [done|]. by eapply fall_match.
  - eexists. split; [done|]. intros m L. by eapply label_match.
Qed.

Lemma local_labels : Forall2 label_ok (ins fn) (map (fun i => [i]) local_code).
Proof.
  apply Forall2_same_length_lookup_2.
  - rewrite length_map. unfold local_code. rewrite length_zip_with.
    destruct (ins fn) as [|i l] eqn:E; [by destruct (length tabs)|].
    unfold tabs. rewrite (blocks_tabs_length _ 0) by (apply spans_tiles; rewrite E; simpl; lia). rewrite E. lia.
  - intros n i blk I B. rewrite list_lookup_fmap in B. unfold local_code in B.
    destruct (tabs_at n i I) as (k & s & e & tn & _ & _ & A & _).
    rewrite (lookup_zip_with_Some' rewrites tabs (ins fn) n tn i A I) in B. simpl in B. injection B as <-.
    unfold rewrites. rewrite local_ins_code. unfold label_ok, op_is.
    destruct (_ || _); case_bool_decide as O; try (by eexists); try (by apply Forall_singleton).
    + eexists. split; [done|]. rewrite rename_op. split; [done|].
      by destruct (rename_fields (copied tn) i) as (_ & _ & _ & _ & _ & _ & _ & _ & -> & _).
    + apply Forall_singleton. by rewrite rename_op.
Qed.

Lemma copyprop_local_code : ins fn <> [] -> nvregs fn <> 0 -> (copyprop_local_run fn).1 = local_code.
Proof.
  intros N V. unfold copyprop_local_run, nins. destruct (ins fn) as [|i0 l0] eqn:E; [done|]. rewrite <- E.
  destruct (Z.eqb_spec (Z.of_nat (length (ins fn))) 0) as [Z0|_]; [rewrite E in Z0; simpl in Z0; lia|].
  destruct (Z.eqb_spec (nvregs fn) 0); [done|]. cbn [orb].
  replace (map _ _) with (spans fn).
  2: { apply list_eq. intros k. rewrite list_lookup_fmap, build_cfg_lookup. by destruct (spans fn !! k) as [[? ?]|]. }
  rewrite (blocks_tabs_code lctab_init 0) by (apply spans_tiles; rewrite E; simpl; lia). done.
Qed.
End Run.

Lemma local_preserves {M : Machine} (fn : ir_func) :
  wf_func fn -> kinds_ok fn -> (forall s, esc s = true -> 0 <= s < nvars fn) ->
  preserves fn (pass_copyprop_local fn).1.
Proof.
  intros Hwf Hk He. unfold pass_copyprop_local.
  destruct (decide (ins fn = [])) as [E|N].
  { unfold copyprop_local_run. rewrite E. unfold nins. rewrite E. simpl. by apply preserves_same. }
  destruct (decide (nvregs fn = 0)) as [V|V].
  { unfold copyprop_local_run. rewrite V, orb_true_r. by apply preserves_same. }
  pose proof (copyprop_local_code fn N V) as Ec. destruct (copyprop_local_run fn) as [code n]. simpl in *. subst code.
  apply (blocks_preserve fn _ (map (fun i => [i]) (local_code fn)) (local_match fn)); try done.
  - simpl. rewrite (concat_singles (fun i => i)). by rewrite map_id.
  - by apply local_labels.
  - by apply local_sim.
  - intros e _ _. split; [done|]. intros t T0. destruct (ins fn) as [|i l] eqn:E; [done|].
    destruct (tabs_at fn 0 i) as (k & s & e0 & tn & K & Hn & A & B & _); [by rewrite E|].
    destruct (B ltac:(lia)) as (t0 & H0 & ->). simplify_eq. by apply reset_holds.
Qed.

(** C15: [pass_copyprop_local] preserves the function. Whatever the filing holds
    stale, the table rewrites a read only to a vreg that holds the same value, and
    no entry outlives its block: same outcomes in the same worlds, termination
    included. *)
Theorem pass_copyprop_local_preserves {M : Machine} (fn : ir_func) :
  wf_func fn -> kinds_ok fn -> (forall s, esc s = true -> 0 <= s < nvars fn) ->
  preserves fn (pass_copyprop_local fn).1.
Proof. apply local_preserves. Qed.

(** The induction variable of a loop, copied and then counted up: the copy is the
    counter until the counter changes. *)
Definition counted : ir_func :=
  code_ 4 [const_ 0 5; mov_ 1 0; mov_ 2 1; const_ 0 6; mov_ 3 1; ret_ 2].

Lemma pass_copyprop_local_preserves_witness :
  preserves (M := still) counted (pass_copyprop_local counted).1 /\
  ins (pass_copyprop_local counted).1 =
    [const_ 0 5; mov_ 1 0; mov_ 2 0; const_ 0 6; mov_ 3 1; ret_ 2].
Proof.
  split; [|vm_compute; reflexivity]. apply (pass_copyprop_local_preserves (M := still)).
  - apply (bool_decide_unpack (wf_func counted)). vm_compute. exact I.
  - apply (bool_decide_unpack (kinds_ok counted)). vm_compute. exact I.
  - discriminate.
Defined.
