(* ===== verification/Dce.v ===== *)
(** * Dead-code elimination: [pass_dce] of [src/src/opt/dce.c]

    An instruction is live when its effect is not its result, or when a live
    instruction reads what it defines; the rest goes. The marking is the
    worklist of the source: [mark_cb] marks a vreg and queues the instructions
    that define it. *)
From stdpp Require Import base numbers list option.
From Stdlib Require Import ZArith Lia FunctionalExtensionality.
From S2P Require Import Prelude Ir Util IrSem Simulate.

Local Open Scope Z_scope.

(** ** The pass *)

(** The chains [dhead]/[dnext]: per vreg the definitions, a landing pad's second
    destination filed as [nins + n]. *)
Fixpoint dce_chain (nvr nin n : Z) (l : list ir_ins) (v : Z) : list Z :=
  match l with
  | [] => []
  | i :: l =>
      let t := def_target i in
      let rest := dce_chain nvr nin (n + 1) l v in
      let rest := if (0 <=? t) && (t <? nvr) && (t =? v) then n :: rest else rest in
      let second := if op_is (i_op i) IR_LANDING then i_b i else -1 in
      if (0 <=? second) && (second <? nvr) && negb (second =? t) && (second =? v)
      then nin + n :: rest else rest
  end.
Definition dce_defs (fn : ir_func) : Z -> list Z := dce_chain (nvregs fn) (nins fn) 0 (ins fn).

(** The strings of the unit ([g_fold_unit]), by length; [None] when there is no
    unit. *)
Definition rodata_load (strs : option (list Z)) (fn : ir_func) (dl : Z -> list Z) (i : ir_ins) : bool :=
  match strs with
  | None => false
  | Some lens =>
      if negb (op_is (i_op i) IR_LOAD) || i_vol i || flash (i_mem i) || (def_target i <? 0) ||
         (i_a i <? 0) || (nvregs fn <=? i_a i) then false
      else match dl (i_a i) with
           | [n] =>
               match ins_at fn n with
               | Some d =>
                   if op_is (i_op d) IR_STRADDR then
                     let lab := i_label d in
                     let m := memoff (i_mem i) in
                     (0 <=? lab) && (lab <? Z.of_nat (length lens)) && (0 <=? m) &&
                     (0 <? i_size i) && (m + i_size i <=? lens !!! Z.to_nat lab)
                   else false
               | None => false
               end
           | _ => false
           end
  end.

(** A call that does nothing but produce a value. *)
Definition value_call (i : ir_ins) : bool :=
  op_is (i_op i) IR_CALL && negb (indirect (i_call i)) &&
  match callee (i_call i) with
  | Some f => inf_no_read f && inf_no_write f && is_nothrow f
  | None => false
  end && (0 <=? def_target i).

(** Is the instruction live whatever reads its result? *)
Definition dce_root (keep_vars : bool) (strs : option (list Z)) (fn : ir_func) (dl : Z -> list Z)
    (i : ir_ins) : bool :=
  if op_is (i_op i) IR_STVAR
  then i_vol i || (keep_vars && (0 <=? i_dst i) && (i_dst i <? nvars fn))
  else if value_call i then false
  else if is_pure (i_op i) && (0 <=? def_target i) && negb (i_vol i) then false
  else negb (rodata_load strs fn dl i).

Record mark := Mark {
  live : Z -> bool;       (* live_t *)
  live_ins : Z -> bool;
  work : list Z }.        (* the stack, its top first *)

Fixpoint mark_defs (nin : Z) (ks : list Z) (m : mark) : mark :=
  match ks with
  | [] => m
  | k :: ks =>
      let x := if k <? nin then k else k - nin in
      mark_defs nin ks
        (if live_ins m x then m
         else Mark (live m) (upd (live_ins m) x true) (x :: work m))
  end.

Definition mark_cb (nvr nin : Z) (dl : Z -> list Z) (v : Z) (m : mark) : Z * mark :=
  (v, if (v <? 0) || (nvr <=? v) || live m v then m
      else mark_defs nin (dl v) (Mark (upd (live m) v true) (live_ins m) (work m))).

Definition mark_ins (fn : ir_func) (dl : Z -> list Z) (n : Z) (m : mark) : mark :=
  match ins_at fn n with
  | Some i => (each_read (mark_cb (nvregs fn) (nins fn) dl) i m).2
  | None => m
  end.

(** [while (m.nwork > 0)]: every instruction is queued at most once, so [nins]
    rounds empty the stack. *)
Fixpoint mark_loop (fuel : nat) (fn : ir_func) (dl : Z -> list Z) (m : mark) : mark :=
  match work m, fuel with
  | n :: rest, S fuel => mark_loop fuel fn dl (mark_ins fn dl n (Mark (live m) (live_ins m) rest))
  | _, _ => m
  end.

Section Pass.
Context (keep_vars : bool) (strs : option (list Z)).

Definition root_at (fn : ir_func) (n : Z) : bool :=
  match ins_at fn n with Some i => dce_root keep_vars strs fn (dce_defs fn) i | None => false end.

Definition mark_init (fn : ir_func) : mark :=
  Mark (fun _ => false) (root_at fn)
       (rev (filter (fun n => root_at fn n = true) (seqZ 0 (nins fn)))).

Definition dce_mark (fn : ir_func) : mark :=
  mark_loop (length (ins fn)) fn (dce_defs fn) (mark_init fn).

Fixpoint keep_live (lv : Z -> bool) (n : Z) (l : list ir_ins) : list (list ir_ins) :=
  match l with
  | [] => []
  | i :: l => (if lv n then [i] else []) :: keep_live lv (n + 1) l
  end.

(** [newpos[n]]: how many instructions before [n] survive. *)
Definition dce_newpos (lv : Z -> bool) (fn : ir_func) (n : Z) : Z :=
  Z.of_nat (length (concat (keep_live lv 0 (take (Z.to_nat n) (ins fn))))).

Definition pass_dce (fn : ir_func) : ir_func :=
  let lv := live_ins (dce_mark fn) in
  set_scope (remap_scopes (dce_newpos lv fn) (nins fn) (var_scope fn))
    (set_ins (concat (keep_live lv 0 (ins fn))) fn).
End Pass.

(** ** The marking is a closed set *)

Section Marking.
Context (fn : ir_func) (dl : Z -> list Z).
Let nin := nins fn.
Let nvr := nvregs fn.

Definition idx (k : Z) : Z := if k <? nins fn then k else k - nins fn.

(** The instructions not yet marked, and those still to visit. *)
Definition pending (m : mark) : nat :=
  length (filter (fun n => live_ins m n = false) (seqZ 0 nin)) + length (work m).

Lemma filter_mark (f : Z -> bool) (x : Z) (l : list Z) :
  NoDup l -> x ∈ l -> f x = false ->
  length (filter (fun n => f n = false) l)
  = S (length (filter (fun n => upd f x true n = false) l)).
Proof.
  intros ND Hx Hf. apply (filter_remove x); try done.
  - unfold upd. by rewrite Z.eqb_refl.
  - intros y Hy. unfold upd. by destruct (Z.eqb_spec y x).
Qed.

(** One round of marking only adds, queues what it adds, and keeps the count. *)
Record grows (m m' : mark) : Prop := {
  grow_live v : live m v = true -> live m' v = true;
  grow_ins n : live_ins m n = true -> live_ins m' n = true;
  grow_new n : live_ins m' n = true -> live_ins m n = true \/ n ∈ work m';
  grow_work n : n ∈ work m -> n ∈ work m';
  grow_pending : pending m' = pending m }.

Lemma grows_refl m : grows m m.
Proof. split; auto. Qed.

Lemma grows_trans m1 m2 m3 : grows m1 m2 -> grows m2 m3 -> grows m1 m3.
Proof.
  intros A B. split.
  - intros v Hv. by apply B, A.
  - intros n Hn. by apply B, A.
  - intros n [Hn|Hn]%(grow_new _ _ B); [|by right].
    apply (grow_new _ _ A) in Hn as [|]; [by left | right; by apply B].
  - intros n Hn. by apply B, A.
  - rewrite (grow_pending _ _ B). apply A.
Qed.

Lemma mark_defs_grows ks m :
  (forall k, k ∈ ks -> 0 <= idx k < nin) ->
  grows m (mark_defs nin ks m) /\ live (mark_defs nin ks m) = live m /\
  (forall k, k ∈ ks -> live_ins (mark_defs nin ks m) (idx k) = true).
Proof.
  revert m. induction ks as [|k ks IH]; intros m Hk; simpl.
  - split_and!; [apply grows_refl | done | by intros k ?%elem_of_nil].
  - change (if k <? nin then k else k - nin) with (idx k). set (x := idx k).
    set (m1 := if live_ins m x then m else Mark (live m) (upd (live_ins m) x true) (x :: work m)).
    assert (Hx : 0 <= x < nin) by (apply Hk; left).
    assert (G : grows m m1 /\ live m1 = live m /\ live_ins m1 x = true).
    { subst m1. destruct (live_ins m x) eqn:E; [split_and!; [apply grows_refl|done|done]|].
      split_and!; [|done | simpl; unfold upd; by rewrite Z.eqb_refl].
      split; simpl; unfold upd.
      - done.
      - intros n Hn. by destruct (n =? x).
      - intros n Hn. destruct (Z.eqb_spec n x) as [E2|]; [right; rewrite E2; left | by left].
      - intros n Hn. by right.
      - unfold pending. cbn [live_ins work].
        rewrite (filter_mark (live_ins m) x (seqZ 0 nin)) by
          (done || apply NoDup_seqZ || (apply elem_of_seqZ; lia)).
        unfold upd. rewrite length_cons, Nat.add_succ_r. done. }
    destruct G as (G & L & X).
    destruct (IH m1) as (G' & L' & H'); [intros k' Hk'; apply Hk; by right|].
    split_and!; [by eapply grows_trans | congruence |].
    intros k' [->|Hk']%elem_of_cons; [by apply (grow_ins _ _ G') | auto].
Qed.

Lemma mark_cb_grows v m :
  (forall k, k ∈ dl v -> 0 <= idx k < nin) ->
  (forall u k, live m u = true -> k ∈ dl u -> live_ins m (idx k) = true) ->
  let m' := (mark_cb nvr nin dl v m).2 in
  grows m m' /\ (0 <= v < nvr -> live m' v = true) /\
  (forall u k, live m' u = true -> k ∈ dl u -> live_ins m' (idx k) = true).
Proof.
  intros Hr Hd. simpl.
  destruct (Z.ltb_spec v 0), (Z.leb_spec nvr v); simpl;
    try (split_and!; [apply grows_refl | lia | done]).
  destruct (live m v) eqn:L; [split_and!; [apply grows_refl | done | done]|].
  set (m1 := Mark (upd (live m) v true) (live_ins m) (work m)).
  destruct (mark_defs_grows (dl v) m1 Hr) as (G & EL & H').
  split_and!.
  - destruct G as [gl gi gn gw gp]. split; auto. rewrite EL. simpl. unfold upd.
    intros u Hu. by destruct (u =? v).
  - intros _. rewrite EL. simpl. unfold upd. by rewrite Z.eqb_refl.
  - intros u k. rewrite EL. simpl. unfold upd. destruct (Z.eqb_spec u v) as [->|]; [auto|].
    intros Hu Hk. apply (grow_ins _ _ G), (Hd u k Hu Hk).
Qed.

(** Marking over everything an instruction reads. *)
Lemma mark_reads_grows l m :
  (forall v k, v ∈ l -> k ∈ dl v -> 0 <= idx k < nin) ->
  (forall u k, live m u = true -> k ∈ dl u -> live_ins m (idx k) = true) ->
  let m' := foldl (fun m v => (mark_cb nvr nin dl v m).2) m l in
  grows m m' /\ (forall v, v ∈ l -> 0 <= v < nvr -> live m' v = true) /\
  (forall u k, live m' u = true -> k ∈ dl u -> live_ins m' (idx k) = true).
Proof.
  revert m. induction l as [|v l IH]; intros m Hr Hd; cbn [foldl].
  - split_and!; [apply grows_refl | by intros v ?%elem_of_nil | done].
  - destruct (mark_cb_grows v m) as (G & Hv & Hd'); [intros k; apply Hr; left | done |].
    destruct (IH (mark_cb nvr nin dl v m).2) as (G' & Hl & Hd''); [intros u k Hu; apply Hr; by right | done |].
    split_and!; [by eapply grows_trans | | done].
    intros u [->|Hu]%elem_of_cons Hb; [apply (grow_live _ _ G'); auto | auto].
Qed.

(** What the loop keeps: definitions of live vregs are live, and a live
    instruction waits in the stack or has had its reads marked. *)
Record marked (m : mark) : Prop := {
  mk_defs u k : live m u = true -> k ∈ dl u -> live_ins m (idx k) = true;
  mk_reads n i r : live_ins m n = true -> n ∉ work m -> ins_at fn n = Some i ->
    r ∈ reads i -> 0 <= r < nvr -> live m r = true }.

Context (Hdl : forall v k, k ∈ dl v -> 0 <= idx k < nin).

Lemma mark_loop_closed fuel m :
  (pending m <= fuel)%nat -> marked m ->
  let m' := mark_loop fuel fn dl m in
  marked m' /\ work m' = [] /\ (forall n, live_ins m n = true -> live_ins m' n = true).
Proof using Hdl.
  revert m. induction fuel as [|fuel IH]; intros m Hp Hm; simpl.
  - unfold pending in Hp. destruct (work m) eqn:W; simpl in *; [done|lia].
  - destruct (work m) as [|n rest] eqn:W; [done|].
    set (m0 := Mark (live m) (live_ins m) rest). unfold mark_ins.
    assert (P0 : (pending m0 <= fuel)%nat) by (unfold pending in *; rewrite W in Hp; simpl in *; lia).
    assert (step : exists m1, (match ins_at fn n with
                   | Some i => (each_read (mark_cb (nvregs fn) (nins fn) dl) i m0).2
                   | None => m0 end) = m1 /\ grows m0 m1 /\ marked m1).
    { destruct (ins_at fn n) as [i|] eqn:I; eexists; split; try reflexivity.
      - rewrite each_read_observe by done. simpl. rewrite <- reads_eq.
        destruct (mark_reads_grows (reads i) m0) as (G & Hl & Hd);
          [intros; by eapply Hdl | apply Hm |]. split; [done|]. split; [done|].
        intros n' i' r Hn' Hw Hi Hr Hb. apply (grow_new _ _ G) in Hn' as [Hn'|]; [|done].
        destruct (decide (n' = n)) as [->|]; [simplify_eq; auto|].
        apply (grow_live _ _ G), (mk_reads _ Hm n' i' r); try done.
        rewrite W. intros [|]%elem_of_cons; [done|]. apply Hw. by apply (grow_work _ _ G).
      - split; [apply grows_refl|]. split; [apply Hm|]. intros n' i' r Hn' Hw Hi.
        apply (mk_reads _ Hm n' i' r); try done. rewrite W.
        intros [->|]%elem_of_cons; [congruence | done]. }
    destruct step as (m1 & -> & G & Hm1).
    destruct (IH m1) as (A & B & C); [rewrite (grow_pending _ _ G); done | done |].
    split_and!; [done | done |]. intros n' Hn'. apply C, (grow_ins _ _ G), Hn'.
Qed.
End Marking.

(** ** What the pass keeps *)

Lemma dce_chain_In nvr nin n l v k :
  k ∈ dce_chain nvr nin n l v ->
  0 <= v < nvr /\ exists j i, l !! j = Some i /\
    (k = n + Z.of_nat j /\ def_target i = v \/
     k = nin + (n + Z.of_nat j) /\ i_op i = IR_LANDING /\ i_b i = v).
Proof.
  revert n. induction l as [|x l IH]; intros n; simpl; [by intros ?%elem_of_nil|].
  set (rest := dce_chain nvr nin (n + 1) l v).
  assert (IH' : k ∈ rest -> 0 <= v < nvr /\ exists j i, (x :: l) !! j = Some i /\
    (k = n + Z.of_nat j /\ def_target i = v \/
     k = nin + (n + Z.of_nat j) /\ i_op i = IR_LANDING /\ i_b i = v)).
  { intros (? & j & i & E & Hk)%IH. split; [done|]. exists (S j), i. split; [done|].
    destruct Hk as [[Hk Ht]|[Hk Ht]]; [left; split; [lia|done] | right; split; [lia|done]]. }
  assert (T : k ∈ (if (0 <=? def_target x) && (def_target x <? nvr) && (def_target x =? v)
                   then n :: rest else rest) -> 0 <= v < nvr /\ exists j i, (x :: l) !! j = Some i /\
    (k = n + Z.of_nat j /\ def_target i = v \/
     k = nin + (n + Z.of_nat j) /\ i_op i = IR_LANDING /\ i_b i = v)).
  { destruct (_ && _ && _) eqn:B; [|done]. intros [->|H]%elem_of_cons; [|auto]. split; [lia|].
    exists O, x. split; [done|]. left. split; [lia|]. lia. }
  destruct (_ && _ && _ && _) eqn:B; [|done]. intros [->|H]%elem_of_cons; [|auto].
  unfold op_is in B. case_bool_decide as L; [|lia].
  split; [lia|]. exists O, x. split; [done|]. right. split; [lia|]. split; [done|lia].
Qed.

Lemma dce_chain_complete nvr nin n l v j i :
  l !! j = Some i -> 0 <= v < nvr -> def_target i = v -> n + Z.of_nat j ∈ dce_chain nvr nin n l v.
Proof.
  revert n j. induction l as [|x l IH]; intros n j E Hv Ht; [done|]. simpl.
  set (rest := dce_chain nvr nin (n + 1) l v).
  assert (T : n + Z.of_nat j ∈ (if (0 <=? def_target x) && (def_target x <? nvr) && (def_target x =? v)
                   then n :: rest else rest)).
  { destruct j as [|j]; simpl in E.
    - simplify_eq. rewrite Z.add_0_r.
      replace (_ && _ && _) with true by (symmetry; lia). left.
    - pose proof (IH (n + 1) j E Hv Ht) as H.
      replace (n + 1 + Z.of_nat j) with (n + Z.of_nat (S j)) in H by lia.
      destruct (_ && _ && _); [by right | done]. }
  destruct (_ && _ && _ && _); [by right | done].
Qed.

Section Kept.
Context (keep_vars : bool) (strs : option (list Z)) (fn : ir_func).
Let m := dce_mark keep_vars strs fn.

Lemma dce_defs_idx v k : k ∈ dce_defs fn v -> 0 <= idx fn k < nins fn.
Proof.
  intros (_ & j & i & E & Hk)%dce_chain_In. pose proof (lookup_lt_Some _ _ _ E).
  unfold idx, nins in *. destruct (Z.ltb_spec k (Z.of_nat (length (ins fn)))); lia.
Qed.

Lemma mark_init_pending : (pending fn (mark_init keep_vars strs fn) <= length (ins fn))%nat.
Proof.
  unfold pending, mark_init. simpl. rewrite length_rev.
  assert (H : forall l : list Z, (length (filter (fun n => root_at keep_vars strs fn n = false) l)
    + length (filter (fun n => root_at keep_vars strs fn n = true) l) = length l)%nat).
  { induction l as [|x l IH]; [done|]. rewrite !filter_cons.
    destruct (root_at keep_vars strs fn x); simpl; lia. }
  rewrite H, length_seqZ. unfold nins. lia.
Qed.

(** The final marking is closed, whatever the function. *)
Lemma dce_mark_closed :
  (forall n i, ins_at fn n = Some i -> dce_root keep_vars strs fn (dce_defs fn) i = true ->
     live_ins m n = true) /\
  (forall n i v, ins_at fn n = Some i -> def_target i = v -> 0 <= v < nvregs fn ->
     live m v = true -> live_ins m n = true) /\
  (forall n i r, live_ins m n = true -> ins_at fn n = Some i -> r ∈ reads i ->
     0 <= r < nvregs fn -> live m r = true).
Proof.
  destruct (mark_loop_closed fn (dce_defs fn) dce_defs_idx (length (ins fn)) (mark_init keep_vars strs fn))
    as (Hm & Hw & Hmono).
  - apply mark_init_pending.
  - split; simpl; [done|]. intros n i r Hl Hn I. destruct Hn.
    apply list_elem_of_In, in_rev. rewrite rev_involutive. apply list_elem_of_In.
    apply list_elem_of_filter. split; [done|]. apply elem_of_seqZ.
    pose proof (ins_at_nonneg _ _ _ I). rewrite ins_at_lookup in I by done.
    apply lookup_lt_Some in I. unfold nins. lia.
  - fold m in Hm, Hw, Hmono. split_and!.
    + intros n i I Hr. apply Hmono. simpl. unfold root_at. by rewrite I.
    + intros n i v I Ht Hv Hl. pose proof (ins_at_nonneg _ _ _ I).
      rewrite ins_at_lookup in I by done. pose proof (lookup_lt_Some _ _ _ I).
      pose proof (dce_chain_complete (nvregs fn) (nins fn) 0 _ v _ _ I Hv Ht) as K.
      pose proof (mk_defs _ _ _ Hm v _ Hl K) as L. unfold idx in L.
      rewrite Z.add_0_l, Z2Nat.id in L by done.
      destruct (Z.ltb_spec n (nins fn)); [done|]. unfold nins in *. lia.
    + intros n i r Hl I Hr Hb. eapply (mk_reads _ _ _ Hm n); try done. rewrite Hw. apply not_elem_of_nil.
Qed.
End Kept.

Lemma keep_live_lookup lv n l j i : l !! j = Some i ->
  keep_live lv n l !! j = Some (if lv (n + Z.of_nat j) then [i] else []).
Proof.
  revert n j. induction l as [|x l IH]; intros n j E; [done|]. destruct j as [|j]; simpl in *.
  - simplify_eq. by rewrite Z.add_0_r.
  - rewrite (IH _ _ E). replace (n + 1 + Z.of_nat j) with (n + Z.of_nat (S j)) by lia. done.
Qed.

Lemma keep_live_labels lv n l :
  (forall j i, l !! j = Some i -> i_op i = IR_LABEL -> lv (n + Z.of_nat j) = true) ->
  Forall2 label_ok l (keep_live lv n l).
Proof.
  revert n. induction l as [|x l IH]; intros n H; simpl; constructor.
  - unfold label_ok, op_is. case_bool_decide as O.
    + pose proof (H 0%nat x eq_refl O) as L. rewrite Z.add_0_r in L. rewrite L. eauto.
    + destruct (lv n); repeat constructor; done.
  - apply IH. intros j i E O. replace (n + 1 + Z.of_nat j) with (n + Z.of_nat (S j)) by lia. eauto.
Qed.

Lemma rodata_load_inv (strs : option (list Z)) fn i : rodata_load strs fn (dce_defs fn) i = true ->
  exists lens k d, strs = Some lens /\ dce_defs fn (i_a i) = [k] /\ ins_at fn k = Some d /\
    i_op i = IR_LOAD /\ i_vol i = false /\ flash (i_mem i) = false /\ i_op d = IR_STRADDR /\
    0 <= i_label d < Z.of_nat (length lens) /\ 0 <= memoff (i_mem i) /\ 0 < i_size i /\
    memoff (i_mem i) + i_size i <= lens !!! Z.to_nat (i_label d).
Proof.
  unfold rodata_load, op_is. destruct strs as [lens|]; [|done].
  case_bool_decide; simpl; [|done]. destruct (i_vol i) eqn:?, (flash (i_mem i)) eqn:?; try done. simpl.
  destruct (_ || _ || _); [done|]. destruct (dce_defs fn (i_a i)) as [|k []] eqn:?; try done.
  destruct (ins_at fn k) as [d|] eqn:?; [|done]. case_bool_decide; [|done].
  intros B. exists lens, k, d. split_and!; done || lia.
Qed.

Lemma label_root kv strs fn dl i : i_op i = IR_LABEL -> dce_root kv strs fn dl i = true.
Proof.
  intros O. unfold dce_root, value_call, rodata_load, op_is. rewrite O. simpl. by destruct strs.
Qed.

(** ** The pass preserves the function *)

Section Correct.
Context {M : Machine} (keep_vars : bool) (strs : option (list Z)) (fn : ir_func).
Let m := dce_mark keep_vars strs fn.
Let tgt := pass_dce keep_vars strs fn.

(** What the pass relies on outside the function: memory reaches a slot only
    through an address that is still taken; a call inferred to touch no memory
    and not to throw only returns a value, and so does a load inside a string
    constant; a landing pad's result is no string's address. *)
Record dce_context : Prop := {
  esc_slot s : esc s = true -> 0 <= s < nvars fn;
  esc_taken s : esc s = true -> exists i, i ∈ ins tgt /\ i_op i = IR_ADDR /\ i_a i = s;
  call_value i vals sl w : i ∈ ins fn -> value_call i = true ->
    exists v1 v2, ext (shape i) vals sl w = XRet v1 v2 sl w;
  string_load i d lens sl w : i ∈ ins fn -> d ∈ ins fn -> strs = Some lens ->
    i_op i = IR_LOAD -> i_vol i = false -> flash (i_mem i) = false -> i_op d = IR_STRADDR ->
    0 <= i_label d < Z.of_nat (length lens) -> 0 <= memoff (i_mem i) -> 0 < i_size i ->
    memoff (i_mem i) + i_size i <= lens !!! Z.to_nat (i_label d) ->
    exists v1 v2, ext (shape i) [pure_ext (shape d) []] sl w = XRet v1 v2 sl w;
  landing_apart i d : i ∈ ins fn -> d ∈ ins fn -> i_op i = IR_LANDING -> i_op d = IR_STRADDR ->
    i_dst i <> i_dst d /\ i_b i <> i_dst d }.

Context (Hwf : wf_func fn) (Hctx : dce_context).

(** Source and result agree on what is live and on what memory reaches; and a
    vreg that only a [straddr] defines holds that address. *)
Record dce_inv (es et : env) : Prop := {
  inv_live v : v < 0 \/ v < nvregs fn /\ live m v = true -> es v = et v;
  inv_esc s : esc s = true -> is_Some (es s);
  inv_str v k d x : dce_defs fn v = [k] -> ins_at fn k = Some d -> i_op d = IR_STRADDR ->
    es v = Some x -> x = pure_ext (shape d) [] }.

Lemma ins_elem n i : ins_at fn n = Some i -> i ∈ ins fn.
Proof.
  intros I. rewrite ins_at_lookup in I by (by eapply ins_at_nonneg). by eapply list_elem_of_lookup_2.
Qed.

Lemma kept_live i : i ∈ ins tgt -> exists n, ins_at fn n = Some i /\ live_ins m n = true.
Proof.
  unfold tgt, pass_dce. simpl. fold m. rewrite list_elem_of_In, in_concat.
  intros (blk & HB & Hi). apply list_elem_of_In in HB, Hi.
  apply list_elem_of_lookup in HB as (j & HB).
  destruct (ins fn !! j) as [x|] eqn:E.
  - rewrite (keep_live_lookup _ _ _ _ _ E) in HB. simplify_eq.
    destruct (live_ins m (0 + Z.of_nat j)) eqn:L; [|by apply elem_of_nil in Hi].
    apply list_elem_of_singleton in Hi as ->. exists (Z.of_nat j).
    rewrite ins_at_lookup, Nat2Z.id by lia. auto.
  - exfalso. apply lookup_ge_None in E. apply lookup_lt_Some in HB.
    assert (L : forall lv n l, length (keep_live lv n l) = length l)
      by (intros lv n l; revert n; induction l; intros; simpl; auto).
    rewrite L in HB. lia.
Qed.

Lemma esc_live s : esc s = true -> live m s = true.
Proof using Hwf Hctx.
  intros Hs. destruct (esc_taken Hctx s Hs) as (i & Hi & O & A).
  destruct (kept_live i Hi) as (n & I & L).
  destruct (dce_mark_closed keep_vars strs fn) as (_ & _ & H).
  apply (H n i); try done.
  - rewrite reads_eq. unfold reads_spec. rewrite O, A. left.
  - pose proof (esc_slot Hctx s Hs). destruct Hwf. lia.
Qed.

Lemma slots_agree es et : dce_inv es et -> slots_out es = slots_out et.
Proof using Hwf Hctx.
  intros HI. apply functional_extensionality. intros s. unfold slots_out.
  destruct (esc s) eqn:E; [|done]. rewrite (inv_live _ _ HI s); [done|]. right. split; [|by apply esc_live].
  pose proof (esc_slot Hctx s E). destruct Hwf. lia.
Qed.

Lemma slots_same es et : dce_inv es et -> slots_in es (slots_out es) = es.
Proof.
  intros HI. apply functional_extensionality. intros s. unfold slots_in, slots_out.
  destruct (esc s) eqn:E; [|done]. destruct (inv_esc _ _ HI s E) as [x ->]. done.
Qed.

(** *** The invariant under writes *)

Definition str_ok (t v : Z) : Prop := forall k d,
  dce_defs fn t = [k] -> ins_at fn k = Some d -> i_op d = IR_STRADDR -> v = pure_ext (shape d) [].

Lemma inv_write es et t v :
  dce_inv es et -> str_ok t v -> dce_inv (write es t v) (write et t v).
Proof.
  intros HI HS. split.
  - intros u Hu. apply write_eq; intros; by apply (inv_live _ _ HI).
  - intros s Hs. pose proof (inv_esc _ _ HI s Hs) as E. unfold write, upd.
    destruct (t <? 0); [done|]. destruct (s =? t); [by eexists | done].
  - intros u k d x Hd Hk O. unfold write, upd.
    destruct (t <? 0); [by eapply (inv_str _ _ HI)|].
    destruct (Z.eqb_spec u t) as [->|]; [|by eapply (inv_str _ _ HI)].
    intros [= <-]. by eapply HS.
Qed.

Lemma inv_write_dead es et t v :
  dce_inv es et -> str_ok t v -> t < 0 \/ nvregs fn <= t \/ live m t = false ->
  dce_inv (write es t v) et.
Proof.
  intros HI HS Ht. pose proof (inv_write es et t v HI HS) as [A B C]. split; [|done|done].
  intros u Hu. rewrite A by done. unfold write, upd. destruct (Z.ltb_spec t 0); [done|].
  destruct (Z.eqb_spec u t) as [->|]; [|done]. exfalso. destruct Hu as [|[? Hu]], Ht as [|[|Ht]]; try lia. congruence.
Qed.

Lemma inv_slots es et sl :
  dce_inv es et -> dce_inv (slots_in es sl) (slots_in et sl).
Proof using Hwf Hctx.
  intros HI. split.
  - intros v Hv. unfold slots_in. destruct (esc v); [done | by apply (inv_live _ _ HI)].
  - intros s Hs. unfold slots_in. rewrite Hs. eauto.
  - intros v k d x Hd Hk O. unfold slots_in. destruct (esc v) eqn:E; [|by eapply (inv_str _ _ HI)].
    exfalso. pose proof (esc_slot Hctx v E) as Hv.
    assert (K : k ∈ dce_defs fn v) by (rewrite Hd; left).
    apply dce_chain_In in K as (_ & j & i & I & [[-> Ht]| [-> _]]).
    + rewrite Z.add_0_l, ins_at_lookup, Nat2Z.id in Hk by lia. simplify_eq.
      destruct Hwf as [_ F]. pose proof (Forall_lookup_1 _ _ _ _ F Hk) as [_ W].
      unfold def_target, op_is in Hv. rewrite O in W, Hv. simpl in W, Hv.
      destruct W as [|]; [done|lia].
    + apply lookup_lt_Some in I. unfold ins_at in Hk. destruct (_ <? 0); [done|].
      apply lookup_lt_Some in Hk. unfold nins in *. lia.
Qed.

Lemma str_ok_def n i v : ins_at fn n = Some i ->
  (i_op i = IR_STRADDR -> v = pure_ext (shape i) []) -> str_ok (def_target i) v.
Proof.
  intros I Hv k d Hd Hk O. pose proof (ins_at_nonneg _ _ _ I) as Hn.
  assert (K : k ∈ dce_defs fn (def_target i)) by (rewrite Hd; left).
  apply dce_chain_In in K as (Hb & _). rewrite ins_at_lookup in I by done.
  pose proof (dce_chain_complete _ (nins fn) 0 _ _ _ _ I Hb eq_refl) as C.
  unfold dce_defs in Hd. rewrite Hd in C. apply list_elem_of_singleton in C as <-.
  rewrite ins_at_lookup, Z.add_0_l, Nat2Z.id in Hk by lia. simplify_eq. auto.
Qed.

Lemma sole_def_target v k d :
  dce_defs fn v = [k] -> ins_at fn k = Some d -> 0 <= v /\ def_target d = v.
Proof.
  intros Hd Hk. assert (K : k ∈ dce_defs fn v) by (rewrite Hd; left).
  apply dce_chain_In in K as (Hb & j & i & I & [[-> Ht]| [-> _]]).
  - rewrite Z.add_0_l, ins_at_lookup, Nat2Z.id in Hk by lia. simplify_eq. split; [lia|done].
  - exfalso. unfold ins_at in Hk. destruct (_ <? 0); [done|].
    apply lookup_lt_Some in Hk, I. unfold nins in *. lia.
Qed.

Lemma str_ok_landing n i t v : ins_at fn n = Some i -> i_op i = IR_LANDING ->
  t = i_dst i \/ t = i_b i -> str_ok t v.
Proof using Hctx.
  intros I O Ht k d Hd Hk Od. exfalso. destruct (sole_def_target _ _ _ Hd Hk) as [_ T].
  destruct (landing_apart Hctx i d (ins_elem _ _ I) (ins_elem _ _ Hk) O Od) as [A B].
  unfold def_target, op_is in T. rewrite Od in T. simpl in T. destruct Ht; congruence.
Qed.

Lemma computes_dst i : computes i = true -> i_dst i = def_target i.
Proof. unfold computes, def_target, op_is. destruct (i_op i); done. Qed.

Lemma eval_straddr i (e : env) vals v : i_op i = IR_STRADDR -> mapM e (reads i) = Some vals ->
  eval i vals = Some v -> v = pure_ext (shape i) [].
Proof.
  intros O V. rewrite reads_eq in V. unfold reads_spec in V. rewrite O in V. injection V as <-.
  unfold eval. rewrite O. simpl. congruence.
Qed.

(** *** A live instruction does the same in both *)

Lemma live_ext_sim n n' i es et w vals :
  ins_at fn n = Some i -> i_op i <> IR_STRADDR -> dce_inv es et ->
  flow_sim fn (fun _ => dce_inv) n' (exec_ext fn i vals es w) (exec_ext fn i vals et w).
Proof using Hwf Hctx.
  intros I O HI. unfold exec_ext. rewrite (slots_agree _ _ HI).
  destruct (ext (shape i) vals (slots_out et) w) as [v1 v2 sl w'|sl w'|w']; simpl.
  - eexists. split; [done|]. unfold write_ext, op_is. case_bool_decide as L.
    + do 2 (eapply inv_write; [|eapply str_ok_landing; eauto]). by eapply inv_slots.
    + eapply inv_write; [by eapply inv_slots|]. by eapply str_ok_def.
  - destruct (eh fn !! _); [|done]. destruct (_ <=? 0); [done|]. simpl. eexists. split; [done|].
    intros. by eapply inv_slots.
  - done.
Qed.

Lemma live_sim n i es et w :
  ins fn !! n = Some i -> live_ins m (Z.of_nat n) = true -> dce_inv es et ->
  flow_sim fn (fun _ => dce_inv) n (exec1 fn i es w) (exec1 fn i et w).
Proof using Hwf Hctx.
  intros I HL HI.
  assert (I' : ins_at fn (Z.of_nat n) = Some i) by (rewrite ins_at_lookup, Nat2Z.id by lia; done).
  assert (E : mapM es (reads i) = mapM et (reads i)).
  { apply mapM_ext_in. intros r Hr. apply (inv_live _ _ HI).
    destruct (Z_lt_dec r 0); [by left|]. right.
    assert (Hb : r < nvregs fn).
    { destruct Hwf as [_ F]. pose proof (Forall_lookup_1 _ _ _ _ F I) as [W _].
      apply list_elem_of_lookup in Hr as [j Hr]. exact (Forall_lookup_1 _ _ _ _ W Hr). }
    split; [done|]. destruct (dce_mark_closed keep_vars strs fn) as (_ & _ & H).
    apply (H (Z.of_nat n) i); try done. lia. }
  unfold exec1. rewrite E. destruct (mapM et (reads i)) as [vals|] eqn:V; [|done].
  destruct (computes i) eqn:C.
  - destruct (eval i vals) as [v|] eqn:Ev; [|done]. simpl. eexists. split; [done|].
    rewrite (computes_dst _ C). eapply inv_write; [done|]. eapply str_ok_def; [done|].
    intros O. by eapply eval_straddr.
  - pose proof (live_ext_sim (Z.of_nat n) n i es et w vals I') as HX.
    destruct (i_op i) eqn:O; try (by unfold computes, op_is in C; rewrite O in C);
      try (by apply HX); try (simpl; by eauto);
      try (destruct vals as [|x [|]]; try (by apply HX));
      try (case_match; simpl; by eauto).
    + destruct (i_vol i); [by apply HX|]. simpl. eexists. split; [done|].
      assert (T : i_dst i = def_target i) by (unfold def_target, op_is; by rewrite O).
      rewrite T. eapply inv_write; [done|]. eapply str_ok_def; [done|]. by rewrite O.
    + simpl. eauto.
Qed.

(** *** A dead instruction changes nothing that is live *)

Lemma dead_target n i : ins_at fn n = Some i -> live_ins m n = false ->
  def_target i < 0 \/ nvregs fn <= def_target i \/ live m (def_target i) = false.
Proof.
  intros I HL. destruct (Z_lt_dec (def_target i) 0); [by left|].
  destruct (Z_le_dec (nvregs fn) (def_target i)); [by right; left|]. do 2 right.
  destruct (live m (def_target i)) eqn:L; [|done].
  destruct (dce_mark_closed keep_vars strs fn) as (_ & H & _).
  pose proof (H n i _ I eq_refl ltac:(lia) L). unfold m in HL. congruence.
Qed.

Lemma dead_ext_sim n i vals es et w v1 v2 :
  ins_at fn (Z.of_nat n) = Some i -> live_ins m (Z.of_nat n) = false ->
  i_op i <> IR_LANDING -> i_op i <> IR_STRADDR ->
  ext (shape i) vals (slots_out es) w = XRet v1 v2 (slots_out es) w -> dce_inv es et ->
  flow_sim fn (fun _ => dce_inv) n (exec_ext fn i vals es w) (Fall et w).
Proof.
  intros I HL O O' E HI. unfold exec_ext. rewrite E. simpl. eexists. split; [done|].
  rewrite (slots_same _ _ HI). unfold write_ext, op_is. rewrite bool_decide_false by done.
  apply inv_write_dead; [done | by eapply str_ok_def | by eapply dead_target].
Qed.

Lemma dead_sim n i es et w :
  ins fn !! n = Some i -> live_ins m (Z.of_nat n) = false -> dce_inv es et ->
  flow_sim fn (fun _ => dce_inv) n (exec1 fn i es w) (Fall et w).
Proof using Hwf Hctx.
  intros I HL HI.
  assert (I' : ins_at fn (Z.of_nat n) = Some i) by (rewrite ins_at_lookup, Nat2Z.id by lia; done).
  pose proof (ins_elem _ _ I') as Hin. pose proof (dead_target _ _ I' HL) as Ht.
  assert (Hr : dce_root keep_vars strs fn (dce_defs fn) i = false).
  { destruct (dce_root _ _ _ _ _) eqn:E; [|done].
    destruct (dce_mark_closed keep_vars strs fn) as (H & _).
    pose proof (H _ _ I' E). unfold m in HL. congruence. }
  unfold exec1. destruct (mapM es (reads i)) as [vals|] eqn:V; [|done].
  unfold dce_root, op_is in Hr. case_bool_decide as O.
  - (* a store to a dead slot *)
    apply orb_false_iff in Hr as [Hv _]. unfold computes, op_is. rewrite O. simpl.
    rewrite reads_eq in V. unfold reads_spec in V. rewrite O in V. simpl in V.
    destruct (es (i_a i)) as [x|]; [|done]. injection V as <-. rewrite Hv. simpl. eexists. split; [done|].
    assert (T : i_dst i = def_target i) by (unfold def_target, op_is; by rewrite O).
    rewrite T. apply inv_write_dead; [done | eapply str_ok_def; [done|] | done]. by rewrite O.
  - destruct (value_call i) eqn:VC.
    { destruct (call_value Hctx i vals (slots_out es) w Hin VC) as (v1 & v2 & E).
      unfold value_call, op_is in VC. case_bool_decide as OC; [|done].
      unfold computes, op_is. rewrite OC. simpl. by eapply dead_ext_sim; rewrite ?OC. }
    destruct (is_pure (i_op i) && (0 <=? def_target i) && negb (i_vol i)) eqn:P.
    + (* a value nothing reads *)
      assert (C : computes i = true).
      { unfold computes, op_is. destruct (is_pure (i_op i)); [|done]. simpl in *.
        destruct (i_vol i); [by rewrite andb_false_r in P|]. by rewrite andb_false_r. }
      rewrite C. destruct (eval_pure i vals) as [v Ev]; [by destruct (is_pure (i_op i))|].
      rewrite Ev. simpl. eexists. split; [done|].
      rewrite (computes_dst _ C). apply inv_write_dead; [done | | done].
      eapply str_ok_def; [done|]. intros Os. by eapply eval_straddr.
    + apply negb_false_iff, rodata_load_inv in Hr
        as (lens & k & d & Hs & Hd & Hk & O1 & Hv & Hf & Od & B1 & B2 & B3 & B4).
      unfold computes, op_is. rewrite O1. simpl.
      rewrite reads_eq in V. unfold reads_spec in V. rewrite O1 in V. simpl in V.
      destruct (es (i_a i)) as [x|] eqn:Ex; [|done]. injection V as <-.
      pose proof (inv_str _ _ HI _ _ _ _ Hd Hk Od Ex) as ->.
      destruct (string_load Hctx i d lens (slots_out es) w) as (v1 & v2 & E); try done;
        [by eapply ins_elem|]. by eapply dead_ext_sim; rewrite ?O1.
Qed.

Lemma dce_preserves : preserves fn tgt.
Proof using Hwf Hctx.
  eapply (blocks_preserve fn tgt (keep_live (live_ins m) 0 (ins fn)) (fun _ => dce_inv));
    try reflexivity.
  - apply keep_live_labels. intros j i I O. rewrite Z.add_0_l.
    destruct (dce_mark_closed keep_vars strs fn) as (H & _). apply (H _ i).
    + by rewrite ins_at_lookup, Nat2Z.id by lia.
    + by apply label_root.
  - intros n i blk es et w I B HI. rewrite (keep_live_lookup _ _ _ _ _ I) in B.
    injection B as <-. rewrite Z.add_0_l. destruct (live_ins m (Z.of_nat n)) eqn:L.
    + pose proof (live_sim n i es et w I L HI) as S. simpl. destruct (exec1 fn i et w); exact S.
    + by apply (dead_sim n i).
  - intros e He Hs. split; [done | |].
    + intros s E. apply Hs, (esc_slot Hctx s E).
    + intros v k d x Hd Hk O E. exfalso. destruct (sole_def_target _ _ _ Hd Hk) as [Hv T].
      rewrite ins_at_lookup in Hk by (by eapply ins_at_nonneg).
      destruct Hwf as [_ F]. pose proof (Forall_lookup_1 _ _ _ _ F Hk) as [_ W].
      unfold def_target, op_is in T. rewrite O in T, W. simpl in T, W.
      destruct W as [|[|]]; [done | lia |]. rewrite He in E by lia. done.
Qed.
End Correct.

(** ** The marking is the least closed set *)

Section Least.
Context (keep_vars : bool) (strs : option (list Z)) (fn : ir_func).
Let dl := dce_defs fn.

(** Does the instruction define [v], as the chains file it? *)
Definition defines (i : ir_ins) (v : Z) : Prop :=
  def_target i = v \/ i_op i = IR_LANDING /\ i_b i = v.

(** The two rules of the source's comment: an instruction is live when its effect
    is not its result, or when something live reads what it defines. *)
Inductive needed : Z -> Prop :=
  | needed_root n i : ins_at fn n = Some i -> dce_root keep_vars strs fn (dce_defs fn) i = true -> needed n
  | needed_def n i v n' i' : needed n -> ins_at fn n = Some i -> v ∈ reads i -> 0 <= v < nvregs fn ->
      ins_at fn n' = Some i' -> defines i' v -> needed n'.

Record sound (m : mark) : Prop := {
  so_ins n : live_ins m n = true -> needed n;
  so_work n : n ∈ work m -> live_ins m n = true }.

Lemma chain_needed n i v k :
  needed n -> ins_at fn n = Some i -> v ∈ reads i -> 0 <= v < nvregs fn -> k ∈ dl v ->
  needed (idx fn k).
Proof.
  intros N I Hv Hb (_ & j & i' & E & Hk)%dce_chain_In. pose proof (lookup_lt_Some _ _ _ E).
  assert (idx fn k = Z.of_nat j) as ->.
  { unfold idx, nins in *. destruct (Z.ltb_spec k (Z.of_nat (length (ins fn)))); lia. }
  eapply needed_def; try done.
  - rewrite ins_at_lookup, Nat2Z.id by lia. done.
  - unfold defines. tauto.
Qed.

Lemma mark_defs_sound ks m :
  sound m -> (forall k, k ∈ ks -> needed (idx fn k)) -> sound (mark_defs (nins fn) ks m).
Proof.
  revert m. induction ks as [|k ks IH]; intros m Hm Hk; simpl; [done|].
  apply IH; [|intros; apply Hk; by right]. fold (idx fn k).
  destruct (live_ins m (idx fn k)) eqn:L; [done|]. split; simpl; unfold upd.
  - intros n. destruct (Z.eqb_spec n (idx fn k)) as [->|]; [intros _; apply Hk; left | apply Hm].
  - intros n [->|Hn]%elem_of_cons; [by rewrite Z.eqb_refl|].
    destruct (n =? idx fn k); [done | by apply Hm].
Qed.

Lemma mark_ins_sound n m : needed n -> sound m -> sound (mark_ins fn dl n m).
Proof.
  intros N Hm. unfold mark_ins. destruct (ins_at fn n) as [i|] eqn:I; [|done].
  rewrite each_read_observe by done. simpl. rewrite <- reads_eq.
  assert (H : forall v, v ∈ reads i -> v ∈ reads i) by done. revert H.
  generalize (reads i) at 1 3 as l. intros l. revert m Hm.
  induction l as [|v l IH]; intros m Hm Hl; simpl; [done|].
  apply IH; [|intros; apply Hl; by right]. unfold mark_cb. simpl.
  destruct (_ || _ || _) eqn:B; [done|]. apply mark_defs_sound.
  - split; simpl; apply Hm.
  - intros k Hk. eapply (chain_needed n i v); try done; [apply Hl; left | lia].
Qed.

Lemma mark_loop_sound fuel m : sound m -> sound (mark_loop fuel fn dl m).
Proof.
  revert m. induction fuel as [|fuel IH]; intros m Hm; simpl; [by destruct (work m)|].
  destruct (work m) as [|n rest] eqn:W; [done|]. apply IH, mark_ins_sound.
  - apply Hm, Hm. rewrite W. left.
  - split; simpl; [apply Hm|]. intros k Hk. apply Hm. rewrite W. by right.
Qed.

Lemma mark_init_sound : sound (mark_init keep_vars strs fn).
Proof.
  split; simpl.
  - intros n. unfold root_at. destruct (ins_at fn n) eqn:I; [|done]. by apply needed_root.
  - intros n Hn. apply list_elem_of_In, in_rev in Hn. rewrite <- list_elem_of_In in Hn.
    apply list_elem_of_filter in Hn as [Hn _]. exact Hn.
Qed.

Lemma needed_live n : needed n -> live_ins (dce_mark keep_vars strs fn) n = true.
Proof.
  destruct (dce_mark_closed keep_vars strs fn) as (H1 & H2 & H3).
  induction 1 as [n i I R|n i v n' i' N IH I Hv Hb I' D]; [by eapply H1|].
  destruct D as [D|[D _]].
  - eapply H2; eauto.
  - eapply H1; [done|]. unfold dce_root, value_call, op_is, rodata_load. rewrite D. simpl. by destruct strs.
Qed.

Lemma dce_least n : live_ins (dce_mark keep_vars strs fn) n = true <-> needed n.
Proof. split; [apply mark_loop_sound, mark_init_sound | apply needed_live]. Qed.
End Least.

(** ** Scopes follow the instructions *)

Definition scope_ok (fn : ir_func) (p : Z * Z) : Prop := 0 <= p.1 <= p.2 /\ p.2 <= nins fn.
Definition scopes_ok (fn : ir_func) : Prop :=
  match var_scope fn with Some l => Forall (scope_ok fn) l | None => True end.

Lemma keep_live_app lv n a b :
  keep_live lv n (a ++ b) = keep_live lv n a ++ keep_live lv (n + Z.of_nat (length a)) b.
Proof.
  revert n. induction a as [|x a IH]; intros n; simpl; [by rewrite Z.add_0_r|].
  rewrite IH. do 2 f_equal. replace (n + 1 + Z.of_nat (length a)) with (n + Z.of_nat (S (length a))) by lia.
  done.
Qed.

Lemma dce_newpos_mono lv fn a b : 0 <= a <= b -> 0 <= dce_newpos lv fn a <= dce_newpos lv fn b.
Proof.
  intros H. unfold dce_newpos. split; [lia|].
  replace (take (Z.to_nat b) (ins fn))
    with (take (Z.to_nat a) (ins fn) ++ drop (Z.to_nat a) (take (Z.to_nat b) (ins fn))).
  - rewrite keep_live_app, concat_app, length_app. lia.
  - rewrite <- (take_drop (Z.to_nat a) (take (Z.to_nat b) (ins fn))) at 2. f_equal.
    rewrite take_take. f_equal. lia.
Qed.

Lemma dce_newpos_end lv fn :
  dce_newpos lv fn (nins fn) = Z.of_nat (length (concat (keep_live lv 0 (ins fn)))).
Proof. unfold dce_newpos, nins. by rewrite Nat2Z.id, firstn_all. Qed.

Lemma dce_scopes kv strs fn : scopes_ok fn -> scopes_ok (pass_dce kv strs fn).
Proof.
  unfold scopes_ok, pass_dce. simpl. destruct (var_scope fn) as [l|]; [|done]. simpl.
  intros F. apply Forall_map. revert F. apply Forall_impl. intros [lo hi] [H1 H2].
  unfold scope_ok in *. simpl in *. unfold remap_bound.
  replace ((0 <=? lo) && (lo <=? nins fn)) with true by lia.
  replace ((0 <=? hi) && (hi <=? nins fn)) with true by lia.
  pose proof (dce_newpos_mono (live_ins (dce_mark kv strs fn)) fn lo hi ltac:(lia)).
  pose proof (dce_newpos_mono (live_ins (dce_mark kv strs fn)) fn hi (nins fn) ltac:(lia)) as E.
  rewrite dce_newpos_end in E. unfold nins in *. simpl in *. lia.
Qed.

(** ** Properties *)

(** A machine for the witnesses: the world counts the effects so far, an effect
    returns its number, a call of a function that touches no memory only its
    arguments' sum, and memory reaches slot 1. *)
#[local] Instance counter_machine : Machine := {|
  world := Z;
  pure_ext i vals := i_label i + foldr Z.add 0 vals;
  ext i vals sl w :=
    if op_is (i_op i) IR_CALL && match callee (i_call i) with Some f => inf_no_write f | None => false end
    then XRet (foldr Z.add 0 vals) 0 sl w
    else XRet w 0 (fun s => sl s + 1) (w + 1);
  igoto _ := None;
  esc s := s =? 1 |}.

(** [v0] times a store through the address of [v1], with a second counter that
    only it reads -- the cycle of the source's comment -- and a call whose value
    is not used. *)
Definition demo_dce : ir_func :=
  let mk op dst a b := Ins op dst a b 0 4 4 true false 0 false B_ADD 0 0 0 (Loc 1 1 0 0 0) mem0 call0 None in
  let con dst k := set_imm k (mk IR_CONST dst (-1) (-1)) in
  let pure_fn := Func 7 true true true in
  Fn 1 2 10 2 [] [
    mk IR_LDVAR 2 0 (-1); con 3 0; con 4 1; mk IR_ADDR 5 1 (-1); mk IR_STVAR 1 2 (-1);
    set_label 0 (mk IR_LABEL (-1) (-1) (-1));
    set_label 1 (mk IR_BRZ (-1) 2 (-1));
    mk IR_STORE (-1) 5 2;
    mk IR_ADD 6 3 4; mk IR_MOV 3 6 (-1);      (* nothing live reads %3 *)
    set_call (Call (Some pure_fn) 0 false [Arg 2 false 4 []] 0 []) (mk IR_CALL 9 (-1) (-1));
    mk IR_SUB 7 2 4; mk IR_MOV 2 7 (-1);
    set_label 0 (mk IR_JMP (-1) (-1) (-1));
    set_label 1 (mk IR_LABEL (-1) (-1) (-1));
    mk IR_LDVAR 8 1 (-1);
    mk IR_RET (-1) 8 (-1)] [] (Some [(0, 17); (2, 9)]) [].



(** The worklist of [pass_dce] marks exactly the least set of instructions
    closed under the two liveness rules, and it is empty when the marking
    stops: the result keeps an instruction if and only if it is in that set. *)
Theorem pass_dce_least (keep_vars : bool) (strs : option (list Z)) (fn : ir_func) (n : Z) (i : ir_ins) :
  ins_at fn n = Some i ->
  (live_ins (dce_mark keep_vars strs fn) n = true <-> needed keep_vars strs fn n) /\
  keep_live (live_ins (dce_mark keep_vars strs fn)) 0 (ins fn) !! Z.to_nat n
  = Some (if live_ins (dce_mark keep_vars strs fn) n then [i] else []).
Proof.
  intros I. split; [apply dce_least|]. pose proof (ins_at_nonneg _ _ _ I).
  rewrite ins_at_lookup in I by done.
  rewrite (keep_live_lookup _ _ _ _ _ I), Z.add_0_l, Z2Nat.id by done. done.
Qed.

Lemma pass_dce_least_witness : ~ needed false None demo_dce 8 /\ needed false None demo_dce 11.
Proof.
  split.
  - intros H. destruct (pass_dce_least false None demo_dce 8 _ eq_refl) as [E _].
    apply E in H. vm_compute in H. discriminate H.
  - destruct (pass_dce_least false None demo_dce 11 _ eq_refl) as [E _].
    apply E. vm_compute. reflexivity.
Defined.

(** The pass keeps every variable's scope inside the renumbered
    instructions, the condition [verify_func] checks after it. *)
Theorem pass_dce_scopes (keep_vars : bool) (strs : option (list Z)) (fn : ir_func) :
  scopes_ok fn -> scopes_ok (pass_dce keep_vars strs fn).
Proof. apply dce_scopes. Qed.

Lemma pass_dce_scopes_witness :
  scopes_ok demo_dce /\ var_scope (pass_dce false None demo_dce) = Some [(0, 13); (1, 7)] /\
  scopes_ok (pass_dce false None demo_dce).
Proof.
  assert (H : scopes_ok demo_dce) 
    by (unfold scopes_ok; simpl; repeat (constructor; [unfold scope_ok, nins; simpl; lia|]); constructor).
  split; [exact H|]. split; [vm_compute; reflexivity | exact (pass_dce_scopes false None demo_dce H)].
Defined.
