(* ===== verification/Verify.v ===== *)
(** * The IR verifier: [verify_func] of [src/src/opt/verify.c]

    The checks run on every function before and after optimisation: each temporary
    read has a definition, each label named is placed and each switch has a
    table, each move has a width, each variable's scope lies in the instruction
    array and each instruction has a source location. The first failure is fatal;
    here it is a value. (The check that no two calls share one argument array
    compares addresses; in this model an argument list belongs to its call.)
    [verified] states what passing means, and dead-code elimination keeps it. *)
From stdpp Require Import base numbers list option.
From Stdlib Require Import ZArith Lia.
From S2P Require Import Prelude Ir Util IrSem Simulate Dce.

Local Open Scope Z_scope.

(** The diagnostics, with the instruction (or variable) they are about. *)
Inductive verr :=
  | VRead (n r : Z)      (* reads a temp with no definition *)
  | VTable (n : Z)       (* a switch with no table *)
  | VLabel (n l : Z)     (* names a label nothing places *)
  | VWidth (n : Z)       (* a move with no width *)
  | VScope (v : Z)       (* an out-of-range scope *)
  | VLoc (n : Z).        (* no source location *)

(** [diag_fatal] does not return: the first failure stands. *)
Definition first {A} (x y : option A) : option A := match x with Some _ => x | None => y end.

Fixpoint each_ins_from {A B} (f : Z -> A -> option B) (n : Z) (l : list A) : option B :=
  match l with
  | [] => None
  | i :: l => first (f n i) (each_ins_from f (n + 1) l)
  end.

Definition vrfy_read_cb (fn : ir_func) (d : defs) (r : Z) (s : option Z) : Z * option Z :=
  (r, first s (if (r <? 0) || (r <? nvars fn) then None
               else if (r <? nvregs fn) && (0 <? d_cnt d r) then None
               else Some r)).

Definition vrfy_label_cb (fn : ir_func) (placed : Z -> bool) (l : Z) (s : option Z) : Z * option Z :=
  (l, first s (if (0 <=? l) && (l <? nlabels fn) && placed l then None else Some l)).

Definition placed (fn : ir_func) (l : Z) : bool :=
  existsb (fun i => op_is (i_op i) IR_LABEL && (0 <=? i_label i) && (i_label i <? nlabels fn) &&
                    (i_label i =? l)) (ins fn).

Definition verify_reads (fn : ir_func) : option verr :=
  let d := compute_defs fn in
  each_ins_from (fun n i => VRead n <$> (each_read (vrfy_read_cb fn d) i None).2) 0 (ins fn).

Definition verify_labels (fn : ir_func) : option verr :=
  each_ins_from (fun n i =>
    if op_is (i_op i) IR_SWITCH &&
       ((i_jt i <? 0) || (Z.of_nat (length (jt fn)) <=? i_jt i) ||
        (Z.of_nat (length (jt fn !!! Z.to_nat (i_jt i))) <? 1))
    then Some (VTable n)
    else VLabel n <$> (each_label (vrfy_label_cb fn (placed fn)) (jt fn) i None).2) 0 (ins fn).

Definition verify_moves (fn : ir_func) : option verr :=
  each_ins_from (fun n i =>
    if op_is (i_op i) IR_MOV && (0 <=? i_dst i) && (i_w i <=? 0) then Some (VWidth n) else None) 0 (ins fn).

Definition verify_scopes (fn : ir_func) : option verr :=
  match var_scope fn with
  | None => None
  | Some l => each_ins_from (fun v p =>
      if (p.1 <? 0) || (nins fn <? p.1) || (p.2 <? p.1) || (nins fn <? p.2)
      then Some (VScope v) else None) 0 l
  end.

Definition verify_locs (fn : ir_func) : option verr :=
  each_ins_from (fun n i =>
    if negb (line (i_loc i) =? 0) || negb (synth (i_loc i) =? 0) then None else Some (VLoc n)) 0 (ins fn).

Definition verify_func (fn : ir_func) : option verr :=
  first (verify_reads fn) (first (verify_labels fn) (first (verify_moves fn)
    (first (verify_scopes fn) (verify_locs fn)))).

(** ** What passing means *)

(** A vreg an instruction may read: a slot, or a temporary something defines. *)
Definition defined (fn : ir_func) (r : Z) : Prop :=
  r < 0 \/ r < nvars fn \/
  r < nvregs fn /\ (0 <= r < nparams fn \/ exists i, i ∈ ins fn /\ r ∈ def_list (nvregs fn) i).

Definition label_placed (fn : ir_func) (l : Z) : Prop :=
  0 <= l < nlabels fn /\ exists i, i ∈ ins fn /\ i_op i = IR_LABEL /\ i_label i = l.

Definition has_table (fn : ir_func) (i : ir_ins) : Prop :=
  i_op i = IR_SWITCH -> 0 <= i_jt i < Z.of_nat (length (jt fn)) /\ jt fn !!! Z.to_nat (i_jt i) <> [].

Record ins_verified (fn : ir_func) (i : ir_ins) : Prop := {
  vf_reads r : r ∈ reads i -> defined fn r;
  vf_table : has_table fn i;
  vf_labels l : l ∈ labels_of (jt fn) i -> label_placed fn l;
  vf_width : i_op i = IR_MOV -> 0 <= i_dst i -> 0 < i_w i;
  vf_loc : line (i_loc i) <> 0 \/ synth (i_loc i) <> 0 }.

Definition verified (fn : ir_func) : Prop :=
  (forall i, i ∈ ins fn -> ins_verified fn i) /\ scopes_ok fn.

Lemma first_None {A} (x y : option A) : first x y = None <-> x = None /\ y = None.
Proof. destruct x; simpl; naive_solver. Qed.

Lemma each_ins_None {A B} (f : Z -> A -> option B) n l :
  each_ins_from f n l = None <-> forall j i, l !! j = Some i -> f (n + Z.of_nat j) i = None.
Proof.
  revert n. induction l as [|x l IH]; intros n; simpl; [split; [done | done]|].
  rewrite first_None, IH. split.
  - intros [H0 H] [|j] i E; simpl in E; simplify_eq; [by rewrite Z.add_0_r|].
    replace (n + Z.of_nat (S j)) with (n + 1 + Z.of_nat j) by lia. by apply H.
  - intros H. split; [rewrite <- (Z.add_0_r n); by apply (H 0%nat)|].
    intros j i E. replace (n + 1 + Z.of_nat j) with (n + Z.of_nat (S j)) by lia. by apply (H (S j)).
Qed.

(** The checks do not look at the position. *)
Lemma each_ins_None_in {A B} (f : Z -> A -> option B) l (P : A -> Prop) :
  (forall n i, f n i = None <-> P i) -> each_ins_from f 0 l = None <-> forall i, i ∈ l -> P i.
Proof.
  intros H. rewrite each_ins_None. setoid_rewrite H. split.
  - intros L i [j Hj]%list_elem_of_lookup. by eapply L.
  - intros L j i Hj. apply L. by eapply list_elem_of_lookup_2.
Qed.

Lemma foldl_first {A} (f : Z -> option A) l s :
  foldl (fun s p => first s (f p)) s l = None <-> s = None /\ forall p, p ∈ l -> f p = None.
Proof.
  revert s. induction l as [|x l IH]; intros s; simpl.
  - split; [|tauto]. intros ->. split; [done|]. intros p Hp. by apply elem_of_nil in Hp.
  - rewrite IH, first_None. split.
    + intros [[-> Hx] Hl]. split; [done|]. intros p [->|Hp]%elem_of_cons; auto.
    + intros [-> H]. split; [split; [done|]|]; [apply H; left | intros p Hp; apply H; by right].
Qed.

(** A vreg is counted when something binds it. *)
Lemma compute_defs_pos fn v :
  0 < d_cnt (compute_defs fn) v <->
  0 <= v < nparams fn /\ v < nvregs fn \/ exists i, i ∈ ins fn /\ v ∈ def_list (nvregs fn) i.
Proof.
  rewrite compute_defs_cnt. simpl. pose proof (ndefs_nonneg v (def_events (nvregs fn) 0 (ins fn))) as N.
  assert (E : 0 < ndefs v (def_events (nvregs fn) 0 (ins fn)) <->
              exists i, i ∈ ins fn /\ v ∈ def_list (nvregs fn) i).
  { unfold ndefs. split.
    - intros H. destruct (filter _ _) as [|[v' n] l] eqn:F; [simpl in H; lia|].
      assert (I : (v', n) ∈ filter (fun e => e.1 = v) (def_events (nvregs fn) 0 (ins fn)))
        by (rewrite F; left).
      apply list_elem_of_filter in I as [Ev I]. simpl in Ev. subst v'.
      apply def_events_In in I as (i & _ & L & Hv). exists i. split; [by eapply list_elem_of_lookup_2 | done].
    - intros (i & [j Hj]%list_elem_of_lookup & Hv).
      assert (I : (v, Z.of_nat j) ∈ filter (fun e => e.1 = v) (def_events (nvregs fn) 0 (ins fn))).
      { apply list_elem_of_filter. split; [done|]. apply def_events_In. exists i.
        rewrite Z.sub_0_r, Nat2Z.id. split_and!; [lia | done | done]. }
      destruct (filter _ _); [by apply elem_of_nil in I | simpl; lia]. }
  rewrite <- E. destruct ((0 <=? v) && (v <? nparams fn) && (v <? nvregs fn)) eqn:B; lia.
Qed.

Lemma placed_iff fn l : (0 <=? l) && (l <? nlabels fn) && placed fn l = true <-> label_placed fn l.
Proof.
  unfold label_placed, placed. rewrite !andb_true_iff, existsb_exists. split.
  - intros ([H1 H2] & i & Hi & H). rewrite !andb_true_iff in H. destruct H as (((O & _) & _) & E).
    split; [lia|]. exists i. apply list_elem_of_In in Hi. unfold op_is in O.
    apply bool_decide_eq_true in O. split_and!; [done | done | lia].
  - intros (Hl & i & Hi & O & E). split; [lia|]. exists i. apply list_elem_of_In in Hi.
    split; [done|]. unfold op_is. rewrite O. subst l. simpl. lia.
Qed.

Lemma verify_reads_iff fn :
  verify_reads fn = None <-> forall i, i ∈ ins fn -> forall r, r ∈ reads i -> defined fn r.
Proof.
  apply each_ins_None_in. intros n i. rewrite fmap_None, each_read_observe by done. simpl.
  rewrite reads_eq. unfold vrfy_read_cb. simpl. rewrite foldl_first. split.
  - intros [_ H] r Hr. specialize (H r Hr). unfold defined.
    destruct ((r <? 0) || (r <? nvars fn)) eqn:B; [lia|].
    destruct ((r <? nvregs fn) && (0 <? d_cnt (compute_defs fn) r)) eqn:C; [|done].
    apply andb_true_iff in C as [C1%Z.ltb_lt C2%Z.ltb_lt]. apply compute_defs_pos in C2.
    right. right. split; [done|]. destruct C2 as [[? _]|?]; auto.
  - intros H. split; [done|]. intros r Hr. destruct (H r Hr) as [|[|[Hb D]]].
    1,2: replace ((r <? 0) || (r <? nvars fn)) with true by lia; done.
    destruct ((r <? 0) || (r <? nvars fn)); [done|].
    assert (C : 0 < d_cnt (compute_defs fn) r) by (apply compute_defs_pos; destruct D; auto).
    by replace ((r <? nvregs fn) && (0 <? d_cnt (compute_defs fn) r)) with true by lia.
Qed.

Lemma verify_labels_iff fn :
  verify_labels fn = None <->
  forall i, i ∈ ins fn -> has_table fn i /\ forall l, l ∈ labels_of (jt fn) i -> label_placed fn l.
Proof.
  apply each_ins_None_in. intros n i.
  assert (L : VLabel n <$> (each_label (vrfy_label_cb fn (placed fn)) (jt fn) i None).2 = None <->
    forall l, l ∈ labels_of (jt fn) i -> label_placed fn l).
  { rewrite fmap_None, each_label_observe by done. simpl. rewrite labels_of_eq.
    unfold vrfy_label_cb. simpl. rewrite foldl_first. setoid_rewrite <- placed_iff. split.
    - intros [_ H] l Hl. specialize (H l Hl). by destruct (_ && _ && _).
    - intros H. split; [done|]. intros l Hl. by rewrite (H l Hl). }
  rewrite fmap_None in L. rewrite <- L. unfold has_table, op_is.
  destruct (bool_decide_reflect (i_op i = IR_SWITCH)) as [O|O]; simpl.
  - destruct (_ || _ || _) eqn:B.
    + split; [done|]. intros [T _]. specialize (T O) as [T1 T2].
      destruct (jt fn !!! Z.to_nat (i_jt i)); [done|]. cbn [length] in B. exfalso.
      apply orb_true_iff in B as [B|B%Z.ltb_lt]; lia.
    + rewrite fmap_None. split; [|tauto]. intros E. split; [|done]. intros _. split; [lia|].
      intros E'. rewrite E' in B. by rewrite orb_true_r in B.
  - rewrite fmap_None. tauto.
Qed.

Lemma verify_moves_iff fn :
  verify_moves fn = None <-> forall i, i ∈ ins fn -> i_op i = IR_MOV -> 0 <= i_dst i -> 0 < i_w i.
Proof.
  apply each_ins_None_in. intros n i. unfold op_is.
  destruct (bool_decide_reflect (i_op i = IR_MOV)) as [O|O]; simpl; [|tauto].
  destruct ((0 <=? i_dst i) && (i_w i <=? 0)) eqn:B.
  - split; [done|]. intros H. specialize (H O). lia.
  - split; [|done]. intros _ _ H. lia.
Qed.

Lemma verify_scopes_iff fn : verify_scopes fn = None <-> scopes_ok fn.
Proof.
  unfold verify_scopes, scopes_ok. destruct (var_scope fn) as [l|]; [|done].
  rewrite (each_ins_None_in _ _ (scope_ok fn)).
  - split.
    + intros H. apply Forall_lookup_2. intros j p Hj. apply H. by eapply list_elem_of_lookup_2.
    + intros F. exact (Forall_in _ _ F).
  - intros n p. unfold scope_ok. destruct (_ || _ || _ || _) eqn:B; split; try done; lia.
Qed.

Lemma verify_locs_iff fn :
  verify_locs fn = None <-> forall i, i ∈ ins fn -> line (i_loc i) <> 0 \/ synth (i_loc i) <> 0.
Proof.
  apply each_ins_None_in. intros n i. destruct (_ || _) eqn:B; split; try done; lia.
Qed.

Lemma verify_iff fn : verify_func fn = None <-> verified fn.
Proof.
  unfold verify_func. rewrite !first_None, verify_reads_iff, verify_labels_iff, verify_moves_iff,
    verify_scopes_iff, verify_locs_iff. unfold verified. split.
  - intros (R & L & W & S & O). split; [|done]. intros i Hi.
    destruct (L i Hi). split; [by apply R | done | done | by apply W | by apply O].
  - intros [H S]. split_and!; [| | |done|]; intros i Hi; destruct (H i Hi); auto.
Qed.

(** ** Dead-code elimination keeps it *)

Section DceVerified.
Context (keep_vars : bool) (strs : option (list Z)) (fn : ir_func).
Let m := dce_mark keep_vars strs fn.
Let tgt := pass_dce keep_vars strs fn.

Lemma live_kept n i : ins_at fn n = Some i -> live_ins m n = true -> i ∈ ins tgt.
Proof.
  intros I L. pose proof (ins_at_nonneg _ _ _ I) as Hn. rewrite ins_at_lookup in I by done.
  unfold tgt, pass_dce. simpl. fold m. apply list_elem_of_In, in_concat. exists [i].
  split; [|by left]. apply list_elem_of_In. apply (list_elem_of_lookup_2 _ (Z.to_nat n)).
  rewrite (keep_live_lookup _ _ _ _ _ I), Z.add_0_l, Z2Nat.id by done. by rewrite L.
Qed.

Lemma label_kept i : i ∈ ins fn -> i_op i = IR_LABEL -> i ∈ ins tgt.
Proof.
  intros [j I]%list_elem_of_lookup O. apply (live_kept (Z.of_nat j)).
  { rewrite ins_at_lookup, Nat2Z.id by lia. done. }
  destruct (dce_mark_closed keep_vars strs fn) as (H1 & _). eapply H1.
  { rewrite ins_at_lookup, Nat2Z.id by lia. done. }
  by apply label_root.
Qed.

(** What a kept instruction reads is still defined. *)
Lemma read_kept n i r : ins_at fn n = Some i -> live_ins m n = true -> r ∈ reads i ->
  defined fn r -> defined tgt r.
Proof.
  intros I L Hr [|[|[Hb D]]]; [by left | by right; left |]. 
  destruct (Z.ltb_spec r 0); [by left|]. right. right. split; [done|].
  destruct D as [|(i' & [j I']%list_elem_of_lookup & Hd)]; [by left|]. right.
  assert (I2 : ins_at fn (Z.of_nat j) = Some i') by (rewrite ins_at_lookup, Nat2Z.id by lia; done).
  exists i'. split; [|done]. apply (live_kept (Z.of_nat j)); [done|].
  destruct (dce_mark_closed keep_vars strs fn) as (H1 & H2 & H3).
  unfold def_list in Hd. destruct (op_is (i_op i') IR_LANDING) eqn:O.
  - eapply H1; [exact I2|]. unfold op_is in O. apply bool_decide_eq_true in O.
    unfold dce_root, value_call, op_is, rodata_load. rewrite O. simpl. by destruct strs.
  - destruct (_ <? 0); [by apply elem_of_nil in Hd|]. apply list_elem_of_singleton in Hd.
    eapply H2; [exact I2 | done | lia |]. eapply (H3 n); [done | done | done | lia].
Qed.

Lemma dce_verified : verified fn -> verified tgt.
Proof.
  intros [HI HS]. split; [|by apply dce_scopes]. intros i Hi.
  destruct (kept_live keep_vars strs fn i Hi) as (n & I & L). fold m in L.
  assert (Hin : i ∈ ins fn) by (by eapply ins_elem).
  destruct (HI i Hin) as [R T Lb W Lo]. split; try done.
  - intros r Hr. eapply read_kept; eauto.
  - intros l Hl. destruct (Lb l Hl) as (Hb & i' & Hi' & O & E). split; [done|].
    exists i'. split; [by apply label_kept | done].
Qed.
End DceVerified.

(** ** Properties *)


(** C25: dead-code elimination keeps a function acceptable: what the verifier
    accepted before the pass, it accepts after it. *)
Theorem pass_dce_verifies (keep_vars : bool) (strs : option (list Z)) (fn : ir_func) :
  verify_func fn = None -> verify_func (pass_dce keep_vars strs fn) = None.
Proof. rewrite !verify_iff. apply dce_verified. Qed.

Lemma pass_dce_verifies_witness :
  verify_func demo_dce = None /\ verify_func (pass_dce false None demo_dce) = None /\
  verify_func (set_ins (tail (ins demo_dce)) demo_dce) = Some (VScope 0).
Proof.
  split; [vm_compute; reflexivity|]. split; [|vm_compute; reflexivity].
  apply (pass_dce_verifies false None demo_dce). vm_compute. reflexivity.
Defined.
