(* ===== verification/Magic.v ===== *)
(** * The numbers of division by a constant: [src/src/opt/divmagic.c]

    [magic_u32] and [magic_s32] search for the multiplier and shift that turn a
    32-bit division by a constant into a multiplication; [dm_narrow_magic] does
    so for a dividend known to be small; [log2_pow2_l] recognises powers of two.
    The laws here are about numbers only: multiplying by what they return and
    shifting is the division, at every dividend. *)
From stdpp Require Import base numbers list option.
From Stdlib Require Import ZArith Lia.
From S2P Require Import Prelude.

Local Open Scope Z_scope.

(** ** The unsigned search *)

Record magicu := MagicU { mu_m : Z; mu_add : bool; mu_s : Z }.

(** The do-while loop. Its body runs at most 33 times, [p] going from 31 to the
    64 of its bound. *)
Fixpoint magic_u32_loop (fuel : nat) (d nc p q1 r1 q2 r2 : Z) (add : bool) : magicu :=
  match fuel with
  | O => MagicU 0 false 0
  | S fuel =>
      let p := p + 1 in
      let '(q1, r1) :=
        if u64 (nc - r1) <=? r1 then (u64 (2 * q1 + 1), u64 (2 * r1 - nc))
        else (u64 (2 * q1), u64 (2 * r1)) in
      let '(add, q2, r2) :=
        if u64 (d - r2) <=? u64 (r2 + 1)
        then (add || (0x7FFFFFFF <=? q2), u64 (2 * q2 + 1), u64 (2 * r2 + 1 - d))
        else (add || (0x80000000 <=? q2), u64 (2 * q2), u64 (2 * r2 + 1)) in
      let delta := u64 (d - 1 - r2) in
      if (p <? 64) && ((q1 <? delta) || ((q1 =? delta) && (r1 =? 0)))
      then magic_u32_loop fuel d nc p q1 r1 q2 r2 add
      else MagicU (Z.land (u64 (q2 + 1)) 0xFFFFFFFF) add (p - 32)
  end.

Definition magic_u32 (d : Z) : magicu :=
  let nc := u64 (0xFFFFFFFF - u64 (0xFFFFFFFF - d + 1) mod d) in
  let q1 := 0x80000000 / nc in
  let r1 := u64 (0x80000000 - u64 (q1 * nc)) in
  let q2 := 0x7FFFFFFF / d in
  let r2 := u64 (0x7FFFFFFF - u64 (q2 * d)) in
  magic_u32_loop 33 d nc 31 q1 r1 q2 r2 false.

(** ** The signed search *)

Record magics := MagicS { ms_m : Z; ms_s : Z }.

(** The do-while loop, which has no bound of its own; 64 rounds are more than
    it takes. *)
Fixpoint magic_s32_loop (fuel : nat) (ad anc p q1 r1 q2 r2 : Z) : Z * Z :=
  match fuel with
  | O => (0, 0)
  | S fuel =>
      let p := p + 1 in
      let q1 := u64 (2 * q1) in
      let r1 := u64 (2 * r1) in
      let '(q1, r1) := if anc <=? r1 then (u64 (q1 + 1), u64 (r1 - anc)) else (q1, r1) in
      let q2 := u64 (2 * q2) in
      let r2 := u64 (2 * r2) in
      let '(q2, r2) := if ad <=? r2 then (u64 (q2 + 1), u64 (r2 - ad)) else (q2, r2) in
      let delta := u64 (ad - r2) in
      if (q1 <? delta) || ((q1 =? delta) && (r1 =? 0))
      then magic_s32_loop fuel ad anc p q1 r1 q2 r2
      else (q2, p)
  end.

Definition magic_s32 (d : Z) : magics :=
  let ad := u64 (if d <? 0 then - d else d) in
  let t := u64 (0x80000000 + Z.land (Z.shiftr (u64 d) 31) 1) in
  let anc := u64 (t - 1 - t mod ad) in
  let q1 := 0x80000000 / anc in
  let r1 := u64 (0x80000000 - u64 (q1 * anc)) in
  let q2 := 0x80000000 / ad in
  let r2 := u64 (0x80000000 - u64 (q2 * ad)) in
  let '(q2, p) := magic_s32_loop 64 ad anc 31 q1 r1 q2 r2 in
  let m := s32 (u64 (q2 + 1)) in
  MagicS (if d <? 0 then - m else m) (p - 32).

(** ** Powers of two, and small dividends *)

(** [while (v > 1) { v >>= 1; k++; }]: at most 63 rounds on an unsigned long. *)
Fixpoint log2_loop (fuel : nat) (v k : Z) : Z :=
  match fuel with
  | O => k
  | S fuel => if 1 <? v then log2_loop fuel (Z.shiftr v 1) (k + 1) else k
  end.

Definition log2_pow2_l (v : Z) : Z :=
  if (v =? 0) || negb (Z.land v (u64 (v - 1)) =? 0) then -1 else log2_loop 64 v 0.

(** [for (int s = 0; s <= 32; s++)] *)
Fixpoint dm_narrow_loop (fuel : nat) (D B s : Z) : option (Z * Z) :=
  match fuel with
  | O => None
  | S fuel =>
      let two := u64 (Z.shiftl 1 s) in
      let m := u64 (two + D - 1) / D in
      let e := u64 (u64 (m * D) - two) in
      if (u64 (B * e) <? two) && (u64 (B * m) <=? 0xffffffff) then Some (u64 m, s)
      else dm_narrow_loop fuel D B (s + 1)
  end.

Definition dm_narrow_magic (D B : Z) : option (Z * Z) := dm_narrow_loop 33 D B 0.

(** ** Multiplying is dividing

    [M * d = 2^p + delta] with a small [delta] makes [x * M / 2^p] the quotient. *)

Section Multiplier.
Context (d nc M p delta : Z).
Context (Hd : 2 <= d) (Hp : 0 <= p).
Context (HM : M * d = 2 ^ p + delta) (Hdelta : 0 <= delta) (Hnc : nc * delta < 2 ^ p).

(** The dividends below [N], the first above [nc] that is not one less than a
    multiple of [d] again. *)
Context (N : Z) (Hdiv : (nc + 1) mod d = 0) (Hpos : d - 1 <= nc) (HN : N <= nc + d).

Lemma excess_small x : 0 <= x < N -> x * delta < (d - x mod d) * 2 ^ p.
Proof using All.
  intros Hx. pose proof (Z.mod_pos_bound x d ltac:(lia)) as Hr. pose proof (pow2_pos p Hp).
  destruct (Z_le_dec x nc) as [L|L]; [nia|].
  assert (E : x mod d = x - nc - 1).
  { assert (nc + 1 = d * ((nc + 1) / d)) as E by (rewrite (Z.div_mod (nc + 1) d) at 1; lia).
    replace x with (x - nc - 1 + (nc + 1) / d * d) at 1 by lia.
    rewrite Z.mod_add by lia. apply Z.mod_small. lia. }
  rewrite E in *. assert ((x - nc) * delta <= nc * delta) by nia. nia.
Qed.

Lemma mul_is_div x : 0 <= x < N -> x * M / 2 ^ p = x / d.
Proof using All.
  intros Hx. pose proof (excess_small x Hx) as S. pose proof (pow2_pos p Hp).
  pose proof (Z.div_mod x d ltac:(lia)) as E. pose proof (Z.mod_pos_bound x d ltac:(lia)).
  set (q := x / d) in *. set (r := x mod d) in *. clearbody q r.
  symmetry. apply Z.div_unique with (x * M - q * 2 ^ p); [|ring]. left.
  assert (X : (x * M - q * 2 ^ p) * d = r * 2 ^ p + x * delta).
  { transitivity (x * (M * d) - q * d * 2 ^ p); [ring|]. rewrite HM, E. ring. }
  nia.
Qed.
End Multiplier.

(** ** What the unsigned search finds *)

Section MagicU.
Context (d nc : Z) (Hd : 2 <= d < 2 ^ 32) (Hnc : 2 ^ 31 <= nc < 2 ^ 32).

(** What holds at the top of the loop. *)
Definition mu_inv (p q1 r1 q2 r2 : Z) (add : bool) : Prop :=
  31 <= p < 64 /\
  2 ^ p = q1 * nc + r1 /\ 0 <= r1 < nc /\
  2 ^ p - 1 = q2 * d + r2 /\ 0 <= r2 < d /\
  0 <= q1 /\ 0 <= q2 /\
  add = (2 ^ 32 <=? q2 + 1) /\
  2 ^ (p + 1) + d - 1 < 2 ^ 33 * d.

(** What the loop leaves: [M], exactly, and its corrections. *)
Definition mu_found (r : magicu) : Prop := exists p M delta,
  32 <= p <= 64 /\ M * d = 2 ^ p + delta /\ 0 <= delta < d /\ nc * delta < 2 ^ p /\
  0 < M < 2 ^ 33 /\
  mu_m r = M mod 2 ^ 32 /\ mu_add r = (2 ^ 32 <=? M) /\ mu_s r = p - 32.

Lemma pow2_le64 p : 0 <= p <= 64 -> 2 ^ p <= 2 ^ 64.
Proof. intros. apply Z.pow_le_mono_r; lia. Qed.

Lemma quot_small p q r n : 2 ^ p = q * n + r -> 0 <= r -> 2 ^ 31 <= n -> 0 <= p <= 64 -> q <= 2 ^ 33.
Proof. intros E Hr Hn Hp. pose proof (pow2_le64 p Hp). nia. Qed.

Lemma magic_u32_body fuel p q1 r1 q2 r2 add :
  mu_inv p q1 r1 q2 r2 add ->
  exists q1' r1' q2' r2' add',
    2 ^ (p + 1) = q1' * nc + r1' /\ 0 <= r1' < nc /\
    2 ^ (p + 1) - 1 = q2' * d + r2' /\ 0 <= r2' < d /\ 0 <= q1' /\ 0 <= q2' < 2 ^ 33 /\
    add' = (2 ^ 32 <=? q2' + 1) /\
    magic_u32_loop (S fuel) d nc p q1 r1 q2 r2 add =
      if (p + 1 <? 64) && ((q1' <? d - 1 - r2') || ((q1' =? d - 1 - r2') && (r1' =? 0)))
      then magic_u32_loop fuel d nc (p + 1) q1' r1' q2' r2' add'
      else MagicU (Z.land (u64 (q2' + 1)) 0xFFFFFFFF) add' (p + 1 - 32).
Proof using Hd Hnc.
  intros (Hp & E1 & R1 & E2 & R2 & Q1 & Q2 & Ha & HB).
  assert (D1 : 2 ^ (p + 1) = 2 * 2 ^ p) by (rewrite Z.pow_add_r by lia; lia).
  pose proof (quot_small p q1 r1 nc E1 ltac:(lia) ltac:(lia) ltac:(lia)) as B1.
  assert (B2 : q2 < 2 ^ 32) by nia.
  remember (nc - r1 <=? r1) as c1 eqn:C1. remember (d - r2 <=? r2 + 1) as c2 eqn:C2.
  exists (if c1 then 2 * q1 + 1 else 2 * q1), (if c1 then 2 * r1 - nc else 2 * r1).
  exists (if c2 then 2 * q2 + 1 else 2 * q2), (if c2 then 2 * r2 + 1 - d else 2 * r2 + 1).
  exists (add || if c2 then 0x7FFFFFFF <=? q2 else 0x80000000 <=? q2).
  rewrite D1. cbn [magic_u32_loop].
  rewrite (u64_id (nc - r1)), (u64_id (d - r2)), (u64_id (r2 + 1)), <- C1, <- C2 by lia.
  subst add. destruct c1, c2;
    rewrite ?(u64_id (2 * q1 + 1)), ?(u64_id (2 * q1)), ?(u64_id (2 * r1 - nc)), ?(u64_id (2 * r1)),
      ?(u64_id (2 * q2 + 1)), ?(u64_id (2 * q2)), ?(u64_id (2 * r2 + 1 - d)), ?(u64_id (2 * r2 + 1)) by lia;
    rewrite u64_id, ?(u64_id (2 * q2 + 1)) by lia; split_and!; try reflexivity; lia.
Qed.

Lemma stop_small p q1 r1 delta :
  2 ^ p = q1 * nc + r1 -> 0 <= delta < d -> p = 64 \/ delta < q1 \/ q1 = delta /\ 0 < r1 -> 0 <= r1 ->
  nc * delta < 2 ^ p.
Proof using Hd Hnc. intros E Hdl [->|[H|[-> H]]] Hr; [nia | nia | lia]. Qed.

Lemma magic_u32_loop_found fuel p q1 r1 q2 r2 add :
  mu_inv p q1 r1 q2 r2 add -> 64 - p <= Z.of_nat fuel ->
  mu_found (magic_u32_loop fuel d nc p q1 r1 q2 r2 add).
Proof using Hd Hnc.
  revert p q1 r1 q2 r2 add. induction fuel as [|fuel IH]; intros p q1 r1 q2 r2 add HI Hf.
  - destruct HI as (Hp & _). lia.
  - pose proof HI as (Hp & _).
    destruct (magic_u32_body fuel p q1 r1 q2 r2 add HI)
      as (q1' & r1' & q2' & r2' & add' & E1 & R1 & E2 & R2 & Q1 & Q2 & Ha & ->).
    destruct ((p + 1 <? 64) && _) eqn:C.
    + apply IH; [|lia]. unfold mu_inv. split_and!; try (done || lia).
      (* the test held, so [2^p] is at most [nc * delta] *)
      assert (2 ^ (p + 1) <= nc * (d - 1 - r2')) by nia.
      replace (2 ^ (p + 1 + 1)) with (2 * 2 ^ (p + 1)) by (rewrite (Z.pow_add_r 2 (p + 1)) by lia; lia).
      assert (nc * (d - 1 - r2') <= (2 ^ 32 - 1) * (d - 1)) by (apply Z.mul_le_mono_nonneg; lia). lia.
    + exists (p + 1), (q2' + 1), (d - 1 - r2'). split_and!; cbn [mu_m mu_add mu_s]; try (done || lia).
      * apply (stop_small (p + 1) q1' r1'); lia.
      * destruct HI as (_ & _ & _ & _ & _ & _ & _ & _ & HB).
        apply (Z.mul_lt_mono_pos_r d); lia.
      * rewrite u64_id by lia. exact (land_ones_mod (q2' + 1) 32 ltac:(lia)).
Qed.
End MagicU.

Lemma magic_u32_found d : 2 <= d < 2 ^ 32 ->
  mu_found d (2 ^ 32 - 1 - 2 ^ 32 mod d) (magic_u32 d).
Proof.
  intros Hd. unfold magic_u32. rewrite (u64_id (0xFFFFFFFF - d + 1)) by lia.
  replace ((0xFFFFFFFF - d + 1) mod d) with (2 ^ 32 mod d).
  2: { replace (0xFFFFFFFF - d + 1) with (2 ^ 32 + (-1) * d) by lia. now rewrite Z.mod_add by lia. }
  pose proof (Z.mod_pos_bound (2 ^ 32) d ltac:(lia)) as Hr.
  assert (Hnc : 2 ^ 31 <= 2 ^ 32 - 1 - 2 ^ 32 mod d < 2 ^ 32).
  { split; [|lia]. destruct (Z_lt_dec (2 ^ 31) d); [|lia].
    replace (2 ^ 32 mod d) with (2 ^ 32 - d); [lia|]. apply Z.mod_unique with 1; lia. }
  rewrite (u64_id (0xFFFFFFFF - 2 ^ 32 mod d)) by lia.
  replace (0xFFFFFFFF - 2 ^ 32 mod d) with (2 ^ 32 - 1 - 2 ^ 32 mod d) by lia.
  set (nc := 2 ^ 32 - 1 - 2 ^ 32 mod d) in *.
  pose proof (Z.div_mod 0x80000000 nc ltac:(lia)). pose proof (Z.mod_pos_bound 0x80000000 nc ltac:(lia)).
  pose proof (Z.div_mod 0x7FFFFFFF d ltac:(lia)). pose proof (Z.mod_pos_bound 0x7FFFFFFF d ltac:(lia)).
  pose proof (Z.div_pos 0x80000000 nc ltac:(lia) ltac:(lia)).
  pose proof (Z.div_pos 0x7FFFFFFF d ltac:(lia) ltac:(lia)).
  set (q1 := 0x80000000 / nc) in *. set (q2 := 0x7FFFFFFF / d) in *. clearbody nc q1 q2.
  rewrite (u64_id (q1 * nc)), (u64_id (q2 * d)) by lia.
  rewrite (u64_id (0x80000000 - q1 * nc)), (u64_id (0x7FFFFFFF - q2 * d)) by lia.
  apply magic_u32_loop_found; [lia | lia | | lia].
  unfold mu_inv. split_and!; lia.
Qed.

(** Multiplying by the 33-bit multiplier and shifting is the division. *)
Lemma magic_u32_divides d r : 2 <= d < 2 ^ 32 -> r = magic_u32 d ->
  let M := mu_m r + (if mu_add r then 2 ^ 32 else 0) in
  0 <= mu_s r <= 32 /\ 0 <= mu_m r < 2 ^ 32 /\ (mu_add r = true -> 1 <= mu_s r) /\
  (mu_add r = false -> mu_s r <= 31) /\
  forall x, 0 <= x < 2 ^ 32 -> x * M / 2 ^ (32 + mu_s r) = x / d.
Proof.
  intros Hd -> M. destruct (magic_u32_found d Hd)
    as (p & M' & delta & Hp & EM & Hdl & Hnc & HM & Em & Ea & Es).
  pose proof (Z.mod_pos_bound (2 ^ 32) d ltac:(lia)) as Hr.
  assert (EMM : M = M').
  { subst M. rewrite Em, Ea. destruct (Z.leb_spec (2 ^ 32) M').
    - replace (M' mod 2 ^ 32) with (M' - 2 ^ 32) by (apply Z.mod_unique with 1; lia). lia.
    - rewrite Z.mod_small by lia. lia. }
  clearbody M. subst M. rewrite Em, Ea, Es.
  pose proof (Z.mod_pos_bound M' (2 ^ 32) ltac:(lia)). split_and!; try lia.
  - intros HA. apply Z.leb_le in HA. destruct (decide (p = 32)) as [->|]; [nia | lia].
  - intros HA. apply Z.leb_gt in HA. destruct (decide (p = 64)) as [->|]; [nia | lia].
  - intros x Hx. replace (32 + (p - 32)) with p by lia.
    apply (mul_is_div d (2 ^ 32 - 1 - 2 ^ 32 mod d) M' p delta) with (N := 2 ^ 32); try lia.
    + replace (2 ^ 32 - 1 - 2 ^ 32 mod d + 1) with (d * (2 ^ 32 / d))
        by (pose proof (Z.div_mod (2 ^ 32) d ltac:(lia)); lia).
      rewrite Z.mul_comm. apply Z.mod_mul. lia.
    + assert (d * 1 <= d * (2 ^ 32 / d)); [|pose proof (Z.div_mod (2 ^ 32) d ltac:(lia)); lia].
      apply Z.mul_le_mono_nonneg_l; [lia|]. apply Z.div_le_lower_bound; lia.
Qed.

(** ** What the signed search finds *)

Section MagicS.
Context (ad anc t : Z) (Had : 2 <= ad <= 2 ^ 31) (Ht : t = 2 ^ 31 \/ t = 2 ^ 31 + 1).
Context (Hanc : anc = t - 1 - t mod ad) (Hpos : ad - 1 <= anc).

(** If [anc] is as large as [2^31], the divisor is odd. *)
Lemma odd_at_max : anc = 2 ^ 31 -> ad mod 2 = 1.
Proof using Had Ht Hanc.
  intros E. pose proof (Z.mod_pos_bound t ad ltac:(lia)). assert (t = 2 ^ 31 + 1) by lia.
  pose proof (Z.div_mod t ad ltac:(lia)) as D. replace (t mod ad) with 0 in D by lia.
  pose proof (Z.div_mod ad 2 ltac:(lia)). pose proof (Z.mod_pos_bound ad 2 ltac:(lia)).
  destruct (decide (ad mod 2 = 1)); [done|]. exfalso. replace (ad mod 2) with 0 in * by lia.
  set (k := t / ad) in *. set (j := ad / 2) in *. assert (ad = 2 * j) as E2 by lia.
  rewrite E2 in D at 1. clearbody k j. assert (2 * j * k = 2 * (j * k)) by ring. lia.
Qed.

Definition ms_inv (p q1 r1 q2 r2 : Z) : Prop :=
  31 <= p < 63 /\
  2 ^ p = q1 * anc + r1 /\ 0 <= r1 < anc /\
  2 ^ p = q2 * ad + r2 /\ 0 <= r2 < ad /\
  0 <= q1 /\ 0 <= q2 /\
  (anc = 2 ^ 31 -> 0 < r2) /\
  2 ^ (p + 1) <= (2 ^ 32 - 2) * ad.

Definition ms_found (r : Z * Z) : Prop := exists p M delta,
  r = (M - 1, p) /\ 32 <= p <= 63 /\ M * ad = 2 ^ p + delta /\ 1 <= delta <= ad /\
  anc * delta < 2 ^ p /\ 0 < M < 2 ^ 32.

Lemma anc_range : 1 <= anc <= 2 ^ 31.
Proof using Had Ht Hanc Hpos. pose proof (Z.mod_pos_bound t ad ltac:(lia)). lia. Qed.

Lemma magic_s32_body fuel p q1 r1 q2 r2 :
  ms_inv p q1 r1 q2 r2 ->
  exists q1' r1' q2' r2',
    2 ^ (p + 1) = q1' * anc + r1' /\ 0 <= r1' < anc /\
    2 ^ (p + 1) = q2' * ad + r2' /\ 0 <= r2' < ad /\ 0 <= q1' /\ 0 <= q2' < 2 ^ 32 - 1 /\
    (anc = 2 ^ 31 -> 0 < r2') /\
    magic_s32_loop (S fuel) ad anc p q1 r1 q2 r2 =
      if (q1' <? ad - r2') || ((q1' =? ad - r2') && (r1' =? 0))
      then magic_s32_loop fuel ad anc (p + 1) q1' r1' q2' r2'
      else (q2', p + 1).
Proof using Had Ht Hanc Hpos.
  intros (Hp & E1 & R1 & E2 & R2 & Q1 & Q2 & Hr & HB). pose proof anc_range as HA.
  assert (D1 : 2 ^ (p + 1) = 2 * 2 ^ p) by (rewrite Z.pow_add_r by lia; lia).
  assert (B1 : 2 ^ p <= 2 ^ 62) by (apply Z.pow_le_mono_r; lia).
  assert (B2 : q1 <= 2 ^ 62) by nia. assert (B3 : q2 * 2 <= 2 ^ 32 - 2) by nia.
  remember (anc <=? 2 * r1) as c1 eqn:C1. remember (ad <=? 2 * r2) as c2 eqn:C2.
  exists (if c1 then 2 * q1 + 1 else 2 * q1), (if c1 then 2 * r1 - anc else 2 * r1).
  exists (if c2 then 2 * q2 + 1 else 2 * q2), (if c2 then 2 * r2 - ad else 2 * r2).
  rewrite D1. cbn [magic_s32_loop].
  rewrite (u64_id (2 * q1)), (u64_id (2 * r1)), (u64_id (2 * q2)), (u64_id (2 * r2)), <- C1, <- C2 by lia.
  assert (HO : anc = 2 ^ 31 -> ad <> 2 * r2).
  { intros E%odd_at_max Eq. rewrite Eq, Z.mul_comm, Z.mod_mul in E; lia. }
  assert (HQ : (if c2 then 2 * q2 + 1 else 2 * q2) < 2 ^ 32 - 1).
  { destruct c2; [|lia]. apply (Z.mul_lt_mono_pos_r ad); lia. }
  destruct c1, c2;
    rewrite ?(u64_id (2 * q1 + 1)), ?(u64_id (2 * r1 - anc)), ?(u64_id (2 * q2 + 1)),
      ?(u64_id (2 * r2 - ad)) by lia;
    rewrite u64_id by lia; split_and!; try reflexivity; lia.
Qed.

Lemma magic_s32_loop_found fuel p q1 r1 q2 r2 :
  ms_inv p q1 r1 q2 r2 -> 63 - p <= Z.of_nat fuel ->
  ms_found (magic_s32_loop fuel ad anc p q1 r1 q2 r2).
Proof using Had Ht Hanc Hpos.
  revert p q1 r1 q2 r2. induction fuel as [|fuel IH]; intros p q1 r1 q2 r2 HI Hf.
  - destruct HI as (Hp & _). lia.
  - pose proof HI as (Hp & _). pose proof anc_range as HA.
    destruct (magic_s32_body fuel p q1 r1 q2 r2 HI)
      as (q1' & r1' & q2' & r2' & E1 & R1 & E2 & R2 & Q1 & Q2 & Hr & ->).
    destruct ((q1' <? ad - r2') || _) eqn:C.
    + assert (L : 2 ^ (p + 1) <= anc * (ad - r2')) by nia.
      assert (p + 1 < 63).
      { destruct (decide (p + 1 = 63)) as [E|]; [|lia]. rewrite E in *.
        assert (anc * (ad - r2') <= 2 ^ 31 * 2 ^ 31) by (apply Z.mul_le_mono_nonneg; lia). lia. }
      apply IH; [|lia]. unfold ms_inv. split_and!; try (done || lia).
      replace (2 ^ (p + 1 + 1)) with (2 * 2 ^ (p + 1)) by (rewrite (Z.pow_add_r 2 (p + 1)) by lia; lia).
      destruct (decide (anc = 2 ^ 31)) as [EA|].
      * specialize (Hr EA). rewrite EA in L. lia.
      * assert (anc * (ad - r2') <= (2 ^ 31 - 1) * ad) by (apply Z.mul_le_mono_nonneg; lia). lia.
    + exists (p + 1), (q2' + 1), (ad - r2'). split_and!; try lia; [f_equal; lia|].
      assert (ad - r2' < q1' \/ q1' = ad - r2' /\ 0 < r1') as [|[-> ?]] by lia; nia.
Qed.

(** The rounding of a negative dividend: the quotient, less one. *)
Lemma mul_is_div_neg M p delta y :
  31 <= p -> M * ad = 2 ^ p + delta -> 1 <= delta <= ad -> anc * delta < 2 ^ p ->
  1 <= y -> y < t \/ y = t /\ t = 2 ^ 31 ->
  - (y * M) / 2 ^ p = - (y / ad) - 1.
Proof using Had Ht Hanc Hpos.
  intros Hp HM Hdl Hnc Hy Hb. pose proof (pow2_pos p ltac:(lia)) as Pp.
  pose proof (Z.mod_pos_bound t ad ltac:(lia)) as Hm. pose proof (Z.div_mod t ad ltac:(lia)) as Em.
  assert (X : y * delta <= (ad - y mod ad) * 2 ^ p).
  { destruct Hb as [L|[-> E]].
    - apply Z.lt_le_incl, (excess_small ad anc M p delta) with (N := t); try lia.
      replace (anc + 1) with (t / ad * ad) by lia. apply Z.mod_mul. lia.
    - set (r := t mod ad) in *. destruct (decide (r = ad - 1)) as [R|].
      + (* [2^31] is itself one less than a multiple *)
        assert (S : 2 ^ p = 2 ^ (p - 31) * 2 ^ 31) by (rewrite <- Z.pow_add_r by lia; f_equal; lia).
        pose proof (pow2_pos (p - 31) ltac:(lia)). set (u := 2 ^ (p - 31)) in *. set (k := t / ad) in *.
        assert (delta <= u); [|replace (ad - r) with 1 by lia; rewrite S, E; lia].
        assert (T : 2 ^ 31 = ad * (k + 1) - 1) by lia. rewrite S, T in HM.
        assert (J : delta - u = (M - u * (k + 1)) * ad) by lia.
        set (j := M - u * (k + 1)) in *. clearbody j. destruct (Z_le_dec j 0).
        * assert (j * ad <= 0) by (apply Z.mul_nonpos_nonneg; lia). lia.
        * assert (1 * ad <= j * ad) by (apply Z.mul_le_mono_nonneg_r; lia). lia.
      + assert ((r + 1) * delta <= anc * delta) by (apply Z.mul_le_mono_nonneg_r; lia).
        assert (2 * 2 ^ p <= (ad - r) * 2 ^ p) by (apply Z.mul_le_mono_nonneg_r; lia).
        replace t with (anc + (r + 1)) by lia. lia. }
  pose proof (Z.div_mod y ad ltac:(lia)) as E. pose proof (Z.mod_pos_bound y ad ltac:(lia)).
  set (q := y / ad) in *. set (r := y mod ad) in *. clearbody q r.
  symmetry. apply Z.div_unique with ((q + 1) * 2 ^ p - y * M); [|ring]. left.
  assert (A : (y * M) * ad = (ad * q + r) * 2 ^ p + y * delta)
    by (rewrite <- E; transitivity (y * (M * ad)); [ring | rewrite HM; ring]).
  assert (1 * delta <= y * delta) by (apply Z.mul_le_mono_nonneg_r; lia).
  assert (0 <= r * 2 ^ p) by (apply Z.mul_nonneg_nonneg; lia).
  split; [apply (Z.mul_le_mono_pos_r _ _ ad) | apply (Z.mul_lt_mono_pos_r ad)]; lia.
Qed.
End MagicS.

Lemma sign_bit_31 d : - 2 ^ 31 <= d < 2 ^ 31 ->
  Z.land (Z.shiftr (u64 d) 31) 1 = (if d <? 0 then 1 else 0).
Proof.
  intros Hd. rewrite Z.shiftr_div_pow2 by lia. rewrite (land_ones_mod _ 1 ltac:(lia) : _ = _ mod 2).
  destruct (Z.ltb_spec d 0).
  - rewrite (uwrap_of_s 64) by (unfold is_s; lia). replace (d <? 0) with true by lia.
    replace ((d + 2 ^ 64) / 2 ^ 31) with (2 ^ 33 - 1); [reflexivity|].
    apply Z.div_unique with (d + 2 ^ 31); lia.
  - rewrite (u64_id d), Z.div_small by lia. reflexivity.
Qed.

(** The numbers the search starts from and ends with. *)
Lemma magic_s32_found d : - 2 ^ 31 <= d < 2 ^ 31 -> 2 <= Z.abs d ->
  let ad := Z.abs d in
  let t := 2 ^ 31 + (if d <? 0 then 1 else 0) in
  let anc := t - 1 - t mod ad in
  ad - 1 <= anc /\ exists p M delta,
    magic_s32 d = MagicS (if d <? 0 then - s32 M else s32 M) (p - 32) /\
    32 <= p <= 63 /\ M * ad = 2 ^ p + delta /\ 1 <= delta <= ad /\ anc * delta < 2 ^ p /\ 0 < M < 2 ^ 32.
Proof.
  intros Hd Had ad t anc. unfold magic_s32. rewrite sign_bit_31 by done.
  replace (u64 (if d <? 0 then - d else d)) with ad
    by (rewrite u64_id; unfold ad; destruct (Z.ltb_spec d 0); lia).
  assert (T : t = 2 ^ 31 \/ t = 2 ^ 31 + 1) by (unfold t; destruct (d <? 0); lia).
  rewrite (u64_id (0x80000000 + _)) by (destruct (d <? 0); lia). change (0x80000000 + _) with t.
  pose proof (Z.mod_pos_bound t ad ltac:(lia)) as Hm. pose proof (Z.div_mod t ad ltac:(lia)) as Em.
  assert (K : ad * 1 <= ad * (t / ad)) by
    (apply Z.mul_le_mono_nonneg_l; [lia | apply Z.div_le_lower_bound; lia]).
  rewrite (u64_id (t - 1 - t mod ad)) by lia. fold anc.
  assert (A : ad - 1 <= anc) by lia. split; [done|].
  pose proof (Z.div_mod 0x80000000 anc ltac:(lia)). pose proof (Z.mod_pos_bound 0x80000000 anc ltac:(lia)).
  pose proof (Z.div_mod 0x80000000 ad ltac:(lia)). pose proof (Z.mod_pos_bound 0x80000000 ad ltac:(lia)).
  pose proof (Z.div_pos 0x80000000 anc ltac:(lia) ltac:(lia)).
  pose proof (Z.div_pos 0x80000000 ad ltac:(lia) ltac:(lia)).
  set (q1 := 0x80000000 / anc) in *. set (q2 := 0x80000000 / ad) in *.
  rewrite (u64_id (q1 * anc)), (u64_id (q2 * ad)) by lia.
  rewrite (u64_id (0x80000000 - q1 * anc)), (u64_id (0x80000000 - q2 * ad)) by lia.
  destruct (magic_s32_loop_found ad anc t ltac:(lia) T eq_refl A 64 31 q1 (0x80000000 - q1 * anc) q2
              (0x80000000 - q2 * ad)) as (p & M & delta & -> & Hp & HM & Hdl & Hnc & MB); [|lia|].
  - unfold ms_inv. split_and!; try lia. intros EA.
    destruct (decide (0x80000000 - q2 * ad = 0)) as [Z0|]; [exfalso | lia].
    assert (X : ad * (t / ad - q2) = 1) by lia.
    assert (ad = 1 \/ ad = -1) by (apply Z.mul_eq_1 in X; lia). lia.
  - exists p, M, delta. rewrite (u64_id (M - 1 + 1)) by lia. replace (M - 1 + 1) with M by lia.
    split_and!; done || lia.
Qed.

(** Rounding toward zero from a quotient rounded down: add one when negative. *)
Lemma quot_from_floor d x M P :
  - 2 ^ 31 <= x < 2 ^ 31 -> 2 <= Z.abs d ->
  (forall y, 0 <= y < 2 ^ 31 + (if d <? 0 then 1 else 0) -> y * M / P = y / Z.abs d) ->
  (forall y, 1 <= y -> y < 2 ^ 31 + (if d <? 0 then 1 else 0) \/ y = 2 ^ 31 /\ 0 <= d ->
     - (y * M) / P = - (y / Z.abs d) - 1) ->
  let q := x * (if d <? 0 then - M else M) / P in
  q + (if q <? 0 then 1 else 0) = Z.quot x d.
Proof.
  intros Hx Had POS NEG q. subst q.
  assert (same : forall y, 0 <= y -> Z.quot y (Z.abs d) = y / Z.abs d)
    by (intros; apply Z.quot_div_nonneg; lia).
  assert (up : forall y, 0 <= y -> 0 <= y / Z.abs d) by (intros; apply Z.div_pos; lia).
  destruct (Z.ltb_spec d 0), (Z_lt_dec x 0).
  - replace (x * - M) with (- x * M) by ring. rewrite POS by lia. specialize (up (- x) ltac:(lia)).
    replace (- x / Z.abs d <? 0) with false by lia.
    rewrite <- same, <- Z.quot_opp_opp by lia. rewrite Z.add_0_r. f_equal; lia.
  - destruct (decide (x = 0)) as [->|]; [reflexivity|].
    replace (x * - M) with (- (x * M)) by ring. rewrite NEG by lia. specialize (up x ltac:(lia)).
    replace (- (x / Z.abs d) - 1 <? 0) with true by lia.
    transitivity (- (x / Z.abs d)); [lia|]. rewrite <- same, <- Z.quot_opp_r by lia. f_equal; lia.
  - replace (x * M) with (- (- x * M)) by ring. rewrite NEG by lia. specialize (up (- x) ltac:(lia)).
    replace (- (- x / Z.abs d) - 1 <? 0) with true by lia.
    transitivity (- (- x / Z.abs d)); [lia|]. rewrite <- same, <- Z.quot_opp_l by lia. f_equal; lia.
  - rewrite POS by lia. specialize (up x ltac:(lia)). replace (x / Z.abs d <? 0) with false by lia.
    rewrite <- same, Z.add_0_r by lia. f_equal; lia.
Qed.

(** The signed multiplier at every 32-bit divisor: [M] with the divisor's sign,
    and the quotient it gives. *)
Lemma magic_s32_divides d r : - 2 ^ 31 <= d < 2 ^ 31 -> 2 <= Z.abs d -> r = magic_s32 d ->
  exists M, 0 < M < 2 ^ 32 /\ 0 <= ms_s r <= 31 /\
    ms_m r = (if d <? 0 then - s32 M else s32 M) /\
    forall x, - 2 ^ 31 <= x < 2 ^ 31 ->
      let q := x * (if d <? 0 then - M else M) / 2 ^ (32 + ms_s r) in
      q + (if q <? 0 then 1 else 0) = Z.quot x d.
Proof.
  intros Hd Had ->. pose proof (magic_s32_found d Hd Had) as F. cbv zeta in F.
  set (ad := Z.abs d) in *. set (t := 2 ^ 31 + (if d <? 0 then 1 else 0)) in *.
  set (anc := t - 1 - t mod ad) in *. destruct F as (A & p & M & delta & -> & Hp & HM & Hdl & Hnc & MB).
  assert (T : t = 2 ^ 31 \/ t = 2 ^ 31 + 1) by (unfold t; destruct (d <? 0); lia).
  exists M. cbn [ms_s ms_m]. split_and!; try lia. intros x Hx.
  replace (32 + (p - 32)) with p by lia.
  pose proof (Z.mod_pos_bound t ad ltac:(lia)). pose proof (Z.div_mod t ad ltac:(lia)).
  apply quot_from_floor; [done | done | |].
  - intros y Hy. apply (mul_is_div ad anc M p delta) with (N := t); try lia.
    replace (anc + 1) with (t / ad * ad) by lia. apply Z.mod_mul. lia.
  - intros y H1 H2. apply (mul_is_div_neg ad anc t ltac:(lia) T eq_refl A M p delta); try lia.
Qed.

(** *** The high half, from the 32-bit multiplier *)

(** [M] wrapped to 32 bits is off by [2^32], which the correction adds or
    subtracts again: the high half comes out exact. [m] is the multiplier as the
    64-bit path takes it ([ms_m]) or as the 32-bit one does (its low word). *)
Lemma magic_high d M m x :
  0 < M < 2 ^ 32 -> d <> 0 ->
  m = (if d <? 0 then - s32 M else s32 M) \/ m = s32 (if d <? 0 then - s32 M else s32 M) ->
  x * m / 2 ^ 32 + (if (0 <? d) && (m <? 0) then x else if (d <? 0) && (0 <? m) then - x else 0)
  = x * (if d <? 0 then - M else M) / 2 ^ 32.
Proof.
  intros HM Hd Hm.
  assert (SM : s32 M = if M <? 2 ^ 31 then M else M - 2 ^ 32)
    by (rewrite swrap_of_u by (unfold is_u; lia); done).
  assert (E : m = (if d <? 0 then - s32 M else s32 M) \/ d < 0 /\ M = 2 ^ 31 /\ m = - 2 ^ 31).
  { destruct Hm as [|Hm]; [by left|]. destruct (decide (d < 0 /\ M = 2 ^ 31)) as [[? ->]|N].
    - right. rewrite Hm. replace (d <? 0) with true by lia. done.
    - left. rewrite Hm. apply swrap_small; [lia|]. rewrite SM. unfold is_s.
      destruct (Z.ltb_spec d 0), (Z.ltb_spec M (2 ^ 31)); lia. }
  clear Hm. destruct E as [->|(Hn & -> & ->)].
  - rewrite SM. destruct (Z.ltb_spec d 0), (Z.ltb_spec M (2 ^ 31)).
    + replace ((0 <? d) && _) with false by lia. replace (true && _) with false by lia. lia.
    + replace ((0 <? d) && _) with false by lia. replace (true && _) with true by lia.
      replace (x * - M) with (x * - (M - 2 ^ 32) + - x * 2 ^ 32) by ring. by rewrite Z.div_add by lia.
    + replace ((0 <? d) && _) with false by lia. simpl. lia.
    + replace ((0 <? d) && _) with true by lia.
      replace (x * M) with (x * (M - 2 ^ 32) + x * 2 ^ 32) by ring. by rewrite Z.div_add by lia.
  - replace (d <? 0) with true by lia. replace ((0 <? d) && _) with false by lia. simpl. lia.
Qed.

(** ** Powers of two *)

Lemma land_pred_pow2 v : 0 < v -> Z.land v (v - 1) = 0 -> exists k, 0 <= k /\ v = 2 ^ k.
Proof.
  intros Hv HL. exists (Z.log2 v). split; [apply Z.log2_nonneg|].
  pose proof (Z.log2_spec v Hv) as [Hlo Hhi]. set (k := Z.log2 v) in *.
  assert (Hk : 0 <= k) by apply Z.log2_nonneg. rewrite Z.pow_succ_r in Hhi by done.
  destruct (decide (v = 2 ^ k)) as [|N]; [done|]. exfalso.
  assert (B : Z.testbit (Z.land v (v - 1)) k = true); [|by rewrite HL, Z.bits_0 in B].
  rewrite Z.land_spec. apply andb_true_iff.
  assert (T : forall z, 2 ^ k <= z < 2 * 2 ^ k -> Z.testbit z k = true).
  { intros z Hz. rewrite Z.testbit_true by done.
    replace (z / 2 ^ k) with 1; [done|]. apply Z.div_unique with (z - 2 ^ k); lia. }
  split; apply T; lia.
Qed.

Lemma log2_loop_pow2 fuel k j : 0 <= k < Z.of_nat fuel -> log2_loop fuel (2 ^ k) j = j + k.
Proof.
  revert k j. induction fuel as [|fuel IH]; intros k j Hk; [lia|]. simpl.
  destruct (decide (k = 0)) as [->|]; [simpl; lia|].
  assert (1 < 2 ^ k) by (apply Z.pow_gt_1; lia). replace (1 <? 2 ^ k) with true by lia.
  rewrite Z.shiftr_div_pow2 by lia. replace (2 ^ k / 2 ^ 1) with (2 ^ (k - 1)).
  - rewrite IH by lia. lia.
  - rewrite <- Z.pow_sub_r by lia. done.
Qed.

(** [log2_pow2_l] is the exponent of a power of two, and -1 of anything else. *)
Lemma log2_pow2_l_spec v : 0 <= v < 2 ^ 64 ->
  (exists k, 0 <= k < 64 /\ v = 2 ^ k /\ log2_pow2_l v = k) \/
  (log2_pow2_l v = -1 /\ forall k, 0 <= k -> v <> 2 ^ k).
Proof.
  intros Hv. unfold log2_pow2_l. destruct (Z.eqb_spec v 0) as [->|N]; cbn [orb negb].
  - right. split; [done|]. intros k Hk E. pose proof (pow2_pos k Hk). lia.
  - rewrite u64_id by lia. destruct (Z.eqb_spec (Z.land v (v - 1)) 0) as [E|E]; cbn [negb].
    + left. destruct (land_pred_pow2 v ltac:(lia) E) as (k & Hk & ->). exists k.
      assert (k < 64) by (apply (Z.pow_lt_mono_r_iff 2 k 64); [lia | done | lia]).
      split_and!; [lia | lia | done |]. rewrite log2_loop_pow2 by lia. lia.
    + right. split; [done|]. intros k Hk ->. destruct E.
      replace (2 ^ k - 1) with (Z.ones k) by (rewrite Z.ones_equiv; lia).
      rewrite Z.land_ones by done. apply Z.mod_same. pose proof (pow2_pos k Hk). lia.
Qed.

(** ** Small dividends *)

Lemma dm_narrow_loop_spec fuel D B s M sh :
  1 <= D < 2 ^ 32 -> 0 <= B < 2 ^ 16 -> 0 <= s -> s + Z.of_nat fuel <= 33 ->
  dm_narrow_loop fuel D B s = Some (M, sh) ->
  0 <= sh <= 32 /\ 0 < M /\ B * M < 2 ^ 32 /\ (B * (M * D - 2 ^ sh) < 2 ^ sh) /\ 0 <= M * D - 2 ^ sh.
Proof.
  intros HD HB. revert s. induction fuel as [|fuel IH]; intros s Hs Hf; [done|].
  cbn [dm_narrow_loop]. rewrite Z.shiftl_mul_pow2, Z.mul_1_l by lia.
  pose proof (pow2_pos s Hs). assert (2 ^ s <= 2 ^ 32) by (apply Z.pow_le_mono_r; lia).
  rewrite (u64_id (2 ^ s)), (u64_id (2 ^ s + D - 1)) by lia.
  pose proof (Z.div_mod (2 ^ s + D - 1) D ltac:(lia)) as E.
  pose proof (Z.mod_pos_bound (2 ^ s + D - 1) D ltac:(lia)) as R.
  set (m := (2 ^ s + D - 1) / D) in *. set (r := (2 ^ s + D - 1) mod D) in *.
  assert (Hm : 0 < m) by (apply Z.div_str_pos; lia).
  assert (Hm2 : m < 2 ^ 33) by (apply (Z.mul_lt_mono_pos_r D); lia).
  assert (0 <= B * (m * D - 2 ^ s) <= 2 ^ 16 * 2 ^ 32)
    by (split; [apply Z.mul_nonneg_nonneg | apply Z.mul_le_mono_nonneg]; lia).
  assert (0 <= B * m <= 2 ^ 16 * 2 ^ 33)
    by (split; [apply Z.mul_nonneg_nonneg | apply Z.mul_le_mono_nonneg]; lia).
  rewrite (u64_id (m * D)), (u64_id (m * D - 2 ^ s)) by lia.
  rewrite (u64_id (B * (m * D - 2 ^ s))), (u64_id (B * m)), (u64_id m) by lia.
  destruct (_ && _) eqn:C.
  - intros [= <- <-]. lia.
  - apply IH; lia.
Qed.

(** Where the search succeeds, multiplying and shifting divides every dividend
    up to the bound, and the product stays in 32 bits. *)
Lemma dm_narrow_divides D B M sh x :
  1 <= D < 2 ^ 32 -> 0 <= B < 2 ^ 16 -> dm_narrow_magic D B = Some (M, sh) -> 0 <= x <= B ->
  0 <= sh <= 32 /\ 0 < M /\ 0 <= x * M < 2 ^ 32 /\ x * M / 2 ^ sh = x / D.
Proof.
  intros HD HB HM Hx.
  destruct (dm_narrow_loop_spec 33 D B 0 M sh HD HB ltac:(lia) ltac:(lia) HM) as (Hs & H0 & H1 & H2 & H3).
  assert (0 <= x * M <= B * M)
    by (split; [apply Z.mul_nonneg_nonneg | apply Z.mul_le_mono_nonneg_r]; lia).
  split_and!; try lia.
  pose proof (Z.div_mod x D ltac:(lia)) as E. pose proof (Z.mod_pos_bound x D ltac:(lia)).
  set (q := x / D) in *. set (r := x mod D) in *. set (e := M * D - 2 ^ sh) in *.
  pose proof (pow2_pos sh ltac:(lia)). symmetry. apply Z.div_unique with (x * M - q * 2 ^ sh); [|ring].
  left. assert (X : (x * M - q * 2 ^ sh) * D = r * 2 ^ sh + x * e).
  { clearbody q r. unfold e. subst x. ring. }
  assert (x * e <= B * e) by (apply Z.mul_le_mono_nonneg_r; lia).
  assert (r * 2 ^ sh <= (D - 1) * 2 ^ sh) by (apply Z.mul_le_mono_nonneg_r; lia).
  assert (0 <= r * 2 ^ sh) by (apply Z.mul_nonneg_nonneg; lia).
  assert (0 <= x * e) by (apply Z.mul_nonneg_nonneg; lia).
  split; [apply (Z.mul_le_mono_pos_r _ _ D) | apply (Z.mul_lt_mono_pos_r D)]; lia.
Qed.

(** ** Properties *)

(** C26: the unsigned magic numbers divide: for every divisor from 2 and every
    32-bit dividend, the multiplier (33 bits long when [add] is set) and the shift
    give exactly the quotient, with a multiplier and a shift the expansions can
    encode. *)
Theorem magic_u32_correct (d x : Z) : 2 <= d < 2 ^ 32 -> 0 <= x < 2 ^ 32 ->
  let r := magic_u32 d in
  0 <= mu_m r < 2 ^ 32 /\ (if mu_add r then 1 <= mu_s r <= 32 else 0 <= mu_s r <= 31) /\
  x * (mu_m r + (if mu_add r then 2 ^ 32 else 0)) / 2 ^ (32 + mu_s r) = x / d.
Proof.
  intros Hd Hx r. destruct (magic_u32_divides d r Hd eq_refl) as (Hs & Hm & Ha & Hna & Hq).
  split_and!; try lia; [|by apply Hq].
  destruct (mu_add r); [specialize (Ha eq_refl) | specialize (Hna eq_refl)]; lia.
Qed.

Lemma magic_u32_correct_witness :
  (2 <= 7 < 2 ^ 32 /\ 0 <= 4294967295 < 2 ^ 32) /\ magic_u32 7 = MagicU 613566757 true 3 /\
  4294967295 * (613566757 + 2 ^ 32) / 2 ^ 35 = 4294967295 / 7.
Proof.
  split; [lia|]. split; [vm_compute; reflexivity|].
  pose proof (magic_u32_correct 7 4294967295 ltac:(lia) ltac:(lia)) as (_ & _ & H). exact H.
Defined.

(** The signed magic numbers divide: for every 32-bit divisor other than 0, 1
    and -1 there is a multiplier below [2^32] of which the number returned is the
    signed reading (negated for a negative divisor), such that the product's high
    part, shifted, plus one where it is negative, is the truncated quotient. *)
Theorem magic_s32_correct (d x : Z) :
  - 2 ^ 31 <= d < 2 ^ 31 -> 2 <= Z.abs d -> - 2 ^ 31 <= x < 2 ^ 31 ->
  let r := magic_s32 d in
  exists M, 0 < M < 2 ^ 32 /\ 0 <= ms_s r <= 31 /\ ms_m r = (if d <? 0 then - s32 M else s32 M) /\
    let q := x * (if d <? 0 then - M else M) / 2 ^ (32 + ms_s r) in
    q + (if q <? 0 then 1 else 0) = Z.quot x d.
Proof.
  intros Hd Ha Hx r. destruct (magic_s32_divides d r Hd Ha eq_refl) as (M & HM & Hs & Em & Hq).
  exists M. split; [done|]. split; [done|]. split; [done|]. by apply Hq.
Qed.

Lemma magic_s32_correct_witness : magic_s32 (-7) = MagicS 1840700269 2 /\
  exists M, ms_m (magic_s32 (-7)) = - s32 M /\
    let q := -100 * - M / 2 ^ 34 in q + (if q <? 0 then 1 else 0) = 14.
Proof.
  split; [vm_compute; reflexivity|].
  destruct (magic_s32_correct (-7) (-100) ltac:(lia) ltac:(lia) ltac:(lia)) as (M & _ & _ & E & H).
  exists M. split; [exact E | exact H].
Defined.

(** C27: where the search for a small dividend's multiplier succeeds, the product
    of every dividend up to the bound stays in 32 bits and the shift -- which
    may be as large as 32 -- leaves the quotient. *)
Theorem dm_narrow_magic_correct (D B M sh x : Z) :
  1 <= D < 2 ^ 32 -> 0 <= B < 2 ^ 16 -> dm_narrow_magic D B = Some (M, sh) -> 0 <= x <= B ->
  0 <= sh <= 32 /\ 0 < M /\ 0 <= x * M < 2 ^ 32 /\ x * M / 2 ^ sh = x / D.
Proof. apply dm_narrow_divides. Qed.

Lemma dm_narrow_magic_correct_witness :
  dm_narrow_magic 10 65535 = Some (52429, 19) /\ 65535 * 52429 / 2 ^ 19 = 65535 / 10.
Proof.
  assert (E : dm_narrow_magic 10 65535 = Some (52429, 19)) by (vm_compute; reflexivity).
  split; [exact E|].
  pose proof (dm_narrow_magic_correct 10 65535 52429 19 65535 ltac:(lia) ltac:(lia) E ltac:(lia))
    as (_ & _ & _ & H). exact H.
Defined.
