(* ===== verification/Emit.v ===== *)
(** * Building instructions into a buffer

    [struct ibuf], [ib_push] and the emitters [dm_const] and [dm_op] of
    [src/src/opt/divmagic.c]: a pass that expands an instruction pushes onto the
    buffer and takes fresh temporaries from [fn->nvregs]. The state is the buffer
    and that counter; emitters compose in a state monad. [emits] is the
    weakest-precondition of an emitter: run from an environment, the instructions
    it pushes fall through to an environment that agrees below the fresh
    temporaries and satisfies a postcondition. *)
From stdpp Require Import base numbers list option.
From Stdlib Require Import ZArith Lia.
From S2P Require Import Prelude Ir Util IrSem Simulate.

Local Open Scope Z_scope.

Definition emit_st : Type := list ir_ins * Z.
Definition emit (A : Type) : Type := emit_st -> A * emit_st.

Definition ret {A} (a : A) : emit A := fun s => (a, s).
Definition bind {A B} (m : emit A) (k : A -> emit B) : emit B :=
  fun s => let '(a, s) := m s in k a s.

Declare Scope emit_scope.
Delimit Scope emit_scope with emit.
Notation "'let*' x ':=' m 'in' k" := (bind m (fun x => k))
  (at level 10, x name, m at level 100, k at level 200) : emit_scope.
Open Scope emit_scope.

(** [ib_push] and the assignments to the instruction it returns. *)
Definition ib_push (i : ir_ins) : emit unit := fun '(buf, nv) => (tt, (buf ++ [i], nv)).
(** [fn->nvregs++] *)
Definition new_vreg : emit Z := fun '(buf, nv) => (nv, (buf, nv + 1)).

Definition dm_const (v w : Z) (src : ir_ins) : emit Z :=
  let* t := new_vreg in
  let* _ := ib_push (set_loc (at_loc src 1)
              (set_imm v (set_w w (set_dst t (set_op IR_CONST ins_blank))))) in
  ret t.

Definition dm_op (o : ir_op) (a b w : Z) (sg : bool) (size : Z) (src : ir_ins) : emit Z :=
  let* t := new_vreg in
  let* _ := ib_push (set_loc (at_loc src 1)
              (set_size size (set_sign sg (set_w w
                (set_b b (set_a a (set_dst t (set_op o ins_blank)))))))) in
  ret t.

(** ** What emitted code computes *)

Section Emits.
Context {M : Machine}.

Definition runs (code : list ir_ins) (e e' : env) : Prop :=
  forall fn w, exec_list fn code e w = Fall e' w.

Lemma runs_app a b e1 e2 e3 : runs a e1 e2 -> runs b e2 e3 -> runs (a ++ b) e1 e3.
Proof. intros A B fn w. rewrite exec_list_app, A. apply B. Qed.

Definition emits {A} (m : emit A) (nv : Z) (e : env) (Q : A -> Z -> env -> Prop) : Prop :=
  exists a code nv' e',
    (forall buf, m (buf, nv) = (a, (buf ++ code, nv'))) /\ nv <= nv' /\
    runs code e e' /\ (forall v, v < nv -> e' v = e v) /\
    Forall (fun j => i_op j <> IR_LABEL) code /\ Q a nv' e'.

Lemma emits_ret {A} (a : A) nv e (Q : A -> Z -> env -> Prop) : Q a nv e -> emits (ret a) nv e Q.
Proof.
  intros H. exists a, [], nv, e. split_and!; try done.
  intros buf. by rewrite app_nil_r.
Qed.

Lemma emits_bind {A B} (m : emit A) (k : A -> emit B) nv e Q :
  emits m nv e (fun a nv' e' => emits (k a) nv' e' Q) -> emits (bind m k) nv e Q.
Proof.
  intros (a & code & nv' & e' & Hm & Hn & Hr & Hf & Hl & b & code' & nv'' & e'' & Hm' & Hn' & Hr' & Hf' & Hl' & HQ).
  exists b, (code ++ code'), nv'', e''. split_and!.
  - intros buf. unfold bind. rewrite Hm, Hm'. by rewrite (assoc (++)).
  - lia.
  - by eapply runs_app.
  - intros v Hv. rewrite Hf' by lia. auto.
  - by apply Forall_app.
  - done.
Qed.

Lemma emits_mono {A} (m : emit A) nv e (Q Q' : A -> Z -> env -> Prop) :
  (forall a nv' e', nv <= nv' -> (forall v, v < nv -> e' v = e v) -> Q a nv' e' -> Q' a nv' e') ->
  emits m nv e Q -> emits m nv e Q'.
Proof.
  intros H (a & code & nv' & e' & Hm & Hn & Hr & Hf & Hl & HQ).
  exists a, code, nv', e'. split_and!; auto.
Qed.

(** One pure instruction into a fresh temporary. *)
Lemma emits_fresh (mk : Z -> ir_ins) nv e vals v (Q : Z -> Z -> env -> Prop) :
  i_dst (mk nv) = nv -> computes (mk nv) = true -> 0 <= nv ->
  mapM e (reads (mk nv)) = Some vals -> eval (mk nv) vals = Some v ->
  (forall e', (forall u, u < nv -> e' u = e u) -> e' nv = Some v -> Q nv (nv + 1) e') ->
  emits (let* t := new_vreg in let* _ := ib_push (mk t) in ret t) nv e Q.
Proof.
  intros Hd Hc Hn Hr He HQ.
  exists nv, [mk nv], (nv + 1), (write e nv v). split_and!.
  - done.
  - lia.
  - intros fn w. simpl. unfold exec1. by rewrite Hr, Hc, He, Hd.
  - intros u Hu. apply write_other. lia.
  - repeat constructor. unfold computes, op_is in Hc. intros E. by rewrite E in Hc.
  - apply HQ; [intros u Hu; apply write_other; lia | by apply write_same].
Qed.

Lemma emits_const v w src nv e Q :
  0 <= nv -> word_ok w = true ->
  (forall e', (forall u, u < nv -> e' u = e u) -> e' nv = Some (normw w v) -> Q nv (nv + 1) e') ->
  emits (dm_const v w src) nv e Q.
Proof.
  intros Hn Hw HQ.
  apply (emits_fresh (fun t => set_loc (at_loc src 1)
    (set_imm v (set_w w (set_dst t (set_op IR_CONST ins_blank))))) nv e [] (normw w v)); try done.
  unfold eval. simpl. by rewrite Hw.
Qed.

(** The operations the expansions use: the binary ones that cannot trap. *)
Definition emit_bin (o : ir_op) : bool :=
  match o with
  | IR_ADD | IR_SUB | IR_MUL | IR_AND | IR_OR | IR_XOR | IR_SHL | IR_SHR | IR_MULH | IR_MULW => true
  | _ => false
  end.

Lemma emits_op o a b w sg size src nv e x y z Q :
  0 <= nv -> word_ok w = true -> emit_bin o = true ->
  e a = Some x -> e b = Some y -> bin_val o w sg B_ADD x y = Some z ->
  (forall e', (forall u, u < nv -> e' u = e u) -> e' nv = Some (normw w z) -> Q nv (nv + 1) e') ->
  emits (dm_op o a b w sg size src) nv e Q.
Proof.
  intros Hn Hw Ho Ha Hb Hz HQ.
  apply (emits_fresh (fun t => set_loc (at_loc src 1)
    (set_size size (set_sign sg (set_w w (set_b b (set_a a (set_dst t (set_op o ins_blank))))))))
    nv e [x; y] (normw w z)); try done.
  - by destruct o.
  - rewrite reads_eq. unfold reads_spec. simpl.
    destruct o; try done; simpl; by rewrite Ha, Hb.
  - unfold eval. destruct o; try done; cbn [i_op i_flt i_w i_sign i_pred set_loc set_size set_sign set_w
      set_b set_a set_dst set_op ins_blank negb andb is_bin]; rewrite Hw; by rewrite Hz.
Qed.

Lemma emits_ext a w sg size src nv e x Q :
  0 <= nv -> word_ok w = true -> size_ok size = true -> e a = Some x ->
  (forall e', (forall u, u < nv -> e' u = e u) -> e' nv = Some (ext_val size sg w x) -> Q nv (nv + 1) e') ->
  emits (dm_op IR_EXT a (-1) w sg size src) nv e Q.
Proof.
  intros Hn Hw Hs Ha HQ.
  apply (emits_fresh (fun t => set_loc (at_loc src 1)
    (set_size size (set_sign sg (set_w w (set_b (-1) (set_a a (set_dst t (set_op IR_EXT ins_blank))))))))
    nv e [x] (ext_val size sg w x)); try done.
  - rewrite reads_eq. unfold reads_spec. simpl. by rewrite Ha.
  - unfold eval. simpl. by rewrite Hw, Hs.
Qed.
End Emits.

(** One step of an emitter: run it, and carry what is known of the operands over
    to the new environment. *)
Ltac carry F :=
  repeat match type of F with
    forall u, u < _ -> ?e' u = ?e u =>
      match goal with H : e ?v = Some _ |- _ => rewrite <- (F v ltac:(lia)) in H end
  end; clear F.
Ltac emit_const_step t :=
  apply emits_bind, emits_const; [lia | done |];
  let F := fresh "F" in let V := fresh "V" in
  intros t F V; carry F.
