(* ===== verification/Expand.v ===== *)
(** * Passes that expand instructions one at a time

    [pass_divmagic], [pass_mulwiden], [pass_divtest] and [pass_divmod] of
    [src/src/opt/divmagic.c] walk the instructions, push one or several in the place
    of each, and renumber the variables' scopes. Here is that loop, and what all
    of them rest on: the code each one pushed, the agreement of the two
    environments below the fresh temporaries, and that a temporary with one
    definition holds what that definition computed ([origin]). *)
From stdpp Require Import base numbers list option.
From Stdlib Require Import ZArith Lia FunctionalExtensionality.
From S2P Require Import Prelude Ir Util IrSem Simulate Emit.

Local Open Scope Z_scope.

(** The loop, with where each instruction's code starts ([newpos]). *)
Fixpoint expand_loop (f : nat -> ir_ins -> emit unit) (n : nat) (l : list ir_ins) (s : emit_st)
  : list Z * emit_st :=
  match l with
  | [] => ([Z.of_nat (length s.1)], s)
  | i :: l =>
      let '(_, s') := f n i s in
      let '(pos, s'') := expand_loop f (S n) l s' in
      (Z.of_nat (length s.1) :: pos, s'')
  end.

(** Run it, and put the buffer in the function's place. [nv] is [fn->nvregs] when
    the loop starts. *)
Definition expand (f : nat -> ir_ins -> emit unit) (nv : Z) (fn : ir_func) : ir_func :=
  let '(newpos, (buf, nv')) := expand_loop f 0 (ins fn) ([], nv) in
  set_scope (remap_scopes (fun n => newpos !!! Z.to_nat n) (nins fn) (var_scope fn))
    (set_nvregs nv' (set_ins buf fn)).

(** ** What an emitter pushed *)

(** An emitter only appends to the buffer, by what does not depend on it, only
    takes fresh temporaries, and pushes no label but the instruction's own. *)
Definition tame {A} (i0 : ir_ins) (m : emit A) : Prop :=
  forall buf nv, let '(a, (code, nv')) := m ([], nv) in
    m (buf, nv) = (a, (buf ++ code, nv')) /\ nv <= nv' /\
    Forall (fun j => j = i0 \/ i_op j <> IR_LABEL) code.

Section Tame.
Context (i0 : ir_ins).

Lemma tame_ret {A} (a : A) : tame i0 (ret a).
Proof. intros buf nv. simpl. rewrite app_nil_r. split_and!; [done | lia | constructor]. Qed.
Lemma tame_push i : i_op i <> IR_LABEL -> tame i0 (ib_push i).
Proof. intros H buf nv. simpl. split_and!; [done | lia |]. constructor; [by right | constructor]. Qed.
Lemma tame_same : tame i0 (ib_push i0).
Proof. intros buf nv. simpl. split_and!; [done | lia |]. constructor; [by left | constructor]. Qed.
Lemma tame_new : tame i0 new_vreg.
Proof. intros buf nv. simpl. rewrite app_nil_r. split_and!; [done | lia | constructor]. Qed.
Lemma tame_bind {A B} (m : emit A) (k : A -> emit B) :
  tame i0 m -> (forall a, tame i0 (k a)) -> tame i0 (bind m k).
Proof.
  intros Hm Hk buf nv. unfold bind. specialize (Hm buf nv).
  destruct (m ([], nv)) as [a [code nv']]. destruct Hm as (-> & Hn & Hl).
  pose proof (Hk a code nv') as H1. pose proof (Hk a (buf ++ code) nv') as H2.
  destruct (k a ([], nv')) as [b [code' nv'']]. destruct H1 as (-> & H1 & H1l), H2 as (-> & _).
  split_and!; [by rewrite (assoc (++)) | lia | by apply Forall_app].
Qed.
Lemma tame_const v w src : tame i0 (dm_const v w src).
Proof.
  apply tame_bind; [apply tame_new|]. intros t.
  apply tame_bind; [by apply tame_push | intros; apply tame_ret].
Qed.
Lemma tame_op o a b w sg size src : o <> IR_LABEL -> tame i0 (dm_op o a b w sg size src).
Proof.
  intros H. apply tame_bind; [apply tame_new|]. intros t.
  apply tame_bind; [by apply tame_push | intros; apply tame_ret].
Qed.
End Tame.

Create HintDb tame.
#[export] Hint Resolve tame_ret tame_same tame_new tame_const : tame.

(** By the emitter's text: its binds, its branches, its pushes. *)
Ltac tame_tac :=
  repeat first
    [ solve [auto with tame]
    | solve [apply tame_op; discriminate]
    | solve [apply tame_push; (discriminate || done)]
    | match goal with
      | |- tame _ (bind _ _) => apply tame_bind; [|intros ?]
      | |- tame _ (if ?b then _ else _) => destruct b
      | |- tame _ (match ?x with _ => _ end) => destruct x
      | |- tame _ (let _ := _ in _) => cbv zeta
      end ].

Definition code_of (m : emit unit) (nv : Z) : list ir_ins := (m ([], nv)).2.1.

Fixpoint blocks (f : nat -> ir_ins -> emit unit) (n : nat) (l : list ir_ins) (nv : Z)
  : list (list ir_ins) :=
  match l with
  | [] => []
  | i :: l => code_of (f n i) nv :: blocks f (S n) l (f n i ([], nv)).2.2
  end.

Section Loop.
Context (f : nat -> ir_ins -> emit unit) (Hf : forall n i, tame i (f n i)).

Lemma expand_loop_blocks n l buf nv :
  exists nv', (expand_loop f n l (buf, nv)).2 = (buf ++ concat (blocks f n l nv), nv') /\ nv <= nv'.
Proof using Hf.
  revert n buf nv. induction l as [|i l IH]; intros n buf nv; simpl.
  - exists nv. rewrite app_nil_r. split; [done | lia].
  - pose proof (Hf n i buf nv) as H. unfold code_of.
    destruct (f n i ([], nv)) as [[] [code nv1]]. destruct H as (-> & H & _). simpl.
    destruct (IH (S n) (buf ++ code) nv1) as (nv' & E & L).
    destruct (expand_loop f (S n) l _) as [pos s'']. simpl in *. exists nv'.
    rewrite E, (assoc (++)). split; [done | lia].
Qed.

Lemma blocks_lookup n l nv j blk : blocks f n l nv !! j = Some blk ->
  exists i nv', l !! j = Some i /\ nv <= nv' /\ blk = code_of (f (n + j) i) nv'.
Proof using Hf.
  revert n nv j. induction l as [|i l IH]; intros n nv j E; simpl in E; [done|].
  destruct j as [|j]; simpl in E.
  - simplify_eq. exists i, nv. rewrite Nat.add_0_r. split_and!; [done | lia | done].
  - destruct (IH _ _ _ E) as (i' & nv' & L & H & ->). exists i', nv'.
    pose proof (Hf n i [] nv) as T. destruct (f n i ([], nv)) as [[] [code nv1]]. destruct T as (_ & T & _).
    simpl in H. split_and!; [done | lia |]. f_equal. f_equal. lia.
Qed.

Lemma blocks_labels n l nv :
  (forall j i, l !! j = Some i -> i_op i = IR_LABEL -> f (n + j)%nat i = ib_push i) ->
  Forall2 label_ok l (blocks f n l nv).
Proof using Hf.
  revert n nv. induction l as [|i l IH]; intros n nv H; simpl; constructor.
  - unfold label_ok, op_is. case_bool_decide as O.
    + pose proof (H 0%nat i eq_refl) as E. rewrite Nat.add_0_r in E. unfold code_of. rewrite E by done.
      simpl. eauto.
    + pose proof (Hf n i [] nv) as T. unfold code_of. destruct (f n i ([], nv)) as [[] [code nv1]].
      destruct T as (_ & _ & T). simpl. revert T. apply Forall_impl. by intros j [->|].
  - apply IH. intros j i' L O. replace (S n + j)%nat with (n + S j)%nat by lia. by apply H.
Qed.
End Loop.

(** ** The last instruction of an expansion *)

Section Finish.
Context {M : Machine}.

(** The code leaves [v] in [t], and whatever else is below [nv] as it was. *)
Definition finishes (m : emit unit) (nv : Z) (e : env) (t v : Z) : Prop :=
  exists code nv' e', (forall buf, m (buf, nv) = (tt, (buf ++ code, nv'))) /\
    runs code e e' /\ (forall u, u < nv -> e' u = write e t v u) /\
    Forall (fun j => i_op j <> IR_LABEL) code.

Lemma finishes_bind {A} (m : emit A) (k : A -> emit unit) nv e t v :
  emits m nv e (fun a nv' e' => finishes (k a) nv' e' t v) -> finishes (bind m k) nv e t v.
Proof.
  intros (a & code & nv' & e' & Hm & Hn & Hr & Hf & Hl & code' & nv'' & e'' & Hm' & Hr' & Hf' & Hl').
  exists (code ++ code'), nv'', e''. split_and!.
  - intros buf. unfold bind. rewrite Hm, Hm'. by rewrite (assoc (++)).
  - by eapply runs_app.
  - intros u Hu. rewrite Hf' by lia. apply write_eq; intros; apply Hf; lia.
  - by apply Forall_app.
Qed.

Lemma finishes_push i nv e t v vals :
  i_dst i = t -> computes i = true -> mapM e (reads i) = Some vals -> eval i vals = Some v ->
  finishes (ib_push i) nv e t v.
Proof.
  intros Hd Hc Hr He. exists [i], nv, (write e t v). split_and!; try done.
  - intros fn w. simpl. unfold exec1. by rewrite Hr, Hc, He, Hd.
  - repeat constructor. unfold computes, op_is in Hc. intros E. by rewrite E in Hc.
Qed.

Lemma finishes_code m nv e t v : finishes m nv e t v ->
  exists e', runs (code_of m nv) e e' /\ (forall u, u < nv -> e' u = write e t v u) /\
    Forall (fun j => i_op j <> IR_LABEL) (code_of m nv).
Proof. intros (code & nv' & e' & Hm & H). exists e'. unfold code_of. rewrite (Hm []). simpl. exact H. Qed.
End Finish.

(** ** Agreement below the fresh temporaries, and single definitions *)

Section Agree.
Context {M : Machine} (fn : ir_func) (Hwf : wf_func fn).
Context (Hesc : forall s, esc s = true -> 0 <= s < nvars fn).

Definition agree (es et : env) : Prop := forall v, v < nvregs fn -> es v = et v.

(** What a temporary's definition leaves in it. *)
Definition result_of (i : ir_ins) (vals : list Z) (x : Z) : Prop :=
  if computes i then eval i vals = Some x
  else exists sl w v2 sl' w', ext (shape i) vals sl w = XRet x v2 sl' w'.

(** A temporary defined once by an integer constant holds it. *)
Definition consts_ok (e : env) : Prop := forall v n d x,
  v < nvregs fn -> single_def fn v n -> ins_at fn n = Some d -> i_op d = IR_CONST ->
  i_flt d = false -> word_ok (i_w d) = true -> e v = Some x -> x = normw (i_w d) (i_imm d).

(** A temporary defined once holds what its definition left, from operands of
    which the same holds. *)
Definition origin (e : env) : Prop := forall v n d x,
  v < nvregs fn -> single_def fn v n -> ins_at fn n = Some d -> writes_temp (i_op d) = true ->
  e v = Some x ->
  exists e0 vals, consts_ok e0 /\ mapM e0 (reads d) = Some vals /\ result_of d vals x.

Definition known (e : env) : Prop := consts_ok e /\ origin e.

(** *** Agreement *)

Lemma agree_write es et t v : agree es et -> agree (write es t v) (write et t v).
Proof. intros H u Hu. apply write_eq; intros; by apply H. Qed.

Lemma agree_slots_in es et sl : agree es et -> agree (slots_in es sl) (slots_in et sl).
Proof. intros H v Hv. unfold slots_in. destruct (esc v); [done | by apply H]. Qed.

Lemma agree_slots_out es et : agree es et -> slots_out es = slots_out et.
Proof using Hwf Hesc.
  intros H. apply functional_extensionality. intros s. unfold slots_out.
  destruct (esc s) eqn:E; [|done]. pose proof (Hesc s E). destruct Hwf. by rewrite (H s) by lia.
Qed.

Lemma agree_reads n i es et : ins fn !! n = Some i -> agree es et ->
  mapM es (reads i) = mapM et (reads i).
Proof using Hwf.
  intros I H. apply mapM_ext_in. intros r Hr. apply H.
  destruct Hwf as [_ F]. pose proof (Forall_lookup_1 _ _ _ _ F I) as [W _].
  apply list_elem_of_lookup in Hr as [j Hr]. exact (Forall_lookup_1 _ _ _ _ W Hr).
Qed.

(** What holds of the environment a flow goes on with. *)
Definition on_flow (P : env -> Prop) (f : flow) : Prop :=
  match f with Fall e _ | Goto _ e _ => P e | _ => True end.

(** Two flows that do the same, up to agreement. *)
Definition flow_agree (f f' : flow) : Prop :=
  match f with
  | Fall es w => exists et, f' = Fall et w /\ agree es et
  | Goto l es w => exists et, f' = Goto l et w /\ agree es et
  | Stop o w => f' = Stop o w
  | Bad => True
  end.

Lemma agree_ext i vals es et w :
  agree es et -> flow_agree (exec_ext fn i vals es w) (exec_ext fn i vals et w).
Proof using Hwf Hesc.
  intros H. unfold exec_ext. rewrite (agree_slots_out _ _ H).
  destruct (ext (shape i) vals (slots_out et) w) as [v1 v2 sl w'|sl w'|w']; simpl; [| |done].
  - eexists. split; [done|]. unfold write_ext.
    destruct (op_is _ _); repeat apply agree_write; by apply agree_slots_in.
  - destruct (eh fn !! _); [|done]. destruct (_ <=? 0); [done|]. simpl. eexists. split; [done|].
    by apply agree_slots_in.
Qed.

Lemma agree_exec1 n i es et w : ins fn !! n = Some i -> agree es et ->
  flow_agree (exec1 fn i es w) (exec1 fn i et w).
Proof using Hwf Hesc.
  intros I H. unfold exec1. rewrite (agree_reads n i es et I H).
  destruct (mapM et (reads i)) as [vals|]; [|done].
  destruct (computes i).
  - destruct (eval i vals); simpl; [|done]. eexists. split; [done | by apply agree_write].
  - pose proof (agree_ext i vals es et w H) as HX.
    destruct (i_op i); try exact HX; simpl; eauto;
      destruct vals as [|x [|]]; try exact HX; try (case_match; simpl; by eauto).
    + destruct (i_vol i); [exact HX|]. simpl. eexists. split; [done | by apply agree_write].
    + simpl. eauto.
Qed.

(** *** Single definitions *)

Lemma single_target v n d : single_def fn v n -> ins_at fn n = Some d -> writes_temp (i_op d) = true ->
  v = i_dst d /\ 0 <= v /\ nvars fn <= v.
Proof using Hwf.
  intros (Hn & (d' & I & Hv) & _) I' W. rewrite I' in I. simplify_eq.
  unfold def_list, def_target, op_is in Hv. rewrite ins_at_lookup in I' by done.
  destruct Hwf as [_ F]. pose proof (Forall_lookup_1 _ _ _ _ F I') as [_ D].
  destruct (bool_decide_reflect (i_op d' = IR_LANDING)) as [L|]; [by rewrite L in W|].
  destruct (bool_decide_reflect (i_op d' = IR_STVAR)) as [L|]; [by rewrite L in W|].
  rewrite W in Hv. destruct (Z.ltb_spec (i_dst d') 0); [by apply elem_of_nil in Hv|].
  apply list_elem_of_singleton in Hv as ->. destruct D as [|[|]]; try congruence; lia.
Qed.

Lemma known_other e e' :
  known e -> (forall v, v < nvregs fn -> 0 <= v -> nvars fn <= v -> e' v = e v \/
     forall n d, single_def fn v n -> ins_at fn n = Some d -> writes_temp (i_op d) = true -> False) ->
  known e'.
Proof using Hwf.
  intros [HC HO] H. split.
  - intros v n d x Hb Hs I O Fl W E. assert (Wt : writes_temp (i_op d) = true) by (by rewrite O).
    destruct (single_target _ _ _ Hs I Wt) as (_ & H0 & Hv).
    destruct (H v Hb H0 Hv) as [Hw|Hw]; [|by destruct (Hw n d)].
    rewrite Hw in E. by eapply HC.
  - intros v n d x Hb Hs I W E. destruct (single_target _ _ _ Hs I W) as (_ & H0 & Hv).
    destruct (H v Hb H0 Hv) as [Hw|Hw]; [|by destruct (Hw n d)].
    rewrite Hw in E. by eapply HO.
Qed.

Lemma known_slots e sl : known e -> known (slots_in e sl).
Proof using Hwf Hesc.
  intros H. eapply known_other; [done|]. intros v _ _ Hv. left. unfold slots_in.
  destruct (esc v) eqn:E; [|done]. pose proof (Hesc v E). lia.
Qed.

Lemma single_unique v n d m i : single_def fn v n -> ins_at fn n = Some d ->
  ins_at fn m = Some i -> v ∈ def_list (nvregs fn) i -> i = d.
Proof. intros (_ & _ & U) I J Hv. pose proof (U m i J Hv). subst. congruence. Qed.

(** A write of something that is not a temporary's definition. *)
Lemma known_clobber n i e t v : ins_at fn n = Some i -> writes_temp (i_op i) = false ->
  (0 <= t < nvregs fn -> t ∈ def_list (nvregs fn) i) -> known e -> known (write e t v).
Proof using Hwf.
  intros I W Ht H. eapply known_other; [done|]. intros u Hb H0 _.
  destruct (decide (u = t)) as [->|]; [|left; by apply write_other]. right.
  intros m d Hs Id Wd. rewrite <- (single_unique _ _ _ _ _ Hs Id I (Ht ltac:(lia))) in Wd. congruence.
Qed.

Lemma target_listed i : 0 <= def_target i -> def_target i ∈ def_list (nvregs fn) i.
Proof.
  intros H. unfold def_list. destruct (op_is (i_op i) IR_LANDING) eqn:O.
  - unfold op_is in O. apply bool_decide_eq_true in O. unfold def_target, op_is in H. rewrite O in H.
    simpl in H. lia.
  - destruct (Z.ltb_spec (def_target i) 0); [lia | by apply list_elem_of_singleton].
Qed.

(** The write of a temporary's definition. *)
Lemma known_define n i e e1 vals x : ins_at fn n = Some i -> writes_temp (i_op i) = true ->
  known e1 -> known e -> mapM e1 (reads i) = Some vals -> result_of i vals x ->
  known (write e (i_dst i) x).
Proof using Hwf.
  intros I W [HC1 _] [HC HO] V HR.
  assert (T : def_target i = i_dst i).
  { unfold def_target, op_is. rewrite W. by destruct (bool_decide (i_op i = IR_STVAR)). }
  assert (Q : forall v m d y, single_def fn v m -> ins_at fn m = Some d ->
    writes_temp (i_op d) = true -> write e (i_dst i) x v = Some y -> e v = Some y \/ (d = i /\ y = x)).
  { intros v m d y Hs Id Wd E. destruct (decide (v = i_dst i)) as [->|].
    - destruct (single_target _ _ _ Hs Id Wd) as (_ & H0 & _). right.
      rewrite write_same in E by done. injection E as <-. split; [|done]. symmetry.
      eapply single_unique; [done | done | exact I|]. rewrite <- T. apply target_listed. lia.
    - left. by rewrite write_other in E. }
  split.
  - intros v m d y Hb Hs Id O Fl Wk E. destruct (Q v m d y Hs Id) as [E'|[-> ->]]; try done.
    { by rewrite O. } { by eapply HC. }
    rewrite reads_eq in V. unfold reads_spec in V. rewrite O in V. injection V as <-.
    unfold result_of, computes, op_is in HR. rewrite O in HR. simpl in HR.
    unfold eval in HR. rewrite O, Fl, Wk in HR. simpl in HR. congruence.
  - intros v m d y Hb Hs Id Wd E. destruct (Q v m d y Hs Id) as [E'|[-> ->]]; try done; [by eapply HO|].
    eauto.
Qed.

Lemma computes_writes i : computes i = true -> writes_temp (i_op i) = true.
Proof. unfold computes, op_is. by destruct (i_op i). Qed.

Lemma known_ext n i es w vals : ins_at fn n = Some i -> computes i = false ->
  mapM es (reads i) = Some vals -> known es -> on_flow known (exec_ext fn i vals es w).
Proof using Hwf Hesc.
  intros I C V H. unfold exec_ext.
  destruct (ext (shape i) vals (slots_out es) w) as [v1 v2 sl w'|sl w'|w'] eqn:X; simpl; [| |done].
  2: { destruct (eh fn !! _); [|done]. destruct (_ <=? 0); [done|]. by apply known_slots. }
  unfold write_ext, op_is. case_bool_decide as L.
  - assert (D : forall t, t = i_dst i \/ t = i_b i -> 0 <= t < nvregs fn -> t ∈ def_list (nvregs fn) i).
    { intros t Ht Hb. unfold def_list, op_is. rewrite bool_decide_true by done.
      apply list_elem_of_filter. split; [done|]. apply list_elem_of_In. simpl. destruct Ht; auto. }
    do 2 (eapply known_clobber; [done | by rewrite L | by eauto |]). by apply known_slots.
  - destruct (writes_temp (i_op i)) eqn:W.
    + assert (T : def_target i = i_dst i).
      { unfold def_target, op_is. rewrite W. by destruct (bool_decide (i_op i = IR_STVAR)). }
      rewrite T. eapply known_define; [done | done | exact H | by apply known_slots | exact V|].
      unfold result_of. rewrite C. by exists (slots_out es), w, v2, sl, w'.
    + eapply known_clobber; [done | done | | by apply known_slots]. intros. apply target_listed. lia.
Qed.

Lemma known_exec1 n i es w : ins fn !! n = Some i -> known es -> on_flow known (exec1 fn i es w).
Proof using Hwf Hesc.
  intros I H.
  assert (I' : ins_at fn (Z.of_nat n) = Some i) by (rewrite ins_at_lookup, Nat2Z.id by lia; done).
  unfold exec1. destruct (mapM es (reads i)) as [vals|] eqn:V; [|done].
  destruct (computes i) eqn:C.
  - destruct (eval i vals) as [v|] eqn:E; [|done]. simpl.
    eapply known_define; [done | by apply computes_writes | exact H | exact H | exact V|].
    unfold result_of. by rewrite C.
  - pose proof (known_ext _ i es w vals I' C V H) as HX.
    destruct (i_op i) eqn:O; try exact HX; simpl; try done;
      destruct vals as [|x [|]]; try exact HX; try (case_match; simpl; done).
    + destruct (i_vol i); [exact HX|]. simpl. eapply known_clobber; [done | by rewrite O | | done].
      assert (T : def_target i = i_dst i) by (unfold def_target, op_is; by rewrite O).
      rewrite <- T. intros. apply target_listed. lia.
    + done.
Qed.

Lemma known_entry e : (forall v, nvars fn <= v -> e v = None) -> known e.
Proof using Hwf.
  intros H. split.
  - intros v n d x Hb Hs I O _ _ E. destruct (single_target _ _ _ Hs I) as (_ & _ & Hv); [by rewrite O|].
    by rewrite H in E.
  - intros v n d x Hb Hs I W E. destruct (single_target _ _ _ Hs I W) as (_ & _ & Hv). by rewrite H in E.
Qed.

(** *** A constant second operand *)

(** The operations whose second operand may be an immediate. *)
Definition bin_imm (op : ir_op) : bool :=
  is_bin op && negb (op_is op IR_MULH) && negb (op_is op IR_MULW).

(** The constant that [const_b] finds behind an operand is an integer one. *)
Definition const_typed (i : ir_ins) : bool :=
  i_imm_b i ||
  match ins_at fn (d_ins (compute_defs fn) (i_b i)) with
  | Some c => negb (op_is (i_op c) IR_CONST) || negb (i_flt c) && word_ok (i_w c)
  | None => true
  end.

Definition const_value (D y : Z) : Prop := y = D \/ exists w, word_ok w = true /\ y = normw w D.

Lemma const_b_reads n i D es vals :
  consts_ok es -> ins fn !! n = Some i -> bin_imm (i_op i) = true -> i_flt i = false ->
  word_ok (i_w i) = true -> const_b fn (compute_defs fn) i = Some D -> const_typed i = true ->
  mapM es (reads i) = Some vals ->
  exists x y, es (i_a i) = Some x /\ const_value D y /\
    eval i vals = normw (i_w i) <$> bin_val (i_op i) (i_w i) (i_sign i) (i_pred i) x y.
Proof using Hwf.
  intros HC I O Fl W. unfold const_b, const_typed.
  assert (R : reads i = if i_imm_b i then [i_a i] else [i_a i; i_b i]).
  { rewrite reads_eq. unfold reads_spec. by destruct (i_op i). }
  rewrite R. destruct (i_imm_b i) eqn:IB; simpl.
  - intros [= <-] _ V. destruct (es (i_a i)) as [x|]; [|done]. simpl in V. injection V as <-.
    exists x, (i_imm i). split_and!; [done | by left|].
    unfold eval. rewrite IB, Fl, W. by destruct (i_op i).
  - destruct (_ || _ || _) eqn:B; [done|].
    destruct (ins_at fn (d_ins (compute_defs fn) (i_b i))) as [c|] eqn:C; [|done].
    unfold op_is. destruct (bool_decide_reflect (i_op c = IR_CONST)) as [Oc|]; [|done].
    simpl. intros [= <-] [Fc Wc]%andb_true_iff V. apply negb_true_iff in Fc.
    destruct (es (i_a i)) as [x|]; [|done]. simpl in V.
    destruct (es (i_b i)) as [y|] eqn:Y; [|done]. simpl in V. injection V as <-.
    exists x, y. split_and!; [done | |].
    + right. exists (i_w c). split; [done|].
      eapply HC; [| |exact C|done..]; [lia|].
      apply compute_defs_single; [by eapply ins_at_nonneg | lia | done].
    + unfold eval. rewrite Fl, W. by destruct (i_op i).
Qed.

(** ** The pass preserves the function *)

Section Preserve.
Context (f : nat -> ir_ins -> emit unit) (nv0 : Z) (K : nat -> env -> env -> Prop).
Context (Hf : forall n i, tame i (f n i)) (Hnv0 : nvregs fn <= nv0).
Context (Hlab : forall n i, i_op i = IR_LABEL -> f n i = ib_push i).
Context (HK0 : forall e : env, (forall v, nvars fn <= v -> e v = None) -> K 0 e e).
Context (Hblk : forall n i nv es et w, ins fn !! n = Some i -> nv0 <= nv -> known es ->
  agree es et -> K n es et ->
  flow_sim fn (fun n es et => agree es et /\ K n es et) n
    (exec1 fn i es w) (exec_list fn (code_of (f n i) nv) et w)).

Lemma expand_preserves : preserves fn (expand f nv0 fn).
Proof using All.
  destruct (expand_loop_blocks f Hf 0 (ins fn) [] nv0) as (nv' & E & _).
  unfold expand. destruct (expand_loop f 0 (ins fn) ([], nv0)) as [newpos [buf nv1]].
  simpl in E. injection E as -> ->.
  apply (blocks_preserve _ _ (blocks f 0 (ins fn) nv0)
           (fun n es et => known es /\ agree es et /\ K n es et)); try done.
  - apply blocks_labels; [done|]. intros. by apply Hlab.
  - intros n i blk es et w I B (HKn & HA & HK).
    destruct (blocks_lookup f Hf _ _ _ _ _ B) as (i' & nv & I2 & Hn & ->). simplify_eq.
    pose proof (Hblk n i nv es et w I Hn HKn HA HK) as S. pose proof (known_exec1 n i es w I HKn) as N.
    simpl in *. destruct (exec1 fn i es w); simpl in *; try done.
    + destruct S as (et' & -> & ?). eauto.
    + destruct S as (et' & -> & HR). eexists. split; [done|]. intros m Hm. split; [done | by apply HR].
  - intros e H1 H2. split; [by apply known_entry|]. split; [by intros v _ | by apply HK0].
Qed.
End Preserve.

(** The common case: an instruction is kept, or it computes a value and its
    expansion leaves the same value. *)
Lemma expand_values (f : nat -> ir_ins -> emit unit) nv0 :
  (forall n i, tame i (f n i)) -> nvregs fn <= nv0 ->
  (forall n i, i_op i = IR_LABEL -> f n i = ib_push i) ->
  (forall n i, ins fn !! n = Some i -> f n i = ib_push i \/
     computes i = true /\ forall nv es et vals, nv0 <= nv -> known es -> agree es et ->
       mapM es (reads i) = Some vals -> mapM et (reads i) = Some vals ->
       exists v, eval i vals = Some v /\ finishes (f n i) nv et (i_dst i) v) ->
  preserves fn (expand f nv0 fn).
Proof using Hwf Hesc.
  intros Hf Hn Hl H. apply (expand_preserves f nv0 (fun _ _ _ => True)); try done.
  intros n i nv es et w I Hv HK HA _. destruct (H n i I) as [E|[C Hfin]].
  - rewrite E. unfold code_of. simpl. pose proof (agree_exec1 n i es et w I HA) as S.
    destruct (exec1 fn i es w); simpl in *; try done.
    + destruct S as (et' & -> & ?). eauto.
    + destruct S as (et' & -> & ?). eauto.
    + by rewrite S.
  - unfold exec1. rewrite C. destruct (mapM es (reads i)) as [vals|] eqn:V; [|done].
    destruct (Hfin nv es et vals Hv HK HA V) as (v & Ev & Fin);
      [by rewrite <- (agree_reads n i es et I HA)|].
    rewrite Ev. simpl. destruct (finishes_code _ _ _ _ _ Fin) as (e' & R & Fr & _).
    exists e'. split; [apply R|]. split; [|done]. intros u Hu. rewrite Fr by lia.
    apply write_eq; intros; by apply HA.
Qed.
End Agree.
