(* ===== verification/KnownBits.v ===== *)
(** * Bits known to be zero: [known_zero] of [src/src/opt/fold.c]

    The folder drops a mask or an extension that clears only bits that are zero
    already. [known_zero] looks a few definitions up for them: every value the
    vreg can take has zeros where it says so. Here that is an invariant of the
    execution: it holds at every point of every run, of temporaries with one
    definition and of joins with several. *)
From stdpp Require Import base numbers list option.
From Stdlib Require Import ZArith Lia.
From S2P Require Import Prelude Ir Util IrSem Simulate Paths Cfg Emit Expand Fold.

Local Open Scope Z_scope.

(** ** The analysis *)

Section Zeros.
Context (fn : ir_func) (d : defs).
(* [d->first]: have the definition lists been built? *)
Context (lists : bool).

Definition kz_mask (w : Z) : Z := if w =? 8 then u64 (Z.lnot 0) else 0xffffffff.
Definition kz_hi (w : Z) : Z := u64 (Z.lnot (kz_mask w)).

(** [while (!(ub & 1)) { ub >>= 1; tz++; }], for a non-zero 64-bit [ub]. *)
Fixpoint kz_tz (fuel : nat) (ub tz : Z) : Z :=
  match fuel with
  | O => tz
  | S fuel => if Z.land ub 1 =? 0 then kz_tz fuel (Z.shiftr ub 1) (tz + 1) else tz
  end.

(** [known_zero_ins], [kz] the call of [known_zero] one definition up. *)
Definition known_zero_ins (kz : Z -> Z -> Z) (i : ir_ins) (w depth : Z) : Z :=
  let wm := kz_mask w in
  let hi := kz_hi w in
  if i_flt i || (i_w i =? 16) || (negb (i_w i =? w) && negb (op_is (i_op i) IR_EXT)) then hi
  else
    let kb := if i_imm_b i then Some (i_imm i) else get_const fn d (i_b i) in
    let small := match kb with
                 | Some B => if (B <? 0) || (8 * w <=? B) then None else Some B
                 | None => None
                 end in
    let other := match kb with
                 | Some B => Z.land (u64 (Z.lnot (Z.land (u64 B) wm))) wm
                 | None => kz (i_b i) (depth + 1)
                 end in
    match i_op i with
    | IR_CONST => Z.lor hi (Z.land (u64 (Z.lnot (u64 (i_imm i)))) wm)
    | IR_MOV => Z.lor hi (kz (i_a i) (depth + 1))
    | IR_SHL =>
        match small with
        | Some B => Z.lor (Z.lor hi (Z.land (u64 (Z.shiftl (kz (i_a i) (depth + 1)) B)) wm))
                          (u64 (Z.shiftl 1 B - 1))
        | None => hi
        end
    | IR_SHR =>
        match small with
        | Some B => if i_sign i then hi
                    else Z.lor (Z.lor hi (Z.shiftr (Z.land (kz (i_a i) (depth + 1)) wm) B))
                               (Z.land (u64 (Z.lnot (Z.shiftr wm B))) wm)
        | None => hi
        end
    | IR_AND => Z.lor (Z.lor hi (kz (i_a i) (depth + 1))) other
    | IR_OR | IR_XOR => Z.lor hi (Z.land (kz (i_a i) (depth + 1)) other)
    | IR_MUL =>
        match kb with
        | Some B => let ub := Z.land (u64 B) wm in
                    if ub =? 0 then hi else Z.lor hi (u64 (Z.shiftl 1 (kz_tz 64 ub 0) - 1))
        | None => hi
        end
    | IR_EXT | IR_LOAD =>
        if i_sign i || (i_size i <=? 0) || (w <=? i_size i) then hi
        else Z.lor hi (Z.land (u64 (Z.lnot (u64 (Z.shiftl 1 (8 * i_size i) - 1)))) wm)
    | _ => hi
    end.

(** A call goes one deeper than the call it came from and stops below depth 4, so
    [6 - depth] calls are enough. *)
Fixpoint known_zero (fuel : nat) (v w depth : Z) : Z :=
  match fuel with
  | O => kz_hi w
  | S fuel =>
      let ins_zero n depth :=
        match ins_at fn n with
        | Some i => known_zero_ins (fun v depth => known_zero fuel v w depth) i w depth
        | None => kz_hi w
        end in
      if (v <? 0) || (nvregs fn <=? v) || (4 <? depth) then kz_hi w
      else if 1 <? d_cnt d v then
        if negb lists || (v <? nvars fn) || (2 <? depth) then kz_hi w
        else
          let kz := foldl (fun kz n => Z.land kz (ins_zero n (depth + 1))) (u64 (Z.lnot 0)) (defs_lists fn v) in
          if Z.of_nat (length (defs_lists fn v)) =? d_cnt d v then Z.lor kz (kz_hi w) else kz_hi w
      else if negb (d_cnt d v =? 1) || (d_ins d v <? 0) then kz_hi w
      else ins_zero (d_ins d v) depth
  end.
End Zeros.

(** The fuel is enough: more of it changes nothing. *)
Lemma known_zero_ins_ext fn d kz kz' i w depth :
  (forall v, kz v (depth + 1) = kz' v (depth + 1)) ->
  known_zero_ins fn d kz i w depth = known_zero_ins fn d kz' i w depth.
Proof. intros H. unfold known_zero_ins. destruct (_ || _ || _); [done|]. by rewrite !H. Qed.

Lemma known_zero_fuel fn d lists fuel fuel' v w depth : 0 <= depth ->
  6 <= Z.of_nat fuel + depth -> 6 <= Z.of_nat fuel' + depth ->
  known_zero fn d lists fuel v w depth = known_zero fn d lists fuel' v w depth.
Proof.
  assert (Deep : forall fuel v depth, 4 < depth -> known_zero fn d lists fuel v w depth = kz_hi w).
  { intros [|f] v' dp Hd; [done|]. cbn [known_zero]. by rewrite (proj2 (Z.ltb_lt _ _) Hd), orb_true_r. }
  revert fuel' v depth. induction fuel as [|fuel IH]; intros fuel' v depth Hd Hf Hf'; [by rewrite !Deep by lia|].
  destruct fuel' as [|fuel']; [by rewrite !Deep by lia|]. cbn [known_zero]. cbv zeta.
  assert (E : forall n dp, depth <= dp ->
    match ins_at fn n with
    | Some i => known_zero_ins fn d (fun v depth => known_zero fn d lists fuel v w depth) i w dp | None => kz_hi w end =
    match ins_at fn n with
    | Some i => known_zero_ins fn d (fun v depth => known_zero fn d lists fuel' v w depth) i w dp | None => kz_hi w end).
  { intros n dp Hdp. destruct (ins_at fn n); [|done]. apply known_zero_ins_ext. intros u. apply IH; lia. }
  rewrite E by lia.
  assert (F : forall l z, foldl (fun kz n => Z.land kz match ins_at fn n with
    | Some i => known_zero_ins fn d (fun v depth => known_zero fn d lists fuel v w depth) i w (depth + 1) | None => kz_hi w end) z l =
    foldl (fun kz n => Z.land kz match ins_at fn n with
    | Some i => known_zero_ins fn d (fun v depth => known_zero fn d lists fuel' v w depth) i w (depth + 1) | None => kz_hi w end) z l).
  { induction l as [|n l IHl]; intros z; simpl; [done|]. rewrite E by lia. apply IHl. }
  by rewrite F.
Qed.

(** ** Bits *)

(** The bits of [m] below the width are zero in [x]. *)
Definition zeros (m w x : Z) : Prop :=
  forall j, 0 <= j < bits w -> Z.testbit m j = true -> Z.testbit x j = false.

Lemma testbit_u64 x j : 0 <= j < 64 -> Z.testbit (u64 x) j = Z.testbit x j.
Proof. intros Hj. unfold uwrap. by rewrite Z.mod_pow2_bits_low by lia. Qed.

Lemma mask_bit w j : w = 4 \/ w = 8 -> 0 <= j < bits w -> Z.testbit (kz_mask w) j = true.
Proof.
  unfold bits. intros [-> | ->] Hj; [change (kz_mask 4) with (Z.ones 32) | change (kz_mask 8) with (Z.ones 64)];
    apply Z.ones_spec_low; lia.
Qed.

Lemma hi_bit w j : w = 4 \/ w = 8 -> 0 <= j < bits w -> Z.testbit (kz_hi w) j = false.
Proof.
  intros Hw Hj. unfold kz_hi. rewrite testbit_u64, Z.lnot_spec, mask_bit by (done || unfold bits in *; lia). done.
Qed.

Lemma zeros_hi w x : w = 4 \/ w = 8 -> zeros (kz_hi w) w x.
Proof. intros Hw j Hj. by rewrite hi_bit. Qed.

Lemma zeros_lor m m' w x : zeros m w x -> zeros m' w x -> zeros (Z.lor m m') w x.
Proof. intros H H' j Hj. rewrite Z.lor_spec, orb_true_iff. intros [E|E]; [by apply H | by apply H']. Qed.

Lemma zeros_land m m' w x : zeros m w x \/ zeros m' w x -> zeros (Z.land m m') w x.
Proof.
  intros H j Hj. rewrite Z.land_spec, andb_true_iff. intros [E E']. destruct H as [H|H]; by apply H.
Qed.

Lemma testbit_normw w x j : w = 4 \/ w = 8 -> 0 <= j < bits w -> Z.testbit (normw w x) j = Z.testbit x j.
Proof.
  intros Hw Hj. unfold normw. assert (0 < bits w) by (unfold bits; lia).
  assert (E : uwrap (bits w) (swrap (bits w) x) = uwrap (bits w) x) by (by apply uwrap_swrap).
  unfold uwrap in E. rewrite <- (Z.mod_pow2_bits_low (swrap (bits w) x) (bits w)) by lia. rewrite E.
  by rewrite Z.mod_pow2_bits_low by lia.
Qed.

Lemma zeros_normw m w x : w = 4 \/ w = 8 -> zeros m w x -> zeros m w (normw w x).
Proof. intros Hw H j Hj E. rewrite testbit_normw by done. by apply H. Qed.

(** The complement of a constant, at the width. *)
Lemma zeros_const w B : w = 4 \/ w = 8 -> zeros (Z.land (u64 (Z.lnot (Z.land (u64 B) (kz_mask w)))) (kz_mask w)) w B.
Proof.
  intros Hw j Hj. assert (J : 0 <= j < 64) by (unfold bits in *; lia).
  rewrite Z.land_spec, testbit_u64, Z.lnot_spec, Z.land_spec, testbit_u64, mask_bit by (done || lia).
  by destruct (Z.testbit B j).
Qed.

Lemma zeros_imm w B : w = 4 \/ w = 8 -> zeros (Z.land (u64 (Z.lnot (u64 B))) (kz_mask w)) w B.
Proof.
  intros Hw j Hj. assert (J : 0 <= j < 64) by (unfold bits in *; lia).
  rewrite Z.land_spec, testbit_u64, Z.lnot_spec, testbit_u64 by lia. by destruct (Z.testbit B j).
Qed.

(** Low bits. *)
Lemma low_bit n j : 0 <= n <= 64 -> 0 <= j < 64 -> Z.testbit (u64 (Z.shiftl 1 n - 1)) j = (j <? n).
Proof.
  intros Hn Hj. rewrite testbit_u64, Z.shiftl_mul_pow2, Z.mul_1_l by lia.
  replace (2 ^ n - 1) with (Z.ones n) by (rewrite Z.ones_equiv; lia).
  destruct (Z.ltb_spec j n); [by apply Z.ones_spec_low; lia | by apply Z.ones_spec_high; lia].
Qed.

Lemma zeros_mul_pow n w x : w = 4 \/ w = 8 -> 0 <= n <= 64 -> zeros (u64 (Z.shiftl 1 n - 1)) w (x * 2 ^ n).
Proof.
  intros Hw Hn j Hj. rewrite low_bit by (unfold bits in *; lia). intros L. apply Z.ltb_lt in L.
  by rewrite Z.mul_pow2_bits_low by lia.
Qed.

Lemma zeros_small n w x : w = 4 \/ w = 8 -> 0 <= n <= 64 -> 0 <= x < 2 ^ n ->
  zeros (Z.land (u64 (Z.lnot (u64 (Z.shiftl 1 n - 1)))) (kz_mask w)) w x.
Proof.
  intros Hw Hn Hx j Hj. assert (J : 0 <= j < 64) by (unfold bits in *; lia).
  rewrite Z.land_spec, testbit_u64, Z.lnot_spec, low_bit by lia.
  destruct (Z.ltb_spec j n); [done|]. intros _. rewrite <- (Z.mod_small x (2 ^ n)) by lia.
  apply Z.mod_pow2_bits_high. lia.
Qed.

Lemma kz_tz_divides fuel ub tz : 0 <= tz -> 0 < ub -> exists m n, ub = m * 2 ^ n /\ 0 <= n <= Z.of_nat fuel /\
  kz_tz fuel ub tz = tz + n.
Proof.
  revert ub tz. induction fuel as [|fuel IH]; intros ub tz Ht Hu; simpl.
  { exists ub, 0. lia. }
  change 1 with (2 ^ 1 - 1) at 1. rewrite land_ones_mod by lia. change (2 ^ 1) with 2.
  pose proof (Z.div_mod ub 2 ltac:(lia)) as E. destruct (Z.eqb_spec (ub mod 2) 0) as [Z0|_]; [|exists ub, 0; lia].
  rewrite Z.shiftr_div_pow2 by lia. change (2 ^ 1) with 2.
  destruct (IH (ub / 2) (tz + 1)) as (m & n & Em & Hn & ->); [lia | lia|].
  exists m, (n + 1). split_and!; try lia. rewrite Z.pow_add_r by lia. lia.
Qed.

(** The loop ends: a non-zero word of 64 bits has an odd multiple. *)
Lemma kz_tz_ends fuel ub tz : 0 <= tz -> 0 < ub < 2 ^ Z.of_nat fuel ->
  exists n, kz_tz fuel ub tz = tz + n /\ 0 <= n /\ Z.odd (ub / 2 ^ n) = true.
Proof.
  revert ub tz. induction fuel as [|fuel IH]; intros ub tz Ht Hu; [simpl in Hu; lia|].
  cbn [kz_tz]. change 1 with (2 ^ 1 - 1) at 1. rewrite land_ones_mod by lia. change (2 ^ 1) with 2.
  rewrite Zmod_odd. destruct (Z.odd ub) eqn:O.
  - exists 0. simpl. rewrite Z.div_1_r. split_and!; [lia | lia | done].
  - simpl (_ =? _). rewrite Z.shiftr_div_pow2 by lia. change (2 ^ 1) with 2.
    pose proof (Zmod_odd ub) as E. rewrite O in E. pose proof (Z.div_mod ub 2 ltac:(lia)).
    rewrite Nat2Z.inj_succ, Z.pow_succ_r in Hu by lia.
    destruct (IH (ub / 2) (tz + 1)) as (n & -> & Hn & On); [lia | lia|].
    exists (n + 1). split_and!; [lia | lia|]. rewrite Z.add_comm, Z.pow_add_r, <- Z.div_div by lia. exact On.
Qed.

(** ** One instruction *)

Section Instruction.
Context {M : Machine}.
Context (fn : ir_func).
Let d := compute_defs fn.

(** What irgen gives: an extension widens, and a constant operand of an operation
    is an integer in its range. *)
Definition kz_typed (i : ir_ins) : Prop :=
  (i_op i = IR_EXT -> i_flt i = false -> i_sign i = false ->
   word_ok (i_w i) = true /\ size_ok (i_size i) = true /\ i_size i < i_w i) /\
  (i_op i = IR_LOAD -> size_ok (i_size i) = true) /\
  match get_const fn d (i_b i) with
  | Some B => match ins_at fn (d_ins d (i_b i)) with
              | Some c => word_ok (i_w c) = true /\ is_s (bits (i_w c)) B
              | None => True
              end
  | None => True
  end.

(** The value of a constant operand. *)
Lemma const_operand i e B y : kz_typed i -> consts_ok fn e -> i_b i < nvregs fn ->
  get_const fn d (i_b i) = Some B -> e (i_b i) = Some y -> y = B.
Proof.
  intros (_ & _ & T) HC Hb G Ey. rewrite G in T. unfold get_const in G.
  destruct (_ || _ || _) eqn:C; [done|]. rewrite !orb_false_iff, negb_false_iff in C. destruct C as [[C1 C2] C3].
  destruct (ins_at fn (d_ins d (i_b i))) as [c|] eqn:I; [|done]. destruct (_ || _) eqn:O; [done|].
  injection G as <-. rewrite orb_false_iff, negb_false_iff in O. destruct O as [O F].
  unfold op_is in O. apply bool_decide_eq_true in O. destruct T as [Tw Tr].
  rewrite (HC (i_b i) (d_ins d (i_b i)) c y); try done.
  - unfold normw. apply swrap_small; [|done]. unfold word_ok, bits in *. lia.
  - apply compute_defs_single; [lia | unfold d in *; lia | done].
Qed.

(** The zeros of a shifted value. *)
Lemma zeros_shl m w x B : w = 4 \/ w = 8 -> 0 <= B < bits w -> zeros m w x ->
  zeros (Z.lor (Z.lor (kz_hi w) (Z.land (u64 (Z.shiftl m B)) (kz_mask w))) (u64 (Z.shiftl 1 B - 1))) w (x * 2 ^ B).
Proof.
  intros Hw HB H. apply zeros_lor; [apply zeros_lor; [by apply zeros_hi|] | apply zeros_mul_pow; [done|]; unfold bits in *; lia].
  intros j Hj. rewrite Z.land_spec, testbit_u64, Z.shiftl_spec, mask_bit, andb_true_r by (done || unfold bits in *; lia).
  intros E. destruct (Z.ltb_spec j B).
  - by rewrite Z.mul_pow2_bits_low by lia.
  - rewrite Z.mul_pow2_bits by lia. apply H; [lia | done].
Qed.

Lemma zeros_shr m w x B : w = 4 \/ w = 8 -> 0 <= B < bits w -> zeros m w x ->
  zeros (Z.lor (Z.lor (kz_hi w) (Z.shiftr (Z.land m (kz_mask w)) B))
               (Z.land (u64 (Z.lnot (Z.shiftr (kz_mask w) B))) (kz_mask w))) w (uwrap (bits w) x / 2 ^ B).
Proof.
  intros Hw HB H. assert (Hb : bits w = 32 \/ bits w = 64) by (unfold bits; lia).
  assert (D : forall j, 0 <= j -> Z.testbit (uwrap (bits w) x / 2 ^ B) j = Z.testbit (uwrap (bits w) x) (j + B))
    by (intros j Hj; by rewrite Z.div_pow2_bits by lia).
  apply zeros_lor; [apply zeros_lor; [by apply zeros_hi|]|].
  - intros j Hj. rewrite Z.shiftr_spec, Z.land_spec, andb_true_iff by lia. intros [E _]. rewrite D by lia. unfold uwrap.
    destruct (Z.ltb_spec (j + B) (bits w)).
    + rewrite Z.mod_pow2_bits_low by lia. apply H; [lia | done].
    + apply Z.mod_pow2_bits_high. lia.
  - intros j Hj. rewrite Z.land_spec, testbit_u64, Z.lnot_spec, Z.shiftr_spec by lia.
    rewrite D by lia. unfold uwrap. destruct (Z.ltb_spec (j + B) (bits w)).
    + by rewrite (mask_bit w (j + B)) by (done || lia).
    + intros _. apply Z.mod_pow2_bits_high. lia.
Qed.
Lemma mask_uwrap w B : w = 4 \/ w = 8 -> Z.land (u64 B) (kz_mask w) = uwrap (bits w) B.
Proof.
  intros Hw. apply Z.bits_inj'. intros j Hj. rewrite Z.land_spec. unfold uwrap. destruct (Z.ltb_spec j (bits w)).
  - rewrite mask_bit, !Z.mod_pow2_bits_low, andb_true_r by (done || unfold bits in *; lia). done.
  - rewrite (Z.mod_pow2_bits_high _ (bits w)) by (unfold bits in *; lia).
    destruct Hw as [-> | ->]; [change (kz_mask 4) with (Z.ones 32) | change (kz_mask 8) with (Z.ones 64)];
      rewrite Z.ones_spec_high by (unfold bits in *; lia); apply andb_false_r.
Qed.

(** The zeros of a product with a multiple of a power of two. *)
Lemma zeros_multiple w x B : w = 4 \/ w = 8 -> uwrap (bits w) B <> 0 ->
  zeros (Z.lor (kz_hi w) (u64 (Z.shiftl 1 (kz_tz 64 (uwrap (bits w) B) 0) - 1))) w (normw w (x * B)).
Proof.
  intros Hw Nz. assert (Hb : 0 < bits w) by (unfold bits; lia).
  pose proof (uwrap_range (bits w) B ltac:(lia)) as Ru. unfold is_u in Ru.
  destruct (kz_tz_divides 64 (uwrap (bits w) B) 0) as (m & n & Em & Hn & ->); [lia | lia|]. rewrite Z.add_0_l.
  apply zeros_lor; [by apply zeros_hi|].
  assert (Eq : normw w (x * B) = normw w (x * m * 2 ^ n)).
  { unfold normw. apply swrap_proper. rewrite <- Z.mul_assoc, <- Em, eqw_uwrap by lia. done. }
  rewrite Eq. apply zeros_normw; [done|]. by apply zeros_mul_pow.
Qed.

(** The zeros of a value zero-extended into a wider class. *)
Lemma zeros_ext size cls w x : w = 4 \/ w = 8 -> 0 <= bits size <= 64 -> 0 < cls -> size < cls ->
  zeros (Z.land (u64 (Z.lnot (u64 (Z.shiftl 1 (8 * size) - 1)))) (kz_mask w)) w (ext_val size false cls x).
Proof.
  intros Hw Hs Hc Lt. unfold ext_val. pose proof (uwrap_range (bits size) x ltac:(lia)) as Ru. unfold is_u in Ru.
  pose proof (pow2_le_mono (bits size) (bits cls - 1) ltac:(unfold bits; lia)).
  unfold normw. rewrite swrap_small; [| unfold bits; lia | unfold is_s; lia].
  replace (8 * size) with (bits size) by done. by apply zeros_small.
Qed.

Definition kz_bin (op : ir_op) : bool :=
  match op with IR_SHL | IR_SHR | IR_AND | IR_OR | IR_XOR | IR_MUL => true | _ => false end.

(** The operands of a binary operation: what is known of the second is its value. *)
Lemma bin_operands i e vals y : kz_bin (i_op i) = true -> kz_typed i -> wf_ins fn i -> consts_ok fn e ->
  i_flt i = false -> word_ok (i_w i) = true -> mapM e (reads i) = Some vals -> eval i vals = Some y ->
  exists x z r, e (i_a i) = Some x /\ (i_imm_b i = true \/ e (i_b i) = Some z) /\
    (forall B, (if i_imm_b i then Some (i_imm i) else get_const fn d (i_b i)) = Some B -> z = B) /\
    bin_val (i_op i) (i_w i) (i_sign i) (i_pred i) x z = Some r /\ y = normw (i_w i) r.
Proof.
  intros Ob T [Wr _] HC F Ww V Ev.
  assert (R : reads i = if i_imm_b i then [i_a i] else [i_a i; i_b i]).
  { rewrite reads_eq. unfold reads_spec. unfold kz_bin in Ob. destruct (i_op i); try done; by destruct (i_imm_b i). }
  rewrite R in V, Wr. destruct (i_imm_b i) eqn:Im; simpl in V.
  - destruct (e (i_a i)) as [x|]; [|done]. simpl in V. injection V as <-.
    assert (Ev' : normw (i_w i) <$> bin_val (i_op i) (i_w i) (i_sign i) (i_pred i) x (i_imm i) = Some y).
    { rewrite <- Ev. unfold eval. rewrite F, Ww, Im. unfold kz_bin in Ob. by destruct (i_op i). }
    destruct (bin_val _ _ _ _ x (i_imm i)) as [r|] eqn:Bv; [|done]. injection Ev' as <-.
    exists x, (i_imm i), r. split_and!; try done; [by left | by intros B [= ->]].
  - destruct (e (i_a i)) as [x|]; [|done]. simpl in V. destruct (e (i_b i)) as [z|] eqn:Ez; [|done]. simpl in V.
    injection V as <-.
    assert (Ev' : normw (i_w i) <$> bin_val (i_op i) (i_w i) (i_sign i) (i_pred i) x z = Some y).
    { rewrite <- Ev. unfold eval. rewrite F, Ww. unfold kz_bin in Ob. by destruct (i_op i). }
    destruct (bin_val _ _ _ _ x z) as [r|] eqn:Bv; [|done]. injection Ev' as <-.
    pose proof (Forall_inv (Forall_inv_tail Wr)) as Hb. simpl in Hb.
    exists x, z, r. split_and!; try done; [by right|]. intros B G. by eapply const_operand.
Qed.

(** What the instruction leaves has the zeros it is said to have. *)
Lemma known_zero_ins_sound kz i e w depth vals y :
  w = 4 \/ w = 8 -> kz_typed i -> wf_ins fn i -> consts_ok fn e ->
  (forall v dep x, e v = Some x -> zeros (kz v dep) w x) ->
  (i_op i = IR_LOAD -> i_sign i = false -> size_ok (i_size i) = true -> result_of i vals y ->
   0 <= y < 2 ^ bits (i_size i)) ->
  mapM e (reads i) = Some vals -> result_of i vals y ->
  zeros (known_zero_ins fn d kz i w depth) w y.
Proof.
  intros Hw T Wf HC Hk Hld V Res. unfold known_zero_ins.
  destruct (_ || _ || _) eqn:G; [by apply zeros_hi|]. cbv zeta.
  rewrite !orb_false_iff, andb_false_iff, !negb_false_iff in G. destruct G as [[F N16] Gw].
  assert (Wi : i_op i <> IR_EXT -> i_w i = w).
  { intros NE. destruct Gw as [E|E]; [by apply Z.eqb_eq in E|]. unfold op_is in E. by apply bool_decide_eq_true in E. }
  assert (Hb : 0 < bits w) by (unfold bits; lia).
  assert (Bin : kz_bin (i_op i) = true -> exists x z r, e (i_a i) = Some x /\ (i_imm_b i = true \/ e (i_b i) = Some z) /\
    (forall B, (if i_imm_b i then Some (i_imm i) else get_const fn d (i_b i)) = Some B -> z = B) /\
    bin_val (i_op i) w (i_sign i) (i_pred i) x z = Some r /\ y = normw w r).
  { intros Ob. assert (C : computes i = true) by (unfold computes, op_is, kz_bin in *; by destruct (i_op i)).
    unfold result_of in Res. rewrite C in Res. rewrite <- Wi by (intros E; by rewrite E in Ob).
    apply (bin_operands i e vals y); try done. rewrite Wi by (intros E; by rewrite E in Ob).
    by destruct Hw as [-> | ->]. }
  set (kb := if i_imm_b i then Some (i_imm i) else get_const fn d (i_b i)) in *.
  assert (Oth : forall z, (i_imm_b i = true \/ e (i_b i) = Some z) -> (forall B, kb = Some B -> z = B) ->
    zeros match kb with
          | Some B => Z.land (u64 (Z.lnot (Z.land (u64 B) (kz_mask w)))) (kz_mask w)
          | None => kz (i_b i) (depth + 1) end w z).
  { intros z Hz HB. destruct kb as [B|] eqn:K; [rewrite (HB B eq_refl); by apply zeros_const|].
    destruct Hz as [Im|Ez]; [unfold kb in K; by rewrite Im in K | by apply Hk]. }
  set (small := match kb with Some B => if (B <? 0) || (8 * w <=? B) then None else Some B | None => None end).
  assert (Small : forall z, (forall B, kb = Some B -> z = B) ->
    match small with Some B => z = B /\ 0 <= B < bits w | None => True end).
  { intros z HB. unfold small. destruct kb as [B|]; [|done]. destruct (_ || _) eqn:L; [done|]. split; [by apply HB|]. unfold bits. lia. }
  destruct (i_op i) eqn:O; try (by apply zeros_hi).
  - (* const *) apply zeros_lor; [by apply zeros_hi|].
    unfold result_of, computes, op_is in Res. rewrite O in Res. simpl in Res.
    assert (R : reads i = []) by (rewrite reads_eq; unfold reads_spec; by rewrite O). rewrite R in V. injection V as <-.
    unfold eval in Res. rewrite O, F, Wi in Res by done.
    assert (W8 : word_ok w = true) by (by destruct Hw as [-> | ->]). rewrite W8 in Res. injection Res as <-.
    apply zeros_normw; [done|]. by apply zeros_imm.
  - (* mov *) apply zeros_lor; [by apply zeros_hi|].
    unfold result_of, computes, op_is in Res. rewrite O in Res. simpl in Res.
    assert (R : reads i = [i_a i]) by (rewrite reads_eq; unfold reads_spec; by rewrite O). rewrite R in V. simpl in V.
    destruct (e (i_a i)) as [x|] eqn:Ex; [|done]. injection V as <-. unfold eval in Res. rewrite O in Res.
    injection Res as <-. by apply Hk.
  - (* mul *) destruct (Bin eq_refl) as (x & z & r & Ex & Hz & HB & Bv & ->). simpl in Bv. injection Bv as <-.
    destruct kb as [B|]; [|by apply zeros_hi]. rewrite (HB B eq_refl).
    rewrite mask_uwrap by done. destruct (Z.eqb_spec (uwrap (bits w) B) 0); [by apply zeros_hi|].
    by apply zeros_multiple.
  - (* and *) destruct (Bin eq_refl) as (x & z & r & Ex & Hz & HB & Bv & ->). simpl in Bv. injection Bv as <-.
    apply zeros_normw; [done|]. specialize (Oth z Hz HB). specialize (Hk _ (depth + 1) _ Ex).
    apply zeros_lor; [apply zeros_lor; [by apply zeros_hi|]|]; intros j Hj E; rewrite Z.land_spec.
    + by rewrite (Hk j Hj E).
    + by rewrite (Oth j Hj E), andb_false_r.
  - (* or *) destruct (Bin eq_refl) as (x & z & r & Ex & Hz & HB & Bv & ->). simpl in Bv. injection Bv as <-.
    apply zeros_normw; [done|]. specialize (Oth z Hz HB). specialize (Hk _ (depth + 1) _ Ex).
    apply zeros_lor; [by apply zeros_hi|]. intros j Hj. rewrite Z.land_spec, andb_true_iff. intros [E1 E2].
    by rewrite Z.lor_spec, (Hk j Hj E1), (Oth j Hj E2).
  - (* xor *) destruct (Bin eq_refl) as (x & z & r & Ex & Hz & HB & Bv & ->). simpl in Bv. injection Bv as <-.
    apply zeros_normw; [done|]. specialize (Oth z Hz HB). specialize (Hk _ (depth + 1) _ Ex).
    apply zeros_lor; [by apply zeros_hi|]. intros j Hj. rewrite Z.land_spec, andb_true_iff. intros [E1 E2].
    by rewrite Z.lxor_spec, (Hk j Hj E1), (Oth j Hj E2).
  - (* shl *) destruct (Bin eq_refl) as (x & z & r & Ex & Hz & HB & Bv & ->). simpl in Bv. injection Bv as <-.
    specialize (Small z HB). destruct small as [B|]; [|by apply zeros_hi].
    destruct Small as [-> HB']. apply zeros_normw; [done|]. rewrite Z.mod_small by done. apply zeros_shl; eauto.
  - (* shr *) destruct (Bin eq_refl) as (x & z & r & Ex & Hz & HB & Bv & ->). simpl in Bv. injection Bv as <-.
    specialize (Small z HB). destruct small as [B|]; [|by apply zeros_hi].
    destruct Small as [-> HB']. destruct (i_sign i); [by apply zeros_hi|]. apply zeros_normw; [done|].
    rewrite Z.mod_small by done. unfold num. apply zeros_shr; eauto.
  - (* load *) destruct (i_sign i) eqn:Sg; [by apply zeros_hi|]. destruct (_ || _) eqn:Sz; [by apply zeros_hi|].
    apply zeros_lor; [by apply zeros_hi|]. destruct T as (_ & Tl & _).
    replace (8 * i_size i) with (bits (i_size i)) by done. apply zeros_small; [done | unfold bits; lia | auto].
  - (* ext *) destruct (i_sign i) eqn:Sg; [by apply zeros_hi|]. destruct (_ || _) eqn:Sz; [by apply zeros_hi|].
    apply zeros_lor; [by apply zeros_hi|]. destruct T as (Te & _ & _). destruct (Te O F Sg) as (Ww & Sok & Lt).
    assert (C : computes i = true) by (unfold computes, op_is; by rewrite O).
    unfold result_of in Res. rewrite C in Res.
    assert (R : reads i = [i_a i]) by (rewrite reads_eq; unfold reads_spec; by rewrite O). rewrite R in V. simpl in V.
    destruct (e (i_a i)) as [x|]; [|done]. injection V as <-. unfold eval in Res. rewrite O, F, Ww, Sok, Sg in Res.
    injection Res as <-. apply zeros_ext; [done | unfold bits; lia | lia | lia].
Qed.
End Instruction.

(** ** Every run *)

(** A landing pad's results are not in the definition lists, and the count tells. *)
Lemma defs_list_count fn n l v :
  0 <= v < nvregs fn ->
  Z.of_nat (length (defs_list_from fn n l v)) +
  Z.of_nat (length (filter (fun i => i_op i = IR_LANDING /\ v ∈ def_list (nvregs fn) i) l))
  <= ndefs v (def_events (nvregs fn) n l).
Proof.
  intros Hv. revert n. induction l as [|i l IH]; intros n; simpl; [done|]. specialize (IH (n + 1)).
  assert (E : ndefs v (map (fun t => (t, n)) (def_list (nvregs fn) i) ++ def_events (nvregs fn) (n + 1) l)
    = ndefs v (map (fun t => (t, n)) (def_list (nvregs fn) i)) + ndefs v (def_events (nvregs fn) (n + 1) l)).
  { unfold ndefs. rewrite list.filter_app, length_app. lia. }
  rewrite E, filter_cons.
  assert (P : v ∈ def_list (nvregs fn) i -> 1 <= ndefs v (map (fun t => (t, n)) (def_list (nvregs fn) i))).
  { generalize (def_list (nvregs fn) i) as ts. induction ts as [|t ts IHt]; [by intros ?%elem_of_nil|].
    simpl. rewrite ndefs_cons. simpl. pose proof (ndefs_nonneg v (map (fun t => (t, n)) ts)).
    intros [->|Ht]%elem_of_cons; [rewrite Z.eqb_refl; lia|]. specialize (IHt Ht). destruct (_ =? _); lia. }
  pose proof (ndefs_nonneg v (map (fun t => (t, n)) (def_list (nvregs fn) i))) as P0.
  unfold op_is. case_decide as L.
  - destruct L as [O Hd]. specialize (P Hd). rewrite bool_decide_true by done. rewrite andb_false_r, andb_false_l.
    cbn [length]. lia.
  - destruct (_ && _ && _ && _) eqn:T; [|lia].
    rewrite !andb_true_iff, negb_true_iff in T. destruct T as [[[T1 T2] T3] T4]. apply Z.eqb_eq in T4.
    assert (Hd : v ∈ def_list (nvregs fn) i).
    { unfold def_list, op_is. rewrite T3. destruct (Z.ltb_spec (def_target i) 0); [lia|]. subst. by left. }
    specialize (P Hd). cbn [length]. lia.
Qed.

Lemma defs_list_from_In fn n l v p i : l !! p = Some i -> i_op i <> IR_LANDING ->
  v ∈ def_list (nvregs fn) i -> v < nvregs fn -> n + Z.of_nat p ∈ defs_list_from fn n l v.
Proof.
  intros I N Hd Hv. assert (T : 0 <= def_target i /\ def_target i = v).
  { unfold def_list, op_is in Hd. rewrite bool_decide_false in Hd by done.
    destruct (Z.ltb_spec (def_target i) 0); [by apply elem_of_nil in Hd|]. by apply list_elem_of_singleton in Hd. }
  revert n p I. induction l as [|x l IH]; intros n p I; [done|]. simpl. destruct p as [|p]; simpl in I.
  - simplify_eq. unfold op_is. rewrite bool_decide_false by done. rewrite (proj2 (Z.leb_le 0 _)), (proj2 (Z.ltb_lt _ (nvregs fn))) by lia.
    rewrite (proj2 (Z.eqb_eq _ _)) by lia. simpl. rewrite Z.add_0_r. by left.
  - specialize (IH (n + 1) p I). replace (n + Z.of_nat (S p)) with (n + 1 + Z.of_nat p) by lia.
    destruct (_ && _); [by right | done].
Qed.

Lemma foldl_land_zeros (f : Z -> Z) l z w x : (exists n, n ∈ l /\ zeros (f n) w x) \/ zeros z w x ->
  zeros (foldl (fun kz n => Z.land kz (f n)) z l) w x.
Proof.
  revert z. induction l as [|n l IH]; intros z H; simpl.
  - destruct H as [(n & Hn & _)|H]; [by apply elem_of_nil in Hn | done].
  - apply IH. destruct H as [(m & [->|Hm]%elem_of_cons & H)|H]; [|left; eauto|]; right; apply zeros_land; auto.
Qed.

Definition kz_op (op : ir_op) : bool :=
  match op with IR_CONST | IR_MOV | IR_EXT | IR_LOAD => true | _ => kz_bin op end.

Lemma known_zero_ins_hi fn d kz i w depth : kz_op (i_op i) = false -> known_zero_ins fn d kz i w depth = kz_hi w.
Proof. unfold known_zero_ins, kz_op, kz_bin. destruct (_ || _ || _); [done|]. by destruct (i_op i). Qed.

Section Run.
Context {M : Machine}.
Context (fn : ir_func) (lists : bool).
Context (Hwf : wf_func fn).
Context (Hesc : forall s, esc s = true -> 0 <= s < nvars fn).
Context (Hty : Forall (kz_typed fn) (ins fn)).
Context (Hload : forall i vals y, i ∈ ins fn -> i_op i = IR_LOAD -> i_sign i = false -> size_ok (i_size i) = true ->
  result_of i vals y -> 0 <= y < 2 ^ bits (i_size i)).
Let d := compute_defs fn.
Let KZ := known_zero fn d lists.

Definition zeros_hold (e : env) : Prop := forall fuel v w depth x, w = 4 \/ w = 8 -> e v = Some x ->
  zeros (KZ fuel v w depth) w x.

Lemma kz_target i n : ins fn !! n = Some i -> kz_op (i_op i) = true ->
  def_list (nvregs fn) i = (if i_dst i <? 0 then [] else [i_dst i]) /\ (0 <= i_dst i -> nvars fn <= i_dst i).
Proof using Hwf.
  intros I K. destruct Hwf as [_ F]. destruct (Forall_lookup_1 _ _ _ _ F I) as [_ W].
  unfold def_list, def_target, kz_op, kz_bin, op_is in *. destruct (i_op i); try done; simpl in *; split; try done; lia.
Qed.

(** Nothing is claimed of a frame slot. *)
Lemma zeros_slot fuel v w depth x : v < nvars fn -> w = 4 \/ w = 8 -> zeros (KZ fuel v w depth) w x.
Proof using Hwf.
  intros Hv Hw. unfold KZ. destruct fuel as [|fuel]; [by apply zeros_hi|]. cbn [known_zero].
  destruct ((v <? 0) || (nvregs fn <=? v) || (4 <? depth)); [by apply zeros_hi|].
  rewrite (proj2 (Z.ltb_lt _ _) Hv), orb_true_r, orb_true_l.
  destruct (1 <? d_cnt d v); [by apply zeros_hi|].
  destruct (negb (d_cnt d v =? 1) || (d_ins d v <? 0)) eqn:C; [by apply zeros_hi|].
  destruct (ins_at fn (d_ins d v)) as [i|] eqn:I; [|by apply zeros_hi].
  destruct (kz_op (i_op i)) eqn:K; [exfalso | rewrite known_zero_ins_hi by done; by apply zeros_hi].
  assert (S : single_def fn v (d_ins d v)) by (apply compute_defs_single; unfold d in *; lia).
  destruct S as (_ & (i' & I' & Hd) & _). unfold d in *. rewrite I in I'. simplify_eq.
  rewrite ins_at_lookup in I by lia. destruct (kz_target i' _ I K) as [E Hn]. rewrite E in Hd.
  destruct (Z.ltb_spec (i_dst i') 0); [by apply elem_of_nil in Hd|]. apply list_elem_of_singleton in Hd. lia.
Qed.

(** What the operations of the analysis leave in their destination. *)
Lemma kz_result i e w e' w' x : kz_op (i_op i) = true -> exec1 fn i e w = Fall e' w' -> 0 <= i_dst i ->
  e' (i_dst i) = Some x -> exists vals, mapM e (reads i) = Some vals /\ result_of i vals x.
Proof.
  intros K X Hd E. unfold exec1 in X. destruct (mapM e (reads i)) as [vals|]; [|done]. exists vals. split; [done|].
  unfold result_of. destruct (computes i) eqn:C.
  - destruct (eval i vals) as [v|]; [|done]. injection X as <- _. by rewrite write_same in E.
  - assert (O : i_op i = IR_LOAD) by (unfold computes, kz_op, kz_bin, op_is in *; by destruct (i_op i)).
    rewrite O in X. unfold exec_ext in X. destruct (ext (shape i) vals (slots_out e) w) as [v1 v2 sl w2|sl w2|w2] eqn:Ex.
    + injection X as <- _. unfold write_ext, def_target, op_is in E. rewrite O in E. simpl in E.
      rewrite write_same in E by done. injection E as <-. eauto 10.
    + by repeat case_match.
    + done.
Qed.

(** A definition of [v] makes what is claimed of it true. *)
Lemma zeros_define n i e w0 e' w' v fuel w depth x : ins fn !! n = Some i -> consts_ok fn e -> zeros_hold e ->
  exec1 fn i e w0 = Fall e' w' -> v ∈ def_list (nvregs fn) i -> w = 4 \/ w = 8 -> e' v = Some x ->
  zeros (KZ fuel v w depth) w x.
Proof using Hwf Hty Hload.
  intros I HC HZ X Hd Hw Ev.
  assert (One : forall fuel depth, zeros (known_zero_ins fn d (fun v depth => KZ fuel v w depth) i w depth) w x).
  { intros fuel' depth'. destruct (kz_op (i_op i)) eqn:K; [|rewrite known_zero_ins_hi by done; by apply zeros_hi].
    destruct (kz_target i n I K) as [E _]. rewrite E in Hd.
    destruct (Z.ltb_spec (i_dst i) 0); [by apply elem_of_nil in Hd|]. apply list_elem_of_singleton in Hd as ->.
    destruct (kz_result i e w0 e' w' x K X) as (vals & V & Res); [done | done|].
    eapply known_zero_ins_sound; try done.
    - exact (Forall_lookup_1 _ _ _ _ Hty I).
    - destruct Hwf as [_ F]. exact (Forall_lookup_1 _ _ _ _ F I).
    - intros v' dep x' E'. by apply HZ.
    - intros. eapply Hload; try done. by eapply list_elem_of_lookup_2. }
  unfold KZ. destruct fuel as [|fuel]; [by apply zeros_hi|]. cbn [known_zero].
  destruct ((v <? 0) || (nvregs fn <=? v) || (4 <? depth)) eqn:R; [by apply zeros_hi|].
  rewrite !orb_false_iff in R. destruct R as [[R1 R2] R3].
  assert (In : ins_at fn (Z.of_nat n) = Some i) by (by rewrite ins_at_lookup, Nat2Z.id by lia).
  destruct (1 <? d_cnt d v) eqn:Cn.
  - destruct (negb lists || (v <? nvars fn) || (2 <? depth)); [by apply zeros_hi|]. cbv zeta.
    destruct (Z.eqb_spec (Z.of_nat (length (defs_lists fn v))) (d_cnt d v)) as [Cc|]; [|by apply zeros_hi].
    apply zeros_lor; [|by apply zeros_hi].
    destruct (decide (i_op i = IR_LANDING)) as [O|O].
    + exfalso. pose proof (defs_list_count fn 0 (ins fn) v ltac:(lia)) as Ct. fold (defs_lists fn v) in Ct.
      unfold d in Cc. rewrite compute_defs_cnt in Cc.
      assert (H0 : 0 <= d_cnt (defs_init fn) v) by (simpl; repeat case_match; lia).
      assert (L : i ∈ filter (fun i => i_op i = IR_LANDING /\ v ∈ def_list (nvregs fn) i) (ins fn)).
      { apply list_elem_of_filter. split; [done|]. by eapply list_elem_of_lookup_2. }
      destruct (filter _ (ins fn)); [by apply elem_of_nil in L | simpl in Ct; lia].
    + apply foldl_land_zeros. left. exists (Z.of_nat n). split.
      * apply (defs_list_from_In fn 0 (ins fn) v n i I O Hd). lia.
      * rewrite In. apply One.
  - destruct (negb (d_cnt d v =? 1) || (d_ins d v <? 0)) eqn:C1; [by apply zeros_hi|].
    assert (S : single_def fn v (d_ins d v)) by (apply compute_defs_single; unfold d in *; lia).
    destruct S as (_ & _ & U). rewrite <- (U _ _ In Hd), In. apply One.
Qed.

Lemma zeros_step n i e w0 : ins fn !! n = Some i -> known fn e -> zeros_hold e ->
  on_flow zeros_hold (exec1 fn i e w0).
Proof using Hwf Hesc Hty Hload.
  intros I Hk HZ. pose proof (exec1_frame fn i e w0) as Fr.
  assert (Keep : forall D e', framed fn D e e' -> forall v, v ∉ D -> forall fuel w depth x, w = 4 \/ w = 8 ->
    e' v = Some x -> zeros (KZ fuel v w depth) w x).
  { intros D e' F v Nv fuel w depth x Hw Ev. destruct (Z.lt_ge_cases v (nvars fn)); [by apply zeros_slot|].
    destruct (Z.lt_ge_cases v (nvregs fn)) as [L|L].
    - rewrite F in Ev; [by apply HZ | done | | done]. destruct (esc v) eqn:E; [apply Hesc in E; lia | done].
    - unfold KZ. destruct fuel; simpl; [by apply zeros_hi|].
      rewrite (proj2 (Z.leb_le _ _) L), orb_true_r. by apply zeros_hi. }
  destruct (exec1 fn i e w0) as [e' w'|l e' w'|o w'|] eqn:X; simpl in *; try done.
  - intros fuel v w depth x Hw Ev. destruct (decide (v ∈ def_list (nvregs fn) i)) as [Hd|Hd].
    + eapply (zeros_define n); try done. apply Hk.
    + by eapply (Keep _ e' (proj2 Fr)).
  - intros fuel v w depth x Hw Ev. eapply (Keep _ e' (proj2 Fr)); [apply not_elem_of_nil | done | done].
Qed.

Lemma zeros_run k n e w sl w0 : exec k fn (entry fn sl w0) = Run n e w -> known fn e /\ zeros_hold e.
Proof using Hwf Hesc Hty Hload.
  revert n e w. induction k as [|k IH]; intros n e w.
  - intros [= <- <- _].
    assert (E : forall v, nvars fn <= v -> (if (0 <=? v) && (v <? nvars fn) then Some (sl v) else None) = None)
      by (intros v Hv; rewrite (proj2 (Z.ltb_ge _ _) Hv), andb_false_r; done).
    split; [by apply known_entry|]. intros fuel v w' depth x Hw Ev.
    destruct (Z.lt_ge_cases v (nvars fn)) as [|L]; [by apply zeros_slot | by rewrite E in Ev].
  - rewrite <- Nat.add_1_r, exec_add. simpl. destruct (exec k fn (entry fn sl w0)) as [m e1 w1|o w1|] eqn:E; [|done..].
    destruct (IH m e1 w1 eq_refl) as [Hk HZ]. simpl. destruct (ins fn !! m) as [i|] eqn:I; [|done].
    pose proof (known_exec1 fn Hwf Hesc m i e1 w1 I Hk) as Hk'. pose proof (zeros_step m i e1 w1 I Hk HZ) as HZ'.
    destruct (exec1 fn i e1 w1) as [e2 w2|l e2 w2|o w2|]; simpl in *; try done.
    + by intros [= <- <- <-].
    + destruct (label_pos fn l); [|done]. by intros [= <- <- <-].
Qed.
End Run.


(** [y = x << 4 & 0xff], with [x] a parameter. *)
Definition nibble_fn : ir_func :=
  let mk op dst a := set_w 4 (set_size 4 (set_a a (set_dst dst (set_op op ins_blank)))) in
  let imm k i := set_imm k (set_imm_b true i) in
  Fn 1 1 4 0 [] [mk IR_LDVAR 1 0; imm 4 (mk IR_SHL 2 1); imm 255 (mk IR_AND 3 2); mk IR_RET (-1) 3] [] None [].

