(* ===== verification/Sccp.v ===== *)
(** * Constant branches and unreachable blocks: [src/src/opt/sccp.c]

    A branch on a temporary with one definition, a constant, has one live edge;
    the blocks no live edge and no label address leads to are dropped, and a
    resolved branch becomes a jump to its live successor, or nothing where that
    is the next block. [pass_sccp] does both, [drop_unreachable] the second only.
    The optimizer runs them on functions without exception regions ([cfg_ok] of
    [src/src/opt/opt.c]). *)
From stdpp Require Import base numbers list option sets relations.
From Stdlib Require Import ZArith Lia.
From S2P Require Import Prelude Ir Util IrSem Simulate Paths CopyProp Cfg Emit Expand.

Local Open Scope Z_scope.

(** ** The pass *)

Section Core.
Context (fn : ir_func) (fold_branches : bool).
Let d := compute_defs fn.
Let bs := (build_cfg fn).1.
Let l2b := (build_cfg fn).2.

(** The constant the branch [t] tests. *)
Definition branch_const (t : ir_ins) : option ir_ins :=
  if negb fold_branches || negb (op_is (i_op t) IR_BRZ || op_is (i_op t) IR_BRNZ) || (i_a t <? 0) ||
     negb (d_cnt d (i_a t) =? 1) || (d_ins d (i_a t) <? 0) then None
  else match ins_at fn (d_ins d (i_a t)) with
       | Some c => if op_is (i_op c) IR_CONST then Some c else None
       | None => None
       end.

(** [live_only[b]]: the index of block [b]'s sole live edge. *)
Definition live_only (b : bb) : option nat :=
  if (b_end b <=? b_start b)%nat then None
  else match ins fn !! (b_end b - 1)%nat with
       | Some t =>
           match branch_const t with
           | Some c =>
               let taken := if op_is (i_op t) IR_BRZ then i_imm c =? 0 else negb (i_imm c =? 0) in
               let want := if taken then 0%nat else 1%nat in
               if (want <? length (b_succ b))%nat then Some want else None
           | None => None
           end
       | None => None
       end.

(** The blocks whose labels the code of block [b] takes the address of. *)
Definition addr_blocks (b : bb) : list nat :=
  concat (map (fun n =>
    match ins fn !! n with
    | Some i => if op_is (i_op i) IR_LABELADDR && in_labels fn (i_label i)
                then match l2b (i_label i) with Some t => [t] | None => [] end else []
    | None => []
    end) (seq (b_start b) (b_end b - b_start b))).

Definition live_succ (b : bb) : list nat :=
  match live_only b with
  | Some s => match b_succ b !! s with Some t => [t] | None => [] end
  | None => b_succ b
  end.

(** What the loop marks and queues from block [k]. *)
Definition live_next (k : nat) : list nat :=
  match bs !! k with Some b => addr_blocks b ++ live_succ b | None => [] end.

Definition sccp_reach : nat -> bool :=
  search (length bs) live_next ((fun x => (x =? 0)%nat), [0%nat]).

(** [for (n = start; n < end; n++) *ib_push(&nb) = fn->ins[n];] *)
Definition copy_range (s e : nat) : list ir_ins := take (e - s) (drop s (ins fn)).

(** The jump that replaces the branch [t]: to the live successor [ls] by its
    label, if it has one. *)
Definition live_jump (t : ir_ins) (ls : nat) : list ir_ins :=
  match bs !! ls with
  | Some b =>
      match ins fn !! b_start b with
      | Some h => if (b_start b <? b_end b)%nat && op_is (i_op h) IR_LABEL
                  then [set_loc (at_loc t (synth (i_loc t)))
                         (set_label (i_label h) (set_op IR_JMP ins_blank))]
                  else []
      | None => []
      end
  | None => []
  end.

Definition emit_block (b : bb) : list ir_ins :=
  match live_only b with
  | Some s =>
      copy_range (b_start b) (b_end b - 1) ++
      match ins fn !! (b_end b - 1)%nat, b_succ b !! s with
      | Some t, Some ls => live_jump t ls
      | _, _ => []
      end
  | None => copy_range (b_start b) (b_end b)
  end.

Fixpoint emit_blocks (k : nat) (l : list bb) : list ir_ins :=
  match l with
  | [] => []
  | b :: l => (if sccp_reach k then emit_block b else []) ++ emit_blocks (S k) l
  end.

(** [if (!reach[b] || live_only[b] >= 0) work = 1;] *)
Fixpoint any_work (k : nat) (l : list bb) : bool :=
  match l with
  | [] => false
  | b :: l => negb (sccp_reach k) || match live_only b with Some _ => true | None => false end || any_work (S k) l
  end.

Definition sccp_core : ir_func * bool :=
  if nins fn =? 0 then (fn, false)
  else if any_work 0 bs then (set_scope None (set_ins (emit_blocks 0 bs) fn), true)
  else (fn, false).
End Core.

Definition pass_sccp (fn : ir_func) : ir_func * bool := sccp_core fn true.
Definition drop_unreachable (fn : ir_func) : ir_func * bool := sccp_core fn false.

(** ** What is reached *)

Section Reach.
Context (fn : ir_func) (fold : bool).
Let bs := (build_cfg fn).1.

(** A label's block starts with the label. *)
Lemma l2b_block l k : l2b_of fn l = Some k -> exists s e i,
  spans fn !! k = Some (s, e) /\ ins fn !! s = Some i /\ i_op i = IR_LABEL /\ i_label i = l.
Proof.
  unfold l2b_of.
  assert (G : forall sp b m,
    (forall k s e, sp !! k = Some (s, e) -> spans fn !! (b + k)%nat = Some (s, e)) ->
    (forall l k, m l = Some k -> exists s e i, spans fn !! k = Some (s, e) /\
       ins fn !! s = Some i /\ i_op i = IR_LABEL /\ i_label i = l) ->
    forall l k, label_blocks fn b sp m l = Some k -> exists s e i, spans fn !! k = Some (s, e) /\
       ins fn !! s = Some i /\ i_op i = IR_LABEL /\ i_label i = l).
  { induction sp as [|[s e] sp IH]; intros b m Hsp Hm; simpl; [apply Hm|]. apply IH.
    - intros k' s' e' K. rewrite Nat.add_succ_l, <- Nat.add_succ_r. by apply Hsp.
    - intros l' k'. destruct (ins fn !! s) as [i|] eqn:I; [|apply Hm].
      destruct (_ && _) eqn:L; [|apply Hm]. unfold upd. destruct (Z.eqb_spec l' (i_label i)) as [->|]; [|apply Hm].
      intros [= <-]. apply andb_true_iff in L as [_ L]. unfold op_is in L. apply bool_decide_eq_true in L.
      exists s, e, i. split_and!; try done. rewrite <- (Nat.add_0_r b). by apply Hsp. }
  apply (G (spans fn) 0%nat (fun _ => None)); done.
Qed.

Lemma l2b_bound l k : l2b_of fn l = Some k -> (k < length (spans fn))%nat.
Proof. intros (s & e & i & K & _)%l2b_block. by eapply lookup_lt_Some. Qed.

Lemma succ_bound k t : t ∈ succ_of fn k -> (t < length (spans fn))%nat.
Proof.
  destruct (spans fn !! k) as [[s e]|] eqn:K.
  2: { unfold succ_of. replace (succs fn !! k) with (@None (list nat)); [by intros ?%elem_of_nil|].
       symmetry. apply lookup_ge_None. unfold succs. rewrite succs_from_length. by apply lookup_ge_None. }
  rewrite (succ_of_In fn k s e t K). unfold succ_targets.
  assert (To : forall l, t ∈ match l2b_of fn l with Some b => [b] | None => [] end -> (t < length (spans fn))%nat).
  { intros l. destruct (l2b_of fn l) eqn:E; [|by intros ?%elem_of_nil].
    intros ->%list_elem_of_singleton. by eapply l2b_bound. }
  assert (Nx : t ∈ (if (k + 1 <? length (spans fn))%nat then [(k + 1)%nat] else []) -> (t < length (spans fn))%nat).
  { destruct (Nat.ltb_spec (k + 1) (length (spans fn))); [by intros ->%list_elem_of_singleton | by intros ?%elem_of_nil]. }
  assert (Cc : forall (g : Z -> bool) ls, t ∈ concat (map (fun l => if g l then
    match l2b_of fn l with Some b => [b] | None => [] end else []) ls) -> (t < length (spans fn))%nat).
  { intros g ls H. apply list_elem_of_In, in_concat in H as (x & Hx & Ht). apply in_map_iff in Hx as (l & <- & _).
    destruct (g l); [|done]. apply (To l). by apply list_elem_of_In. }
  destruct (s <? e)%nat; [|by intros ?%elem_of_nil].
  destruct (ins fn !! (e - 1)%nat) as [i|]; [|by intros ?%elem_of_nil].
  destruct (i_op i); auto; try (by intros ?%elem_of_nil); try (by intros [?%To|?%Nx]%elem_of_app);
    try (apply To); intros H; by eapply Cc.
Qed.

Lemma bs_length : length bs = length (spans fn).
Proof.
  apply Nat.le_antisymm; apply Nat.nlt_ge; intros L; destruct (lookup_lt_is_Some_2 _ _ L) as [x X].
  - unfold bs in X. rewrite build_cfg_lookup in X. by rewrite (lookup_ge_None_2 (spans fn)) in X.
  - assert (E : (build_cfg fn).1 !! length bs = None) by (by apply lookup_ge_None).
    rewrite build_cfg_lookup, X in E. by destruct x.
Qed.

Lemma live_succ_In b k t : bs !! k = Some b -> t ∈ live_succ fn fold b -> t ∈ succ_of fn k.
Proof.
  unfold bs. rewrite build_cfg_lookup. destruct (spans fn !! k) as [[s e]|]; [|done]. intros [= <-].
  unfold live_succ. destruct (live_only _ _ _) as [j|]; [|done]. simpl.
  destruct (succ_of fn k !! j) eqn:E; [|by intros ?%elem_of_nil].
  intros ->%list_elem_of_singleton. by eapply list_elem_of_lookup_2.
Qed.

Lemma live_next_bound k t : t ∈ live_next fn fold k -> (t < length bs)%nat.
Proof.
  rewrite bs_length. unfold live_next. fold bs. destruct (bs !! k) as [b|] eqn:B; [|by intros ?%elem_of_nil].
  intros [H|H]%elem_of_app; [|by eapply succ_bound, live_succ_In].
  apply list_elem_of_In, in_concat in H as (x & Hx & Ht). apply in_map_iff in Hx as (n & <- & _).
  destruct (ins fn !! n) as [i|]; [|done]. destruct (_ && _); [|done].
  simpl in Ht. destruct (l2b_of fn (i_label i)) eqn:E; [|done]. simpl in Ht. destruct Ht as [<-|[]]. by eapply l2b_bound.
Qed.

Lemma spans_pos : (0 < length (spans fn))%nat.
Proof.
  assert (G : forall ld n m, (0 < length (spans_from n m ld))%nat).
  { induction ld as [|x ld IH]; intros n m; simpl; [lia|]. destruct x; simpl; [lia | apply IH]. }
  unfold spans. destruct (lead fn) as [|b ld]; [simpl; lia | apply G].
Qed.

(** The blocks kept are those a live edge, or the address of a label, leads to. *)
Lemma sccp_reach_spec k : sccp_reach fn fold k = true <-> rtc (fun x t => t ∈ live_next fn fold x) 0%nat k.
Proof.
  unfold sccp_reach. fold bs.
  assert (S0 : forall x, (x =? 0)%nat = true <-> x = 0%nat) by (intros x; apply Nat.eqb_eq).
  rewrite (search_spec (live_next fn fold) (length bs) live_next_bound (fun x => (x =? 0)%nat) [0%nat]).
  - split.
    + induction 1 as [x ->%S0|y x _ IH _ Hx]; [done|]. by eapply rtc_r.
    + revert k. apply (rtc_ind_r _ 0%nat); [by apply visited_start|].
      intros y z _ Hz IH. eapply visited_next; [exact IH | | done].
      destruct (Nat.eqb_spec y 0) as [->|]; [right; by left | by left].
  - by intros x ->%list_elem_of_singleton.
  - pose proof (unseen_all (length bs)) as U. pose proof spans_pos as P.
    rewrite (unseen_mark (length bs) _ 0) in U by (done || rewrite bs_length; done).
    rewrite (unseen_ext (length bs) _ (fun x => (x =? 0)%nat)) in U; [simpl; lia|].
    intros x. by destruct (x =? 0)%nat.
  - apply searching_start. by intros x ->%list_elem_of_singleton.
Qed.

Lemma reach_entry_block : sccp_reach fn fold 0 = true.
Proof. by apply sccp_reach_spec. Qed.

Lemma reach_live k b t : sccp_reach fn fold k = true -> bs !! k = Some b -> t ∈ live_succ fn fold b ->
  sccp_reach fn fold t = true.
Proof.
  intros R B Ht. apply sccp_reach_spec. apply sccp_reach_spec in R. eapply rtc_r; [exact R|].
  unfold live_next. fold bs. rewrite B. apply elem_of_app. by right.
Qed.
End Reach.

(** ** Instruction by instruction *)

Section Outs.
Context (fn : ir_func) (fold : bool).
Let bs := (build_cfg fn).1.
Let N := length (ins fn).

Definition jump_of (b : bb) (s : nat) : list ir_ins :=
  match ins fn !! (b_end b - 1)%nat, b_succ b !! s with
  | Some t, Some ls => live_jump fn t ls
  | _, _ => []
  end.

(** What each instruction of block [k] becomes. *)
Definition block_outs (k : nat) (b : bb) : list (list ir_ins) :=
  if sccp_reach fn fold k then
    match live_only fn fold b with
    | Some s => map (fun i => [i]) (copy_range fn (b_start b) (b_end b - 1)) ++ [jump_of b s]
    | None => map (fun i => [i]) (copy_range fn (b_start b) (b_end b))
    end
  else replicate (b_end b - b_start b) [].

Fixpoint all_outs (k : nat) (l : list bb) : list (list ir_ins) :=
  match l with [] => [] | b :: l => block_outs k b ++ all_outs (S k) l end.

Lemma concat_replicate_nil {A} n : concat (replicate n (@nil A)) = [].
Proof. by induction n. Qed.

Lemma all_outs_concat k l : concat (all_outs k l) = emit_blocks fn fold k l.
Proof.
  revert k. induction l as [|b l IH]; intros k; simpl; [done|]. rewrite concat_app, IH. f_equal.
  unfold block_outs, emit_block, jump_of. destruct (sccp_reach fn fold k); [|apply concat_replicate_nil].
  destruct (live_only fn fold b) as [s|].
  - rewrite concat_app, (concat_singles (fun i => i)), map_id. simpl. by rewrite app_nil_r.
  - rewrite (concat_singles (fun i => i)). by rewrite map_id.
Qed.

Definition span_of (b : bb) : nat * nat := (b_start b, b_end b).

Lemma bs_tiles : (0 < N)%nat -> tiles 0 (map span_of bs) N.
Proof.
  intros HN.
  replace (map span_of bs) with (spans fn); [by apply spans_tiles|].
  apply list_eq. intros k. unfold bs. rewrite list_lookup_fmap, build_cfg_lookup.
  by destruct (spans fn !! k) as [[? ?]|].
Qed.

Lemma block_outs_length k b : (b_start b < b_end b <= N)%nat -> length (block_outs k b) = (b_end b - b_start b)%nat.
Proof.
  intros Hb. unfold block_outs. destruct (sccp_reach fn fold k); [|by rewrite length_replicate].
  unfold copy_range. destruct (live_only fn fold b).
  - rewrite length_app, length_map, length_take, length_drop. simpl. fold N. lia.
  - rewrite length_map, length_take, length_drop. fold N. lia.
Qed.

Lemma all_outs_at from k l j b n : tiles from (map span_of l) N -> l !! j = Some b ->
  (b_start b <= n < b_end b)%nat ->
  all_outs k l !! (n - from)%nat = block_outs (k + j) b !! (n - b_start b)%nat.
Proof.
  revert from k j. induction l as [|x l IH]; intros from k j T E Hn; [done|]. simpl.
  pose proof (tiles_bounds _ _ _ 0 _ _ T eq_refl) as Bx. pose proof T as (Ex & Lx & T').
  assert (Ln : length (block_outs k x) = (b_end x - b_start x)%nat) by (apply block_outs_length; unfold N in *; lia).
  destruct j as [|j]; simpl in E.
  - simplify_eq. rewrite lookup_app_l by lia. by rewrite Nat.add_0_r.
  - assert (Bj : (b_end x <= b_start b)%nat).
    { eapply (tiles_bounds (b_end x) (map span_of l) N j); [exact T'|]. by rewrite list_lookup_fmap, E. }
    rewrite lookup_app_r by lia. rewrite Ln.
    replace (n - from - (b_end x - b_start x))%nat with (n - b_end x)%nat by lia.
    rewrite (IH (b_end x) (S k) j T' E Hn). f_equal. f_equal. lia.
Qed.

Lemma all_outs_length from k l : tiles from (map span_of l) N -> length (all_outs k l) = (N - from)%nat.
Proof.
  revert from k. induction l as [|x l IH]; intros from k T; simpl.
  - simpl in T. lia.
  - pose proof (tiles_bounds _ _ _ 0 _ _ T eq_refl) as Bx. pose proof T as (Ex & Lx & T').
    rewrite length_app, (IH (b_end x) (S k) T'), block_outs_length by (unfold N in *; lia). lia.
Qed.

Lemma copy_range_at s e n : (s <= n < e)%nat -> copy_range fn s e !! (n - s)%nat = ins fn !! n.
Proof.
  intros H. unfold copy_range. rewrite lookup_take_lt by lia. rewrite lookup_drop. f_equal. lia.
Qed.

(** What the instruction at [n], in block [k], becomes. *)
Lemma outs_at k b n i : bs !! k = Some b -> (b_start b <= n < b_end b)%nat -> ins fn !! n = Some i ->
  all_outs 0 bs !! n = Some (
    if sccp_reach fn fold k then
      match live_only fn fold b with
      | Some s => if (S n =? b_end b)%nat then jump_of b s else [i]
      | None => [i]
      end
    else []).
Proof.
  intros B Hn I. pose proof (lookup_lt_Some _ _ _ I) as HN.
  pose proof (all_outs_at 0 0 bs k b n (bs_tiles ltac:(unfold N; lia)) B Hn) as E. rewrite Nat.sub_0_r in E. rewrite E.
  cbn [Nat.add]. unfold block_outs. destruct (sccp_reach fn fold k); [|apply lookup_replicate_2; lia].
  destruct (live_only fn fold b) as [s|].
  - destruct (Nat.eqb_spec (S n) (b_end b)) as [En|En].
    + assert (Lc : length (map (fun i => [i]) (copy_range fn (b_start b) (b_end b - 1))) = (n - b_start b)%nat)
        by (rewrite length_map; unfold copy_range; rewrite length_take, length_drop; lia).
      by rewrite lookup_app_r, Lc, Nat.sub_diag by lia.
    + rewrite lookup_app_l.
      * rewrite list_lookup_fmap, copy_range_at by lia. by rewrite I.
      * rewrite length_map. unfold copy_range. rewrite length_take, length_drop. apply lookup_lt_Some in I. lia.
  - rewrite list_lookup_fmap, copy_range_at by lia. by rewrite I.
Qed.
End Outs.

(** ** The pass preserves the function *)

(** A branch on a constant that is an integer and fits the width it is tested at.
    ([sccp_narrow_branch] below is a branch where it does not.) *)
Definition branch_typed (fn : ir_func) (fold : bool) (t : ir_ins) : Prop :=
  match branch_const fn fold t with
  | Some c => i_flt c = false /\ word_ok (i_w c) = true /\ word_ok (i_w t) = true /\
      is_s (bits (i_w c)) (i_imm c) /\ is_s (bits (i_w t)) (i_imm c)
  | None => True
  end.
#[export] Instance branch_typed_dec fn fold t : Decision (branch_typed fn fold t).
Proof. unfold branch_typed. destruct (branch_const fn fold t); apply _. Defined.

Lemma word_bits w : word_ok w = true -> bits w = 32 \/ bits w = 64.
Proof.
  unfold word_ok, bits. destruct (Z.eqb_spec w 4), (Z.eqb_spec w 8); simpl; try done; intros _; lia.
Qed.

Lemma uwrap_zero w x : 0 < w -> is_s w x -> (uwrap w x =? 0) = (x =? 0).
Proof.
  unfold is_s, uwrap. intros Hw Hx. pose proof (pow2_half w Hw) as E.
  pose proof (Z.pow_pos_nonneg 2 (w - 1) ltac:(lia) ltac:(lia)) as P.
  apply eq_true_iff_eq. rewrite !Z.eqb_eq. split; [|intros ->; apply Z.mod_0_l; lia].
  intros H. apply Z.mod_divide in H as [q Hq]; [|lia]. rewrite E in Hq.
  revert Hq Hx P. clear. generalize (2 ^ (w - 1)) as p. intros p Hq Hx P.
  assert (q = 0) as -> by (destruct (Z.lt_trichotomy q 0) as [|[|]]; [nia | done | nia]). lia.
Qed.

Section Preserve.
Context {M : Machine}.
Context (fn : ir_func) (fold : bool).
Context (Hwf : wf_func fn) (Hl : labels_ok fn) (Heh : eh fn = []).
Context (Hesc : forall s, esc s = true -> 0 <= s < nvars fn).
Context (Hig : forall x l, igoto x = Some l -> l ∈ taken_labels fn).
Context (Hty : Forall (branch_typed fn fold) (ins fn)).
Let bs := (build_cfg fn).1.

(** What a branch on a constant does. *)
Lemma const_branch n t c e w : ins fn !! n = Some t -> known fn e -> branch_const fn fold t = Some c ->
  exec1 fn t e w = Bad \/
  exec1 fn t e w =
    (if (if op_is (i_op t) IR_BRZ then i_imm c =? 0 else negb (i_imm c =? 0))
     then Goto (i_label t) e w else Fall e w).
Proof using Hwf Hty.
  intros I [HC _] Bc. pose proof (Forall_lookup_1 _ _ _ _ Hty I) as T. unfold branch_typed in T.
  rewrite Bc in T. destruct T as (Fc & Wc & Wt & Rc & Rt). unfold branch_const in Bc.
  destruct (_ || _ || _ || _ || _) eqn:G; [done|].
  destruct (ins_at fn (d_ins (compute_defs fn) (i_a t))) as [c'|] eqn:Ic; [|done].
  unfold op_is in Bc at 1. destruct (bool_decide_reflect (i_op c' = IR_CONST)) as [Oc|]; [|done]. simplify_eq.
  rewrite !orb_false_iff, !negb_false_iff in G. destruct G as [[[[_ Ob] Ha] Hc] Hd].
  assert (R : reads t = [i_a t]).
  { rewrite reads_eq. unfold reads_spec. unfold op_is in Ob. by destruct (i_op t). }
  assert (Va : i_a t < nvregs fn).
  { destruct Hwf as [_ F]. destruct (Forall_lookup_1 _ _ _ _ F I) as [Wr _]. rewrite R in Wr. by inversion Wr. }
  unfold exec1. rewrite R. simpl. destruct (e (i_a t)) as [x|] eqn:Ex; [right|by left]. simpl.
  assert (x = i_imm c) as ->.
  { rewrite (HC (i_a t) (d_ins (compute_defs fn) (i_a t)) c x); try done.
    - unfold normw. apply swrap_small; [destruct (word_bits _ Wc); lia | done].
    - apply compute_defs_single; [lia | lia | done]. }
  assert (Z : is_zero t (i_imm c) = (i_imm c =? 0)).
  { unfold is_zero. rewrite Wt. apply uwrap_zero; [destruct (word_bits _ Wt); lia | done]. }
  unfold op_is in *. destruct (i_op t) eqn:O; try done; unfold computes, op_is; rewrite O; simpl; rewrite Z;
    by destruct (i_imm c =? 0).
Qed.

Definition sccp_match (n : nat) (es et : env) : Prop :=
  es = et /\ known fn es /\
  ((n < length (ins fn))%nat -> exists k b, bs !! k = Some b /\ (b_start b <= n < b_end b)%nat /\
     sccp_reach fn fold k = true).

Lemma bs_span k s e : spans fn !! k = Some (s, e) -> exists b, bs !! k = Some b /\
  b_start b = s /\ b_end b = e /\ b_succ b = succ_of fn k.
Proof. intros K. eexists. unfold bs. rewrite build_cfg_lookup, K. done. Qed.

Lemma span_bs k b : bs !! k = Some b -> spans fn !! k = Some (b_start b, b_end b) /\ b_succ b = succ_of fn k.
Proof.
  unfold bs. rewrite build_cfg_lookup. destruct (spans fn !! k) as [[s e]|]; [|done]. by intros [= <-].
Qed.

(** Arriving at the start of a reached block. *)
Lemma match_start k s e en : spans fn !! k = Some (s, e) -> (s < e)%nat -> sccp_reach fn fold k = true ->
  known fn en -> sccp_match s en en.
Proof.
  intros K L R Hk. split; [done|]. split; [done|]. intros _. destruct (bs_span k s e K) as (b & B & Bs & Be & _).
  exists k, b. split_and!; try done; lia.
Qed.

Lemma span_nonempty k s e : spans fn !! k = Some (s, e) -> (0 < length (ins fn))%nat -> (s < e)%nat.
Proof. intros K HN. by destruct (tiles_bounds _ _ _ _ _ _ (spans_tiles fn HN) K) as (_ & ? & _). Qed.

(** An instruction that is kept: where it goes is kept too. *)
Lemma kept_sim n i k b es w : ins fn !! n = Some i -> bs !! k = Some b -> (b_start b <= n < b_end b)%nat ->
  sccp_reach fn fold k = true -> known fn es -> (S n = b_end b -> live_only fn fold b = None) ->
  flow_sim fn sccp_match n (exec1 fn i es w) (exec1 fn i es w).
Proof using Hwf Hl Heh Hesc Hig.
  intros I B Hn R Hk Lo. pose proof (lookup_lt_Some _ _ _ I) as HN. destruct (span_bs k b B) as [K Sc].
  pose proof (exec1_edge fn Hl Hig Heh k _ _ n i es w K Hn I) as E.
  pose proof (known_exec1 fn Hwf Hesc n i es w I Hk) as Hk'.
  assert (Lv : S n = b_end b -> forall t, t ∈ succ_of fn k -> sccp_reach fn fold t = true).
  { intros En t Ht. apply (reach_live fn fold k b t R B). unfold live_succ. rewrite (Lo En). by rewrite Sc. }
  destruct (exec1 fn i es w) as [e' w'|l e' w'|o w'|]; simpl in *; try done.
  - exists e'. split; [done|]. destruct E as [E|[En Hx]].
    + split; [done|]. split; [done|]. intros _. exists k, b. split_and!; try done; lia.
    + destruct (Nat.lt_ge_cases (b_end b) (length (ins fn))) as [L|L].
      * destruct (Hx L) as (Ht & e2 & K2). rewrite En.
        apply (match_start (S k) _ e2); [done | eapply span_nonempty; [done|lia] | by apply Lv | done].
      * split; [done|]. split; [done|]. lia.
  - exists e'. split; [done|]. intros m L. destruct (E m L) as (En & k' & e2 & Ht & K2 & _).
    apply (match_start k' _ e2); [done | eapply span_nonempty; [done|lia] | by apply Lv | done].
Qed.

(** The two edges of a branch that ends a block. *)
Lemma taken_first k b t m : bs !! k = Some b -> (b_start b < b_end b)%nat ->
  ins fn !! (b_end b - 1)%nat = Some t -> i_op t = IR_BRZ \/ i_op t = IR_BRNZ ->
  label_pos fn (i_label t) = Some m ->
  exists k' e', b_succ b !! 0%nat = Some k' /\ spans fn !! k' = Some (m, e').
Proof using Hl.
  intros B L I O P. destruct (span_bs k b B) as [K ->]. unfold succ_of. rewrite (succs_lookup fn k _ _ K). simpl.
  unfold succ_targets. rewrite (proj2 (Nat.ltb_lt _ _) L), I.
  destruct (label_block fn Hl _ m P) as (k' & e' & B' & K' & _). exists k', e'. split; [|done].
  destruct O as [-> | ->]; rewrite B'; simpl; apply (prefix_lookup_Some [k'] _ 0 k' eq_refl); apply once_prefix.
Qed.

Lemma fall_second k b t ls : bs !! k = Some b -> (b_start b < b_end b)%nat ->
  ins fn !! (b_end b - 1)%nat = Some t -> i_op t = IR_BRZ \/ i_op t = IR_BRNZ ->
  b_succ b !! 1%nat = Some ls -> ls = S k /\ exists e', spans fn !! ls = Some (b_end b, e').
Proof.
  intros B L I O. destruct (span_bs k b B) as [K ->]. unfold succ_of. rewrite (succs_lookup fn k _ _ K). simpl.
  unfold succ_targets. rewrite (proj2 (Nat.ltb_lt _ _) L), I. pose proof (lookup_lt_Some _ _ _ I) as HN.
  assert (G : forall l, once [] (match l2b_of fn l with Some b0 => [b0] | None => [] end ++
      (if (k + 1 <? length (spans fn))%nat then [(k + 1)%nat] else [])) !! 1%nat = Some ls ->
    ls = S k /\ exists e', spans fn !! ls = Some (b_end b, e')).
  { intros l. destruct (Nat.ltb_spec (k + 1) (length (spans fn))) as [Lk|Lk].
    - destruct (lookup_lt_is_Some_2 (spans fn) (S k)) as [[s' e'] K']; [lia|].
      pose proof (tiles_next _ _ _ _ _ _ (spans_tiles fn ltac:(lia)) K) as Nx. rewrite K' in Nx. subst s'.
      destruct (l2b_of fn l) as [b0|]; simpl; [|done]. case_bool_decide; [done|]. simpl.
      intros [= <-]. rewrite Nat.add_1_r. eauto.
    - destruct (l2b_of fn l); done. }
  destruct O as [-> | ->]; apply G.
Qed.

Lemma live_jump_code t k s e h : spans fn !! k = Some (s, e) -> ins fn !! s = Some h ->
  live_jump fn t k =
  if (s <? e)%nat && op_is (i_op h) IR_LABEL
  then [set_loc (at_loc t (synth (i_loc t))) (set_label (i_label h) (set_op IR_JMP ins_blank))] else [].
Proof.
  intros K H. unfold live_jump. destruct (bs_span k s e K) as (b & B & Bs & Be & _). fold bs.
  by rewrite B, Bs, Be, H.
Qed.

(** A resolved branch: the jump, or nothing, goes where the branch goes. *)
Lemma resolved_sim n t k b s es w : ins fn !! n = Some t -> bs !! k = Some b ->
  (b_start b <= n)%nat -> S n = b_end b -> sccp_reach fn fold k = true -> known fn es ->
  live_only fn fold b = Some s -> after fn n (exec1 fn t es w) <> Wrong ->
  flow_sim fn sccp_match n (exec1 fn t es w) (exec_list fn (jump_of fn b s) es w) \/
  flow_jump fn sccp_match n (exec1 fn t es w) (exec_list fn (jump_of fn b s) es w).
Proof using Hwf Hl Hty.
  intros I B Hn En R Hk Lo NW. pose proof (lookup_lt_Some _ _ _ I) as HN.
  assert (L : (b_start b < b_end b)%nat) by lia.
  assert (It : ins fn !! (b_end b - 1)%nat = Some t) by (by rewrite <- En, Nat.sub_1_r).
  pose proof Lo as Lo'. unfold live_only in Lo. rewrite (proj2 (Nat.leb_gt _ _) L), It in Lo.
  destruct (branch_const fn fold t) as [c|] eqn:Bc; [|done].
  assert (O : i_op t = IR_BRZ \/ i_op t = IR_BRNZ).
  { unfold branch_const, op_is in Bc. destruct (bool_decide_reflect (i_op t = IR_BRZ)); [by left|].
    destruct (bool_decide_reflect (i_op t = IR_BRNZ)); [by right|]. by destruct fold. }
  destruct (const_branch n t c es w I Hk Bc) as [X|X]; rewrite X in *; [by left|].
  set (taken := if op_is (i_op t) IR_BRZ then i_imm c =? 0 else negb (i_imm c =? 0)) in *.
  destruct (Nat.ltb_spec (if taken then 0%nat else 1%nat) (length (b_succ b))) as [Lw|]; [|done].
  injection Lo as <-. destruct (lookup_lt_is_Some_2 _ _ Lw) as [ls Hs].
  assert (Rl : sccp_reach fn fold ls = true).
  { apply (reach_live fn fold k b ls R B). unfold live_succ. rewrite Lo', Hs. by left. }
  unfold jump_of. rewrite It, Hs. destruct taken; simpl in NW.
  - destruct (label_pos fn (i_label t)) as [m|] eqn:Lm; [|done].
    destruct (taken_first k b t m B L It O Lm) as (k' & e' & Hk0 & K'). rewrite Hs in Hk0. simplify_eq.
    destruct (label_pos_spec fn _ m Lm) as (h & Ih & Oh & Eh).
    pose proof (span_nonempty k' m e' K' ltac:(lia)) as Le.
    rewrite (live_jump_code t k' m e' h K' Ih), (proj2 (Nat.ltb_lt _ _) Le). unfold op_is. rewrite Oh, Eh.
    left. simpl. exists es. split; [done|]. intros m' Lm'. rewrite Lm in Lm'. injection Lm' as <-.
    by apply (match_start k' m e').
  - destruct (fall_second k b t ls B L It O Hs) as (-> & e' & K').
    pose proof (span_nonempty _ _ _ K' ltac:(lia)) as Le.
    pose proof (match_start (S k) (b_end b) e' es K' Le Rl Hk) as Ms. rewrite <- En in Ms.
    destruct (ins fn !! b_end b) as [h|] eqn:Ih.
    + rewrite (live_jump_code t (S k) (b_end b) e' h K' Ih), (proj2 (Nat.ltb_lt _ _) Le). simpl.
      unfold op_is. case_bool_decide as Oh; [right|left; simpl; eauto].
      exists (i_label h), es. split_and!; [done | rewrite En; by apply label_pos_unique | done].
    + left. unfold live_jump. destruct (bs_span _ _ _ K') as (b' & B' & Bs' & _). fold bs.
      rewrite B', Bs', Ih. simpl. eauto.
Qed.

Lemma sccp_sim : block_jump_sim fn (all_outs fn fold 0 bs) sccp_match.
Proof using Hwf Hl Heh Hesc Hig Hty.
  intros n i blk es et w I Bk (<- & Hk & Hr) NW. destruct (Hr ltac:(by apply lookup_lt_Some in I)) as (k & b & B & Hn & R).
  pose proof (outs_at fn fold k b n i B Hn I) as Out. fold bs in Out. rewrite Out, R in Bk. apply (inj Some) in Bk. subst blk.
  assert (Keep : (S n = b_end b -> live_only fn fold b = None) ->
    flow_sim fn sccp_match n (exec1 fn i es w) (exec_list fn [i] es w)).
  { intros Lo. pose proof (kept_sim n i k b es w I B Hn R Hk Lo) as Sm. simpl.
    destruct (exec1 fn i es w); simpl in *; done. }
  destruct (live_only fn fold b) as [s|] eqn:Lo; [|left; by apply Keep].
  destruct (Nat.eqb_spec (S n) (b_end b)) as [En|En]; [|left; by apply Keep].
  eapply resolved_sim; try done; lia.
Qed.

Lemma sccp_label_sub : Forall2 label_sub (ins fn) (all_outs fn fold 0 bs).
Proof using.
  clear Hty.
  apply Forall2_same_length_lookup_2.
  - destruct (ins fn) as [|i0 l0] eqn:E.
    + (* no instruction: one empty block *)
      unfold bs, build_cfg, succs, spans, lead. rewrite E. simpl.
      unfold block_outs. by destruct (sccp_reach fn fold 0).
    + rewrite <- E. rewrite (all_outs_length fn fold 0) by (apply bs_tiles; rewrite E; simpl; lia). lia.
  - intros n i blk I Bk. pose proof (lookup_lt_Some _ _ _ I) as HN.
    destruct (tiles_at _ _ _ n (spans_tiles fn ltac:(lia)) ltac:(lia)) as (k & s & e & K & Hn).
    destruct (bs_span k s e K) as (b & B & Bs & Be & _).
    pose proof (outs_at fn fold k b n i B ltac:(lia) I) as Out. fold bs in Out. rewrite Out in Bk. apply (inj Some) in Bk. subst blk.
    assert (Keep : label_sub i [i]).
    { right. unfold label_ok, op_is. case_bool_decide; [by eexists | by apply Forall_singleton]. }
    destruct (sccp_reach fn fold k); [|by left]. destruct (live_only fn fold b) as [s0|] eqn:Lo; [|done].
    destruct (Nat.eqb_spec (S n) (b_end b)) as [En|]; [|done].
    assert (It : ins fn !! (b_end b - 1)%nat = Some i) by (by rewrite <- En, Nat.sub_1_r).
    right. unfold label_ok, op_is. rewrite bool_decide_false.
    + unfold jump_of, live_jump. rewrite It. repeat case_match; try constructor; try done; constructor.
    + unfold live_only in Lo. destruct (_ <=? _)%nat; [done|]. rewrite It in Lo. unfold branch_const, op_is in Lo.
      intros O. rewrite O in Lo. by destruct fold.
Qed.

Lemma sccp_labels tgt : ins tgt = concat (all_outs fn fold 0 bs) ->
  labels_kept fn tgt (all_outs fn fold 0 bs) sccp_match.
Proof using.
  clear Hty.
  intros Ei l m es et L (_ & _ & Hr). destruct (label_pos_spec fn l m L) as (i & I & O & _).
  destruct (Hr ltac:(by apply lookup_lt_Some in I)) as (k & b & B & Hn & R).
  pose proof (outs_at fn fold k b m i B Hn I) as Out. fold bs in Out. rewrite R in Out.
  unfold label_pos. rewrite Ei, (label_from_sub l _ _ 0 0 m sccp_label_sub L); rewrite Nat.sub_0_r; [done|].
  rewrite Out. destruct (live_only fn fold b) as [s|] eqn:Lo; [|done].
  destruct (Nat.eqb_spec (S m) (b_end b)) as [En|]; [|done]. exfalso.
  assert (It : ins fn !! (b_end b - 1)%nat = Some i) by (by rewrite <- En, Nat.sub_1_r).
  unfold live_only in Lo. destruct (_ <=? _)%nat; [done|]. rewrite It in Lo. unfold branch_const, op_is in Lo.
  rewrite O in Lo. by destruct fold.
Qed.

Lemma sccp_preserves : preserves fn (sccp_core fn fold).1.
Proof using Hwf Hl Heh Hesc Hig Hty.
  unfold sccp_core. destruct (Z.eqb_spec (nins fn) 0) as [Z0|Z0]; [by apply preserves_same|].
  destruct (any_work fn fold 0 _); [|by apply preserves_same]. cbn [fst].
  apply (diagram_preserves fn _ (all_outs fn fold 0 bs) sccp_match); try done.
  - simpl. symmetry. apply all_outs_concat.
  - symmetry. eapply Forall2_length, sccp_label_sub.
  - apply sccp_labels. simpl. symmetry. apply all_outs_concat.
  - apply sccp_sim.
  - intros e He _. split; [done|]. split; [by apply known_entry|]. intros HN.
    pose proof (spans_tiles fn HN) as T. destruct (lookup_lt_is_Some_2 (spans fn) 0 (spans_pos fn)) as [[s1 e1] K1].
    destruct (bs_span 0 s1 e1 K1) as (b & B & Bs & Be & _). exists 0%nat, b.
    split_and!; [done| | |apply reach_entry_block];
      destruct (spans fn) as [|[s2 e2] sp]; try done; simpl in *; simplify_eq; lia.
Qed.
End Preserve.

(** ** Properties *)

(** [live_edge fn fold k t]: code of block [k] runs on into block [t], or takes the
    address of the label [t] starts with. *)
Definition live_edge (fn : ir_func) (fold : bool) (k t : nat) : Prop :=
  exists b, (build_cfg fn).1 !! k = Some b /\
    (t ∈ live_succ fn fold b \/
     exists n i, (b_start b <= n < b_end b)%nat /\ ins fn !! n = Some i /\ i_op i = IR_LABELADDR /\
       in_labels fn (i_label i) = true /\ (build_cfg fn).2 (i_label i) = Some t).

Lemma addr_blocks_In fn b t : t ∈ addr_blocks fn b <->
  exists n i, (b_start b <= n < b_end b)%nat /\ ins fn !! n = Some i /\ i_op i = IR_LABELADDR /\
    in_labels fn (i_label i) = true /\ (build_cfg fn).2 (i_label i) = Some t.
Proof.
  unfold addr_blocks. rewrite list_elem_of_In, in_concat. setoid_rewrite in_map_iff. setoid_rewrite in_seq. split.
  - intros (x & (n & <- & Hn) & Ht). destruct (ins fn !! n) as [i|] eqn:I; [|done].
    unfold op_is in Ht. destruct (bool_decide_reflect (i_op i = IR_LABELADDR)); [|done]. simpl in Ht.
    destruct (in_labels fn (i_label i)) eqn:L; [|done]. exists n, i. split_and!; try done; try lia.
    destruct (l2b_of fn (i_label i)) as [t'|] eqn:B; simpl in *; [|done]. by destruct Ht as [->|[]].
  - intros (n & i & Hn & I & O & L & B). eexists. split; [exists n; split; [reflexivity|lia]|].
    rewrite I. unfold op_is. rewrite bool_decide_true, L, B by done. by left.
Qed.

Lemma live_next_edge fn fold k t : t ∈ live_next fn fold k <-> live_edge fn fold k t.
Proof.
  unfold live_next, live_edge. destruct ((build_cfg fn).1 !! k) as [b|].
  - rewrite elem_of_app, addr_blocks_In. naive_solver.
  - split; [by intros ?%elem_of_nil | naive_solver].
Qed.



(** [drop_unreachable] preserves the function, whatever its branches test. *)
Theorem drop_unreachable_preserves {M : Machine} (fn : ir_func) :
  wf_func fn -> labels_ok fn -> eh fn = [] ->
  (forall s, esc s = true -> 0 <= s < nvars fn) ->
  (forall x l, igoto x = Some l -> l ∈ taken_labels fn) ->
  preserves fn (drop_unreachable fn).1.
Proof.
  intros Hwf Hl He Hs Hi. apply (sccp_preserves fn false); try done.
  apply Forall_forall. intros i _. done.
Qed.

(** ** Examples *)

Definition brz_ (a l : Z) : ir_ins := set_w 4 (set_label l (set_a a (set_op IR_BRZ ins_blank))).

(** [if (0) return 1; return 2;] and a block nothing reaches. *)
Definition const_if : ir_func :=
  Fn 0 0 3 2 [] [const_ 0 0; brz_ 0 0; const_ 1 1; ret_ 1; label_ 0; const_ 2 2; ret_ 2;
                 label_ 1; jmp_ 1] [] None [].


Lemma drop_unreachable_preserves_witness :
  preserves (M := still) const_if (drop_unreachable const_if).1 /\
  map i_op (ins (drop_unreachable const_if).1) =
    [IR_CONST; IR_BRZ; IR_CONST; IR_RET; IR_LABEL; IR_CONST; IR_RET].
Proof.
  split; [|vm_compute; reflexivity]. apply (drop_unreachable_preserves (M := still)).
  - apply (bool_decide_unpack (wf_func const_if)). vm_compute. exact I.
  - apply (bool_decide_unpack (labels_ok const_if)). vm_compute. exact I.
  - reflexivity.
  - discriminate.
  - discriminate.
Defined.

(** A constant of eight bytes tested at four: [long y = 1L << 32; if ((int)y) ...]. *)
Definition narrow_test : ir_func :=
  Fn 0 0 3 1 [] [set_w 8 (const_ 0 (2 ^ 32)); brz_ 0 0; const_ 1 1; ret_ 1; label_ 0; const_ 2 2; ret_ 2] [] None [].

