(* ===== verification/SccpPaths.v ===== *)
(** * What [sccp_core] keeps of a function

    The passes after [src/src/opt/sccp.c] in a round of the optimizer rely on
    the conditions irgen gave: operands in range, moves between temporaries, and
    temporaries written on every path before they are read. The result has fewer
    paths than the source: each of its paths is one of the source's, instruction
    by instruction, so all three are kept. *)
From stdpp Require Import base numbers list option sets relations.
From Stdlib Require Import ZArith Lia.
From S2P Require Import Prelude Ir Util IrSem Simulate Rename Paths CopyProp Cfg Emit Expand Sccp.

Local Open Scope Z_scope.

Lemma concat_lookup (blks : list (list ir_ins)) n blk i : blks !! n = Some blk -> blk = [i] ->
  concat blks !! offset blks n = Some i.
Proof.
  intros B ->. assert (E : concat blks = concat (take n blks) ++ i :: concat (drop (S n) blks)).
  { rewrite <- (take_drop_middle _ _ _ B) at 1. by rewrite concat_app. }
  rewrite E. unfold offset. rewrite lookup_app_r by done. by rewrite Nat.sub_diag.
Qed.

(** Where an instruction of the result comes from. *)
Lemma concat_origin (blks : list (list ir_ins)) m i : Forall (fun b => (length b <= 1)%nat) blks ->
  concat blks !! m = Some i -> exists n, blks !! n = Some [i] /\ m = offset blks n.
Proof.
  intros F. revert m. induction F as [|b blks Hb F IH]; intros m; simpl; [done|].
  destruct (Nat.lt_ge_cases m (length b)) as [L|L].
  - rewrite lookup_app_l by done. intros E. exists 0%nat. destruct b as [|x [|y b]]; simpl in *; try lia.
    destruct m as [|m]; [|lia]. simpl in E. by simplify_eq.
  - rewrite lookup_app_r by done. intros (n & B & E)%IH. exists (S n). split; [done|].
    unfold offset in *. simpl. rewrite length_app. lia.
Qed.

Section Keeps.
Context (fn : ir_func) (fold : bool).
Context (Hl : labels_ok fn) (Heh : eh fn = []).
Let bs := (build_cfg fn).1.
Let outs := all_outs fn fold 0 bs.

(** An instruction that stays: it is the source's, and its block is reached. *)
Definition stays (n : nat) : Prop := (n < length (ins fn))%nat ->
  exists k b, bs !! k = Some b /\ (b_start b <= n < b_end b)%nat /\ sccp_reach fn fold k = true.

Lemma block_at n : (n < length (ins fn))%nat -> exists k b, bs !! k = Some b /\ (b_start b <= n < b_end b)%nat.
Proof.
  intros HN. destruct (tiles_at _ _ _ n (spans_tiles fn ltac:(lia)) ltac:(lia)) as (k & s & e & K & Hn).
  destruct (bs_span fn k s e K) as (b & B & <- & <- & _). eauto.
Qed.

Lemma stays_start k s e : spans fn !! k = Some (s, e) -> sccp_reach fn fold k = true -> stays s.
Proof.
  intros K R HN. destruct (bs_span fn k s e K) as (b & B & Bs & Be & _). exists k, b. split_and!; try done; [lia|].
  rewrite Be. eapply (span_nonempty fn k); [done | lia].
Qed.

(** A resolved branch: what it jumps to. *)
Definition resolved (n : nat) (t : ir_ins) (k : nat) (b : bb) (ls : nat) : Prop :=
  bs !! k = Some b /\ S n = b_end b /\ ins fn !! n = Some t /\ (i_op t = IR_BRZ \/ i_op t = IR_BRNZ) /\
  sccp_reach fn fold ls = true /\ (l2b_of fn (i_label t) = Some ls \/ ls = S k).

(** What is left of an instruction of a reached block. *)
Lemma outs_cases n i k b : ins fn !! n = Some i -> bs !! k = Some b -> (b_start b <= n < b_end b)%nat ->
  sccp_reach fn fold k = true ->
  (outs !! n = Some [i] /\ (S n = b_end b -> live_only fn fold b = None)) \/
  exists ls, outs !! n = Some (live_jump fn i ls) /\ resolved n i k b ls.
Proof.
  intros I B Hn R. unfold outs, bs. rewrite (outs_at fn fold k b n i B Hn I), R.
  destruct (live_only fn fold b) as [s|] eqn:Lo; [|by left].
  destruct (Nat.eqb_spec (S n) (b_end b)) as [En|En]; [right | by left; split; [|lia]].
  assert (It : ins fn !! (b_end b - 1)%nat = Some i) by (by rewrite <- En, Nat.sub_1_r).
  destruct (span_bs fn k b B) as [K Sc].
  pose proof Lo as Lo'. unfold live_only in Lo. rewrite (proj2 (Nat.leb_gt _ _)) in Lo by lia. rewrite It in Lo.
  destruct (branch_const fn fold i) as [c|] eqn:Bc; [|done].
  set (want := if if op_is (i_op i) IR_BRZ then i_imm c =? 0 else negb (i_imm c =? 0) then 0%nat else 1%nat) in *.
  destruct (Nat.ltb_spec want (length (b_succ b))) as [Lw|]; [|done]. injection Lo as <-.
  destruct (lookup_lt_is_Some_2 _ _ Lw) as [ls Hs]. exists ls. split.
  { f_equal. unfold jump_of. by rewrite It, Hs. }
  assert (O : i_op i = IR_BRZ \/ i_op i = IR_BRNZ).
  { unfold branch_const, op_is in Bc. destruct (bool_decide_reflect (i_op i = IR_BRZ)); [by left|].
    destruct (bool_decide_reflect (i_op i = IR_BRNZ)); [by right|]. by destruct fold. }
  split_and!; try done.
  - apply (reach_live fn fold k b ls R B). unfold live_succ. rewrite Lo', Hs. by left.
  - assert (Hls : ls ∈ succ_of fn k) by (rewrite <- Sc; by eapply list_elem_of_lookup_2).
    apply (succ_of_In fn k _ _ ls K) in Hls. unfold succ_targets in Hls.
    rewrite (proj2 (Nat.ltb_lt _ _)), It in Hls by lia.
    assert (G : ls ∈ (match l2b_of fn (i_label i) with Some b0 => [b0] | None => [] end ++
      (if (k + 1 <? length (spans fn))%nat then [(k + 1)%nat] else [])) ->
      l2b_of fn (i_label i) = Some ls \/ ls = S k).
    { intros [H|H]%elem_of_app.
      - destruct (l2b_of fn (i_label i)); [|by apply elem_of_nil in H].
        apply list_elem_of_singleton in H as ->. by left.
      - right. destruct (_ <? _)%nat; [apply list_elem_of_singleton in H; lia | by apply elem_of_nil in H]. }
    destruct O as [O|O]; rewrite O in Hls; by apply G.
Qed.

Lemma outs_length : length outs = length (ins fn).
Proof. symmetry. eapply Forall2_length, sccp_label_sub. Qed.

Lemma outs_short : Forall (fun b => (length b <= 1)%nat) outs.
Proof.
  apply Forall_lookup. intros n blk B. pose proof (lookup_lt_Some _ _ _ B) as L.
  rewrite outs_length in L.
  destruct (lookup_lt_is_Some_2 _ _ L) as [i I]. destruct (block_at n L) as (k & b & Bk & Hn).
  unfold outs, bs in B. rewrite (outs_at fn fold k b n i Bk Hn I) in B. apply (inj Some) in B. subst blk.
  destruct (sccp_reach fn fold k); [|simpl; lia]. destruct (live_only fn fold b); [|simpl; lia].
  destruct (_ =? _)%nat; [|simpl; lia]. unfold jump_of, live_jump. repeat case_match; simpl; lia.
Qed.

Lemma live_jump_label t ls j : live_jump fn t ls = [j] ->
  exists s e h, spans fn !! ls = Some (s, e) /\ ins fn !! s = Some h /\ i_op h = IR_LABEL /\
    j = set_loc (at_loc t (synth (i_loc t))) (set_label (i_label h) (set_op IR_JMP ins_blank)).
Proof.
  unfold live_jump. fold bs. destruct (bs !! ls) as [b|] eqn:B; [|done]. destruct (span_bs fn ls b B) as [K _].
  destruct (ins fn !! b_start b) as [h|] eqn:I; [|done]. destruct (_ && _) eqn:L; [|done].
  intros [= <-]. apply andb_true_iff in L as [_ L]. unfold op_is in L. apply bool_decide_eq_true in L.
  exists (b_start b), (b_end b), h. done.
Qed.

(** An instruction that is nothing in the result is a resolved branch that falls. *)
Lemma gone_falls n i k b ls : outs !! n = Some [] -> outs !! n = Some (live_jump fn i ls) ->
  resolved n i k b ls -> stays (S n).
Proof.
  intros E E' (B & En & I & O & R & L). rewrite E in E'. apply (inj Some) in E'. symmetry in E'.
  intros HN. destruct (span_bs fn k b B) as [K _]. pose proof (lookup_lt_Some _ _ _ I) as Li.
  destruct L as [L| ->].
  - exfalso. destruct (l2b_block fn _ _ L) as (s & e & h & Ks & Ih & Oh & _).
    rewrite (live_jump_code fn i ls s e h Ks Ih) in E'.
    pose proof (span_nonempty fn ls s e Ks ltac:(lia)) as Le. rewrite (proj2 (Nat.ltb_lt _ _) Le) in E'.
    unfold op_is in E'. by rewrite Oh in E'.
  - pose proof (tiles_next _ _ _ _ _ _ (spans_tiles fn ltac:(lia)) K) as Nx. rewrite <- En in Nx.
    destruct (spans fn !! S k) as [[s' e']|] eqn:K'; [|lia]. subst s'. by eapply stays_start.
Qed.

Lemma branch_defs t nv : i_op t = IR_BRZ \/ i_op t = IR_BRNZ -> def_list nv t = [] /\ falls t = true.
Proof. unfold def_list, def_target, falls, op_is. intros [-> | ->]; done. Qed.

(** From a point of the source to the next instruction that is left. *)
Lemma settle D n i : reach fn D n -> stays n -> concat outs !! offset outs n = Some i ->
  exists n', reach fn D n' /\ stays n' /\ offset outs n' = offset outs n /\ outs !! n' = Some [i].
Proof.
  intros Hr Hs. remember (length (ins fn) - n)%nat as g eqn:G. revert n G Hr Hs.
  induction g as [|g IH]; intros n G Hr Hs Hi.
  { exfalso. apply lookup_lt_Some in Hi. unfold offset in Hi.
    rewrite take_ge in Hi by (rewrite outs_length; lia). lia. }
  destruct (lookup_lt_is_Some_2 (ins fn) n ltac:(lia)) as [t It].
  destruct (Hs ltac:(lia)) as (k & b & B & Hn & R).
  assert (One : forall j, outs !! n = Some [j] -> i = j).
  { intros j Oj. pose proof (concat_lookup outs n [j] j Oj eq_refl) as Ej. rewrite Hi in Ej. by injection Ej. }
  destruct (outs_cases n t k b It B Hn R) as [[Ot _]|(ls & Ot & Res)].
  - exists n. rewrite (One t Ot). done.
  - destruct (live_jump fn t ls) as [|j [|]] eqn:J.
    + pose proof (gone_falls n t k b ls Ot ltac:(by rewrite J) Res) as Sn.
      destruct Res as (_ & _ & _ & O & _ & _). destruct (branch_defs t (nvregs fn) O) as [Dt Ft].
      pose proof (offset_S outs n [] Ot) as Eo. rewrite Nat.add_0_r in Eo.
      destruct (IH (S n)) as (n' & Hr' & Hs' & E' & On); try done; [lia | | by rewrite Eo |].
      * pose proof (reach_fall fn D n t Hr It Ft) as H. by rewrite Dt in H.
      * exists n'. by rewrite <- Eo.
    + exists n. rewrite (One j Ot). done.
    + exfalso. pose proof (Forall_lookup_1 _ _ _ _ outs_short Ot). simpl in *. lia.
Qed.

(** An instruction left in the result is the source's, or the jump of a resolved branch. *)
Lemma stays_origin n i : outs !! n = Some [i] ->
  exists k b, bs !! k = Some b /\ (b_start b <= n < b_end b)%nat /\ sccp_reach fn fold k = true /\
  ((ins fn !! n = Some i /\ (S n = b_end b -> live_only fn fold b = None)) \/
   exists t ls, live_jump fn t ls = [i] /\ resolved n t k b ls).
Proof.
  intros On. pose proof (lookup_lt_Some _ _ _ On) as L. rewrite outs_length in L.
  destruct (lookup_lt_is_Some_2 _ _ L) as [t It]. destruct (block_at n L) as (k & b & B & Hn).
  exists k, b. assert (R : sccp_reach fn fold k = true).
  { pose proof On as Oc. unfold outs, bs in Oc. rewrite (outs_at fn fold k b n t B Hn It) in Oc.
    by destruct (sccp_reach fn fold k). }
  split_and!; try done; try lia. destruct (outs_cases n t k b It B Hn R) as [[Ot Lo]|(ls & Ot & Res)];
    rewrite On in Ot; apply (inj Some) in Ot.
  - left. injection Ot as ->. done.
  - right. eauto.
Qed.

Lemma stays_of n i : outs !! n = Some [i] -> stays n.
Proof. intros On _. destruct (stays_origin n i On) as (k & b & B & Hn & R & _). eauto. Qed.
(** ** The result's paths are the source's *)

Context (tgt : ir_func) (Hins : ins tgt = concat outs).
Context (Hjt : jt tgt = jt fn) (Heht : eh tgt = eh fn) (Hnv : nvregs tgt = nvregs fn).

(** Every instruction of the result is one of the source's, or a jump. *)
Lemma result_ins i : i ∈ ins tgt -> i ∈ ins fn \/ (i_op i = IR_JMP /\ reads i = [] /\ i_dst i = -1).
Proof using Hins.
  rewrite Hins. intros (m & Hm)%list_elem_of_lookup.
  destruct (concat_origin outs m i outs_short Hm) as (n & On & _).
  destruct (stays_origin n i On) as (k & b & _ & _ & _ & [[I _]|(t & ls & J & _)]).
  - left. by eapply list_elem_of_lookup_2.
  - right. by destruct (live_jump_label t ls i J) as (s & e & h & _ & _ & _ & ->).
Qed.

(** Where a label of the result is in the source. *)
Lemma result_label l m : label_pos tgt l = Some m ->
  exists n, label_pos fn l = Some n /\ m = offset outs n /\ stays n.
Proof using Hins Hl.
  intros (i & I & O & <-)%label_pos_spec. rewrite Hins in I.
  destruct (concat_origin outs m i outs_short I) as (n & On & ->). exists n.
  split_and!; [|done | by eapply stays_of].
  destruct (stays_origin n i On) as (k & b & _ & _ & _ & [[In _]|(t & ls & J & _)]).
  - by apply label_pos_unique.
  - exfalso. destruct (live_jump_label t ls i J) as (s & e & h & _ & _ & _ & ->). done.
Qed.

Lemma taken_sub l : l ∈ taken_labels tgt -> l ∈ taken_labels fn.
Proof using Hins.
  unfold taken_labels. intros (i & -> & (O & Hi)%list_elem_of_filter)%list_elem_of_fmap.
  destruct (result_ins i Hi) as [H|[O' _]]; [|by rewrite O in O'].
  apply list_elem_of_fmap. exists i. split; [done|]. by apply list_elem_of_filter.
Qed.

Lemma goto_sub i l : l ∈ goto_labels tgt i -> l ∈ goto_labels fn i.
Proof using Hins Hjt. unfold goto_labels. rewrite Hjt. destruct (i_op i); auto using taken_sub. Qed.

(** A resolved branch jumps where the branch can go. *)
Lemma resolved_reach D n t k b ls j m : reach fn D n -> resolved n t k b ls -> live_jump fn t ls = [j] ->
  label_pos fn (i_label j) = Some m -> reach fn D m.
Proof using Hl.
  intros Hr (B & En & I & O & R & L) J P. destruct (branch_defs t (nvregs fn) O) as [Dt Ft].
  destruct (live_jump_label t ls j J) as (s & e & h & Ks & Ih & Oh & ->). simpl in P.
  rewrite (label_pos_unique fn s h Hl Ih Oh) in P. injection P as <-. destruct L as [L| ->].
  - destruct (l2b_block fn _ _ L) as (s' & e' & h' & Ks' & Ih' & Oh' & El). rewrite Ks in Ks'. simplify_eq.
    eapply (reach_goto fn D n t (i_label t)); try done.
    + unfold goto_labels. destruct O as [-> | ->]; by left.
    + rewrite <- El. by apply label_pos_unique.
  - destruct (span_bs fn k b B) as [K _]. pose proof (lookup_lt_Some _ _ _ I) as Li.
    pose proof (tiles_next _ _ _ _ _ _ (spans_tiles fn ltac:(lia)) K) as Nx. rewrite Ks in Nx. subst s.
    rewrite <- En. pose proof (reach_fall fn D n t Hr I Ft) as H. by rewrite Dt in H.
Qed.

Lemma result_paths D m : reach tgt D m -> exists n, reach fn D n /\ m = offset outs n /\ stays n.
Proof using Hins Hjt Heht Hnv Hl Heh.
  induction 1 as [|D m i H IH I Fa|D m i l m' H IH I Hg L|D m i l m' H IH I Hu L].
  - exists 0%nat. split_and!; [constructor | done |]. intros HN.
    destruct (lookup_lt_is_Some_2 (spans fn) 0 (spans_pos fn)) as [[s e] K].
    pose proof (spans_tiles fn HN) as T. assert (s = 0%nat) as -> by (destruct (spans fn) as [|[? ?]]; try done; simpl in *; simplify_eq; lia).
    by apply (stays_start 0 0 e K (reach_entry_block fn fold)).
  - destruct IH as (n0 & Hr & -> & Hs). rewrite Hins in I.
    destruct (settle D n0 i Hr Hs I) as (n & Hr' & Hs' & <- & On). exists (S n).
    rewrite (offset_S outs n [i] On), Nat.add_1_r.
    destruct (stays_origin n i On) as (k & b & B & Hn & R & [[In Lo]|(t & ls & J & _)]).
    + rewrite Hnv. split_and!; [by apply reach_fall | done |]. intros HN.
      destruct (decide (S n = b_end b)) as [En|En]; [|exists k, b; split_and!; try done; lia].
      destruct (span_bs fn k b B) as [K Sc].
      destruct (fall_edge fn k _ _ i K) as (Hk & e' & K'); [by rewrite <- En, Nat.sub_1_r | done | lia |].
      rewrite En. rewrite En in HN. apply (stays_start (S k) _ e' K'); [|done].
      apply (reach_live fn fold k b (S k) R B). unfold live_succ. rewrite (Lo En). by rewrite Sc.
    + exfalso. destruct (live_jump_label t ls i J) as (s & e & h & _ & _ & _ & ->). done.
  - destruct IH as (n0 & Hr & -> & Hs). rewrite Hins in I.
    destruct (settle D n0 i Hr Hs I) as (n & Hr' & Hs' & _ & On).
    destruct (result_label l m' L) as (n' & L' & -> & Hs2). exists n'. split_and!; try done.
    destruct (stays_origin n i On) as (k & b & B & Hn & R & [[In Lo]|(t & ls & J & Res)]).
    + eapply reach_goto; [exact Hr' | exact In | by apply goto_sub | done].
    + destruct (live_jump_label t ls i J) as (s & e & h & _ & _ & _ & Ei).
      assert (l = i_label i) as -> by (rewrite Ei in Hg |- *; by apply list_elem_of_singleton in Hg).
      by apply (resolved_reach D n t k b ls i n').
  - exfalso. unfold unwind_label in Hu. rewrite Heht, Heh in Hu. by destruct (_ <=? 0).
Qed.

Lemma result_strict : nvars tgt = nvars fn -> strict fn -> strict tgt.
Proof using Hins Hjt Heht Hnv Hl Heh.
  intros Ev St D m i r Hr I Hi Hv. destruct (result_paths D m Hr) as (n0 & Hr0 & -> & Hs). rewrite Hins in I.
  destruct (settle D n0 i Hr0 Hs I) as (n & Hr' & _ & _ & On).
  destruct (stays_origin n i On) as (k & b & B & Hn & R & [[In Lo]|(t & ls & J & Res)]).
  - apply (St D n i r Hr' In Hi). by rewrite <- Ev.
  - exfalso. destruct (live_jump_label t ls i J) as (s & e & h & _ & _ & _ & ->). by apply elem_of_nil in Hi.
Qed.
End Keeps.

Lemma forall_result (P : ir_ins -> Prop) fn fold tgt : ins tgt = concat (all_outs fn fold 0 (build_cfg fn).1) ->
  Forall P (ins fn) -> (forall i, i_op i = IR_JMP -> reads i = [] -> i_dst i = -1 -> P i) -> Forall P (ins tgt).
Proof.
  intros Ei F HJ. rewrite Forall_forall in F |- *. intros i Hi.
  destruct (result_ins fn fold tgt Ei i Hi) as [H|(O & R & Dd)]; auto.
Qed.

(** [pass_sccp] and [drop_unreachable] keep what the passes after them rely on. *)
Lemma sccp_keeps fn fold : labels_ok fn -> eh fn = [] -> wf_func fn -> strict fn -> kinds_ok fn ->
  let tgt := (sccp_core fn fold).1 in
  wf_func tgt /\ strict tgt /\ kinds_ok tgt /\ nvars tgt = nvars fn /\ nvregs tgt = nvregs fn.
Proof.
  intros Hl He [Hb Hw] Hst Hk tgt. unfold tgt, sccp_core. destruct (nins fn =? 0); [done|].
  destruct (any_work fn fold 0 _); [|done]. cbn [fst].
  set (r := set_scope None _). assert (Ei : ins r = concat (all_outs fn fold 0 (build_cfg fn).1))
    by (symmetry; apply all_outs_concat).
  split_and!; try done.
  - split; [done|]. apply (forall_result _ fn fold r Ei Hw). intros i O R Dd. unfold wf_ins. rewrite R, Dd. split; [constructor | lia].
  - by apply (result_strict fn fold Hl He r Ei).
  - apply (forall_result _ fn fold r Ei Hk). intros i O R Dd. unfold names_slot, op_is. by rewrite O.
Qed.
