(* ===== verification/CfgClean.v ===== *)
(** * Cleaning the control-flow graph: [pass_cfgclean] of [src/src/opt/cfgclean.c]

    The pass sends a jump to a jump straight to where it ends, makes a branch to the
    next instruction a jump, decides branches from the constants of the block and
    from the branch just above, turns a branch around a jump into one branch, and
    sweeps: labels nothing names, jumps to the next instruction, code after a
    transfer. The pass's loops are kept apart, in the source's order; [dead[]] stands
    beside the instructions, as in the source, and is acted on at the end.

    Every loop leaves instructions in their places, so each is proved to preserve the
    function by the runs that meet ([Simulate.meet_preserves]), with what is marked
    dead read as an instruction that does nothing; the removal is the last step. *)
From stdpp Require Import base numbers list option.
From Stdlib Require Import ZArith Lia.
From S2P Require Import Prelude Ir Util IrSem Simulate Rename Paths CopyProp Cfg Fold Emit Expand Sccp.

Local Open Scope Z_scope.

(** ** The pass *)

Definition set_jt (tabs : list (list Z)) (fn : ir_func) : ir_func :=
  Fn (nparams fn) (nvars fn) (nvregs fn) (nlabels fn) (locals fn) (ins fn) tabs (var_scope fn) (eh fn).

Definition is_label (i : ir_ins) : bool := op_is (i_op i) IR_LABEL.
Definition is_branch (i : ir_ins) : bool := op_is (i_op i) IR_BRZ || op_is (i_op i) IR_BRNZ.

(** [i->op = IR_JMP; i->a = -1;] *)
Definition to_jmp (i : ir_ins) : ir_ins := set_a (-1) (set_op IR_JMP i).

(** Is [l] one of the labels the code starts with? The source's
    [while (m < fn->nins && fn->ins[m].op == IR_LABEL)]. *)
Fixpoint next_label (l : Z) (code : list ir_ins) : bool :=
  match code with
  | i :: code => is_label i && ((i_label i =? l) || next_label l code)
  | [] => false
  end.

(** *** Jumps to jumps *)

(** [at[l]]: where label [l] is. *)
Fixpoint labels_at (nl n : Z) (code : list ir_ins) (at_ : Z -> Z) : Z -> Z :=
  match code with
  | [] => at_
  | i :: code =>
      labels_at nl (n + 1) code
        (if is_label i && (0 <=? i_label i) && (i_label i <? nl) then upd at_ (i_label i) n else at_)
  end.

(** [last[n]]: the last of the run of labels at [n]. *)
Fixpoint last_labels (n : Z) (code : list ir_ins) : list Z :=
  match code with
  | [] => []
  | i :: code =>
      let rest := last_labels (n + 1) code in
      (match code, rest with
       | j :: _, x :: _ => if is_label i && is_label j then x else n
       | _, _ => n
       end) :: rest
  end.

(** [fwd[l]]: the label the block of [l] jumps to, if it does nothing else. *)
Definition fwd_init (fn : ir_func) (l : Z) : Z :=
  let n := labels_at (nlabels fn) 0 (ins fn) (fun _ => -1) l in
  if n <? 0 then -1
  else match last_labels 0 (ins fn) !! Z.to_nat n with
       | Some m => match ins_at fn (m + 1) with
                   | Some j => if op_is (i_op j) IR_JMP then i_label j else -1
                   | None => -1
                   end
       | None => -1
       end.

Fixpoint fwd_hop (hops : nat) (nl : Z) (fwd : Z -> Z) (t : Z) : Z :=
  match hops with
  | O => t
  | S hops =>
      if (0 <=? t) && (t <? nl) && (0 <=? fwd t) && negb (fwd t =? t)
      then fwd_hop hops nl fwd (fwd t) else t
  end.

Definition fwd_chains (nl : Z) (fwd : Z -> Z) : Z -> Z :=
  foldl (fun fwd l => upd fwd l (fwd_hop 16 nl fwd (fwd l))) fwd (seqZ 0 nl).

Definition fwd_cb (nl : Z) (fwd : Z -> Z) (p : Z) (changed : bool) : Z * bool :=
  if (p <? 0) || (nl <=? p) || (fwd p <? 0) || (fwd p =? p) then (p, changed) else (fwd p, true).

(** The loop over the instructions; the tables and the flag are its state. *)
Definition fwd_ins (nl : Z) (fwd : Z -> Z) (s : list (list Z) * bool) (i : ir_ins) (_ : list ir_ins)
  : (list (list Z) * bool) * ir_ins :=
  if op_is (i_op i) IR_JMP || is_branch i || op_is (i_op i) IR_SWITCH then
    let '(tabs, i, changed) := each_label (fwd_cb nl fwd) s.1 i s.2 in ((tabs, changed), i)
  else (s, i).

Definition forward_jumps (fn : ir_func) : ir_func * bool :=
  let f := fwd_ins (nlabels fn) (fwd_chains (nlabels fn) (fwd_init fn)) in
  let s := scan_end f (jt fn, false) (ins fn) in
  (set_jt s.1 (set_ins (scan f (jt fn, false) (ins fn)) fn), s.2).

(** *** A branch to the next instruction *)

Definition fall_ins (_ : unit) (i : ir_ins) (rest : list ir_ins) : unit * (ir_ins * bool) :=
  (tt, if is_branch i && next_label (i_label i) rest then (to_jmp i, true) else (i, false)).

Definition fall_branches (fn : ir_func) : ir_func * bool :=
  let r := scan fall_ins tt (ins fn) in (set_ins (map fst r) fn, existsb snd r).

(** *** Decided branches

    From here on an instruction goes with its [dead] mark; the second [bool] is
    [changed]. *)
Abbreviation cell := (ir_ins * bool)%type.

(** From the constants of the block, for a temporary with several definitions. *)
Definition lk_decide (fn : ir_func) (dd : defs) (lk : lkconst) (i : ir_ins) (_ : list ir_ins)
  : lkconst * (cell * bool) :=
  let once := (0 <=? i_a i) && (i_a i <? nvregs fn) && (d_cnt dd (i_a i) =? 1) && (0 <=? d_ins dd (i_a i)) &&
              match ins_at fn (d_ins dd (i_a i)) with Some c => op_is (i_op c) IR_CONST | None => false end in
  let out := match lk_get lk (i_a i) (i_w i) with
             | Some v =>
                 if negb (is_branch i) || once then ((i, false), false)
                 else if Bool.eqb (op_is (i_op i) IR_BRZ) (norm v (i_w i) =? 0) then ((to_jmp i, false), true)
                 else ((i, true), true)
             | None => ((i, false), false)
             end in
  (lk_note lk out.1.1, out).

Definition lk_branches (fn : ir_func) : list (cell * bool) :=
  scan (lk_decide fn (compute_defs fn)) (lk_init fn) (ins fn).

(** From the branch above on the same value: [last_cond], [last_op]. *)
Definition cond_decide (s : Z * ir_op) (c : cell) (_ : list cell) : (Z * ir_op) * (cell * bool) :=
  let '(i, dead) := c in
  if is_label i then ((-1, s.2), (c, false))
  else if dead then (s, (c, false))
  else
    let t := def_target i in
    let last_cond := if (0 <=? t) && (t =? s.1) then -1 else s.1 in
    if negb (is_branch i) then ((last_cond, s.2), (c, false))
    else if (0 <=? last_cond) && (i_a i =? last_cond) then
      if bool_decide (i_op i = s.2) then ((last_cond, s.2), ((i, true), true))
      else ((-1, s.2), ((to_jmp i, false), true))
    else ((i_a i, i_op i), (c, false)).

Definition cond_branches (l : list cell) : list (cell * bool) := scan cond_decide (-1, IR_JMP) l.

(** *** A branch around a jump *)

Definition ir_prob_flip (p : Z) : Z := if p =? 0 then 0 else 1002 - p.
Definition flip_branch (i : ir_ins) (l : Z) : ir_ins :=
  let o := i_loc i in
  set_label l (set_loc (Loc (line o) (col o) (synth o) (heat o) (swrap 16 (ir_prob_flip (prob o))))
    (set_op (if op_is (i_op i) IR_BRZ then IR_BRNZ else IR_BRZ) i)).

Definition invert_at (s : list cell * bool) (n : nat) : list cell * bool :=
  match s.1 !! n, s.1 !! S n with
  | Some (i, di), Some (j, dj) =>
      if negb di && negb dj && is_branch i && op_is (i_op j) IR_JMP && negb (i_label j =? i_label i) &&
         next_label (i_label i) (map fst (drop (S (S n)) s.1))
      then (<[n := (flip_branch i (i_label j), di)]> (<[S n := (set_label (i_label i) j, dj)]> s.1), true)
      else s
  | _, _ => s
  end.

Definition invert_branches (l : list cell) : list cell * bool := foldl invert_at (l, false) (seq 0 (length l)).

(** *** The sweep *)

(** [reached[l]]: named by an instruction, or a landing pad. *)
Definition reach_cb (nl p : Z) (r : Z -> bool) : Z * (Z -> bool) :=
  (p, if (0 <=? p) && (p <? nl) then upd r p true else r).
Definition reached_labels (fn : ir_func) (l : list ir_ins) : Z -> bool :=
  let nl := nlabels fn in
  let r := foldl (fun r i => (each_label (reach_cb nl) (jt fn) i r).2) (fun _ => false) l in
  foldl (fun r e => if (0 <=? lp_label e) && (lp_label e <? nl) then upd r (lp_label e) true else r) r (eh fn).

(** What a transfer marks up to the next label, [kill] carries. *)
Definition sweep_ins (nl : Z) (named : Z -> bool) (kill : bool) (c : cell) (rest : list cell) : bool * cell :=
  let '(i, dead) := c in
  let l := i_label i in
  if is_label i then
    (false, (i, dead || ((0 <=? l) && (l <? nl) && negb (named l))))
  else
    let dead := dead || kill || (op_is (i_op i) IR_JMP && next_label l (map fst rest)) in
    (kill || (op_is (i_op i) IR_JMP && negb dead) || op_is (i_op i) IR_RET || op_is (i_op i) IR_UD2 ||
       op_is (i_op i) IR_SWITCH,
     (i, dead)).

Definition sweep (fn : ir_func) (l : list cell) : list cell :=
  scan (sweep_ins (nlabels fn) (reached_labels fn (map fst l))) false l.

(** The instructions that stay, and [newpos[n]]. *)
Definition kept (l : list cell) : list ir_ins := map fst (filter (fun c => c.2 = false) l).
Definition kept_pos (l : list cell) (n : Z) : Z := Z.of_nat (length (kept (take (Z.to_nat n) l))).

Definition remove_dead (fn : ir_func) (l : list cell) : ir_func * bool :=
  if existsb snd l
  then (set_scope (remap_scopes (kept_pos l) (Z.of_nat (length l)) (var_scope fn)) (set_ins (kept l) fn), true)
  else (set_ins (map fst l) fn, false).

(** [no_lkconst] is [getenv("EMBCC_NO_LKCONST")]. *)
Definition pass_cfgclean (no_lkconst : bool) (fn : ir_func) : ir_func * bool :=
  if (nins fn =? 0) || (nlabels fn =? 0) then (fn, false)
  else
    let '(fn, c1) := forward_jumps fn in
    let '(fn, c2) := fall_branches fn in
    let lk := if no_lkconst then map (fun i => ((i, false), false)) (ins fn) else lk_branches fn in
    let cond := cond_branches (map fst lk) in
    let '(cells, c5) := invert_branches (map fst cond) in
    let '(fn, c6) := remove_dead fn (sweep fn cells) in
    (fn, c1 || c2 || existsb snd lk || existsb snd cond || c5 || c6).

(** ** Instructions in their places *)

Lemma op_is_true o o' : op_is o o' = true <-> o = o'.
Proof. unfold op_is. apply bool_decide_eq_true. Qed.

Lemma is_branch_spec i : is_branch i = true <-> i_op i = IR_BRZ \/ i_op i = IR_BRNZ.
Proof. unfold is_branch. by rewrite orb_true_iff, !op_is_true. Qed.

Lemma next_label_spec l n code : next_label l (drop n code) = true ->
  exists m i, (n <= m)%nat /\ code !! m = Some i /\ i_op i = IR_LABEL /\ i_label i = l /\
  forall k, (n <= k < m)%nat -> exists j, code !! k = Some j /\ i_op j = IR_LABEL.
Proof.
  remember (drop n code) as rest eqn:E. revert n E. induction rest as [|i rest IH]; intros n E; simpl; [done|].
  assert (I : code !! n = Some i) by (rewrite <- (Nat.add_0_r n), <- lookup_drop, <- E; done).
  intros [L H]%andb_true_iff. apply op_is_true in L. destruct (Z.eqb_spec (i_label i) l) as [<-|]; simpl in H.
  - exists n, i. split_and!; try done. intros k Hk. lia.
  - destruct (IH (S n)) as (m & j & Hm & J & O & Lj & Hk); [|done|].
    + rewrite <- Nat.add_1_r, <- drop_drop, <- E. done.
    + exists m, j. split_and!; try done; [lia|]. intros k [H1 H2].
      destruct (decide (k = n)) as [->|]; [by exists i | apply Hk; lia].
Qed.

(** The label an instruction is, kept. *)
Definition same_label (i i' : ir_ins) : Prop :=
  (i_op i = IR_LABEL <-> i_op i' = IR_LABEL) /\ (i_op i = IR_LABEL -> i_label i = i_label i').

#[export] Instance same_label_refl : Reflexive same_label.
Proof. by intros i. Qed.

Lemma label_from_same l n code code' : Forall2 same_label code code' -> label_from l n code' = label_from l n code.
Proof.
  intros F. revert n. induction F as [|i i' code code' [H1 H2] F IH]; intros n; simpl; [done|]. rewrite IH.
  unfold op_is. do 2 case_bool_decide; simpl; try tauto. by rewrite H2.
Qed.

Definition same_labels (fn fn' : ir_func) : Prop :=
  Forall2 same_label (ins fn) (ins fn') /\ nlabels fn' = nlabels fn.

Lemma label_pos_same fn fn' l : same_labels fn fn' -> label_pos fn' l = label_pos fn l.
Proof. intros [F _]. by apply label_from_same. Qed.

Lemma labels_ok_same fn fn' : same_labels fn fn' -> labels_ok fn -> labels_ok fn'.
Proof.
  intros [F Hn] [H1 H2]. split.
  - clear H2. revert H1. unfold in_labels. rewrite Hn. induction F as [|i i' l l' [Ho Hl] F IH]; [done|].
    intros [Hi H1]%Forall_cons_1. constructor; [|by apply IH]. intros O. rewrite <- Hl by tauto. apply Hi. tauto.
  - clear H1. assert (E : map i_label (filter (fun i => i_op i = IR_LABEL) (ins fn')) =
      map i_label (filter (fun i => i_op i = IR_LABEL) (ins fn))); [|by rewrite E].
    clear H2. induction F as [|i i' l l' [Ho Hl] F IH]; [done|]. rewrite !filter_cons.
    do 2 case_decide; simpl; try tauto. rewrite Hl by done. by f_equal.
Qed.

Lemma same_labels_map fn f : (forall i, same_label i (f i)) -> same_labels fn (set_ins (map f (ins fn)) fn).
Proof. intros H. split; [|done]. simpl. induction (ins fn); simpl; constructor; auto. Qed.

Section Silent.
Context {M : Machine}.

(** Labels, and what is marked dead. *)
Definition silent (i : ir_ins) : Prop := i_op i = IR_LABEL \/ i = ins_blank.

Lemma exec1_silent fn i e w : silent i -> exec1 fn i e w = Fall e w.
Proof.
  unfold exec1. intros [O| ->].
  - rewrite reads_eq. unfold reads_spec, computes, op_is. rewrite O. done.
  - done.
Qed.

Lemma run_silent fn n m e w : (n <= m)%nat ->
  (forall k, (n <= k < m)%nat -> exists i, ins fn !! k = Some i /\ silent i) ->
  exec (m - n) fn (Run n e w) = Run m e w.
Proof.
  intros Hm. remember (m - n)%nat as d eqn:D. revert n Hm D. induction d as [|d IH]; intros n Hm D H.
  - simpl. f_equal. lia.
  - destruct (H n ltac:(lia)) as (i & I & Si). simpl. rewrite I, exec1_silent by done. simpl.
    apply IH; [lia | lia|]. intros k Hk. apply H. lia.
Qed.

(** Falling through labels to one of them. *)
Lemma run_to_label fn n l e w : labels_ok fn -> next_label l (drop n (ins fn)) = true ->
  exists m, label_pos fn l = Some m /\ (n <= m)%nat /\ exec (m - n) fn (Run n e w) = Run m e w.
Proof.
  intros Hl (m & i & Hm & I & O & <- & Hk)%next_label_spec. exists m. split_and!; [|done|].
  - by apply label_pos_unique.
  - apply run_silent; [done|]. intros k H. destruct (Hk k H) as (j & J & Oj). exists j. split; [done | by left].
Qed.

(** Where a jump goes. *)
Definition goto (fn : ir_func) (l : Z) (e : env) (w : world) : config :=
  match label_pos fn l with Some m => Run m e w | None => Wrong end.

Lemma exec1_jmp fn i e w : i_op i = IR_JMP -> exec1 fn i e w = Goto (i_label i) e w.
Proof. intros O. unfold exec1. rewrite reads_eq. unfold reads_spec, computes, op_is. by rewrite O. Qed.

Lemma exec1_branch fn i e w : is_branch i = true -> exec1 fn i e w =
  match e (i_a i) with
  | Some x => if Bool.eqb (op_is (i_op i) IR_BRZ) (is_zero i x) then Goto (i_label i) e w else Fall e w
  | None => Bad
  end.
Proof.
  intros H%is_branch_spec. unfold exec1. rewrite reads_eq. unfold reads_spec, computes, op_is.
  destruct H as [O|O]; rewrite O; simpl; destruct (e (i_a i)); simpl; try done; by destruct (is_zero i _).
Qed.

Lemma exec1_switch fn i e w : i_op i = IR_SWITCH -> exec1 fn i e w =
  match e (i_a i) with Some x => Goto (switch_label fn i x) e w | None => Bad end.
Proof.
  intros O. unfold exec1. rewrite reads_eq. unfold reads_spec, computes, op_is. rewrite O. simpl.
  by destruct (e (i_a i)).
Qed.

(** A run that is not stuck is not at a branch on nothing. *)
Lemma safe_branch fn n i e w : safe fn (Run n e w) -> ins fn !! n = Some i -> is_branch i = true ->
  exists x, e (i_a i) = Some x.
Proof.
  intros S I B. pose proof (S 1%nat) as W. simpl in W. rewrite I, (exec1_branch _ _ _ _ B) in W.
  destruct (e (i_a i)); [by eexists | done].
Qed.
End Silent.

(** ** Jumps to jumps *)

Section Forward.
Context {M : Machine}.
Context (src : ir_func) (Hl : labels_ok src).

(** A jump to [l] goes on to [l'] and does nothing else. *)
Definition forwards (l l' : Z) : Prop := forall e w, exists k, goto src l' e w = exec k src (goto src l e w).

#[local] Instance forwards_preorder : PreOrder forwards.
Proof.
  split; [by intros l e w; exists O|]. intros l l' l'' H H' e w.
  destruct (H e w) as (k & E), (H' e w) as (k' & E'). exists (k + k')%nat. by rewrite exec_add, <- E, <- E'.
Qed.

Lemma labels_at_spec nl n code at_ l : labels_at nl n code at_ l = at_ l \/
  exists p i, code !! p = Some i /\ i_op i = IR_LABEL /\ i_label i = l /\ labels_at nl n code at_ l = n + Z.of_nat p.
Proof.
  revert n at_. induction code as [|i code IH]; intros n at_; simpl; [by left|].
  destruct (IH (n + 1) (if is_label i && (0 <=? i_label i) && (i_label i <? nl) then upd at_ (i_label i) n else at_))
    as [E|(p & j & J & O & L & E)].
  - rewrite E. destruct (is_label i && _ && _) eqn:B; [|by left]. unfold upd.
    destruct (Z.eqb_spec l (i_label i)) as [->|]; [|by left]. right. exists O, i. rewrite !andb_true_iff in B.
    destruct B as [[B%op_is_true _] _]. split_and!; try done. simpl. lia.
  - right. exists (S p), j. split_and!; try done. rewrite E. lia.
Qed.

Lemma last_labels_spec n code p m : last_labels n code !! p = Some m -> exists q, m = n + Z.of_nat q /\ (p <= q)%nat /\
  forall k, (p <= k < q)%nat -> exists i j, code !! k = Some i /\ code !! S k = Some j /\
    i_op i = IR_LABEL /\ i_op j = IR_LABEL.
Proof.
  revert n p m. induction code as [|i code IH]; intros n p m; [done|]. destruct p as [|p].
  - simpl. intros [= E]. assert (Own : m = n -> exists q, m = n + Z.of_nat q /\ (0 <= q)%nat /\
      forall k, (0 <= k < q)%nat -> exists x j, (i :: code) !! k = Some x /\ (i :: code) !! S k = Some j /\
        i_op x = IR_LABEL /\ i_op j = IR_LABEL) by (intros ->; exists O; split_and!; lia || (intros; lia)).
    destruct code as [|j code]; [by apply Own|]. destruct (last_labels (n + 1) (j :: code)) as [|x rest] eqn:R; [by apply Own|].
    destruct (is_label i && is_label j) eqn:B; [|by apply Own]. apply andb_true_iff in B as [Bi%op_is_true Bj%op_is_true].
    subst x. destruct (IH (n + 1) O m) as (q & -> & _ & Hq); [by rewrite R|]. exists (S q). split_and!; [lia | lia|].
    intros [|k] Hk; [by exists i, j|]. apply (Hq k). lia.
  - simpl. intros E. destruct (IH (n + 1) p m E) as (q & -> & Hq & H). exists (S q). split_and!; [lia | lia|].
    intros [|k] Hk; [lia|]. apply (H k). lia.
Qed.

Lemma fwd_init_leads l : 0 <= fwd_init src l -> forwards l (fwd_init src l).
Proof using Hl.
  unfold fwd_init. destruct (labels_at_spec (nlabels src) 0 (ins src) (fun _ => -1) l) as [-> |(p & i & I & O & <- & ->)];
    [simpl; lia|].
  destruct (Z.ltb_spec (0 + Z.of_nat p) 0); [lia|]. rewrite Z.add_0_l, Nat2Z.id.
  destruct (last_labels 0 (ins src) !! p) as [m|] eqn:Lm; [|lia].
  destruct (last_labels_spec 0 _ p m Lm) as (q & -> & Hq & Hk). rewrite Z.add_0_l.
  unfold ins_at. destruct (Z.ltb_spec (Z.of_nat q + 1) 0); [lia|]. replace (Z.to_nat (Z.of_nat q + 1)) with (S q) by lia.
  destruct (ins src !! S q) as [j|] eqn:J; [|lia]. destruct (op_is (i_op j) IR_JMP) eqn:Oj; [|lia].
  apply op_is_true in Oj. intros _ e w. exists ((S q - p) + 1)%nat.
  unfold goto at 2. rewrite (label_pos_unique src p i Hl I O), exec_add.
  assert (Run_ : exec (S q - p) src (Run p e w) = Run (S q) e w).
  { apply run_silent; [lia|]. intros k Hb. destruct (decide (k = p)) as [->|Nk]; [exists i; split; [done | by left]|].
    destruct (Hk (k - 1)%nat) as (x & y & _ & Y & _ & Oy); [lia|]. replace (S (k - 1)) with k in Y by lia.
    exists y. split; [done | by left]. }
  rewrite Run_. simpl. rewrite J, (exec1_jmp src j e w Oj). done.
Qed.

Lemma fwd_hop_leads hops nl fwd t : (forall l, 0 <= fwd l -> forwards l (fwd l)) -> forwards t (fwd_hop hops nl fwd t).
Proof.
  intros H. revert t. induction hops as [|h IH]; intros t; simpl; [done|].
  destruct (_ && _) eqn:B; [|done]. rewrite !andb_true_iff in B. etransitivity; [apply H; lia | apply IH].
Qed.

Lemma fwd_hop_none hops nl fwd t : t < 0 -> fwd_hop hops nl fwd t = t.
Proof. intros H. destruct hops; simpl; [done|]. by destruct (Z.leb_spec 0 t); [lia|]. Qed.

Lemma fwd_chains_leads nl fwd l : (forall l, 0 <= fwd l -> forwards l (fwd l)) ->
  0 <= fwd_chains nl fwd l -> forwards l (fwd_chains nl fwd l).
Proof.
  unfold fwd_chains. generalize 16%nat as h. intros h. revert fwd. induction (seqZ 0 nl) as [|x xs IH]; intros fwd H; simpl; [apply H|].
  apply IH. intros l'. unfold upd. destruct (Z.eqb_spec l' x) as [->|]; [|apply H].
  destruct (Z.leb_spec 0 (fwd x)) as [P|P].
  - intros _. etransitivity; [by apply H | by apply fwd_hop_leads].
  - rewrite fwd_hop_none by done. lia.
Qed.

Let nl := nlabels src.
Let fwd := fwd_chains nl (fwd_init src).

Lemma fwd_cb_leads p s : forwards p (fwd_cb nl fwd p s).1.
Proof using Hl.
  unfold fwd_cb. destruct (_ || _) eqn:B; simpl; [done|]. rewrite !orb_false_iff in B.
  apply fwd_chains_leads; [apply fwd_init_leads | fold nl fwd; lia].
Qed.

Lemma at_labels_leads tab s : Forall2 forwards tab (at_labels (fwd_cb nl fwd) tab s).1.
Proof using Hl.
  revert s. induction tab as [|l tab IH]; intros s; simpl; [constructor|].
  pose proof (fwd_cb_leads l s) as H. destruct (fwd_cb nl fwd l s) as [l' s']. specialize (IH s').
  destruct (at_labels (fwd_cb nl fwd) tab s') as [tab' s'']. by constructor.
Qed.

(** The tables and instructions as forwarded so far. *)
Definition tabs_lead (tabs : list (list Z)) : Prop := forall k, Forall2 forwards (jt src !!! k) (tabs !!! k).
Definition jumps_to (i : ir_ins) : bool := op_is (i_op i) IR_JMP || is_branch i || op_is (i_op i) IR_SWITCH.
Definition ins_leads (i i' : ir_ins) : Prop :=
  if jumps_to i then exists l, forwards (i_label i) l /\ i' = set_label l i else i' = i.

Lemma tabs_lead_insert tabs k tab : tabs_lead tabs -> Forall2 forwards (tabs !!! k) tab -> tabs_lead (<[k := tab]> tabs).
Proof.
  intros H Ht k'. destruct (decide (k < length tabs)%nat) as [L|L]; [|rewrite list_insert_ge by lia; apply H].
  destruct (decide (k' = k)) as [->|N]; [|rewrite list_lookup_total_insert_ne by done; apply H].
  rewrite list_lookup_total_insert_eq by done. eapply (transitivity (R := Forall2 forwards)); [apply H | done].
Qed.

Lemma fwd_ins_leads s i rest : tabs_lead s.1 ->
  tabs_lead (fwd_ins nl fwd s i rest).1.1 /\ ins_leads i (fwd_ins nl fwd s i rest).2.
Proof using Hl.
  intros H. unfold fwd_ins, ins_leads. fold (jumps_to i). destruct (jumps_to i) eqn:B; [|done]. unfold each_label.
  pose proof (fwd_cb_leads (i_label i) s.2) as L. destruct (fwd_cb nl fwd (i_label i) s.2) as [l c].
  pose proof (at_labels_leads (s.1 !!! Z.to_nat (i_jt i)) c) as T.
  destruct (at_labels (fwd_cb nl fwd) (s.1 !!! Z.to_nat (i_jt i)) c) as [tab c'].
  unfold jumps_to, is_branch, op_is in B. destruct (i_op i); try done; simpl; (split; [by try apply tabs_lead_insert | eauto]).
Qed.

Lemma fwd_scan_leads n : tabs_lead (scan_state (fwd_ins nl fwd) (jt src, false) (ins src) n).1.
Proof using Hl.
  induction n as [|n IH].
  - destruct (ins src); simpl; intros k; reflexivity.
  - destruct (ins src !! n) as [i|] eqn:I.
    + rewrite (scan_state_S _ _ _ n i I). by apply fwd_ins_leads.
    + assert (E : scan_state (fwd_ins nl fwd) (jt src, false) (ins src) (S n) =
        scan_state (fwd_ins nl fwd) (jt src, false) (ins src) n); [|by rewrite E].
      clear IH. revert n I. generalize (jt src, false). induction (ins src) as [|x l IHl]; intros s n I; [by destruct n|].
      destruct n as [|n]; [done|]. simpl. by apply IHl.
Qed.
End Forward.

(** ** Steps of the result *)

Section Steps.
Context {M : Machine}.

(** An instruction that is not a switch needs of its function only the landing
    pads. *)
Lemma exec1_same fn fn' i e w : i_op i <> IR_SWITCH -> eh fn' = eh fn -> exec1 fn' i e w = exec1 fn i e w.
Proof. intros N He. unfold exec1, exec_ext. rewrite He. by destruct (i_op i). Qed.

Lemma after_same fn fn' n f : same_labels fn fn' -> after fn' n f = after fn n f.
Proof. intros S. destruct f; simpl; try done. by rewrite (label_pos_same fn fn'). Qed.

Lemma step_at fn n i e w : ins fn !! n = Some i -> step fn (Run n e w) = after fn n (exec1 fn i e w).
Proof. intros I. simpl. by rewrite I. Qed.

Lemma goto_same fn fn' l e w : same_labels fn fn' -> goto fn' l e w = goto fn l e w.
Proof. intros S. unfold goto. by rewrite (label_pos_same fn fn'). Qed.

(** The end is the end. *)
Lemma step_end fn fn' n e w : length (ins fn') = length (ins fn) -> ins fn !! n = None ->
  step fn' (Run n e w) = step fn (Run n e w).
Proof.
  intros L I. simpl. rewrite I. apply lookup_ge_None in I. by rewrite (lookup_ge_None_2 (ins fn')) by lia.
Qed.
End Steps.

Section ForwardPreserves.
Context {M : Machine}.
Context (src : ir_func) (Hl : labels_ok src).
Let tgt := (forward_jumps src).1.

Lemma forward_at n i : ins src !! n = Some i -> exists i', ins tgt !! n = Some i' /\ ins_leads src i i'.
Proof using Hl.
  intros I. unfold tgt, forward_jumps. cbn [ins set_jt set_ins fst]. rewrite scan_lookup, I. eexists.
  split; [done|]. apply (fwd_ins_leads src Hl). by apply fwd_scan_leads.
Qed.

Lemma forward_length : length (ins tgt) = length (ins src).
Proof. unfold tgt, forward_jumps. cbn [ins set_jt set_ins fst]. apply scan_length. Qed.

Lemma ins_leads_label i i' : ins_leads src i i' -> same_label i i'.
Proof.
  unfold ins_leads, jumps_to, is_branch, op_is. destruct (_ || _) eqn:B; [|by intros ->]. intros (l & _ & ->).
  assert (O : i_op (set_label l i) = i_op i) by (by destruct i). split; rewrite ?O; [done|].
  intros L. by rewrite L in B.
Qed.

Lemma forward_labels : same_labels src tgt.
Proof using M Hl.
  split; [|done]. apply Forall2_same_length_lookup. split; [by rewrite forward_length|]. intros n i i' I I'.
  destruct (forward_at n i I) as (i2 & I2 & L). simplify_eq. by apply ins_leads_label.
Qed.

Lemma switch_leads i i' x : i_jt i' = i_jt i -> i_w i' = i_w i -> forwards src (i_label i) (i_label i') ->
  forwards src (switch_label src i x) (switch_label tgt i' x).
Proof using Hl.
  intros Ej Ew Li. unfold switch_label. rewrite Ej, Ew.
  pose proof (fwd_scan_leads src Hl (length (ins src)) (Z.to_nat (i_jt i))) as T.
  change (scan_state _ _ _ _) with
    (scan_end (fwd_ins (nlabels src) (fwd_chains (nlabels src) (fwd_init src))) (jt src, false) (ins src)) in T.
  change ((scan_end _ _ _).1) with (jt tgt) in T.
  destruct ((jt src !!! Z.to_nat (i_jt i)) !! Z.to_nat (uwrap (bits (i_w i)) x)) as [l|] eqn:E.
  - destruct (Forall2_lookup_l _ _ _ _ _ T E) as (l' & E' & L). by rewrite E'.
  - apply lookup_ge_None in E. pose proof (Forall2_length T) as Tl. rewrite Tl in E. by rewrite (lookup_ge_None_2 _ _ E).
Qed.

(** Where both jump, the result's label is one the source's forwards to. *)
Lemma forward_goto n l l' e w k : forwards src l l' -> exec k src (Run n e w) = goto src l e w ->
  exists k', (k <= k')%nat /\ goto tgt l' e w = exec k' src (Run n e w).
Proof using Hl.
  intros L E. rewrite (goto_same src tgt) by apply forward_labels. destruct (L e w) as (j & Ej).
  exists (k + j)%nat. split; [lia|]. by rewrite exec_add, E.
Qed.

Lemma forward_preserves : preserves src tgt.
Proof using Hl.
  apply catch_up_preserves; [done|]. intros n e w _ _. destruct (ins src !! n) as [i|] eqn:I.
  2: { exists 1%nat. split; [lia|]. apply step_end; [apply forward_length | done]. }
  destruct (forward_at n i I) as (i' & I' & L). unfold ins_leads in L. destruct (jumps_to i) eqn:B.
  2: { exists 1%nat. split; [lia|]. cbn [exec]. subst i'. rewrite !(step_at _ n i) by done.
       rewrite (after_same src tgt) by apply forward_labels. rewrite (exec1_same src tgt); try done. by intros O; unfold jumps_to, is_branch, op_is in B; rewrite O in B. }
  destruct L as (l & L & ->). rewrite (step_at tgt n _ _ _ I').
  assert (F : i_op (set_label l i) = i_op i /\ i_a (set_label l i) = i_a i /\ i_w (set_label l i) = i_w i /\
    i_jt (set_label l i) = i_jt i /\ i_label (set_label l i) = l) by (by destruct i).
  destruct F as (Fo & Fa & Fw & Fj & Fl).
  assert (J : forall l1 l2, exec1 src i e w = Goto l1 e w -> forwards src l1 l2 ->
    exists k, (1 <= k)%nat /\ after tgt n (Goto l2 e w) = exec k src (Run n e w)).
  { intros l1 l2 E1 L12. apply (forward_goto n l1); [done|]. simpl. by rewrite I, E1. }
  assert (Eq : forall f, exec1 src i e w = f -> exists k, (1 <= k)%nat /\ after tgt n f = exec k src (Run n e w)).
  { intros f E. exists 1%nat. split; [lia|]. cbn [exec]. rewrite (step_at src n i), E by done.
    apply after_same, forward_labels. }
  unfold jumps_to in B. rewrite !orb_true_iff, !op_is_true in B. destruct B as [[O|O]|O].
  - rewrite (exec1_jmp tgt) by congruence. rewrite Fl. apply (J (i_label i) l); [by apply exec1_jmp | done].
  - assert (O' : is_branch (set_label l i) = true) by (unfold is_branch in *; by rewrite Fo).
    rewrite (exec1_branch src i e w O) in J, Eq.
    rewrite (exec1_branch tgt _ e w O'). unfold is_zero in *. rewrite Fo, Fa, Fw, Fl in *.
    destruct (e (i_a i)) as [x|]; [|by apply Eq]. destruct (Bool.eqb _ _); [by eapply J | by apply Eq].
  - rewrite (exec1_switch src i e w O) in J, Eq. rewrite (exec1_switch tgt _ e w (eq_trans Fo O)), Fa.
    destruct (e (i_a i)) as [x|]; [|by apply Eq]. eapply J; [done|]. by apply switch_leads; rewrite ?Fl.
Qed.
End ForwardPreserves.

(** ** Instructions replaced in place *)

Section InPlace.
Context {M : Machine}.

(** What stands for an instruction marked dead while the others keep their places. *)
Definition nop_dead (c : cell) : ir_ins := if c.2 then ins_blank else c.1.
Definition with_cells (fn : ir_func) (l : list cell) : ir_func := set_ins (map nop_dead l) fn.

(** Running [i'] at [n] is one or more steps of the source. *)
Definition does (src : ir_func) (n : nat) (i' : ir_ins) (e : env) (w : world) : Prop :=
  exists k, (1 <= k)%nat /\ after src n (exec1 src i' e w) = exec k src (Run n e w).

Lemma does_own src n i e w : ins src !! n = Some i -> does src n i e w.
Proof. intros I. exists 1%nat. split; [lia|]. cbn [exec]. by rewrite (step_at src n i). Qed.

Lemma in_place_preserves src tgt : nvars tgt = nvars src -> jt tgt = jt src -> eh tgt = eh src ->
  same_labels src tgt ->
  (forall n i i' e w, ins src !! n = Some i -> ins tgt !! n = Some i' ->
     reached src (Run n e w) -> safe src (Run n e w) -> does src n i' e w) ->
  preserves src tgt.
Proof.
  intros Hn Hj He Hs H. apply catch_up_preserves; [done|]. intros n e w R S.
  destruct (ins src !! n) as [i|] eqn:I.
  - destruct (Forall2_lookup_l _ _ _ _ _ (proj1 Hs) I) as (i' & I' & _).
    destruct (H n i i' e w I I' R S) as (k & Hk & E). exists k. split; [done|].
    rewrite (step_at tgt n i'), (exec1_indep tgt src), (after_same src tgt) by done. done.
  - exists 1%nat. split; [lia|]. apply step_end; [|done]. symmetry. apply (Forall2_length (proj1 Hs)).
Qed.

(** A branch whose way is known: a jump, or nothing. *)
Lemma does_jmp src n i x e w : ins src !! n = Some i -> is_branch i = true -> e (i_a i) = Some x ->
  Bool.eqb (op_is (i_op i) IR_BRZ) (is_zero i x) = true -> does src n (to_jmp i) e w.
Proof.
  intros I B X T. exists 1%nat. split; [lia|]. cbn [exec]. rewrite (step_at src n i) by done.
  rewrite (exec1_branch src i), X, T by done. rewrite exec1_jmp; by destruct i.
Qed.

Lemma does_nothing src n i x e w : ins src !! n = Some i -> is_branch i = true -> e (i_a i) = Some x ->
  Bool.eqb (op_is (i_op i) IR_BRZ) (is_zero i x) = false -> does src n ins_blank e w.
Proof.
  intros I B X T. exists 1%nat. split; [lia|]. cbn [exec]. rewrite (step_at src n i) by done.
  by rewrite (exec1_branch src i), X, T by done.
Qed.

(** A branch into the labels that follow it is a jump. *)
Lemma does_fall src n i e w : labels_ok src -> ins src !! n = Some i -> is_branch i = true ->
  next_label (i_label i) (drop (S n) (ins src)) = true -> safe src (Run n e w) -> does src n (to_jmp i) e w.
Proof.
  intros Hl I B Hx S. destruct (safe_branch src n i e w S I B) as (x & X).
  destruct (Bool.eqb (op_is (i_op i) IR_BRZ) (is_zero i x)) eqn:T; [by eapply does_jmp|].
  destruct (run_to_label src (Datatypes.S n) (i_label i) e w Hl Hx) as (m & Lm & Hm & E).
  exists (1 + (m - Datatypes.S n))%nat. split; [lia|]. rewrite exec_add. cbn [exec]. rewrite (step_at src n i) by done.
  rewrite (exec1_branch src i), X, T by done. cbn [after]. rewrite E.
  rewrite exec1_jmp by (by destruct i). simpl. replace (i_label (to_jmp i)) with (i_label i) by (by destruct i).
  by rewrite Lm.
Qed.
End InPlace.

Lemma to_jmp_label i : is_branch i = true -> same_label i (to_jmp i).
Proof. intros H%is_branch_spec. split; destruct i; simpl in *; destruct H; subst; done. Qed.
Lemma blank_label i : is_branch i = true -> same_label i ins_blank.
Proof. intros H%is_branch_spec. split; destruct i; simpl in *; destruct H; subst; done. Qed.

Lemma same_labels_at fn fn' : length (ins fn') = length (ins fn) -> nlabels fn' = nlabels fn ->
  (forall n i i', ins fn !! n = Some i -> ins fn' !! n = Some i' -> same_label i i') -> same_labels fn fn'.
Proof. intros L Hn H. split; [|done]. apply Forall2_same_length_lookup. split; [done|]. intros n. apply H. Qed.

(** ** Branches to the next instruction *)

Section Fall.
Context (src : ir_func).
Let tgt := (fall_branches src).1.

Lemma fall_at n i i' : ins src !! n = Some i -> ins tgt !! n = Some i' ->
  i' = i \/ (i' = to_jmp i /\ is_branch i = true /\ next_label (i_label i) (drop (S n) (ins src)) = true).
Proof.
  intros I. unfold tgt, fall_branches. cbn [ins set_ins fst]. rewrite list_lookup_fmap, scan_lookup, I. simpl.
  destruct (is_branch i && _) eqn:B; simpl; intros [= <-]; [right | by left].
  by apply andb_true_iff in B.
Qed.

Lemma fall_labels : same_labels src tgt.
Proof.
  apply same_labels_at; [|done|].
  - unfold tgt, fall_branches. simpl. by rewrite length_map, scan_length.
  - intros n i i' I I'. destruct (fall_at n i i' I I') as [-> |(-> & B & _)]; [done | by apply to_jmp_label].
Qed.

Lemma fall_preserves {M : Machine} : labels_ok src -> preserves src tgt.
Proof.
  intros Hl. apply in_place_preserves; try done; [apply fall_labels|]. intros n i i' e w I I' _ S.
  destruct (fall_at n i i' I I') as [-> |(-> & B & Hx)]; [by apply does_own | by apply does_fall].
Qed.
End Fall.

(** ** Branches the block's constants decide *)

(** The immediates are [long]s. *)
Definition imms_ok (fn : ir_func) : Prop := Forall (fun i => is_s 64 (i_imm i)) (ins fn).
#[export] Instance imms_ok_dec fn : Decision (imms_ok fn).
Proof. unfold imms_ok. apply _. Defined.

Section Constants.
Context (src : ir_func).
Let d := compute_defs src.

Lemma lk_note_branch lk i j : (i_op i = IR_JMP \/ is_branch i = true) -> (i_op j = IR_JMP \/ is_branch j = true) ->
  lk_note lk i = lk_note lk j.
Proof.
  rewrite !is_branch_spec. unfold lk_note. intros [E|[E|E]] [F|[F|F]]; by rewrite E, F.
Qed.

Lemma lk_decide_cases lk i rest : let c := (lk_decide src d lk i rest).2.1 in
  c = (i, false) \/
  (is_branch i = true /\ exists v, lk_get lk (i_a i) (i_w i) = Some v /\
   c = if Bool.eqb (op_is (i_op i) IR_BRZ) (norm v (i_w i) =? 0) then (to_jmp i, false) else (i, true)).
Proof.
  unfold lk_decide. cbn [snd]. destruct (lk_get lk (i_a i) (i_w i)) as [v|]; [|by left].
  destruct (negb (is_branch i) || _) eqn:B; [by left|]. apply orb_false_iff in B as [B%negb_false_iff _].
  right. split; [done|]. exists v. split; [done|]. by destruct (Bool.eqb _ _).
Qed.

Lemma lk_decide_note lk i rest : (lk_decide src d lk i rest).1 = lk_note lk i.
Proof.
  change ((lk_decide src d lk i rest).1) with (lk_note lk (lk_decide src d lk i rest).2.1.1).
  destruct (lk_decide_cases lk i rest) as [-> |(B & v & _ & ->)]; [done|].
  destruct (Bool.eqb _ _); [|done]. apply lk_note_branch; [|by right]. left. by destruct i.
Qed.

Lemma lk_scan_state n : (n <= length (ins src))%nat -> scan_state (lk_decide src d) (lk_init src) (ins src) n = lk_at src n.
Proof.
  induction n as [|n IH]; intros Hn; [by destruct (ins src)|].
  destruct (lookup_lt_is_Some_2 (ins src) n ltac:(lia)) as [i I].
  rewrite (scan_state_S _ _ _ n i I), (lk_at_S src n i I), lk_decide_note, IH by lia. done.
Qed.

Definition lk_cells : list cell := map fst (lk_branches src).

Lemma lk_cells_at n i c : ins src !! n = Some i -> lk_cells !! n = Some c ->
  c = (i, false) \/
  (is_branch i = true /\ exists v, lk_get (lk_at src n) (i_a i) (i_w i) = Some v /\
   c = if Bool.eqb (op_is (i_op i) IR_BRZ) (norm v (i_w i) =? 0) then (to_jmp i, false) else (i, true)).
Proof.
  intros I. unfold lk_cells, lk_branches. fold d. rewrite list_lookup_fmap, scan_lookup, I. cbn [fmap option_fmap option_map].
  intros [= <-]. rewrite lk_scan_state by (apply lookup_lt_Some in I; lia). apply (lk_decide_cases _ i (drop (S n) (ins src))).
Qed.

Lemma lk_vals_range n v : imms_ok src -> is_s 64 (lk_val (lk_at src n) v).
Proof.
  intros F. unfold lk_at. assert (G : Forall (fun i => is_s 64 (i_imm i)) (take n (ins src))) by (by apply Forall_take).
  assert (Z0 : forall v, is_s 64 (lk_val (lk_init src) v)) by (intros; simpl; unfold is_s; lia).
  revert Z0. generalize (lk_init src) as k. induction G as [|i l Hi G IH]; intros k Z0; [apply Z0|]. simpl. apply IH.
  intros u.
  assert (Set_ : forall c w, is_s 64 c -> is_s 64 (lk_val (lk_set k (def_target i) c w) u)).
  { intros c w Hc. simpl. unfold upd. destruct (_ =? _); [done | apply Z0]. }
  assert (Def : is_s 64 (lk_val (
    let t := def_target i in
    if (t <? 0) || (lk_nv k <=? t) then k
    else if op_is (i_op i) IR_CONST && negb (i_flt i) && ((i_w i =? 4) || (i_w i =? 8))
    then lk_set k t (i_imm i) (i_w i)
    else if op_is (i_op i) IR_MOV && negb (i_vol i) && negb (i_flt i) && (0 <=? i_a i) &&
            (i_a i <? lk_nv k) && negb (i_a i =? t) && (lk_gen_of k (i_a i) =? lk_gen k) &&
            (lk_w k (i_a i) =? i_w i)
    then lk_set k t (lk_val k (i_a i)) (i_w i)
    else lk_forget k t) u)).
  { cbv zeta. destruct (_ || _); [apply Z0|]. destruct (op_is _ IR_CONST && _ && _); [by apply Set_|].
    destruct (_ && _); [apply Set_, Z0 | apply Z0]. }
  unfold lk_note. destruct (i_op i); try exact Def; apply Z0.
Qed.

Context {M : Machine}.
Context (Hwf : wf_func src) (Hesc : forall s, esc s = true -> 0 <= s < nvars src) (Himm : imms_ok src).

(** What the table says a branch tests is what it tests. *)
Lemma lk_zero n i e w v : reached src (Run n e w) -> safe src (Run n e w) -> ins src !! n = Some i -> is_branch i = true ->
  lk_get (lk_at src n) (i_a i) (i_w i) = Some v ->
  exists x, e (i_a i) = Some x /\ is_zero i x = (norm v (i_w i) =? 0).
Proof using Hwf Hesc Himm.
  intros (sl & w0 & k & R) S I B G. destruct (safe_branch src n i e w S I B) as (x & X). exists x. split; [done|].
  pose proof (lk_run src Hwf Hesc k n e w sl w0 R) as H. unfold lk_match in H. rewrite I in H.
  assert (N : i_op i <> IR_LABEL) by (apply is_branch_spec in B as [-> | ->]; done). specialize (H N).
  unfold lk_get in G. destruct (_ || _) eqn:C; [done|]. injection G as <-. rewrite !orb_false_iff, !negb_false_iff, !Z.eqb_eq in C.
  destruct C as [[_ Cg] Cw]. pose proof (lk_word src _ _ H _ Cg) as W. pose proof (lk_value src _ _ H _ _ Cg X) as V.
  rewrite Cw in *. unfold is_zero. rewrite W, V.
  pose proof (lk_vals_range n (i_a i) Himm) as Rg. set (u := lk_val (lk_at src n) (i_a i)) in *.
  assert (B' : 0 < bits (i_w i)) by (unfold bits, word_ok in *; lia).
  unfold normw. rewrite uwrap_swrap by done. unfold word_ok in W. apply orb_true_iff in W as [W%Z.eqb_eq|W%Z.eqb_eq]; rewrite W; unfold norm; simpl.
  - change (bits 4) with 32. apply eq_true_iff_eq. rewrite !Z.eqb_eq. split; intros E.
    + rewrite <- swrap_uwrap, E by lia. done.
    + rewrite <- uwrap_swrap, E by lia. done.
  - change (bits 8) with 64. apply eq_true_iff_eq. rewrite !Z.eqb_eq. split; intros E; [|by rewrite E].
    rewrite <- (swrap_small 64 u) by (lia || done). rewrite <- swrap_uwrap, E by lia. done.
Qed.

Lemma lk_labels : same_labels src (with_cells src lk_cells).
Proof.
  apply same_labels_at; [|done|].
  - simpl. unfold lk_cells, lk_branches. by rewrite !length_map, scan_length.
  - intros n i i' I. simpl. rewrite list_lookup_fmap. destruct (lk_cells !! n) as [c|] eqn:C; [|done]. intros [= <-].
    destruct (lk_cells_at n i c I C) as [-> |(B & v & _ & ->)]; [done|].
    destruct (Bool.eqb _ _); [by apply to_jmp_label | by apply blank_label].
Qed.

Lemma lk_preserves : preserves src (with_cells src lk_cells).
Proof using Hwf Hesc Himm.
  apply in_place_preserves; try done; [apply lk_labels|]. intros n i i' e w I. simpl. rewrite list_lookup_fmap.
  destruct (lk_cells !! n) as [c|] eqn:C; [|done]. intros [= <-] R S.
  destruct (lk_cells_at n i c I C) as [-> |(B & v & G & ->)]; [by apply does_own|].
  destruct (lk_zero n i e w v R S I B G) as (x & X & Zx).
  destruct (Bool.eqb _ _) eqn:T; rewrite <- Zx in T; [by eapply does_jmp | by eapply does_nothing].
Qed.
End Constants.

(** ** Branches the branch above decides *)

(** What the pass relies on: a branch tests a temporary, all the branches on one
    temporary test it at one width, and a landing pad follows its label.
    ([cfgclean_second_branch] below is what becomes of two widths.) *)
Definition conds (l : list ir_ins) : list (Z * Z) := map (fun i => (i_a i, i_w i)) (filter (fun i => is_branch i = true) l).
Fixpoint landings (after_label : bool) (l : list ir_ins) : bool :=
  match l with
  | [] => true
  | i :: l => (negb (op_is (i_op i) IR_LANDING) || after_label) && landings (is_label i) l
  end.
Definition landing_ok (l : list ir_ins) : Prop := landings false l = true.
Definition conds_ok (nv nr : Z) (l : list ir_ins) : Prop :=
  Forall (fun p => nv <= p.1 < nr /\ Forall (fun q => q.1 = p.1 -> q.2 = p.2) (conds l)) (conds l).

#[export] Instance conds_ok_dec nv nr l : Decision (conds_ok nv nr l).
Proof. unfold conds_ok. apply _. Defined.

Lemma landing_before l n i : landing_ok l -> l !! n = Some i -> i_op i = IR_LANDING ->
  exists m j, n = S m /\ l !! m = Some j /\ i_op j = IR_LABEL.
Proof.
  assert (G : forall b n, landings b l = true -> l !! n = Some i -> i_op i = IR_LANDING ->
    (n = O /\ b = true) \/ exists m j, n = S m /\ l !! m = Some j /\ i_op j = IR_LABEL).
  { clear n. induction l as [|x l IH]; intros b n; simpl; [done|]. intros [Hx Hl]%andb_true_iff. destruct n as [|n]; simpl.
    - intros [= ->] O. left. split; [done|]. unfold op_is in Hx. by rewrite O in Hx.
    - intros I O. right. destruct (IH _ n Hl I O) as [[-> L]|(m & j & -> & J & Oj)].
      + exists 0%nat, x. split_and!; try done. by apply op_is_true.
      + by exists (S m), j. }
  intros H I O. by destruct (G false n H I O) as [[_ ?]|].
Qed.

Section Decide.
Context {M : Machine}.
Context (fn : ir_func) (l : list cell).
Let src := with_cells fn l.
Context (Hwf : wf_func src) (Hesc : forall s, esc s = true -> 0 <= s < nvars src).
Context (Hc : conds_ok (nvars fn) (nvregs fn) (map fst l)) (Hld : landing_ok (map fst l)).
(* what is dead is a branch *)
Context (Hdead : forall n i, l !! n = Some (i, true) -> is_branch i = true).

Let st (n : nat) : Z * ir_op := scan_state cond_decide (-1, IR_JMP) l n.

Lemma conds_In n i b : l !! n = Some (i, b) -> is_branch i = true -> (i_a i, i_w i) ∈ conds (map fst l).
Proof.
  intros I B. unfold conds. apply list_elem_of_fmap. exists i. split; [done|]. apply list_elem_of_filter. split; [done|].
  apply (list_elem_of_lookup_2 _ n). by rewrite list_lookup_fmap, I.
Qed.

Lemma conds_range n i b : l !! n = Some (i, b) -> is_branch i = true -> nvars fn <= i_a i < nvregs fn.
Proof using Hc. intros I B. pose proof Hc as H. unfold conds_ok in H. rewrite Forall_forall in H.
  apply (H (i_a i, i_w i)), list_elem_of_In, (conds_In n i b I B). Qed.

Lemma conds_width n i b m j c : l !! n = Some (i, b) -> is_branch i = true -> l !! m = Some (j, c) -> is_branch j = true ->
  i_a i = i_a j -> i_w i = i_w j.
Proof using Hc.
  intros I B J B' E. pose proof Hc as H0. unfold conds_ok in H0. rewrite Forall_forall in H0.
  destruct (H0 (i_a j, i_w j)) as [_ H]; [by eapply list_elem_of_In, conds_In|].
  rewrite Forall_forall in H. apply (H (i_a i, i_w i)); [by eapply list_elem_of_In, conds_In | done].
Qed.

(** What the state of the loop says: the branch it remembers has fallen through. *)
Definition cond_holds (s : Z * ir_op) (e : env) : Prop := 0 <= s.1 ->
  exists m j b x, l !! m = Some (j, b) /\ is_branch j = true /\ i_a j = s.1 /\ i_op j = s.2 /\
    e s.1 = Some x /\ Bool.eqb (op_is (i_op j) IR_BRZ) (is_zero j x) = false.

Definition cond_match (n : nat) (e : env) : Prop :=
  match l !! n with Some (i, _) => is_label i = false -> cond_holds (st n) e | None => True end.

Lemma st_S n i b : l !! n = Some (i, b) -> st (S n) = (cond_decide (st n) (i, b) (drop (S n) l)).1.
Proof. apply scan_state_S. Qed.

Lemma src_at n i (b : bool) : l !! n = Some (i, b) -> ins src !! n = Some (if b then ins_blank else i).
Proof. intros I. unfold src, with_cells. simpl. by rewrite list_lookup_fmap, I. Qed.

Lemma cond_frame n i e w e' w' : l !! n = Some (i, false) -> is_label i = false ->
  exec1 src i e w = Fall e' w' -> cond_holds (st n) e ->
  cond_holds (if (0 <=? def_target i) && (def_target i =? (st n).1) then -1 else (st n).1, (st n).2) e'.
Proof using Hwf Hesc Hc Hld.
  intros I Nl X H. unfold cond_holds. cbn [fst snd]. destruct (_ && _) eqn:T; [lia|]. intros P.
  destruct (H P) as (m & j & b & x & J & B & Ej & Oj & Ex & Fx). exists m, j, b, x. split_and!; try done.
  rewrite <- Ex. pose proof (exec1_frame src i e w) as Fr. rewrite X in Fr. destruct Fr as [_ Fr].
  pose proof (conds_range m j b J B) as Rg. rewrite Ej in Rg. apply Fr; [apply Rg | |].
  - destruct (esc (st n).1) eqn:Es; [|done]. apply Hesc in Es. unfold src in Es. simpl in Es. lia.
  - unfold def_list, op_is. case_bool_decide as O.
    + exfalso. destruct (landing_before _ n i Hld) as (p & q & -> & Q & Oq); [by rewrite list_lookup_fmap, I | done|].
      rewrite list_lookup_fmap in Q. destruct (l !! p) as [[q' bq]|] eqn:Lp; [|done]. simpl in Q. simplify_eq.
      rewrite (st_S p q bq Lp) in P. unfold cond_decide, is_label, op_is in P. rewrite Oq in P. simpl in P. lia.
    + destruct (Z.ltb_spec (def_target i) 0); [apply not_elem_of_nil|]. rewrite list_elem_of_singleton. intros E.
      rewrite E in T. destruct (Z.leb_spec 0 (def_target i)), (Z.eqb_spec (def_target i) (def_target i)); try done; lia.
Qed.

Lemma branch_fall i e w e' w' : is_branch i = true -> exec1 src i e w = Fall e' w' ->
  e' = e /\ exists x, e (i_a i) = Some x /\ Bool.eqb (op_is (i_op i) IR_BRZ) (is_zero i x) = false.
Proof.
  intros B. rewrite (exec1_branch src i) by done. destruct (e (i_a i)) as [x|]; [|done].
  destruct (Bool.eqb _ _) eqn:T; [done|]. intros [= <- _]. eauto.
Qed.

Lemma branch_no_target i : is_branch i = true -> def_target i = -1.
Proof. intros H%is_branch_spec. unfold def_target, op_is. by destruct H as [-> | ->]. Qed.

Lemma cond_fall n i (b : bool) e w e' w' : l !! n = Some (i, b) -> cond_match n e ->
  exec1 src (if b then ins_blank else i) e w = Fall e' w' -> cond_match (S n) e'.
Proof using Hwf Hesc Hc Hld.
  intros I H X. unfold cond_match in *. rewrite I in H. destruct (l !! S n) as [[j bj]|]; [|done]. intros _.
  rewrite (st_S n i b I). unfold cond_decide. destruct (is_label i) eqn:L; [intros P; simpl in P; lia|].
  specialize (H eq_refl). destruct b.
  - simpl in X. rewrite exec1_silent in X by (by right). by simplify_eq.
  - pose proof (cond_frame n i e w e' w' I L X H) as K. destruct (is_branch i) eqn:B; simpl; [|done].
    destruct (branch_fall i e w e' w' B X) as (-> & x & Ex & Fx). rewrite (branch_no_target i B) in *. simpl in *.
    destruct (_ && _) eqn:D; [case_bool_decide; simpl; [done | intros P; simpl in P; lia]|].
    intros P. cbn [fst snd] in *. by exists n, i, false, x.
Qed.

Lemma cond_run k n e w sl w0 : exec k src (entry src sl w0) = Run n e w -> cond_match n e.
Proof using Hwf Hesc Hc Hld Hdead.
  revert n e w. induction k as [|k IH]; intros n e w.
  - intros [= <- _ _]. unfold cond_match, st. destruct l as [|[i b] l']; [done|]. simpl. intros _ P. simpl in P. lia.
  - rewrite <- Nat.add_1_r, exec_add. simpl. destruct (exec k src (entry src sl w0)) as [m e1 w1|o w1|] eqn:E; [|done..].
    specialize (IH m e1 w1 eq_refl). simpl. destruct (l !! m) as [[i b]|] eqn:I.
    2: { rewrite list_lookup_fmap, I. done. }
    pose proof (src_at m i b I) as Ii. unfold src, with_cells in Ii. simpl in Ii. rewrite Ii. fold src.
    destruct (exec1 src _ e1 w1) as [e2 w2|g e2 w2|o w2|] eqn:X; simpl; try done.
    + intros [= <- <- <-]. by eapply cond_fall.
    + destruct (label_pos src g) as [m'|] eqn:L; [|done]. intros [= <- <- <-].
      destruct (label_pos_spec src g m' L) as (h & Ih & Oh & _). unfold cond_match.
      destruct (l !! m') as [[h' bh]|] eqn:Lh; [|done]. rewrite (src_at m' h' bh Lh) in Ih.
      destruct bh; simplify_eq. unfold is_label, op_is. by rewrite Oh.
Qed.

Lemma cond_decide_cases n i b : l !! n = Some (i, b) ->
  let c := (cond_decide (st n) (i, b) (drop (S n) l)).2.1 in
  c = (i, b) \/ (b = false /\ is_branch i = true /\ is_label i = false /\ 0 <= (st n).1 /\ i_a i = (st n).1 /\
    c = if bool_decide (i_op i = (st n).2) then (i, true) else (to_jmp i, false)).
Proof.
  intros I. unfold cond_decide. destruct (is_label i) eqn:L; [by left|]. destruct b; [by left|].
  destruct (is_branch i) eqn:B; [|by left]. rewrite (branch_no_target i B). simpl.
  destruct (_ && _) eqn:D; [|by left]. apply andb_true_iff in D as [D1 D2%Z.eqb_eq]. right. split_and!; try done; [lia|].
  by case_bool_decide.
Qed.

Definition cond_cells : list cell := map fst (cond_branches l).

Lemma cond_cells_at n i b c : l !! n = Some (i, b) -> cond_cells !! n = Some c ->
  c = (i, b) \/ (b = false /\ is_branch i = true /\ is_label i = false /\ 0 <= (st n).1 /\ i_a i = (st n).1 /\
    c = if bool_decide (i_op i = (st n).2) then (i, true) else (to_jmp i, false)).
Proof.
  intros I. unfold cond_cells, cond_branches. rewrite list_lookup_fmap, scan_lookup, I. cbn [fmap option_fmap option_map].
  intros [= <-]. apply (cond_decide_cases n i b I).
Qed.

Lemma cond_cells_length : length cond_cells = length l.
Proof. unfold cond_cells, cond_branches. by rewrite length_map, scan_length. Qed.

Lemma cond_labels : same_labels src (with_cells fn cond_cells).
Proof using Hdead.
  apply same_labels_at; [|done|].
  - simpl. by rewrite !length_map, cond_cells_length.
  - intros n x x' I I'. unfold src, with_cells in *. simpl in *. rewrite list_lookup_fmap in *.
    destruct (l !! n) as [[i b]|] eqn:L; [|done]. destruct (cond_cells !! n) as [c|] eqn:C; [|done]. simpl in *. simplify_eq.
    destruct (cond_cells_at n i b c L C) as [-> |(-> & B & _ & _ & _ & ->)]; [done|].
    case_bool_decide; simpl; [by apply blank_label | by apply to_jmp_label].
Qed.

(** Two branches on one value at one width are the same, or each other's opposite. *)
Lemma second_branch n i e : l !! n = Some (i, false) -> is_branch i = true -> i_a i = (st n).1 -> 0 <= (st n).1 ->
  cond_holds (st n) e -> exists x, e (i_a i) = Some x /\
  Bool.eqb (op_is (i_op i) IR_BRZ) (is_zero i x) = negb (bool_decide (i_op i = (st n).2)).
Proof using Hc.
  intros I B Ea P H. destruct (H P) as (m & j & b & x & J & Bj & Ej & Oj & Ex & Fx). rewrite Ea. exists x. split; [done|].
  assert (W : i_w i = i_w j) by (eapply conds_width; eauto; congruence).
  unfold is_zero in *. rewrite W. rewrite <- Oj. clear Oj Ej Ea. apply is_branch_spec in B, Bj. unfold op_is in *.
  destruct B as [-> | ->], Bj as [Oj|Oj]; rewrite Oj in *; simpl in *; destruct (if word_ok _ then _ else _); done.
Qed.

Lemma cond_preserves : preserves src (with_cells fn cond_cells).
Proof using Hwf Hesc Hc Hld Hdead.
  apply in_place_preserves; try done; [apply cond_labels|]. intros n x x' e w I I' R S.
  destruct (l !! n) as [[i b]|] eqn:L.
  2: { unfold src, with_cells in I. simpl in I. by rewrite list_lookup_fmap, L in I. }
  simpl in I'. rewrite list_lookup_fmap in I'. destruct (cond_cells !! n) as [c|] eqn:C; [|done]. simpl in I'. simplify_eq.
  pose proof (src_at n i b L) as Is. rewrite Is in I. simplify_eq.
  destruct (cond_cells_at n i b c L C) as [-> |(-> & B & Nl & P & Ea & ->)]; [by apply does_own|].
  destruct R as (sl & w0 & k & R). pose proof (cond_run k n e w sl w0 R) as H. unfold cond_match in H. rewrite L in H.
  destruct (second_branch n i e L B Ea P (H Nl)) as (y & Y & T).
  case_bool_decide; simpl in *; [by eapply does_nothing | by eapply does_jmp].
Qed.
End Decide.
