(* ===== verification/CfgSweep.v ===== *)
(** * Cleaning the control-flow graph: the inversion, the sweep and the whole pass

    The last loops of [pass_cfgclean] ([src/src/opt/cfgclean.c]) and the theorem that
    the pass preserves the function. A branch around a jump meets its inversion two
    steps on; a swept instruction is one no run reaches, or does nothing. *)
From stdpp Require Import base numbers list option.
From Stdlib Require Import ZArith Lia.
From S2P Require Import Prelude Ir Util IrSem Simulate Rename Paths CopyProp Cfg Fold Emit Expand Sccp CfgClean.

Local Open Scope Z_scope.

(** What is marked dead before the sweep is a branch. *)
Definition dead_branches (l : list cell) : Prop := forall n i, l !! n = Some (i, true) -> is_branch i = true.

Section Cells.
Context {M : Machine}.
Context (fn : ir_func).

Lemma cells_at l n i (b : bool) : l !! n = Some (i, b) -> ins (with_cells fn l) !! n = Some (if b then ins_blank else i).
Proof. intros I. simpl. by rewrite list_lookup_fmap, I. Qed.

Lemma cells_none l n : l !! n = None -> ins (with_cells fn l) !! n = None.
Proof. intros I. simpl. by rewrite list_lookup_fmap, I. Qed.

(** The cell of a label the machine finds. *)
Lemma cells_label l g m : label_pos (with_cells fn l) g = Some m ->
  exists i, l !! m = Some (i, false) /\ i_op i = IR_LABEL /\ i_label i = g.
Proof.
  intros (i & I & O & G)%label_pos_spec. simpl in I. rewrite list_lookup_fmap in I.
  destruct (l !! m) as [[j b]|]; [|done]. unfold nop_dead in I. simpl in I. destruct b; simplify_eq; eauto.
Qed.
End Cells.

(** ** A branch around a jump *)

Section Invert.
Context (l : list cell) (c : bool) (n : nat).
Let l' := (invert_at (l, c) n).1.

Lemma invert_cases : l' = l \/ exists i j, l !! n = Some (i, false) /\ l !! S n = Some (j, false) /\
  is_branch i = true /\ i_op j = IR_JMP /\
  l' = <[n := (flip_branch i (i_label j), false)]> (<[S n := (set_label (i_label i) j, false)]> l).
Proof.
  unfold l', invert_at. cbn [fst]. destruct (l !! n) as [[i di]|] eqn:I; [|by left].
  destruct (l !! S n) as [[j dj]|] eqn:J; [|by left].
  destruct (negb di && negb dj && is_branch i && op_is (i_op j) IR_JMP && _ && _) eqn:B; [|by left].
  rewrite !andb_true_iff in B. destruct B as [[[[[B1 B2] B3] B4] _] _]. destruct di, dj; try done.
  right. exists i, j. split_and!; try done. by apply op_is_true.
Qed.

Lemma flip_fields i g : is_branch i = true -> is_branch (flip_branch i g) = true /\ i_a (flip_branch i g) = i_a i /\
  i_w (flip_branch i g) = i_w i /\ i_label (flip_branch i g) = g /\
  op_is (i_op (flip_branch i g)) IR_BRZ = negb (op_is (i_op i) IR_BRZ).
Proof. intros [H|H]%is_branch_spec; destruct i; simpl in *; subst; done. Qed.

Lemma invert_length : length l' = length l.
Proof. destruct invert_cases as [-> |(i & j & _ & _ & _ & _ & ->)]; [done|]. by rewrite !length_insert. Qed.

Lemma invert_at_lookup m x x' : l !! m = Some x -> l' !! m = Some x' -> x' = x \/
  (x'.2 = x.2 /\ ((is_branch x.1 = true /\ exists g, x'.1 = flip_branch x.1 g) \/
                  (i_op x.1 = IR_JMP /\ exists g, x'.1 = set_label g x.1))).
Proof.
  intros X. destruct invert_cases as [-> |(i & j & I & J & B & O & ->)]; [rewrite X; intros; simplify_eq; by left|].
  destruct (decide (m = n)) as [->|N]; [|rewrite list_lookup_insert_ne by done; destruct (decide (m = S n)) as [->|N']].
  - rewrite list_lookup_insert_eq by (rewrite length_insert; by eapply lookup_lt_Some). intros. simplify_eq. right. simpl. eauto.
  - rewrite list_lookup_insert_eq by (by eapply lookup_lt_Some). intros. simplify_eq. right. simpl. eauto.
  - rewrite list_lookup_insert_ne by done. rewrite X. intros. simplify_eq. by left.
Qed.

Context (fn : ir_func).
Let src := with_cells fn l.
Let tgt := with_cells fn l'.

Lemma invert_labels : same_labels src tgt.
Proof.
  apply same_labels_at; [|done|].
  - simpl. by rewrite !length_map, invert_length.
  - intros m i i' I I'. unfold src, tgt in *. simpl in *. rewrite list_lookup_fmap in *.
    destruct (l !! m) as [x|] eqn:X; [|done]. destruct (l' !! m) as [x'|] eqn:X'; [|done]. simpl in *. simplify_eq.
    destruct (invert_at_lookup m x x' X X') as [-> |[E H]]; [done|]. unfold nop_dead. rewrite E. destruct x.2; [done|].
    destruct H as [(B & g & ->)|(O & g & ->)].
    + apply is_branch_spec in B. destruct x as [i ?]. destruct i. simpl in *. by split; destruct B; subst.
    + destruct x as [i ?]. destruct i. simpl in *. by split; subst.
Qed.

Lemma invert_preserves {M : Machine} : preserves src tgt.
Proof.
  destruct invert_cases as [E|(i & j & I & J & B & O & E)]; [unfold tgt, src; by rewrite E|].
  pose proof invert_labels as Sl. pose proof (flip_fields i (i_label j) B) as (B' & Fa & Fw & Fl & Fo).
  assert (At : forall m, m <> n -> m <> S n -> ins tgt !! m = ins src !! m).
  { intros m N N'. unfold tgt, src. simpl. by rewrite !list_lookup_fmap, E, !list_lookup_insert_ne by done. }
  assert (In : ins tgt !! n = Some (flip_branch i (i_label j))).
  { apply (cells_at fn l' n _ false). rewrite E. apply list_lookup_insert_eq. rewrite length_insert. by eapply lookup_lt_Some. }
  assert (Jn : ins tgt !! S n = Some (set_label (i_label i) j)).
  { apply (cells_at fn l' (S n) _ false). rewrite E, list_lookup_insert_ne by lia. apply list_lookup_insert_eq. by eapply lookup_lt_Some. }
  pose proof (cells_at fn l n i false I) as Is. pose proof (cells_at fn l (S n) j false J) as Js.
  assert (Meet : forall g e w, at_meet (fun m => m <> S n) (goto src g e w)).
  { intros g e w. unfold goto. destruct (label_pos src g) as [m|] eqn:L; [|done]. simpl. intros ->.
    destruct (cells_label fn l g _ L) as (h & H & Oh & _). rewrite J in H. simplify_eq. congruence. }
  apply (meet_preserves src tgt (fun m => m <> S n)); [done | done|]. intros m e w _ S N.
  destruct (decide (m = n)) as [->|Nm].
  - destruct (safe_branch src n i e w S Is B) as (x & X).
    assert (Es : step src (Run n e w) = after src n (exec1 src i e w)) by (by apply step_at).
    assert (Et : step tgt (Run n e w) = after tgt n (exec1 tgt (flip_branch i (i_label j)) e w)) by (by apply step_at).
    rewrite (exec1_branch src i), X in Es by done. rewrite exec1_branch, Fa, X, Fo, Fl in Et by done.
    replace (is_zero (flip_branch i (i_label j)) x) with (is_zero i x) in Et by (unfold is_zero; by rewrite Fw).
    assert (Ej : step src (Run (Datatypes.S n) e w) = goto src (i_label j) e w).
    { rewrite (step_at src _ j), exec1_jmp by done. done. }
    assert (Ej' : step tgt (Run (Datatypes.S n) e w) = goto src (i_label i) e w).
    { rewrite (step_at tgt _ _ _ _ Jn), exec1_jmp by (by destruct j). rewrite <- (goto_same src tgt) by done. by destruct j. }
    unfold meets. destruct (op_is (i_op i) IR_BRZ), (is_zero i x); cbn [Bool.eqb negb after] in Es, Et;
      (exists 1%nat, 2%nat; cbn [exec]; rewrite Es, Et; split_and!; [lia | lia | by rewrite Ej' | by apply Meet]) ||
      (exists 2%nat, 1%nat; cbn [exec]; rewrite Es, Et, Ej; split_and!; [lia | lia | by apply goto_same | by apply Meet]).
  - exists 1%nat, 1%nat. cbn [exec]. split_and!; [lia | lia | |].
    + unfold step. rewrite (At m Nm N). destruct (ins src !! m) as [y|]; [|done].
      rewrite (exec1_indep tgt src) by done. by apply after_same.
    + unfold step. destruct (ins src !! m) as [y|]; [|done].
      destruct (exec1 src y e w) as [e1 w1|g e1 w1|o w1|]; try done; [simpl; lia | apply Meet].
Qed.
End Invert.

(** ** The sweep *)

(** The labels something names. *)
Lemma foldl_reach {A} (f : (Z -> bool) -> A -> Z -> bool) (P : A -> Z -> Prop) l r g :
  (forall r x, f r x g = true <-> r g = true \/ P x g) ->
  foldl f r l g = true <-> r g = true \/ Exists (fun x => P x g) l.
Proof.
  intros H. revert r. induction l as [|x l IH]; intros r; simpl.
  - split; [by left | by intros [|?%Exists_nil]].
  - rewrite IH, H, Exists_cons. tauto.
Qed.

Lemma reach_cb_spec nl p r g : (reach_cb nl p r).2 g = true <-> r g = true \/ (p = g /\ 0 <= g < nl).
Proof.
  unfold reach_cb. cbn [snd]. destruct (_ && _) eqn:B; unfold upd.
  - destruct (Z.eqb_spec g p) as [->|]; [split; [right; split; [done | lia] | done] | split; [by left | by intros [|[]]]].
  - split; [by left | intros [|[-> ?]]; [done | lia]].
Qed.

Lemma reached_labels_spec fn l g : 0 <= g < nlabels fn ->
  reached_labels fn l g = true <-> Exists (fun i => g ∈ labels_of (jt fn) i) l \/ Exists (fun e => lp_label e = g) (eh fn).
Proof.
  intros Hg. unfold reached_labels.
  rewrite (foldl_reach _ (fun e g => lp_label e = g /\ 0 <= g < nlabels fn)).
  2: { intros r e. destruct (_ && _) eqn:B; unfold upd.
       - destruct (Z.eqb_spec g (lp_label e)) as [->|]; [split; [right; split; [done | lia] | done] | split; [by left | by intros [|[]]]].
       - split; [by left | intros [|[E ?]]; [done | lia]]. }
  rewrite (foldl_reach _ (fun i g => g ∈ labels_of (jt fn) i /\ 0 <= g < nlabels fn)).
  2: { intros r i. rewrite each_label_observe by done. cbn [snd]. rewrite <- labels_of_eq.
       rewrite (foldl_reach _ (fun p g => p = g /\ 0 <= g < nlabels fn)) by (intros; apply reach_cb_spec).
       rewrite Exists_exists. split; intros [|H]; auto; right.
       - destruct H as (x & Hx & -> & ?). by split; [apply list_elem_of_In|].
       - exists g. split; [apply list_elem_of_In, H | done]. }
  split.
  - intros [[|H]|H]; [done | left | right]; (eapply Exists_impl; [|exact H]); by intros ? [].
  - intros [H|H]; [left; right | right]; (eapply Exists_impl; [|exact H]); by intros ? ?.
Qed.

Lemma goto_labels_of fn i g : i_op i <> IR_IGOTO -> g ∈ goto_labels fn i -> g ∈ labels_of (jt fn) i.
Proof. intros N. rewrite labels_of_eq. unfold goto_labels, labels_spec. destruct (i_op i); congruence || tauto || by intros ?%elem_of_nil. Qed.

Section Sweep.
Context {M : Machine}.
Context (fn : ir_func) (l : list cell).
Let src := with_cells fn l.
Let tgt := with_cells fn (sweep fn l).
Let named := reached_labels fn (map fst l).
Let kill (n : nat) : bool := scan_state (sweep_ins (nlabels fn) named) false l n.
Context (Hl : labels_ok src) (Hdead : dead_branches l).
Context (Hig : forall x g, igoto x = Some g -> Exists (fun i => i_op i = IR_LABELADDR /\ i_label i = g) (map fst l)).

Lemma kill_S n x : l !! n = Some x -> kill (S n) = (sweep_ins (nlabels fn) named (kill n) x (drop (S n) l)).1.
Proof. apply scan_state_S. Qed.

Lemma sweep_at n x : l !! n = Some x -> sweep fn l !! n = Some (sweep_ins (nlabels fn) named (kill n) x (drop (S n) l)).2.
Proof. intros X. unfold sweep. by rewrite scan_lookup, X. Qed.

Lemma branch_ops i : is_branch i = true -> is_label i = false /\ op_is (i_op i) IR_JMP = false /\ op_is (i_op i) IR_RET = false /\
  op_is (i_op i) IR_UD2 = false /\ op_is (i_op i) IR_SWITCH = false.
Proof. unfold is_label, op_is. intros [-> | ->]%is_branch_spec; done. Qed.

Lemma taken_cells g : g ∈ taken_labels src -> Exists (fun i => i_op i = IR_LABELADDR /\ i_label i = g) (map fst l).
Proof.
  unfold taken_labels. intros (i & -> & [O I]%list_elem_of_filter)%list_elem_of_fmap. apply Exists_exists. exists i.
  split; [|done]. unfold src in I. simpl in I. apply list_elem_of_fmap in I as ([j b] & E & J).
  unfold nop_dead in E. simpl in E. destruct b; simplify_eq. apply list_elem_of_In, list_elem_of_fmap. by exists (j, false).
Qed.

(** A jump's label is named. *)
Lemma jump_named n i e w g e' w' : l !! n = Some (i, false) -> exec1 src i e w = Goto g e' w' ->
  0 <= g < nlabels fn -> named g = true.
Proof using Hig.
  intros I X Hg. apply reached_labels_spec; [done|]. pose proof (exec1_frame src i e w) as Fr. rewrite X in Fr.
  assert (Ad : Exists (fun i => i_op i = IR_LABELADDR /\ i_label i = g) (map fst l) ->
    Exists (fun i => g ∈ labels_of (jt fn) i) (map fst l)).
  { apply Exists_impl. intros a [Oa <-]. rewrite labels_of_eq. unfold labels_spec. rewrite Oa. by left. }
  destruct Fr as [[[H|[_ (x & Hx)]]|H] _].
  - left. destruct (decide (i_op i = IR_IGOTO)) as [O|O].
    + apply Ad, taken_cells. unfold goto_labels in H. by rewrite O in H.
    + apply Exists_exists. exists i. split; [|by apply (goto_labels_of src)].
      apply list_elem_of_In, (list_elem_of_lookup_2 _ n). by rewrite list_lookup_fmap, I.
  - left. by eapply Ad, Hig.
  - right. unfold unwind_label in H. destruct (_ <=? 0); [done|]. simpl in H.
    destruct (eh fn !! _) as [r|] eqn:E; [|done]. simpl in H. injection H as <-. apply Exists_exists. exists r.
    split; [|done]. by apply list_elem_of_In, (list_elem_of_lookup_2 _ _ _ E).
Qed.

Lemma sweep_ins_fst k x rest : (sweep_ins (nlabels fn) named k x rest).2.1 = x.1.
Proof. unfold sweep_ins. destruct x as [i b]. by destruct (is_label i). Qed.

Lemma sweep_length : length (sweep fn l) = length l.
Proof. apply scan_length. Qed.

(** The swept labels are not named, so the others are where they were. *)
Lemma label_from_only g k code code' : Forall2 (fun i i' => (i_op i = IR_LABEL /\ i_label i = g) <-> (i_op i' = IR_LABEL /\ i_label i' = g)) code code' ->
  label_from g k code' = label_from g k code.
Proof.
  intros F. revert k. induction F as [|i i' code code' H F IH]; intros k; simpl; [done|]. rewrite IH.
  replace (op_is (i_op i') IR_LABEL && (i_label i' =? g)) with (op_is (i_op i) IR_LABEL && (i_label i =? g)); [done|].
  apply eq_true_iff_eq. by rewrite !andb_true_iff, !op_is_true, !Z.eqb_eq.
Qed.

Lemma sweep_label_pos g : (0 <= g < nlabels fn -> named g = true) -> label_pos tgt g = label_pos src g.
Proof using Hdead.
  intros Hn. apply label_from_only. apply Forall2_same_length_lookup. simpl. split; [by rewrite !length_map, sweep_length|].
  intros n i i'. unfold src, tgt. simpl. rewrite !list_lookup_fmap. destruct (l !! n) as [[x b]|] eqn:X; [|done].
  rewrite (sweep_at n _ X). destruct (sweep_ins _ _ _ _ _).2 as [x' b'] eqn:Y.
  assert (x' = x) as -> by (pose proof (sweep_ins_fst (kill n) (x, b) (drop (S n) l)) as F; by rewrite Y in F).
  unfold nop_dead. simpl. intros [= <-] [= <-]. unfold sweep_ins in Y. destruct (is_label x) eqn:Lx.
  - assert (b = false) as -> by (destruct b; [|done]; by destruct (branch_ops x (Hdead n x X)) as [? _]; congruence).
    injection Y as <-. destruct (_ && _) eqn:D; [|done]. rewrite !andb_true_iff, negb_true_iff in D. simpl.
    split; [|by intros []]. intros [_ E]. rewrite E in D. rewrite Hn in D by lia. by destruct D.
  - unfold is_label in Lx. assert (Nx : i_op x <> IR_LABEL) by (intros E%op_is_true; congruence).
    destruct b, b'; simpl; split; intros [? _]; done.
Qed.

(** Where a run can be: at a label, or where nothing is killed. *)
Definition alive (n : nat) : Prop := match l !! n with Some (i, _) => is_label i = true \/ kill n = false | None => True end.

Lemma alive_label g m : label_pos src g = Some m -> alive m.
Proof.
  intros (i & I & O & _)%cells_label. unfold alive. rewrite I. left. unfold is_label. by apply op_is_true.
Qed.

Lemma alive_S n i (b : bool) : l !! n = Some (i, b) -> alive n ->
  (b = true \/ is_label i = true \/ falls i = true) -> alive (S n).
Proof using Hdead.
  intros I A H. unfold alive in *. rewrite I in A. destruct (l !! S n) as [[j c]|]; [|done]. right.
  rewrite (kill_S n _ I). unfold sweep_ins. destruct (is_label i) eqn:Li; [done|]. destruct A as [A|A]; [done|]. rewrite A. cbn [fst orb].
  destruct H as [->|[H|H]]; [|done|].
  - by destruct (branch_ops i (Hdead n i I)) as (_ & -> & -> & -> & ->).
  - unfold falls, op_is in *. by destruct (i_op i).
Qed.

Lemma sweep_preserves : preserves src tgt.
Proof using Hl Hdead Hig.
  apply (meet_preserves src tgt alive); [done| |].
  { unfold alive, kill. destruct l as [|[i b] l']; [done|]. by right. }
  intros n e w _ S A. destruct (l !! n) as [[i b]|] eqn:I.
  2: { exists 1%nat, 1%nat. cbn [exec]. split_and!; [lia | lia | |].
       - apply step_end; [|by apply cells_none]. simpl. by rewrite !length_map, sweep_length.
       - unfold step, src. by rewrite cells_none. }
  pose proof (cells_at fn l n i b I) as Is.
  pose proof (sweep_at n _ I) as It. set (c := sweep_ins (nlabels fn) named (kill n) (i, b) (drop (Datatypes.S n) l)) in It.
  assert (C1 : c.2.1 = i) by apply sweep_ins_fst. destruct (c.2) as [i' b'] eqn:C. simpl in C1. subst i'.
  pose proof (cells_at fn (sweep fn l) n i b' It) as Is'.
  (* both do nothing here *)
  assert (Nop : silent (if b then ins_blank else i) -> silent (if b' then ins_blank else i) ->
    (b = true \/ is_label i = true) -> meets src tgt alive (Run n e w)).
  { intros H1 H2 H. exists 1%nat, 1%nat. cbn [exec]. rewrite (step_at src n _ _ _ Is), (step_at tgt n _ _ _ Is').
    rewrite !exec1_silent by done. split_and!; [lia | lia | done|]. simpl. eapply alive_S; [done | done | tauto]. }
  destruct b.
  { apply Nop; [by right | | by left]. right. unfold c, sweep_ins in C.
    destruct (branch_ops i (Hdead n i I)) as (E & _). rewrite E in C. simpl in C. by injection C as <-. }
  destruct (is_label i) eqn:Li.
  { apply op_is_true in Li. apply Nop; [by left | destruct b'; [by right | by left] | by right]. }
  assert (K : kill n = false) by (unfold alive in A; rewrite I in A; destruct A; congruence).
  unfold c, sweep_ins in C. rewrite Li, K in C. simpl in C. injection C as C.
  destruct b'.
  - (* a jump to the next instruction *)
    apply andb_true_iff in C as [O%op_is_true Hx]. rewrite <- skipn_map in Hx.
    destruct (next_label_spec _ _ _ Hx) as (m & j & Hm & J & Oj & Gj & Hk).
    rewrite list_lookup_fmap in J. destruct (l !! m) as [[j' bj]|] eqn:Lm; [|done]. simpl in J. injection J as ->.
    assert (bj = false) as -> by (destruct bj; [|done]; apply Hdead, is_branch_spec in Lm; rewrite Oj in Lm; by destruct Lm).
    assert (Lp : label_pos src (i_label i) = Some m) by (rewrite <- Gj; apply label_pos_unique; [done | by apply (cells_at fn l m j false) | done]).
    exists 1%nat, (1 + (m - Datatypes.S n))%nat. rewrite exec_add. cbn [exec].
    rewrite (step_at src n _ _ _ Is), (step_at tgt n _ _ _ Is'), (exec1_jmp src i e w O), exec1_silent by (by right).
    cbn [after]. rewrite Lp. split_and!; [lia | lia | | by eapply alive_label].
    apply run_silent; [done|]. intros k Hb. destruct (Hk k Hb) as (x & X & Ox). rewrite list_lookup_fmap in X.
    destruct (l !! k) as [[x' bx]|] eqn:Lx; [|done]. simpl in X. injection X as ->.
    pose proof (sweep_at k _ Lx) as Sk. destruct (sweep_ins _ _ _ _ _).2 as [y by_] eqn:Y.
    assert (y = x) as -> by (pose proof (sweep_ins_fst (kill k) (x, bx) (drop (Datatypes.S k) l)) as F; by rewrite Y in F).
    exists (if by_ then ins_blank else x). split; [by apply cells_at|]. destruct by_; [by right | by left].
  - (* the same instruction *)
    exists 1%nat, 1%nat. cbn [exec]. rewrite (step_at src n _ _ _ Is), (step_at tgt n _ _ _ Is').
    rewrite (exec1_indep tgt src) by done. split; [lia|]. split; [lia|].
    pose proof (exec1_frame src i e w) as Fr. destruct (exec1 src i e w) as [e1 w1|g e1 w1|o w1|] eqn:X; try done.
    + split; [done|]. simpl. destruct Fr as [Fa _]. eapply alive_S; [done | done | tauto].
    + simpl. rewrite (sweep_label_pos g) by (by eapply jump_named). split; [done|].
      destruct (label_pos src g) as [m|] eqn:Lg; [|done]. simpl. by eapply alive_label.
Qed.
End Sweep.

(** ** The removal *)

Section Remove.
Context {M : Machine}.
Context (fn : ir_func) (l : list cell).

Definition cell_block (c : cell) : list ir_ins := if c.2 then [] else [c.1].

Lemma kept_concat : kept l = concat (map cell_block l).
Proof.
  unfold kept. induction l as [|[i b] l' IH]; [done|]. rewrite filter_cons. destruct b; simpl; [done | by f_equal].
Qed.

Lemma remove_dead_ins : ins (remove_dead fn l).1 = kept l.
Proof.
  unfold remove_dead. destruct (existsb snd l) eqn:E; [done|]. simpl. unfold kept.
  induction l as [|[i b] l' IH]; [done|]. simpl in E. apply orb_false_iff in E as [-> E]. rewrite filter_cons. simpl.
  by rewrite <- IH.
Qed.

Lemma remove_preserves : preserves (with_cells fn l) (remove_dead fn l).1.
Proof.
  apply (blocks_preserve _ _ (map cell_block l) (fun _ e e' => e = e')).
  - by rewrite remove_dead_ins, kept_concat.
  - unfold remove_dead. by destruct (existsb snd l).
  - unfold remove_dead. by destruct (existsb snd l).
  - unfold remove_dead. by destruct (existsb snd l).
  - simpl. clear. induction l as [|[i b] l' IH]; [constructor|]. simpl. constructor; [|done].
    unfold cell_block, nop_dead, label_ok, op_is. destruct b; simpl; [constructor|].
    case_bool_decide; [by eexists | by apply Forall_singleton].
  - intros n i blk es et w I B <-. simpl in I. rewrite list_lookup_fmap in I. rewrite (list_lookup_fmap cell_block) in B. destruct (l !! n) as [[x b]|]; [|done].
    simpl in I, B. injection I as <-. injection B as <-. unfold cell_block, nop_dead. destruct b; simpl; [eauto|].
    destruct (exec1 (with_cells fn l) x es w); simpl; eauto.
  - done.
Qed.
End Remove.

(** ** What the loops keep *)

(** What becomes of an instruction before the sweep, its mark aside. *)
Record cleaned (i i' : ir_ins) : Prop := {
  cl_label : same_label i i';
  cl_wf fn : wf_ins fn i -> wf_ins fn i';
  cl_imm : i_imm i' = i_imm i;
  cl_cond : is_branch i' = true -> is_branch i = true /\ i_a i' = i_a i /\ i_w i' = i_w i;
  cl_land : i_op i' = IR_LANDING -> i_op i = IR_LANDING;
  cl_addr : i_op i = IR_LABELADDR -> i_op i' = IR_LABELADDR /\ i_label i' = i_label i }.

#[local] Instance cleaned_preorder : PreOrder cleaned.
Proof.
  split; [by intros i; split|]. intros i j k H H'. split.
  - destruct H as [[L1 L2]], H' as [[L1' L2']]. split; [tauto|]. intros O. rewrite L2 by done. apply L2'. tauto.
  - intros fn Hw. by apply H', H.
  - by rewrite (cl_imm j k H'), (cl_imm i j H).
  - intros (B & -> & ->)%(cl_cond j k H'). by apply H.
  - intros O. by apply H, H'.
  - intros O. destruct (cl_addr i j H O) as [O' <-]. by apply H'.
Qed.

Lemma cleaned_jump g i : jumps_to i = true -> cleaned i (set_label g i).
Proof.
  intros J. assert (O : i_op (set_label g i) = i_op i) by (by destruct i). unfold jumps_to, is_branch, op_is in J. split.
  - split; rewrite ?O; [done|]. intros L. by rewrite L in J.
  - intros fn [W1 W2]. split; [|rewrite O; by destruct i]. rewrite reads_eq in *. by destruct i.
  - by destruct i.
  - unfold is_branch. rewrite O. by destruct i.
  - by rewrite O.
  - intros L. by rewrite L in J.
Qed.

Lemma cleaned_to_jmp i : is_branch i = true -> cleaned i (to_jmp i).
Proof.
  intros B. pose proof (to_jmp_label i B). apply is_branch_spec in B. split; try done.
  - intros fn [_ W]. split; [rewrite reads_eq; destruct i; simpl; constructor | left; by destruct i].
  - by destruct i.
  - by destruct i.
  - by destruct i.
  - intros L. rewrite L in B. by destruct B.
Qed.

Lemma cleaned_wf fn l l' : Forall2 cleaned l l' -> Forall (wf_ins fn) l -> Forall (wf_ins fn) l'.
Proof. intros F. induction F as [|i i' l l' H F IH]; [done|]. intros [Hi Hl]%Forall_cons_1. constructor; [by apply H | by apply IH]. Qed.

Lemma cleaned_imms l l' : Forall2 cleaned l l' -> Forall (fun i => is_s 64 (i_imm i)) l -> Forall (fun i => is_s 64 (i_imm i)) l'.
Proof.
  intros F. induction F as [|i i' l l' H F IH]; [done|]. intros [Hi Hl]%Forall_cons_1. constructor; [|by apply IH].
  by rewrite (cl_imm i i' H).
Qed.

Lemma cleaned_landing l l' : Forall2 cleaned l l' -> landing_ok l -> landing_ok l'.
Proof.
  unfold landing_ok. intros F. generalize false as b. induction F as [|i i' l l' H F IH]; intros b; simpl; [done|].
  intros [Hi Hl]%andb_true_iff. apply andb_true_iff. split.
  - unfold op_is in *. destruct (bool_decide_reflect (i_op i' = IR_LANDING)) as [O|]; [|done].
    apply (cl_land i i' H) in O. by rewrite O in Hi.
  - apply IH. replace (is_label i') with (is_label i); [done|]. apply eq_true_iff_eq. unfold is_label.
    rewrite !op_is_true. apply H.
Qed.

Lemma cleaned_conds l l' : Forall2 cleaned l l' -> forall p, p ∈ conds l' -> p ∈ conds l.
Proof.
  unfold conds. intros F p (i' & -> & [B I]%list_elem_of_filter)%list_elem_of_fmap.
  apply list_elem_of_lookup in I as [n I]. destruct (Forall2_lookup_r _ _ _ _ _ F I) as (i & Ii & H).
  destruct (cl_cond i i' H B) as (Bi & -> & ->). apply list_elem_of_fmap. exists i. split; [done|].
  apply list_elem_of_filter. split; [done | by eapply list_elem_of_lookup_2].
Qed.

Lemma cleaned_conds_ok nv nr l l' : Forall2 cleaned l l' -> conds_ok nv nr l -> conds_ok nv nr l'.
Proof.
  unfold conds_ok. intros F H. pose proof (cleaned_conds l l' F) as S. rewrite Forall_forall in *. intros p Hp.
  destruct (H p) as [R Q]; [by apply list_elem_of_In, S, list_elem_of_In|]. split; [done|].
  rewrite Forall_forall in *. intros q Hq. by apply Q, list_elem_of_In, S, list_elem_of_In.
Qed.

Definition takes (g : Z) (l : list ir_ins) : Prop := Exists (fun i => i_op i = IR_LABELADDR /\ i_label i = g) l.

Lemma cleaned_takes g l l' : Forall2 cleaned l l' -> takes g l -> takes g l'.
Proof.
  unfold takes. intros F. induction F as [|i i' l l' H F IH]; [done|]. rewrite !Exists_cons. intros [[O E]|X]; [left|by right; apply IH].
  destruct (cl_addr i i' H O) as [? ->]. by split.
Qed.

Lemma taken_takes fn g : g ∈ taken_labels fn -> takes g (ins fn).
Proof.
  unfold taken_labels. intros (i & -> & [O I]%list_elem_of_filter)%list_elem_of_fmap. apply Exists_exists. exists i.
  split; [by apply list_elem_of_In | done].
Qed.

(** The marked are branches, and do nothing. *)
Lemma nop_wf fn l : Forall (wf_ins fn) (map fst l) -> Forall (wf_ins fn) (map nop_dead l).
Proof.
  rewrite !Forall_map. apply Forall_impl. intros [i b] H. unfold nop_dead. destruct b; simpl; [|done].
  split; [rewrite reads_eq; constructor | by right; left].
Qed.

Lemma forward_cleaned {M : Machine} fn : labels_ok fn -> Forall2 cleaned (ins fn) (ins (forward_jumps fn).1).
Proof.
  intros Hl. apply Forall2_same_length_lookup. split; [by rewrite forward_length|]. intros n i i' I I'.
  destruct (forward_at fn Hl n i I) as (i2 & I2 & L). rewrite I2 in I'. injection I' as <-.
  unfold ins_leads in L. destruct (jumps_to i) eqn:J; [|by subst]. destruct L as (g & _ & ->). by apply cleaned_jump.
Qed.

Lemma fall_cleaned fn : Forall2 cleaned (ins fn) (ins (fall_branches fn).1).
Proof.
  apply Forall2_same_length_lookup. split; [symmetry; unfold fall_branches; simpl; by rewrite length_map, scan_length|].
  intros n i i' I I'. destruct (fall_at fn n i i' I I') as [-> |(-> & B & _)]; [done | by apply cleaned_to_jmp].
Qed.

Lemma lk_cleaned fn : Forall2 cleaned (ins fn) (map fst (lk_cells fn)) /\ dead_branches (lk_cells fn).
Proof.
  assert (Ln : length (lk_cells fn) = length (ins fn)) by (unfold lk_cells, lk_branches; by rewrite length_map, scan_length).
  split.
  - apply Forall2_same_length_lookup. split; [by rewrite length_map|]. intros n i i' I. rewrite list_lookup_fmap.
    destruct (lk_cells fn !! n) as [c|] eqn:C; [|done]. intros [= <-].
    destruct (lk_cells_at fn n i c I C) as [-> |(B & v & _ & ->)]; [done|]. destruct (Bool.eqb _ _); [by apply cleaned_to_jmp | done].
  - intros n j C. destruct (lookup_lt_is_Some_2 (ins fn) n) as [i I]; [rewrite <- Ln; by eapply lookup_lt_Some|].
    destruct (lk_cells_at fn n i _ I C) as [[=]|(B & v & _ & E)]. destruct (Bool.eqb _ _); simplify_eq. done.
Qed.

Lemma cond_cleaned l : dead_branches l ->
  Forall2 cleaned (map fst l) (map fst (cond_cells l)) /\ dead_branches (cond_cells l).
Proof.
  intros Hd. split.
  - apply Forall2_same_length_lookup. split; [by rewrite !length_map, cond_cells_length|]. intros n i i'. rewrite !list_lookup_fmap.
    destruct (l !! n) as [[x b]|] eqn:X; [|done]. destruct (cond_cells l !! n) as [c|] eqn:C; [|done]. intros [= <-] [= <-].
    destruct (cond_cells_at l n x b c X C) as [-> |(-> & B & _ & _ & _ & ->)]; [done|]. case_bool_decide; [done | by apply cleaned_to_jmp].
  - intros n j C. destruct (l !! n) as [[x b]|] eqn:X.
    2: { apply lookup_ge_None in X. rewrite <- cond_cells_length in X. apply lookup_ge_None in X. congruence. }
    destruct (cond_cells_at l n x b _ X C) as [E|(-> & B & _ & _ & _ & E)]; [simplify_eq; by apply (Hd n)|].
    case_bool_decide; by simplify_eq.
Qed.

(** *** The inversions, one after the other *)

Lemma invert_keeps l c n : dead_branches l -> dead_branches (invert_at (l, c) n).1 /\
  forall g, takes g (map fst l) -> takes g (map fst (invert_at (l, c) n).1).
Proof.
  intros Hd. set (l' := (invert_at (l, c) n).1).
  assert (At : forall m x', l' !! m = Some x' -> exists x, l !! m = Some x).
  { intros m x' H. apply lookup_lt_is_Some_2. rewrite <- (invert_length l c n). by eapply lookup_lt_Some. }
  assert (At' : forall m x, l !! m = Some x -> exists x', l' !! m = Some x').
  { intros m x H. apply lookup_lt_is_Some_2. unfold l'. rewrite (invert_length l c n). by eapply lookup_lt_Some. }
  split.
  - intros m i I. destruct (At m _ I) as [[x b] X]. destruct (invert_at_lookup l c n m _ _ X I) as [[= <- <-]|[E H]]; [by apply (Hd m)|].
    simpl in *. subst b. pose proof (Hd m x X) as B. destruct H as [(_ & g' & ->)|(O & _)]; [by apply flip_fields|].
    apply is_branch_spec in B. rewrite O in B. by destruct B.
  - intros g Ht. unfold takes in *. rewrite Exists_exists in *. destruct Ht as (i & I & O & G). apply list_elem_of_In, list_elem_of_lookup in I as [m I].
    rewrite list_lookup_fmap in I. destruct (l !! m) as [[x b]|] eqn:X; [|done]. simpl in I. simplify_eq.
    destruct (At' m _ X) as [x' X']. exists i. split; [|done]. apply list_elem_of_In, (list_elem_of_lookup_2 _ m).
    rewrite list_lookup_fmap, X'. simpl. f_equal.
    destruct (invert_at_lookup l c n m _ _ X X') as [-> |[_ [(B & _)|(O' & _)]]]; [done| |simpl in O'; congruence].
    apply is_branch_spec in B. simpl in B. rewrite O in B. by destruct B.
Qed.

Lemma invert_all {M : Machine} fn ns s : dead_branches s.1 -> labels_ok (with_cells fn s.1) ->
  let s' := foldl invert_at s ns in
  preserves (with_cells fn s.1) (with_cells fn s'.1) /\ dead_branches s'.1 /\ labels_ok (with_cells fn s'.1) /\
  forall g, takes g (map fst s.1) -> takes g (map fst s'.1).
Proof.
  revert s. induction ns as [|n ns IH]; intros [l c] Hd Hl; cbn [foldl]; [by split_and!|].
  destruct (invert_keeps l c n Hd) as [Hd' Ht].
  destruct (IH (invert_at (l, c) n)) as (P & D & L & T); [done | by eapply labels_ok_same, Hl; apply invert_labels|].
  split_and!; try done; [etransitivity; [apply invert_preserves | done]|]. intros g Hg. by apply T, Ht.
Qed.

(** ** The pass preserves the function *)

(** What the pass needs of a function. *)
Record cfgclean_ready {M : Machine} (fn : ir_func) : Prop := {
  cr_wf : wf_func fn;
  cr_labels : labels_ok fn;
  cr_imms : imms_ok fn;
  cr_conds : conds_ok (nvars fn) (nvregs fn) (ins fn);
  cr_landing : landing_ok (ins fn);
  cr_esc s : esc s = true -> 0 <= s < nvars fn;
  cr_goto x l : igoto x = Some l -> l ∈ taken_labels fn }.

Section Whole.
Context {M : Machine}.

(** The loops on marked instructions, from what the constants decided. *)
Lemma marked_preserves fn l : labels_ok (with_cells fn l) -> wf_func (with_cells fn l) ->
  conds_ok (nvars fn) (nvregs fn) (map fst l) -> landing_ok (map fst l) -> dead_branches l ->
  (forall s, esc s = true -> 0 <= s < nvars fn) -> (forall x g, igoto x = Some g -> takes g (map fst l)) ->
  preserves (with_cells fn l)
    (remove_dead fn (sweep fn (invert_branches (map fst (cond_branches l))).1)).1.
Proof.
  intros Hl Hwf Hc Hld Hd He Hg.
  assert (P1 : preserves (with_cells fn l) (with_cells fn (cond_cells l))) by (by apply cond_preserves).
  assert (L1 : labels_ok (with_cells fn (cond_cells l))) by (by eapply labels_ok_same, Hl; apply cond_labels).
  destruct (cond_cleaned l Hd) as [Cl Hd1]. fold (cond_cells l).
  destruct (invert_all fn (seq 0 (length (cond_cells l))) (cond_cells l, false) Hd1 L1) as (P2 & Hd2 & L2 & T2).
  fold (invert_branches (cond_cells l)) in P2, Hd2, L2, T2.
  etransitivity; [exact P1|]. etransitivity; [exact P2|]. etransitivity; [|apply remove_preserves].
  apply sweep_preserves; [done | done|]. intros x g X. apply T2. simpl. eapply cleaned_takes; [exact Cl | by eapply Hg].
Qed.

Lemma cfgclean_preserves no_lk fn : cfgclean_ready fn -> preserves fn (pass_cfgclean no_lk fn).1.
Proof.
  intros [Hwf Hl Hi Hc Hld He Hg]. unfold pass_cfgclean. destruct (_ || _); [done|].
  pose proof (forward_preserves fn Hl) as P1. pose proof (forward_cleaned fn Hl) as C1.
  pose proof (labels_ok_same _ _ (forward_labels fn Hl) Hl) as L1.
  assert (F1 : nvars (forward_jumps fn).1 = nvars fn /\ nvregs (forward_jumps fn).1 = nvregs fn) by done.
  destruct (forward_jumps fn) as [fn1 c1]. cbn [fst] in *.
  pose proof (fall_preserves fn1 L1) as P2. pose proof (fall_cleaned fn1) as C2.
  pose proof (labels_ok_same _ _ (fall_labels fn1) L1) as L2.
  assert (F2 : nvars (fall_branches fn1).1 = nvars fn1 /\ nvregs (fall_branches fn1).1 = nvregs fn1) by done.
  destruct (fall_branches fn1) as [fn2 c2]. cbn [fst] in *.
  destruct F1 as [F1 F1'], F2 as [F2 F2']. rewrite F1 in F2. rewrite F1' in F2'. clear F1 F1'.
  assert (C : Forall2 cleaned (ins fn) (ins fn2)) by (by transitivity (ins fn1)). clear C1 C2.
  assert (W2 : Forall (wf_ins fn2) (ins fn2)).
  { eapply (cleaned_wf fn2); [exact C|]. destruct Hwf as [_ W]. eapply Forall_impl; [|exact W]. intros i. unfold wf_ins. by rewrite F2, F2'. }
  assert (Hwf2 : wf_func fn2) by (split; [rewrite F2, F2'; apply Hwf | done]).
  assert (Hi2 : imms_ok fn2) by (by eapply cleaned_imms).
  transitivity fn1; [done|]. transitivity fn2; [done|]. clear P1 P2.
  set (l := map fst (if no_lk then map (fun i => ((i, false), false)) (ins fn2) else lk_branches fn2)).
  assert (G : preserves fn2 (with_cells fn2 l) /\ labels_ok (with_cells fn2 l) /\
    Forall2 cleaned (ins fn2) (map fst l) /\ dead_branches l).
  { unfold l. destruct no_lk.
    - assert (E : map nop_dead (map fst (map (fun i : ir_ins => ((i, false), false)) (ins fn2))) = ins fn2 /\
        map fst (map fst (map (fun i : ir_ins => ((i, false), false)) (ins fn2))) = ins fn2).
      { rewrite !map_map. split; apply map_id. }
      destruct E as [E1 E2]. rewrite E2. split_and!; try done.
      + by apply preserves_same; [exact E1|..].
      + unfold with_cells. rewrite E1. by destruct fn2.
      + intros n i I. rewrite !list_lookup_fmap in I. by destruct (ins fn2 !! n).
    - fold (lk_cells fn2). destruct (lk_cleaned fn2). split_and!; try done.
      + apply lk_preserves; [done | by rewrite F2 | done].
      + by eapply labels_ok_same, L2; apply lk_labels. }
  destruct G as (P & L & C' & D). etransitivity; [exact P|].
  assert (Cl : Forall2 cleaned (ins fn) (map fst l)) by (by transitivity (ins fn2)).
  pose proof (marked_preserves fn2 l L) as Mp. fold l.
  destruct (invert_branches (map fst (cond_branches l))) as [cells c5]. cbn [fst] in Mp.
  destruct (remove_dead fn2 (sweep fn2 cells)) as [fn3 c6]. cbn [fst] in *. apply Mp; try done.
  - split; [simpl; rewrite F2, F2'; apply Hwf|]. apply nop_wf. exact (cleaned_wf fn2 _ _ C' W2).
  - rewrite F2, F2'. by eapply cleaned_conds_ok.
  - by eapply cleaned_landing.
  - by rewrite F2.
  - intros x g X. eapply cleaned_takes; [exact Cl | by eapply taken_takes, Hg].
Qed.
End Whole.


(** [k = 0; if (k) goto L0; k = 5; if (!n) goto L1; goto L2; L1: return n; L2: goto L3; ...]:
    a decided branch, a branch around a jump, a jump to a jump. *)
Definition brnz_ (a l : Z) : ir_ins := set_w 4 (set_label l (set_a a (set_op IR_BRNZ ins_blank))).
Definition ldvar_ (dst a : Z) : ir_ins := set_size 4 (set_w 4 (set_dst dst (set_a a (set_op IR_LDVAR ins_blank)))).
Definition tangled : ir_func :=
  Fn 1 1 3 4 [] [ldvar_ 1 0; const_ 2 0; brnz_ 2 0; const_ 2 5; brz_ 1 1; jmp_ 2; label_ 1; ret_ 1;
                 label_ 2; jmp_ 3; label_ 0; ret_ 2; label_ 3; ret_ 2] [] None [].


(** *** Two widths

    [long y = 1L << 32; if (!y) goto L0; if (!(int)y) goto L1; L0: return 1; L1: return 2;] *)
Definition two_widths : ir_func :=
  Fn 0 0 3 2 [] [set_w 8 (const_ 0 (2 ^ 32)); set_w 8 (brz_ 0 0); brz_ 0 1;
                 label_ 0; const_ 1 1; ret_ 1; label_ 1; const_ 2 2; ret_ 2] [] None [].

