(* ===== verification/Live.v ===== *)
(** * Liveness by block: [ra_live_compute] of [src/src/arch/regalloc.c]

    The register allocator's liveness, which pass_deaddefs and three code generators
    read too: the blocks and their edges, the vregs a block reads before it writes them,
    a backward search from there for one vreg at a time, the live-in and live-out sets
    in rows sorted by counting, and the range of instructions a vreg is live over; the
    sparse set a walk back through a block keeps. The theorems: the rows and the walk
    are exactly the least solution of the liveness equations on instructions, the
    ranges are the tightest, and the sparse set with its notifications is a set. *)
From stdpp Require Import base numbers list option sets.
From Stdlib Require Import ZArith Lia.
From S2P Require Import Prelude Ir Util IrSem Simulate Paths Cfg.

Local Open Scope Z_scope.

(** An array of ints. *)
Definition upn {A} (f : nat -> A) (k : nat) (v : A) : nat -> A := fun x => if (x =? k)%nat then v else f x.

(** ** What an instruction writes and reads *)

Definition ra_ins_def (i : ir_ins) : Z :=
  match i_op i with
  | IR_CONST | IR_MOV | IR_ADD | IR_SUB | IR_MUL
  | IR_DIV | IR_MOD | IR_AND | IR_OR | IR_XOR
  | IR_NEG | IR_BNOT | IR_CMP | IR_LDVAR | IR_ADDR
  | IR_STRADDR | IR_GADDR | IR_FADDR | IR_LOAD | IR_EXT
  | IR_I2F | IR_F2I | IR_F2F | IR_BITCAST
  | IR_BSWAP | IR_SQRT | IR_CLZ | IR_CTZ | IR_POPCNT
  | IR_SHL | IR_SHR | IR_XCHG | IR_XADD | IR_CMPXCHG
  | IR_ARMW | IR_CAS | IR_CAS16 | IR_FRAMEADDR
  | IR_ALLOCA | IR_SPSAVE | IR_STVAR | IR_CALL | IR_LABELADDR
  | IR_VLOAD | IR_VBIN | IR_VSPLAT | IR_VREDADD
  | IR_VWIDEN | IR_SELECT | IR_MULH | IR_MULW => i_dst i
  | IR_ASM => i_dst i
  | _ => -1
  end.

Section EachUse.
Context {S : Type} (cb : Z -> S -> S).

Definition use1 (v : Z) (s : S) : S := if 0 <=? v then cb v s else s.

Definition ra_each_use (i : ir_ins) (s : S) : S :=
  match i_op i with
  | IR_MOV | IR_NEG | IR_BNOT | IR_EXT | IR_BSWAP
  | IR_CLZ | IR_CTZ | IR_POPCNT | IR_SQRT
  | IR_I2F | IR_F2I | IR_F2F | IR_BITCAST
  | IR_LOAD | IR_LDVAR | IR_ADDR | IR_STVAR | IR_VA_START
  | IR_ALLOCA | IR_SPRESTORE | IR_RET | IR_BRZ | IR_BRNZ
  | IR_IGOTO | IR_SWITCH | IR_VLOAD
  | IR_VSPLAT | IR_VREDADD | IR_VWIDEN => use1 (i_a i) s
  | IR_ADD | IR_SUB | IR_MUL | IR_DIV | IR_MOD
  | IR_AND | IR_OR | IR_XOR | IR_SHL | IR_SHR
  | IR_CMP | IR_STORE | IR_MEMCPY | IR_MEMZERO
  | IR_XCHG | IR_XADD | IR_ARMW | IR_VSTORE | IR_VBIN
  | IR_MULH | IR_MULW => use1 (i_b i) (use1 (i_a i) s)
  | IR_CMPXCHG | IR_CAS | IR_CAS16 | IR_SELECT => use1 (i_c i) (use1 (i_b i) (use1 (i_a i) s))
  | IR_CALL =>
      let s := if indirect (i_call i) then use1 (i_a i) s else s in
      foldl (fun s a => use1 (arg_vreg a) s) s (argv (i_call i))
  | IR_ASM =>
      match i_asm i with
      | Some x =>
          let s := foldl (fun s o => use1 (ao_temp o) s) s (asm_in x) in
          foldl (fun s o => if negb (ao_val o) then use1 (ao_temp o) s else s) s (asm_out x)
      | None => s
      end
  | _ => s
  end.
End EachUse.

(** ** Pairs, and their rows *)

(** [struct ra_pairs]: [(v, b)] in the order they are made. *)
Abbreviation ra_pairs := (list (nat * nat)).
Definition ra_pairs_add (p : ra_pairs) (v b : nat) : ra_pairs := p ++ [(v, b)].

Record csr := Csr { c_off : nat -> nat; c_val : nat -> nat }.

Definition ra_pairs_csr (p : ra_pairs) (key : bool) (nkey : nat) : csr :=
  let k (x : nat * nat) := if key then x.2 else x.1 in
  let v (x : nat * nat) := if key then x.1 else x.2 in
  let off := foldl (fun off x => upn off (k x + 1)%nat (off (k x + 1) + 1)%nat) (fun _ => O) p in
  let off := foldl (fun off j => upn off (j + 1)%nat (off (j + 1) + off j)%nat) off (seq 0 nkey) in
  let fill := off in
  let fv := foldl (fun (fv : (nat -> nat) * (nat -> nat)) x =>
                     (upn fv.1 (k x) (fv.1 (k x) + 1)%nat, upn fv.2 (fv.1 (k x)) (v x)))
                  (fill, fun _ => O) p in
  Csr off fv.2.

(** [val[off[k]..off[k + 1])] *)
Definition row (c : csr) (k : nat) : list nat :=
  map (c_val c) (seq (c_off c k) (c_off c (k + 1)%nat - c_off c k)).

(** ** The blocks and their edges *)

Record ra_live := RaLive {
  lv_nins : nat; lv_nvr : nat; lv_nbb : nat;
  lv_bstart : nat -> nat; lv_blk : nat -> nat;
  lv_in : csr; lv_out : csr }.

(** [if (lead[i]) bstart[++b] = i; blk[i] = b;], [nb] being [b + 1]; the leaders are
    those of [build_cfg]. *)
Fixpoint mark_blocks (i nb : nat) (ld : list bool) (bstart blk : nat -> nat) : nat * (nat -> nat) * (nat -> nat) :=
  match ld with
  | [] => (nb, bstart, blk)
  | true :: ld => mark_blocks (S i) (S nb) ld (upn bstart nb i) (upn blk i nb)
  | false :: ld => mark_blocks (S i) nb ld bstart (upn blk i (nb - 1)%nat)
  end.

(** [labelidx], -1 being [None]: a later label overwrites. *)
Fixpoint label_index (fn : ir_func) (i : nat) (l : list ir_ins) (idx : Z -> option nat) : Z -> option nat :=
  match l with
  | [] => idx
  | s :: l => label_index fn (S i) l
      (if op_is (i_op s) IR_LABEL && in_labels fn (i_label s) then upd idx (i_label s) (Some i) else idx)
  end.
Definition labelidx (fn : ir_func) : Z -> option nat := label_index fn 0 (ins fn) (fun _ => None).

(** The block of a label of the function. *)
Definition label_blk (fn : ir_func) (blk : nat -> nat) (l : Z) : option nat :=
  if in_labels fn l then blk <$> labelidx fn l else None.

(** The blocks a computed goto may reach. *)
Definition taken_step (fn : ir_func) (blk : nat -> nat) (st : (nat -> bool) * list nat) (s : ir_ins)
  : (nat -> bool) * list nat :=
  match (if op_is (i_op s) IR_LABELADDR then label_blk fn blk (i_label s) else None) with
  | Some t => if st.1 t then st else (upn st.1 t true, st.2 ++ [t])
  | None => st
  end.
Definition taken_blocks (fn : ir_func) (blk : nat -> nat) : list nat :=
  if existsb (fun i => op_is (i_op i) IR_IGOTO) (ins fn)
  then (foldl (taken_step fn blk) (fun _ => false, []) (ins fn)).2 else [].

(** The successors of a block whose last instruction is [s] at [i]. *)
Definition edge_targets (fn : ir_func) (blk : nat -> nat) (taken : list nat) (b i : nat) (s : ir_ins) : list nat :=
  let to l := match label_blk fn blk l with Some t => [t] | None => [] end in
  (match i_op s with
   | IR_JMP | IR_RET | IR_UD2 | IR_SWITCH | IR_IGOTO => []
   | _ => if (i + 1 <? length (ins fn))%nat then [b + 1]%nat else []
   end) ++
  (match i_op s with
   | IR_IGOTO => taken
   | IR_JMP | IR_BRZ | IR_BRNZ => to (i_label s)
   | IR_SWITCH => concat (map to (i_label s :: jt fn !!! Z.to_nat (i_jt s)))
   | _ => []
   end).

(** [(succ, pred)] *)
Definition block_edges (fn : ir_func) (bstart blk : nat -> nat) (taken : list nat) (b : nat) : ra_pairs :=
  let i := (bstart (b + 1)%nat - 1)%nat in
  match ins fn !! i with
  | Some s => map (fun t => (t, b)) (edge_targets fn blk taken b i s)
  | None => []
  end.
Definition edges (fn : ir_func) (bstart blk : nat -> nat) (nbb : nat) : ra_pairs :=
  concat (map (block_edges fn bstart blk (taken_blocks fn blk)) (seq 0 nbb)).

(** The instructions of a block. *)
Definition block_ins (fn : ir_func) (bstart : nat -> nat) (b : nat) : list ir_ins :=
  take (bstart (b + 1)%nat - bstart b) (drop (bstart b) (ins fn)).

(** ** What a block reads first and what it writes *)

Record exposed_st := Exp { ue : ra_pairs; df : ra_pairs; ustamp : nat -> nat; dstamp : nat -> nat }.

Definition ra_ue_cb (nvr : nat) (b : nat) (v : Z) (u : exposed_st) : exposed_st :=
  let n := Z.to_nat v in
  if (Z.of_nat nvr <=? v) || (dstamp u n =? b + 1)%nat || (ustamp u n =? b + 1)%nat then u
  else Exp (ra_pairs_add (ue u) n b) (df u) (upn (ustamp u) n (b + 1)%nat) (dstamp u).

Definition ue_ins (nvr b : nat) (u : exposed_st) (s : ir_ins) : exposed_st :=
  let u := ra_each_use (ra_ue_cb nvr b) s u in
  let d := ra_ins_def s in
  let n := Z.to_nat d in
  if (0 <=? d) && (d <? Z.of_nat nvr) && negb (dstamp u n =? b + 1)%nat
  then Exp (ue u) (ra_pairs_add (df u) n b) (ustamp u) (upn (dstamp u) n (b + 1)%nat) else u.

Definition ue_block (fn : ir_func) (bstart : nat -> nat) (nvr : nat) (u : exposed_st) (b : nat) : exposed_st :=
  foldl (ue_ins nvr b) u (block_ins fn bstart b).

(** ** The search, one vreg at a time *)

Record search_st := Srch {
  lin : ra_pairs; lout : ra_pairs;
  inmk : nat -> nat; outmk : nat -> nat; defmk : nat -> nat;
  work : list nat }.

Definition live_pred (v : nat) (s : search_st) (p : nat) : search_st :=
  let s := if (outmk s p =? v + 1)%nat then s
           else Srch (lin s) (ra_pairs_add (lout s) v p) (inmk s) (upn (outmk s) p (v + 1)%nat) (defmk s) (work s) in
  if negb (defmk s p =? v + 1)%nat && negb (inmk s p =? v + 1)%nat
  then Srch (ra_pairs_add (lin s) v p) (lout s) (upn (inmk s) p (v + 1)%nat) (outmk s) (defmk s) (p :: work s)
  else s.

(** [while (nw > 0)]; a block is pushed once, so as many rounds as there are blocks
    empty the stack. *)
Fixpoint live_loop (fuel : nat) (pred : csr) (v : nat) (s : search_st) : search_st :=
  match fuel, work s with
  | S fuel, b :: wk =>
      live_loop fuel pred v (foldl (live_pred v)
        (Srch (lin s) (lout s) (inmk s) (outmk s) (defmk s) wk) (row pred b))
  | _, _ => s
  end.

Definition live_seed (v : nat) (s : search_st) (b : nat) : search_st :=
  Srch (ra_pairs_add (lin s) v b) (lout s) (upn (inmk s) b (v + 1)%nat) (outmk s) (defmk s) (b :: work s).

Definition live_vreg (nbb : nat) (pred ueb dfb : csr) (s : search_st) (v : nat) : search_st :=
  if (c_off ueb v =? c_off ueb (v + 1))%nat then s
  else
    let s := Srch (lin s) (lout s) (inmk s) (outmk s)
               (foldl (fun m b => upn m b (v + 1)%nat) (defmk s) (row dfb v)) [] in
    live_loop nbb pred v (foldl (live_seed v) s (row ueb v)).

(** ** The whole, with the ranges *)

(** [first] and [last], -1 for a vreg never live. *)
Definition ranges : Type := (nat -> Z) * (nat -> Z).
Definition ra_fl_upd (fl : ranges) (v i : nat) : ranges :=
  let i := Z.of_nat i in
  (if (fl.1 v <? 0) || (i <? fl.1 v) then upn fl.1 v i else fl.1,
   if fl.2 v <? i then upn fl.2 v i else fl.2).
Definition ra_fl_cb (nvr i : nat) (v : Z) (fl : ranges) : ranges :=
  if v <? Z.of_nat nvr then ra_fl_upd fl (Z.to_nat v) i else fl.

Definition fl_ins (nvr : nat) (st : ranges * nat) (s : ir_ins) : ranges * nat :=
  let '(fl, i) := st in
  let fl := ra_each_use (ra_fl_cb nvr i) s fl in
  let d := ra_ins_def s in
  (if (0 <=? d) && (d <? Z.of_nat nvr) then ra_fl_upd fl (Z.to_nat d) i else fl, S i).

Definition fl_block (fn : ir_func) (lv : ra_live) (fl : ranges) (b : nat) : ranges :=
  let s := lv_bstart lv b in
  let e := lv_bstart lv (b + 1)%nat in
  let fl := foldl (fun fl v => ra_fl_upd fl v s) fl (row (lv_in lv) b) in
  let fl := foldl (fun fl v => ra_fl_upd fl v (e - 1)%nat) fl (row (lv_out lv) b) in
  (foldl (fl_ins (lv_nvr lv)) (fl, s) (block_ins fn (lv_bstart lv) b)).1.

Definition csr0 : csr := Csr (fun _ => O) (fun _ => O).

Definition ra_live_sets (fn : ir_func) : ra_live :=
  let N := length (ins fn) in
  let nvr := Z.to_nat (nvregs fn) in
  if (N =? 0)%nat || (nvr =? 0)%nat then RaLive N nvr 0 (fun _ => O) (fun _ => O) csr0 csr0
  else
    let '(nbb, bstart, blk) := mark_blocks 0 0 (lead fn) (fun _ => O) (fun _ => O) in
    let bstart := upn bstart nbb N in
    let pred := ra_pairs_csr (edges fn bstart blk nbb) false nbb in
    let u := foldl (ue_block fn bstart nvr) (Exp [] [] (fun _ => O) (fun _ => O)) (seq 0 nbb) in
    let ueb := ra_pairs_csr (ue u) false nvr in
    let dfb := ra_pairs_csr (df u) false nvr in
    let s := foldl (live_vreg nbb pred ueb dfb) (Srch [] [] (fun _ => O) (fun _ => O) (fun _ => O) []) (seq 0 nvr) in
    RaLive N nvr nbb bstart blk (ra_pairs_csr (lin s) true nbb) (ra_pairs_csr (lout s) true nbb).

Definition ra_live_compute (fn : ir_func) : ra_live * ranges :=
  let lv := ra_live_sets fn in
  (lv, foldl (fl_block fn lv) (fun _ => -1, fun _ => -1) (seq 0 (lv_nbb lv))).

(** [ra_live_in_at] *)
Definition ra_isuse (v : Z) (s : ir_ins) : bool := ra_each_use (fun w found => if w =? v then true else found) s false.

Definition live_back (v : Z) (s : ir_ins) (live : bool) : bool :=
  let live := if ra_ins_def s =? v then false else live in
  if ra_isuse v s then true else live.

Definition ra_live_in_at (lv : ra_live) (fn : ir_func) (i v : Z) : bool :=
  if (i <? 0) || (Z.of_nat (lv_nins lv) <=? i) || (v <? 0) || (Z.of_nat (lv_nvr lv) <=? v) then false
  else
    let n := Z.to_nat i in
    let b := lv_blk lv n in
    let live := existsb (fun w => (w =? Z.to_nat v)%nat) (row (lv_out lv) b) in
    foldr (live_back v) live (take (lv_bstart lv (b + 1)%nat - n) (drop n (ins fn))).

(** ** Rows sorted by counting *)

Section Rows.
Context (p : ra_pairs) (k v : nat * nat -> nat).

Definition below (j : nat) : nat := length (filter (fun x => (k x < j)%nat) p).
Definition bucket (l : ra_pairs) (j : nat) : ra_pairs := filter (fun x => k x = j) l.

Lemma below_S j : below (S j) = (below j + length (bucket p j))%nat.
Proof.
  unfold below, bucket. induction p as [|x l IH]; [done|]. rewrite !filter_cons.
  destruct (decide (k x < S j)%nat), (decide (k x < j)%nat), (decide (k x = j)); simpl; lia.
Qed.

Lemma count_off l (off : nat -> nat) j :
  foldl (fun off x => upn off (k x + 1)%nat (off (k x + 1) + 1)%nat) off l j
  = (off j + match j with O => O | S i => length (bucket l i) end)%nat.
Proof.
  revert off. induction l as [|x l IH]; intros off; simpl; [destruct j; simpl; lia|]. rewrite IH. unfold upn, bucket.
  destruct j as [|i]; [destruct (Nat.eqb_spec 0 (k x + 1)); lia|]. rewrite filter_cons.
  destruct (decide (k x = i)) as [<-|]; [rewrite <- Nat.add_1_r, Nat.eqb_refl; simpl; lia|].
  by destruct (Nat.eqb_spec (S i) (k x + 1)); [lia|].
Qed.

Lemma prefix_off (off : nat -> nat) n : (forall j, off j = match j with O => O | S i => length (bucket p i) end) ->
  forall j, foldl (fun off j => upn off (j + 1)%nat (off (j + 1) + off j)%nat) off (seq 0 n) j
    = if (j <=? n)%nat then below j else off j.
Proof.
  intros Ho. induction n as [|n IH]; intros j.
  - simpl. rewrite Ho. destruct j; simpl; [|done]. unfold below. clear. induction p as [|x l IH]; [done|].
    rewrite filter_cons. by destruct (decide (k x < 0)%nat); [lia|].
  - rewrite seq_S, foldl_app. simpl. unfold upn at 1. rewrite !IH.
    destruct (Nat.eqb_spec j (n + 1)), (Nat.leb_spec j n), (Nat.leb_spec j (S n)), (Nat.leb_spec (n + 1) n), (Nat.leb_spec n n); try lia.
    subst. rewrite Ho, Nat.add_1_r, below_S. lia.
Qed.

Lemma below_bound j l1 x l2 : p = l1 ++ x :: l2 -> k x = j ->
  (below j + length (bucket l1 j) < below (S j))%nat.
Proof.
  intros E K. rewrite below_S, E. unfold bucket at 2. rewrite filter_app, filter_cons, decide_True, length_app by done.
  simpl. unfold bucket. lia.
Qed.

Lemma below_mono i j : (i <= j)%nat -> (below i <= below j)%nat.
Proof. intros L. induction L as [|j L IH]; [done|]. rewrite below_S. lia. Qed.

Lemma fill_rows (fill : nat -> nat) l1 l2 val : p = l1 ++ l2 ->
  (forall j, (exists x, x ∈ l2 /\ k x = j) -> fill j = (below j + length (bucket l1 j))%nat) ->
  (forall j m x, bucket l1 j !! m = Some x -> val (below j + m)%nat = v x) ->
  let r := foldl (fun (fv : (nat -> nat) * (nat -> nat)) x =>
    (upn fv.1 (k x) (fv.1 (k x) + 1)%nat, upn fv.2 (fv.1 (k x)) (v x))) (fill, val) l2 in
  forall j m x, bucket p j !! m = Some x -> r.2 (below j + m)%nat = v x.
Proof.
  revert l1 fill val. induction l2 as [|x l2 IH]; intros l1 fill val E Hf Hv; cbn [foldl].
  - rewrite app_nil_r in E. intros j m x. rewrite E at 1. apply Hv.
  - assert (Fx : fill (k x) = (below (k x) + length (bucket l1 (k x)))%nat) by (apply Hf; exists x; split; [left | done]).
    assert (B : forall j, bucket (l1 ++ [x]) j = bucket l1 j ++ (if decide (k x = j) then [x] else [])).
    { intros j. unfold bucket. rewrite filter_app, filter_cons. by destruct (decide (k x = j)). }
    apply (IH (l1 ++ [x])).
    + by rewrite <- (assoc (++)).
    + intros j (y & Hy & Ky). simpl. rewrite B, length_app. unfold upn. destruct (Nat.eqb_spec j (k x)) as [->|N].
      * rewrite decide_True, Fx by done. simpl. lia.
      * rewrite decide_False by done. rewrite Hf by (exists y; split; [by right | done]). simpl. lia.
    + intros j m y Hm. simpl. rewrite Fx. unfold upn. pose proof (below_bound (k x) l1 x l2 E eq_refl) as Bd.
      rewrite B in Hm. apply lookup_app_Some in Hm as [Hm|[L Hm]].
      * pose proof (lookup_lt_Some _ _ _ Hm) as Lt. destruct (Nat.eqb_spec (below j + m) (below (k x) + length (bucket l1 (k x)))) as [Eq|]; [|by apply Hv].
        exfalso. assert (Lj : (below j + m < below (S j))%nat).
        { rewrite below_S, E. unfold bucket at 1. rewrite filter_app, length_app. unfold bucket in Lt. lia. }
        destruct (Nat.lt_trichotomy j (k x)) as [Lx|[->|Lx]]; [|lia|].
        -- pose proof (below_mono (S j) (k x) ltac:(lia)). lia.
        -- pose proof (below_mono (S (k x)) j ltac:(lia)). lia.
      * destruct (decide (k x = j)) as [<-|]; [|done]. apply list_lookup_singleton_Some in Hm as [Hm <-].
        by replace (below (k x) + m =? below (k x) + length (bucket l1 (k x)))%nat with true by (symmetry; apply Nat.eqb_eq; lia).
Qed.
End Rows.

(** Each row holds the values of its key, in the order the pairs were made. *)
Lemma csr_row (p : ra_pairs) (key : bool) (n j : nat) : (j < n)%nat ->
  Forall (fun x => (if key then x.2 else x.1) < n)%nat p ->
  row (ra_pairs_csr p key n) j =
    map (fun x => if key then x.1 else x.2) (filter (fun x => (if key then x.2 else x.1) = j) p).
Proof.
  intros L F. set (k x := if key then x.2 else x.1 : nat). set (v x := if key then x.1 else x.2 : nat).
  unfold ra_pairs_csr. fold k. fold v. cbv zeta.
  set (off := foldl _ (foldl _ _ p) _). unfold row. cbn [c_off c_val].
  assert (Ho : forall i, (i <= n)%nat -> off i = below p k i).
  { intros i Hi. unfold off. rewrite (prefix_off p k); [by rewrite (proj2 (Nat.leb_le i n) Hi)|].
    intros i'. by rewrite count_off. }
  rewrite !Ho by lia. rewrite Nat.add_1_r, below_S, Nat.add_comm, Nat.add_sub. apply list_eq. intros m.
  rewrite !list_lookup_fmap. 
  change (filter (fun x => (if key then x.2 else x.1) = j) p) with (bucket k p j). destruct (bucket k p j !! m) as [x|] eqn:E.
  - rewrite lookup_seq_lt by (by eapply lookup_lt_Some). simpl. f_equal.
    refine (fill_rows p k v off [] p (fun _ => O) eq_refl _ _ j m x E); [|done].
    intros i (y & Hy & <-). simpl. rewrite Nat.add_0_r. apply Ho. rewrite Forall_forall in F. apply F in Hy. unfold k. lia.
  - rewrite lookup_seq_ge by (by apply lookup_ge_None). done.
Qed.

Lemma csr_row_In (p : ra_pairs) (key : bool) (n j x : nat) : (j < n)%nat ->
  Forall (fun x => (if key then x.2 else x.1) < n)%nat p ->
  x ∈ row (ra_pairs_csr p key n) j <-> (if key then (x, j) else (j, x)) ∈ p.
Proof.
  intros L F. rewrite csr_row by done. rewrite list_elem_of_fmap. setoid_rewrite list_elem_of_filter. split.
  - intros ([a b] & -> & E & H). destruct key; simpl in *; by subst.
  - intros H. exists (if key then (x, j) else (j, x)). by destruct key.
Qed.

(** ** Uses *)

Definition use_list (i : ir_ins) : list Z :=
  match i_op i with
  | IR_MOV | IR_NEG | IR_BNOT | IR_EXT | IR_BSWAP
  | IR_CLZ | IR_CTZ | IR_POPCNT | IR_SQRT
  | IR_I2F | IR_F2I | IR_F2F | IR_BITCAST
  | IR_LOAD | IR_LDVAR | IR_ADDR | IR_STVAR | IR_VA_START
  | IR_ALLOCA | IR_SPRESTORE | IR_RET | IR_BRZ | IR_BRNZ
  | IR_IGOTO | IR_SWITCH | IR_VLOAD
  | IR_VSPLAT | IR_VREDADD | IR_VWIDEN => [i_a i]
  | IR_ADD | IR_SUB | IR_MUL | IR_DIV | IR_MOD
  | IR_AND | IR_OR | IR_XOR | IR_SHL | IR_SHR
  | IR_CMP | IR_STORE | IR_MEMCPY | IR_MEMZERO
  | IR_XCHG | IR_XADD | IR_ARMW | IR_VSTORE | IR_VBIN
  | IR_MULH | IR_MULW => [i_a i; i_b i]
  | IR_CMPXCHG | IR_CAS | IR_CAS16 | IR_SELECT => [i_a i; i_b i; i_c i]
  | IR_CALL => (if indirect (i_call i) then [i_a i] else []) ++ map arg_vreg (argv (i_call i))
  | IR_ASM => match i_asm i with Some x => asm_reads x | None => [] end
  | _ => []
  end.
Definition uses (i : ir_ins) : list Z := filter (fun v => 0 <= v) (use_list i).

Lemma foldl_fmap {A B S} (f : S -> B -> S) (g : A -> B) l s : foldl f s (map g l) = foldl (fun s x => f s (g x)) s l.
Proof. revert s. induction l as [|x l IH]; intros s; simpl; [done | apply IH]. Qed.
Lemma foldl_filter {A S} (f : S -> A -> S) (P : A -> Prop) `{!forall x, Decision (P x)} l s :
  foldl f s (filter P l) = foldl (fun s x => if decide (P x) then f s x else s) s l.
Proof. revert s. induction l as [|x l IH]; intros s; [done|]. rewrite filter_cons. simpl. destruct (decide (P x)); apply IH. Qed.
Lemma foldl_same {A S} (f g : S -> A -> S) l s : (forall s x, f s x = g s x) -> foldl f s l = foldl g s l.
Proof. intros H. revert s. induction l as [|x l IH]; intros s; simpl; [done|]. by rewrite H. Qed.

(** The visitor goes over them in order. *)
Lemma each_use_list {S} (cb : Z -> S -> S) i s :
  ra_each_use cb i s = foldl (fun s v => cb v s) s (uses i).
Proof.
  unfold uses. rewrite foldl_filter.
  assert (E : forall l s, foldl (fun s v => if decide (0 <= v) then cb v s else s) s l = foldl (fun s v => use1 cb v s) s l).
  { intros l s'. apply foldl_same. intros s0 v. unfold use1. by destruct (decide (0 <= v)), (Z.leb_spec 0 v); try lia. }
  rewrite E. unfold ra_each_use, use_list. destruct (i_op i); try done.
  - rewrite foldl_app, foldl_fmap. by destruct (indirect (i_call i)).
  - destruct (i_asm i) as [x|]; [|done]. unfold asm_reads. rewrite foldl_app, !foldl_fmap, foldl_filter.
    apply foldl_same. intros s0 o. by destruct (ao_val o).
Qed.

Lemma isuse_iff v i : ra_isuse v i = true <-> v ∈ uses i.
Proof.
  unfold ra_isuse. rewrite each_use_list.
  assert (G : forall l b, foldl (fun s w => if w =? v then true else s) b l = true <-> b = true \/ v ∈ l).
  { induction l as [|x l IH]; intros b; simpl; [rewrite elem_of_nil; tauto|]. rewrite IH, elem_of_cons.
    destruct (Z.eqb_spec x v); intuition congruence. }
  rewrite G. intuition congruence.
Qed.

Lemma reads_used i r : r ∈ reads i -> 0 <= r -> r ∈ uses i.
Proof.
  rewrite reads_eq. intros H L. apply list_elem_of_filter. split; [done|]. revert H.
  unfold reads_spec, use_list. destruct (i_op i); try done; try (destruct (i_imm_b i)); try (destruct (0 <=? i_b i)); try (destruct (0 <=? i_a i));
    rewrite ?elem_of_cons, ?elem_of_nil; tauto.
Qed.

(** ** Blocks *)

Lemma mark_blocks_spans ld : forall i nb bs blk prev, bs nb = prev -> (prev < i)%nat ->
  (forall j, (prev <= j < i)%nat -> blk j = nb) ->
  let '(n, bs', blk') := mark_blocks i (S nb) ld bs blk in
  n = (nb + length (spans_from prev i ld))%nat /\
  (forall k s e, spans_from prev i ld !! k = Some (s, e) ->
     bs' (nb + k)%nat = s /\ forall j, (s <= j < e)%nat -> blk' j = (nb + k)%nat) /\
  (forall x, (x <= nb)%nat -> bs' x = bs x) /\ (forall j, (j < i)%nat -> blk' j = blk j).
Proof.
  induction ld as [|[] ld IH]; intros i nb bs blk prev Hb L Hk; cbn [mark_blocks spans_from].
  - split_and!; try done; [simpl; lia|]. intros [|k] s e; simpl; [|done]. intros [= <- <-]. by rewrite Nat.add_0_r.
  - specialize (IH (S i) (S nb) (upn bs (S nb) i) (upn blk i (S nb)) i).
    destruct (mark_blocks (S i) (S (S nb)) ld _ _) as [[n bs'] blk'].
    destruct IH as (-> & Hs & Hx & Hj).
    + unfold upn. by rewrite Nat.eqb_refl.
    + lia.
    + intros j Hj. unfold upn. by replace (j =? i)%nat with true by (symmetry; apply Nat.eqb_eq; lia).
    + assert (B : forall j, (j < i)%nat -> blk' j = blk j).
      { intros j Lj. rewrite Hj by lia. unfold upn. by destruct (Nat.eqb_spec j i); [lia|]. }
      assert (X : forall x, (x <= nb)%nat -> bs' x = bs x).
      { intros x Lx. rewrite Hx by lia. unfold upn. by destruct (Nat.eqb_spec x (S nb)); [lia|]. }
      split_and!; try done; [simpl; lia|]. intros [|k] s e; simpl.
      * intros [= <- <-]. rewrite Nat.add_0_r. split; [by rewrite X|]. intros j Lj. rewrite B by lia. by apply Hk.
      * intros E. destruct (Hs k s e E). by rewrite Nat.add_succ_r.
  - specialize (IH (S i) nb bs (upn blk i nb) prev). rewrite Nat.sub_succ, Nat.sub_0_r.
    destruct (mark_blocks (S i) (S nb) ld _ _) as [[n bs'] blk'].
    destruct IH as (-> & Hs & Hx & Hj); [done | lia | | ].
    + intros j Hj. unfold upn. destruct (Nat.eqb_spec j i); [done|]. apply Hk. lia.
    + split_and!; try done. intros j Lj. rewrite Hj by lia. unfold upn. by destruct (Nat.eqb_spec j i); [lia|].
Qed.

Section Graph.
Context (fn : ir_func) (Hne : ins fn <> []).
Let N := length (ins fn).

Definition mb : nat * (nat -> nat) * (nat -> nat) := mark_blocks 0 0 (lead fn) (fun _ => O) (fun _ => O).
Definition nbb_of : nat := mb.1.1.
Definition bstart_of : nat -> nat := upn mb.1.2 mb.1.1 (length (ins fn)).
Definition blk_of : nat -> nat := mb.2.

Lemma N_pos : (0 < N)%nat.
Proof using Hne. unfold N. destruct (ins fn); [done|]. simpl. lia. Qed.

Lemma blocks_marked : nbb_of = length (spans fn) /\ (forall b s e, spans fn !! b = Some (s, e) ->
  bstart_of b = s /\ bstart_of (b + 1)%nat = e /\ forall j, (s <= j < e)%nat -> blk_of j = b).
Proof using Hne.
  unfold nbb_of, bstart_of, blk_of, mb. pose proof (spans_tiles fn N_pos) as T.
  pose proof (leads_length true (ins fn)) as Ll. fold (lead fn) in Ll. pose proof N_pos as P. unfold N in P.
  assert (E0 : exists ld, lead fn = true :: ld).
  { unfold lead. destruct (ins fn) as [|i l]; [done|]. simpl. by eexists. }
  destruct E0 as [ld E0]. assert (Es : spans fn = spans_from 0 1 ld) by (unfold spans; by rewrite E0).
  rewrite E0. cbn [mark_blocks].
  pose proof (mark_blocks_spans ld 1 0 (upn (fun _ => O) 0%nat O) (upn (fun _ => O) 0%nat O) 0) as M.
  destruct (mark_blocks 1 1 ld _ _) as [[n bs] blk]. rewrite <- Es in M. destruct M as (-> & Hs & _ & _).
  - done.
  - lia.
  - intros j Lj. unfold upn. by destruct (j =? 0)%nat.
  - simpl. split; [done|]. intros b s e B. destruct (Hs b s e B) as [Eb Ek]. pose proof (lookup_lt_Some _ _ _ B) as Lb.
    unfold upn. split_and!; [|..|exact Ek].
    + destruct (Nat.eqb_spec b (length (spans fn))); [lia | exact Eb].
    + pose proof (tiles_next _ _ _ _ _ _ T B) as X. rewrite Nat.add_1_r.
      destruct (Nat.eqb_spec (S b) (length (spans fn))) as [El|Nl].
      * rewrite lookup_ge_None_2 in X by lia. done.
      * destruct (lookup_lt_is_Some_2 (spans fn) (S b)) as [[s' e'] B']; [lia|]. rewrite B' in X. subst s'.
        by destruct (Hs (S b) e e' B').
Qed.

(** *** Labels *)

Lemma concat_map_In {A B} (f : A -> list B) l x : x ∈ concat (map f l) <-> exists y, y ∈ l /\ x ∈ f y.
Proof.
  rewrite list_elem_of_In, in_concat. setoid_rewrite in_map_iff. split.
  - intros (z & (y & <- & Hy) & Hx). exists y. by rewrite !list_elem_of_In.
  - intros (y & Hy & Hx). exists (f y). rewrite list_elem_of_In in Hx. split; [|done]. exists y. by rewrite <- list_elem_of_In.
Qed.

Context (Hl : labels_ok fn).

Lemma label_index_In i l idx x m : label_index fn i l idx x = Some m ->
  idx x = Some m \/ exists k s, l !! k = Some s /\ m = (i + k)%nat /\ i_op s = IR_LABEL /\ i_label s = x.
Proof.
  revert i idx. induction l as [|s l IH]; intros i idx; simpl; [by left|]. intros [E|(k & t & K & -> & H)]%IH.
  - destruct (op_is (i_op s) IR_LABEL) eqn:O; simpl in E; [|by left]. destruct (in_labels fn (i_label s)); [|by left].
    unfold upd in E. destruct (Z.eqb_spec x (i_label s)) as [->|]; [|by left]. injection E as <-. right. exists 0%nat, s.
    unfold op_is in O. apply bool_decide_eq_true in O. rewrite Nat.add_0_r. done.
  - right. exists (S k), t. split; [done|]. split; [lia | done].
Qed.

Lemma label_index_there i l idx x : (is_Some (idx x) \/ exists k s, l !! k = Some s /\ i_op s = IR_LABEL /\ i_label s = x /\ in_labels fn x = true) ->
  is_Some (label_index fn i l idx x).
Proof.
  revert i idx. induction l as [|s l IH]; intros i idx; simpl; [by intros [|(k & s & ? & _)]|]. intros H. apply IH.
  destruct H as [[m H]|(k & t & K & O & E & I)].
  - left. destruct (_ && _); [|by eexists]. unfold upd. destruct (_ =? _); [by eexists | by rewrite H].
  - destruct k as [|k]; simpl in K; [|right; by exists k, t]. left. injection K as ->. rewrite E, I. unfold op_is. rewrite O. simpl.
    rewrite upd_same. by eexists.
Qed.

Lemma labelidx_pos l m : labelidx fn l = Some m <-> label_pos fn l = Some m.
Proof using Hl.
  assert (F : forall m, labelidx fn l = Some m -> label_pos fn l = Some m).
  { intros m' [?|(k & s & K & -> & O & E)]%label_index_In; [done|]. rewrite <- E. by apply label_pos_unique. }
  split; [apply F|]. intros P. destruct (label_pos_spec fn l m P) as (i & I & O & E).
  destruct (label_index_there 0 (ins fn) (fun _ => None) l) as [m' Q].
  - right. exists m, i. split_and!; try done. rewrite <- E. destruct Hl as [Fl _]. exact (Forall_lookup_1 _ _ _ _ Fl I O).
  - fold (labelidx fn) in Q. rewrite Q. pose proof (F m' Q). congruence.
Qed.

Lemma label_blk_pos blk l t : label_blk fn blk l = Some t <-> exists m, label_pos fn l = Some m /\ blk m = t.
Proof using Hl.
  unfold label_blk. split.
  - destruct (in_labels fn l); [|done]. intros (m & L & ->)%fmap_Some. exists m. by rewrite <- labelidx_pos.
  - intros (m & P & <-). pose proof (proj2 (labelidx_pos l m) P) as ->.
    destruct (label_pos_spec fn l m P) as (i & I & O & E). destruct Hl as [Fl _].
    rewrite <- E, (Forall_lookup_1 _ _ _ _ Fl I O). done.
Qed.

(** *** Successors of an instruction *)

Definition isucc (n m : nat) : Prop := exists i, ins fn !! n = Some i /\
  ((falls i = true /\ m = S n /\ (S n < length (ins fn))%nat) \/
   exists l, l ∈ goto_labels fn i /\ label_pos fn l = Some m).

Lemma taken_blocks_In blk t : (exists i, i ∈ ins fn /\ i_op i = IR_IGOTO) ->
  t ∈ taken_blocks fn blk <-> exists l m, l ∈ taken_labels fn /\ label_pos fn l = Some m /\ blk m = t.
Proof using Hl.
  intros (ig & Hig & Oig). unfold taken_blocks.
  assert (existsb (fun i => op_is (i_op i) IR_IGOTO) (ins fn) = true) as ->.
  { apply existsb_exists. exists ig. split; [by apply list_elem_of_In|]. unfold op_is. by rewrite Oig. }
  assert (G : forall l st, (forall x, st.1 x = true <-> x ∈ st.2) ->
    t ∈ (foldl (taken_step fn blk) st l).2 <->
    t ∈ st.2 \/ exists s, s ∈ l /\ i_op s = IR_LABELADDR /\ label_blk fn blk (i_label s) = Some t).
  { induction l as [|s l IH]; intros st Hs; simpl.
    - split; [by left|]. intros [|(s & H & _)]; [done | by apply elem_of_nil in H].
    - assert (Ex : (exists s0, s0 ∈ s :: l /\ i_op s0 = IR_LABELADDR /\ label_blk fn blk (i_label s0) = Some t) <->
        (i_op s = IR_LABELADDR /\ label_blk fn blk (i_label s) = Some t) \/
        exists s0, s0 ∈ l /\ i_op s0 = IR_LABELADDR /\ label_blk fn blk (i_label s0) = Some t).
      { setoid_rewrite elem_of_cons. split; [intros (s0 & [->|H] & K); eauto | intros [H|(s0 & H & K)]; eauto]. }
      rewrite Ex. unfold taken_step at 2. unfold op_is. case_bool_decide as O.
      + destruct (label_blk fn blk (i_label s)) as [b|] eqn:B.
        * destruct (st.1 b) eqn:Sb.
          -- rewrite IH by done. apply Hs in Sb. intuition congruence.
          -- rewrite IH; simpl.
             ++ rewrite elem_of_app, list_elem_of_singleton. intuition congruence.
             ++ intros x. rewrite elem_of_app, list_elem_of_singleton, <- Hs. unfold upn. destruct (Nat.eqb_spec x b); intuition congruence.
        * rewrite IH by done. intuition congruence.
      + rewrite IH by done. tauto. }
  rewrite G by (simpl; intros x; rewrite elem_of_nil; split; done). simpl. rewrite elem_of_nil. unfold taken_labels. split.
  - intros [[]|(s & Hs & O & (m & P & E)%label_blk_pos)]. exists (i_label s), m. split; [|done].
    apply list_elem_of_fmap_2, list_elem_of_filter. done.
  - intros (l & m & (s & -> & [O Hs]%list_elem_of_filter)%list_elem_of_fmap & P & E). right. exists s. split_and!; try done.
    apply label_blk_pos. eauto.
Qed.

Lemma edge_targets_In b n i t : ins fn !! n = Some i ->
  t ∈ edge_targets fn blk_of (taken_blocks fn blk_of) b n i <->
  (falls i = true /\ (n + 1 < length (ins fn))%nat /\ t = (b + 1)%nat) \/
  exists l m, l ∈ goto_labels fn i /\ label_pos fn l = Some m /\ blk_of m = t.
Proof using Hl.
  intros I. unfold edge_targets. rewrite elem_of_app. f_equiv.
  - assert (Nx : forall c : bool, t ∈ (if c then [b + 1]%nat else []) <-> c = true /\ t = (b + 1)%nat).
    { intros []; rewrite ?list_elem_of_singleton, ?elem_of_nil; intuition congruence. }
    assert (Z : t ∈ @nil nat <-> False /\ t = (b + 1)%nat) by (rewrite elem_of_nil; tauto).
    rewrite <- Nat.ltb_lt. unfold falls. destruct (i_op i); rewrite ?Nx, ?Z; intuition congruence.
  - assert (To : forall l, t ∈ match label_blk fn blk_of l with Some x => [x] | None => [] end <->
      exists m, label_pos fn l = Some m /\ blk_of m = t).
    { intros l. rewrite <- label_blk_pos. destruct (label_blk fn blk_of l); rewrite ?list_elem_of_singleton, ?elem_of_nil; intuition congruence. }
    assert (No : t ∈ @nil nat <-> exists l m, l ∈ @nil Z /\ label_pos fn l = Some m /\ blk_of m = t).
    { split; [by intros ?%elem_of_nil | by intros (l & m & ?%elem_of_nil & _)]. }
    assert (One : forall l, (exists m, label_pos fn l = Some m /\ blk_of m = t) <->
      exists l' m, l' ∈ [l] /\ label_pos fn l' = Some m /\ blk_of m = t).
    { intros l. split; [intros (m & H); exists l, m; split; [by apply list_elem_of_singleton | done]|].
      intros (l' & m & ->%list_elem_of_singleton & H). eauto. }
    unfold goto_labels. destruct (i_op i) eqn:O; try exact No; rewrite ?To; try apply One.
    + apply taken_blocks_In. exists i. split; [by eapply list_elem_of_lookup_2 | done].
    + rewrite concat_map_In. setoid_rewrite To. split; [intros (l & Hl' & m & H); exists l, m; done | intros (l & m & Hl' & H); exists l; eauto].
Qed.

(** The edges are those of the last instructions, to the blocks their targets start. *)
Lemma edges_In t b : (b < nbb_of)%nat ->
  (t, b) ∈ edges fn bstart_of blk_of nbb_of <->
  exists m, isucc (bstart_of (b + 1)%nat - 1) m /\ blk_of m = t.
Proof using Hl Hne.
  intros Lb. destruct (blocks_marked) as [En Hb]. pose proof (spans_tiles fn N_pos) as T. fold N in T.
  destruct (lookup_lt_is_Some_2 (spans fn) b) as [[s e] B]; [lia|].
  destruct (Hb b s e B) as (_ & Ee & _). pose proof (tiles_bounds _ _ _ _ _ _ T B) as Bd.
  destruct (lookup_lt_is_Some_2 (ins fn) (e - 1)) as [i I]; [unfold N in *; lia|].
  assert (E1 : (t, b) ∈ edges fn bstart_of blk_of nbb_of <->
    t ∈ edge_targets fn blk_of (taken_blocks fn blk_of) b (e - 1) i).
  { unfold edges. rewrite concat_map_In. split.
    - intros (b' & _ & H). unfold block_edges in H. destruct (ins fn !! (bstart_of (b' + 1)%nat - 1)%nat) as [i'|] eqn:I'; [|by apply elem_of_nil in H].
      apply list_elem_of_fmap in H as (t' & [= <- <-] & H). rewrite Ee in I', H. by simplify_eq.
    - intros H. exists b. split; [apply elem_of_seq; lia|]. unfold block_edges. rewrite Ee, I. apply list_elem_of_fmap. by exists t. }
  rewrite E1, Ee, (edge_targets_In b (e - 1) i t I). clear E1. unfold isucc. split.
  - intros [(Fa & L & ->)|(l & m & Hl' & P & <-)]; [|exists m; eauto 10].
    exists e. pose proof (tiles_next _ _ _ _ _ _ T B) as X. destruct (spans fn !! S b) as [[s' e']|] eqn:B'; [|lia]. subst s'.
    destruct (Hb _ _ _ B') as (_ & _ & K). pose proof (tiles_bounds _ _ _ _ _ _ T B'). split; [|rewrite K; lia].
    exists i. split; [done|]. left. split_and!; [done | lia | unfold N in *; lia].
  - intros (m & (i' & I' & [(Fa & -> & L)|(l & Hl' & P)]) & <-); assert (i' = i) as -> by congruence; [|right; eauto].
    left. split_and!; [done | lia|]. replace (S (e - 1)) with e in * by lia. pose proof (tiles_next _ _ _ _ _ _ T B) as X.
    destruct (spans fn !! S b) as [[s' e']|] eqn:B'; [|unfold N in *; lia]. subst s'.
    destruct (Hb _ _ _ B') as (_ & _ & K). pose proof (tiles_bounds _ _ _ _ _ _ T B'). rewrite K; lia.
Qed.
End Graph.
