(* ===== verification/LiveSets.v ===== *)
(** * The live sets are the least ones

    The proof of [ra_live_compute]: what a block reads first ([ue_of_ok]), the search
    that carries it back through the predecessors ([live_vregs_ok]), the rows against
    the liveness equations on instructions, and the ranges. *)
From stdpp Require Import base numbers list option sets.
From Stdlib Require Import ZArith Lia.
From S2P Require Import Prelude Ir Util IrSem Simulate Paths CopyProp Cfg Sccp Live.

Local Open Scope Z_scope.

(** ** What a block exposes *)

Definition written (l : list ir_ins) (v : Z) : bool := existsb (fun i => ra_ins_def i =? v) l.
Definition exposed (l : list ir_ins) (v : Z) : bool := foldr (live_back v) false l.

Lemma live_back_eq v i o : live_back v i o = ra_isuse v i || (negb (ra_ins_def i =? v) && o).
Proof. unfold live_back. by destruct (ra_isuse v i), (ra_ins_def i =? v). Qed.

(** Live before a stretch: read in it before it is written, or live after and not
    written. *)
Lemma scan_split v l o : foldr (live_back v) o l = exposed l v || (negb (written l v) && o).
Proof.
  unfold exposed, written. induction l as [|i l IH]; simpl; [by destruct o|]. rewrite IH, !live_back_eq.
  destruct (ra_isuse v i), (ra_ins_def i =? v); simpl; try done.
Qed.

Section Exposed.
Context (fn : ir_func) (bs : nat -> nat) (nvr : nat).

Definition exposes (b x : nat) : Prop := (x < nvr)%nat /\ exposed (block_ins fn bs b) (Z.of_nat x) = true.
Definition writes_in (b x : nat) : Prop := (x < nvr)%nat /\ written (block_ins fn bs b) (Z.of_nat x) = true.

Record ue_ok (b : nat) (E D : nat -> Prop) (u : exposed_st) : Prop := {
  ue_u x : ustamp u x = (b + 1)%nat <-> E x;
  ue_d x : dstamp u x = (b + 1)%nat <-> D x;
  ue_max x : (ustamp u x <= b + 1 /\ dstamp u x <= b + 1)%nat;
  ue_ue x c : (x, c) ∈ ue u <-> (c = b /\ E x) \/ ((c < b)%nat /\ exposes c x);
  ue_df x c : (x, c) ∈ df u <-> (c = b /\ D x) \/ ((c < b)%nat /\ writes_in c x);
  ue_nd : NoDup (ue u) }.

Lemma ue_ok_ext b E D E' D' u : (forall x, E x <-> E' x) -> (forall x, D x <-> D' x) -> ue_ok b E D u -> ue_ok b E' D' u.
Proof. intros He Hd [H1 H2 H3 H4 H5 H6]. split; try done; intros; rewrite <- ?He, <- ?Hd; auto. Qed.

Lemma ue_cb_ok b E D u v : 0 <= v -> ue_ok b E D u ->
  ue_ok b (fun x => E x \/ (Z.of_nat x = v /\ (x < nvr)%nat /\ ~ D x)) D (ra_ue_cb nvr b v u).
Proof.
  intros Hv H. pose proof H as [H1 H2 H3 H4 H5 H6]. unfold ra_ue_cb. set (n := Z.to_nat v).
  assert (En : forall x, Z.of_nat x = v <-> x = n) by (unfold n; lia).
  destruct ((Z.of_nat nvr <=? v) || (dstamp u n =? b + 1)%nat || (ustamp u n =? b + 1)%nat) eqn:C.
  - eapply ue_ok_ext; [|done|exact H]. intros x. rewrite En. split; [by left|]. intros [|(-> & L & ND)]; [done|].
    rewrite <- H2 in ND. apply H1. apply orb_true_iff in C as [[C|C]%orb_true_iff|C]; [unfold n in L; lia | | ];
      apply Nat.eqb_eq in C; [by destruct ND | done].
  - apply orb_false_iff in C as [[C1 C2]%orb_false_iff C3]. apply Nat.eqb_neq in C2, C3. rewrite H2 in C2. rewrite H1 in C3.
    assert (L : (n < nvr)%nat) by (unfold n; lia). split; cbn [ustamp dstamp ue df]; try done.
    + intros x. rewrite En. unfold upn. destruct (Nat.eqb_spec x n) as [->|]; [tauto|]. rewrite H1. tauto.
    + intros x. destruct (H3 x). unfold upn. destruct (x =? n)%nat; lia.
    + intros x c. unfold ra_pairs_add. rewrite elem_of_app, list_elem_of_singleton, H4, En.
      split; [intros [[?|?]|[= -> ->]]; tauto|]. intros [[-> [?|(-> & _)]]|?]; tauto.
    + unfold ra_pairs_add. apply NoDup_app. split_and!; [done| |apply NoDup_singleton].
      intros y Hx ->%list_elem_of_singleton. apply H4 in Hx as [[_ ?]|[? _]]; [tauto | lia].
Qed.

Lemma ue_uses_ok b E D us u : Forall (fun v => 0 <= v) us -> ue_ok b E D u ->
  ue_ok b (fun x => E x \/ (Z.of_nat x ∈ us /\ (x < nvr)%nat /\ ~ D x)) D (foldl (fun u v => ra_ue_cb nvr b v u) u us).
Proof.
  intros F. revert E u. induction F as [|v us Hv F IH]; intros E u H; simpl.
  - eapply ue_ok_ext; [|done|exact H]. intros x. rewrite elem_of_nil. tauto.
  - eapply ue_ok_ext; [|done|apply IH, ue_cb_ok; [exact Hv | exact H]]. intros x. cbn beta. rewrite elem_of_cons. tauto.
Qed.

Lemma ue_ins_ok b l i u :
  ue_ok b (fun x => (x < nvr)%nat /\ exposed l (Z.of_nat x) = true) (fun x => (x < nvr)%nat /\ written l (Z.of_nat x) = true) u ->
  ue_ok b (fun x => (x < nvr)%nat /\ exposed (l ++ [i]) (Z.of_nat x) = true)
    (fun x => (x < nvr)%nat /\ written (l ++ [i]) (Z.of_nat x) = true) (ue_ins nvr b u i).
Proof.
  intros H. unfold ue_ins. rewrite each_use_list.
  assert (F : Forall (fun v => 0 <= v) (uses i)) by (apply Forall_forall; by intros v [? _]%list_elem_of_filter).
  apply (ue_uses_ok _ _ _ (uses i)) in H; [|done]. set (u1 := foldl _ u (uses i)) in *.
  assert (Ee : forall x, ((x < nvr)%nat /\ exposed (l ++ [i]) (Z.of_nat x) = true) <->
    ((x < nvr)%nat /\ exposed l (Z.of_nat x) = true) \/ (Z.of_nat x ∈ uses i /\ (x < nvr)%nat /\ ~ ((x < nvr)%nat /\ written l (Z.of_nat x) = true))).
  { intros x. unfold exposed at 1. rewrite foldr_app. simpl. rewrite scan_split, live_back_eq, andb_false_r, orb_false_r, <- isuse_iff.
    rewrite orb_true_iff, andb_true_iff, negb_true_iff. destruct (written l (Z.of_nat x)); intuition congruence. }
  assert (Ew : forall x, written (l ++ [i]) (Z.of_nat x) = true <-> written l (Z.of_nat x) = true \/ ra_ins_def i = Z.of_nat x).
  { intros x. unfold written. rewrite existsb_app, orb_true_iff. simpl. rewrite orb_false_r, Z.eqb_eq. done. }
  set (d := ra_ins_def i) in *. apply (ue_ok_ext _ _ _ (fun x => (x < nvr)%nat /\ exposed (l ++ [i]) (Z.of_nat x) = true)
    (fun x => (x < nvr)%nat /\ written l (Z.of_nat x) = true)) in H; [|by intros x; rewrite Ee|done].
  pose proof H as [H1 H2 H3 H4 H5 H6].
  destruct ((0 <=? d) && (d <? Z.of_nat nvr) && negb (dstamp u1 (Z.to_nat d) =? b + 1)%nat) eqn:C.
  - apply andb_true_iff in C as [[C1 C2]%andb_true_iff C3%negb_true_iff%Nat.eqb_neq]. rewrite H2 in C3.
    split; cbn [ustamp dstamp ue df]; try done.
    + intros x. rewrite Ew. unfold upn. destruct (Nat.eqb_spec x (Z.to_nat d)) as [->|N]; [|rewrite H2].
      * split; [intros _; split; [lia | right; lia] | done].
      * split; [tauto|]. intros [L [?|E]]; [done|]. lia.
    + intros x. destruct (H3 x). unfold upn. destruct (x =? Z.to_nat d)%nat; lia.
    + intros x c. unfold ra_pairs_add. rewrite elem_of_app, list_elem_of_singleton, H5, Ew. split.
      * intros [[(-> & L & W)|?]|[= -> ->]]; [tauto|tauto|]. left. split; [done|]. split; [lia | right; lia].
      * intros [(-> & L & [W|W])|?]; [tauto| |tauto]. right. f_equal. lia.
  - refine (ue_ok_ext _ _ _ _ _ _ (fun x => iff_refl _) _ H). intros x. rewrite Ew. split; [tauto|]. intros [L [W|W]]; [done|]. rewrite <- H2.
    rewrite W, Nat2Z.id in C. destruct (Nat.eqb_spec (dstamp u1 x) (b + 1)); [done|]. simpl in C. lia.
Qed.

Lemma ue_block_ok b u : ue_ok b (fun _ => False) (fun _ => False) u ->
  ue_ok (S b) (fun _ => False) (fun _ => False) (ue_block fn bs nvr u b).
Proof.
  intros H. unfold ue_block.
  assert (G : forall l2 l1 u, ue_ok b (fun x => (x < nvr)%nat /\ exposed l1 (Z.of_nat x) = true)
      (fun x => (x < nvr)%nat /\ written l1 (Z.of_nat x) = true) u ->
    ue_ok b (fun x => (x < nvr)%nat /\ exposed (l1 ++ l2) (Z.of_nat x) = true)
      (fun x => (x < nvr)%nat /\ written (l1 ++ l2) (Z.of_nat x) = true) (foldl (ue_ins nvr b) u l2)).
  { induction l2 as [|i l2 IH]; intros l1 u1 H1; simpl; [by rewrite app_nil_r|].
    replace (l1 ++ i :: l2) with ((l1 ++ [i]) ++ l2) by (by rewrite <- (assoc (++))). by apply IH, ue_ins_ok. }
  apply (ue_ok_ext _ _ _ (fun x => (x < nvr)%nat /\ exposed [] (Z.of_nat x) = true)
    (fun x => (x < nvr)%nat /\ written [] (Z.of_nat x) = true)), (G (block_ins fn bs b)) in H; simpl in H;
    [|intros x; simpl; intuition congruence..].
  destruct H as [H1 H2 H3 H4 H5 H6]. split; [| | | | |done].
  - intros x. destruct (H3 x). split; [lia | done].
  - intros x. destruct (H3 x). split; [lia | done].
  - intros x. destruct (H3 x). lia.
  - intros x c. rewrite H4. split; [|intros [[_ []]|[L Hx]]].
    + intros [[-> Hx]|[L Hx]]; right; (split; [lia | done]).
    + destruct (decide (c = b)) as [->|]; [left; done | right; split; [lia | done]].
  - intros x c. rewrite H5. split; [|intros [[_ []]|[L Hx]]].
    + intros [[-> Hx]|[L Hx]]; right; (split; [lia | done]).
    + destruct (decide (c = b)) as [->|]; [left; done | right; split; [lia | done]].
Qed.

Definition ue_of (n : nat) : exposed_st :=
  foldl (ue_block fn bs nvr) (Exp [] [] (fun _ => O) (fun _ => O)) (seq 0 n).

Lemma ue_of_ok n : ue_ok n (fun _ => False) (fun _ => False) (ue_of n).
Proof.
  unfold ue_of. induction n as [|n IH]; [|rewrite seq_S, foldl_app; simpl; by apply ue_block_ok].
  simpl. split; cbn [ustamp dstamp ue df]; try (intros; rewrite ?elem_of_nil; lia); try apply NoDup_nil_2.
Qed.
End Exposed.

(** ** The search for one vreg *)

Section SearchV.
Context (nbb nvr : nat) (pred ueb dfb : csr) (UE DF : nat -> nat -> Prop).
Context (Hpred : forall b p, (b < nbb)%nat -> p ∈ row pred b -> (p < nbb)%nat).
Context (Hue : forall v b, (v < nvr)%nat -> b ∈ row ueb v <-> (b < nbb)%nat /\ UE b v).
Context (Hnd : forall v, (v < nvr)%nat -> NoDup (row ueb v)).
Context (Hdf : forall v b, (v < nvr)%nat -> b ∈ row dfb v <-> (b < nbb)%nat /\ DF b v).

(** The blocks a vreg is live into, and those it is live out of. *)
Inductive blive (v : nat) : nat -> Prop :=
  | blive_read b : (b < nbb)%nat -> UE b v -> blive v b
  | blive_pred b p : blive v b -> p ∈ row pred b -> ~ DF p v -> blive v p.
Definition bout (v p : nat) : Prop := exists b, blive v b /\ p ∈ row pred b.

Lemma blive_lt v b : blive v b -> (b < nbb)%nat.
Proof using Hpred. induction 1; [done | by eapply Hpred]. Qed.

Definition stamped (v : nat) (m : nat -> nat) (x : nat) : bool := (m x =? v + 1)%nat.

(** The state while vreg [v] is searched for, [s0] being the one it started in. *)
Record sv_ok (v : nat) (s0 s : search_st) : Prop := {
  sv_in x : stamped v (inmk s) x = true -> blive v x;
  sv_out x : stamped v (outmk s) x = true -> bout v x;
  sv_def x : (x < nbb)%nat -> stamped v (defmk s) x = true <-> DF x v;
  sv_work x : x ∈ work s -> stamped v (inmk s) x = true;
  sv_lin x c : (x, c) ∈ lin s <-> (x, c) ∈ lin s0 \/ (x = v /\ stamped v (inmk s) c = true);
  sv_lout x c : (x, c) ∈ lout s <-> (x, c) ∈ lout s0 \/ (x = v /\ stamped v (outmk s) c = true);
  sv_max x : (inmk s x <= v + 1 /\ outmk s x <= v + 1 /\ defmk s x <= v + 1)%nat }.

Lemma stamped_upn v m p x : stamped v (upn m p (v + 1)%nat) x = (x =? p)%nat || stamped v m x.
Proof. unfold stamped, upn. destruct (x =? p)%nat; [by rewrite Nat.eqb_refl | done]. Qed.

(** What one visit of a predecessor does. *)
Lemma live_pred_ok v s0 s p : bout v p -> (p < nbb)%nat -> sv_ok v s0 s ->
  let s' := live_pred v s p in
  sv_ok v s0 s' /\
  (forall x, stamped v (outmk s') x = (x =? p)%nat || stamped v (outmk s) x) /\
  (forall x, stamped v (inmk s) x = true -> stamped v (inmk s') x = true) /\
  (DF p v \/ stamped v (inmk s') p = true) /\
  (forall x, stamped v (inmk s') x = true -> stamped v (inmk s) x = true \/ x ∈ work s') /\
  (forall x, x ∈ work s -> x ∈ work s') /\
  (unseen nbb (stamped v (inmk s')) + length (work s') = unseen nbb (stamped v (inmk s)) + length (work s))%nat.
Proof using All.
  intros Hp Lp H. unfold live_pred.
  set (s1 := if (outmk s p =? v + 1)%nat then s else _).
  assert (Eo : forall x, stamped v (outmk s1) x = (x =? p)%nat || stamped v (outmk s) x).
  { intros x. unfold s1. destruct (outmk s p =? v + 1)%nat eqn:O; cbn [outmk]; [|apply stamped_upn].
    destruct (Nat.eqb_spec x p) as [->|]; [exact O | done]. }
  assert (Ei : inmk s1 = inmk s /\ defmk s1 = defmk s /\ work s1 = work s /\ lin s1 = lin s) by (unfold s1; by destruct (_ =? _)%nat).
  assert (H1 : sv_ok v s0 s1).
  { destruct Ei as (Ei & Ed & Ew & El). destruct H as [A1 A2 A3 A4 A5 A6 A7]. split; rewrite ?Ei, ?Ed, ?Ew, ?El; try done.
    - intros x. rewrite Eo, orb_true_iff, Nat.eqb_eq. intros [->|]; auto.
    - intros x c. rewrite Eo, orb_true_iff, Nat.eqb_eq. unfold s1. destruct (outmk s p =? v + 1)%nat eqn:O.
      + rewrite A6. split; [tauto|]. intros [?|[-> [->|?]]]; [tauto| |tauto]. right. split; [done|]. exact O.
      + cbn [lout]. unfold ra_pairs_add. rewrite elem_of_app, list_elem_of_singleton, A6.
        split; [intros [[?|?]|[= -> ->]]; tauto|]. intros [?|[-> [->|?]]]; tauto.
    - intros x. destruct (A7 x) as (? & ? & ?). split_and!; try done. unfold s1. destruct (_ =? _)%nat; [done|]. cbn [outmk]. unfold upn.
      destruct (_ =? _)%nat; lia. }
  destruct Ei as (Ei & Ed & Ew & El). pose proof H1 as [A1 A2 A3 A4 A5 A6 A7].
  rewrite Ei in A1, A4, A5, A7. rewrite Ew in A4.
  destruct (negb (defmk s1 p =? v + 1)%nat && negb (inmk s1 p =? v + 1)%nat) eqn:C.
  - apply andb_true_iff in C as [C1%negb_true_iff C2%negb_true_iff].
    assert (ND : ~ DF p v) by (rewrite <- A3 by done; unfold stamped; by rewrite C1).
    assert (Bl : blive v p) by (destruct Hp as (b & Hb & Hp); by eapply blive_pred).
    split_and!; cbn [inmk outmk work]; rewrite ?Ei, ?Ew.
    + split; cbn [inmk outmk defmk work lin lout]; try done.
      * intros x. rewrite stamped_upn, orb_true_iff, Nat.eqb_eq. intros [->|]; auto.
      * intros x. rewrite stamped_upn, orb_true_iff, Nat.eqb_eq, elem_of_cons. intros [->|]; auto.
      * intros x c. unfold ra_pairs_add. rewrite stamped_upn, orb_true_iff, Nat.eqb_eq, elem_of_app, list_elem_of_singleton, A5.
        split; [intros [[?|?]|[= -> ->]]; tauto|]. intros [?|[-> [->|?]]]; tauto.
      * intros x. destruct (A7 x) as (? & ? & ?). split_and!; [|done..]. unfold upn. destruct (x =? p)%nat; lia.
    + exact Eo.
    + intros x Hx. by rewrite stamped_upn, Hx, orb_true_r.
    + right. by rewrite stamped_upn, Nat.eqb_refl.
    + intros x. rewrite stamped_upn, orb_true_iff, Nat.eqb_eq, elem_of_cons. tauto.
    + intros x Hx. by right.
    + rewrite Ei in C2. rewrite (unseen_mark nbb (stamped v (inmk s)) p) by done. simpl. rewrite Nat.add_succ_r. f_equal. f_equal.
      apply unseen_ext. intros x. rewrite stamped_upn. by destruct (x =? p)%nat.
  - split_and!; rewrite ?Ei, ?Ew; try done; [|tauto].
    apply andb_false_iff in C as [C%negb_false_iff|C%negb_false_iff]; [left; by apply A3 | right; by rewrite <- Ei].
Qed.

Lemma live_preds_ok v s0 ps s : (forall p, p ∈ ps -> bout v p /\ (p < nbb)%nat) -> sv_ok v s0 s ->
  let s' := foldl (live_pred v) s ps in
  sv_ok v s0 s' /\
  (forall x, stamped v (outmk s') x = true <-> x ∈ ps \/ stamped v (outmk s) x = true) /\
  (forall x, stamped v (inmk s) x = true -> stamped v (inmk s') x = true) /\
  (forall p, p ∈ ps -> DF p v \/ stamped v (inmk s') p = true) /\
  (forall x, stamped v (inmk s') x = true -> stamped v (inmk s) x = true \/ x ∈ work s') /\
  (forall x, x ∈ work s -> x ∈ work s') /\
  (unseen nbb (stamped v (inmk s')) + length (work s') = unseen nbb (stamped v (inmk s)) + length (work s))%nat.
Proof using All.
  revert s. induction ps as [|p ps IH]; intros s Hps H; cbn [foldl].
  - split_and!; try done; [|by intros p ?%elem_of_nil|tauto]. intros x. rewrite elem_of_nil. tauto.
  - destruct (Hps p ltac:(by left)) as [Bp Lp]. destruct (live_pred_ok v s0 s p Bp Lp H) as (A1 & A2 & A3 & A4 & A5 & A6 & A7).
    destruct (IH (live_pred v s p) (fun q Hq => Hps q ltac:(by right)) A1) as (B1 & B2 & B3 & B4 & B5 & B6 & B7).
    split_and!; auto; [| | |lia].
    + intros x. rewrite B2, A2, orb_true_iff, Nat.eqb_eq, elem_of_cons. tauto.
    + intros q [->|Hq]%elem_of_cons; [|auto]. destruct A4; auto.
    + intros x Hx. destruct (B5 x Hx) as [Hx'|]; [|by right]. destruct (A5 x Hx'); auto.
Qed.

(** Blocks taken off the stack have been dealt with. *)
Definition sv_done (v : nat) (s : search_st) : Prop := forall b p, stamped v (inmk s) b = true -> b ∉ work s ->
  p ∈ row pred b -> stamped v (outmk s) p = true /\ (DF p v \/ stamped v (inmk s) p = true).

Lemma live_end v s0 s : work s = [] -> sv_ok v s0 s -> sv_done v s ->
  (forall b, (b < nbb)%nat -> UE b v -> stamped v (inmk s) b = true) ->
  sv_ok v s0 s /\ (forall x, stamped v (inmk s) x = true <-> blive v x) /\ (forall x, stamped v (outmk s) x = true <-> bout v x).
Proof using All.
  intros W H Hd Hs. assert (Nw : forall b, b ∉ work s) by (rewrite W; intros b; apply not_elem_of_nil).
  assert (C : forall x, blive v x -> stamped v (inmk s) x = true).
  { induction 1 as [b Lb Ub|b p Hb IHb Hp ND]; [by apply Hs|]. destruct (Hd b p IHb (Nw b) Hp) as [_ [?|?]]; done. }
  split_and!; [done|..]; intros x; (split; [apply H|]); [apply C|]. intros (b & Hb & Hx).
  by destruct (Hd b x (C b Hb) (Nw b) Hx).
Qed.

Lemma live_loop_ok v s0 fuel s : (unseen nbb (stamped v (inmk s)) + length (work s) <= fuel)%nat -> sv_ok v s0 s -> sv_done v s ->
  (forall b, (b < nbb)%nat -> UE b v -> stamped v (inmk s) b = true) ->
  let s' := live_loop fuel pred v s in
  sv_ok v s0 s' /\ (forall x, stamped v (inmk s') x = true <-> blive v x) /\ (forall x, stamped v (outmk s') x = true <-> bout v x).
Proof using All.
  revert s. induction fuel as [|fuel IH]; intros s Hf H Hd Hs; cbn [live_loop].
  - apply live_end; try done. destruct (work s); [done | simpl in Hf; lia].
  - destruct (work s) as [|b wk] eqn:W; [by apply live_end|].
    set (s1 := Srch _ _ _ _ _ wk). pose proof (sv_work _ _ _ H b ltac:(rewrite W; by left)) as Mb.
    pose proof (sv_in _ _ _ H b Mb) as Bb. pose proof (blive_lt v b Bb) as Lb.
    assert (H1 : sv_ok v s0 s1).
    { destruct H as [A1 A2 A3 A4 A5 A6 A7]. split; try done. intros x Hx. apply A4. rewrite W. by right. }
    destruct (live_preds_ok v s0 (row pred b) s1) as (B1 & B2 & B3 & B4 & B5 & B6 & B7); [|done|].
    { intros p Hp. split; [by exists b | by eapply Hpred]. }
    set (s2 := foldl (live_pred v) s1 (row pred b)) in *. apply (IH s2); [simpl in *; lia | done | |].
    + intros c p Mc Wc Hp. destruct (B5 c Mc) as [Mc'|]; [|done]. destruct (decide (c = b)) as [->|Nb].
      * split; [apply B2; by left | by apply B4].
      * destruct (Hd c p Mc') as [Mo Mi]; [rewrite W; intros [|]%elem_of_cons; [done|]; by apply Wc, B6 | done|].
        split; [apply B2; by right|]. destruct Mi as [|Mi]; [by left | right; by apply B3].
    + intros c Lc Uc. apply B3. by apply Hs.
Qed.

(** The blocks that read [v] first, stacked. *)
Lemma live_seeds_ok v s0 bs s : NoDup bs -> (forall b, b ∈ bs -> (b < nbb)%nat /\ UE b v) ->
  sv_ok v s0 s -> (forall b, stamped v (inmk s) b = true -> b ∉ bs) -> (forall b, stamped v (inmk s) b = true -> b ∈ work s) ->
  let s' := foldl (live_seed v) s bs in
  sv_ok v s0 s' /\ (forall b, stamped v (inmk s') b = true <-> b ∈ bs \/ stamped v (inmk s) b = true) /\
  (forall b, stamped v (inmk s') b = true -> b ∈ work s') /\
  (unseen nbb (stamped v (inmk s')) + length (work s') = unseen nbb (stamped v (inmk s)) + length (work s))%nat.
Proof using All.
  intros ND. revert s. induction ND as [|b bs Nb ND IH]; intros s Hb H Hn Hw; cbn [foldl].
  - split_and!; try done. intros x. rewrite elem_of_nil. tauto.
  - destruct (Hb b ltac:(by left)) as [Lb Ub]. pose proof H as [A1 A2 A3 A4 A5 A6 A7].
    assert (Mb : stamped v (inmk s) b = false).
    { destruct (stamped v (inmk s) b) eqn:E; [|done]. destruct (Hn b E). by left. }
    destruct (IH (live_seed v s b)) as (B1 & B2 & B3 & B4); [intros c Hc; apply Hb; by right|..].
    + split; cbn [live_seed inmk outmk defmk work lin lout]; try done.
      * intros x. rewrite stamped_upn, orb_true_iff, Nat.eqb_eq. intros [->|]; [by apply blive_read | auto].
      * intros x. rewrite stamped_upn, orb_true_iff, Nat.eqb_eq, elem_of_cons. intros [->|]; auto.
      * intros x c. unfold ra_pairs_add. rewrite stamped_upn, orb_true_iff, Nat.eqb_eq, elem_of_app, list_elem_of_singleton, A5.
        split; [intros [[?|?]|[= -> ->]]; tauto|]. intros [?|[-> [->|?]]]; tauto.
      * intros x. destruct (A7 x) as (? & ? & ?). split_and!; [|done..]. unfold upn. destruct (x =? b)%nat; lia.
    + intros c. cbn [live_seed inmk]. rewrite stamped_upn, orb_true_iff, Nat.eqb_eq. intros [->|Mc] Hc; [done|].
      apply (Hn c Mc). by right.
    + intros c. cbn [live_seed inmk work]. rewrite stamped_upn, orb_true_iff, Nat.eqb_eq, elem_of_cons. intros [->|Mc]; auto.
    + cbn [live_seed inmk work] in *. split_and!; try done.
      * intros c. rewrite B2, stamped_upn, orb_true_iff, Nat.eqb_eq, elem_of_cons. tauto.
      * rewrite B4, (unseen_mark nbb (stamped v (inmk s)) b) by done. simpl. rewrite Nat.add_succ_r. f_equal. f_equal.
        apply unseen_ext. intros x. rewrite stamped_upn. by destruct (x =? b)%nat.
Qed.

(** After the vregs below [n]. *)
Record lives (n : nat) (s : search_st) : Prop := {
  ls_lin x c : (x, c) ∈ lin s <-> (x < n)%nat /\ blive x c;
  ls_lout x c : (x, c) ∈ lout s <-> (x < n)%nat /\ bout x c;
  ls_max x : (inmk s x <= n /\ outmk s x <= n /\ defmk s x <= n)%nat }.

Lemma lives_next v s s' : lives v s -> sv_ok v s s' -> (forall x, stamped v (inmk s') x = true <-> blive v x) ->
  (forall x, stamped v (outmk s') x = true <-> bout v x) -> lives (S v) s'.
Proof.
  intros [L1 L2 L3] [A1 A2 A3 A4 A5 A6 A7] Hi Ho. split.
  - intros x c. rewrite A5, L1, Hi. split; [intros [[? ?]|[-> ?]]; split; (lia || done)|].
    intros [? ?]. destruct (decide (x = v)) as [->|]; [by right | left; split; [lia | done]].
  - intros x c. rewrite A6, L2, Ho. split; [intros [[? ?]|[-> ?]]; split; (lia || done)|].
    intros [? ?]. destruct (decide (x = v)) as [->|]; [by right | left; split; [lia | done]].
  - intros x. destruct (A7 x) as (? & ? & ?). lia.
Qed.

Lemma row_empty c k : c_off c k = c_off c (k + 1)%nat -> row c k = [].
Proof. intros E. unfold row. by rewrite E, Nat.sub_diag. Qed.

Lemma mark_defs_ok v bs m x : (forall y, m y <= v)%nat ->
  (stamped v (foldl (fun m b => upn m b (v + 1)%nat) m bs) x = true <-> x ∈ bs) /\
  (foldl (fun m b => upn m b (v + 1)%nat) m bs x <= v + 1)%nat.
Proof.
  intros Hm. assert (G : forall bs m, (forall y, m y <= v + 1)%nat ->
    (stamped v (foldl (fun m b => upn m b (v + 1)%nat) m bs) x = true <-> x ∈ bs \/ stamped v m x = true) /\
    (foldl (fun m b => upn m b (v + 1)%nat) m bs x <= v + 1)%nat).
  { clear. induction bs as [|b bs IH]; intros m Hm; cbn [foldl]; [rewrite elem_of_nil; split; [tauto | done]|].
    destruct (IH (upn m b (v + 1)%nat)) as [E L]; [intros y; unfold upn; destruct (y =? b)%nat; [lia | apply Hm]|].
    split; [|done]. rewrite E, stamped_upn, orb_true_iff, Nat.eqb_eq, elem_of_cons. tauto. }
  destruct (G bs m) as [E L]; [intros y; specialize (Hm y); lia|]. split; [|done]. rewrite E. unfold stamped. rewrite Nat.eqb_eq.
  specialize (Hm x). split; [intros [|]; [done | lia] | by left].
Qed.

Lemma live_vreg_ok v s : (v < nvr)%nat -> lives v s -> lives (S v) (live_vreg nbb pred ueb dfb s v).
Proof using All.
  intros Lv L. pose proof L as [L1 L2 L3].
  assert (Z : forall m x, (m x <= v)%nat -> stamped v m x = false) by (intros m x Hm; apply Nat.eqb_neq; lia).
  unfold live_vreg. destruct (Nat.eqb_spec (c_off ueb v) (c_off ueb (v + 1)%nat)) as [E|E].
  - assert (Nb : forall b, ~ blive v b).
    { intros b H. induction H as [b Lb Ub|b p _ IH]; [|done]. assert (b ∈ row ueb v) as Hb by (by apply Hue).
      rewrite row_empty in Hb by done. by apply elem_of_nil in Hb. }
    split.
    + intros x c. rewrite L1. split; [intros [? ?]; split; [lia | done]|]. intros [? B]. split; [|done].
      destruct (decide (x = v)) as [->|]; [by destruct (Nb c) | lia].
    + intros x c. rewrite L2. split; [intros [? ?]; split; [lia | done]|]. intros [? B]. split; [|done].
      destruct (decide (x = v)) as [->|]; [|lia]. destruct B as (b & B & _). by destruct (Nb b).
    + intros x. destruct (L3 x) as (? & ? & ?). lia.
  - set (s1 := Srch _ _ _ _ _ _).
    assert (H1 : sv_ok v s s1).
    { split; cbn [s1 inmk outmk defmk work lin lout].
      - intros x. by rewrite Z by apply L3.
      - intros x. by rewrite Z by apply L3.
      - intros x Hx. destruct (mark_defs_ok v (row dfb v) (defmk s) x) as [-> _]; [apply L3|]. rewrite Hdf by done. tauto.
      - intros x Hx. by apply elem_of_nil in Hx.
      - intros x c. rewrite Z by apply L3. intuition congruence.
      - intros x c. rewrite Z by apply L3. intuition congruence.
      - intros x. destruct (L3 x) as (? & ? & ?). destruct (mark_defs_ok v (row dfb v) (defmk s) x) as [_ ?]; [apply L3|]. lia. }
    destruct (live_seeds_ok v s (row ueb v) s1) as (B1 & B2 & B3 & B4); [by apply Hnd | by intros b ?%Hue | done | | |].
    { intros b. cbn [s1 inmk]. by rewrite Z by apply L3. }
    { intros b. cbn [s1 inmk]. by rewrite Z by apply L3. }
    set (s2 := foldl (live_seed v) s1 (row ueb v)) in *.
    destruct (live_loop_ok v s nbb s2) as (C1 & C2 & C3); [|done| | |by eapply lives_next].
    + rewrite B4. cbn [s1 inmk work length]. rewrite (unseen_ext nbb _ (fun _ => false)), unseen_all; [lia|].
      intros x. apply Z, L3.
    + intros b p Mb Wb. by destruct Wb; apply B3.
    + intros b Lb Ub. apply B2. left. by apply Hue.
Qed.

Lemma live_vregs_ok n : (n <= nvr)%nat ->
  lives n (foldl (live_vreg nbb pred ueb dfb) (Srch [] [] (fun _ => O) (fun _ => O) (fun _ => O) []) (seq 0 n)).
Proof using All.
  induction n as [|n IH]; intros L; [|rewrite seq_S, foldl_app; simpl; apply live_vreg_ok; [lia | apply IH; lia]].
  split; simpl; intros; rewrite ?elem_of_nil; lia.
Qed.
End SearchV.

(** ** Liveness on instructions *)

(** The least solution of the equations: live into an instruction that reads it, and
    into one that does not write it where it is live into a successor. *)
Inductive live_in (fn : ir_func) (v : Z) : nat -> Prop :=
  | live_use n i : ins fn !! n = Some i -> v ∈ uses i -> live_in fn v n
  | live_pass n i m : ins fn !! n = Some i -> ra_ins_def i <> v -> isucc fn n m -> live_in fn v m -> live_in fn v n.
Definition live_out (fn : ir_func) (v : Z) (n : nat) : Prop := exists m, isucc fn n m /\ live_in fn v m.

(** The instructions from [n] to [e]. *)
Definition stretch (fn : ir_func) (n e : nat) : list ir_ins := take (e - n) (drop n (ins fn)).

Lemma stretch_cons fn n e i : ins fn !! n = Some i -> (n < e)%nat -> stretch fn n e = i :: stretch fn (S n) e.
Proof. intros I L. unfold stretch. rewrite (drop_S _ _ _ I). by replace (e - n)%nat with (S (e - S n)) by lia. Qed.

Lemma stretch_nil fn e : stretch fn e e = [].
Proof. unfold stretch. by rewrite Nat.sub_diag. Qed.

Lemma stretch_app fn n m e : (n <= m <= e)%nat -> stretch fn n e = stretch fn n m ++ stretch fn m e.
Proof.
  intros L. unfold stretch. replace (e - n)%nat with ((m - n) + (e - m))%nat by lia.
  rewrite <- take_take_drop, drop_drop. by replace (n + (m - n))%nat with m by lia.
Qed.

Section Exact.
Context (fn : ir_func) (Hl : labels_ok fn) (Hne : ins fn <> []) (Hnv : 0 < nvregs fn).
Let N := length (ins fn).
Let nvr := Z.to_nat (nvregs fn).
Let nbb := nbb_of fn.
Let bs := bstart_of fn.
Let blk := blk_of fn.
Let pred := ra_pairs_csr (edges fn bs blk nbb) false nbb.
Let u := ue_of fn bs nvr nbb.
Let ueb := ra_pairs_csr (ue u) false nvr.
Let dfb := ra_pairs_csr (df u) false nvr.
Let UE b x := exposes fn bs nvr b x.
Let DF b x := writes_in fn bs nvr b x.
Let st := foldl (live_vreg nbb pred ueb dfb) (Srch [] [] (fun _ => O) (fun _ => O) (fun _ => O) []) (seq 0 nvr).
Let lv := ra_live_sets fn.

Lemma live_sets_eq : lv = RaLive N nvr nbb bs blk (ra_pairs_csr (lin st) true nbb) (ra_pairs_csr (lout st) true nbb).
Proof using All.
  unfold lv, ra_live_sets. fold N. fold nvr. pose proof (N_pos fn Hne).
  replace ((N =? 0)%nat || (nvr =? 0)%nat) with false.
  - unfold st, pred, ueb, dfb, u, ue_of, bs, blk, nbb, nbb_of, bstart_of, blk_of, mb.
    by destruct (mark_blocks 0 0 (lead fn) (fun _ => O) (fun _ => O)) as [[n b] k].
  - symmetry. apply orb_false_iff. split; apply Nat.eqb_neq; unfold nvr, N; lia.
Qed.

(** Where an instruction is. *)
Lemma place n : (n < N)%nat -> exists b, (b < nbb)%nat /\ blk n = b /\ (bs b <= n < bs (b + 1)%nat)%nat /\
  spans fn !! b = Some (bs b, bs (b + 1)%nat) /\ (bs (b + 1)%nat <= N)%nat.
Proof using All.
  intros Ln. destruct (blocks_marked fn Hne) as [En Hb]. pose proof (spans_tiles fn (N_pos fn Hne)) as T.
  destruct (tiles_at _ _ _ n T ltac:(unfold N in *; lia)) as (b & s' & e & B & Hn). destruct (Hb b s' e B) as (E1 & E2 & E3).
  pose proof (tiles_bounds _ _ _ _ _ _ T B) as Bd. fold bs in E1, E2. fold blk in E3.
  exists b. rewrite E1, E2. split_and!; try (by apply E3); try lia; try done.
  unfold nbb. rewrite En. by eapply lookup_lt_Some.
Qed.

Lemma block_range b : (b < nbb)%nat -> (bs b < bs (b + 1)%nat <= N)%nat /\ spans fn !! b = Some (bs b, bs (b + 1)%nat) /\
  forall n, (bs b <= n < bs (b + 1)%nat)%nat -> blk n = b.
Proof using All.
  intros Lb. destruct (blocks_marked fn Hne) as [En Hb]. pose proof (spans_tiles fn (N_pos fn Hne)) as T.
  destruct (lookup_lt_is_Some_2 (spans fn) b) as [[s' e] B]; [unfold nbb in Lb; lia|].
  destruct (Hb b s' e B) as (E1 & E2 & E3). pose proof (tiles_bounds _ _ _ _ _ _ T B). fold bs in E1, E2. rewrite E1, E2.
  split_and!; try done; unfold N; lia.
Qed.

(** Only the last instruction of a block leaves it, for the first of another. *)
Lemma isucc_inside b n m : (b < nbb)%nat -> (bs b <= n)%nat -> (S n < bs (b + 1)%nat)%nat -> isucc fn n m -> m = S n.
Proof using All.
  intros Lb L1 L2 (i & I & [(_ & -> & _)|(l & G & _)]); [done|]. destruct (block_range b Lb) as (_ & B & _).
  pose proof (jump_ends_block fn b _ _ n i B ltac:(lia) I (goto_ends fn i l G)). lia.
Qed.

Lemma isucc_next b n : (b < nbb)%nat -> (bs b <= n)%nat -> (S n < bs (b + 1)%nat)%nat -> isucc fn n (S n).
Proof using All.
  intros Lb L1 L2. destruct (block_range b Lb) as (Bd & B & _).
  destruct (lookup_lt_is_Some_2 (ins fn) n) as [i I]; [unfold N in *; lia|]. exists i. split; [done|]. left.
  split_and!; [|done|unfold N in *; lia]. destruct (falls i) eqn:F; [done|].
  assert (E : ends_block (i_op i) = true) by (unfold falls in F; by destruct (i_op i)).
  pose proof (jump_ends_block fn b _ _ n i B ltac:(lia) I E). lia.
Qed.

Lemma isucc_starts b m : (b < nbb)%nat -> isucc fn (bs (b + 1)%nat - 1) m -> (m < N)%nat /\ m = bs (blk m) /\ (blk m < nbb)%nat.
Proof using All.
  intros Lb H. destruct (block_range b Lb) as (Bd & B & _).
  assert (Lm : (m < N)%nat).
  { destruct H as (i & I & [(_ & -> & L)|(l & _ & P)]); [done|]. apply label_pos_spec in P as (j & J & _). by eapply lookup_lt_Some. }
  destruct (place m Lm) as (c & Lc & -> & Hm & C & _). split_and!; try done.
  destruct H as (i & I & [(_ & -> & L)|(l & _ & P)]).
  - replace (S (bs (b + 1)%nat - 1)) with (bs (b + 1)%nat) in * by lia.
    pose proof (tiles_next _ _ _ _ _ _ (spans_tiles fn (N_pos fn Hne)) B) as X.
    destruct (spans fn !! S b) as [[s' e']|] eqn:B'; [|unfold N in *; lia]. subst s'.
    pose proof (tiles_bounds _ _ _ _ _ _ (spans_tiles fn (N_pos fn Hne)) B') as Bd'.
    assert (c = S b) as ->; [|by rewrite B' in C; injection C as <- _].
    apply (tiles_unique _ _ _ _ _ _ _ _ _ (bs (b + 1)%nat) (spans_tiles fn (N_pos fn Hne)) C B'); lia.
  - apply label_pos_spec in P as (j & J & O & _). by apply (label_starts_block fn c _ _ m j C).
Qed.

(** The edges, and what the search goes by. *)
Lemma edges_lt : Forall (fun x => x.1 < nbb /\ x.2 < nbb)%nat (edges fn bs blk nbb).
Proof using All.
  apply Forall_forall. intros [t b] H. assert (Lb : (b < nbb)%nat).
  { unfold edges in H. apply concat_map_In in H as (b' & Hb & H). apply elem_of_seq in Hb. unfold block_edges in H.
    destruct (ins fn !! (bs (b' + 1)%nat - 1)%nat); [|by apply elem_of_nil in H]. apply list_elem_of_fmap in H as (? & [= _ ->] & _). lia. }
  split; [|done]. apply (edges_In fn Hne Hl t b Lb) in H as (m & Hm & <-). by apply (isucc_starts b m Lb).
Qed.

Lemma pred_In b p : (b < nbb)%nat -> p ∈ row pred b <-> (p < nbb)%nat /\ exists m, isucc fn (bs (p + 1)%nat - 1) m /\ blk m = b.
Proof using All.
  intros Lb. unfold pred. rewrite csr_row_In; [|done|eapply Forall_impl; [exact edges_lt|by intros x [? _]]].
  split.
  - intros H. assert (Lp : (p < nbb)%nat) by (pose proof edges_lt as F; rewrite Forall_forall in F; by destruct (F _ H)).
    split; [done|]. by apply edges_In in H.
  - intros [Lp H]. by apply edges_In.
Qed.

Lemma exposed_rows : (forall v b, (v < nvr)%nat -> b ∈ row ueb v <-> (b < nbb)%nat /\ UE b v) /\
  (forall v, (v < nvr)%nat -> NoDup (row ueb v)) /\
  (forall v b, (v < nvr)%nat -> b ∈ row dfb v <-> (b < nbb)%nat /\ DF b v).
Proof using All.
  pose proof (ue_of_ok fn bs nvr nbb) as [_ _ _ He Hd Hn]. fold u in He, Hd, Hn.
  assert (Fe : Forall (fun x => x.1 < nvr)%nat (ue u)) by (apply Forall_forall; by intros [x c] [[_ []]|[_ [? _]]]%He).
  assert (Fd : Forall (fun x => x.1 < nvr)%nat (df u)) by (apply Forall_forall; by intros [x c] [[_ []]|[_ [? _]]]%Hd).
  split_and!.
  - intros v b Lv. unfold ueb. rewrite csr_row_In by done. rewrite He. tauto.
  - intros v Lv. unfold ueb. rewrite csr_row by done. apply NoDup_fmap_2_strong; [|by apply NoDup_filter].
    intros [x c] [y d] [Ex _]%list_elem_of_filter [Ey _]%list_elem_of_filter E. simpl in *. congruence.
  - intros v b Lv. unfold dfb. rewrite csr_row_In by done. rewrite Hd. tauto.
Qed.

Lemma sets_ok : lives nbb pred UE DF nvr st.
Proof using All.
  destruct exposed_rows as (E1 & E2 & E3). apply (live_vregs_ok nbb nvr pred ueb dfb UE DF); try done. intros b p Lb H. by apply pred_In in H as [? _].
Qed.

Lemma out_row b x : (b < nbb)%nat -> x ∈ row (lv_out lv) b <-> (x < nvr)%nat /\ bout nbb pred UE DF x b.
Proof using All.
  intros Lb. rewrite live_sets_eq. cbn [lv_out]. destruct sets_ok as [_ Ho _].
  rewrite csr_row_In; [by rewrite Ho | done|]. apply Forall_forall. intros [y c] (_ & b' & Hb & H)%Ho.
  pose proof (blive_lt nbb pred UE DF ltac:(intros ? ? Lb' H'; by apply pred_In in H' as [? _]) y b' Hb) as Lb'.
  by apply pred_In in H as [? _].
Qed.

Lemma in_row b x : (b < nbb)%nat -> x ∈ row (lv_in lv) b <-> (x < nvr)%nat /\ blive nbb pred UE DF x b.
Proof using All.
  intros Lb. rewrite live_sets_eq. cbn [lv_in]. destruct sets_ok as [Hi _ _].
  rewrite csr_row_In; [by rewrite Hi | done|]. apply Forall_forall. intros [y c] (_ & Hb)%Hi.
  exact (blive_lt nbb pred UE DF ltac:(intros ? ? Lb' H'; by apply pred_In in H' as [? _]) y c Hb).
Qed.

Section Vreg.
Context (x : nat) (Hx : (x < nvr)%nat).
Let v := Z.of_nat x.

Definition out_b (b : nat) : bool := existsb (fun w => (w =? x)%nat) (row (lv_out lv) b).
Definition live_at (n : nat) : bool := foldr (live_back v) (out_b (blk n)) (stretch fn n (bs (blk n + 1)%nat)).

Lemma out_b_iff b : (b < nbb)%nat -> out_b b = true <-> bout nbb pred UE DF x b.
Proof using All.
  intros Lb. unfold out_b. rewrite existsb_exists. setoid_rewrite Nat.eqb_eq. setoid_rewrite <- list_elem_of_In. split.
  - intros (y & H & ->). by apply out_row in H as [_ ?].
  - intros H. exists x. split; [|done]. by apply out_row.
Qed.

Lemma scan_sound b out n : (b < nbb)%nat -> (out = true -> live_out fn v (bs (b + 1)%nat - 1)) ->
  (bs b <= n < bs (b + 1)%nat)%nat -> foldr (live_back v) out (stretch fn n (bs (b + 1)%nat)) = true -> live_in fn v n.
Proof using All.
  intros Lb Ho Hn. destruct (block_range b Lb) as (Bd & _ & _). remember (bs (b + 1)%nat - S n)%nat as k eqn:Ek. revert n Hn Ek.
  induction k as [|k IH]; intros n Hn Ek; destruct (lookup_lt_is_Some_2 (ins fn) n) as [i I]; [unfold N in *; lia| |unfold N in *; lia|];
    rewrite (stretch_cons fn n _ i I) by lia; cbn [foldr]; rewrite live_back_eq, orb_true_iff, andb_true_iff, negb_true_iff, Z.eqb_neq, isuse_iff;
    (intros [U|[D O]]; [by eapply live_use|]).
  - replace (S n) with (bs (b + 1)%nat) in O by lia. rewrite stretch_nil in O. destruct (Ho O) as (m & S & L).
    replace (bs (b + 1)%nat - 1)%nat with n in S by lia. by eapply live_pass.
  - eapply live_pass; [done | done | by apply (isucc_next b n); [| |lia]; lia|]. apply IH; [lia | lia | done].
Qed.

Lemma blive_live b : blive nbb pred UE DF x b -> live_in fn v (bs b).
Proof using All.
  induction 1 as [b Lb [_ U]|b p Hb IH Hp ND].
  - destruct (block_range b Lb) as (Bd & _ & _). apply (scan_sound b false); [done | done | lia | exact U].
  - pose proof (blive_lt nbb pred UE DF ltac:(intros ? ? Lb' H'; by apply pred_In in H' as [? _]) x b Hb) as Lb.
    apply pred_In in Hp as (Lp & m & S & E); [|done]. destruct (isucc_starts p m Lp S) as (_ & Em & _).
    destruct (block_range p Lp) as (Bd & _ & _). apply (scan_sound p true); [done | | lia |].
    + intros _. exists m. split; [done|]. by rewrite Em, E.
    + rewrite scan_split, andb_true_r. apply orb_true_iff. right. apply negb_true_iff.
      destruct (written (stretch fn (bs p) (bs (p + 1)%nat)) v) eqn:W; [|done]. by destruct ND.
Qed.

Lemma bout_live b : (b < nbb)%nat -> bout nbb pred UE DF x b -> live_out fn v (bs (b + 1)%nat - 1).
Proof using All.
  intros Lb (c & Hc & Hp). pose proof (blive_lt nbb pred UE DF ltac:(intros ? ? Lb' H'; by apply pred_In in H' as [? _]) x c Hc) as Lc.
  apply pred_In in Hp as (_ & m & S & E); [|done]. destruct (isucc_starts b m Lb S) as (_ & Em & _).
  exists m. split; [done|]. rewrite Em, E. by apply blive_live.
Qed.

Lemma live_at_start b : (b < nbb)%nat -> live_at (bs b) = true -> blive nbb pred UE DF x b.
Proof using All.
  intros Lb. destruct (block_range b Lb) as (Bd & _ & Bk). unfold live_at. rewrite (Bk (bs b)) by lia.
  rewrite scan_split, orb_true_iff, andb_true_iff, negb_true_iff, out_b_iff by done. intros [U|[W (c & Hc & Hp)]].
  - apply blive_read; [done|]. by split.
  - eapply blive_pred; [done | done|]. intros [_ W']. change (written (stretch fn (bs b) (bs (b + 1)%nat)) v = true) in W'. congruence.
Qed.

Lemma live_at_iff n : (n < N)%nat -> live_at n = true <-> live_in fn v n.
Proof using All.
  intros Ln. split.
  - destruct (place n Ln) as (b & Lb & E & Hn & _). unfold live_at. rewrite E.
    apply scan_sound; [done| |done]. rewrite out_b_iff by done. by apply bout_live.
  - intros L. clear Ln. induction L as [n i I U|n i m I D Su L IH];
      (destruct (place n ltac:(by eapply lookup_lt_Some)) as (b & Lb & E & Hn & _)); unfold live_at; rewrite E;
      rewrite (stretch_cons fn n _ i I) by lia; cbn [foldr]; rewrite live_back_eq, orb_true_iff.
    { left. by apply isuse_iff. }
    right. apply andb_true_iff. split; [by apply negb_true_iff, Z.eqb_neq|].
    destruct (decide (S n = bs (b + 1)%nat)) as [El|Nl].
    + rewrite El, stretch_nil. cbn [foldr]. rewrite out_b_iff by done. replace n with (bs (b + 1)%nat - 1)%nat in Su by lia.
      destruct (isucc_starts b m Lb Su) as (Lm & Em & Lbm). exists (blk m). split.
      * apply live_at_start; [done|]. by rewrite <- Em.
      * apply pred_In; [done|]. split; [done|]. by exists m.
    + destruct (block_range b Lb) as (_ & _ & Bk). rewrite (isucc_inside b n m) in IH by (done || lia).
      unfold live_at in IH. by rewrite (Bk (S n)) in IH by lia.
Qed.
End Vreg.

Lemma in_row_live b x : (b < nbb)%nat -> (x < nvr)%nat -> x ∈ row (lv_in lv) b <-> live_in fn (Z.of_nat x) (bs b).
Proof using All.
  intros Lb Hx. destruct (block_range b Lb) as (Bd & _ & _). rewrite in_row by done. split.
  - intros [_ H]. by apply blive_live.
  - intros H. split; [done|]. apply live_at_start; [done | done|]. apply live_at_iff; [done | lia | done].
Qed.

Lemma out_row_live b x : (b < nbb)%nat -> (x < nvr)%nat ->
  x ∈ row (lv_out lv) b <-> live_out fn (Z.of_nat x) (bs (b + 1)%nat - 1).
Proof using All.
  intros Lb Hx. rewrite out_row by done. split; [intros [_ H]; by apply bout_live|]. intros (m & Su & L). split; [done|].
  destruct (isucc_starts b m Lb Su) as (Lm & Em & Lbm). exists (blk m). split.
  - apply live_at_start; [done | done|]. rewrite <- Em. by apply live_at_iff.
  - apply pred_In; [done|]. split; [done|]. by exists m.
Qed.

Lemma live_in_at_iff n v : (n < N)%nat -> 0 <= v < nvregs fn ->
  ra_live_in_at lv fn (Z.of_nat n) v = true <-> live_in fn v n.
Proof using All.
  intros Ln Hv. replace v with (Z.of_nat (Z.to_nat v)) at 2 by lia.
  rewrite <- live_at_iff by (unfold nvr; lia). unfold ra_live_in_at, live_at, out_b.
  rewrite live_sets_eq. cbn [lv_nins lv_nvr lv_blk lv_bstart lv_out].
  assert (Z.of_nat nvr = nvregs fn) as -> by (unfold nvr; lia).
  rewrite (proj2 (Z.ltb_ge (Z.of_nat n) 0)), (proj2 (Z.leb_gt (Z.of_nat N) (Z.of_nat n))), (proj2 (Z.ltb_ge v 0)),
    (proj2 (Z.leb_gt (nvregs fn) v)) by lia. cbn [orb].
  rewrite Nat2Z.id, Z2Nat.id by lia. done.
Qed.
End Exact.

(** ** Ranges *)

(** Where a vreg is live or written. *)
Definition busy (fn : ir_func) (v : Z) (n : nat) : Prop :=
  live_in fn v n \/ live_out fn v n \/ exists i, ins fn !! n = Some i /\ ra_ins_def i = v.

(** The ranges hold exactly the points noted so far. *)
Record fl_ok (P : nat -> nat -> Prop) (fl : ranges) : Prop := {
  fl_in v n : P v n -> 0 <= fl.1 v <= Z.of_nat n /\ Z.of_nat n <= fl.2 v;
  fl_at v : fl.1 v = -1 /\ fl.2 v = -1 \/
    (0 <= fl.1 v /\ P v (Z.to_nat (fl.1 v)) /\ 0 <= fl.2 v /\ P v (Z.to_nat (fl.2 v))) }.

Lemma fl_ok_ext (P Q : nat -> nat -> Prop) fl : (forall v n, P v n <-> Q v n) -> fl_ok P fl -> fl_ok Q fl.
Proof. intros E [H1 H2]. split; [intros v n; rewrite <- E; apply H1|]. intros v. rewrite <- !E. apply H2. Qed.

Lemma fl_upd_ok P fl v i : fl_ok P fl -> fl_ok (fun x n => P x n \/ (x = v /\ n = i)) (ra_fl_upd fl v i).
Proof.
  intros [H1 H2]. unfold ra_fl_upd.
  assert (F : forall x, (if (fl.1 v <? 0) || (Z.of_nat i <? fl.1 v) then upn fl.1 v (Z.of_nat i) else fl.1) x =
    if (x =? v)%nat then (if (fl.1 v <? 0) || (Z.of_nat i <? fl.1 v) then Z.of_nat i else fl.1 v) else fl.1 x).
  { intros x. unfold upn. destruct (_ || _); cbn beta; destruct (Nat.eqb_spec x v); by subst. }
  assert (G : forall x, (if fl.2 v <? Z.of_nat i then upn fl.2 v (Z.of_nat i) else fl.2) x =
    if (x =? v)%nat then (if fl.2 v <? Z.of_nat i then Z.of_nat i else fl.2 v) else fl.2 x).
  { intros x. unfold upn. destruct (fl.2 v <? Z.of_nat i); cbn beta; destruct (Nat.eqb_spec x v); by subst. }
  split; cbn [fst snd].
  - intros x n. rewrite F, G. destruct (Nat.eqb_spec x v) as [->|Nv].
    + intros [H|[_ ->]]; [apply H1 in H|destruct (H2 v)]; destruct (Z.ltb_spec (fl.1 v) 0), (Z.ltb_spec (Z.of_nat i) (fl.1 v)), (Z.ltb_spec (fl.2 v) (Z.of_nat i)); simpl; lia.
    + intros [H|[? _]]; [by apply H1 | done].
  - intros x. rewrite F, G. destruct (Nat.eqb_spec x v) as [->|Nv].
    + right. destruct (H2 v) as [[E1 E2]|(A1 & A2 & A3 & A4)]; destruct (Z.ltb_spec (fl.1 v) 0), (Z.ltb_spec (Z.of_nat i) (fl.1 v)), (Z.ltb_spec (fl.2 v) (Z.of_nat i)); simpl; try lia;
        rewrite ?Nat2Z.id; split_and!; (lia || tauto).
    + destruct (H2 x) as [|(A1 & A2 & A3 & A4)]; [by left | right; tauto].
Qed.

Lemma fl_upds_ok P vs i fl : fl_ok P fl ->
  fl_ok (fun x n => P x n \/ (x ∈ vs /\ n = i)) (foldl (fun fl v => ra_fl_upd fl v i) fl vs).
Proof.
  revert P fl. induction vs as [|v vs IH]; intros P fl H; cbn [foldl].
  - eapply fl_ok_ext; [|exact H]. intros x n. rewrite elem_of_nil. tauto.
  - eapply fl_ok_ext; [|apply IH, fl_upd_ok, H]. intros x n. cbn beta. rewrite elem_of_cons. tauto.
Qed.

Lemma fl_uses_ok P nvr us i fl : Forall (fun v => 0 <= v) us -> fl_ok P fl ->
  fl_ok (fun x n => P x n \/ ((x < nvr)%nat /\ Z.of_nat x ∈ us /\ n = i)) (foldl (fun fl v => ra_fl_cb nvr i v fl) fl us).
Proof.
  intros F. revert P fl. induction F as [|v us Hv F IH]; intros P fl H; cbn [foldl].
  - eapply fl_ok_ext; [|exact H]. intros x n. rewrite elem_of_nil. tauto.
  - unfold ra_fl_cb at 2. destruct (Z.ltb_spec v (Z.of_nat nvr)) as [L|L].
    + eapply fl_ok_ext; [|apply IH, fl_upd_ok, H]. intros x n. cbn beta. rewrite elem_of_cons.
      assert (x = Z.to_nat v <-> Z.of_nat x = v) by lia. split; [|tauto]. intros [[?|[? ->]]|?]; [tauto| |tauto]. right. split; [lia | tauto].
    + eapply fl_ok_ext; [|apply IH, H]. intros x n. cbn beta. rewrite elem_of_cons. split; [tauto|].
      intros [?|(? & [?|?] & ?)]; [tauto|lia|tauto].
Qed.

Lemma fl_list_ok nvr l P fl i : fl_ok P fl ->
  fl_ok (fun x n => P x n \/ ((x < nvr)%nat /\ exists k s, l !! k = Some s /\ n = (i + k)%nat /\
      (Z.of_nat x ∈ uses s \/ ra_ins_def s = Z.of_nat x)))
    (foldl (fl_ins nvr) (fl, i) l).1.
Proof.
  revert P fl i. induction l as [|s l IH]; intros P fl i H; cbn [foldl].
  - eapply fl_ok_ext; [|exact H]. intros x n. split; [tauto|]. intros [?|(_ & k & s & ? & _)]; done.
  - unfold fl_ins at 2. rewrite each_use_list.
    assert (F : Forall (fun v => 0 <= v) (uses s)) by (apply Forall_forall; by intros v [? _]%list_elem_of_filter).
    apply (fl_uses_ok P nvr (uses s) i fl F) in H. set (fl1 := foldl _ fl (uses s)) in *. set (d := ra_ins_def s).
    assert (H2 : fl_ok (fun x n => P x n \/ ((x < nvr)%nat /\ n = i /\ (Z.of_nat x ∈ uses s \/ d = Z.of_nat x)))
      (if (0 <=? d) && (d <? Z.of_nat nvr) then ra_fl_upd fl1 (Z.to_nat d) i else fl1)).
    { destruct ((0 <=? d) && (d <? Z.of_nat nvr)) eqn:C.
      - eapply fl_ok_ext; [|apply fl_upd_ok, H]. intros x n. cbn beta. assert (x = Z.to_nat d <-> d = Z.of_nat x) by lia.
        split; [|tauto]. intros [?|[? ->]]; [tauto|]. right. split_and!; [lia | done | tauto].
      - eapply fl_ok_ext; [|exact H]. intros x n. cbn beta. split; [tauto|]. intros [?|(? & -> & [?|?])]; [tauto..|lia]. }
    eapply fl_ok_ext; [|apply IH, H2]. intros x n. cbn beta. split.
    + intros [[?|(? & -> & ?)]|(? & k & t & K & -> & ?)]; [tauto| |]; right; (split; [done|]).
      * exists 0%nat, s. split_and!; [done | lia | done].
      * exists (S k), t. split_and!; [done | lia | done].
    + intros [?|(? & k & t & K & -> & ?)]; [tauto|]. destruct k as [|k]; simpl in K.
      * injection K as <-. left. right. split_and!; [done | lia | done].
      * right. split; [done|]. exists k, t. split_and!; [done | lia | done].
Qed.

Lemma block_lookup fn bs b k s : block_ins fn bs b !! k = Some s <->
  ins fn !! (bs b + k)%nat = Some s /\ (bs b + k < bs (b + 1)%nat)%nat.
Proof. unfold block_ins. rewrite lookup_take_Some, lookup_drop. split; intros [? ?]; (split; [done | lia]). Qed.

Section Ranges.
Context (fn : ir_func) (Hl : labels_ok fn) (Hne : ins fn <> []) (Hnv : 0 < nvregs fn).
Let lv := ra_live_sets fn.
Let nvr := Z.to_nat (nvregs fn).
Let bs := bstart_of fn.

(** The points a block notes. *)
Definition noted (b x n : nat) : Prop :=
  (x ∈ row (lv_in lv) b /\ n = bs b) \/ (x ∈ row (lv_out lv) b /\ n = (bs (b + 1) - 1)%nat) \/
  ((x < nvr)%nat /\ exists k s, block_ins fn bs b !! k = Some s /\ n = (bs b + k)%nat /\
     (Z.of_nat x ∈ uses s \/ ra_ins_def s = Z.of_nat x)).

Lemma lv_fields : lv_nbb lv = nbb_of fn /\ lv_bstart lv = bs /\ lv_nvr lv = nvr /\ lv_nins lv = length (ins fn) /\ lv_blk lv = blk_of fn.
Proof using All. unfold lv. by rewrite live_sets_eq. Qed.

Lemma ranges_noted n : (n <= nbb_of fn)%nat ->
  fl_ok (fun x m => exists b, (b < n)%nat /\ noted b x m) (foldl (fl_block fn lv) (fun _ => -1, fun _ => -1) (seq 0 n)).
Proof using All.
  destruct lv_fields as (_ & Eb & Ev & _). induction n as [|n IH]; intros L.
  - split; simpl; [intros x m (b & ? & _); lia | by left].
  - rewrite seq_S, foldl_app. cbn [foldl Nat.add]. unfold fl_block at 1. rewrite Eb, Ev.
    eapply fl_ok_ext; [|apply fl_list_ok, fl_upds_ok, fl_upds_ok, IH; lia]. intros x m. cbn beta. split.
    + intros [[[(b & Lb & H)|H]|H]|H].
      * exists b. split; [lia | done].
      * exists n. split; [lia | by left].
      * exists n. split; [lia | right; by left].
      * exists n. split; [lia | by right; right].
    + intros (b & Lb & H). destruct (decide (b = n)) as [->|]; [|left; left; left; exists b; split; [lia | done]].
      destruct H as [H|[H|H]]; tauto.
Qed.

Lemma noted_busy b x n : (b < nbb_of fn)%nat -> noted b x n -> busy fn (Z.of_nat x) n /\ (n < length (ins fn))%nat.
Proof using All.
  intros Lb H. destruct (block_range fn Hl Hne Hnv b Lb) as (Bd & _ & _). fold bs in Bd.
  assert (Rw : forall c, x ∈ row (lv_in lv) c \/ x ∈ row (lv_out lv) c -> (c < nbb_of fn)%nat -> (x < nvr)%nat).
  { intros c [H'|H'] Lc; [apply (in_row fn Hl Hne Hnv c x Lc) in H' | apply (out_row fn Hl Hne Hnv c x Lc) in H']; by destruct H'. }
  destruct H as [[H ->]|[[H ->]|(Hx & k & s & K & -> & H)]].
  - pose proof (Rw b (or_introl H) Lb). split; [|lia]. left. by apply (in_row_live fn Hl Hne Hnv).
  - pose proof (Rw b (or_intror H) Lb). split; [|lia]. right. left. by apply (out_row_live fn Hl Hne Hnv).
  - apply block_lookup in K as [K L]. split; [|lia]. destruct H as [H|H].
    + left. by eapply live_use.
    + right. right. by exists s.
Qed.

(** Around a point where the vreg is live or written there are noted ones. *)
Lemma busy_noted x n : (x < nvr)%nat -> busy fn (Z.of_nat x) n -> (n < length (ins fn))%nat ->
  exists b n1 n2, (b < nbb_of fn)%nat /\ noted b x n1 /\ noted b x n2 /\ (n1 <= n <= n2)%nat.
Proof using All.
  intros Hx H Ln. destruct (place fn Hl Hne Hnv n Ln) as (b & Lb & Eb & Hn & _). fold bs in Hn. exists b.
  destruct (block_range fn Hl Hne Hnv b Lb) as (Bd & _ & Bk). fold bs in Bd, Bk.
  assert (Ins : forall m s, ins fn !! m = Some s -> (bs b <= m < bs (b + 1)%nat)%nat ->
    Z.of_nat x ∈ uses s \/ ra_ins_def s = Z.of_nat x -> noted b x m).
  { intros m s I L U. right. right. split; [done|]. exists (m - bs b)%nat, s.
    rewrite block_lookup. replace (bs b + (m - bs b))%nat with m by lia. split_and!; [done | lia | done | done]. }
  assert (Wr : forall m, (bs b <= m <= bs (b + 1)%nat)%nat -> written (stretch fn (bs b) m) (Z.of_nat x) = true ->
    exists j, (bs b <= j < m)%nat /\ noted b x j).
  { intros m Lm W. apply existsb_exists in W as (s & Hs & D%Z.eqb_eq). apply list_elem_of_In, list_elem_of_lookup in Hs as [k K].
    unfold stretch in K. rewrite lookup_take_Some, lookup_drop in K. destruct K as [K Lk].
    exists (bs b + k)%nat. split; [lia|]. apply (Ins _ s K); [lia | by right]. }
  assert (Bef : forall m, (bs b <= m < bs (b + 1)%nat)%nat -> live_in fn (Z.of_nat x) m -> exists n1, noted b x n1 /\ (n1 < m \/ n1 = bs b)%nat).
  { intros m Lm L. apply (live_at_iff fn Hl Hne Hnv x Hx m ltac:(lia)) in L. unfold live_at in L. rewrite (Bk m Lm) in L.
    destruct (written (stretch fn (bs b) m) (Z.of_nat x)) eqn:W.
    - destruct (Wr m ltac:(lia) W) as (j & Lj & Hj). exists j. split; [done | lia].
    - exists (bs b). split; [|by right]. left. split; [|done]. apply (in_row_live fn Hl Hne Hnv); [done..|].
      apply (live_at_iff fn Hl Hne Hnv x Hx); fold bs; [lia|]. unfold live_at. rewrite (Bk (bs b)) by lia. fold bs in L |- *.
      rewrite (stretch_app fn (bs b) m) by lia. rewrite foldr_app, scan_split, L, W. apply orb_true_r. }
  assert (Aft : forall m, (bs b <= m < bs (b + 1)%nat)%nat -> live_in fn (Z.of_nat x) m -> exists n2, noted b x n2 /\ (m <= n2)%nat).
  { intros m Lm L. apply (live_at_iff fn Hl Hne Hnv x Hx m ltac:(lia)) in L. unfold live_at in L. rewrite (Bk m Lm) in L. fold bs in L.
    rewrite scan_split, orb_true_iff in L. destruct L as [L|L].
    - assert (U : exists j, (m <= j < bs (b + 1)%nat)%nat /\ exists s, ins fn !! j = Some s /\ Z.of_nat x ∈ uses s).
      { clear - Lm L Bd. remember (bs (b + 1)%nat - m)%nat as k eqn:Ek. revert m Lm L Ek. induction k as [|k IH]; intros m Lm L Ek; [lia|].
        destruct (lookup_lt_is_Some_2 (ins fn) m) as [s I]; [lia|]. rewrite (stretch_cons fn m _ s I) in L by lia.
        unfold exposed in L. cbn [foldr] in L. rewrite live_back_eq, orb_true_iff, isuse_iff in L. destruct L as [U|L]; [exists m; split; [lia | by exists s]|].
        apply andb_true_iff in L as [_ L]. destruct (decide (S m = bs (b + 1)%nat)) as [E|]; [by rewrite E, stretch_nil in L|].
        destruct (IH (S m) ltac:(lia) L ltac:(lia)) as (j & Lj & J). exists j. split; [lia | done]. }
      destruct U as (j & Lj & s & I & U). exists j. split; [|lia]. apply (Ins j s I); [lia | by left].
    - apply andb_true_iff in L as [_ L]. exists (bs (b + 1)%nat - 1)%nat. split; [|lia]. right. left. split; [|done].
      apply (out_b_iff fn Hl Hne Hnv x Hx b Lb) in L. by apply (out_row fn Hl Hne Hnv). }
  destruct H as [L|[L|(i & I & D)]].
  - destruct (Bef n ltac:(lia) L) as (n1 & H1 & L1), (Aft n ltac:(lia) L) as (n2 & H2 & L2). exists n1, n2. split_and!; (done || lia).
  - destruct (decide (S n = bs (b + 1)%nat)) as [E|Ne].
    + assert (H : noted b x n).
      { right. left. split; [|lia]. apply (out_row_live fn Hl Hne Hnv); [done..|]. fold bs. by replace (bs (b + 1)%nat - 1)%nat with n by lia. }
      exists n, n. done.
    + destruct L as (m & Su & L). rewrite (isucc_inside fn Hl Hne Hnv b n m Lb) in L by (done || fold bs; lia).
      destruct (Bef (S n) ltac:(lia) L) as (n1 & H1 & L1), (Aft (S n) ltac:(lia) L) as (n2 & H2 & L2). exists n1, n2. split_and!; (done || lia).
  - exists n, n. split_and!; try done; apply (Ins n i I); (lia || by right).
Qed.
End Ranges.

(** ** The theorems *)

(** C9: the live-in and live-out rows of the blocks, and the scan that answers for one
    instruction, are exactly the least solution of the liveness equations on
    instructions: a vreg is in a row where some path to a read of it meets no write. *)
Theorem ra_live_exact (fn : ir_func) (v : Z) (n : nat) :
  labels_ok fn -> 0 <= v < nvregs fn -> (n < length (ins fn))%nat ->
  let lv := (ra_live_compute fn).1 in
  (ra_live_in_at lv fn (Z.of_nat n) v = true <-> live_in fn v n) /\
  forall b, (b < lv_nbb lv)%nat ->
    (Z.to_nat v ∈ row (lv_in lv) b <-> live_in fn v (lv_bstart lv b)) /\
    (Z.to_nat v ∈ row (lv_out lv) b <-> live_out fn v (lv_bstart lv (b + 1)%nat - 1)).
Proof.
  intros Hl Hv Ln. assert (Hne : ins fn <> []) by (destruct (ins fn); [simpl in Ln; lia | done]).
  assert (Hnv : 0 < nvregs fn) by lia. cbv zeta. cbn [ra_live_compute fst].
  destruct (lv_fields fn Hl Hne Hnv) as (-> & -> & _). split; [by apply live_in_at_iff|]. intros b Lb.
  replace v with (Z.of_nat (Z.to_nat v)) at 2 4 by lia. split; [apply in_row_live | apply out_row_live]; (done || lia).
Qed.

(** C33: a vreg's range covers every instruction where it is live in, live out or
    written, its ends are such instructions, and it is -1 to -1 where there is none. *)
Theorem ra_ranges_tight (fn : ir_func) (v : Z) :
  labels_ok fn -> 0 <= v < nvregs fn -> ins fn <> [] ->
  let first := (ra_live_compute fn).2.1 (Z.to_nat v) in
  let last := (ra_live_compute fn).2.2 (Z.to_nat v) in
  (forall n, (n < length (ins fn))%nat -> busy fn v n -> first <= Z.of_nat n <= last) /\
  (first = -1 /\ last = -1 \/ 0 <= first <= last /\ busy fn v (Z.to_nat first) /\ busy fn v (Z.to_nat last)).
Proof.
  intros Hl Hv Hne. assert (Hnv : 0 < nvregs fn) by lia. cbv zeta. cbn [ra_live_compute fst snd].
  destruct (lv_fields fn Hl Hne Hnv) as (-> & _). destruct (ranges_noted fn Hl Hne Hnv (nbb_of fn) (le_n _)) as [Hi Ha].
  set (fl := foldl _ _ (seq 0 (nbb_of fn))) in *.
  assert (Hb : forall m, (exists b, (b < nbb_of fn)%nat /\ noted fn b (Z.to_nat v) m) -> busy fn v m).
  { intros m (b & Lb & H). apply (noted_busy fn Hl Hne Hnv) in H as [H _]; [|done]. by rewrite Z2Nat.id in H by lia. }
  split.
  - intros n Ln B. replace v with (Z.of_nat (Z.to_nat v)) in B by lia.
    destruct (busy_noted fn Hl Hne Hnv (Z.to_nat v) n ltac:(lia) B Ln) as (b & n1 & n2 & Lb & H1 & H2 & L).
    pose proof (Hi _ n1 (ex_intro _ b (conj Lb H1))). pose proof (Hi _ n2 (ex_intro _ b (conj Lb H2))). lia.
  - destruct (Ha (Z.to_nat v)) as [|(A1 & A2 & A3 & A4)]; [by left|]. right. pose proof (Hi _ _ A2). pose proof (Hi _ _ A4).
    split_and!; [lia | lia | by apply Hb | by apply Hb].
Qed.

(** [x = 5; y = 1; do { z = y; y = x; x = 3; } while (!z); return y;] *)
Definition live_demo : ir_func :=
  Fn 0 0 3 1 [] [const_ 0 5; const_ 1 1; label_ 0; mov_ 2 1; mov_ 1 0; const_ 0 3; brz_ 2 0; ret_ 1] [] None [].

Lemma ra_live_exact_witness : live_in live_demo 0 6 /\ ~ live_in live_demo 0 5 /\ live_out live_demo 1 6.
Proof.
  assert (Hl : labels_ok live_demo) by (apply (bool_decide_unpack (labels_ok live_demo)); vm_compute; exact I).
  split_and!.
  - apply (ra_live_exact live_demo 0 6 Hl); [simpl; lia | simpl; lia | vm_compute; reflexivity].
  - intros H. apply (ra_live_exact live_demo 0 5 Hl) in H; [vm_compute in H; discriminate | simpl; lia..].
  - destruct (ra_live_exact live_demo 1 6 Hl) as [_ H]; [simpl; lia..|]. destruct (H 1%nat) as [_ O]; [vm_compute; lia|].
    apply O. vm_compute. right. left.
Defined.

Lemma ra_ranges_tight_witness : (ra_live_compute live_demo).2.1 2%nat = 3 /\ busy live_demo 2 6 /\
  forall n, (n < 8)%nat -> busy live_demo 2 n -> (3 <= n <= 6)%nat.
Proof.
  assert (Hl : labels_ok live_demo) by (apply (bool_decide_unpack (labels_ok live_demo)); vm_compute; exact I).
  destruct (ra_ranges_tight live_demo 2 Hl) as [A [B|B]]; [simpl; lia | done | exfalso; vm_compute in B; by destruct B|].
  split_and!; [vm_compute; reflexivity | exact (proj2 (proj2 B))|]. intros n Ln H. specialize (A n Ln H).
  change ((ra_live_compute live_demo).2.1 (Z.to_nat 2)) with 3 in A. change ((ra_live_compute live_demo).2.2 (Z.to_nat 2)) with 6 in A. lia.
Defined.
