(* ===== verification/LSet.v ===== *)
(** * The set a walk back through a block keeps

    [struct ra_lset] of [src/src/arch/regalloc.c]: the vregs live at a point, as an
    array of members in no order and each vreg's place in it, so that adding, removing
    and asking take constant time; going to the next block marks the members that stay
    by a bit above any place. [chg] hears of every vreg that comes or goes. The theorem:
    whatever operations are run, the arrays are a set, and what [chg] heard is what
    changed, in order. *)
From stdpp Require Import base numbers list option gmap sets.
From Stdlib Require Import ZArith Lia.
From S2P Require Import Prelude Ir Util IrSem Simulate Paths Cfg Live.

Local Open Scope Z_scope.

(** ** The operations *)

(** [l_chg] lists the calls of [chg], oldest first. *)
Record ra_lset := LSet { l_mem : nat -> Z; l_pos : Z -> Z; l_n : nat; l_nvr : Z; l_chg : list (Z * bool) }.

Definition ra_lset_init (nvr : Z) : ra_lset := LSet (fun _ => -1) (fun _ => -1) 0 nvr [].

Definition ra_lset_add (s : ra_lset) (v : Z) : ra_lset :=
  if (v <? 0) || (l_nvr s <=? v) || (0 <=? l_pos s v) then s
  else LSet (upn (l_mem s) (l_n s) v) (upd (l_pos s) v (Z.of_nat (l_n s))) (S (l_n s)) (l_nvr s) (l_chg s ++ [(v, true)]).

Definition ra_lset_del (s : ra_lset) (v : Z) : ra_lset :=
  if (v <? 0) || (l_nvr s <=? v) || (l_pos s v <? 0) then s
  else
    let p := l_pos s v in
    let n := (l_n s - 1)%nat in
    let last := l_mem s n in
    LSet (upn (l_mem s) (Z.to_nat p) last) (upd (upd (l_pos s) last p) v (-1)) n (l_nvr s) (l_chg s ++ [(v, false)]).

Definition KEPT : Z := 2 ^ 30.

(** The members that stay, marked. *)
Definition out_keep (nvr : Z) (pos : Z -> Z) (v : Z) : Z -> Z :=
  if (0 <=? v) && (v <? nvr) && (0 <=? pos v) then upd pos v (Z.lor (pos v) KEPT) else pos.

(** The others, dropped. *)
Definition out_drop (st : (Z -> Z) * list (Z * bool)) (v : Z) : (Z -> Z) * list (Z * bool) :=
  let '(pos, chg) := st in
  if negb (Z.land (pos v) KEPT =? 0) then (upd pos v (-2), chg) else (upd pos v (-1), chg ++ [(v, false)]).

(** The members, in the row's order. *)
Definition out_fill (s : ra_lset) (v : Z) : ra_lset :=
  if (v <? 0) || (l_nvr s <=? v) || (0 <=? l_pos s v) then s
  else
    let was := l_pos s v =? -2 in
    LSet (upn (l_mem s) (l_n s) v) (upd (l_pos s) v (Z.of_nat (l_n s))) (S (l_n s)) (l_nvr s)
      (if was then l_chg s else l_chg s ++ [(v, true)]).

Definition members (s : ra_lset) : list Z := map (l_mem s) (seq 0 (l_n s)).

Definition lset_out (s : ra_lset) (vs : list Z) : ra_lset :=
  let pos := foldl (out_keep (l_nvr s)) (l_pos s) vs in
  let '(pos, chg) := foldl out_drop (pos, l_chg s) (members s) in
  foldl out_fill (LSet (l_mem s) pos 0 (l_nvr s) chg) vs.

Definition ra_lset_out (s : ra_lset) (lv : ra_live) (b : nat) : ra_lset := lset_out s (map Z.of_nat (row (lv_out lv) b)).

Definition ra_lset_step (s : ra_lset) (i : ir_ins) : ra_lset :=
  let d := ra_ins_def i in
  let s := if 0 <=? d then ra_lset_del s d else s in
  ra_each_use (fun v s => ra_lset_add s v) i s.

(** ** The arrays are a set *)

(** [s] holds the vregs of [A], and [chg] heard what led from [A0] there. *)
Inductive heard : gset Z -> list (Z * bool) -> gset Z -> Prop :=
  | heard_nil A : heard A [] A
  | heard_add A l B v : heard A l B -> v ∉ B -> heard A (l ++ [(v, true)]) ({[v]} ∪ B)
  | heard_del A l B v : heard A l B -> v ∈ B -> heard A (l ++ [(v, false)]) (B ∖ {[v]}).

Record lset_ok (A0 A : gset Z) (s : ra_lset) : Prop := {
  lo_in v : 0 <= l_pos s v <-> v ∈ A;
  lo_range v : v ∈ A -> 0 <= v < l_nvr s;
  lo_pos v : 0 <= l_pos s v -> l_pos s v < Z.of_nat (l_n s) /\ l_mem s (Z.to_nat (l_pos s v)) = v;
  lo_mem k : (k < l_n s)%nat -> l_pos s (l_mem s k) = Z.of_nat k;
  lo_none v : l_pos s v < 0 -> l_pos s v = -1;
  lo_heard : heard A0 (l_chg s) A }.

Lemma members_In A0 A s v : lset_ok A0 A s -> v ∈ members s <-> v ∈ A.
Proof.
  intros H. unfold members. rewrite list_elem_of_fmap. split.
  - intros (k & -> & K%elem_of_seq). apply (lo_in _ _ _ H). rewrite (lo_mem _ _ _ H) by lia. lia.
  - intros I%(lo_in _ _ _ H). destruct (lo_pos _ _ _ H v I) as [L E]. exists (Z.to_nat (l_pos s v)). split; [done|].
    apply elem_of_seq. lia.
Qed.

Lemma members_NoDup A0 A s : lset_ok A0 A s -> NoDup (members s).
Proof.
  intros H. unfold members. apply NoDup_fmap_2_strong; [|apply NoDup_seq]. intros x y Hx%elem_of_seq Hy%elem_of_seq E.
  pose proof (lo_mem _ _ _ H x ltac:(lia)). pose proof (lo_mem _ _ _ H y ltac:(lia)). rewrite E in *. lia.
Qed.

(** No more members than vregs. *)
Lemma members_bound A0 A s : 0 <= l_nvr s -> lset_ok A0 A s -> Z.of_nat (l_n s) <= l_nvr s.
Proof.
  intros Hn H. assert (L : (length (members s) <= length (seqZ 0 (l_nvr s)))%nat).
  { apply submseteq_length, NoDup_submseteq; [by eapply members_NoDup|]. intros v Hv. apply elem_of_seqZ.
    apply (lo_range _ _ _ H). by apply (members_In _ _ _ _ H). }
  rewrite length_seqZ in L. unfold members in L. rewrite length_map, length_seq in L. lia.
Qed.

Lemma lset_init_ok nvr : lset_ok ∅ ∅ (ra_lset_init nvr).
Proof.
  split; simpl; try (intros; set_solver || lia); try constructor.
Qed.

Lemma lset_add_ok A0 A s v : lset_ok A0 A s ->
  lset_ok A0 (if decide (0 <= v < l_nvr s) then {[v]} ∪ A else A) (ra_lset_add s v).
Proof.
  intros H. pose proof H as [H1 H2 H3 H4 H5 H6]. unfold ra_lset_add. case_decide as R.
  2: { destruct (Z.ltb_spec v 0), (Z.leb_spec (l_nvr s) v); simpl; try done. lia. }
  destruct (Z.ltb_spec v 0), (Z.leb_spec (l_nvr s) v); try lia. simpl. destruct (Z.leb_spec 0 (l_pos s v)) as [L|L].
  - apply H1 in L. by replace ({[v]} ∪ A) with A by set_solver.
  - assert (NA : v ∉ A) by (rewrite <- H1; lia). split; cbn [l_mem l_pos l_n l_nvr l_chg].
    + intros x. unfold upd. destruct (Z.eqb_spec x v) as [->|]; [|rewrite H1]; set_solver by lia.
    + intros x [->%elem_of_singleton|]%elem_of_union; auto.
    + intros x. unfold upd. destruct (Z.eqb_spec x v) as [->|N].
      * intros _. split; [lia|]. unfold upn. by rewrite Nat2Z.id, Nat.eqb_refl.
      * intros P. destruct (H3 x P) as [L' E]. split; [lia|]. unfold upn.
        destruct (Nat.eqb_spec (Z.to_nat (l_pos s x)) (l_n s)); [lia | done].
    + intros k K. unfold upn. destruct (Nat.eqb_spec k (l_n s)) as [->|]; [by rewrite upd_same|]. unfold upd.
      destruct (Z.eqb_spec (l_mem s k) v) as [E|]; [|apply H4; lia]. pose proof (H4 k ltac:(lia)) as P. rewrite E in P. lia.
    + intros x. unfold upd. destruct (Z.eqb_spec x v); [lia | apply H5].
    + by constructor.
Qed.

Lemma lset_del_ok A0 A s v : lset_ok A0 A s -> lset_ok A0 (A ∖ {[v]}) (ra_lset_del s v).
Proof.
  intros H. pose proof H as [H1 H2 H3 H4 H5 H6]. unfold ra_lset_del.
  destruct ((v <? 0) || (l_nvr s <=? v) || (l_pos s v <? 0)) eqn:C.
  - assert (NA : v ∉ A) by (intros I; pose proof (H2 v I); apply H1 in I; lia).
    by replace (A ∖ {[v]}) with A by set_solver.
  - assert (P : 0 <= l_pos s v) by lia. assert (I : v ∈ A) by (by apply H1). destruct (H3 v P) as [Lv Mv].
    set (p := l_pos s v) in *. set (n := (l_n s - 1)%nat). assert (Ln : (n < l_n s)%nat) by (unfold n; lia).
    pose proof (H4 n Ln) as Pl. set (last := l_mem s n) in *.
    assert (Pv : forall x, 0 <= l_pos s x -> l_pos s x = p -> x = v).
    { intros x Hx E. destruct (H3 x Hx) as [_ <-]. by rewrite E. }
    split; cbn [l_mem l_pos l_n l_nvr l_chg].
    + intros x. rewrite elem_of_difference, elem_of_singleton, <- H1. unfold upd. destruct (Z.eqb_spec x v) as [->|N]; [lia|].
      destruct (Z.eqb_spec x last) as [->|]; [|tauto]. rewrite Pl. lia.
    + intros x [Hx _]%elem_of_difference. auto.
    + intros x. unfold upd. destruct (Z.eqb_spec x v) as [->|N]; [lia|]. destruct (Z.eqb_spec x last) as [->|Nl].
      * intros _. assert (p <> Z.of_nat n) by (intros E; apply N, Pv; lia). split; [lia|]. unfold upn. by rewrite Nat.eqb_refl.
      * intros Px. destruct (H3 x Px) as [L E]. assert (l_pos s x <> Z.of_nat n).
        { intros E'. apply Nl. unfold last. rewrite <- E, E'. by rewrite Nat2Z.id. }
        split; [lia|]. unfold upn. destruct (Nat.eqb_spec (Z.to_nat (l_pos s x)) (Z.to_nat p)); [|done].
        destruct N. apply Pv; lia.
    + intros k K. unfold upn. destruct (Nat.eqb_spec k (Z.to_nat p)) as [->|Nk].
      * unfold upd. destruct (Z.eqb_spec last v) as [E|]; [rewrite E in Pl; lia|]. rewrite Z.eqb_refl. lia.
      * pose proof (H4 k ltac:(lia)) as Pk. unfold upd. destruct (Z.eqb_spec (l_mem s k) v) as [E|]; [rewrite E in Pk; lia|].
        destruct (Z.eqb_spec (l_mem s k) last) as [E|]; [rewrite E in Pk; lia | done].
    + intros x. unfold upd. destruct (Z.eqb_spec x v); [done|]. destruct (Z.eqb_spec x last); [lia | apply H5].
    + by constructor.
Qed.

(** ** Going to the next block *)

Section Out.
Context (A0 A : gset Z) (s : ra_lset) (vs : list Z) (H : lset_ok A0 A s) (Hn : 0 <= l_nvr s < KEPT).

Lemma pos_small v : l_pos s v < KEPT.
Proof using All.
  destruct (Z.lt_ge_cases (l_pos s v) 0) as [|L]; [unfold KEPT in *; lia|]. pose proof (lo_pos _ _ _ H v L) as [? _].
  pose proof (members_bound A0 A s (proj1 Hn) H). lia.
Qed.

Definition pos_kept (ds : list Z) (v : Z) : Z := if decide (v ∈ A /\ v ∈ ds) then l_pos s v + KEPT else l_pos s v.

Lemma lor_kept p : 0 <= p < KEPT -> Z.lor p KEPT = p + KEPT /\ Z.lor (p + KEPT) KEPT = p + KEPT.
Proof.
  intros L. assert (E : Z.lor p KEPT = p + KEPT) by (exact (lor_add_shift 30 1 p ltac:(lia) L)).
  split; [done|]. rewrite <- E at 1. by rewrite <- Z.lor_assoc, Z.lor_diag.
Qed.

Lemma keep_pos ds pos : (forall v, pos v = pos_kept ds v) -> forall v, foldl (out_keep (l_nvr s)) pos vs v = pos_kept (ds ++ vs) v.
Proof using All.
  revert ds pos. induction vs as [|x l IH]; intros ds pos E v; cbn [foldl]; [by rewrite app_nil_r|].
  replace (ds ++ x :: l) with ((ds ++ [x]) ++ l) by (by rewrite <- (assoc (++))). apply IH. clear v. intros v.
  assert (In : v ∈ ds ++ [x] <-> v ∈ ds \/ v = x) by (by rewrite elem_of_app, list_elem_of_singleton).
  pose proof (pos_small x) as Px. pose proof (lo_in _ _ _ H) as Hin. pose proof (lo_range _ _ _ H x) as Hr.
  unfold out_keep. rewrite (E x). unfold pos_kept. rewrite (decide_ext (v ∈ A /\ v ∈ ds ++ [x]) (v ∈ A /\ (v ∈ ds \/ v = x))) by (by rewrite In).
  destruct (decide (x ∈ A)) as [Ax|Nx].
  - pose proof (proj2 (Hin x) Ax) as P0. specialize (Hr Ax). destruct (lor_kept (l_pos s x) ltac:(lia)) as [L1 L2].
    assert (Hc : (0 <=? (if decide (x ∈ A /\ x ∈ ds) then l_pos s x + KEPT else l_pos s x)) = true) by (destruct (decide _); unfold KEPT in *; lia).
    rewrite Hc. replace ((0 <=? x) && (x <? l_nvr s) && true) with true by lia. unfold upd. destruct (Z.eqb_spec v x) as [->|N].
    + rewrite (decide_True (P := x ∈ A /\ (x ∈ ds \/ x = x))) by auto. destruct (decide (x ∈ A /\ x ∈ ds)); [exact L2 | exact L1].
    + rewrite E. unfold pos_kept. apply decide_ext. tauto.
  - assert (P0 : l_pos s x < 0) by (destruct (Z.lt_ge_cases (l_pos s x) 0); [done | by destruct Nx; apply Hin]).
    rewrite (decide_False (P := x ∈ A /\ x ∈ ds)) by tauto. replace (0 <=? l_pos s x) with false by lia. rewrite andb_false_r, E.
    unfold pos_kept. apply decide_ext. split; [tauto|]. intros [Hv [Hd|Hd]]; [tauto | by subst].
Qed.

(** The members that do not stay go, each told once. *)
Definition dropped (v : Z) : Z := if decide (v ∈ vs) then -2 else -1.

Lemma drop_pos ms pos chg B : NoDup ms -> (forall v, v ∈ ms -> v ∈ A /\ pos v = pos_kept vs v) -> (forall v, v ∈ ms -> v ∈ B) -> heard A0 chg B ->
  exists chg', (forall v, (foldl out_drop (pos, chg) ms).1 v = if decide (v ∈ ms) then dropped v else pos v) /\
    (foldl out_drop (pos, chg) ms).2 = chg' /\ heard A0 chg' (B ∖ list_to_set (filter (fun v => v ∉ vs) ms)).
Proof using All.
  intros ND. revert pos chg B. induction ND as [|x ms Nx ND IH]; intros pos chg B Hp HB Hh; cbn [foldl].
  - exists chg. split_and!; [intros v; by rewrite decide_False by apply not_elem_of_nil | done|]. by replace (B ∖ _) with B by set_solver.
  - destruct (Hp x ltac:(by left)) as [Ax Ex]. pose proof (pos_small x) as Px. pose proof (proj2 (lo_in _ _ _ H x) Ax) as P0.
    assert (Td : (Z.land (pos x) KEPT =? 0) = negb (bool_decide (x ∈ vs))).
    { rewrite Ex. unfold pos_kept, KEPT in *. rewrite land_top by (try case_decide; lia).
      case_decide as D; case_bool_decide as C; try tauto; destruct (Z.ltb_spec (l_pos s x + 2 ^ 30) (2 ^ 30)), (Z.ltb_spec (l_pos s x) (2 ^ 30)); lia || done. }
    unfold out_drop at 2 4. rewrite Td, negb_involutive. case_bool_decide as C.
    + destruct (IH (upd pos x (-2)) chg B) as (chg' & E1 & E2 & E3).
      { intros v Hv. destruct (Hp v ltac:(by right)) as [? Ev]. split; [done|]. unfold upd. destruct (Z.eqb_spec v x) as [->|]; [done | done]. }
      { intros v Hv. apply HB. by right. }
      { done. }
      exists chg'. split_and!; [|done|].
      * intros v. rewrite E1. unfold upd. destruct (Z.eqb_spec v x) as [->|N].
        -- rewrite decide_False by done. rewrite decide_True by left. unfold dropped. by rewrite decide_True.
        -- apply decide_ext. set_solver.
      * rewrite filter_cons, decide_False by tauto. done.
    + destruct (IH (upd pos x (-1)) (chg ++ [(x, false)]) (B ∖ {[x]})) as (chg' & E1 & E2 & E3).
      { intros v Hv. destruct (Hp v ltac:(by right)) as [? Ev]. split; [done|]. unfold upd. destruct (Z.eqb_spec v x) as [->|]; [done | done]. }
      { intros v Hv. assert (v <> x) by congruence. assert (v ∈ B) by (apply HB; by right). set_solver. }
      { constructor; [done|]. apply HB. by left. }
      exists chg'. split_and!; [|done|].
      * intros v. rewrite E1. unfold upd. destruct (Z.eqb_spec v x) as [->|N].
        -- rewrite decide_False by done. rewrite decide_True by left. unfold dropped. by rewrite decide_False.
        -- apply decide_ext. set_solver.
      * rewrite filter_cons, decide_True by done. simpl. by rewrite <- difference_difference_l_L.
Qed.

(** The row fills the array again, those that stayed untold. *)
Record fill_ok (K D : gset Z) (t : ra_lset) : Prop := {
  fo_in v : 0 <= l_pos t v <-> v ∈ D;
  fo_range v : v ∈ D -> 0 <= v < l_nvr t;
  fo_pos v : 0 <= l_pos t v -> l_pos t v < Z.of_nat (l_n t) /\ l_mem t (Z.to_nat (l_pos t v)) = v;
  fo_mem k : (k < l_n t)%nat -> l_pos t (l_mem t k) = Z.of_nat k;
  fo_none v : l_pos t v < 0 -> l_pos t v = if decide (v ∈ K) then -2 else -1;
  fo_heard : heard A0 (l_chg t) (K ∪ D) }.

Lemma fill_one K D t v : fill_ok K D t ->
  fill_ok K (if decide (0 <= v < l_nvr t) then {[v]} ∪ D else D) (out_fill t v).
Proof using All.
  intros F. pose proof F as [H1 H2 H3 H4 H5 H6]. unfold out_fill. case_decide as R.
  2: { destruct (Z.ltb_spec v 0), (Z.leb_spec (l_nvr t) v); simpl; try done. lia. }
  destruct (Z.ltb_spec v 0), (Z.leb_spec (l_nvr t) v); try lia. simpl. destruct (Z.leb_spec 0 (l_pos t v)) as [L|L].
  - apply H1 in L. by replace ({[v]} ∪ D) with D by set_solver.
  - assert (NA : v ∉ D) by (rewrite <- H1; lia). pose proof (H5 v L) as Ev. split; cbn [l_mem l_pos l_n l_nvr l_chg].
    + intros x. unfold upd. destruct (Z.eqb_spec x v) as [->|]; [|rewrite H1]; set_solver by lia.
    + intros x [->%elem_of_singleton|]%elem_of_union; auto.
    + intros x. unfold upd. destruct (Z.eqb_spec x v) as [->|N].
      * intros _. split; [lia|]. unfold upn. by rewrite Nat2Z.id, Nat.eqb_refl.
      * intros P. destruct (H3 x P) as [L' E]. split; [lia|]. unfold upn.
        destruct (Nat.eqb_spec (Z.to_nat (l_pos t x)) (l_n t)); [lia | done].
    + intros k K'. unfold upn. destruct (Nat.eqb_spec k (l_n t)) as [->|]; [by rewrite upd_same|]. unfold upd.
      destruct (Z.eqb_spec (l_mem t k) v) as [E|]; [|apply H4; lia]. pose proof (H4 k ltac:(lia)) as P. rewrite E in P. lia.
    + intros x. unfold upd. destruct (Z.eqb_spec x v); [lia | apply H5].
    + rewrite Ev. destruct (decide (v ∈ K)) as [Kv|Nk]; simpl.
      * by replace (K ∪ ({[v]} ∪ D)) with (K ∪ D) by set_solver.
      * replace (K ∪ ({[v]} ∪ D)) with ({[v]} ∪ (K ∪ D)) by set_solver. constructor; [done | set_solver].
Qed.

Lemma out_fill_nvr t v : l_nvr (out_fill t v) = l_nvr t.
Proof. unfold out_fill. by destruct (_ || _). Qed.

Lemma fill_all K D t l : fill_ok K D t ->
  fill_ok K (list_to_set (filter (fun v => 0 <= v < l_nvr t) l) ∪ D) (foldl out_fill t l) /\ l_nvr (foldl out_fill t l) = l_nvr t.
Proof using All.
  revert D t. induction l as [|v l IH]; intros D t F; cbn [foldl].
  - split; [|done]. by replace (list_to_set (filter _ []) ∪ D) with D by set_solver.
  - apply (fill_one K D t v) in F. destruct (IH _ _ F) as [F' E]. rewrite out_fill_nvr in *. split; [|done].
    rewrite filter_cons. replace (list_to_set _ ∪ D) with (list_to_set (filter (fun v => 0 <= v < l_nvr t) l) ∪
      (if decide (0 <= v < l_nvr t) then {[v]} ∪ D else D)); [done|]. destruct (decide (0 <= v < l_nvr t)); set_solver.
Qed.

Lemma lset_out_ok : lset_ok A0 (list_to_set (filter (fun v => 0 <= v < l_nvr s) vs)) (lset_out s vs) /\ l_nvr (lset_out s vs) = l_nvr s.
Proof using All.
  unfold lset_out. pose proof (members_NoDup _ _ _ H) as ND. pose proof (fun v => members_In _ _ _ v H) as MI.
  set (pos1 := foldl (out_keep (l_nvr s)) (l_pos s) vs).
  assert (E1 : forall v, pos1 v = pos_kept vs v).
  { intros v. apply (keep_pos [] (l_pos s)). intros x. unfold pos_kept. rewrite decide_False; [done|]. intros [_ ?%elem_of_nil]. done. }
  destruct (drop_pos (members s) pos1 (l_chg s) A ND) as (chg' & E2 & E3 & E4).
  { intros v Hv. by rewrite <- MI. }
  { intros v Hv. by rewrite <- MI. }
  { apply H. }
  destruct (foldl out_drop (pos1, l_chg s) (members s)) as [pos2 chg2]. simpl in E2, E3. subst chg'.
  set (K := A ∩ list_to_set vs : gset Z). set (t := LSet (l_mem s) pos2 0 (l_nvr s) chg2).
  assert (P2 : forall v, pos2 v = if decide (v ∈ K) then -2 else -1).
  { intros v. rewrite E2, E1. unfold dropped, pos_kept, K. destruct (decide (v ∈ members s)) as [Hm%MI|Hm].
    - apply decide_ext. set_solver.
    - rewrite MI in Hm. rewrite decide_False, decide_False by set_solver.
      apply (lo_none _ _ _ H). destruct (Z.lt_ge_cases (l_pos s v) 0) as [|L]; [done|]. by destruct Hm; apply (lo_in _ _ _ H). }
  assert (F : fill_ok K ∅ t).
  { split; cbn [t l_mem l_pos l_n l_nvr l_chg].
    - intros v. rewrite P2, elem_of_empty. split; [|done]. destruct (decide (v ∈ K)); lia.
    - intros v ?%elem_of_empty. done.
    - intros v. rewrite P2. destruct (decide (v ∈ K)); lia.
    - lia.
    - intros v _. apply P2.
    - replace (K ∪ ∅) with (A ∖ list_to_set (filter (fun v => v ∉ vs) (members s))); [done|].
      apply set_eq. intros v. rewrite elem_of_difference, elem_of_list_to_set, list_elem_of_filter, MI. unfold K.
      destruct (decide (v ∈ vs)); set_solver. }
  destruct (fill_all K ∅ t vs F) as [[F1 F2 F3 F4 F5 F6] En]. split; [|exact En]. cbn [t l_nvr] in *.
  set (D := list_to_set (filter (fun v => 0 <= v < l_nvr s) vs) : gset Z) in *.
  assert (KD : K ⊆ D).
  { intros v Hv. unfold D. rewrite elem_of_list_to_set, list_elem_of_filter. unfold K in Hv.
    split; [apply (lo_range _ _ _ H); set_solver | set_solver]. }
  replace (D ∪ ∅) with D in * by set_solver. replace (K ∪ D) with D in F6 by set_solver.
  split; try done. intros v L. pose proof (F5 v L) as E. rewrite decide_False in E; [done|].
  intros Hk%KD%F1. lia.
Qed.
End Out.

(** ** Stepping back over an instruction *)

Definition within (nvr : Z) (l : list Z) : gset Z := list_to_set (filter (fun v => 0 <= v < nvr) l).

Lemma within_In nvr l v : v ∈ within nvr l <-> 0 <= v < nvr /\ v ∈ l.
Proof. unfold within. by rewrite elem_of_list_to_set, list_elem_of_filter. Qed.

Lemma lset_add_nvr s v : l_nvr (ra_lset_add s v) = l_nvr s.
Proof. unfold ra_lset_add. by destruct (_ || _). Qed.
Lemma lset_del_nvr s v : l_nvr (ra_lset_del s v) = l_nvr s.
Proof. unfold ra_lset_del. by destruct (_ || _). Qed.

Lemma lset_adds_ok A0 A s l : lset_ok A0 A s ->
  lset_ok A0 (within (l_nvr s) l ∪ A) (foldl ra_lset_add s l) /\ l_nvr (foldl ra_lset_add s l) = l_nvr s.
Proof.
  revert A s. induction l as [|v l IH]; intros A s H; cbn [foldl].
  - split; [|done]. by replace (within (l_nvr s) [] ∪ A) with A by (unfold within; set_solver).
  - apply (lset_add_ok A0 A s v) in H. destruct (IH _ _ H) as [H' E]. rewrite lset_add_nvr in *. split; [|done].
    replace (within (l_nvr s) (v :: l) ∪ A) with (within (l_nvr s) l ∪ (if decide (0 <= v < l_nvr s) then {[v]} ∪ A else A)); [done|].
    unfold within. rewrite filter_cons. destruct (decide (0 <= v < l_nvr s)); set_solver.
Qed.

Definition step_set (nvr : Z) (i : ir_ins) (A : gset Z) : gset Z := within nvr (uses i) ∪ A ∖ {[ra_ins_def i]}.

Lemma lset_step_ok A0 A s i : lset_ok A0 A s ->
  lset_ok A0 (step_set (l_nvr s) i A) (ra_lset_step s i) /\ l_nvr (ra_lset_step s i) = l_nvr s.
Proof.
  intros H. unfold ra_lset_step. rewrite each_use_list.
  set (s1 := if 0 <=? ra_ins_def i then ra_lset_del s (ra_ins_def i) else s).
  assert (H1 : lset_ok A0 (A ∖ {[ra_ins_def i]}) s1 /\ l_nvr s1 = l_nvr s).
  { unfold s1. destruct (Z.leb_spec 0 (ra_ins_def i)); [split; [by apply lset_del_ok | apply lset_del_nvr]|]. split; [|done].
    replace (A ∖ {[ra_ins_def i]}) with A; [done|]. apply set_eq. intros v. rewrite elem_of_difference, elem_of_singleton.
    split; [|tauto]. intros Hv. split; [done|]. intros ->. apply (lo_range _ _ _ H) in Hv. lia. }
  destruct H1 as [H1 E]. destruct (lset_adds_ok A0 _ s1 (uses i) H1) as [H2 E2]. rewrite E in *. done.
Qed.

(** ** The refinement *)

Inductive lset_op := LAdd (v : Z) | LDel (v : Z) | LOut (vs : list Z) | LStep (i : ir_ins).

Definition lset_run (s : ra_lset) (o : lset_op) : ra_lset :=
  match o with LAdd v => ra_lset_add s v | LDel v => ra_lset_del s v | LOut vs => lset_out s vs | LStep i => ra_lset_step s i end.
Definition set_run (nvr : Z) (A : gset Z) (o : lset_op) : gset Z :=
  match o with
  | LAdd v => within nvr [v] ∪ A
  | LDel v => A ∖ {[v]}
  | LOut vs => within nvr vs
  | LStep i => step_set nvr i A
  end.

Lemma lset_run_ok A0 A s o : 0 <= l_nvr s < KEPT -> lset_ok A0 A s ->
  lset_ok A0 (set_run (l_nvr s) A o) (lset_run s o) /\ l_nvr (lset_run s o) = l_nvr s.
Proof.
  intros Hn H. destruct o as [v|v|vs|i]; simpl.
  - by destruct (lset_adds_ok A0 A s [v] H).
  - split; [by apply lset_del_ok | apply lset_del_nvr].
  - exact (lset_out_ok A0 A s vs H Hn).
  - by apply lset_step_ok.
Qed.

(** C32: whatever operations are run on it, the sparse set is the set they make of the
    vregs of the function: the places of the members are right, the members are
    those vregs, each once, and the notifications tell, in order, exactly what came and
    went. *)
Theorem ra_lset_refines (nvr : Z) (ops : list lset_op) : 0 <= nvr < KEPT ->
  let s := foldl lset_run (ra_lset_init nvr) ops in
  let A := foldl (set_run nvr) ∅ ops in
  (forall v, 0 <= l_pos s v <-> v ∈ A) /\ NoDup (members s) /\ (forall v, v ∈ members s <-> v ∈ A) /\ heard ∅ (l_chg s) A.
Proof.
  intros Hn. cbv zeta.
  assert (G : forall s A, l_nvr s = nvr -> lset_ok ∅ A s -> lset_ok ∅ (foldl (set_run nvr) A ops) (foldl lset_run s ops)).
  { induction ops as [|o ops IH]; intros s A E H; cbn [foldl]; [done|]. destruct (lset_run_ok ∅ A s o) as [H' E']; [by rewrite E | done|].
    rewrite E in *. by apply IH. }
  specialize (G (ra_lset_init nvr) ∅ eq_refl (lset_init_ok nvr)). split_and!.
  - apply G.
  - by eapply members_NoDup.
  - intros v. by eapply members_In.
  - apply G.
Qed.

Lemma ra_lset_refines_witness :
  let s := foldl lset_run (ra_lset_init 9) [LAdd 3; LAdd 5; LOut [5; 7]; LDel 5] in
  (forall v, 0 <= l_pos s v <-> v ∈ ({[7]} : gset Z)) /\ members s = [7] /\
  l_chg s = [(3, true); (5, true); (3, false); (7, true); (5, false)].
Proof.
  split; [|split; vm_compute; reflexivity].
  destruct (ra_lset_refines 9 [LAdd 3; LAdd 5; LOut [5; 7]; LDel 5]) as (H & _); [unfold KEPT; lia|].
  intros v. rewrite H. by replace (foldl (set_run 9) ∅ [LAdd 3; LAdd 5; LOut [5; 7]; LDel 5]) with ({[7]} : gset Z) by (vm_compute; reflexivity).
Defined.
