(* ===== verification/DeadDefs.v ===== *)
(** * Dead definitions: [pass_deaddefs] of [src/src/opt/dce.c]

    A definition of a temporary that has others and that nothing reads before the next
    one. The pass walks each block backwards from what is live out of it, as the register
    allocator does, and drops a pure definition of what is not in the set; the operands
    of what it drops are not counted, so a chain of them in one block goes at once. The
    theorem: the function that is left does what the function did. *)
From stdpp Require Import base numbers list option gmap sets.
From Stdlib Require Import ZArith Lia FunctionalExtensionality.
From S2P Require Import Prelude Ir Util IrSem Simulate Paths CopyProp Cfg Dce Sccp Live LiveSets LSet.

Local Open Scope Z_scope.

(** ** The pass *)

(** [nv <= fn->nvars] or no temporary defined twice: nothing to do. *)
Definition dd_any (fn : ir_func) (d : defs) : bool :=
  existsb (fun v => 1 <? d_cnt d v) (seqZ (nvars fn) (nvregs fn - nvars fn)).

(** [s] is the set live after the instruction. *)
Definition dd_dead (fn : ir_func) (d : defs) (s : ra_lset) (i : ir_ins) : bool :=
  let v := i_dst i in
  (nvars fn <=? v) && (v <? nvregs fn) && (1 <? d_cnt d v) && (def_target i =? v) && is_pure (i_op i) &&
  negb (i_vol i) && (l_pos s v <? 0).

(** One block from its end: the set before it, and [dead] for each instruction. *)
Fixpoint dd_block (fn : ir_func) (d : defs) (l : list ir_ins) (s : ra_lset) : ra_lset * list bool :=
  match l with
  | [] => (s, [])
  | i :: l =>
      let '(s, dead) := dd_block fn d l s in
      if dd_dead fn d s i then (s, true :: dead) else (ra_lset_step s i, false :: dead)
  end.

(** The blocks below [b], the last first; [dead] holds those done. *)
Fixpoint dd_blocks (fn : ir_func) (d : defs) (lv : ra_live) (b : nat) (s : ra_lset) (dead : list bool) : list bool :=
  match b with
  | O => dead
  | S b =>
      let '(s, dd) := dd_block fn d (block_ins fn (lv_bstart lv) b) (ra_lset_out s lv b) in
      dd_blocks fn d lv b s (dd ++ dead)
  end.

Definition deaddefs (fn : ir_func) : list bool :=
  let lv := (ra_live_compute fn).1 in
  dd_blocks fn (compute_defs fn) lv (lv_nbb lv) (ra_lset_init (nvregs fn)) [].

(** [off] is the environment's switch. *)
Definition pass_deaddefs (off : bool) (fn : ir_func) : ir_func * bool :=
  if (nins fn =? 0) || (nvregs fn <=? nvars fn) || negb (match eh fn with [] => true | _ => false end) || off then (fn, false)
  else if negb (dd_any fn (compute_defs fn)) then (fn, false)
  else
    let dead := deaddefs fn in
    if negb (existsb id dead) then (fn, false)
    else
      let keep n := negb (default false (dead !! Z.to_nat n)) in
      (set_scope (remap_scopes (dce_newpos keep fn) (nins fn) (var_scope fn))
         (set_ins (concat (keep_live keep 0 (ins fn))) fn), true).

(** ** The walk on sets *)

Definition set_dead (fn : ir_func) (d : defs) (A : gset Z) (i : ir_ins) : bool :=
  let v := i_dst i in
  (nvars fn <=? v) && (v <? nvregs fn) && (1 <? d_cnt d v) && (def_target i =? v) && is_pure (i_op i) &&
  negb (i_vol i) && bool_decide (v ∉ A).

Fixpoint walk (fn : ir_func) (d : defs) (l : list ir_ins) (A : gset Z) : gset Z :=
  match l with
  | [] => A
  | i :: l => let A := walk fn d l A in if set_dead fn d A i then A else step_set (nvregs fn) i A
  end.

Lemma dd_dead_set fn d A0 A s i : lset_ok A0 A s -> dd_dead fn d s i = set_dead fn d A i.
Proof.
  intros H. unfold dd_dead, set_dead. f_equal. pose proof (lo_in _ _ _ H (i_dst i)) as E.
  destruct (Z.ltb_spec (l_pos s (i_dst i)) 0) as [L|L].
  - rewrite bool_decide_true; [done|]. intros I%E. lia.
  - rewrite bool_decide_false; [done|]. intros N. by apply N, E.
Qed.

Lemma dd_block_walk fn d A0 A s l : lset_ok A0 A s -> l_nvr s = nvregs fn ->
  lset_ok A0 (walk fn d l A) (dd_block fn d l s).1 /\ l_nvr (dd_block fn d l s).1 = nvregs fn /\
  length (dd_block fn d l s).2 = length l /\
  forall k i, l !! k = Some i -> (dd_block fn d l s).2 !! k = Some (set_dead fn d (walk fn d (drop (S k) l) A) i).
Proof.
  intros H En. induction l as [|i l (IH1 & IH2 & IH3 & IH4)]; cbn [dd_block walk]; [done|].
  destruct (dd_block fn d l s) as [s' dead]. simpl in *. rewrite (dd_dead_set fn d A0 _ s' i IH1).
  assert (K : forall b, b = set_dead fn d (walk fn d l A) i -> length (b :: dead) = S (length l) /\
    forall k j, (i :: l) !! k = Some j -> (b :: dead) !! k = Some (set_dead fn d (walk fn d (drop k l) A) j)).
  { intros b ->. split; [simpl; by rewrite IH3|]. intros [|k] j; simpl; [|apply IH4]. intros [= <-]. by rewrite drop_0. }
  destruct (set_dead fn d (walk fn d l A) i) eqn:D; cbn [fst snd].
  - destruct (K true eq_refl). done.
  - destruct (K false eq_refl). destruct (lset_step_ok A0 _ s' i IH1) as [Hs Es]. rewrite IH2 in *. done.
Qed.

(** ** The set at each instruction *)

Section Pass.
Context {M : Machine}.
Context (fn : ir_func) (Hwf : wf_func fn) (Hl : labels_ok fn) (Hne : ins fn <> []) (Hnv : 0 < nvregs fn) (Hbig : nvregs fn < KEPT).
Context (Heh : eh fn = []).
Context (Hesc : forall s, esc s = true -> 0 <= s < nvars fn).
Context (Hig : forall x l, igoto x = Some l -> l ∈ taken_labels fn).
Let d := compute_defs fn.
Let lv := ra_live_sets fn.
Let N := length (ins fn).
Let bs := bstart_of fn.
Let blk := blk_of fn.

Definition out_set (b : nat) : gset Z := within (nvregs fn) (map Z.of_nat (row (lv_out lv) b)).
Definition set_at (n : nat) : gset Z := walk fn d (stretch fn n (bs (blk n + 1)%nat)) (out_set (blk n)).
Definition set_after (n : nat) : gset Z := walk fn d (stretch fn (S n) (bs (blk n + 1)%nat)) (out_set (blk n)).

(** What the pass marks. *)
Lemma dd_blocks_spec k s A0 A dead : (k <= nbb_of fn)%nat -> lset_ok A0 A s -> l_nvr s = nvregs fn ->
  length dead = (N - bs k)%nat -> (bs k <= N)%nat ->
  (forall j, (j < length dead)%nat -> dead !! j = (fun i => set_dead fn d (set_after (bs k + j)) i) <$> ins fn !! (bs k + j)%nat) ->
  forall j, (j < N)%nat -> dd_blocks fn d lv k s dead !! j = (fun i => set_dead fn d (set_after j) i) <$> ins fn !! j.
Proof using All.
  revert s A dead. induction k as [|k IH]; intros s A dead Lk Hs En Ld Lb Hd; cbn [dd_blocks].
  - assert (E0 : bs 0 = O).
    { destruct (place fn Hl Hne Hnv 0 (N_pos fn Hne)) as (b & Lb' & _ & Hb & Sb & _). fold bs in Hb.
      pose proof (spans_tiles fn (N_pos fn Hne)) as T. destruct (block_range fn Hl Hne Hnv 0 ltac:(lia)) as (B0 & S0 & _).
      destruct (spans fn) as [|[s0 e0] sp]; [done|]. simpl in S0, T. injection S0 as S0 _. destruct T as [T _]. unfold bs. lia. }
    rewrite E0 in *. intros j Lj. rewrite Nat.sub_0_r in Ld. rewrite Hd by lia. done.
  - destruct (lv_fields fn Hl Hne Hnv) as (_ & Eb & _). fold lv in Eb. rewrite Eb. fold bs.
    destruct (block_range fn Hl Hne Hnv k ltac:(lia)) as (Bd & _ & Bk). fold bs in Bd, Bk. fold blk in Bk. rewrite Nat.add_1_r in *.
    destruct (lset_out_ok A0 A s (map Z.of_nat (row (lv_out lv) k)) Hs ltac:(lia)) as [Ho Eo]. rewrite En in Ho, Eo.
    change (lset_out s (map Z.of_nat (row (lv_out lv) k))) with (ra_lset_out s lv k) in *. fold (out_set k) in Ho.
    destruct (dd_block_walk fn d A0 (out_set k) (ra_lset_out s lv k) (block_ins fn bs k) Ho Eo) as (W1 & W2 & W3 & W4).
    destruct (dd_block fn d (block_ins fn bs k) (ra_lset_out s lv k)) as [s' dd]. simpl in W1, W2, W3, W4.
    assert (Lbk : length (block_ins fn bs k) = (bs (S k) - bs k)%nat).
    { unfold block_ins. rewrite length_take, length_drop, Nat.add_1_r. unfold N in *. lia. }
    apply (IH s' (walk fn d (block_ins fn bs k) (out_set k))); [lia | done | done | rewrite length_app; lia | lia|].
    intros j Lj. destruct (Nat.lt_ge_cases j (length dd)) as [L|L].
    + rewrite lookup_app_l by done. destruct (lookup_lt_is_Some_2 (ins fn) (bs k + j)) as [i I]; [unfold N in *; lia|].
      rewrite I. simpl. assert (K : block_ins fn bs k !! j = Some i) by (apply block_lookup; rewrite Nat.add_1_r; split; [done | lia]).
      rewrite (W4 j i K). do 2 f_equal. unfold set_after. rewrite (Bk (bs k + j)%nat) by lia. f_equal.
      unfold block_ins, stretch. rewrite Nat.add_1_r. replace (bs (S k) - bs k)%nat with (S j + (bs (S k) - S (bs k + j)))%nat by lia.
      rewrite <- take_drop_commute, drop_drop. by rewrite Nat.add_succ_r.
    + rewrite lookup_app_r by done. rewrite length_app in Lj. rewrite Hd by lia.
      by replace (bs (S k) + (j - length dd))%nat with (bs k + j)%nat by lia.
Qed.

Lemma def_dst i : ra_ins_def i = i_dst i \/ ra_ins_def i = -1.
Proof. unfold ra_ins_def. destruct (i_op i); auto. Qed.

Lemma def_is_target i v : ra_ins_def i = v -> 0 <= v -> def_target i = v.
Proof. unfold ra_ins_def, def_target, op_is. destruct (i_op i); simpl; lia. Qed.

Lemma set_dead_spec A i : set_dead fn d A i = true ->
  nvars fn <= i_dst i < nvregs fn /\ is_pure (i_op i) = true /\ i_vol i = false /\ i_dst i ∉ A.
Proof.
  unfold set_dead. rewrite !andb_true_iff, negb_true_iff, bool_decide_eq_true. intros ((((((? & ?) & _) & _) & ?) & ?) & ?).
  split_and!; (lia || done).
Qed.

Lemma walk_range l A v : (forall x, x ∈ A -> 0 <= x < nvregs fn) -> v ∈ walk fn d l A -> 0 <= v < nvregs fn.
Proof using Hwf.
  intros HA. induction l as [|i l IH]; cbn [walk]; [apply HA|]. destruct (set_dead fn d (walk fn d l A) i); [done|].
  unfold step_set. rewrite elem_of_union, within_In, elem_of_difference. intros [[? _]|[? _]]; auto.
Qed.

(** What is in the set is live. *)
Lemma walk_live l A v : 0 <= v -> v ∈ walk fn d l A -> foldr (live_back v) (bool_decide (v ∈ A)) l = true.
Proof using Hwf.
  intros Hv. induction l as [|i l IH]; cbn [walk foldr]; [by rewrite bool_decide_eq_true|]. rewrite live_back_eq, orb_true_iff, andb_true_iff, negb_true_iff, Z.eqb_neq.
  destruct (set_dead fn d (walk fn d l A) i) eqn:D.
  - intros I. right. split; [|auto]. apply set_dead_spec in D as (R & _ & _ & Ni). destruct (def_dst i) as [E|E]; rewrite E; [|lia]. congruence.
  - unfold step_set. rewrite elem_of_union, within_In, elem_of_difference, elem_of_singleton, isuse_iff. intros [[_ U]|[I Nd]]; [by left|].
    right. split; [congruence | auto].
Qed.

Lemma out_set_range b x : x ∈ out_set b -> 0 <= x < nvregs fn.
Proof. unfold out_set. by intros [? _]%within_In. Qed.

Lemma set_step n i : ins fn !! n = Some i ->
  set_at n = if set_dead fn d (set_after n) i then set_after n else step_set (nvregs fn) i (set_after n).
Proof using All.
  intros I. destruct (place fn Hl Hne Hnv n ltac:(by eapply lookup_lt_Some)) as (b & Lb & Eb & Hn & _). fold bs in Hn. fold blk in Eb.
  unfold set_at, set_after. rewrite Eb. rewrite (stretch_cons fn n _ i I) by lia. done.
Qed.

Lemma succ_set n m v : isucc fn n m -> v ∈ set_at m -> v ∈ set_after n.
Proof using All.
  intros Su Hv. assert (Ln : (n < N)%nat) by (destruct Su as (i & I & _); by eapply lookup_lt_Some).
  destruct (place fn Hl Hne Hnv n Ln) as (b & Lb & Eb & Hn & _). fold bs in Hn. fold blk in Eb.
  destruct (block_range fn Hl Hne Hnv b Lb) as (Bd & _ & Bk). fold bs in Bd, Bk. fold blk in Bk.
  destruct (decide (S n = bs (b + 1)%nat)) as [E|Ne].
  - unfold set_after. rewrite Eb, E, stretch_nil. cbn [walk]. replace n with (bs (b + 1)%nat - 1)%nat in Su by lia.
    destruct (isucc_starts fn Hl Hne Hnv b m Lb Su) as (Lm & Em & Lbm).
    pose proof (walk_range _ _ _ (out_set_range (blk m)) Hv) as Rv. unfold out_set. apply within_In. split; [done|].
    apply list_elem_of_fmap. exists (Z.to_nat v). split; [lia|]. apply (out_row_live fn Hl Hne Hnv b _ Lb); [lia|].
    exists m. split; [done|]. apply (live_at_iff fn Hl Hne Hnv (Z.to_nat v) ltac:(lia) m Lm). unfold live_at.
    apply walk_live in Hv; [|lia]. rewrite Z2Nat.id by lia. fold bs. fold blk. fold (stretch fn m (bs (blk m + 1)%nat)) in Hv.
    replace (out_b fn (Z.to_nat v) (blk m)) with (bool_decide (v ∈ out_set (blk m))); [done|].
    apply eq_true_iff_eq. rewrite bool_decide_eq_true. unfold out_b, out_set. rewrite within_In, existsb_exists. setoid_rewrite Nat.eqb_eq. setoid_rewrite list_elem_of_fmap. split.
    + intros (_ & x & -> & Hx). exists x. rewrite <- list_elem_of_In. split; [done | lia].
    + intros (x & Hx & ->). split; [done|]. exists (Z.to_nat v). rewrite list_elem_of_In. split; [lia | done].
  - rewrite (isucc_inside fn Hl Hne Hnv b n m Lb) in Hv by (done || fold bs; lia). unfold set_at in Hv. unfold set_after.
    rewrite (Bk (S n)) in Hv by lia. by rewrite Eb.
Qed.

(** ** The simulation *)

(** The two runs agree on the slots and on what is in the set. *)
Definition agrees (n : nat) (es et : env) : Prop := forall v, v < nvars fn \/ ((n < N)%nat /\ v ∈ set_at n) -> es v = et v.

(** An instruction whose operands and slots agree does the same in both. *)
Definition same_flow (i : ir_ins) (es et : env) (f f' : flow) : Prop :=
  match f with
  | Fall e w => exists e', f' = Fall e' w /\ forall v, es v = et v \/ (0 <= v /\ def_target i = v) -> e v = e' v
  | Goto l e w => exists e', f' = Goto l e' w /\ forall v, es v = et v -> e v = e' v
  | f => f' = f
  end.

Lemma same_write (es et : env) t x v : (es v = et v \/ v = t) -> 0 <= v -> write es t x v = write et t x v.
Proof.
  intros H Hv. unfold write, upd. destruct (Z.ltb_spec t 0), (Z.eqb_spec v t); try done; destruct H; (done || lia).
Qed.
Lemma same_write_neg (es et : env) t x v : es v = et v -> write es t x v = write et t x v.
Proof. intros H. unfold write, upd. destruct (t <? 0), (v =? t); done. Qed.

Lemma slots_same_out es et : (forall v, v < nvars fn -> es v = et v) -> slots_out es = slots_out et.
Proof using Hesc.
  intros H. unfold slots_out. apply functional_extensionality. intros v. destruct (esc v) eqn:E; [|done]. rewrite H; [done|]. apply Hesc in E. lia.
Qed.

Lemma ext_same i vals es et w : (forall v, v < nvars fn -> es v = et v) ->
  same_flow i es et (exec_ext fn i vals es w) (exec_ext fn i vals et w).
Proof using Hesc Heh.
  intros Hs. unfold exec_ext. rewrite (slots_same_out es et Hs), Heh.
  destruct (ext (shape i) vals (slots_out et) w) as [v1 v2 sl w'|sl w'|w']; simpl; try done.
  eexists. split; [done|].
  assert (In : forall v, es v = et v -> slots_in es sl v = slots_in et sl v) by (intros v H; unfold slots_in; by destruct (esc v)).
  intros v Hv. unfold write_ext, op_is. case_bool_decide as O.
  - destruct Hv as [Hv|[Hv T]]; [by do 2 apply same_write_neg; apply In|]. unfold def_target, op_is in T. rewrite O in T. simpl in T. lia.
  - destruct Hv as [Hv|[Hv T]]; [by apply same_write_neg, In | apply same_write; [by right | done]].
Qed.

Lemma exec1_agrees i es et w : (forall r, r ∈ reads i -> es r = et r) -> (forall v, v < nvars fn -> es v = et v) ->
  same_flow i es et (exec1 fn i es w) (exec1 fn i et w).
Proof using Hesc Heh.
  intros Hr Hs. unfold exec1. rewrite (mapM_ext_in es et) by done. destruct (mapM et (reads i)) as [vals|]; [|done].
  assert (Wr : forall x, def_target i = i_dst i -> same_flow i es et (Fall (write es (i_dst i) x) w) (Fall (write et (i_dst i) x) w)).
  { intros x T. simpl. eexists. split; [done|]. intros v [Hv|[Hv E]]; [by apply same_write_neg | apply same_write; [right; lia | done]]. }
  destruct (computes i) eqn:C.
  - destruct (computes_target i C) as (T & _ & _). destruct (eval i vals); [by apply Wr | done].
  - pose proof (ext_same i vals es et w Hs) as HX.
    assert (Id : def_target i = -1 -> same_flow i es et (Fall es w) (Fall et w)).
    { intros T. simpl. eexists. split; [done|]. intros v [Hv|[Hv E]]; [done | lia]. }
    assert (Gt : forall l, same_flow i es et (Goto l es w) (Goto l et w)) by (intros l; simpl; eauto).
    assert (T : def_target i = -1 \/ i_op i = IR_STVAR \/ match i_op i with
      IR_LABEL | IR_JMP | IR_BRZ | IR_BRNZ | IR_SWITCH | IR_IGOTO | IR_RET | IR_UD2 => False | _ => True end).
    { unfold def_target, op_is. destruct (i_op i); auto. }
    destruct (i_op i) eqn:O; try exact HX; try done; try (by apply Gt);
      try (apply Id; by destruct T as [|[|[]]]);
      try (destruct vals as [|x [|]]; try exact HX; try done; try (by apply Gt)).
    all: try (destruct (is_zero i x); [by apply Gt || (apply Id; by destruct T as [|[|[]]]) | by apply Gt || (apply Id; by destruct T as [|[|[]]])]).
    all: try (destruct (igoto x); [by apply Gt | done]).
    destruct (i_vol i); [exact HX|]. apply Wr. unfold def_target, op_is. by rewrite O.
Qed.

(** An instruction that stays. *)
Lemma stays_sim n i es et w : ins fn !! n = Some i -> set_dead fn d (set_after n) i = false -> agrees n es et ->
  flow_sim fn agrees n (exec1 fn i es w) (exec1 fn i et w).
Proof using All.
  intros I D HA. pose proof (lookup_lt_Some _ _ _ I) as Ln. pose proof (set_step n i I) as E. rewrite D in E.
  assert (Hs : forall v, v < nvars fn -> es v = et v) by (intros v Hv; apply HA; by left).
  assert (Hr : forall r, r ∈ reads i -> es r = et r).
  { intros r Hr. apply HA. destruct (Z.lt_ge_cases r (nvars fn)) as [|G]; [by left|]. right. split; [done|]. rewrite E.
    unfold step_set. rewrite elem_of_union, within_In. left. destruct Hwf as [B F]. pose proof (Forall_lookup_1 _ _ _ _ F I) as [Wr _].
    rewrite Forall_forall in Wr. pose proof (Wr r Hr). split; [lia|]. apply reads_used; [done | lia]. }
  assert (Nx : forall m v, isucc fn n m -> v ∈ set_at m -> es v = et v \/ (0 <= v /\ def_target i = v)).
  { intros m v Su Hv. apply (succ_set n m v Su) in Hv. pose proof (walk_range _ _ _ (out_set_range _) Hv) as Rv.
    destruct (decide (ra_ins_def i = v)) as [Ed|Nd]; [right; split; [lia | apply def_is_target; [done | lia]]|]. left. apply HA. right. split; [done|].
    rewrite E. unfold step_set. rewrite elem_of_union, elem_of_difference, elem_of_singleton. right. split; [done | congruence]. }
  pose proof (exec1_agrees i es et w Hr Hs) as S. pose proof (exec1_path fn Hig i es w) as P.
  unfold flow_path, flow_frame in P. destruct (exec1 fn i es w) as [e1 w1|l e1 w1|o w1|] eqn:X; simpl in S |- *; try done.
  - destruct S as (e' & -> & S). eexists. split; [done|]. intros v [Hv|[Lm Hv]]; apply S; [left; by apply Hs|].
    apply (Nx (Datatypes.S n) v); [|done]. exists i. split; [done|]. left. split_and!; [apply P | done | done].
  - destruct S as (e' & -> & S). eexists. split; [done|]. intros m Hm v [Hv|[Lm Hv]]; apply S; [by apply Hs|].
    destruct P as [[G|U] _]; [|unfold unwind_label in U; rewrite Heh in U; by destruct (_ <=? 0)].
    destruct (Nx m v) as [|[R T]]; [|done|done|]; [exists i; split; [done|]; right; by exists l|].
    exfalso. unfold goto_labels in G. unfold def_target, op_is in T. destruct (i_op i); simpl in T; try (by apply elem_of_nil in G); lia.
Qed.

(** A definition that goes. *)
Lemma gone_sim n i es et w : ins fn !! n = Some i -> set_dead fn d (set_after n) i = true -> agrees n es et ->
  flow_sim fn agrees n (exec1 fn i es w) (Fall et w).
Proof using All.
  intros I D HA. pose proof (lookup_lt_Some _ _ _ I) as Ln. pose proof (set_step n i I) as E. rewrite D in E.
  apply set_dead_spec in D as (R & Pu & Vo & Nd). unfold exec1. destruct (mapM es (reads i)) as [vals|]; [|done].
  assert (C : computes i = true) by (unfold computes, op_is; rewrite Pu, Vo; by rewrite andb_false_r).
  rewrite C. destruct (eval_pure i vals Pu) as [x ->]. simpl. eexists. split; [done|]. intros v Hv.
  assert (Nv : v <> i_dst i /\ (v < nvars fn \/ v ∈ set_at n)).
  { destruct Hv as [Hv|[Lm Hv]]; [split; [lia | by left]|].
    assert (Su : isucc fn n (Datatypes.S n)).
    { exists i. split; [done|]. left. split_and!; [|done|done]. unfold falls. by destruct (i_op i). }
    apply (succ_set n _ v Su) in Hv. rewrite E. split; [congruence | by right]. }
  destruct Nv as [Nv Hv']. rewrite write_other by done. apply HA. destruct Hv'; [by left | by right].
Qed.

Let dead := deaddefs fn.
Definition dd_keep (n : Z) : bool := negb (default false (deaddefs fn !! Z.to_nat n)).

Lemma dead_at n i : ins fn !! n = Some i -> deaddefs fn !! n = Some (set_dead fn d (set_after n) i).
Proof using All.
  intros I. pose proof (lookup_lt_Some _ _ _ I) as Ln. unfold deaddefs. cbn [ra_live_compute fst].
  destruct (lv_fields fn Hl Hne Hnv) as (-> & _).
  assert (En : bs (nbb_of fn) = N) by (unfold bs, bstart_of, nbb_of, upn; by rewrite Nat.eqb_refl).
  rewrite (dd_blocks_spec (nbb_of fn) (ra_lset_init (nvregs fn)) ∅ ∅ []); [by rewrite I | done | apply lset_init_ok | done | | | | done].
  - rewrite En. simpl. lia.
  - by rewrite En.
  - simpl. lia.
Qed.

Lemma dd_preserves scope : preserves fn (set_scope scope (set_ins (concat (keep_live dd_keep 0 (ins fn))) fn)).
Proof using All.
  eapply (blocks_preserve fn _ (keep_live dd_keep 0 (ins fn)) agrees); try reflexivity.
  - apply keep_live_labels. intros j i I O. rewrite Z.add_0_l. unfold dd_keep. rewrite Nat2Z.id, (dead_at j i I). simpl.
    apply negb_true_iff. destruct (set_dead fn d (set_after j) i) eqn:D; [|done]. apply set_dead_spec in D as (_ & Pu & _). by rewrite O in Pu.
  - intros n i blk' es et w I B HA. rewrite (keep_live_lookup _ _ _ _ _ I) in B. injection B as <-. rewrite Z.add_0_l. unfold dd_keep.
    rewrite Nat2Z.id, (dead_at n i I). simpl. destruct (set_dead fn d (set_after n) i) eqn:D; simpl.
    + by apply gone_sim.
    + pose proof (stays_sim n i es et w I D HA) as S. destruct (exec1 fn i et w); exact S.
  - intros e _ _ v _. done.
Qed.
End Pass.

(** ** The theorem *)

Lemma deaddefs_preserves {M : Machine} (off : bool) (fn : ir_func) :
  wf_func fn -> labels_ok fn -> nvregs fn < KEPT -> (forall s, esc s = true -> 0 <= s < nvars fn) ->
  (forall x l, igoto x = Some l -> l ∈ taken_labels fn) ->
  preserves fn (pass_deaddefs off fn).1.
Proof.
  intros Hwf Hl Hb He Hi. unfold pass_deaddefs.
  destruct ((nins fn =? 0) || (nvregs fn <=? nvars fn) || negb (match eh fn with [] => true | _ => false end) || off) eqn:C; [done|].
  destruct (negb (dd_any fn (compute_defs fn))); [done|]. destruct (negb (existsb id (deaddefs fn))); [done|].
  apply orb_false_iff in C as [[[C1 C2]%orb_false_iff C3]%orb_false_iff _].
  apply (dd_preserves fn Hwf Hl); try done.
  - intros E. unfold nins in C1. by rewrite E in C1.
  - destruct Hwf as [B _]. lia.
  - by destruct (eh fn).
Qed.

(** C8: dropping the pure definitions of temporaries that nothing reads before they are
    defined again, as the walk back from the blocks' live-out sets finds them, preserves
    the function. *)
Theorem pass_deaddefs_preserves {M : Machine} (off : bool) (fn : ir_func) :
  wf_func fn -> labels_ok fn -> nvregs fn < KEPT -> (forall s, esc s = true -> 0 <= s < nvars fn) ->
  (forall x l, igoto x = Some l -> l ∈ taken_labels fn) ->
  preserves fn (pass_deaddefs off fn).1.
Proof. apply deaddefs_preserves. Qed.

(** [k = 16; k = 0; do { y = k; k = 3; } while (!y); return y;]: the first definition
    of [k] is never read. *)
Definition deaddefs_demo : ir_func :=
  Fn 0 0 2 1 [] [const_ 0 16; const_ 0 0; label_ 0; mov_ 1 0; const_ 0 3; brz_ 1 0; ret_ 1] [] None [].

Lemma pass_deaddefs_preserves_witness :
  preserves (M := still) deaddefs_demo (pass_deaddefs false deaddefs_demo).1 /\
  ins (pass_deaddefs false deaddefs_demo).1 = [const_ 0 0; label_ 0; mov_ 1 0; const_ 0 3; brz_ 1 0; ret_ 1].
Proof.
  split; [|vm_compute; reflexivity]. apply (pass_deaddefs_preserves (M := still)).
  - apply (bool_decide_unpack (wf_func deaddefs_demo)). vm_compute. exact I.
  - apply (bool_decide_unpack (labels_ok deaddefs_demo)). vm_compute. exact I.
  - unfold KEPT. simpl. lia.
  - discriminate.
  - discriminate.
Defined.
