(* ===== verification/Round.v ===== *)
(** * A stretch of the optimizer's round

    The driver of [src/src/opt/opt.c] runs its passes one after the other, each
    on what the one before left. [Pass] is what a pass promises the driver: under
    its own condition on the function it preserves it. The instances below are the
    passes of the stretch that resolves constant branches, propagates copies and
    removes dead code; [round_tail_preserves] chains them, which takes that each
    pass leaves the next one's condition true. [round_deaddefs_preserves] does the same
    for the stretch after the rounds that drops dead definitions. *)
From stdpp Require Import base numbers list option sets relations.
From Stdlib Require Import ZArith Lia.
From S2P Require Import Prelude Ir Util IrSem Simulate Rename Paths CopyProp Cfg CopyLocal Dce Emit Expand Sccp SccpPaths CfgClean CfgSweep Live LiveSets LSet DeadDefs.

Local Open Scope Z_scope.

(** ** The stretch *)

(** [if (g_sccp && cfg_ok) changed |= pass_sccp(fn);], with [cfg_ok = !fn->neh]. *)
Definition round_sccp (g_sccp : bool) (fn : ir_func) : ir_func :=
  let cfg_ok := match eh fn with [] => true | _ => false end in
  if g_sccp && cfg_ok then (pass_sccp fn).1 else fn.

(** [pass_copyprop] and [pass_copyprop_local]. *)
Definition round_copies (fn : ir_func) : ir_func := (pass_copyprop_local (pass_copyprop fn)).1.

(** The stretch, the changed flags and remarks aside: [keep_vars] and [strs] are
    what [pass_dce] is given. *)
Definition round_tail (g_sccp keep_vars : bool) (strs : option (list Z)) (fn : ir_func) : ir_func :=
  pass_dce keep_vars strs (round_copies (round_sccp g_sccp fn)).

(** [if (cfg_ok && pass_deaddefs(fn)) { pass_copyprop_local(fn); pass_dce(fn); }],
    after the rounds. *)
Definition round_deaddefs (off keep_vars : bool) (strs : option (list Z)) (fn : ir_func) : ir_func :=
  let cfg_ok := match eh fn with [] => true | _ => false end in
  if cfg_ok then
    let '(fn, changed) := pass_deaddefs off fn in
    if changed then pass_dce keep_vars strs (pass_copyprop_local fn).1 else fn
  else fn.

(** ** What a pass promises *)

Class Pass {M : Machine} (pre : ir_func -> Prop) (p : ir_func -> ir_func) : Prop :=
  pass_sound fn : pre fn -> preserves fn (p fn).

Lemma pass_seq {M : Machine} (pre mid : ir_func -> Prop) p q : Pass pre p -> Pass mid q ->
  Pass (fun fn => pre fn /\ mid (p fn)) (fun fn => q (p fn)).
Proof. intros Hp Hq fn [H1 H2]. etransitivity; [by apply Hp | by apply Hq]. Qed.

(** The condition every pass of the stretch starts from. *)
Record ir_ok {M : Machine} (fn : ir_func) : Prop := {
  ok_wf : wf_func fn;
  ok_strict : strict fn;
  ok_kinds : kinds_ok fn;
  ok_esc s : esc s = true -> 0 <= s < nvars fn }.

Section Instances.
Context {M : Machine}.

#[export] Instance sccp_pass : Pass (fun fn => ir_ok fn /\ labels_ok fn /\ eh fn = [] /\
  (forall x l, igoto x = Some l -> l ∈ taken_labels fn) /\ Forall (branch_typed fn true) (ins fn))
  (fun fn => (pass_sccp fn).1).
Proof. intros fn ([] & Hl & He & Hi & Ht). by apply (sccp_preserves fn true). Qed.

#[export] Instance copyprop_pass : Pass (fun fn => ir_ok fn /\
  forall x l, igoto x = Some l -> l ∈ taken_labels fn) pass_copyprop.
Proof.
  intros fn ([Hwf Hst Hk He] & Hi). destruct (copyprop_renames fn Hwf) as (f & Hf & E).
  unfold pass_copyprop. rewrite E. by apply along_preserves.
Qed.

#[export] Instance copyprop_local_pass : Pass (fun fn => wf_func fn /\ kinds_ok fn /\
  forall s, esc s = true -> 0 <= s < nvars fn) (fun fn => (pass_copyprop_local fn).1).
Proof. intros fn (Hwf & Hk & He). by apply local_preserves. Qed.

#[export] Instance dce_pass keep_vars strs :
  Pass (fun fn => wf_func fn /\ dce_context keep_vars strs fn) (pass_dce keep_vars strs).
Proof. intros fn [Hwf Hc]. by apply dce_preserves. Qed.

#[export] Instance cfgclean_pass off : Pass cfgclean_ready (fun fn => (pass_cfgclean off fn).1).
Proof. intros fn H. by apply cfgclean_preserves. Qed.

#[export] Instance deaddefs_pass off : Pass (fun fn => wf_func fn /\ labels_ok fn /\ nvregs fn < KEPT /\
  (forall s, esc s = true -> 0 <= s < nvars fn) /\ forall x l, igoto x = Some l -> l ∈ taken_labels fn)
  (fun fn => (pass_deaddefs off fn).1).
Proof. intros fn (Hwf & Hl & Hb & He & Hi). by apply deaddefs_preserves. Qed.
End Instances.

(** ** What each leaves for the next *)

(** [pass_copyprop] keeps operands in range and moves between temporaries. *)
Lemma copy_of_kind fn u a : wf_func fn -> kinds_ok fn -> copy_of fn u a ->
  u = a \/ (nvars fn <= u /\ nvars fn <= a < nvregs fn).
Proof.
  intros Hwf Hk. induction 1 as [|u x a (p & i & I & (O & Ha & Hd & _)%cp_eligible_spec & <- & <-) _ IH]; [by left|].
  right. destruct Hwf as [_ F]. pose proof (Forall_lookup_1 _ _ _ _ F I) as [Wr Wd].
  assert (R : reads i = [i_a i]) by (rewrite reads_eq; unfold reads_spec; by rewrite O).
  rewrite R in Wr. pose proof (Forall_inv Wr) as Wa. cbv beta in Wa.
  rewrite O in Wd. destruct Wd as [|[|Wd]]; [done|lia|].
  destruct (proj1 (Forall_lookup_1 _ _ _ _ Hk I) O) as [|Ht]; [lia|]. destruct IH as [<-|]; lia.
Qed.

Lemma copyprop_keeps fn : wf_func fn -> kinds_ok fn ->
  wf_func (pass_copyprop fn) /\ kinds_ok (pass_copyprop fn).
Proof.
  intros Hwf Hk. destruct (copyprop_renames fn Hwf) as (f & Hf & E).
  assert (Sg : keeps_sign f) by (intros v; by eapply copy_of_sign).
  destruct Hwf as [Hb F]. unfold pass_copyprop. rewrite E. split.
  - split; [done|]. apply Forall_map. eapply Forall_impl; [exact F|]. intros i [Wr Wd]. unfold wf_ins.
    rewrite reads_rename, rename_op by done. destruct (rename_fields f i) as (-> & _). split; [|done].
    apply Forall_map. eapply Forall_impl; [exact Wr|]. intros r Hr.
    destruct (copy_of_kind fn r (f r)) as [<-|[_ ?]]; simpl; try done. lia.
  - apply Forall_map. eapply Forall_impl; [exact Hk|]. intros i [Hm Hs].
    unfold names_slot. rewrite !rename_op. fold (names_slot i).
    pose proof (copy_of_kind fn (i_a i) (f (i_a i)) (conj Hb F) Hk (Hf _)) as C.
    assert (Ea : i_a (set_a (f (i_a i)) i) = f (i_a i)) by (by destruct i). split.
    + intros O. rewrite rename_eq, O, Ea. simpl. specialize (Hm O). destruct C as [E'|[? ?]]; lia.
    + intros S. specialize (Hs S). rewrite rename_eq. unfold names_slot, op_is in S.
      destruct (i_op i); try done; rewrite Ea; simpl; destruct C as [E'|[? _]]; lia.
Qed.

(** [pass_copyprop_local] keeps operands in range: so is what its table holds. *)
Section Local.
Context (fn : ir_func).
Let nv := nvregs fn.
Let d := compute_defs fn.

Definition tab_bound (t : lctab) : Prop := forall v, lt_cp t v < Z.max 0 nv.

Lemma reset_bound t : tab_bound t -> tab_bound (lctab_reset t).
Proof.
  intros H v. unfold lctab_reset. simpl. revert H. unfold tab_bound. generalize (lt_cp t) as cp.
  induction (lt_f t) as [|x l IH]; intros cp H; simpl; [apply H|]. apply IH. intros w. unfold upd.
  destruct (_ =? _); [lia | apply H].
Qed.

Lemma clear_bound fuel f t k cp : (forall v, cp v < Z.max 0 nv) -> forall v, lctab_clear fuel f t k cp v < Z.max 0 nv.
Proof.
  revert k cp. induction fuel as [|fuel IH]; intros k cp H; simpl; [done|].
  destruct (k <? 0); [done|]. destruct (f !! Z.to_nat k) as [x|]; [|done]. apply IH. intros v.
  destruct (_ =? _); [|done]. unfold upd. destruct (_ =? _); [lia | done].
Qed.

Lemma local_ins_bound t i : tab_bound t -> tab_bound (local_ins d nv t i).1.1.
Proof.
  intros H. unfold local_ins. destruct (_ || _); [by apply reset_bound|].
  destruct (each_read _ i 0) as [i' n]. cbn [fst].
  set (t' := if _ && _ then lctab_def (def_target i') t else t).
  assert (H' : tab_bound t').
  { unfold t'. destruct (_ && _); [|done]. intros v. unfold lctab_def. simpl. apply clear_bound.
    intros w. unfold upd. destruct (_ =? _); [lia | apply H]. }
  destruct (local_mov d nv i') eqn:Lm; [|done]. intros v. unfold lctab_set. simpl. unfold upd.
  destruct (_ =? _); [|apply H']. unfold local_mov in Lm. clearbody t'. destruct (0 <=? lt_cp t' (i_a i')); [apply H'|].
  rewrite !andb_true_iff in Lm. lia.
Qed.

Lemma local_ins_wf t i : tab_bound t -> wf_ins fn i -> wf_ins fn (local_ins d nv t i).1.2.
Proof.
  intros H [Wr Wd]. unfold nv, d. rewrite local_ins_code. destruct (_ || _); [done|]. unfold wf_ins.
  rewrite reads_rename, rename_op by apply copied_sign. destruct (rename_fields (copied fn t) i) as (-> & _).
  split; [|done]. apply Forall_map. eapply Forall_impl; [exact Wr|]. intros r Hr. simpl. unfold copied.
  destruct (_ && _ && _) eqn:C; [|done]. pose proof (H r) as B. unfold nv in B. lia.
Qed.

Lemma local_range_wf t l : tab_bound t -> Forall (wf_ins fn) l ->
  tab_bound (local_range d nv t l).1.1 /\ Forall (wf_ins fn) (local_range d nv t l).1.2.
Proof.
  intros H F. revert t H. induction F as [|i l Hi F IH]; intros t H; simpl; [done|].
  pose proof (local_ins_bound t i H) as Hb. pose proof (local_ins_wf t i H Hi) as Hw.
  destruct (local_ins d nv t i) as [[t' i'] n]. simpl in *. destruct (IH t' Hb) as [Hb2 Hw2].
  destruct (local_range d nv t' l) as [[t2 l2] m]. simpl in *. by split; [|constructor].
Qed.

Lemma local_blocks_wf t sp : tab_bound t -> Forall (wf_ins fn) (ins fn) ->
  Forall (wf_ins fn) (local_blocks fn d t sp).1.
Proof.
  intros H F. revert t H. induction sp as [|[s e] sp IH]; intros t H; simpl; [constructor|].
  destruct (local_range_wf (lctab_reset t) (take (e - s) (drop s (ins fn)))) as [Hb Hw].
  - by apply reset_bound.
  - by apply Forall_take, Forall_drop.
  - fold nv. destruct (local_range d nv (lctab_reset t) _) as [[t' code] n]. simpl in *.
    specialize (IH t' Hb). destruct (local_blocks fn d t' sp) as [rest m]. simpl in *. by apply Forall_app.
Qed.

Lemma local_keeps : wf_func fn -> wf_func (pass_copyprop_local fn).1.
Proof.
  intros [Hb F]. unfold pass_copyprop_local.
  assert (G : Forall (wf_ins fn) (copyprop_local_run fn).1).
  { unfold copyprop_local_run. destruct (_ || _); [done|]. apply local_blocks_wf; [|done].
    intros v. simpl. lia. }
  destruct (copyprop_local_run fn) as [code n]. split; [done|]. exact G.
Qed.
End Local.

Lemma sccp_taken fn l : l ∈ taken_labels (pass_sccp fn).1 -> l ∈ taken_labels fn.
Proof.
  unfold pass_sccp, sccp_core. destruct (nins fn =? 0); [done|]. destruct (any_work fn true 0 _); [|done].
  apply (taken_sub fn true). symmetry. apply all_outs_concat.
Qed.

(** ** The stretch preserves the function *)

Section Tail.
Context {M : Machine}.

(** What the two copy passes are given is what they need, and so is what dead-code
    elimination is. *)
Lemma copies_pass : Pass (fun fn => ir_ok fn /\ forall x l, igoto x = Some l -> l ∈ taken_labels fn) round_copies.
Proof.
  intros fn [Hok Hi]. apply (pass_seq _ _ _ _ copyprop_pass copyprop_local_pass). split; [done|].
  destruct Hok as [Hwf _ Hk He]. destruct (copyprop_keeps fn Hwf Hk). done.
Qed.

Lemma copies_keep fn : ir_ok fn -> wf_func (round_copies fn).
Proof. intros [Hwf _ Hk _]. by apply local_keeps, copyprop_keeps. Qed.

(** The first pass, where it runs. *)
Record sccp_ready (g_sccp : bool) (fn : ir_func) : Prop := {
  ready_ok : ir_ok fn;
  ready_labels : labels_ok fn;
  ready_goto x l : igoto x = Some l -> l ∈ taken_labels (round_sccp g_sccp fn);
  ready_typed : g_sccp = true -> Forall (branch_typed fn true) (ins fn) }.

Lemma round_sccp_pass g : Pass (sccp_ready g) (round_sccp g).
Proof.
  intros fn [Hok Hl Hi Ht]. unfold round_sccp in *. destruct g; simpl in *; [|done].
  destruct (eh fn) eqn:E; [|done]. apply sccp_pass. split_and!; try done; auto.
  intros x l X. eauto using sccp_taken.
Qed.

Lemma round_sccp_keeps g fn : sccp_ready g fn -> ir_ok (round_sccp g fn).
Proof.
  intros [[Hwf Hst Hk He] Hl _ _]. unfold round_sccp. destruct g; [|done]. destruct (eh fn) eqn:E; [|done]. simpl.
  destruct (sccp_keeps fn true Hl E Hwf Hst Hk) as (H1 & H2 & H3 & H4 & _). split; try done.
  unfold pass_sccp. intros s Hs. rewrite H4. by apply He.
Qed.

End Tail.

(** ** Dead definitions, and what they leave *)

(** Dropping instructions keeps what is asked of each. *)
Lemma deaddefs_keeps off fn : wf_func fn -> kinds_ok fn ->
  wf_func (pass_deaddefs off fn).1 /\ kinds_ok (pass_deaddefs off fn).1 /\ nvars (pass_deaddefs off fn).1 = nvars fn.
Proof.
  intros Hwf Hk. unfold pass_deaddefs. destruct (_ || _); [done|]. destruct (negb (dd_any _ _)); [done|].
  destruct (negb (existsb _ _)); [done|]. cbn [fst].
  assert (K : forall P keep n l, Forall P l -> Forall P (concat (keep_live keep n l))).
  { intros P keep n l F. revert n. induction F as [|i l Hi F IH]; intros n; simpl; [constructor|].
    apply Forall_app. split; [by destruct (keep n); repeat constructor | apply IH]. }
  destruct Hwf as [Hb F]. split_and!; [split; [done|]| |done]; by apply K.
Qed.

(** After the rounds: the definitions nothing reads are dropped, and the copies and
    the code that leaves nothing for follow. *)
Theorem round_deaddefs_preserves {M : Machine} (off keep_vars : bool) (strs : option (list Z)) (fn : ir_func) :
  ir_ok fn -> labels_ok fn -> nvregs fn < KEPT -> (forall x l, igoto x = Some l -> l ∈ taken_labels fn) ->
  dce_context keep_vars strs (pass_copyprop_local (pass_deaddefs off fn).1).1 ->
  preserves fn (round_deaddefs off keep_vars strs fn).
Proof.
  intros [Hwf _ Hk He] Hl Hb Hi Hd. unfold round_deaddefs. destruct (eh fn) as [|r l]; [|done].
  destruct (deaddefs_keeps off fn Hwf Hk) as (Hwf' & Hk' & Hn').
  pose proof (deaddefs_pass off fn (conj Hwf (conj Hl (conj Hb (conj He Hi))))) as P.
  cbv beta in P.
  destruct (pass_deaddefs off fn) as [fn' []]; [|exact P]. simpl in *. etransitivity; [exact P|].
  apply (pass_seq _ _ _ _ copyprop_local_pass (dce_pass keep_vars strs)). split; [split_and!; try done; by rewrite Hn'|].
  split; [by apply local_keeps | done].
Qed.

(** [long n = 1, m = n; if (0) return m; k = m; return k;] *)
Definition tail_fn : ir_func :=
  Fn 0 0 5 1 [] [const_ 0 0; const_ 1 1; mov_ 2 1; brz_ 0 0; ret_ 2; label_ 0; mov_ 3 2; mov_ 4 3; ret_ 4] [] None [].

