(* ===== verification/DivMagic.v ===== *)
(** * Division by a constant: [pass_divmagic] of [src/src/opt/divmagic.c]

    The expansion of a 32-bit division or remainder by a constant into a multiply,
    shifts and corrections, in each of the four forms the target and the divisor
    choose between, and the pass that applies it to a function. The numbers come
    from [Magic]; here the instructions are emitted and shown to compute what the
    division computes. *)
From stdpp Require Import base numbers list option.
From Stdlib Require Import ZArith Lia.
From S2P Require Import Prelude Ir Util IrSem Simulate Magic Emit Expand.

Local Open Scope Z_scope.

(** What the pass asks of the target and the environment. *)
Record dm_target := DmTarget {
  target_ptr_size : Z;
  target_has_mulh : bool;
  div_calls_helper : bool -> bool;   (* target_op_calls_helper of a 4-byte division, by its sign *)
  g_opt_size : bool;
  no_mulh : bool;                    (* EMBCC_NO_MULH *)
  no_div16 : bool;                   (* EMBCC_NO_DIV16 *)
  no_divshift : bool }.              (* EMBCC_NO_DIVSHIFT *)

(** ** The 32-bit expansion *)

Definition dm_div32 (x D : Z) (sg : bool) (src : ir_ins) : emit Z :=
  if negb sg then
    let ud := Z.land (u64 D) 0xFFFFFFFF in
    let k := log2_pow2_l ud in
    if 0 <=? k then
      let* c := dm_const k 4 src in dm_op IR_SHR x c 4 false 0 src
    else if 0x80000000 <=? ud then
      let* c := dm_const (s32 ud) 4 src in
      let* t := new_vreg in
      let* _ := ib_push (set_loc (at_loc src 1) (set_pred B_GE (set_sign false
                  (set_w 4 (set_b c (set_a x (set_dst t (set_op IR_CMP ins_blank)))))))) in
      ret t
    else
      let mg := magic_u32 ud in
      let* c := dm_const (s32 (mu_m mg)) 4 src in
      let* hi := dm_op IR_MULH x c 4 false 0 src in
      if negb (mu_add mg) then
        if mu_s mg =? 0 then ret hi
        else let* c := dm_const (mu_s mg) 4 src in dm_op IR_SHR hi c 4 false 0 src
      else
        let* t4 := dm_op IR_SUB x hi 4 false 0 src in
        let* c := dm_const 1 4 src in
        let* t5 := dm_op IR_SHR t4 c 4 false 0 src in
        let* t6 := dm_op IR_ADD t5 hi 4 false 0 src in
        if 1 <? mu_s mg then
          let* c := dm_const (mu_s mg - 1) 4 src in dm_op IR_SHR t6 c 4 false 0 src
        else ret t6
  else
    let mg := magic_s32 D in
    let m := s32 (ms_m mg) in
    let* c := dm_const m 4 src in
    let* t := dm_op IR_MULH x c 4 true 0 src in
    let* t := if (0 <? D) && (m <? 0) then dm_op IR_ADD t x 4 true 0 src
              else if (D <? 0) && (0 <? m) then dm_op IR_SUB t x 4 true 0 src
              else ret t in
    let* t := if negb (ms_s mg =? 0)
              then let* c := dm_const (ms_s mg) 4 src in dm_op IR_SHR t c 4 true 0 src
              else ret t in
    let* c := dm_const 31 4 src in
    let* sb := dm_op IR_SHR t c 4 false 0 src in
    dm_op IR_ADD t sb 4 true 0 src.

(** ** A dividend known to be small *)

Definition dm_narrow_bound (fn : ir_func) (d : defs) (x : Z) : option Z :=
  if (x <? 0) || (nvregs fn <=? x) || negb (d_cnt d x =? 1) || (d_ins d x <? 0) then None
  else match ins_at fn (d_ins d x) with
       | None => None
       | Some e =>
           if (op_is (i_op e) IR_EXT || op_is (i_op e) IR_LOAD || op_is (i_op e) IR_LDVAR) &&
              negb (i_sign e) && negb (i_flt e) && ((i_size e =? 1) || (i_size e =? 2)) && (i_w e =? 4)
           then Some (if i_size e =? 1 then 0xff else 0xffff)
           else if op_is (i_op e) IR_AND && negb (i_flt e) && (i_w e =? 4)
           then match const_b fn d e with
                | Some m => if (0 <=? m) && (m <=? 0xffff) then Some m else None
                | None => None
                end
           else None
       end.

(** ** The expansions by 64-bit multiplication, and by shifts *)

(** A signed power of two: [q = (x + ((x >> 31) >>u (32 - sh))) >> sh]. *)
Definition dm_pow2 (x D : Z) (src : ir_ins) : emit Z :=
  let sh := log2_pow2_l (u64 (if D <? 0 then - D else D)) in
  let* c := dm_const 31 4 src in
  let* t1 := dm_op IR_SHR x c 4 true 0 src in
  let* t2 := if sh =? 0 then ret t1
             else let* c := dm_const (32 - sh) 4 src in dm_op IR_SHR t1 c 4 false 0 src in
  let* t3 := dm_op IR_ADD x t2 4 true 0 src in
  let* q := if sh =? 0 then ret t3
            else let* c := dm_const sh 4 src in dm_op IR_SHR t3 c 4 true 0 src in
  if D <? 0 then let* z := dm_const 0 4 src in dm_op IR_SUB z q 4 true 0 src else ret q.

(** A signed divisor on a machine with 64-bit registers. *)
Definition dm_signed64 (T : dm_target) (x D : Z) (src : ir_ins) : emit Z :=
  let mg := magic_s32 D in
  let* xe := dm_op IR_EXT x (-1) 8 true 4 src in
  let* c := dm_const (ms_m mg) 8 src in
  let* hi := dm_op IR_MUL xe c 8 true 0 src in
  let fold := negb ((0 <? D) && (ms_m mg <? 0)) && negb ((D <? 0) && (0 <? ms_m mg)) &&
              (0 <? ms_s mg) && negb (no_divshift T) in
  let* c := dm_const (32 + (if fold then ms_s mg else 0)) 8 src in
  let* t3 := dm_op IR_SHR hi c 8 true 0 src in
  let s := if fold then 0 else ms_s mg in
  let* t3 := if (0 <? D) && (ms_m mg <? 0) then dm_op IR_ADD t3 x 4 true 0 src
             else if (D <? 0) && (0 <? ms_m mg) then dm_op IR_SUB t3 x 4 true 0 src
             else ret t3 in
  let* t4 := if s =? 0 then ret t3
             else let* c := dm_const s 4 src in dm_op IR_SHR t3 c 4 true 0 src in
  let* c := dm_const 31 4 src in
  let* t5 := dm_op IR_SHR t4 c 4 false 0 src in
  dm_op IR_ADD t4 t5 4 true 0 src.

(** An unsigned one. *)
Definition dm_unsigned64 (T : dm_target) (x D : Z) (src : ir_ins) : emit Z :=
  let mg := magic_u32 (Z.land (u64 D) 0xFFFFFFFF) in
  let* xe := dm_op IR_EXT x (-1) 8 false 4 src in
  let* c := dm_const (mu_m mg) 8 src in
  let* hi := dm_op IR_MUL xe c 8 false 0 src in
  let fold := negb (mu_add mg) && (0 <? mu_s mg) && negb (no_divshift T) in
  let* c := dm_const (32 + (if fold then mu_s mg else 0)) 8 src in
  let* t3 := dm_op IR_SHR hi c 8 false 0 src in
  let s := if fold then 0 else mu_s mg in
  if negb (mu_add mg) then
    if s =? 0 then ret t3
    else let* c := dm_const s 4 src in dm_op IR_SHR t3 c 4 false 0 src
  else
    let* t4 := dm_op IR_SUB x t3 4 false 0 src in
    let* c := dm_const 1 4 src in
    let* t5 := dm_op IR_SHR t4 c 4 false 0 src in
    let* t6 := dm_op IR_ADD t5 t3 4 false 0 src in
    if 1 <? s then let* c := dm_const (s - 1) 4 src in dm_op IR_SHR t6 c 4 false 0 src
    else ret t6.

(** ** One instruction *)

(** The result: the quotient, or [x - q * D]. [memset] leaves every field the pass
    does not set at zero. *)
Definition dm_out (is_mod : bool) (x q D : Z) (sg : bool) (src : ir_ins) : emit unit :=
  let* mq := if is_mod then let* c := dm_const D 4 src in dm_op IR_MUL q c 4 sg 0 src
             else ret (-1) in
  ib_push (set_loc (at_loc src 0) (set_sign sg (set_w 4 (set_dst (i_dst src)
    (if is_mod then set_b mq (set_a x (set_op IR_SUB ins_zero))
     else set_b (-1) (set_a q (set_op IR_MOV ins_zero))))))).

(** The small-dividend form: its product and remainder are unsigned. *)
Definition dm_narrow (x D M sh : Z) (is_mod : bool) (src : ir_ins) : emit unit :=
  let* c := dm_const M 4 src in
  let* t := dm_op IR_MUL x c 4 false 0 src in
  let* q := if sh =? 0 then ret t
            else let* c := dm_const sh 4 src in dm_op IR_SHR t c 4 false 0 src in
  dm_out is_mod x q D false src.

Section Pass.
Context (T : dm_target).

Definition narrow : bool := target_ptr_size T <? 8.
Definition mulh32 : bool := narrow && target_has_mulh T && negb (no_mulh T).
Definition pow2_only : bool := narrow && negb mulh32.
Definition narrow16 : bool :=
  pow2_only && negb (g_opt_size T) && negb (no_div16 T) && div_calls_helper T false.

Definition is_pow2 (D : Z) : bool := 0 <=? log2_pow2_l (u64 (if D <? 0 then - D else D)).

(** Which divisions the pass takes, and their divisor. *)
Definition dm_divisor (fn : ir_func) (d : defs) (src : ir_ins) : option Z :=
  if negb (op_is (i_op src) IR_DIV || op_is (i_op src) IR_MOD) || i_flt src ||
     negb (i_w src =? 4) || (i_dst src <? 0) then None
  else match const_b fn d src with
       | None => None
       | Some D =>
           if (D =? 0) || (D =? 1) || ((D =? -1) && negb (mulh32 && negb (i_sign src))) then None
           else Some D
       end.

Definition dm_small (fn : ir_func) (d : defs) (src : ir_ins) (D : Z) : option (Z * Z) :=
  if narrow16 && (1 <? D) && (D <=? 0xffff) then
    match dm_narrow_bound fn d (i_a src) with
    | Some B => dm_narrow_magic (u64 D) B
    | None => None
    end
  else None.

(** The quotient, in the form this target and divisor take. *)
Definition dm_quotient (x D : Z) (sg : bool) (src : ir_ins) : emit Z :=
  if mulh32 && negb (sg && is_pow2 D) then dm_div32 x (s32 D) sg src
  else if sg && is_pow2 D then dm_pow2 x D src
  else if sg then dm_signed64 T x D src
  else dm_unsigned64 T x D src.

Definition divmagic_ins (fn : ir_func) (d : defs) (src : ir_ins) : emit unit :=
  match dm_divisor fn d src with
  | None => ib_push src
  | Some D =>
      let is_mod := op_is (i_op src) IR_MOD in
      match dm_small fn d src D with
      | Some (M, sh) => dm_narrow (i_a src) D M sh is_mod src
      | None =>
          if pow2_only && negb (i_sign src && is_pow2 D) then ib_push src
          else let* q := dm_quotient (i_a src) D (i_sign src) src in
               dm_out is_mod (i_a src) q D (i_sign src) src
      end
  end.

Definition pass_divmagic (fn : ir_func) : ir_func :=
  if narrow && g_opt_size T && negb (div_calls_helper T true) then fn
  else expand (fun _ => divmagic_ins fn (compute_defs fn)) (nvregs fn) fn.
End Pass.

(** ** Values at width 4 *)

Lemma num_u z : num 4 false z = u32 z. Proof. reflexivity. Qed.
Lemma num_s z : num 4 true z = s32 z. Proof. reflexivity. Qed.
Lemma normw4 z : normw 4 z = s32 z. Proof. reflexivity. Qed.
Lemma normw8 z : normw 8 z = s64 z. Proof. reflexivity. Qed.
Lemma num8_u z : num 8 false z = u64 z. Proof. reflexivity. Qed.
Lemma num8_s z : num 8 true z = s64 z. Proof. reflexivity. Qed.

Lemma u32_s32 z : u32 (s32 z) = u32 z. Proof. apply uwrap_swrap; lia. Qed.
Lemma u64_s64 z : u64 (s64 z) = u64 z. Proof. apply uwrap_swrap; lia. Qed.
Lemma s32_s32 z : s32 (s32 z) = s32 z. Proof. apply swrap_swrap; lia. Qed.

Lemma s32_range z : - 2 ^ 31 <= s32 z < 2 ^ 31.
Proof. exact (swrap_range 32 z ltac:(lia)). Qed.
Lemma u32_range z : 0 <= u32 z < 2 ^ 32.
Proof. exact (uwrap_range 32 z ltac:(lia)). Qed.

(** A shift count held as a constant. *)
Lemma count4 c : 0 <= c < 32 -> normw 4 c mod bits 4 = c.
Proof. intros. rewrite normw4, s32_id by lia. apply Z.mod_small. unfold bits. lia. Qed.
Lemma count8 c : 0 <= c < 64 -> normw 8 c mod bits 8 = c.
Proof. intros. rewrite normw8, s64_id by lia. apply Z.mod_small. unfold bits. lia. Qed.

(** Two values that agree modulo [2^32] read alike at width 4. *)
Lemma s32_cong a b : eqw 32 a b -> s32 a = s32 b.
Proof. apply swrap_proper. Qed.
Lemma eqw_s32 z : eqw 32 (s32 z) z. Proof. apply eqw_swrap; lia. Qed.
Lemma eqw_u32 z : eqw 32 (u32 z) z. Proof. apply eqw_uwrap; lia. Qed.

Lemma u32_sub_le a b : b <= u32 a -> 0 <= b -> u32 (s32 (a - b)) = u32 a - b.
Proof.
  intros Hb H0. pose proof (u32_range a). rewrite u32_s32.
  rewrite <- (u32_id (u32 a - b)) by lia. apply uwrap_proper. by rewrite eqw_u32.
Qed.

Lemma sign_bit32 z : - 2 ^ 31 <= z < 2 ^ 31 -> u32 z / 2 ^ 31 = if z <? 0 then 1 else 0.
Proof.
  intros Hz. destruct (Z.ltb_spec z 0).
  - rewrite uwrap_of_s by (unfold is_s; lia). replace (z <? 0) with true by lia.
    symmetry. apply Z.div_unique with (z + 2 ^ 31); lia.
  - rewrite u32_id by lia. apply Z.div_small. lia.
Qed.

Lemma div_pow_range z s : - 2 ^ 31 <= z < 2 ^ 31 -> 0 <= s -> - 2 ^ 31 <= z / 2 ^ s < 2 ^ 31.
Proof.
  intros Hz Hs. pose proof (pow2_pos s Hs).
  split; [apply Z.div_le_lower_bound | apply Z.div_lt_upper_bound]; nia.
Qed.

(** Rounding toward zero by a power of two: the bias of a negative dividend. *)
Lemma quot_pow2 x k : 0 <= k ->
  (x + (if x <? 0 then 2 ^ k - 1 else 0)) / 2 ^ k = Z.quot x (2 ^ k).
Proof.
  intros Hk. pose proof (pow2_pos k Hk). destruct (Z.ltb_spec x 0).
  - replace x with (- - x) at 2 by lia. rewrite Z.quot_opp_l, Z.quot_div_nonneg by lia.
    pose proof (Z.div_mod (- x) (2 ^ k) ltac:(lia)). pose proof (Z.mod_pos_bound (- x) (2 ^ k) ltac:(lia)).
    symmetry. apply Z.div_unique with (2 ^ k - 1 - (- x) mod 2 ^ k); lia.
  - rewrite Z.quot_div_nonneg, Z.add_0_r by lia. done.
Qed.

Lemma pow2_bias x k : 1 <= k <= 31 ->
  s32 (u32 (s32 (s32 x / 2 ^ 31)) / 2 ^ (32 - k)) = if s32 x <? 0 then 2 ^ k - 1 else 0.
Proof.
  intros Hk. pose proof (s32_range x). pose proof (pow2_pos k ltac:(lia)). rewrite u32_s32.
  destruct (Z.ltb_spec (s32 x) 0).
  - replace (s32 x / 2 ^ 31) with (-1) by (apply Z.div_unique with (s32 x + 2 ^ 31); lia).
    change (u32 (-1)) with (2 ^ 32 - 1). replace (2 ^ 32) with (2 ^ k * 2 ^ (32 - k))
      by (rewrite <- Z.pow_add_r by lia; f_equal; lia).
    pose proof (pow2_pos (32 - k) ltac:(lia)).
    assert (2 ^ k <= 2 ^ 31) by (apply Z.pow_le_mono_r; lia).
    replace ((2 ^ k * 2 ^ (32 - k) - 1) / 2 ^ (32 - k)) with (2 ^ k - 1)
      by (apply Z.div_unique with (2 ^ (32 - k) - 1); lia).
    apply s32_id. lia.
  - rewrite (Z.div_small (s32 x)) by lia. reflexivity.
Qed.

(** The exponent of a divisor that is a power of two. *)
Lemma pow2_divisor D : - 2 ^ 31 <= D < 2 ^ 31 -> 2 <= Z.abs D -> is_pow2 D = true ->
  exists k, 1 <= k <= 31 /\ Z.abs D = 2 ^ k /\ log2_pow2_l (u64 (if D <? 0 then - D else D)) = k.
Proof.
  intros HD HA HP. unfold is_pow2 in HP.
  replace (u64 (if D <? 0 then - D else D)) with (Z.abs D) in *
    by (rewrite u64_id; destruct (Z.ltb_spec D 0); lia).
  destruct (log2_pow2_l_spec (Z.abs D) ltac:(lia)) as [(k & Hk & Ek & E)|[N _]]; [|lia].
  exists k. split_and!; [| | done | done].
  - destruct (decide (k = 0)) as [->|]; simpl in *; lia.
  - destruct (Z_le_dec k 31); [done|]. assert (2 ^ 32 <= 2 ^ k) by (apply Z.pow_le_mono_r; lia). lia.
Qed.

(** ** The expansions compute the quotient *)

Section Expansions.
Context {M : Machine} (src : ir_ins).

(** The quotient of a division at width 4. *)
Definition quot4 (sg : bool) (x D : Z) : Z :=
  if sg then Z.quot (s32 x) (s32 D) else u32 x / u32 D.
(** The divisors the expansions are for. *)
Definition divisor_range (sg : bool) (D : Z) : Prop :=
  if sg then - 2 ^ 31 <= D < 2 ^ 31 /\ 2 <= Z.abs D else 2 <= u32 D.

Definition yields (m : emit Z) (nv : Z) (e : env) (v : Z) : Prop :=
  emits m nv e (fun q nv' e' => q < nv' /\ e' q = Some v).

Ltac estep :=
  let e' := fresh "e" in let F := fresh "F" in let V := fresh "V" in
  intros e' F V; carry F.
Ltac econst := apply emits_bind, emits_const; [lia | done |]; estep.
Ltac elast := unfold yields; eapply emits_op; [lia | done | done | eassumption | eassumption | reflexivity |];
  estep; split; [lia|]; etransitivity; [eassumption|]; f_equal.
Ltac eop := apply emits_bind; eapply emits_op; [lia | done | done | eassumption | eassumption | reflexivity |]; estep.

(** [x >> s] if there is a shift to do, then plus one where that is negative. *)
Definition round_tail (t s : Z) : emit Z :=
  let* t := if s =? 0 then ret t
            else let* c := dm_const s 4 src in dm_op IR_SHR t c 4 true 0 src in
  let* c := dm_const 31 4 src in
  let* sb := dm_op IR_SHR t c 4 false 0 src in
  dm_op IR_ADD t sb 4 true 0 src.

Lemma round_tail_yields t s nv e h :
  0 <= nv -> t < nv -> e t = Some h -> - 2 ^ 31 <= h < 2 ^ 31 -> 0 <= s <= 31 ->
  yields (round_tail t s) nv e (s32 (h / 2 ^ s + (if h / 2 ^ s <? 0 then 1 else 0))).
Proof.
  intros Hn Ht Hh Hr Hs. pose proof (div_pow_range h s Hr ltac:(lia)) as Hq.
  unfold yields, round_tail.
  assert (K : forall t' nv' e', 0 <= nv' -> t' < nv' -> e' t' = Some (h / 2 ^ s) ->
    emits (let* c := dm_const 31 4 src in let* sb := dm_op IR_SHR t' c 4 false 0 src in
           dm_op IR_ADD t' sb 4 true 0 src) nv' e'
      (fun q nv'' e'' => q < nv'' /\ e'' q = Some (s32 (h / 2 ^ s + (if h / 2 ^ s <? 0 then 1 else 0))))).
  { clear e Hh. intros t' nv' e' Hn' Ht' He. econst. eop. elast.
    rewrite count4, num_u, sign_bit32, !normw4 by lia.
    rewrite (s32_id (if h / 2 ^ s <? 0 then 1 else 0)) by (destruct (_ <? 0); lia). done. }
  apply emits_bind. destruct (Z.eqb_spec s 0) as [->|].
  - apply emits_ret, K; [done | done |]. by rewrite Hh, Z.div_1_r.
  - econst. eapply emits_op; [lia | done | done | eassumption | eassumption | reflexivity |]. estep.
    apply K; [lia | lia |]. rewrite V0, count4, num_s, (s32_id h), normw4, s32_id by lia. done.
Qed.

Lemma dm_pow2_yields x D nv e xv :
  0 <= nv -> x < nv -> e x = Some xv -> - 2 ^ 31 <= D < 2 ^ 31 -> 2 <= Z.abs D -> is_pow2 D = true ->
  yields (dm_pow2 x D src) nv e (s32 (quot4 true xv D)).
Proof.
  intros Hn Hx He HD HA HP. destruct (pow2_divisor D HD HA HP) as (k & Hk & Ek & E).
  unfold dm_pow2. rewrite E. replace (k =? 0) with false by lia. pose proof (s32_range xv) as Hr.
  pose proof (pow2_pos k ltac:(lia)). set (b := if s32 xv <? 0 then 2 ^ k - 1 else 0).
  assert (B : - 2 ^ 31 <= s32 xv + b < 2 ^ 31) by (unfold b; destruct (Z.ltb_spec (s32 xv) 0); lia).
  unfold yields. econst. eop.
  apply emits_bind. econst. eapply emits_op; [lia | done | done | eassumption | eassumption | reflexivity |].
  estep. eop. apply emits_bind. econst.
  eapply emits_op; [lia | done | done | eassumption | eassumption | reflexivity |]. estep.
  rewrite !count4, !num_u, !num_s, !normw4, pow2_bias, s32_s32 in * by lia. fold b in V2, V3, V5.
  assert (Q : s32 (s32 (xv + b) / 2 ^ k) = Z.quot (s32 xv) (2 ^ k)).
  { rewrite (s32_cong (xv + b) (s32 xv + b)) by (by rewrite eqw_s32).
    rewrite (s32_id (s32 xv + b)) by done.
    rewrite s32_id by (apply div_pow_range; [done | lia]). unfold b. apply quot_pow2. lia. }
  rewrite Q in V5. unfold quot4. rewrite (s32_id D) by lia.
  destruct (Z.ltb_spec D 0).
  - econst. elast. rewrite !normw4. replace (s32 0 - _) with (- Z.quot (s32 xv) (2 ^ k)) by done.
    rewrite <- Z.quot_opp_r by lia. do 2 f_equal. lia.
  - apply emits_ret. split; [lia|]. rewrite V5. f_equal. replace D with (2 ^ k) by lia.
    symmetry. apply s32_id. rewrite <- quot_pow2 by lia. apply div_pow_range; [done | lia].
Qed.

(** The high half of the product with the signed multiplier, corrected. *)
Lemma signed_high D x Mg m : 0 < Mg < 2 ^ 32 -> D <> 0 -> - 2 ^ 31 <= x < 2 ^ 31 ->
  m = (if D <? 0 then - s32 Mg else s32 Mg) \/ m = s32 (if D <? 0 then - s32 Mg else s32 Mg) ->
  let h := x * (if D <? 0 then - Mg else Mg) / 2 ^ 32 in
  - 2 ^ 31 <= m <= 2 ^ 31 /\ - 2 ^ 31 <= x * m / 2 ^ 32 < 2 ^ 31 /\ - 2 ^ 31 <= h < 2 ^ 31 /\
  x * m / 2 ^ 32 + (if (0 <? D) && (m <? 0) then x else if (D <? 0) && (0 <? m) then - x else 0) = h.
Proof.
  intros HM HD Hx Hm h. pose proof (s32_range Mg).
  assert (R : - 2 ^ 31 <= m <= 2 ^ 31).
  { destruct Hm as [->|Em]; [destruct (D <? 0); lia|].
    pose proof (s32_range (if D <? 0 then - s32 Mg else s32 Mg)). lia. }
  split_and!; try lia.
  1,2: assert (- 2 ^ 62 <= x * m <= 2 ^ 62) by nia;
    (apply Z.div_le_lower_bound || apply Z.div_lt_upper_bound); lia.
  1,2: subst h; assert (- (2 ^ 31 * 2 ^ 32) <= x * (if D <? 0 then - Mg else Mg) < 2 ^ 31 * 2 ^ 32)
      by (destruct (D <? 0); nia);
    (apply Z.div_le_lower_bound || apply Z.div_lt_upper_bound); lia.
  by apply magic_high.
Qed.

(** The correction, whatever holds the high half. *)
Definition dm_correct (t x D m : Z) : emit Z :=
  if (0 <? D) && (m <? 0) then dm_op IR_ADD t x 4 true 0 src
  else if (D <? 0) && (0 <? m) then dm_op IR_SUB t x 4 true 0 src
  else ret t.

Lemma dm_correct_yields t x D m nv e xv z h :
  0 <= nv -> t < nv -> x < nv -> e t = Some z -> e x = Some xv -> - 2 ^ 31 <= h < 2 ^ 31 ->
  z + (if (0 <? D) && (m <? 0) then s32 xv else if (D <? 0) && (0 <? m) then - s32 xv else 0) = h ->
  yields (dm_correct t x D m) nv e h.
Proof.
  intros Hn Ht Hx Hz He Hh E. unfold dm_correct, yields. destruct (_ && _); [|destruct (_ && _)].
  - elast. rewrite normw4, <- (s32_id h) by done. apply s32_cong. rewrite <- E. by rewrite eqw_s32.
  - elast. rewrite normw4, <- (s32_id h) by done. apply s32_cong. rewrite <- E. by rewrite eqw_s32.
  - apply emits_ret. split; [done|]. rewrite Hz. f_equal. lia.
Qed.

(** The signed quotient from the corrected high half, shifted already or not. *)
Lemma signed_finish D t s nv e xv q r :
  - 2 ^ 31 <= D < 2 ^ 31 -> 0 <= nv -> t < nv -> 0 <= s <= 31 -> - 2 ^ 31 <= r < 2 ^ 31 -> e t = Some r ->
  r / 2 ^ s = q -> q + (if q <? 0 then 1 else 0) = Z.quot (s32 xv) D ->
  yields (round_tail t s) nv e (s32 (quot4 true xv D)).
Proof.
  intros HD Hn Ht Hs Hr He <- Hq. unfold quot4. rewrite (s32_id D) by lia. rewrite <- Hq.
  by apply round_tail_yields.
Qed.

Lemma yields_bind m k nv e v v' :
  yields m nv e v ->
  (forall q nv' e', nv <= nv' -> q < nv' -> (forall u, u < nv -> e' u = e u) -> e' q = Some v ->
     yields (k q) nv' e' v') ->
  yields (bind m k) nv e v'.
Proof.
  intros H K. apply emits_bind. eapply emits_mono; [|exact H].
  intros q nv' e' Hn F [Hq V]. by apply K.
Qed.

Lemma shr_signed64 x m c : - 2 ^ 31 <= x < 2 ^ 31 -> - 2 ^ 31 <= m <= 2 ^ 31 -> 32 <= c < 64 ->
  normw 8 (num 8 true (normw 8 (x * normw 8 m)) / 2 ^ (normw 8 c mod bits 8)) = x * m / 2 ^ c.
Proof.
  intros Hx Hm Hc. assert (P : - 2 ^ 62 <= x * m <= 2 ^ 62) by nia.
  rewrite count8, num8_s, !normw8, (s64_id m), (s64_id (x * m)), (s64_id (x * m)) by lia.
  apply s64_id. pose proof (pow2_pos c ltac:(lia)).
  split; [apply Z.div_le_lower_bound | apply Z.div_lt_upper_bound]; nia.
Qed.

Lemma dm_signed64_yields T x D nv e xv :
  0 <= nv -> x < nv -> e x = Some xv -> - 2 ^ 31 <= D < 2 ^ 31 -> 2 <= Z.abs D ->
  yields (dm_signed64 T x D src) nv e (s32 (quot4 true xv D)).
Proof.
  intros Hn Hx He HD HA.
  destruct (magic_s32_divides D _ HD HA eq_refl) as (Mg & HM & Hs & Em & Hq).
  pose proof (s32_range xv) as Hr. specialize (Hq (s32 xv) Hr). cbv zeta in Hq.
  destruct (signed_high D (s32 xv) Mg (ms_m (magic_s32 D)) HM ltac:(lia) Hr (or_introl Em))
    as (Rm & Rx & Rh & Eh).
  unfold dm_signed64. set (m := ms_m (magic_s32 D)) in *. set (s := ms_s (magic_s32 D)) in *.
  set (fold := _ && negb (no_divshift T)). set (h := _ / 2 ^ 32) in Rh, Eh.
  apply emits_bind, (emits_ext _ _ _ _ _ _ _ xv); try done. estep. econst. eop. econst. eop.
  replace (ext_val 4 true 8 xv) with (s32 xv) in V1, V3 by (symmetry; apply s64_id; unfold num; lia).
  rewrite shr_signed64 in V3 by (destruct fold; lia).
  rewrite Z.pow_add_r, <- Z.div_div in Hq by (try lia; apply pow2_pos; lia). fold h in Hq.
  set (t := nv + 1 + 1 + 1 + 1) in *.
  change (yields (bind (dm_correct t x D m) (fun t3 => round_tail t3 (if fold then 0 else s)))
            (t + 1) e4 (s32 (quot4 true xv D))).
  destruct fold eqn:F.
  - (* no correction, and one shift does both *)
    assert (C1 : (0 <? D) && (m <? 0) = false) by (unfold fold in F; lia).
    assert (C2 : (D <? 0) && (0 <? m) = false) by (unfold fold in F; lia).
    rewrite C1, C2, Z.add_0_r in Eh. 
    rewrite Z.pow_add_r, <- Z.div_div, Eh in V3 by (try lia; apply pow2_pos; lia).
    pose proof (div_pow_range h s Rh ltac:(lia)) as Rq.
    eapply yields_bind.
    + eapply (dm_correct_yields t x D m _ _ xv _ (h / 2 ^ s)); try done; try lia.
      rewrite C1, C2. lia.
    + intros q nv' e' Hn' Hq' _ V'. eapply (signed_finish D q 0); try done; try lia. by rewrite Z.div_1_r.
  - rewrite Z.add_0_r in V3. eapply yields_bind.
    + eapply (dm_correct_yields t x D m _ _ xv _ h); try done; lia.
    + intros q nv' e' Hn' Hq' _ V'. eapply (signed_finish D q s); try done; lia.
Qed.

(** *** The unsigned ones *)

Lemma land_u32 D : Z.land (u64 D) 0xFFFFFFFF = u32 D.
Proof.
  transitivity (u32 (u64 D)); [exact (land_ones_mod (u64 D) 32 ltac:(lia))|].
  apply uwrap_proper, (eqw_weaken 64); [lia | apply eqw_uwrap; lia].
Qed.

(** The last shift of the short form, and the long form
    [((x - hi) >> 1) + hi) >> (s - 1)], given the high half. *)
Definition short_tail (t s : Z) : emit Z :=
  if s =? 0 then ret t else let* c := dm_const s 4 src in dm_op IR_SHR t c 4 false 0 src.
Definition long_tail (x hi s : Z) : emit Z :=
  let* t4 := dm_op IR_SUB x hi 4 false 0 src in
  let* c := dm_const 1 4 src in
  let* t5 := dm_op IR_SHR t4 c 4 false 0 src in
  let* t6 := dm_op IR_ADD t5 hi 4 false 0 src in
  if 1 <? s then let* c := dm_const (s - 1) 4 src in dm_op IR_SHR t6 c 4 false 0 src
  else ret t6.

Lemma short_tail_yields t s nv e z :
  0 <= nv -> t < nv -> e t = Some z -> 0 <= s <= 31 -> (s = 0 -> s32 z = z) ->
  yields (short_tail t s) nv e (s32 (u32 z / 2 ^ s)).
Proof.
  intros Hn Ht Hz Hs H0. unfold short_tail, yields. destruct (Z.eqb_spec s 0) as [->|].
  - apply emits_ret. split; [done|]. rewrite Hz. f_equal. rewrite Z.div_1_r.
    rewrite (s32_cong (u32 z) z) by apply eqw_u32. by rewrite H0.
  - econst. elast. by rewrite count4, num_u, normw4 by lia.
Qed.

Lemma long_tail_yields x hi s nv e xv z hv :
  0 <= nv -> x < nv -> hi < nv -> e x = Some xv -> e hi = Some z -> u32 z = hv ->
  hv <= u32 xv -> 1 <= s <= 32 ->
  yields (long_tail x hi s) nv e (s32 ((u32 xv + hv) / 2 ^ s)).
Proof.
  intros Hn Hx Hh Hxv Hz Ez Hle Hs. pose proof (u32_range xv) as Rx. pose proof (u32_range z) as Rz.
  unfold long_tail, yields. eop. econst. eop. eop.
  assert (E4 : u32 (s32 (xv - z)) = u32 xv - hv).
  { rewrite <- (u32_sub_le xv hv) by lia. rewrite !u32_s32. apply uwrap_proper. rewrite <- Ez. by rewrite eqw_u32. }
  assert (E6 : s32 (s32 (u32 (s32 (xv - z)) / 2 ^ 1) + z) = s32 ((u32 xv + hv) / 2)).
  { rewrite E4. apply s32_cong. rewrite eqw_s32, <- (eqw_u32 z), Ez.
    replace ((u32 xv + hv) / 2) with ((u32 xv - hv) / 2 ^ 1 + hv); [done|].
    change (2 ^ 1) with 2. rewrite <- Z.div_add by lia. f_equal. lia. }
  assert (B : 0 <= (u32 xv + hv) / 2 < 2 ^ 32)
    by (split; [apply Z.div_pos | apply Z.div_lt_upper_bound]; lia).
  rewrite count4, !num_u, !normw4, E6 in * by lia.
  assert (D2 : (u32 xv + hv) / 2 / 2 ^ (s - 1) = (u32 xv + hv) / 2 ^ s).
  { rewrite Z.div_div by (try lia; apply pow2_pos; lia). f_equal.
    change 2 with (2 ^ 1) at 1. rewrite <- Z.pow_add_r by lia. f_equal. lia. }
  destruct (Z.ltb_spec 1 s).
  - econst. elast. rewrite count4, num_u, normw4, u32_s32, u32_id, D2 by lia. done.
  - apply emits_ret. split; [lia|]. rewrite V2. do 2 f_equal. replace s with 1 in * by lia.
    rewrite <- D2, Z.div_1_r. done.
Qed.

(** The unsigned quotient from the high half: what the two tails are for. *)
Lemma unsigned_quotient d xv : 2 <= d < 2 ^ 32 ->
  let mg := magic_u32 d in
  let hv := u32 xv * mu_m mg / 2 ^ 32 in
  0 <= hv < 2 ^ 32 /\ hv <= u32 xv /\
  (if mu_add mg then u32 xv + hv else hv) / 2 ^ mu_s mg = u32 xv / d /\
  0 <= u32 xv / d < 2 ^ 31.
Proof.
  intros Hd mg hv. pose proof (u32_range xv) as Rx.
  destruct (magic_u32_divides d mg Hd eq_refl) as (Hs & Hm & Ha & Hna & Hq).
  specialize (Hq (u32 xv) Rx). cbv zeta in Hq. unfold hv.
  assert (L : u32 xv * mu_m mg / 2 ^ 32 <= u32 xv).
  { transitivity (u32 xv * 2 ^ 32 / 2 ^ 32); [|rewrite Z.div_mul; lia].
    apply Z.div_le_mono; [lia|]. apply Z.mul_le_mono_nonneg_l; lia. }
  assert (0 <= u32 xv * mu_m mg / 2 ^ 32) by (apply Z.div_pos; [apply Z.mul_nonneg_nonneg|]; lia).
  split_and!; try lia.
  - rewrite <- Hq, Z.pow_add_r, <- Z.div_div by (try lia; apply pow2_pos; lia). f_equal.
    destruct (mu_add mg); [|by rewrite Z.add_0_r].
    replace (u32 xv * (mu_m mg + 2 ^ 32)) with (u32 xv * mu_m mg + u32 xv * 2 ^ 32) by ring.
    rewrite Z.div_add by lia. lia.
  - apply Z.div_pos; lia.
  - apply Z.div_lt_upper_bound; lia.
Qed.

Lemma shr_unsigned64 x m c : 0 <= x < 2 ^ 32 -> 0 <= m < 2 ^ 32 -> 32 <= c < 64 ->
  normw 8 (num 8 false (normw 8 (x * normw 8 m)) / 2 ^ (normw 8 c mod bits 8)) = x * m / 2 ^ c.
Proof.
  intros Hx Hm Hc. assert (P : 0 <= x * m < 2 ^ 64) by nia.
  rewrite count8, num8_u, !normw8, (s64_id m), u64_s64, u64_id by lia.
  apply s64_id. pose proof (pow2_pos c ltac:(lia)).
  assert (2 ^ 32 <= 2 ^ c) by (apply Z.pow_le_mono_r; lia).
  split; [transitivity 0; [lia | apply Z.div_pos; lia] | apply Z.div_lt_upper_bound; nia].
Qed.

Lemma dm_unsigned64_yields T x D nv e xv :
  0 <= nv -> x < nv -> e x = Some xv -> 2 <= u32 D ->
  yields (dm_unsigned64 T x D src) nv e (s32 (quot4 false xv D)).
Proof.
  intros Hn Hx He HD. pose proof (u32_range D) as RD. pose proof (u32_range xv) as Rx.
  unfold dm_unsigned64. rewrite land_u32.
  destruct (magic_u32_divides (u32 D) _ ltac:(lia) eq_refl) as (Hs & Hm & Ha & Hna & _).
  destruct (unsigned_quotient (u32 D) xv ltac:(lia)) as (Rh & Lh & Eq & Rq).
  unfold quot4. set (mg := magic_u32 (u32 D)) in *. set (hv := u32 xv * mu_m mg / 2 ^ 32) in *.
  set (fold := negb (mu_add mg) && (0 <? mu_s mg) && negb (no_divshift T)).
  assert (F0 : fold = true -> mu_add mg = false)
    by (unfold fold; destruct (mu_add mg); [discriminate | done]).
  assert (F1 : 0 <= (if fold then mu_s mg else 0) <= 31)
    by (destruct fold; [specialize (Hna (F0 eq_refl)) | clear Hna Ha]; lia).
  apply emits_bind, (emits_ext _ _ _ _ _ _ _ xv); try done. estep. econst. eop. econst. eop.
  replace (ext_val 4 false 8 xv) with (u32 xv) in V1, V3 by (symmetry; apply s64_id; unfold num; lia).
  rewrite shr_unsigned64 in V3 by lia.
  set (t := nv + 1 + 1 + 1 + 1) in *.
  destruct (mu_add mg) eqn:A; cbn [negb].
  - assert (fold = false) as -> by (destruct fold; [by specialize (F0 eq_refl)|done]).
    rewrite Z.add_0_r in V3. fold hv in V3.
    change (yields (long_tail x t (mu_s mg)) (t + 1) e4 (s32 (u32 xv / u32 D))).
    rewrite <- Eq. apply (long_tail_yields x t _ _ _ xv hv); try done; try lia. apply u32_id. lia.
  - change (yields (short_tail t (if fold then 0 else mu_s mg)) (t + 1) e4 (s32 (u32 xv / u32 D))).
    rewrite <- Eq. destruct fold eqn:F.
    + rewrite Z.pow_add_r, <- Z.div_div in V3 by (try lia; apply pow2_pos; lia). fold hv in V3.
      rewrite Eq in *. rewrite <- (u32_id (u32 xv / u32 D)) by lia.
      rewrite <- (Z.div_1_r (u32 (u32 xv / u32 D))).
      apply (short_tail_yields t 0 _ _ (u32 xv / u32 D)); try done; try lia.
      intros _. apply s32_id. lia.
    + rewrite Z.add_0_r in V3. fold hv in V3. rewrite <- (u32_id hv) by lia.
      apply short_tail_yields; try done; try lia. intros S0. rewrite S0, Z.div_1_r in Eq.
      apply s32_id. lia.
Qed.

(** *** In 32 bits *)

Lemma mulh_unsigned x m : 0 <= m < 2 ^ 32 ->
  u32 (normw 4 (num 4 false x * num 4 false (normw 4 (s32 m)) / 2 ^ 32)) = u32 x * m / 2 ^ 32.
Proof.
  intros Hm. pose proof (u32_range x).
  rewrite !num_u, !normw4, !u32_s32, (u32_id m) by lia. apply u32_id.
  split; [apply Z.div_pos | apply Z.div_lt_upper_bound]; nia.
Qed.

Lemma dm_div32_unsigned x D nv e xv :
  0 <= nv -> x < nv -> e x = Some xv -> 2 <= u32 D ->
  yields (dm_div32 x D false src) nv e (s32 (quot4 false xv D)).
Proof.
  intros Hn Hx He HD. pose proof (u32_range D) as RD. pose proof (u32_range xv) as Rx.
  unfold dm_div32, quot4. cbn [negb]. rewrite land_u32.
  destruct (log2_pow2_l_spec (u32 D) ltac:(lia)) as [(k & Hk & Ek & ->)|[-> _]].
  { replace (0 <=? k) with true by lia. assert (k < 32) by (apply (Z.pow_lt_mono_r_iff 2 k 32); lia).
    unfold yields. econst. elast. by rewrite count4, num_u, normw4, Ek by lia. }
  replace (0 <=? -1) with false by done. destruct (Z.leb_spec 0x80000000 (u32 D)).
  - (* the quotient is 0 or 1 *)
    unfold yields. econst.
    apply (emits_fresh (fun t => set_loc (at_loc src 1) (set_pred B_GE (set_sign false
      (set_w 4 (set_b nv (set_a x (set_dst t (set_op IR_CMP ins_blank)))))))) (nv + 1) e0
      [xv; normw 4 (s32 (u32 D))] (s32 (u32 xv / u32 D))); try done; try lia.
    + rewrite reads_eq. unfold reads_spec. simpl. by rewrite He, V.
    + unfold eval. simpl. f_equal. change (uwrap (bits 4)) with u32.
      rewrite !normw4, !u32_s32, u32_id by lia. f_equal.
      destruct (Z.leb_spec (u32 D) (u32 xv)); simpl.
      * apply Z.div_unique with (u32 xv - u32 D); lia.
      * symmetry. apply Z.div_small. lia.
    + intros e' F V'. split; [lia | done].
  - destruct (magic_u32_divides (u32 D) _ ltac:(lia) eq_refl) as (Hs & Hm & Ha & Hna & _).
    destruct (unsigned_quotient (u32 D) xv ltac:(lia)) as (Rh & Lh & Eq & Rq).
    set (mg := magic_u32 (u32 D)) in *. econst. eop.
    pose proof (mulh_unsigned xv (mu_m mg) Hm) as HU. rewrite <- Eq.
    destruct (mu_add mg) eqn:A; cbn [negb].
    + change (yields (long_tail x (nv + 1) (mu_s mg)) (nv + 1 + 1) e1
        (s32 ((u32 xv + u32 xv * mu_m mg / 2 ^ 32) / 2 ^ mu_s mg))).
      eapply long_tail_yields; try done; lia.
    + change (yields (short_tail (nv + 1) (mu_s mg)) (nv + 1 + 1) e1
        (s32 (u32 xv * mu_m mg / 2 ^ 32 / 2 ^ mu_s mg))).
      rewrite <- HU. apply short_tail_yields; try done; try lia. intros _. apply s32_s32.
Qed.

Lemma dm_div32_signed x D nv e xv :
  0 <= nv -> x < nv -> e x = Some xv -> - 2 ^ 31 <= D < 2 ^ 31 -> 2 <= Z.abs D ->
  yields (dm_div32 x D true src) nv e (s32 (quot4 true xv D)).
Proof.
  intros Hn Hx He HD HA.
  destruct (magic_s32_divides D _ HD HA eq_refl) as (Mg & HM & Hs & Em & Hq).
  pose proof (s32_range xv) as Hr. specialize (Hq (s32 xv) Hr). cbv zeta in Hq.
  unfold dm_div32. cbn [negb]. set (m := s32 (ms_m (magic_s32 D))) in *.
  set (s := ms_s (magic_s32 D)) in *.
  assert (Em' : m = s32 (if D <? 0 then - s32 Mg else s32 Mg)) by (unfold m; by rewrite Em).
  destruct (signed_high D (s32 xv) Mg m HM ltac:(lia) Hr (or_intror Em')) as (Rm & Rx & Rh & Eh).
  set (h := _ / 2 ^ 32) in Rh, Eh.
  rewrite Z.pow_add_r, <- Z.div_div in Hq by (try lia; apply pow2_pos; lia). fold h in Hq.
  econst. eop.
  assert (Z0 : normw 4 (num 4 true xv * num 4 true (normw 4 m) / 2 ^ 32) = s32 xv * m / 2 ^ 32).
  { rewrite !num_s, !normw4, s32_s32. unfold m at 1. rewrite s32_s32. fold m. apply s32_id. lia. }
  rewrite Z0 in V0.
  change (yields (bind (dm_correct (nv + 1) x D m) (fun t => bind (if negb (s =? 0)
      then let* c := dm_const s 4 src in dm_op IR_SHR t c 4 true 0 src else ret t)
      (fun t => let* c := dm_const 31 4 src in let* sb := dm_op IR_SHR t c 4 false 0 src in
                dm_op IR_ADD t sb 4 true 0 src))) (nv + 1 + 1) e1 (s32 (quot4 true xv D))).
  eapply yields_bind.
  - eapply (dm_correct_yields (nv + 1) x D m _ _ xv _ h); try done; lia.
  - intros q nv' e' Hn' Hq' _ V'.
    assert (F : yields (round_tail q s) nv' e' (s32 (quot4 true xv D)))
      by (eapply (signed_finish D q s); try done; lia).
    unfold round_tail in F. by destruct (s =? 0).
Qed.

(** *** Whichever form is taken *)

Lemma quot4_num sg x D : quot4 sg x D = Z.quot (num 4 sg x) (num 4 sg D).
Proof.
  unfold quot4, num. destruct sg; [done|]. pose proof (u32_range x). pose proof (u32_range D).
  symmetry. destruct (decide (u32 D = 0)) as [E|].
  - change (uwrap (bits 4)) with u32. rewrite E. by destruct (u32 x).
  - apply Z.quot_div_nonneg; unfold bits; simpl; lia.
Qed.

Lemma dm_quotient_yields T x D sg nv e xv :
  0 <= nv -> x < nv -> e x = Some xv -> divisor_range sg D ->
  yields (dm_quotient T x D sg src) nv e (s32 (quot4 sg xv D)).
Proof.
  intros Hn Hx He HD. unfold dm_quotient. destruct sg; simpl in HD.
  - destruct HD as [HD HA]. rewrite (s32_id D) by lia. destruct (is_pow2 D) eqn:P; simpl.
    + rewrite andb_false_r. by apply dm_pow2_yields.
    + rewrite andb_true_r. destruct (mulh32 T); [by apply dm_div32_signed | by apply dm_signed64_yields].
  - rewrite andb_true_r. destruct (mulh32 T); [|by apply dm_unsigned64_yields].
    replace (quot4 false xv D) with (quot4 false xv (s32 D)) by (unfold quot4; by rewrite u32_s32).
    apply dm_div32_unsigned; try done. by rewrite u32_s32.
Qed.

(** The value the result instruction leaves. *)
Definition out_val (is_mod : bool) (xv q D : Z) : Z :=
  if is_mod then s32 (xv - s32 (s32 q * s32 D)) else s32 q.

Lemma dm_out_finishes is_mod x q D sg nv e xv Q :
  0 <= nv -> x < nv -> q < nv -> e x = Some xv -> e q = Some (s32 Q) ->
  finishes (dm_out is_mod x q D sg src) nv e (i_dst src) (out_val is_mod xv Q D).
Proof.
  intros Hn Hx Hq He Hqv. unfold dm_out, out_val. apply finishes_bind. destruct is_mod.
  - econst. eapply emits_op; [lia | done | done | eassumption | eassumption | reflexivity |]. estep.
    eapply finishes_push; try done.
    + rewrite reads_eq. unfold reads_spec. simpl. by rewrite He, V0.
    + done.
  - apply emits_ret. eapply finishes_push; try done.
    + rewrite reads_eq. unfold reads_spec. simpl. by rewrite Hqv.
    + done.
Qed.

Lemma dm_expand_finishes T D sg is_mod nv e xv :
  0 <= nv -> i_a src < nv -> e (i_a src) = Some xv -> divisor_range sg D ->
  finishes (let* q := dm_quotient T (i_a src) D sg src in dm_out is_mod (i_a src) q D sg src)
    nv e (i_dst src) (out_val is_mod xv (quot4 sg xv D) D).
Proof.
  intros Hn Hx He HD. apply finishes_bind. eapply emits_mono; [|by apply dm_quotient_yields].
  intros q nv' e' Hn' F [Hq V]. simpl. apply dm_out_finishes; try done; try lia.
  by rewrite F.
Qed.

(** A dividend known to be at most [B], and a shift the 32-bit operation has. *)
Lemma dm_narrow_finishes D B Mg sh is_mod nv e xv :
  0 <= nv -> i_a src < nv -> e (i_a src) = Some xv -> 1 <= D < 2 ^ 16 -> 0 <= B < 2 ^ 16 ->
  0 <= xv <= B -> dm_narrow_magic D B = Some (Mg, sh) -> sh <> 32 ->
  finishes (dm_narrow (i_a src) D Mg sh is_mod src) nv e (i_dst src) (out_val is_mod xv (xv / D) D).
Proof.
  intros Hn Hx He HD HB Hxv HM Hsh.
  destruct (dm_narrow_divides D B Mg sh xv ltac:(lia) HB HM Hxv) as (Hs & H0 & Hp & Hq).
  assert (Pu : u32 (s32 (xv * s32 Mg)) = xv * Mg).
  { rewrite u32_s32, <- (u32_id (xv * Mg)) by lia. apply uwrap_proper. by rewrite eqw_s32. }
  unfold dm_narrow. apply finishes_bind, emits_const; [lia | done |]. estep.
  apply finishes_bind. eapply emits_op; [lia | done | done | eassumption | eassumption | reflexivity |]. estep.
  apply finishes_bind. rewrite !normw4 in V0. destruct (Z.eqb_spec sh 0) as [->|].
  - apply emits_ret. apply dm_out_finishes; try done; try lia.
    rewrite V0. f_equal. rewrite <- Hq, Z.div_1_r. apply s32_cong. by rewrite eqw_s32.
  - econst. eapply emits_op; [lia | done | done | eassumption | eassumption | reflexivity |]. estep.
    apply dm_out_finishes; try done; try lia.
    by rewrite V2, count4, num_u, normw4, Pu, Hq by lia.
Qed.
End Expansions.

(** ** The pass preserves the function *)

Lemma word_ok_cases w : word_ok w = true -> w = 4 \/ w = 8.
Proof. unfold word_ok. intros [?%Z.eqb_eq|?%Z.eqb_eq]%orb_true_iff; auto. Qed.

Lemma const_value_eqw D y : const_value D y -> eqw 32 y D.
Proof.
  intros [->|(w & W & ->)]; [done|].
  destruct (word_ok_cases w W) as [-> | ->]; [apply eqw_s32|].
  apply (eqw_weaken 64); [lia | exact (eqw_swrap 64 D ltac:(lia))].
Qed.

Lemma const_value_small D y : const_value D y -> 0 <= D < 2 ^ 31 -> y = D.
Proof.
  intros [->|(w & W & ->)] HD; [done|].
  destruct (word_ok_cases w W) as [-> | ->]; [apply s32_id; lia | apply s64_id; lia].
Qed.

Lemma num4_eqw sg x y : eqw 32 x y -> num 4 sg x = num 4 sg y.
Proof. intros E. destruct sg; [apply (swrap_proper 32) | apply (uwrap_proper 32)]; done. Qed.

(** The value of the division itself, by a divisor the pass takes. *)
Lemma div_val_out sg is_mod x y D : const_value D y -> divisor_range sg D ->
  normw 4 <$> div_val 4 sg is_mod x y = Some (out_val is_mod x (quot4 sg x D) D).
Proof.
  intros HC HD. unfold div_val. rewrite (num4_eqw sg y D) by (by apply const_value_eqw).
  assert (N : num 4 sg D <> 0 /\ (sg = true -> num 4 sg D <> -1)).
  { unfold divisor_range in HD. destruct sg; simpl in *.
    - change (swrap (bits 4) D) with (s32 D). rewrite (s32_id D); lia.
    - change (uwrap (bits 4) D) with (u32 D). lia. }
  destruct N as [N0 N1]. destruct (Z.eqb_spec (num 4 sg D) 0); [done|].
  replace (sg && (num 4 sg x =? - 2 ^ (bits 4 - 1)) && (num 4 sg D =? -1)) with false
    by (destruct sg; [specialize (N1 eq_refl)|]; lia).
  simpl. rewrite normw4. f_equal. unfold out_val. rewrite quot4_num. destruct is_mod; [|done].
  apply s32_cong. assert (E : forall z, eqw 32 (num 4 sg z) z)
    by (intros z; destruct sg; [apply eqw_s32 | apply eqw_u32]).
  rewrite !eqw_s32. rewrite <- (E x) at 2. rewrite <- (E D) at 3.
  replace (num 4 sg x - _) with (Z.rem (num 4 sg x) (num 4 sg D)); [done|].
  pose proof (Z.quot_rem' (num 4 sg x) (num 4 sg D)). lia.
Qed.

Section Correct.
Context {M : Machine} (T : dm_target) (fn : ir_func).
Let d := compute_defs fn.

(** What the pass relies on: memory reaches frame slots only; the constant operand
    of a 4-byte operation is an integer constant and a divisor's fits the operation;
    a narrow unsigned load is zero-extended; and the short form's shift count is
    one the operation has ([divmagic_shift32] shows it need not be). *)
Record divmagic_context : Prop := {
  dm_esc s : esc s = true -> 0 <= s < nvars fn;
  dm_typed i : i ∈ ins fn -> bin_imm (i_op i) = true -> i_w i = 4 -> const_typed fn i = true;
  dm_range i D : i ∈ ins fn -> dm_divisor T fn d i = Some D ->
    if i_sign i then - 2 ^ 31 <= D < 2 ^ 31 else - 2 ^ 31 <= D < 2 ^ 32;
  dm_loads i vals sl w x v2 sl' w' : i ∈ ins fn -> i_op i = IR_LOAD \/ i_op i = IR_LDVAR ->
    i_sign i = false -> i_flt i = false -> i_w i = 4 -> i_size i = 1 \/ i_size i = 2 ->
    ext (shape i) vals sl w = XRet x v2 sl' w' -> 0 <= x < 2 ^ (8 * i_size i);
  dm_shift i D Mg : i ∈ ins fn -> dm_divisor T fn d i = Some D -> dm_small T fn d i D <> Some (Mg, 32) }.

Context (Hwf : wf_func fn) (Hctx : divmagic_context).

Lemma dm_divisor_inv i D : dm_divisor T fn d i = Some D ->
  (i_op i = IR_DIV \/ i_op i = IR_MOD) /\ i_flt i = false /\ i_w i = 4 /\ 0 <= i_dst i /\
  const_b fn d i = Some D /\ D <> 0 /\ D <> 1 /\ (D = -1 -> i_sign i = false).
Proof.
  unfold dm_divisor, op_is. destruct (_ || _ || _ || _) eqn:G; [done|].
  destruct (const_b fn d i) as [D'|]; [|done].
  destruct ((D' =? 0) || (D' =? 1) || ((D' =? -1) && negb (mulh32 T && negb (i_sign i)))) eqn:K; [done|].
  intros E. injection E as <-.
  assert (Op : i_op i = IR_DIV \/ i_op i = IR_MOD).
  { destruct (bool_decide_reflect (i_op i = IR_DIV)), (bool_decide_reflect (i_op i = IR_MOD)); auto; done. }
  assert (Fl : i_flt i = false) by (destruct (i_flt i); [by rewrite orb_true_r in G | done]).
  rewrite Fl, orb_false_r in G.
  assert (B : negb (i_w i =? 4) || (i_dst i <? 0) = false)
    by (by destruct (negb (_ || _)), (negb (i_w i =? 4))).
  split_and!; try done; try lia. intros ->. destruct (i_sign i); [|done].
  by destruct (mulh32 T).
Qed.

Lemma dm_divisor_range i D : i ∈ ins fn -> dm_divisor T fn d i = Some D -> divisor_range (i_sign i) D.
Proof using Hctx.
  intros Hi HD. pose proof (dm_range Hctx i D Hi HD) as R.
  destruct (dm_divisor_inv i D HD) as (_ & _ & _ & _ & _ & N0 & N1 & N2).
  unfold divisor_range. destruct (i_sign i).
  - split; [done|]. assert (D <> -1) by (intros ?; by specialize (N2 ltac:(done))). lia.
  - destruct (Z_lt_dec D 0).
    + rewrite uwrap_of_s by (unfold is_s; lia). replace (D <? 0) with true by lia. lia.
    + rewrite u32_id; lia.
Qed.

Lemma uwrap_ext_bound size y : size = 1 \/ size = 2 ->
  0 <= normw 4 (uwrap (bits size) y) <= (if size =? 1 then 0xff else 0xffff).
Proof.
  intros Hs. unfold bits. pose proof (uwrap_range (8 * size) y ltac:(lia)) as R. unfold is_u in R.
  destruct Hs as [-> | ->]; simpl in *; rewrite normw4, s32_id; lia.
Qed.

Lemma dm_narrow_bound_ok x B es xv :
  known fn es -> dm_narrow_bound fn d x = Some B -> es x = Some xv -> 0 <= B < 2 ^ 16 /\ 0 <= xv <= B.
Proof using Hwf Hctx.
  intros [_ HO] HB E. unfold dm_narrow_bound in HB. destruct (_ || _ || _ || _) eqn:G; [done|].
  destruct (ins_at fn (d_ins d x)) as [e|] eqn:I; [|done].
  assert (S : single_def fn x (d_ins d x)) by (apply compute_defs_single; fold d; try done; lia).
  assert (L : ins fn !! Z.to_nat (d_ins d x) = Some e) by (rewrite ins_at_lookup in I; [done | lia]).
  assert (Hi : e ∈ ins fn) by (by eapply list_elem_of_lookup_2).
  destruct (_ && _ && _ && _ && _) eqn:C1.
  - unfold op_is in C1. rewrite !andb_true_iff, !orb_true_iff, !negb_true_iff in C1.
    destruct C1 as ((((Op & Sg) & Fl) & Sz) & W). rewrite !bool_decide_eq_true in Op.
    apply Z.eqb_eq in W. assert (Hsz : i_size e = 1 \/ i_size e = 2) by lia.
    assert (B = if i_size e =? 1 then 0xff else 0xffff) as -> by congruence. clear HB.
    split; [clear; destruct (_ =? 1); lia|]. clear Sz.
    destruct (HO x (d_ins d x) e xv) as (e0 & vals & _ & V & R); try done; [lia | by destruct Op as [[-> | ->] | ->]|].
    unfold result_of in R. destruct (computes e) eqn:Cm.
    + rewrite reads_eq in V. unfold reads_spec in V.
      assert (Op' : i_op e = IR_EXT \/ i_op e = IR_LDVAR).
      { destruct Op as [[?|Ol]|?]; auto. unfold computes, op_is in Cm. by rewrite Ol in Cm. }
      assert (exists y, vals = [y]) as [y ->].
      { destruct Op' as [Oe|Oe]; rewrite Oe in V; simpl in V;
          (destruct (e0 (i_a e)); [injection V as <-; eauto | done]). }
      assert (xv = normw 4 (uwrap (bits (i_size e)) y)) as ->.
      { unfold eval, ext_val in R. rewrite Fl, W, Sg in R.
        destruct Hsz as [Hs|Hs], Op' as [Oe|Oe]; rewrite Hs, Oe in R; simpl in R; rewrite ?Hs; congruence. }
      by apply uwrap_ext_bound.
    + destruct R as (sl & w & v2 & sl' & w' & X).
      assert (0 <= xv < 2 ^ (8 * i_size e)).
      { eapply (dm_loads Hctx e); try done. destruct Op as [[Oe|]|]; auto.
        unfold computes, op_is in Cm. by rewrite Oe in Cm. }
      destruct Hsz as [Hs|Hs]; rewrite Hs in *; simpl in *; lia.
  - clear C1. destruct (_ && _ && _) eqn:C2; [|done].
    unfold op_is in C2. rewrite !andb_true_iff, negb_true_iff, bool_decide_eq_true in C2.
    destruct C2 as ((Op & Fl) & W). apply Z.eqb_eq in W.
    destruct (const_b fn d e) as [m|] eqn:CB; [|done].
    destruct ((0 <=? m) && (m <=? 0xffff)) eqn:Rm; [|done]. injection HB as <-.
    destruct (HO x (d_ins d x) e xv) as (e0 & vals & HC & V & R); try done; [lia | by rewrite Op|].
    unfold result_of, computes, op_is in R. rewrite Op in R. simpl in R.
    destruct (const_b_reads fn Hwf _ e m e0 vals HC L) as (a & y & _ & Hy & Ev); try done.
    { by rewrite Op. } { by rewrite W. } { apply (dm_typed Hctx); try done. by rewrite Op. }
    rewrite Ev, W, Op in R. simpl in R. injection R as <-.
    rewrite (const_value_small m y) by (try done; lia).
    pose proof (land_bound a m ltac:(lia)). rewrite normw4, s32_id; lia.
Qed.

(** The division's own value, and where its operand is. *)
Lemma divmagic_eval n i D es vals : known fn es -> ins fn !! n = Some i ->
  dm_divisor T fn d i = Some D -> mapM es (reads i) = Some vals ->
  exists x, es (i_a i) = Some x /\
    eval i vals = Some (out_val (op_is (i_op i) IR_MOD) x (quot4 (i_sign i) x D) D).
Proof using Hwf Hctx.
  intros [HC _] I HD V. assert (Hi : i ∈ ins fn) by (by eapply list_elem_of_lookup_2).
  pose proof (dm_divisor_range i D Hi HD) as R.
  destruct (dm_divisor_inv i D HD) as (Op & Fl & W & _ & CB & _).
  assert (Ob : bin_imm (i_op i) = true) by (by destruct Op as [-> | ->]).
  destruct (const_b_reads fn Hwf n i D es vals HC I) as (x & y & E & Hy & Ev); try done.
  { by rewrite W. } { by apply (dm_typed Hctx). }
  exists x. split; [done|]. rewrite Ev, W, <- (div_val_out _ _ _ y) by done.
  unfold op_is. by destruct Op as [-> | ->].
Qed.

(** A small dividend's quotient is the plain one, signed or not. *)
Lemma quot4_small sg x D : 0 <= x < 2 ^ 31 -> 0 < D < 2 ^ 31 -> quot4 sg x D = x / D.
Proof.
  intros Hx HD. unfold quot4. destruct sg.
  - rewrite !s32_id by lia. apply Z.quot_div_nonneg; lia.
  - by rewrite !u32_id by lia.
Qed.

Lemma divmagic_finishes n i D nv es et x :
  nvregs fn <= nv -> known fn es -> agree fn es et -> ins fn !! n = Some i ->
  dm_divisor T fn d i = Some D -> es (i_a i) = Some x ->
  ~ (dm_small T fn d i D = None /\ pow2_only T && negb (i_sign i && is_pow2 D) = true) ->
  finishes (divmagic_ins T fn d i) nv et (i_dst i)
    (out_val (op_is (i_op i) IR_MOD) x (quot4 (i_sign i) x D) D).
Proof using Hwf Hctx.
  intros Hn HK HA I HD E NP. assert (Hi : i ∈ ins fn) by (by eapply list_elem_of_lookup_2).
  destruct Hwf as [H0 F]. pose proof (Forall_lookup_1 _ _ _ _ F I) as [W _].
  destruct (dm_divisor_inv i D HD) as (Op & _).
  assert (Ha : i_a i < nvregs fn).
  { rewrite reads_eq in W. unfold reads_spec in W.
    destruct Op as [O|O]; rewrite O in W; destruct (i_imm_b i); by inversion W. }
  pose proof (dm_divisor_range i D Hi HD) as R.
  assert (Et : et (i_a i) = Some x) by (by rewrite <- HA).
  unfold divmagic_ins. rewrite HD. cbv zeta.
  destruct (dm_small T fn d i D) as [[Mg sh]|] eqn:Sm.
  - assert (sh <> 32) by (intros ->; by eapply (dm_shift Hctx)).
    unfold dm_small in Sm. destruct (_ && _ && _) eqn:G; [|done].
    destruct (dm_narrow_bound fn d (i_a i)) as [B|] eqn:NB; [|done].
    destruct (dm_narrow_bound_ok _ _ _ _ HK NB E) as [HB Hx].
    assert (RD : 1 < D <= 0xffff) by lia. rewrite u64_id in Sm by lia.
    rewrite quot4_small by lia. eapply dm_narrow_finishes; try done; lia.
  - destruct (pow2_only T && _); [by destruct NP|]. apply dm_expand_finishes; try done; lia.
Qed.

Lemma divmagic_tame i : tame i (divmagic_ins T fn d i).
Proof.
  unfold divmagic_ins, dm_narrow, dm_out, dm_quotient, dm_div32, dm_pow2, dm_signed64, dm_unsigned64.
  tame_tac; apply tame_push; by destruct (op_is _ _).
Qed.

Lemma divmagic_preserves : preserves fn (pass_divmagic T fn).
Proof using Hwf Hctx.
  unfold pass_divmagic. destruct (_ && _ && _); [done|]. fold d.
  apply expand_values; try done.
  - apply (dm_esc Hctx).
  - intros _ i. apply divmagic_tame.
  - intros _ i O. unfold divmagic_ins, dm_divisor, op_is. by rewrite O.
  - intros n i I. destruct (dm_divisor T fn d i) as [D|] eqn:HD.
    2: { left. unfold divmagic_ins. by rewrite HD. }
    destruct (decide (dm_small T fn d i D = None /\ pow2_only T && negb (i_sign i && is_pow2 D) = true))
      as [[S P]|NP].
    { left. unfold divmagic_ins. by rewrite HD, S, P. }
    right. destruct (dm_divisor_inv i D HD) as (Op & _). split.
    { unfold computes, op_is. by destruct Op as [-> | ->]. }
    intros nv es et vals Hn HK HA V _.
    destruct (divmagic_eval n i D es vals HK I HD V) as (x & E & Ev).
    eexists. split; [exact Ev|]. eapply divmagic_finishes; try done.
Qed.
End Correct.

(** ** Properties *)

(** A machine for the witnesses, with no memory and no effects to speak of. *)
#[local] Instance plain_machine : Machine := {|
  world := unit;
  pure_ext _ _ := 0;
  ext _ _ sl w := XRet 0 0 sl w;
  igoto _ := None;
  esc _ := false |}.

(** Targets: a 64-bit one, a 32-bit one with a high multiply, and one where a
    division is a library call. *)
Definition dm_x64 : dm_target := DmTarget 8 true (fun _ => false) false false false false.
Definition dm_rv32m : dm_target := DmTarget 4 true (fun _ => false) false false false false.
Definition dm_soft : dm_target := DmTarget 4 false (fun _ => true) false false false false.

(** [v0 op D] of the given sign, the dividend read through [x]. *)
Definition demo_div (x : ir_ins) (op : ir_op) (sg : bool) (D : Z) : ir_func :=
  let mk op dst a b sg := Ins op dst a b 0 4 4 sg false 0 false B_ADD 0 0 0 (Loc 1 1 0 0 0) mem0 call0 None in
  Fn 1 1 4 0 [] [x; set_imm D (mk IR_CONST 2 (-1) (-1) sg); mk op 3 1 2 sg; mk IR_RET (-1) 3 (-1) sg] [] None [].
Definition demo_ldvar (size : Z) (sg : bool) : ir_ins :=
  Ins IR_LDVAR 1 0 (-1) 0 4 size sg false 0 false B_ADD 0 0 0 (Loc 1 1 0 0 0) mem0 call0 None.
(** [v0 & m], with the mask as an immediate *)
Definition demo_mask (m : Z) : ir_ins :=
  Ins IR_AND 1 0 (-1) 0 4 4 false false m true B_ADD 0 0 0 (Loc 1 1 0 0 0) mem0 call0 None.



